(* ===== verification/_CoqProject ===== *)
-Q . S2P
Prelude.v
CppString.v
Beast.v
UpstreamPool.v
ResponseCache.v
RequestCoalescer.v
HttpHandler.v
HopByHop.v
UpstreamProxy.v
Config.v
Binary64.v
Metrics.v
MetricsScrape.v
HealthMonitor.v
HealthTiming.v
HttpSession.v
HttpServer.v
System.v
SystemRuns.v
SystemDrain.v
SystemAnswers.v
Conformance.v
Main.v
Program.v
