(* ===== verification/Prelude.v ===== *)
(** * EventEdge: a verification library

    EventEdge is an asynchronous HTTP reverse proxy in C++20: it accepts client
    connections, answers its own endpoints, and otherwise serves a request from a
    response cache, from another client's identical request in flight, or from one of
    several upstream servers that it checks for health.  This library models the program
    ([src/src] and [src/include/eventedge]) and proves the properties that make it
    correct.  Definitions keep the names of the sources and are executable; the theorems
    are about all inputs, all completions of the asynchronous operations and all
    interleavings of the threads.

    ** The parts, and where they are modelled

    - [CppString]: the string operations of the C++ library that the sources use
      ([find], [substr], [from_chars], [to_string], ...), with their specifications.
    - [Beast]: the HTTP messages.  Boost.Beast is not part of the repository: its
      operations are the members of the class [Beast] and what the theorems rely on is
      the class [BeastLaws], the documented behaviour; [RefFields] is an instance of both.
    - [UpstreamPool] ([upstream_config.hpp]): the backends with their health flags and the
      round-robin cursor; [UpstreamPool_new], [select], [set_healthy], [is_healthy],
      [pool_endpoint], [pool_size].
    - [ResponseCache] ([response_cache.cpp]): the LRU cache, a linked list with iterators
      and a hash map; [ResponseCache_new], [cache_get], [cache_put], [cache_size].
    - [RequestCoalescer] ([request_coalescer.cpp]): the flights and the callbacks that
      wait for them; [join_or_start], [complete], [coalescer_size], [waiter_count].
    - [HttpHandler] ([http_handler.cpp]): the responses the proxy makes itself.
    - [HopByHop] and [UpstreamProxy] ([upstream_proxy.cpp]): the filtering of the header
      fields, and one exchange with an upstream, a chain of asynchronous operations.
    - [Config] ([main.cpp]): the parsing of ports, worker counts and upstreams.
    - [Metrics] ([metrics.cpp]): the counters, the duration histogram and the text
      exposition; [Binary64]: its doubles, and how their division rounds; [MetricsScrape]:
      rendering while other threads add, with relaxed atomics.
    - [HealthMonitor] ([upstream_health_monitor.cpp]): one health check, and the monitor
      that runs rounds of them; [HealthTiming] puts the rounds in time.
    - [HttpSession] ([http_session.cpp]): one client connection; its handlers are programs
      over the atomic operations of the shared parts.
    - [HttpServer] ([http_server.cpp]): the constructor and the accept loop.
    - [System]: any number of sessions over one pool, cache, coalescer and registry, with
      the deadlines of their streams and of their proxies; [SystemRuns]: what the running
      handlers of the sessions may do; [SystemDrain]: the work they have left, and its end;
      [SystemAnswers]: the requests read, the exchanges with upstreams and the responses
      written along a run.
    - [Conformance]: the repository's deterministic tests, evaluated on these definitions.
    - [Main] ([main.cpp]): the arguments, the order of construction, and the exit code when
      the program gets no further.
    - [Program] ([main.cpp]): the process from then on: the accept loop, the monitor and
      the sessions over the same shared parts, the worker threads, the signals, exceptions
      and the end.

    ** How the code is rendered

    - A function that may throw returns a [result]; the exceptions are [cpp_exception].
    - [std::size_t] and [std::uint64_t] are [Z] with the wrap-around written out
      ([wrap64], [add64], [sub64]); doubles are IEEE 754 binary64 ([SpecFloat]).
    - Time is an argument or a component of the state: [steady_clock] in nanoseconds,
      as an unbounded integer.
    - A member function that holds its mutex for its whole body is one atomic function
      on the state.  What several threads do with one such object is a sequence of calls
      ([pool_run], [cache_run], [coal_run]); the atomics of the registry interleave one
      addition at a time ([interleaving]).
    - A handler of an asynchronous operation is a function from the object to the object
      and the library calls it makes, in order.  The model then keeps what is outstanding
      at the library, and a step delivers one completion ([pexec], [conf_next], [anext]).
      What completions are possible is stated where it matters ([legal]): a completion
      belongs to an outstanding operation; it reports a timeout only when the deadline has
      passed; a timer wait fails only when it was cancelled.  How late a handler may run
      matters only to the time bounds, which take it as a parameter ([latency]).
    - A handler of a session is a [prog]: a tree of atomic operations on the shared parts,
      with a continuation for each answer.  A [path] takes any answers, so a property of
      all paths holds whatever the other threads do; [System] runs the programs of all
      sessions against one shared state, one operation at a time, in any order, and
      [Program] lets the worker threads do so.

    ** What the theorems show

    - The running program ([Program]): each of its parts runs as its own model says; the
      state stays well formed; no handler of the program throws; a signal, or an exception
      that a worker catches, stops the context, and then every run ends; and what each exit
      code means.
    - The sessions together ([System]): every response written answers the last request of
      its session and belongs to it (its own exchange, or one that may be shared, for the
      same target); a request is in at most one place, every flight has exactly one session
      at work on it, every request that was read is answered, and the metrics agree with
      the state.  What the cache holds are the relayed responses of upstreams to requests
      that may share them, under their targets.  Reading a request, answering it and writing
      the response share one deadline of 30 seconds.
    - A session ([HttpSession]): every path refines a routing table ([served]); exactly one
      outcome per request, accounted once; every response fits its request.
    - The proxy: its handler is called exactly once, with the prescribed status, within the
      time budgets, and with a timeout only after one has run out; what is sent upstream
      and what is relayed, without the hop-by-hop fields; the tokenizer of [Connection] is the split at commas, and
      exactly the hop-by-hop fields go.
    - The cache refines an ordered list of entries, stays within its capacity, returns
      only fresh responses and retains those that are in use.  The coalescer calls every
      waiter exactly once.  The pool's loop is the round robin of its description, and is
      fair.
    - The monitor: one verdict per check, rounds that do not overlap and do not stall,
      an orderly end after [stop]; what a verdict changes, and how old it can be.
    - The registry: no update is lost, the histogram is cumulative and exact to the
      nanosecond despite its doubles, the exposition can be read back, and the text of a
      scrape among concurrent calls shows no counter too high nor one that went back.
    - The parsers accept exactly their grammars; [main] gets to its workers with exactly the
      configuration its arguments describe, or fails with the first error.

    The laws of [BeastLaws] are hypotheses of the theorems that need them; each of these
    has a witness with [RefFields].

    ** Fuel and bounds

    [select_from] has one more unit of fuel than the loop of [select] can use (the number
    of backends), and [select_round_robin] shows that the loop ends before it runs out;
    [token_loop] has one more than the length of the text, and each turn consumes a byte.
    ([settle] of [Conformance] is a test driver; its fuel is more than its handlers need.)  The
    other definitions are structurally recursive or plain.  A pool has at most
    [max_backends] elements, the limit of [std::vector].

    ** What is not modelled

    Boost.Asio and Boost.Beast themselves (sockets, resolver, parsing and serialising of
    messages): what they answer is left open, and so is which ready handler a worker takes
    next.  An exception from the library or the allocator is a step of [Program] that may
    happen while any handler runs ([prepare_payload], which throws for a TRACE request with
    a body, among them; [System] has no such step); the handler that throws is left where it
    was, and its worker goes on to its [catch] while the others run.  Not modelled are the overflow of time points, the texts
    of error messages that come from the library, and [HttpServer::port], which asks the
    operating system.  In [System] each call of the registry, [render] included, is one
    step: [Metrics] shows that interleaving the additions changes nothing in the end,
    [MetricsScrape] what a rendering sees meanwhile of the counters and the histogram (the
    series of the upstreams are not part of it).  The tests, the demo backend, the scripts
    and the build files are not part of the proxy. *)

From stdpp Require Import base list relations strings gmap numbers pretty.

(** ** Fallible C++ code

    An operation of the program that may throw returns a [result]: [Ok v] when
    it returns, [Throw e] when the exception [e] leaves it.  The exception
    classes are the ones the sources throw (or let through from [std::vector::at]
    and from the socket calls). *)

Inductive cpp_exception :=
| invalid_argument (what : string)
| runtime_error (what : string)
| out_of_range
| bad_function_call
| system_error (code : Z) (what : string).

Inductive result (A : Type) :=
| Ok (a : A)
| Throw (e : cpp_exception).
Arguments Ok {A} a.
Arguments Throw {A} e.

#[export] Instance cpp_exception_eq_dec : EqDecision cpp_exception.
Proof. solve_decision. Defined.

#[export] Instance result_eq_dec {A} `{EqDecision A} : EqDecision (result A).
Proof. solve_decision. Defined.

Definition result_bind {A B : Type} (m : result A) (k : A -> result B) : result B :=
  match m with
  | Ok a => k a
  | Throw e => Throw e
  end.

Declare Scope cpp_scope.
Delimit Scope cpp_scope with cpp.

(** [let* x := m in k]: run [m], stop if it throws, go on with its value. *)
Notation "'let*' x ':=' m 'in' k" := (result_bind m (fun x => k))
  (at level 10, x name, m at level 100, k at level 200) : cpp_scope.

Open Scope cpp_scope.

(** A [for] loop that calls a throwing function on each element and stops at
    the first exception. *)
Fixpoint result_map {A B : Type} (f : A -> result B) (l : list A) : result (list B) :=
  match l with
  | [] => Ok []
  | x :: xs => let* y := f x in let* ys := result_map f xs in Ok (y :: ys)
  end.

(** ** Unsigned machine integers

    [std::size_t] and [std::uint64_t] are 64 bits wide; their arithmetic wraps. *)

Definition two64 : Z := 18446744073709551616.

Definition wrap64 (z : Z) : Z := (z mod two64)%Z.
Definition add64 (a b : Z) : Z := wrap64 (a + b).
Definition sub64 (a b : Z) : Z := wrap64 (a - b).

(** ** Step systems

    Concurrent parts are step relations; a property of all runs is an invariant
    of the reflexive-transitive closure. *)

Definition reachable {S : Type} (init : S -> Prop) (step : S -> S -> Prop) (s : S) : Prop :=
  exists s0, init s0 /\ rtc step s0 s.

(** ** Hints and tactics of the development *)

Create HintDb ee.
Create Rewrite HintDb ee.

(** Split a hypothesis or goal on the scrutinee of the first [match] it has. *)
Ltac split_match :=
  match goal with
  | |- context [match ?x with _ => _ end] => destruct x eqn:?
  | _ : context [match ?x with _ => _ end] |- _ => destruct x eqn:?
  end.

(** Turn boolean tests of the code into propositions. *)
Ltac reflect_bools :=
  repeat match goal with
  | H : (_ <? _)%Z = true |- _ => apply Z.ltb_lt in H
  | H : (_ <? _)%Z = false |- _ => apply Z.ltb_ge in H
  | H : (_ <=? _)%Z = true |- _ => apply Z.leb_le in H
  | H : (_ <=? _)%Z = false |- _ => apply Z.leb_gt in H
  | H : (_ =? _)%Z = true |- _ => apply Z.eqb_eq in H
  | H : (_ =? _)%Z = false |- _ => apply Z.eqb_neq in H
  | H : (_ =? _)%nat = true |- _ => apply Nat.eqb_eq in H
  | H : (_ =? _)%nat = false |- _ => apply Nat.eqb_neq in H
  | H : (_ && _)%bool = true |- _ => apply andb_true_iff in H; destruct H
  | H : (_ || _)%bool = false |- _ => apply orb_false_iff in H; destruct H
  | H : negb _ = true |- _ => apply negb_true_iff in H
  | H : negb _ = false |- _ => apply negb_false_iff in H
  end.

(** ** Lemmas *)

Lemma result_map_ok_Forall2 {A B} (f : A -> result B) l ys :
  result_map f l = Ok ys <-> Forall2 (fun x y => f x = Ok y) l ys.
Proof.
  revert ys. induction l as [|x l IH]; intros ys; simpl.
  - split; [intros [= <-]; constructor | intros ->%Forall2_nil_inv_l; done].
  - split.
    + destruct (f x) as [y|e] eqn:Hx; [simpl|done].
      destruct (result_map f l) as [ys'|e]; simpl; [|done].
      intros [= <-]. constructor; [done|]. by apply IH.
    + intros (y & ys' & Hy & Hys & ->)%Forall2_cons_inv_l.
      rewrite Hy. simpl. apply IH in Hys. by rewrite Hys.
Qed.

(** A call that throws somewhere makes the whole loop throw the exception of the
    first element that fails. *)
Lemma result_map_throw {A B} (f : A -> result B) l1 x l2 ys e :
  result_map f l1 = Ok ys -> f x = Throw e -> result_map f (l1 ++ x :: l2) = Throw e.
Proof.
  revert ys. induction l1 as [|y l1 IH]; intros ys Hl Hx; simpl in *.
  - by rewrite Hx.
  - destruct (f y); [simpl in *|done].
    destruct (result_map f l1) as [zs|] eqn:E; [|done]. by erewrite IH.
Qed.

(** The first element a filter keeps, with what comes before and after it. *)
Lemma filter_eq_cons {A} (P : A -> Prop) `{!forall x, Decision (P x)} (l : list A) x r :
  filter P l = x :: r ->
  exists j, j < length l /\ l !! j = Some x /\ filter P (take j l) = [] /\ filter P (drop (S j) l) = r.
Proof.
  induction l as [|y l IH]; [done|]. rewrite filter_cons. case_decide as Hy.
  - intros [= -> <-]. exists 0. simpl. rewrite drop_0. split; [lia|done].
  - intros Hl. destruct (IH Hl) as (j & Hj & Hx & Hpre & Hpost).
    exists (S j). simpl. rewrite filter_cons_False by done. split; [lia|done].
Qed.

Lemma list_filter_iff_in {A} (P Q : A -> Prop) `{!forall x, Decision (P x), !forall x, Decision (Q x)}
    (l : list A) :
  (forall x, x ∈ l -> P x <-> Q x) -> filter P l = filter Q l.
Proof.
  induction l as [|x l IH]; intros Hiff; [done|]. rewrite !filter_cons.
  rewrite IH by (intros y Hy; apply Hiff; by right).
  pose proof (Hiff x ltac:(left)). do 2 case_decide; tauto.
Qed.

Lemma filter_all {A} (P : A -> Prop) `{!forall x, Decision (P x)} (l : list A) :
  (forall x, x ∈ l -> P x) -> filter P l = l.
Proof.
  induction l as [|x l IH]; intros HP; [done|]. rewrite filter_cons_True by (apply HP; left).
  f_equal. apply IH. intros y Hy. apply HP. by right.
Qed.

Lemma filter_none {A} (P : A -> Prop) `{!forall x, Decision (P x)} (l : list A) :
  (forall x, x ∈ l -> ~ P x) -> filter P l = [].
Proof.
  induction l as [|x l IH]; intros HP; [done|]. rewrite filter_cons_False by (apply HP; left).
  apply IH. intros y Hy. apply HP. by right.
Qed.

Lemma head_filter_unique {A} (P : A -> Prop) `{!forall x, Decision (P x)} (l : list A) x :
  x ∈ l -> P x -> (forall y, y ∈ l -> P y -> y = x) -> head (filter P l) = Some x.
Proof.
  intros Hx HPx Huniq. destruct (filter P l) as [|y r] eqn:Hf.
  - assert (x ∈ filter P l) as Hin by (by apply list_elem_of_filter).
    rewrite Hf in Hin. by apply not_elem_of_nil in Hin.
  - simpl. f_equal. assert (y ∈ filter P l) as [HPy Hy]%list_elem_of_filter by (rewrite Hf; left).
    by apply Huniq.
Qed.

Lemma NoDup_fmap_inj_in {A B} (f : A -> B) (xs : list A) x y :
  NoDup (f <$> xs) -> x ∈ xs -> y ∈ xs -> f x = f y -> x = y.
Proof.
  induction xs as [|z xs IH]; [by intros _ ?%not_elem_of_nil|]. simpl. rewrite NoDup_cons.
  intros [Hz Hnd] [->|Hx]%elem_of_cons [->|Hy]%elem_of_cons Hf; [done| | |by apply IH].
  - destruct Hz. rewrite Hf. by apply list_elem_of_fmap_2.
  - destruct Hz. rewrite <- Hf. by apply list_elem_of_fmap_2.
Qed.

Lemma NoDup_fmap_filter {A B} (f : A -> B) (P : A -> Prop) `{!forall x, Decision (P x)} (l : list A) :
  NoDup (f <$> l) -> NoDup (f <$> filter P l).
Proof.
  induction l as [|x l IH]; [done|]. simpl. rewrite NoDup_cons, filter_cons. intros [Hx Hnd].
  case_decide; [|by apply IH]. simpl. rewrite NoDup_cons. split; [|by apply IH].
  intros (y & Hy & [_ Hin]%list_elem_of_filter)%list_elem_of_fmap.
  apply Hx. rewrite Hy. by apply list_elem_of_fmap_2.
Qed.

Lemma list_alter_lookup {A} (f : A -> A) (l : list A) i x :
  l !! i = Some x -> alter f i l = <[i := f x]> l.
Proof.
  revert i. induction l as [|y l IH]; intros [|i] Hi; csimpl in *; [done|done|by simplify_eq|].
  f_equal. by apply IH.
Qed.

(** A sum over a list, when one element changes. *)
Lemma sum_list_with_insert {A} (f : A -> nat) (l : list A) i x y :
  l !! i = Some x -> sum_list_with f (<[i := y]> l) + f x = sum_list_with f l + f y.
Proof.
  revert i. induction l as [|z l IH]; intros [|i] Hi; simpl in *; [done|done|simplify_eq; lia|].
  specialize (IH _ Hi). lia.
Qed.

Lemma sum_list_with_zero {A} (f : A -> nat) (l : list A) :
  sum_list_with f l = 0 -> forall x, x ∈ l -> f x = 0.
Proof. intros Hs x Hx. pose proof (sum_list_with_in x f l Hx). lia. Qed.

(** How often a value occurs in a list. *)
Definition occurs {A} `{EqDecision A} (x : A) (l : list A) : nat :=
  sum_list_with (fun y => if decide (y = x) then 1 else 0) l.

Lemma occurs_app {A} `{EqDecision A} (x : A) l1 l2 : occurs x (l1 ++ l2) = occurs x l1 + occurs x l2.
Proof. apply sum_list_with_app. Qed.

Lemma occurs_cons {A} `{EqDecision A} (x y : A) l : occurs x (y :: l) = (if decide (y = x) then 1 else 0) + occurs x l.
Proof. done. Qed.

Lemma occurs_pos {A} `{EqDecision A} (x : A) l : 0 < occurs x l <-> x ∈ l.
Proof.
  induction l as [|y l IH]; [rewrite elem_of_nil; unfold occurs; simpl; lia|].
  rewrite occurs_cons, elem_of_cons, <- IH. case_decide; [naive_solver lia|]. naive_solver lia.
Qed.

#[export] Instance occurs_Permutation_proper {A} `{EqDecision A} (x : A) : Proper ((≡ₚ) ==> (=)) (occurs x).
Proof. intros l1 l2 Hl. unfold occurs. by rewrite Hl. Qed.

Lemma wrap64_small z : (0 <= z < two64)%Z -> wrap64 z = z.
Proof. apply Z.mod_small. Qed.

Lemma wrap64_range z : (0 <= wrap64 z < two64)%Z.
Proof. by apply Z.mod_pos_bound. Qed.

Lemma add64_small a b : (0 <= a + b < two64)%Z -> add64 a b = (a + b)%Z.
Proof. apply wrap64_small. Qed.

Lemma add64_wrap_l a b : add64 (wrap64 a) b = wrap64 (a + b).
Proof. unfold add64, wrap64. by rewrite Zplus_mod_idemp_l. Qed.

Lemma sub64_wrap_l a b : sub64 (wrap64 a) b = wrap64 (a - b).
Proof. unfold sub64, wrap64. by rewrite Zminus_mod_idemp_l. Qed.

#[export] Hint Resolve wrap64_range : ee.
#[export] Hint Rewrite @add64_wrap_l @sub64_wrap_l : ee.

(** The invariant rule: what holds initially and is kept by every step holds of
    every reachable state. *)
Lemma reachable_invariant {S : Type} (init : S -> Prop) (step : S -> S -> Prop) (I : S -> Prop) :
  (forall s, init s -> I s) ->
  (forall s s', I s -> step s s' -> I s') ->
  forall s, reachable init step s -> I s.
Proof.
  intros Hinit Hstep s (s0 & H0 & Hrtc). apply Hinit in H0.
  induction Hrtc; eauto.
Qed.

Lemma reachable_step {S : Type} (init : S -> Prop) (step : S -> S -> Prop) s s' :
  reachable init step s -> step s s' -> reachable init step s'.
Proof. intros (s0 & H0 & Hr) Hs. exists s0. split; [done|]. eapply rtc_r; eauto. Qed.

(** The same rule when an invariant already proved may be used in the step. *)
Lemma reachable_invariant_with {S : Type} (init : S -> Prop) (step : S -> S -> Prop) (J I : S -> Prop) :
  (forall s, reachable init step s -> J s) ->
  (forall s, init s -> I s) ->
  (forall s s', J s -> J s' -> I s -> step s s' -> I s') ->
  forall s, reachable init step s -> I s.
Proof.
  intros HJ Hinit Hstep s Hs.
  enough (I s /\ reachable init step s) by tauto.
  destruct Hs as (s0 & H0 & Hrtc).
  apply rtc_ind_r with (P := fun s => I s /\ reachable init step s) in Hrtc; [done| |].
  - split; [auto|]. exists s0. eauto using rtc_refl.
  - intros y z Hy Hyz [HIy Hry].
    pose proof (reachable_step _ _ _ _ Hry Hyz) as Hrz. split; [eauto|done].
Qed.

(** ** Termination

    When every element of a list can only take finitely many steps, so can the list, in
    which one element steps at a time. *)
Definition list_step {A : Type} (R : A -> A -> Prop) (l l' : list A) : Prop :=
  exists i x y, l !! i = Some x /\ R x y /\ l' = <[i := y]> l.

Lemma list_step_sn {A : Type} (R : A -> A -> Prop) (l : list A) : (forall x, sn R x) -> sn (list_step R) l.
Proof.
  intros HR. induction l as [|x l IHl]; [constructor; intros l' (i & y & z & Hi & _); by rewrite lookup_nil in Hi|].
  revert l IHl. induction (HR x) as [x _ IHx]. intros l Hl. induction Hl as [l Hl IHl].
  constructor. intros l' ([|i] & y & z & Hi & HRyz & ->); simpl in *.
  - injection Hi as ->. apply IHx; [done|]. by constructor.
  - apply IHl. by exists i, y, z.
Qed.
