(* ===== verification/CppString.v ===== *)
(** * Strings of the C++ standard library

    The operations of [std::string_view] and [std::string], [std::to_string] and
    [std::from_chars] that the sources call, on strings of bytes.  A position is a
    [nat]; [npos] is [None].

    - [sv_find], [sv_rfind], [sv_substr], [sv_find_first_not_of],
      [sv_find_last_not_of], [sv_contains]: the searches;
    - [to_string]: decimal printing of an unsigned integer;
    - [from_chars]: decimal scanning of an [unsigned int], with its three outcomes;
    - [str_split], [str_trim]: the reference notions the loops of the sources are
      compared with. *)

From Stdlib Require Import Ascii.
From stdpp Require Import base strings numbers pretty list.
From S2P Require Import Prelude.

(** ** Positions *)

Fixpoint str_drop (n : nat) (s : string) : string :=
  match n, s with
  | O, _ => s
  | S n', EmptyString => EmptyString
  | S n', String _ s' => str_drop n' s'
  end.

Fixpoint str_take (n : nat) (s : string) : string :=
  match n, s with
  | O, _ => EmptyString
  | S n', EmptyString => EmptyString
  | S n', String a s' => String a (str_take n' s')
  end.

Definition sv_substr (pos len : nat) (s : string) : string := str_take len (str_drop pos s).

Fixpoint str_find (c : ascii) (s : string) : option nat :=
  match s with
  | EmptyString => None
  | String a s' => if decide (a = c) then Some 0 else S <$> str_find c s'
  end.

(** [s.find(c, pos)]. *)
Definition sv_find (c : ascii) (pos : nat) (s : string) : option nat :=
  Nat.add pos <$> str_find c (str_drop pos s).

(** [s.rfind(c)]. *)
Fixpoint sv_rfind (c : ascii) (s : string) : option nat :=
  match s with
  | EmptyString => None
  | String a s' =>
      match sv_rfind c s' with
      | Some i => Some (S i)
      | None => if decide (a = c) then Some 0 else None
      end
  end.

Fixpoint sv_find_first_not_of (cs : list ascii) (s : string) : option nat :=
  match s with
  | EmptyString => None
  | String a s' => if decide (a ∈ cs) then S <$> sv_find_first_not_of cs s' else Some 0
  end.

Fixpoint sv_find_last_not_of (cs : list ascii) (s : string) : option nat :=
  match s with
  | EmptyString => None
  | String a s' =>
      match sv_find_last_not_of cs s' with
      | Some i => Some (S i)
      | None => if decide (a ∈ cs) then None else Some 0
      end
  end.

Definition sv_starts_with (c : ascii) (s : string) : bool :=
  match s with String a _ => bool_decide (a = c) | EmptyString => false end.

(** [s.find(needle) != npos]. *)
Fixpoint sv_contains (needle s : string) : bool :=
  String.prefix needle s || match s with EmptyString => false | String _ s' => sv_contains needle s' end.

Fixpoint str_chars (s : string) : list ascii :=
  match s with EmptyString => [] | String a s' => a :: str_chars s' end.

(** ** Numbers *)

(** [std::to_string] and [ostream <<] on an unsigned integer. *)
Definition to_string (z : Z) : string := pretty (Z.to_N z).

Definition digit (a : ascii) : option Z := Z.of_nat <$> Ascii.is_nat a.

(** The longest prefix of decimal digits. *)
Fixpoint digits_prefix (s : string) : string :=
  match s with
  | EmptyString => EmptyString
  | String a s' => match digit a with Some _ => String a (digits_prefix s') | None => EmptyString end
  end.

Fixpoint decimal_from (acc : Z) (s : string) : Z :=
  match s with
  | EmptyString => acc
  | String a s' => decimal_from (acc * 10 + default 0%Z (digit a))%Z s'
  end.

Definition uint_max : Z := 4294967295.

Inductive errc := errc_ok | errc_invalid_argument | errc_result_out_of_range.

#[export] Instance errc_eq_dec : EqDecision errc.
Proof. solve_decision. Defined.

(** [std::from_chars(first, last, value)] for an [unsigned int value] that holds
    [old]: the new value, how far the scan went, and the error. *)
Definition from_chars (old : Z) (s : string) : Z * nat * errc :=
  let ds := digits_prefix s in
  match ds with
  | EmptyString => (old, 0, errc_invalid_argument)
  | _ =>
      let v := decimal_from 0 ds in
      if (v <=? uint_max)%Z then (v, String.length ds, errc_ok)
      else (old, String.length ds, errc_result_out_of_range)
  end.

(** ** Reference notions *)

(** The pieces of [s] between occurrences of [c]. *)
Fixpoint str_split (c : ascii) (s : string) : list string :=
  match s with
  | EmptyString => [EmptyString]
  | String a s' =>
      if decide (a = c) then EmptyString :: str_split c s'
      else match str_split c s' with
           | [] => [String a EmptyString]
           | p :: ps => String a p :: ps
           end
  end.

Fixpoint str_trim_left (cs : list ascii) (s : string) : string :=
  match s with
  | EmptyString => EmptyString
  | String a s' => if decide (a ∈ cs) then str_trim_left cs s' else s
  end.

Fixpoint str_trim_right (cs : list ascii) (s : string) : string :=
  match s with
  | EmptyString => EmptyString
  | String a s' =>
      match str_trim_right cs s' with
      | EmptyString => if decide (a ∈ cs) then EmptyString else String a EmptyString
      | t => String a t
      end
  end.

Definition str_trim (cs : list ascii) (s : string) : string := str_trim_right cs (str_trim_left cs s).

(** ** Lemmas *)

Lemma str_app_nil_r s : s +:+ "" = s.
Proof. induction s as [|a s IH]; [done|]. change (String a (s +:+ "") = String a s). by rewrite IH. Qed.

Lemma str_app_cons a s t : String a s +:+ t = String a (s +:+ t).
Proof. done. Qed.

Lemma str_app_assoc s t u : s +:+ (t +:+ u) = (s +:+ t) +:+ u.
Proof. induction s as [|a s IH]; [done|]. rewrite !str_app_cons. by rewrite IH. Qed.

Lemma str_length_app s t : String.length (s +:+ t) = String.length s + String.length t.
Proof. induction s as [|a s IH]; [done|]. rewrite str_app_cons. simpl. by rewrite IH. Qed.

Lemma str_take_app s t : str_take (String.length s) (s +:+ t) = s.
Proof. induction s as [|a s IH]; [done|]. rewrite str_app_cons. simpl. by rewrite IH. Qed.

Lemma str_drop_app s t n : str_drop (String.length s + n) (s +:+ t) = str_drop n t.
Proof. induction s as [|a s IH]; [done|]. rewrite str_app_cons. done. Qed.

Lemma str_take_drop n s : str_take n s +:+ str_drop n s = s.
Proof.
  revert n. induction s as [|a s IH]; intros [|n]; try done. simpl. rewrite str_app_cons. by rewrite IH.
Qed.

Lemma str_take_ge n s : String.length s <= n -> str_take n s = s.
Proof. revert n. induction s as [|a s IH]; intros [|n] Hn; simpl in *; try done; [lia|]. rewrite IH by lia. done. Qed.

Lemma str_drop_drop n m s : str_drop n (str_drop m s) = str_drop (m + n) s.
Proof. revert m. induction s as [|a s IH]; intros [|m]; simpl; [done|by destruct n|done|apply IH]. Qed.

Lemma str_chars_app s t : str_chars (s +:+ t) = str_chars s ++ str_chars t.
Proof. induction s as [|a s IH]; [done|]. rewrite str_app_cons. simpl. by rewrite IH. Qed.

Lemma str_find_None c s : str_find c s = None <-> c ∉ str_chars s.
Proof.
  induction s as [|a s IH]; simpl; [split; [by intros _ ?%not_elem_of_nil|done]|].
  rewrite not_elem_of_cons. case_decide as Ha; [subst; naive_solver|].
  rewrite fmap_None, IH. naive_solver.
Qed.

Lemma str_find_Some c s i :
  str_find c s = Some i <-> exists s1 s2, s = (s1 +:+ String c s2) /\ c ∉ str_chars s1 /\ String.length s1 = i.
Proof.
  revert i. induction s as [|a s IH]; intros i; simpl.
  - split; [done|]. intros ([|] & ? & ? & _); discriminate.
  - case_decide as Ha.
    + subst a. split.
      * intros [= <-]. exists "", s. split; [done|]. split; [by intros ?%not_elem_of_nil|done].
      * intros ([|b s1] & s2 & Heq & Hc & <-); [done|]. rewrite str_app_cons in Heq. injection Heq as <- ->.
        destruct Hc. by left.
    + rewrite fmap_Some. split.
      * intros (j & Hj & ->). apply IH in Hj as (s1 & s2 & -> & Hc & <-).
        exists (String a s1), s2. split; [done|]. split; [|done]. simpl. rewrite not_elem_of_cons. auto.
      * intros ([|b s1] & s2 & Heq & Hc & Hlen).
        -- change ("" +:+ String c s2) with (String c s2) in Heq. injection Heq as -> ->. done.
        -- rewrite str_app_cons in Heq. injection Heq as <- ->. simpl in Hlen, Hc.
           exists (String.length s1). split; [|done]. apply IH. exists s1, s2.
           rewrite not_elem_of_cons in Hc. naive_solver.
Qed.

Lemma sv_rfind_None c s : sv_rfind c s = None <-> c ∉ str_chars s.
Proof.
  induction s as [|a s IH]; simpl; [split; [by intros _ ?%not_elem_of_nil|done]|].
  rewrite not_elem_of_cons. destruct (sv_rfind c s); [naive_solver|].
  case_decide; naive_solver.
Qed.

Lemma sv_rfind_app c s1 s2 :
  c ∉ str_chars s2 -> sv_rfind c (s1 +:+ String c s2) = Some (String.length s1).
Proof.
  intros Hc. apply sv_rfind_None in Hc. induction s1 as [|a s1 IH].
  - change ("" +:+ String c s2) with (String c s2). simpl. rewrite Hc. by rewrite decide_True.
  - rewrite str_app_cons. simpl. by rewrite IH.
Qed.

Lemma sv_rfind_Some c s i :
  sv_rfind c s = Some i -> exists s1 s2, s = (s1 +:+ String c s2) /\ c ∉ str_chars s2 /\ String.length s1 = i.
Proof.
  revert i. induction s as [|a s IH]; intros i; simpl; [done|].
  destruct (sv_rfind c s) as [j|] eqn:Hr.
  - intros [= <-]. destruct (IH j eq_refl) as (s1 & s2 & -> & Hc & <-).
    exists (String a s1), s2. done.
  - case_decide as Ha; [|done]. subst a. intros [= <-]. exists "", s.
    split; [done|]. split; [by apply sv_rfind_None|done].
Qed.

(** *** Trimming *)

Lemma first_not_of_Some cs s f :
  sv_find_first_not_of cs s = Some f ->
  str_trim_left cs s = str_drop f s /\
  exists l, sv_find_last_not_of cs s = Some l /\ f <= l /\ sv_find_last_not_of cs (str_drop f s) = Some (l - f).
Proof.
  revert f. induction s as [|a s IH]; intros f; simpl; [done|].
  case_decide as Ha.
  - intros (g & Hg & ->)%fmap_Some. destruct (IH g Hg) as (Ht & l & Hl & Hle & Hd).
    rewrite Hl. simpl. split; [done|]. exists (S l). split; [done|]. split; [lia|done].
  - intros [= <-]. simpl. split; [done|]. rewrite decide_False by done.
    destruct (sv_find_last_not_of cs s) as [l|].
    + exists (S l). split; [done|]. split; [lia|done].
    + exists 0. auto.
Qed.

Lemma first_not_of_None cs s : sv_find_first_not_of cs s = None -> str_trim_left cs s = "".
Proof.
  induction s as [|a s IH]; simpl; [done|]. case_decide; [|done].
  rewrite fmap_None. apply IH.
Qed.

Lemma last_not_of_None cs s : sv_find_last_not_of cs s = None -> str_trim_right cs s = "".
Proof.
  induction s as [|a s IH]; simpl; [done|].
  destruct (sv_find_last_not_of cs s); [done|]. rewrite IH by done. by case_decide.
Qed.

Lemma last_not_of_Some cs s l :
  sv_find_last_not_of cs s = Some l -> str_trim_right cs s = str_take (S l) s /\ str_trim_right cs s <> "".
Proof.
  revert l. induction s as [|a s IH]; intros l; simpl; [done|].
  destruct (sv_find_last_not_of cs s) as [k|] eqn:Hk.
  - intros [= <-]. destruct (IH k eq_refl) as [-> Hne].
    destruct (str_take (S k) s) eqn:E; [done|]. done.
  - intros H. rewrite last_not_of_None by done. case_decide; [done|]. by simplify_eq.
Qed.

(** The token extraction of the sources, [substr(first, last - first + 1)], is a
    trim on both sides. *)
Lemma substr_trim cs s f l :
  sv_find_first_not_of cs s = Some f -> sv_find_last_not_of cs s = Some l ->
  sv_substr f (l - f + 1) s = str_trim cs s /\ str_trim cs s <> "".
Proof.
  intros Hf Hl. destruct (first_not_of_Some _ _ _ Hf) as (Ht & l' & Hl' & Hle & Hd).
  rewrite Hl in Hl'. simplify_eq. unfold str_trim, sv_substr. rewrite Ht.
  destruct (last_not_of_Some _ _ _ Hd) as [-> Hne]. by replace (l' - f + 1) with (S (l' - f)) by lia.
Qed.

Lemma trim_none cs s : sv_find_first_not_of cs s = None -> str_trim cs s = "".
Proof. intros Hf. unfold str_trim. by rewrite first_not_of_None. Qed.

(** *** Splitting *)

Lemma str_split_no c s : c ∉ str_chars s -> str_split c s = [s].
Proof.
  induction s as [|a s IH]; simpl; [done|]. rewrite not_elem_of_cons. intros [Ha Hs].
  rewrite decide_False by congruence. by rewrite IH.
Qed.

Lemma str_split_cut c s1 s2 :
  c ∉ str_chars s1 -> str_split c (s1 +:+ String c s2) = s1 :: str_split c s2.
Proof.
  induction s1 as [|a s1 IH]; simpl.
  - intros _. change ("" +:+ String c s2) with (String c s2). simpl. by rewrite decide_True.
  - rewrite not_elem_of_cons. intros [Ha Hs]. rewrite ?str_app_cons. simpl.
    rewrite decide_False by congruence. by rewrite IH.
Qed.

(** *** Decimal numbers *)

Definition all_digits (s : string) : Prop := Forall (fun a => is_Some (digit a)) (str_chars s).

Definition no_digit_first (s : string) : Prop :=
  match s with EmptyString => True | String a _ => digit a = None end.

Lemma digits_prefix_app s rest :
  all_digits s -> no_digit_first rest -> digits_prefix (s +:+ rest) = s.
Proof.
  unfold all_digits. induction s as [|a s IH]; simpl.
  - intros _ Hr. destruct rest as [|b rest]; [done|]. simpl in Hr.
    change ("" +:+ String b rest) with (String b rest). simpl. by rewrite Hr.
  - rewrite Forall_cons. intros [[d Hd] Hs] Hr. rewrite ?str_app_cons. simpl. rewrite Hd. by rewrite IH.
Qed.

Lemma digits_prefix_all s : all_digits (digits_prefix s).
Proof.
  unfold all_digits. induction s as [|a s IH]; simpl; [constructor|].
  destruct (digit a) eqn:Hd; simpl; constructor; [by rewrite Hd|done].
Qed.

Lemma digits_prefix_split s : exists rest, s = (digits_prefix s +:+ rest) /\ no_digit_first rest.
Proof.
  induction s as [|a s IH]; simpl; [by exists ""|].
  destruct (digit a) eqn:Hd; [|by exists (String a s)].
  destruct IH as (rest & Hs & Hr). exists rest. split; [|done]. rewrite ?str_app_cons. by rewrite <- Hs.
Qed.

Lemma digit_pretty_char x : (x < 10)%N -> digit (pretty_N_char x) = Some (Z.of_N x).
Proof.
  intros Hx.
  assert (x = 0 \/ x = 1 \/ x = 2 \/ x = 3 \/ x = 4 \/ x = 5 \/ x = 6 \/ x = 7 \/ x = 8 \/ x = 9)%N as H by lia.
  naive_solver.
Qed.

Lemma pretty_go_digits x s : all_digits s -> all_digits (pretty_N_go x s).
Proof.
  unfold all_digits. revert s. induction (N.lt_wf_0 x) as [x _ IH]; intros s Hs.
  destruct (decide (x = 0)%N) as [->|Hx]; [by rewrite pretty_N_go_0|].
  rewrite pretty_N_go_step by lia. apply IH; [apply N.div_lt; lia|]. simpl. constructor; [|done].
  rewrite digit_pretty_char by (apply N.mod_lt; lia). eauto.
Qed.

Lemma pretty_go_value x s : decimal_from 0 (pretty_N_go x s) = decimal_from (Z.of_N x) s.
Proof.
  revert s. induction (N.lt_wf_0 x) as [x _ IH]; intros s.
  destruct (decide (x = 0)%N) as [->|Hx]; [by rewrite pretty_N_go_0|].
  rewrite pretty_N_go_step by lia. rewrite IH by (apply N.div_lt; lia). simpl.
  rewrite digit_pretty_char by (apply N.mod_lt; lia). simpl. f_equal.
  pose proof (N.div_mod x 10 ltac:(lia)). lia.
Qed.

Lemma pretty_go_nonempty x s : s <> "" -> pretty_N_go x s <> "".
Proof.
  revert s. induction (N.lt_wf_0 x) as [x _ IH]; intros s Hs.
  destruct (decide (x = 0)%N) as [->|Hx]; [by rewrite pretty_N_go_0|].
  rewrite pretty_N_go_step by lia. apply IH; [apply N.div_lt; lia|done].
Qed.

Lemma to_string_digits z : all_digits (to_string z).
Proof.
  unfold to_string, pretty, pretty_N. case_decide; [|apply pretty_go_digits; constructor].
  unfold all_digits. simpl. repeat constructor. vm_compute. eauto.
Qed.

Lemma to_string_value z : (0 <= z)%Z -> decimal_from 0 (to_string z) = z.
Proof.
  intros Hz. unfold to_string, pretty, pretty_N. case_decide as H0; [simpl; lia|].
  rewrite pretty_go_value. simpl. lia.
Qed.

Lemma to_string_nonempty z : to_string z <> "".
Proof.
  unfold to_string, pretty, pretty_N. case_decide as H0; [done|].
  rewrite pretty_N_go_step by lia. by apply pretty_go_nonempty.
Qed.

Lemma digit_nonneg a : (0 <= default 0 (digit a))%Z.
Proof. unfold digit. destruct (Ascii.is_nat a); simpl; lia. Qed.

Lemma decimal_from_nonneg acc s : (0 <= acc)%Z -> (0 <= decimal_from acc s)%Z.
Proof.
  revert acc. induction s as [|a s IH]; intros acc Hacc; simpl; [done|].
  apply IH. pose proof (digit_nonneg a). lia.
Qed.

Lemma to_string_inj a b : (0 <= a)%Z -> (0 <= b)%Z -> to_string a = to_string b -> a = b.
Proof. intros Ha Hb Heq. rewrite <- (to_string_value a), <- (to_string_value b), Heq by done. done. Qed.

(** Printing then scanning gives the number back, whatever follows it. *)
Lemma from_chars_to_string old z rest :
  (0 <= z <= uint_max)%Z -> no_digit_first rest ->
  from_chars old (to_string z +:+ rest) = (z, String.length (to_string z), errc_ok).
Proof.
  intros Hz Hr. unfold from_chars. rewrite digits_prefix_app by (done || apply to_string_digits).
  destruct (to_string z) eqn:E; [by apply to_string_nonempty in E|]. rewrite <- E.
  rewrite to_string_value by lia. by rewrite (proj2 (Z.leb_le _ _)) by lia.
Qed.

Lemma digit_not_colon : digit ":"%char = None.
Proof. reflexivity. Qed.

(** A decimal number has no separator in it. *)
Lemma to_string_no_char z a : digit a = None -> a ∉ str_chars (to_string z).
Proof.
  intros Ha Hin. pose proof (to_string_digits z) as Hd. unfold all_digits in Hd.
  rewrite Forall_forall in Hd. destruct (Hd a Hin) as [? ?]. congruence.
Qed.

(** *** Substrings *)

Lemma prefix_true n s : String.prefix n s = true <-> exists b, s = (n +:+ b).
Proof.
  revert s. induction n as [|a n IH]; intros s; simpl.
  - split; [by exists s|by destruct s].
  - destruct s as [|b s]; [split; [done|by intros [? ?]]|].
    cbn [String.prefix]. destruct (Ascii.ascii_dec a b) as [->|Hne].
    + rewrite IH. split; intros [c Hc]; exists c; [by rewrite Hc|]. rewrite str_app_cons in Hc. by injection Hc.
    + split; [done|]. intros [c Hc]. rewrite str_app_cons in Hc. by injection Hc.
Qed.

Lemma sv_contains_true n s : sv_contains n s = true <-> exists a b, s = (a +:+ n +:+ b).
Proof.
  induction s as [|c s IH]; cbn [sv_contains].
  - rewrite orb_false_r, prefix_true. split; [intros [b Hb]; by exists "", b|].
    intros (a & b & Hab). destruct a; [by exists b|done].
  - rewrite orb_true_iff, prefix_true, IH. split.
    + intros [[b Hb]|(a & b & Hab)]; [by exists "", b|]. exists (String c a), b. by rewrite Hab.
    + intros (a & b & Hab). destruct a as [|c' a]; [left; by exists b|right].
      rewrite str_app_cons in Hab. injection Hab as -> ->. by exists a, b.
Qed.
