(* ===== verification/Beast.v ===== *)
(** * The interface to Boost.Beast

    The HTTP messages of the program are [http::message] of Boost.Beast, which is
    not part of the repository.  Its container of header fields and the operations
    that depend on them are parameters: the class [Beast] has one member per library
    operation the sources call, and [BeastLaws] states the documented behaviour the
    theorems rely on, law by law.  Everything about messages in the other files is
    stated for any type [F] with these two instances.

    - [request], [response]: the start line, the fields and the body;
    - [fields_list] is the iteration order of the container; [fields_find] is
      [find]/[operator[]], the first field whose name matches; names are compared
      without regard to case ([name_eq]);
    - [get_keep_alive_impl], [set_keep_alive_impl]: the customization points behind
      [message::keep_alive]; [req_prepare_payload], [res_prepare_payload]:
      [message::prepare_payload]; [need_eof]: [message::need_eof].  What
      [prepare_payload] throws, for a body the method or the status does not admit (a
      TRACE request with one), is an exception of the library like any other: it is not a
      value here, and [Program] has it as a step;
    - [RefFields]: an instance (a plain list of fields), used to evaluate the model
      and to show that the laws can hold together. *)

From Stdlib Require Import Ascii.
From stdpp Require Import base strings numbers pretty list.
From S2P Require Import Prelude CppString.

(** ** Names *)

Definition ascii_lower (a : ascii) : ascii :=
  let n := nat_of_ascii a in
  if (65 <=? n) && (n <=? 90) then ascii_of_nat (n + 32) else a.

Fixpoint str_lower (s : string) : string :=
  match s with EmptyString => EmptyString | String a s' => String (ascii_lower a) (str_lower s') end.

(** Field names are compared without regard to case. *)
Definition name_eq (n m : string) : bool := bool_decide (str_lower n = str_lower m).

Module field.
Definition allow : string := "Allow".
Definition authorization : string := "Authorization".
Definition cache_control : string := "Cache-Control".
Definition connection : string := "Connection".
Definition content_length : string := "Content-Length".
Definition content_type : string := "Content-Type".
Definition host : string := "Host".
Definition keep_alive : string := "Keep-Alive".
Definition proxy_authenticate : string := "Proxy-Authenticate".
Definition proxy_authorization : string := "Proxy-Authorization".
Definition server : string := "Server".
Definition set_cookie : string := "Set-Cookie".
Definition te : string := "TE".
Definition trailer : string := "Trailer".
Definition transfer_encoding : string := "Transfer-Encoding".
Definition upgrade : string := "Upgrade".
End field.

(** ** Messages *)

(** [http::verb]: the sources only ask whether a request is a GET. *)
Inductive verb := verb_get | verb_other (code : N).

#[export] Instance verb_eq_dec : EqDecision verb.
Proof. solve_decision. Defined.

Record request (F : Type) := mkRequest {
  req_method : verb;
  req_target : string;
  req_version : Z;
  req_fields : F;
  req_body : string;
}.
Arguments mkRequest {F}.
Arguments req_method {F}.
Arguments req_target {F}.
Arguments req_version {F}.
Arguments req_fields {F}.
Arguments req_body {F}.

Record response (F : Type) := mkResponse {
  res_result : Z;
  res_version : Z;
  res_fields : F;
  res_body : string;
}.
Arguments mkResponse {F}.
Arguments res_result {F}.
Arguments res_version {F}.
Arguments res_fields {F}.
Arguments res_body {F}.

(** ** Error codes

    The values the sources distinguish; [ec_success] is the code that tests false. *)
Inductive error_code :=
| ec_success
| ec_timeout                 (* beast::error::timeout *)
| ec_operation_aborted       (* asio::error::operation_aborted *)
| ec_end_of_stream           (* http::error::end_of_stream *)
| ec_other (code : Z).

#[export] Instance error_code_eq_dec : EqDecision error_code.
Proof. solve_decision. Defined.

(** [if (error)]. *)
Definition is_error (e : error_code) : bool :=
  match e with ec_success => false | _ => true end.

(** ** The operations *)

Class Beast (F : Type) := {
  fields_empty : F;
  fields_list : F -> list (string * string);
  fields_set : string -> string -> F -> F;
  fields_erase : string -> F -> F;
  get_keep_alive_impl : Z -> F -> bool;
  set_keep_alive_impl : Z -> bool -> F -> F;
  req_prepare_payload : request F -> request F;
  res_prepare_payload : response F -> response F;
  need_eof : response F -> bool;
}.

Section messages.
Context {F : Type} `{Beast F}.

Definition named (n : string) (e : string * string) : Prop := name_eq e.1 n = true.

#[export] Instance named_dec n e : Decision (named n e).
Proof. unfold named. apply _. Defined.

Definition fields_named (n : string) (f : F) : list (string * string) :=
  filter (named n) (fields_list f).

Definition fields_without (n : string) (f : F) : list (string * string) :=
  filter (fun e => ~ named n e) (fields_list f).

(** [f.find(name)]: the value of the first matching field, [None] for [end()]. *)
Definition fields_find (n : string) (f : F) : option string := snd <$> head (fields_named n f).

(** [f[name]]: the value of the first matching field, or the empty string. *)
Definition fields_at (n : string) (f : F) : string := default "" (fields_find n f).

(** The message operations of the sources, in terms of the fields. *)
Definition req_keep_alive (r : request F) : bool := get_keep_alive_impl (req_version r) (req_fields r).
Definition res_keep_alive (r : response F) : bool := get_keep_alive_impl (res_version r) (res_fields r).

Definition req_with_fields (f : F) (r : request F) : request F :=
  mkRequest (req_method r) (req_target r) (req_version r) f (req_body r).
Definition req_with_version (v : Z) (r : request F) : request F :=
  mkRequest (req_method r) (req_target r) v (req_fields r) (req_body r).
Definition req_set (n v : string) (r : request F) : request F :=
  req_with_fields (fields_set n v (req_fields r)) r.
Definition req_set_keep_alive (k : bool) (r : request F) : request F :=
  req_with_fields (set_keep_alive_impl (req_version r) k (req_fields r)) r.

Definition res_with_fields (f : F) (r : response F) : response F :=
  mkResponse (res_result r) (res_version r) f (res_body r).
Definition res_with_version (v : Z) (r : response F) : response F :=
  mkResponse (res_result r) v (res_fields r) (res_body r).
Definition res_with_body (b : string) (r : response F) : response F :=
  mkResponse (res_result r) (res_version r) (res_fields r) b.
Definition res_set (n v : string) (r : response F) : response F :=
  res_with_fields (fields_set n v (res_fields r)) r.
Definition res_set_keep_alive (k : bool) (r : response F) : response F :=
  res_with_fields (set_keep_alive_impl (res_version r) k (res_fields r)) r.

(** [HttpResponse{status, version}] and [HttpRequest{}]. *)
Definition res_new (status version : Z) : response F := mkResponse status version fields_empty "".
Definition req_empty : request F := mkRequest (verb_other 0) "" 11 fields_empty "".

(** The fields [prepare_payload] may adjust. *)
Definition payload_field (e : string * string) : Prop :=
  named field.content_length e \/ named field.transfer_encoding e.

#[export] Instance payload_field_dec e : Decision (payload_field e).
Proof. unfold payload_field. apply _. Defined.

Definition fields_but_payload (f : F) : list (string * string) :=
  filter (fun e => ~ payload_field e) (fields_list f).
End messages.

(** ** The documented behaviour *)

Class BeastLaws (F : Type) `{Beast F} : Prop := {
  (* a default-constructed container has no field *)
  empty_list : fields_list fields_empty = [];
  (* erase(name) removes all the fields with that name, and no other *)
  erase_list f n : fields_list (fields_erase n f) = filter (fun e => ~ named n e) (fields_list f);
  (* set(name, value) removes the fields with that name and inserts one *)
  set_named f n v : fields_named n (fields_set n v f) = [(n, v)];
  set_without f n v : fields_without n (fields_set n v f) = fields_without n f;
  (* keep_alive reads and adjusts the Connection field only *)
  get_keep_alive_connection f g v :
    fields_named field.connection f = fields_named field.connection g ->
    get_keep_alive_impl v f = get_keep_alive_impl v g;
  get_set_keep_alive f v k : get_keep_alive_impl v (set_keep_alive_impl v k f) = k;
  set_keep_alive_without f v k :
    fields_without field.connection (set_keep_alive_impl v k f) = fields_without field.connection f;
  (* an HTTP/1.1 message with Connection: close does not keep the connection alive *)
  get_keep_alive_close f :
    fields_named field.connection f = [(field.connection, "close")] -> get_keep_alive_impl 11 f = false;
  (* prepare_payload adjusts Content-Length and Transfer-Encoding from the body *)
  req_payload_fields r : fields_but_payload (req_fields (req_prepare_payload r)) = fields_but_payload (req_fields r);
  req_payload_rest r :
    req_method (req_prepare_payload r) = req_method r /\ req_target (req_prepare_payload r) = req_target r /\
    req_version (req_prepare_payload r) = req_version r /\ req_body (req_prepare_payload r) = req_body r;
  res_payload_fields r : fields_but_payload (res_fields (res_prepare_payload r)) = fields_but_payload (res_fields r);
  res_payload_rest r :
    res_result (res_prepare_payload r) = res_result r /\ res_version (res_prepare_payload r) = res_version r /\
    res_body (res_prepare_payload r) = res_body r;
  res_payload_length r :
    res_body r <> "" ->
    fields_find field.content_length (res_fields (res_prepare_payload r)) =
      Some (to_string (Z.of_nat (String.length (res_body r))));
  (* a string body has a known size, so that prepare_payload asks for no Transfer-Encoding *)
  req_payload_unencoded r :
    fields_named field.transfer_encoding (req_fields r) = [] ->
    fields_named field.transfer_encoding (req_fields (req_prepare_payload r)) = [];
  res_payload_unencoded r :
    fields_named field.transfer_encoding (res_fields r) = [] ->
    fields_named field.transfer_encoding (res_fields (res_prepare_payload r)) = [];
  (* a response that does not keep the connection alive ends with the connection *)
  need_eof_close r : res_keep_alive r = false -> need_eof r = true;
}.

(** ** Lemmas *)

Lemma name_eq_refl n : name_eq n n = true.
Proof. by apply bool_decide_eq_true_2. Qed.

Lemma name_eq_trans_named n m e : name_eq n m = false -> named m e -> ~ named n e.
Proof.
  unfold named, name_eq. rewrite bool_decide_eq_false, !bool_decide_eq_true. congruence.
Qed.

Lemma named_congr n m e : name_eq n m = true -> named n e <-> named m e.
Proof.
  unfold named, name_eq. rewrite !bool_decide_eq_true. intros ->. done.
Qed.

Section lemmas.
Context {F : Type} `{!Beast F, !BeastLaws F}.
Implicit Types (f : F) (r : response F) (q : request F).

Lemma fields_named_congr n m f : name_eq n m = true -> fields_named m f = fields_named n f.
Proof using Type. intros Hnm. apply list_filter_iff. intros e. symmetry. by apply named_congr. Qed.

(** What one field name sees is decided by the other fields. *)
Lemma fields_named_without n m f :
  name_eq n m = false -> fields_named m f = filter (named m) (fields_without n f).
Proof using Type.
  intros Hne. unfold fields_named, fields_without. rewrite list_filter_filter.
  apply list_filter_iff. intros e. split; [|tauto]. intros He. split; [done|]. by eapply name_eq_trans_named.
Qed.

Lemma fields_named_of_without n m f g :
  name_eq n m = false -> fields_without n f = fields_without n g -> fields_named m f = fields_named m g.
Proof using Type. intros Hne Heq. rewrite !(fields_named_without n m) by done. by rewrite Heq. Qed.

Lemma find_set_eq n v f : fields_find n (fields_set n v f) = Some v.
Proof. unfold fields_find. by rewrite set_named. Qed.

Lemma named_set_ne n m v f : name_eq n m = false -> fields_named m (fields_set n v f) = fields_named m f.
Proof. intros Hne. apply (fields_named_of_without n); [done|]. apply set_without. Qed.

Lemma find_set_ne n m v f : name_eq n m = false -> fields_find m (fields_set n v f) = fields_find m f.
Proof. intros Hne. unfold fields_find. by rewrite named_set_ne. Qed.

Lemma named_keep_alive_ne m v k f :
  name_eq field.connection m = false -> fields_named m (set_keep_alive_impl v k f) = fields_named m f.
Proof. intros Hne. apply (fields_named_of_without field.connection); [done|]. apply set_keep_alive_without. Qed.

Lemma find_keep_alive_ne m v k f :
  name_eq field.connection m = false -> fields_find m (set_keep_alive_impl v k f) = fields_find m f.
Proof. intros Hne. unfold fields_find. by rewrite named_keep_alive_ne. Qed.

Lemma keep_alive_set_ne n v x f :
  name_eq n field.connection = false -> get_keep_alive_impl v (fields_set n x f) = get_keep_alive_impl v f.
Proof. intros Hne. apply get_keep_alive_connection. by apply named_set_ne. Qed.

Lemma fields_named_of_payload m f g :
  name_eq field.content_length m = false -> name_eq field.transfer_encoding m = false ->
  fields_but_payload f = fields_but_payload g -> fields_named m f = fields_named m g.
Proof using Type.
  intros H1 H2 Heq.
  assert (forall f, fields_named m f = filter (named m) (fields_but_payload f)) as Hf.
  { intros f0. unfold fields_named, fields_but_payload. rewrite list_filter_filter.
    apply list_filter_iff. intros e. unfold payload_field. split; [|tauto]. intros He. split; [done|].
    intros [Hn|Hn]; [by eapply (name_eq_trans_named field.content_length m)|
                     by eapply (name_eq_trans_named field.transfer_encoding m)]. }
  by rewrite !Hf, Heq.
Qed.

Lemma res_payload_named m r :
  name_eq field.content_length m = false -> name_eq field.transfer_encoding m = false ->
  fields_named m (res_fields (res_prepare_payload r)) = fields_named m (res_fields r).
Proof. intros. apply fields_named_of_payload; [done|done|]. apply res_payload_fields. Qed.

Lemma res_payload_find m r :
  name_eq field.content_length m = false -> name_eq field.transfer_encoding m = false ->
  fields_find m (res_fields (res_prepare_payload r)) = fields_find m (res_fields r).
Proof. intros. unfold fields_find. by rewrite res_payload_named. Qed.

Lemma req_payload_named m q :
  name_eq field.content_length m = false -> name_eq field.transfer_encoding m = false ->
  fields_named m (req_fields (req_prepare_payload q)) = fields_named m (req_fields q).
Proof. intros. apply fields_named_of_payload; [done|done|]. apply req_payload_fields. Qed.

Lemma res_payload_keep_alive r : res_keep_alive (res_prepare_payload r) = res_keep_alive r.
Proof.
  unfold res_keep_alive. destruct (res_payload_rest r) as (_ & -> & _).
  apply get_keep_alive_connection. by apply res_payload_named.
Qed.

Lemma res_set_keep_alive_get k r : res_keep_alive (res_set_keep_alive k r) = k.
Proof. unfold res_keep_alive, res_set_keep_alive. simpl. apply get_set_keep_alive. Qed.

Lemma named_erase n m f :
  fields_named m (fields_erase n f) = if name_eq n m then [] else fields_named m f.
Proof.
  unfold fields_named at 1. rewrite erase_list. destruct (name_eq n m) eqn:Hnm.
  - apply filter_none. intros e [Hn _]%list_elem_of_filter Hm. apply Hn. by eapply named_congr.
  - change (filter (named m) (fields_without n f) = fields_named m f). by rewrite <- fields_named_without.
Qed.
End lemmas.

(** ** An instance: a list of fields *)

Module RefFields.

Abbreviation t := (list (string * string)).

Definition erase (n : string) (f : t) : t := filter (fun e => ~ named n e) f.

Definition set (n v : string) (f : t) : t := erase n f ++ [(n, v)].

Definition tokens (f : t) : list string :=
  str_trim [" "; "009"]%char <$> mjoin ((fun e => str_split ","%char (str_lower e.2)) <$> filter (named field.connection) f).

Definition get_keep_alive (v : Z) (f : t) : bool :=
  if (v <? 11)%Z then bool_decide ("keep-alive" ∈ tokens f) else bool_decide ("close" ∉ tokens f).

Definition set_keep_alive (v : Z) (k : bool) (f : t) : t :=
  if (v <? 11)%Z
  then if k then set field.connection "keep-alive" f else erase field.connection f
  else if k then erase field.connection f else set field.connection "close" f.

Definition set_length (body : string) (f : t) : t :=
  set field.content_length (to_string (Z.of_nat (String.length body))) (erase field.transfer_encoding f).

#[global] Instance beast : Beast t := {
  fields_empty := [];
  fields_list := fun f => f;
  fields_set := set;
  fields_erase := erase;
  get_keep_alive_impl := get_keep_alive;
  set_keep_alive_impl := set_keep_alive;
  req_prepare_payload := fun q =>
    mkRequest (req_method q) (req_target q) (req_version q) (set_length (req_body q) (req_fields q)) (req_body q);
  res_prepare_payload := fun r =>
    mkResponse (res_result r) (res_version r) (set_length (res_body r) (res_fields r)) (res_body r);
  need_eof := fun r => negb (get_keep_alive (res_version r) (res_fields r));
}.

Lemma set_named_eq n v f : filter (named n) (set n v f) = [(n, v)].
Proof.
  unfold set, erase. rewrite list.filter_app, filter_cons_True by apply name_eq_refl.
  rewrite filter_none by (by intros e [He _]%list_elem_of_filter). done.
Qed.

Lemma set_without_eq n v f : filter (fun e => ~ named n e) (set n v f) = filter (fun e => ~ named n e) f.
Proof.
  unfold set, erase. rewrite list.filter_app, filter_cons_False by (intros Hn; apply Hn, name_eq_refl).
  rewrite list_filter_filter_l by tauto. apply app_nil_r.
Qed.

Lemma erase_without_eq n f : filter (fun e => ~ named n e) (erase n f) = filter (fun e => ~ named n e) f.
Proof. unfold erase. by rewrite list_filter_filter_l by tauto. Qed.

Lemma tokens_named f g :
  filter (named field.connection) f = filter (named field.connection) g -> tokens f = tokens g.
Proof. unfold tokens. by intros ->. Qed.

Lemma tokens_set v f : tokens (set field.connection v f) =
  str_trim [" "; "009"]%char <$> str_split ","%char (str_lower v).
Proof. unfold tokens. rewrite set_named_eq. simpl. by rewrite app_nil_r. Qed.

Lemma tokens_erase f : tokens (erase field.connection f) = [].
Proof. unfold tokens, erase. by rewrite filter_none by (by intros e [He _]%list_elem_of_filter). Qed.

Lemma get_set_keep_alive_eq f v k : get_keep_alive v (set_keep_alive v k f) = k.
Proof.
  unfold get_keep_alive, set_keep_alive. destruct (v <? 11)%Z, k; rewrite ?tokens_set, ?tokens_erase; reflexivity.
Qed.

Lemma set_length_payload body f :
  filter (fun e => ~ payload_field e) (set_length body f) = filter (fun e => ~ payload_field e) f.
Proof.
  unfold set_length, set, erase. rewrite list.filter_app, filter_cons_False.
  - rewrite !list_filter_filter, app_nil_r. apply list_filter_iff. intros e. unfold payload_field. tauto.
  - intros Hn. apply Hn. left. reflexivity.
Qed.

Lemma set_length_unencoded body f : filter (named field.transfer_encoding) (set_length body f) = [].
Proof.
  unfold set_length, set, erase. rewrite list.filter_app, filter_cons_False by done. rewrite app_nil_r.
  apply filter_none. intros e [_ [Hn _]%list_elem_of_filter]%list_elem_of_filter. done.
Qed.

#[global] Instance laws : BeastLaws t.
Proof.
  split.
  - done.
  - done.
  - intros. apply set_named_eq.
  - intros. apply set_without_eq.
  - intros f g v Heq. simpl. unfold get_keep_alive. by rewrite (tokens_named f g Heq).
  - intros. apply get_set_keep_alive_eq.
  - intros f v k. simpl. unfold set_keep_alive, fields_without. simpl.
    destruct (v <? 11)%Z, k; rewrite ?set_without_eq, ?erase_without_eq; done.
  - intros f Heq. simpl. unfold get_keep_alive, tokens. simpl.
    change (filter (named field.connection) f = [(field.connection, "close")]) in Heq. rewrite Heq. reflexivity.
  - intros. apply set_length_payload.
  - done.
  - intros. apply set_length_payload.
  - done.
  - intros r _. unfold fields_find, fields_named. simpl. unfold set_length. by rewrite set_named_eq.
  - intros r _. apply set_length_unencoded.
  - intros r _. apply set_length_unencoded.
  - intros r Hr. simpl. unfold res_keep_alive in Hr. simpl in Hr. by rewrite Hr.
Qed.
End RefFields.
