(* ===== verification/UpstreamPool.v ===== *)
(** * The upstream pool

    [include/eventedge/upstream_config.hpp]: the list of backends, their health
    flags and the round-robin cursor.  Every public member function of
    [UpstreamPool] takes the mutex for its whole body, so each one is one atomic
    function on the state below; what several threads do is a sequence of such
    calls ([pool_op], [pool_run]).

    - [UpstreamEndpoint], [Backend], [UpstreamPool]: the structs and the class;
    - [UpstreamPool_new], [select], [pool_size], [pool_endpoint], [is_healthy],
      [set_healthy]: the constructor and the member functions;
    - [pool_ok]: the representation invariant;
    - [ring], [rotation]: the reference description of the round robin, against
      which the loop of [select] is proved correct. *)

From stdpp Require Import base strings numbers list.
From S2P Require Import Prelude.

Record UpstreamEndpoint := mkEndpoint {
  host : string;
  port : Z;                            (* std::uint16_t *)
}.

Record Backend := mkBackend {
  be_endpoint : UpstreamEndpoint;
  be_healthy : bool;
}.

Record UpstreamPool := mkPool {
  backends_ : list Backend;
  next_index_ : Z;                     (* std::size_t *)
}.

#[export] Instance UpstreamEndpoint_eq_dec : EqDecision UpstreamEndpoint.
Proof. solve_decision. Defined.

#[export] Instance Backend_eq_dec : EqDecision Backend.
Proof. solve_decision. Defined.

#[export] Instance UpstreamPool_eq_dec : EqDecision UpstreamPool.
Proof. solve_decision. Defined.

Definition set_next_index (i : Z) (p : UpstreamPool) : UpstreamPool :=
  mkPool (backends_ p) i.

Definition set_backends (bs : list Backend) (p : UpstreamPool) : UpstreamPool :=
  mkPool bs (next_index_ p).

(** The constructor: every endpoint starts healthy, an empty list is refused. *)
Definition UpstreamPool_new (endpoints : list UpstreamEndpoint) : result UpstreamPool :=
  match endpoints with
  | [] => Throw (invalid_argument "at least one upstream endpoint is required")
  | _ => Ok (mkPool ((fun e => mkBackend e true) <$> endpoints) 0)
  end.

Definition pool_size (p : UpstreamPool) : Z := Z.of_nat (length (backends_ p)).

(** The [for] loop of [select], from [offset] on.  [fuel] bounds the number of
    iterations; [select] gives it one more than the loop can use.  An index out of
    range would be undefined behaviour in the source; [select_from] then returns
    nothing, and [select_rotation] shows it does not happen. *)
Fixpoint select_from (fuel : nat) (offset : Z) (p : UpstreamPool) : option UpstreamEndpoint * UpstreamPool :=
  match fuel with
  | O => (None, p)
  | S fuel' =>
      if (offset <? pool_size p)%Z then
        let index := (add64 (next_index_ p) offset mod pool_size p)%Z in
        match backends_ p !! Z.to_nat index with
        | Some b =>
            if be_healthy b
            then (Some (be_endpoint b), set_next_index (add64 index 1 mod pool_size p)%Z p)
            else select_from fuel' (add64 offset 1) p
        | None => (None, p)
        end
      else (None, p)
  end.

Definition select (p : UpstreamPool) : option UpstreamEndpoint * UpstreamPool :=
  select_from (S (length (backends_ p))) 0 p.

(** [backends_.at(index)]. *)
Definition backend_at (p : UpstreamPool) (index : Z) : result Backend :=
  if (index <? pool_size p)%Z then
    match backends_ p !! Z.to_nat index with
    | Some b => Ok b
    | None => Throw out_of_range
    end
  else Throw out_of_range.

Definition pool_endpoint (p : UpstreamPool) (index : Z) : result UpstreamEndpoint :=
  let* b := backend_at p index in Ok (be_endpoint b).

Definition is_healthy (p : UpstreamPool) (index : Z) : result bool :=
  let* b := backend_at p index in Ok (be_healthy b).

Definition set_healthy (index : Z) (healthy : bool) (p : UpstreamPool) : result (bool * UpstreamPool) :=
  let* b := backend_at p index in
  if Bool.eqb (be_healthy b) healthy
  then Ok (false, p)
  else Ok (true, set_backends (<[Z.to_nat index := mkBackend (be_endpoint b) healthy]> (backends_ p)) p).

(** ** Calls from several threads

    The calls that change the pool, in the order in which they take the mutex. *)
Inductive pool_op :=
| OpSelect
| OpSetHealthy (index : Z) (healthy : bool).

Definition pool_apply (p : UpstreamPool) (op : pool_op) : UpstreamPool :=
  match op with
  | OpSelect => (select p).2
  | OpSetHealthy i h => match set_healthy i h p with Ok (_, p') => p' | Throw _ => p end
  end.

Definition pool_run (ops : list pool_op) (p : UpstreamPool) : UpstreamPool :=
  foldl pool_apply p ops.

(** [k] successive selections with no health update in between. *)
Fixpoint select_n (k : nat) (p : UpstreamPool) : list (option UpstreamEndpoint) * UpstreamPool :=
  match k with
  | O => ([], p)
  | S k' => let (e, p1) := select p in let (es, p2) := select_n k' p1 in (e :: es, p2)
  end.

(** ** The reference description

    [ring n s]: the indices below [n], in cyclic order from [s]. *)
Definition ring (n s : nat) : list nat := (fun k => (s + k) mod n) <$> seq 0 n.

Definition healthy_at (p : UpstreamPool) (i : nat) : bool :=
  match backends_ p !! i with Some b => be_healthy b | None => false end.

(** The healthy backends in the order in which the round robin will serve them. *)
Definition rotation (p : UpstreamPool) : list nat :=
  filter (fun i => healthy_at p i = true) (ring (length (backends_ p)) (Z.to_nat (next_index_ p))).

Definition endpoint_at (p : UpstreamPool) (i : nat) : option UpstreamEndpoint :=
  be_endpoint <$> backends_ p !! i.

(** A [std::vector] holds fewer than [PTRDIFF_MAX] elements. *)
Definition max_backends : Z := 9223372036854775807.

Record pool_ok (p : UpstreamPool) : Prop := {
  pool_ok_nonempty : (0 < pool_size p)%Z;
  pool_ok_size : (pool_size p <= max_backends)%Z;
  pool_ok_next : (0 <= next_index_ p < pool_size p)%Z;
}.

(** ** Lemmas: the ring of indices *)

Lemma length_ring n s : length (ring n s) = n.
Proof. unfold ring. by rewrite length_fmap, length_seq. Qed.

Lemma ring_lookup n s k : k < n -> ring n s !! k = Some ((s + k) mod n).
Proof. intros Hk. unfold ring. rewrite list_lookup_fmap, lookup_seq_lt by done. done. Qed.

Lemma ring_drop n s k : k < n -> drop k (ring n s) = (s + k) mod n :: drop (S k) (ring n s).
Proof. intros Hk. by rewrite (drop_S _ _ _ (ring_lookup n s k Hk)). Qed.

Lemma ring_rotate n s j : j <= n -> ring n ((s + j) mod n) = drop j (ring n s) ++ take j (ring n s).
Proof.
  intros Hj. apply list_eq_same_length with (n := n).
  - rewrite length_app, length_drop, length_take, length_ring. lia.
  - apply length_ring.
  - intros k x y Hk Hx Hy. rewrite ring_lookup in Hx by done. simplify_eq.
    destruct (decide (k < n - j)) as [Hlt|Hge].
    + rewrite lookup_app_l, lookup_drop, ring_lookup in Hy by (rewrite ?length_drop, ?length_ring; lia).
      simplify_eq. rewrite Nat.Div0.add_mod_idemp_l. f_equal. lia.
    + rewrite lookup_app_r, length_drop, length_ring in Hy by (rewrite ?length_drop, ?length_ring; lia).
      rewrite lookup_take_lt, ring_lookup in Hy by lia. simplify_eq.
      rewrite Nat.Div0.add_mod_idemp_l.
      replace (s + j + k) with (s + (k - (n - j)) + 1 * n) by lia.
      by rewrite Nat.Div0.mod_add.
Qed.

Lemma ring_zero n : ring n 0 = seq 0 n.
Proof.
  apply list_eq_same_length with (n := n); [apply length_seq|apply length_ring|].
  intros k x y Hk Hx Hy. rewrite ring_lookup in Hx by done. rewrite lookup_seq_lt in Hy by done.
  simplify_eq/=. by apply Nat.mod_small.
Qed.

Lemma ring_Permutation n s : s < n -> ring n s ≡ₚ seq 0 n.
Proof.
  intros Hs. rewrite <- (Nat.mod_small s n Hs). change (s mod n) with ((0 + s) mod n).
  rewrite ring_rotate by lia. rewrite <- ring_zero, Permutation_app_comm. by rewrite take_drop.
Qed.

(** ** Lemmas: the loop of [select] is the head of the rotation *)

Section select.
Context (p : UpstreamPool) (Hok : pool_ok p).

#[local] Abbreviation n := (length (backends_ p)).
#[local] Abbreviation s := (Z.to_nat (next_index_ p)).

(** No addition of the loop wraps: the two operands stay below [2^63]. *)
Lemma select_index_no_wrap (o : nat) :
  o < n -> (add64 (next_index_ p) (Z.of_nat o) mod pool_size p)%Z = Z.of_nat ((s + o) mod n).
Proof using Hok.
  destruct Hok as [Hne Hsz Hnext]. unfold pool_size, max_backends, two64 in *. intros Ho.
  rewrite add64_small by (unfold two64; lia). rewrite Nat2Z.inj_mod, Nat2Z.inj_add, Z2Nat.id by lia. done.
Qed.

Lemma select_next_no_wrap (i : nat) :
  i < n -> (add64 (Z.of_nat i) 1 mod pool_size p)%Z = Z.of_nat ((i + 1) mod n).
Proof using Hok.
  destruct Hok as [Hne Hsz Hnext]. unfold pool_size, max_backends in *. intros Hi.
  rewrite add64_small by (unfold two64; lia). by rewrite Nat2Z.inj_mod, Nat2Z.inj_add.
Qed.

Definition select_outcome (order : list nat) : option UpstreamEndpoint * UpstreamPool :=
  match order with
  | [] => (None, p)
  | i :: _ => (endpoint_at p i, set_next_index (Z.of_nat ((i + 1) mod n)) p)
  end.

Lemma select_from_outcome fuel (o : nat) :
  n - o < fuel ->
  select_from fuel (Z.of_nat o) p =
  select_outcome (filter (fun i => healthy_at p i = true) (drop o (ring n s))).
Proof using Hok.
  revert o. induction fuel as [|fuel IH]; intros o Hfuel; [lia|]. simpl.
  destruct (Z.ltb_spec (Z.of_nat o) (pool_size p)) as [Ho|Ho]; unfold pool_size in Ho.
  - assert (o < n) as Hon by lia. rewrite select_index_no_wrap, Nat2Z.id, ring_drop by done.
    assert ((s + o) mod n < n) as Hin by (apply Nat.mod_upper_bound; lia).
    destruct (lookup_lt_is_Some_2 _ _ Hin) as [b Hb]. rewrite Hb, filter_cons.
    assert (healthy_at p ((s + o) mod n) = be_healthy b) as Hat by (unfold healthy_at; by rewrite Hb).
    destruct (be_healthy b) eqn:Hh.
    + rewrite decide_True by done. simpl. unfold endpoint_at. rewrite Hb. simpl.
      by rewrite select_next_no_wrap.
    + rewrite decide_False by congruence. rewrite <- (IH (S o)) by lia. f_equal.
      destruct Hok as [_ Hsz _]. unfold pool_size, max_backends in Hsz.
      rewrite add64_small by (unfold two64; lia). lia.
  - rewrite drop_ge by (rewrite length_ring; lia). done.
Qed.

(** The loop returns the first healthy backend in cyclic order from the cursor
    and moves the cursor just past it; with no healthy backend it returns nothing
    and changes nothing. *)
Lemma select_rotation : select p = select_outcome (rotation p).
Proof using Hok. unfold select. change 0%Z with (Z.of_nat 0). rewrite select_from_outcome by lia. done. Qed.

Lemma rotation_bound i : i ∈ rotation p -> i < n.
Proof using Hok.
  unfold rotation. rewrite list_elem_of_filter. intros [_ Hi].
  apply list_elem_of_lookup in Hi as [k Hk].
  pose proof (lookup_lt_Some _ _ _ Hk) as Hlt. rewrite length_ring in Hlt.
  rewrite ring_lookup in Hk by done. simplify_eq. apply Nat.mod_upper_bound. lia.
Qed.

Lemma rotation_Permutation :
  rotation p ≡ₚ filter (fun i => healthy_at p i = true) (seq 0 n).
Proof using Hok.
  unfold rotation. destruct Hok as [_ _ Hnext]. unfold pool_size in Hnext.
  by rewrite (ring_Permutation n s) by lia.
Qed.

(** Serving the head of the rotation puts it at the end. *)
Lemma rotation_served i r :
  rotation p = i :: r ->
  rotation (set_next_index (Z.of_nat ((i + 1) mod n)) p) = r ++ [i].
Proof using Hok.
  intros Hrot. pose proof Hrot as Hrot'. unfold rotation in Hrot.
  set (P := fun i => healthy_at p i = true) in *.
  destruct (filter_eq_cons P _ _ _ Hrot) as (j & Hj & Hi & Hpre & Hpost).
  rewrite length_ring in Hj.
  rewrite ring_lookup in Hi by done. injection Hi as <-.
  unfold rotation. simpl. rewrite Nat2Z.id, Nat.Div0.add_mod_idemp_l.
  replace (s + j + 1) with (s + S j) by lia. rewrite ring_rotate by lia.
  change (filter P (drop (S j) (ring n s) ++ take (S j) (ring n s)) = r ++ [(s + j) mod n]).
  rewrite list.filter_app, Hpost. f_equal.
  rewrite (take_S_r _ _ _ (ring_lookup n s j Hj)), list.filter_app, Hpre. simpl.
  rewrite filter_cons_True; [done|].
  assert ((s + j) mod n ∈ rotation p) as Hin by (rewrite Hrot'; left).
  unfold rotation in Hin. by apply list_elem_of_filter in Hin as [? _].
Qed.
End select.

(** ** Lemmas: the invariant *)

Lemma set_next_index_ok p (i : nat) :
  pool_ok p -> pool_ok (set_next_index (Z.of_nat (i mod length (backends_ p))) p).
Proof.
  intros [Hne Hsz Hnext]. split; [done|done|]. unfold pool_size in *. simpl.
  pose proof (Nat.mod_upper_bound i (length (backends_ p))). lia.
Qed.

Lemma select_ok p : pool_ok p -> pool_ok (select p).2.
Proof.
  intros Hok. rewrite select_rotation by done. unfold select_outcome.
  destruct (rotation p); simpl; [done|]. by apply set_next_index_ok.
Qed.

Lemma select_backends p : pool_ok p -> backends_ (select p).2 = backends_ p.
Proof. intros Hok. rewrite select_rotation by done. unfold select_outcome. by destruct (rotation p). Qed.

Lemma backend_at_lookup p i b : backend_at p i = Ok b -> backends_ p !! Z.to_nat i = Some b.
Proof. unfold backend_at. repeat case_match; naive_solver. Qed.

Lemma set_healthy_ok i h p b p' :
  set_healthy i h p = Ok (b, p') -> pool_ok p -> pool_ok p'.
Proof.
  unfold set_healthy. destruct (backend_at p i); simpl; [|done].
  case_match; intros [= <- <-]; [done|]. intros [Hne Hsz Hnext].
  split; unfold pool_size in *; simpl; by rewrite length_insert.
Qed.

Lemma pool_apply_ok p op : pool_ok p -> pool_ok (pool_apply p op).
Proof.
  intros Hok. destruct op as [|i h]; simpl; [by apply select_ok|].
  destruct (set_healthy i h p) as [[b p']|] eqn:E; [|done]. by eapply set_healthy_ok.
Qed.

Lemma pool_apply_endpoints p op :
  pool_ok p -> be_endpoint <$> backends_ (pool_apply p op) = be_endpoint <$> backends_ p.
Proof.
  intros Hok. destruct op as [|i h]; simpl; [by rewrite select_backends|].
  unfold set_healthy. destruct (backend_at p i) as [b|] eqn:Hb; simpl; [|done].
  destruct (Bool.eqb _ _); simpl; [done|]. rewrite list_fmap_insert. simpl.
  apply list_insert_id. rewrite list_lookup_fmap. by rewrite (backend_at_lookup _ _ _ Hb).
Qed.

Lemma pool_new_ok es p :
  UpstreamPool_new es = Ok p -> (Z.of_nat (length es) <= max_backends)%Z -> pool_ok p.
Proof.
  destruct es as [|e es]; simpl; [done|]. intros [= <-] Hlen.
  split; unfold pool_size; simpl; rewrite ?length_fmap; lia.
Qed.

#[export] Hint Resolve select_ok pool_apply_ok set_healthy_ok pool_new_ok : ee.

Lemma set_next_index_endpoint_at i p k : endpoint_at (set_next_index i p) k = endpoint_at p k.
Proof. done. Qed.

Lemma select_n_rotation k p l1 l2 :
  pool_ok p -> rotation p = l1 ++ l2 -> length l1 = k ->
  (select_n k p).1 = endpoint_at p <$> l1 /\ rotation (select_n k p).2 = l2 ++ l1 /\
  backends_ (select_n k p).2 = backends_ p /\ pool_ok (select_n k p).2.
Proof.
  revert p l1 l2. induction k as [|k IH]; intros p l1 l2 Hok Hrot Hlen.
  - destruct l1; [|done]. simpl. rewrite app_nil_r. auto.
  - destruct l1 as [|i l1]; [done|]. simpl in Hrot, Hlen.
    cbn [select_n]. rewrite select_rotation by done. rewrite Hrot. simpl.
    pose proof (rotation_served p Hok i _ Hrot) as Hrot'. rewrite <- app_assoc in Hrot'.
    set (p1 := set_next_index _ p) in *.
    assert (pool_ok p1) as Hok1 by (by apply set_next_index_ok).
    destruct (IH p1 l1 (l2 ++ [i]) Hok1 Hrot' ltac:(lia)) as (He & Hr & Hb & Hok2).
    destruct (select_n k p1) as [es p2]. simpl in *.
    rewrite He, Hr, <- app_assoc. auto.
Qed.

Lemma healthy_at_is_healthy p (i : nat) :
  i < length (backends_ p) -> is_healthy p (Z.of_nat i) = Ok (healthy_at p i).
Proof.
  intros Hi. unfold is_healthy, backend_at, healthy_at, pool_size. rewrite Nat2Z.id.
  destruct (lookup_lt_is_Some_2 _ _ Hi) as [b Hb]. rewrite Hb.
  destruct (Z.ltb_spec (Z.of_nat i) (Z.of_nat (length (backends_ p)))); [done|lia].
Qed.

Lemma backend_at_lt p i :
  (0 <= i)%Z -> (i < pool_size p)%Z -> exists b, backend_at p i = Ok b.
Proof.
  intros H0 Hlt. unfold backend_at. rewrite (proj2 (Z.ltb_lt _ _) Hlt). unfold pool_size in Hlt.
  destruct (lookup_lt_is_Some_2 (backends_ p) (Z.to_nat i)) as [b Hb]; [lia|]. rewrite Hb. eauto.
Qed.

Lemma backend_at_insert p i b j :
  (0 <= i)%Z -> (i < pool_size p)%Z -> (0 <= j)%Z ->
  backend_at (set_backends (<[Z.to_nat i := b]> (backends_ p)) p) j =
  if decide (j = i) then Ok b else backend_at p j.
Proof.
  intros Hi Hlt Hj. unfold backend_at, pool_size in *. simpl. rewrite length_insert.
  case_decide as Heq.
  - subst j. rewrite list_lookup_insert_eq by lia. by rewrite (proj2 (Z.ltb_lt _ _) Hlt).
  - by rewrite list_lookup_insert_ne by lia.
Qed.

(** Both branches of [set_healthy] write the flag: when it is already right the
    write changes nothing. *)
Lemma set_healthy_written p i h b :
  backend_at p i = Ok b ->
  set_healthy i h p = Ok (negb (Bool.eqb (be_healthy b) h),
    set_backends (<[Z.to_nat i := mkBackend (be_endpoint b) h]> (backends_ p)) p).
Proof.
  intros Hb. unfold set_healthy. rewrite Hb. simpl.
  destruct (Bool.eqb_spec (be_healthy b) h) as [<-|]; simpl; [|done].
  rewrite list_insert_id; [by destruct p|]. destruct b; by apply backend_at_lookup.
Qed.

Lemma rotation_healthy p i :
  i ∈ rotation p -> exists b, backends_ p !! i = Some b /\ be_healthy b = true.
Proof.
  unfold rotation. rewrite list_elem_of_filter. unfold healthy_at. intros [Hh _].
  destruct (backends_ p !! i); naive_solver.
Qed.

Lemma healthy_in_rotation p i : pool_ok p -> healthy_at p i = true -> i ∈ rotation p.
Proof.
  intros Hok Hh. rewrite rotation_Permutation by done. apply list_elem_of_filter. split; [done|].
  apply elem_of_seq. unfold healthy_at in Hh. destruct (backends_ p !! i) eqn:Hb; [|done].
  apply lookup_lt_Some in Hb. lia.
Qed.

Lemma rotation_nil_unhealthy p i : pool_ok p -> rotation p = [] -> healthy_at p i = false.
Proof.
  intros Hok Hrot. destruct (healthy_at p i) eqn:Hh; [|done].
  apply healthy_in_rotation in Hh; [|done]. rewrite Hrot in Hh. by apply not_elem_of_nil in Hh.
Qed.

Lemma take_ring_unhealthy p (Hok : pool_ok p) j d' :
  j <= length (backends_ p) ->
  filter (fun i => healthy_at p i = true)
    (take j (ring (length (backends_ p)) (Z.to_nat (next_index_ p)))) = [] ->
  (0 <= d' < Z.of_nat j)%Z ->
  is_healthy p ((next_index_ p + d') mod pool_size p)%Z = Ok false.
Proof.
  intros Hj Hpre Hd. destruct Hok as [Hne Hsz Hnext]. unfold pool_size in *.
  set (n := length (backends_ p)) in *. set (s := Z.to_nat (next_index_ p)) in *.
  replace ((next_index_ p + d') mod Z.of_nat n)%Z with (Z.of_nat ((s + Z.to_nat d') mod n))
    by (rewrite Nat2Z.inj_mod, Nat2Z.inj_add; subst s; rewrite !Z2Nat.id by lia; done).
  rewrite healthy_at_is_healthy by (apply Nat.mod_upper_bound; lia). f_equal.
  destruct (healthy_at p ((s + Z.to_nat d') mod n)) eqn:Hh; [exfalso|done].
  assert ((s + Z.to_nat d') mod n ∈ filter (fun i => healthy_at p i = true) (take j (ring n s))) as Hin.
  { apply list_elem_of_filter. split; [done|]. apply list_elem_of_lookup. exists (Z.to_nat d').
    rewrite lookup_take_lt by lia. apply ring_lookup. lia. }
  rewrite Hpre in Hin. by apply not_elem_of_nil in Hin.
Qed.

(** ** Properties *)

(** C13. [select] is the health-aware round robin: in every valid pool it either
    finds the first healthy backend in cyclic order from the cursor (all the
    backends passed over are unhealthy), returns its endpoint and moves the cursor
    just past it, or returns nothing, exactly when no backend is healthy, and
    leaves the pool as it was.  None of its [size_t] additions wraps. *)
Theorem select_round_robin (p : UpstreamPool) (Hok : pool_ok p) :
  ((forall i, healthy_at p i = false) /\ select p = (None, p)) \/
  (exists d i b, (0 <= d < pool_size p)%Z /\
     i = ((next_index_ p + d) mod pool_size p)%Z /\
     backends_ p !! Z.to_nat i = Some b /\ be_healthy b = true /\
     (forall d', (0 <= d' < d)%Z -> is_healthy p ((next_index_ p + d') mod pool_size p)%Z = Ok false) /\
     select p = (Some (be_endpoint b), mkPool (backends_ p) ((i + 1) mod pool_size p)%Z)).
Proof.
  pose proof Hok as [Hne Hsz Hnext]. unfold pool_size in Hnext.
  rewrite select_rotation by done. destruct (rotation p) as [|i r] eqn:Hrot; simpl.
  - left. split; [|done]. intros i. by apply rotation_nil_unhealthy.
  - right. destruct (filter_eq_cons _ _ _ _ Hrot) as (j & Hj & Hi & Hpre & _).
    rewrite length_ring in Hj. rewrite ring_lookup in Hi by done. injection Hi as Hi.
    assert (i ∈ rotation p) as Hin by (rewrite Hrot; left).
    destruct (rotation_healthy p i Hin) as (b & Hb & Hh).
    exists (Z.of_nat j), (Z.of_nat i), b. unfold pool_size. rewrite Nat2Z.id.
    repeat split; [lia|lia| |done|done| |].
    + by rewrite <- Hi, Nat2Z.inj_mod, Nat2Z.inj_add, Z2Nat.id by lia.
    + intros d' Hd'. apply (take_ring_unhealthy p Hok j); [lia|done|lia].
    + unfold endpoint_at. rewrite Hb. simpl. unfold set_next_index.
      by rewrite Nat2Z.inj_mod, Nat2Z.inj_add.
Qed.

Definition pool_abc : UpstreamPool :=
  mkPool [mkBackend (mkEndpoint "backend-a" 9001) true;
          mkBackend (mkEndpoint "backend-b" 9002) false;
          mkBackend (mkEndpoint "backend-c" 9003) true] 1.

Lemma pool_abc_ok : pool_ok pool_abc.
Proof. split; vm_compute; try split; congruence. Qed.

Lemma select_round_robin_witness :
  pool_ok pool_abc /\
  select pool_abc = (Some (mkEndpoint "backend-c" 9003), set_next_index 0 pool_abc) /\
  (((forall i, healthy_at pool_abc i = false) /\ select pool_abc = (None, pool_abc)) \/
   (exists d i b, (0 <= d < pool_size pool_abc)%Z /\
     i = ((next_index_ pool_abc + d) mod pool_size pool_abc)%Z /\
     backends_ pool_abc !! Z.to_nat i = Some b /\ be_healthy b = true /\
     (forall d', (0 <= d' < d)%Z ->
        is_healthy pool_abc ((next_index_ pool_abc + d') mod pool_size pool_abc)%Z = Ok false) /\
     select pool_abc = (Some (be_endpoint b), mkPool (backends_ pool_abc) ((i + 1) mod pool_size pool_abc)%Z))).
Proof.
  split; [exact pool_abc_ok|]. split; [reflexivity|].
  exact (select_round_robin pool_abc pool_abc_ok).
Defined.

(** C29. The round robin is fair: while no health flag changes, as many selections
    as there are healthy backends return the endpoint of every healthy backend
    exactly once (the indices served are a permutation of the healthy indices), and
    then the same order starts again. *)
Theorem round_robin_fair (p : UpstreamPool) (Hok : pool_ok p) :
  let h := length (rotation p) in
  (select_n h p).1 = endpoint_at p <$> rotation p /\
  rotation p ≡ₚ filter (fun i => healthy_at p i = true) (seq 0 (length (backends_ p))) /\
  NoDup (rotation p) /\
  rotation (select_n h p).2 = rotation p.
Proof.
  intros h.
  destruct (select_n_rotation h p (rotation p) [] Hok) as (He & Hr & _ & _); [by rewrite app_nil_r|done|].
  pose proof (rotation_Permutation p Hok) as Hperm.
  repeat split; [done|done| |done]. rewrite Hperm. apply list.NoDup_filter, NoDup_seq.
Qed.

Lemma round_robin_fair_witness :
  rotation pool_abc = [2; 0] /\
  (select_n 2 pool_abc).1 = [Some (mkEndpoint "backend-c" 9003); Some (mkEndpoint "backend-a" 9001)] /\
  rotation (select_n 2 pool_abc).2 = rotation pool_abc.
Proof.
  split; [reflexivity|]. split; [reflexivity|].
  destruct (round_robin_fair pool_abc pool_abc_ok) as (_ & _ & _ & H). exact H.
Defined.

(** Whatever the threads do, in whatever order their calls take the mutex, a
    pool built by the constructor keeps its invariant (the cursor stays in range),
    its size and its endpoints: only the health flags and the cursor change.  So
    every endpoint [select] ever returns is one of the configured ones. *)
Lemma pool_run_invariant (es : list UpstreamEndpoint) (p : UpstreamPool) (ops : list pool_op)
    (Hnew : UpstreamPool_new es = Ok p) (Hlen : (Z.of_nat (length es) <= max_backends)%Z) :
  pool_ok (pool_run ops p) /\
  be_endpoint <$> backends_ (pool_run ops p) = es /\
  (forall e, (select (pool_run ops p)).1 = Some e -> e ∈ es).
Proof.
  assert (pool_ok (pool_run ops p) /\ be_endpoint <$> backends_ (pool_run ops p) = es) as [Hok Hes].
  { unfold pool_run. induction ops as [|op ops IH] using rev_ind.
    - split; [eauto with ee|]. destruct es; [done|]. simpl in Hnew. injection Hnew as <-. simpl.
      f_equal. rewrite <- list_fmap_compose. apply list_fmap_id.
    - rewrite foldl_app. simpl. destruct IH as [Hok Hes]. split; [eauto with ee|].
      by rewrite pool_apply_endpoints. }
  split; [done|]. split; [done|]. intros e. rewrite select_rotation by done. unfold select_outcome.
  destruct (rotation (pool_run ops p)) as [|i r]; simpl; [done|]. unfold endpoint_at.
  rewrite <- list_lookup_fmap, Hes. apply list_elem_of_lookup_2.
Qed.

(** [set_healthy] on every branch: an index past the end throws
    [std::out_of_range]; otherwise it returns whether the flag changed, writes that
    one flag and nothing else, and a second call with the same value is a no-op that
    returns false. *)
Lemma set_healthy_behaviour (p : UpstreamPool) (index : Z) (healthy : bool) (Hidx : (0 <= index)%Z) :
  if (index <? pool_size p)%Z then
    exists old p', is_healthy p index = Ok old /\
      set_healthy index healthy p = Ok (negb (Bool.eqb old healthy), p') /\
      is_healthy p' index = Ok healthy /\
      (forall j, (0 <= j)%Z -> j <> index -> is_healthy p' j = is_healthy p j) /\
      (forall j, (0 <= j)%Z -> pool_endpoint p' j = pool_endpoint p j) /\
      next_index_ p' = next_index_ p /\
      set_healthy index healthy p' = Ok (false, p')
  else set_healthy index healthy p = Throw out_of_range.
Proof.
  destruct (Z.ltb_spec index (pool_size p)) as [Hlt|Hge].
  - destruct (backend_at_lt p index Hidx Hlt) as [b Hb].
    exists (be_healthy b). eexists. split; [unfold is_healthy; by rewrite Hb|].
    split; [by apply set_healthy_written|].
    pose proof (backend_at_insert p index (mkBackend (be_endpoint b) healthy)) as Hins.
    split; [unfold is_healthy; rewrite Hins by done; by rewrite decide_True|].
    split; [intros j Hj Hne; unfold is_healthy; rewrite Hins by done; by rewrite decide_False|].
    split; [|split; [done|]].
    + intros j Hj. unfold pool_endpoint. rewrite Hins by done.
      case_decide as Heq; [subst j; by rewrite Hb|done].
    + unfold set_healthy at 1. rewrite Hins, decide_True by done. simpl. by rewrite Bool.eqb_reflx.
  - unfold set_healthy, backend_at. destruct (Z.ltb_spec index (pool_size p)); [lia|done].
Qed.
