(* ===== verification/ResponseCache.v ===== *)
(** * The response cache

    [include/eventedge/response_cache.hpp] and [src/response_cache.cpp]: an LRU
    cache with a time to live.  The class keeps a [std::list] of keys, most recently
    used first, and a hash map whose entries hold an iterator into that list.

    The list is modelled with the identity of its nodes: [lru_] is the sequence of
    pairs (node, key), an iterator is a node, and the list operations the source
    calls ([erase], [splice] to the front, [back], [pop_back], [push_front]) act on
    the node an iterator designates.  [next_node_] is the allocator: [push_front]
    makes a node that no iterator designates yet.  Every member function holds the
    mutex for its whole body, so each is one atomic function of the state; the time
    it reads from the steady clock (in nanoseconds) is its argument [now].

    - [ResponseCache_new], [cache_get], [cache_put], [cache_size]: the code;
    - [cache_ok]: iterators and nodes correspond one to one;
    - [spec_get], [spec_put]: the promise, an association list in recency order;
      [contents] maps a cache to it and the refinement theorem relates the two.

    The stored value is [HttpResponse] in the source and is never inspected by the
    cache: it is the type variable [R]. *)

From stdpp Require Import base strings numbers gmap list.
From S2P Require Import Prelude.

Record CacheOptions := mkCacheOptions {
  capacity : Z;                        (* std::size_t *)
  ttl : Z;                             (* std::chrono::milliseconds *)
}.

Definition default_cache_options : CacheOptions := mkCacheOptions 1024 2000.

Definition nanos_per_milli : Z := 1000000.

(** The abstract cache: key, response and expiry, most recently used first. *)
Abbreviation spec R := (list (string * (R * Z))).

Section cache.
Context {R : Type}.

Record Entry := mkEntry {
  response : R;
  expires_at : Z;                      (* steady_clock::time_point *)
  lru_position : nat;                  (* std::list<std::string>::iterator *)
}.

Record ResponseCache := mkCache {
  options_ : CacheOptions;
  lru_ : list (nat * string);
  entries_ : gmap string Entry;
  next_node_ : nat;
}.

(** ** The operations of [std::list] *)

Definition list_erase (it : nat) (l : list (nat * string)) : list (nat * string) :=
  filter (fun nd => nd.1 <> it) l.

Definition list_node (it : nat) (l : list (nat * string)) : option (nat * string) :=
  head (filter (fun nd => nd.1 = it) l).

(** [l.splice(l.begin(), l, it)]: the node moves to the front, iterators stay valid. *)
Definition list_splice_front (it : nat) (l : list (nat * string)) : list (nat * string) :=
  match list_node it l with
  | Some nd => nd :: list_erase it l
  | None => l
  end.

Definition list_pop_back (l : list (nat * string)) : list (nat * string) := take (pred (length l)) l.

(** ** The member functions *)

Definition ResponseCache_new (options : CacheOptions) : result ResponseCache :=
  if (capacity options =? 0)%Z
  then Throw (invalid_argument "cache capacity must be greater than zero")
  else Ok (mkCache options [] ∅ 0).

Definition cache_get (key : string) (now : Z) (c : ResponseCache) : option R * ResponseCache :=
  match entries_ c !! key with
  | None => (None, c)
  | Some entry =>
      if (expires_at entry <=? now)%Z then
        (None, mkCache (options_ c) (list_erase (lru_position entry) (lru_ c))
                 (delete key (entries_ c)) (next_node_ c))
      else
        (Some (response entry),
         mkCache (options_ c) (list_splice_front (lru_position entry) (lru_ c))
           (entries_ c) (next_node_ c))
  end.

(** Make room: when the map is full, the entry of the key at the back of the list
    is erased, then the node. *)
Definition cache_evict (c : ResponseCache) : ResponseCache :=
  if (Z.of_nat (size (entries_ c)) =? capacity (options_ c))%Z then
    mkCache (options_ c) (list_pop_back (lru_ c))
      (match last (lru_ c) with
       | Some (_, victim) => delete victim (entries_ c)
       | None => entries_ c
       end) (next_node_ c)
  else c.

Definition cache_put (key : string) (resp : R) (now : Z) (c : ResponseCache) : ResponseCache :=
  let expires := (now + ttl (options_ c) * nanos_per_milli)%Z in
  match entries_ c !! key with
  | Some existing =>
      mkCache (options_ c) (list_splice_front (lru_position existing) (lru_ c))
        (<[key := mkEntry resp expires (lru_position existing)]> (entries_ c)) (next_node_ c)
  | None =>
      let c1 := cache_evict c in
      mkCache (options_ c1) ((next_node_ c1, key) :: lru_ c1)
        (match entries_ c1 !! key with
         | Some _ => entries_ c1
         | None => <[key := mkEntry resp expires (next_node_ c1)]> (entries_ c1)
         end) (S (next_node_ c1))
  end.

Definition cache_size (c : ResponseCache) : Z := Z.of_nat (size (entries_ c)).

(** ** Calls from several threads, in the order they take the mutex *)

Inductive cache_op :=
| OpGet (key : string) (now : Z)
| OpPut (key : string) (resp : R) (now : Z).

Definition cache_apply (c : ResponseCache) (op : cache_op) : ResponseCache :=
  match op with
  | OpGet key now => (cache_get key now c).2
  | OpPut key resp now => cache_put key resp now c
  end.

Definition cache_run (ops : list cache_op) (c : ResponseCache) : ResponseCache :=
  foldl cache_apply c ops.

Definition op_key (op : cache_op) : string :=
  match op with OpGet key _ => key | OpPut key _ _ => key end.

Definition op_time (op : cache_op) : Z :=
  match op with OpGet _ now => now | OpPut _ _ now => now end.

(** ** The promise of the cache *)

Definition spec_remove (key : string) (l : spec R) : spec R := filter (fun e => e.1 <> key) l.

Definition spec_find (key : string) (l : spec R) : option (R * Z) :=
  snd <$> head (filter (fun e => e.1 = key) l).

Definition spec_get (key : string) (now : Z) (l : spec R) : option R * spec R :=
  match spec_find key l with
  | None => (None, l)
  | Some (r, expires) =>
      if (expires <=? now)%Z then (None, spec_remove key l)
      else (Some r, (key, (r, expires)) :: spec_remove key l)
  end.

Definition spec_put (cap : nat) (key : string) (resp : R) (expires : Z) (l : spec R) : spec R :=
  take cap ((key, (resp, expires)) :: spec_remove key l).

Definition spec_apply (o : CacheOptions) (l : spec R) (op : cache_op) : spec R :=
  match op with
  | OpGet key now => (spec_get key now l).2
  | OpPut key resp now => spec_put (Z.to_nat (capacity o)) key resp (now + ttl o * nanos_per_milli)%Z l
  end.

(** What the callers of [get] see along a sequence of calls. *)
Fixpoint cache_results (ops : list cache_op) (c : ResponseCache) : list (option R) :=
  match ops with
  | [] => []
  | OpGet key now :: ops' => (cache_get key now c).1 :: cache_results ops' (cache_get key now c).2
  | OpPut key resp now :: ops' => cache_results ops' (cache_put key resp now c)
  end.

Fixpoint spec_results (o : CacheOptions) (ops : list cache_op) (l : spec R) : list (option R) :=
  match ops with
  | [] => []
  | OpGet key now as op :: ops' => (spec_get key now l).1 :: spec_results o ops' (spec_apply o l op)
  | OpPut key resp now as op :: ops' => spec_results o ops' (spec_apply o l op)
  end.

(** The abstraction function. *)
Definition entry_view (m : gmap string Entry) (nd : nat * string) : option (string * (R * Z)) :=
  (fun e => (nd.2, (response e, expires_at e))) <$> m !! nd.2.

Definition contents (c : ResponseCache) : spec R := omap (entry_view (entries_ c)) (lru_ c).

Record cache_ok (c : ResponseCache) : Prop := {
  ok_nodes : NoDup (lru_ c).*1;
  ok_keys : NoDup (lru_ c).*2;
  ok_fresh : forall nd, nd ∈ lru_ c -> nd.1 < next_node_ c;
  ok_entry : forall k e, entries_ c !! k = Some e -> (lru_position e, k) ∈ lru_ c;
  ok_node : forall nd, nd ∈ lru_ c -> exists e, entries_ c !! nd.2 = Some e /\ lru_position e = nd.1;
  ok_capacity : (0 < capacity (options_ c))%Z;
  ok_size : (Z.of_nat (length (lru_ c)) <= capacity (options_ c))%Z;
}.
End cache.

Arguments Entry : clear implicits.
Arguments ResponseCache : clear implicits.
Arguments cache_op : clear implicits.

(** ** Lemmas *)

Section lemmas.
Context {R : Type}.
Implicit Types (c : ResponseCache R) (l : list (nat * string)) (m : gmap string (Entry R)).

(** A node and its key designate the same element. *)
Lemma list_erase_key it k l :
  NoDup l.*1 -> NoDup l.*2 -> (it, k) ∈ l -> list_erase it l = filter (fun nd => nd.2 <> k) l.
Proof.
  intros H1 H2 Hin. unfold list_erase. apply list_filter_iff_in. intros nd Hnd.
  split; intros Hne Heq; apply Hne.
  - by rewrite (NoDup_fmap_inj_in snd l nd (it, k) H2 Hnd Hin Heq).
  - by rewrite (NoDup_fmap_inj_in fst l nd (it, k) H1 Hnd Hin Heq).
Qed.

Lemma list_splice_front_key it k l :
  NoDup l.*1 -> NoDup l.*2 -> (it, k) ∈ l ->
  list_splice_front it l = (it, k) :: filter (fun nd => nd.2 <> k) l.
Proof.
  intros H1 H2 Hin. unfold list_splice_front, list_node.
  rewrite (head_filter_unique _ l (it, k)); [by rewrite (list_erase_key it k)|done|done|].
  intros nd Hnd Heq. by apply (NoDup_fmap_inj_in fst l).
Qed.

Lemma omap_entry_view_remove m k l :
  omap (entry_view m) (filter (fun nd => nd.2 <> k) l) = spec_remove k (omap (entry_view m) l).
Proof.
  unfold spec_remove. induction l as [|nd l IH]; [done|]. rewrite filter_cons. csimpl.
  assert (forall e, entry_view m nd = Some e -> e.1 = nd.2) as Hkey.
  { unfold entry_view. destruct (m !! nd.2); naive_solver. }
  case_decide as Hk; csimpl; destruct (entry_view m nd) as [e|]; try done;
    rewrite filter_cons, (Hkey e eq_refl).
  - rewrite decide_True by done. by rewrite IH.
  - rewrite decide_False by tauto. by rewrite IH.
Qed.

Lemma omap_entry_view_ext m m' l :
  (forall nd, nd ∈ l -> m !! nd.2 = m' !! nd.2) -> omap (entry_view m) l = omap (entry_view m') l.
Proof.
  induction l as [|nd l IH]; intros Hext; [done|]. csimpl.
  assert (entry_view m nd = entry_view m' nd) as -> by (unfold entry_view; rewrite Hext by left; done).
  rewrite IH by (intros nd' ?; apply Hext; by right). done.
Qed.

Lemma contents_keys c : cache_ok c -> (contents c).*1 = (lru_ c).*2.
Proof.
  intros Hok. unfold contents. pose proof (ok_node c Hok) as Hnode. revert Hnode.
  generalize (lru_ c) as l. induction l as [|nd l IH]; intros Hnode; [done|]. csimpl.
  destruct (Hnode nd) as (e & He & _); [left|]. unfold entry_view at 1. rewrite He. csimpl.
  f_equal. apply IH. intros nd' ?. apply Hnode. by right.
Qed.

Lemma omap_entry_view_length m l :
  (forall nd, nd ∈ l -> exists e, m !! nd.2 = Some e /\ lru_position e = nd.1) ->
  length (omap (entry_view m) l) = length l.
Proof.
  induction l as [|nd l IH]; intros Hnode; [done|]. csimpl.
  destruct (Hnode nd) as (e & He & _); [left|]. unfold entry_view at 1. rewrite He. simpl.
  f_equal. apply IH. intros nd' ?. apply Hnode. by right.
Qed.

Lemma omap_length_le {A B} (f : A -> option B) (l0 : list A) : length (omap f l0) <= length l0.
Proof. induction l0 as [|x l0 IH]; csimpl; [done|]. case_match; simpl; lia. Qed.

Lemma contents_length c : cache_ok c -> length (contents c) = length (lru_ c).
Proof. intros Hok. apply omap_entry_view_length, (ok_node c Hok). Qed.

Lemma contents_NoDup c : cache_ok c -> NoDup (contents c).*1.
Proof. intros Hok. rewrite contents_keys by done. apply (ok_keys c Hok). Qed.

Lemma contents_elem c k e :
  cache_ok c -> entries_ c !! k = Some e -> (k, (response e, expires_at e)) ∈ contents c.
Proof.
  intros Hok He. apply list_elem_of_omap. exists (lru_position e, k).
  split; [by apply ok_entry|]. unfold entry_view. simpl. by rewrite He.
Qed.

Lemma spec_find_elem (l : spec R) k v : NoDup l.*1 -> (k, v) ∈ l -> spec_find k l = Some v.
Proof.
  intros Hnd Hin. unfold spec_find. rewrite (head_filter_unique _ l (k, v)); [done|done|done|].
  intros y Hy Heq. by apply (NoDup_fmap_inj_in fst l).
Qed.

Lemma spec_find_not (l : spec R) k : k ∉ l.*1 -> spec_find k l = None.
Proof.
  intros Hk. unfold spec_find. destruct (filter _ l) as [|y r] eqn:Hf; [done|]. destruct Hk.
  assert (y ∈ filter (fun e => e.1 = k) l) as [<- Hy]%list_elem_of_filter by (rewrite Hf; left).
  by apply list_elem_of_fmap_2.
Qed.

Lemma lru_keys_entries c k : cache_ok c -> k ∈ (lru_ c).*2 <-> is_Some (entries_ c !! k).
Proof.
  intros Hok. split.
  - intros (nd & -> & Hnd)%list_elem_of_fmap. destruct (ok_node c Hok nd Hnd) as (e & He & _). eauto.
  - intros [e He]. apply (ok_entry c Hok) in He. by apply (list_elem_of_fmap_2 snd) in He.
Qed.

Lemma spec_find_contents c k :
  cache_ok c -> spec_find k (contents c) = (fun e => (response e, expires_at e)) <$> entries_ c !! k.
Proof.
  intros Hok. destruct (entries_ c !! k) as [e|] eqn:He; simpl.
  - apply spec_find_elem; [by apply contents_NoDup|by apply contents_elem].
  - apply spec_find_not. rewrite contents_keys, lru_keys_entries by done. rewrite He. by intros [? ?].
Qed.

(** The map and the list have the same size, which is why comparing
    [entries_.size()] with the capacity bounds the list. *)
Lemma entries_size c : cache_ok c -> size (entries_ c) = length (lru_ c).
Proof.
  intros Hok. rewrite <- (length_fmap snd). rewrite <- size_dom.
  rewrite <- (size_list_to_set (C := gset string) _ (ok_keys c Hok)). f_equal.
  apply set_eq. intros k. rewrite elem_of_list_to_set, elem_of_dom. symmetry. by apply lru_keys_entries.
Qed.

(** ** Lemmas: the three ways an operation changes the structure *)

Lemma ok_remove c k :
  cache_ok c ->
  cache_ok (mkCache (options_ c) (filter (fun nd => nd.2 <> k) (lru_ c)) (delete k (entries_ c)) (next_node_ c)).
Proof.
  intros Hok. split; simpl.
  - by apply NoDup_fmap_filter, ok_nodes.
  - by apply NoDup_fmap_filter, ok_keys.
  - intros nd [_ Hnd]%list_elem_of_filter. by apply ok_fresh.
  - intros k' e [Hne He]%lookup_delete_Some. apply list_elem_of_filter. split; [done|]. by apply ok_entry.
  - intros nd [Hne Hnd]%list_elem_of_filter. rewrite lookup_delete_ne by done. by apply ok_node.
  - by apply ok_capacity.
  - pose proof (ok_size c Hok). pose proof (length_filter (fun nd => nd.2 <> k) (lru_ c)). lia.
Qed.

Lemma ok_front c k e e' :
  cache_ok c -> entries_ c !! k = Some e -> lru_position e' = lru_position e ->
  cache_ok (mkCache (options_ c) ((lru_position e, k) :: filter (fun nd => nd.2 <> k) (lru_ c))
              (<[k := e']> (entries_ c)) (next_node_ c)).
Proof.
  intros Hok He Hpos. pose proof (ok_entry c Hok k e He) as Hin. split; simpl.
  - rewrite NoDup_cons. split; [|by apply NoDup_fmap_filter, ok_nodes].
    intros (nd & Heq & [Hne Hnd]%list_elem_of_filter)%list_elem_of_fmap. apply Hne.
    by rewrite <- (NoDup_fmap_inj_in fst (lru_ c) (lru_position e, k) nd (ok_nodes c Hok) Hin Hnd Heq).
  - rewrite NoDup_cons. split; [|by apply NoDup_fmap_filter, ok_keys].
    by intros (nd & Heq & [Hne Hnd]%list_elem_of_filter)%list_elem_of_fmap.
  - intros nd [->|[_ Hnd]%list_elem_of_filter]%elem_of_cons; simpl; [|by apply ok_fresh].
    by apply (ok_fresh c Hok (lru_position e, k)).
  - intros k' e'' [[<- <-]|[Hne He'']]%lookup_insert_Some; [rewrite Hpos; left|].
    right. apply list_elem_of_filter. split; [done|]. by apply ok_entry.
  - intros nd [->|[Hne Hnd]%list_elem_of_filter]%elem_of_cons; simpl.
    + exists e'. by rewrite lookup_insert_eq.
    + rewrite lookup_insert_ne by done. by apply ok_node.
  - by apply ok_capacity.
  - pose proof (ok_size c Hok). apply (length_filter_lt (fun nd => nd.2 <> k)) in Hin; [simpl in *; lia|]. by intros [].
Qed.

Lemma ok_push c k e :
  cache_ok c -> entries_ c !! k = None -> lru_position e = next_node_ c ->
  (Z.of_nat (length (lru_ c)) < capacity (options_ c))%Z ->
  cache_ok (mkCache (options_ c) ((next_node_ c, k) :: lru_ c) (<[k := e]> (entries_ c)) (S (next_node_ c))).
Proof.
  intros Hok Hk Hpos Hlen. split; simpl.
  - rewrite NoDup_cons. split; [|by apply ok_nodes].
    intros (nd & Heq & Hnd%(ok_fresh c Hok))%list_elem_of_fmap. lia.
  - rewrite NoDup_cons. split; [|by apply ok_keys]. rewrite lru_keys_entries, Hk by done. by intros [].
  - intros nd [->|Hnd%(ok_fresh c Hok)]%elem_of_cons; simpl; lia.
  - intros k' e' [[<- <-]|[Hne He']]%lookup_insert_Some; [rewrite Hpos; left|right; by apply ok_entry].
  - intros nd [->|Hnd]%elem_of_cons; simpl; [exists e; by rewrite lookup_insert_eq|].
    destruct (ok_node c Hok nd Hnd) as (e' & He' & Hp). exists e'. rewrite lookup_insert_ne; [done|congruence].
  - by apply ok_capacity.
  - lia.
Qed.

(** When the map is full, [cache_evict] removes the least recently used key. *)
Lemma cache_evict_last c nd l' :
  cache_ok c -> lru_ c = l' ++ [nd] -> Z.of_nat (length (lru_ c)) = capacity (options_ c) ->
  cache_evict c = mkCache (options_ c) (filter (fun x => x.2 <> nd.2) (lru_ c))
                    (delete nd.2 (entries_ c)) (next_node_ c) /\
  filter (fun x => x.2 <> nd.2) (lru_ c) = l'.
Proof.
  intros Hok Hl Hfull. unfold cache_evict. rewrite entries_size, Hfull, Z.eqb_refl by done.
  assert (filter (fun x => x.2 <> nd.2) (lru_ c) = l') as Hf.
  { pose proof (ok_keys c Hok) as Hnd. rewrite Hl, fmap_app, NoDup_app in Hnd. destruct Hnd as (_ & Hdisj & _).
    rewrite Hl, list.filter_app, filter_cons_False by (by intros []). rewrite app_nil_r.
    apply filter_all. intros x Hx Heq. apply (Hdisj x.2); [by apply list_elem_of_fmap_2|].
    rewrite Heq. by left. }
  split; [|done]. rewrite Hf. unfold list_pop_back. rewrite Hl, last_snoc, length_app. simpl.
  replace (pred (length l' + 1)) with (length l') by lia. rewrite take_app_length. by destruct nd.
Qed.

Lemma cache_evict_ok c : cache_ok c -> cache_ok (cache_evict c).
Proof.
  intros Hok. destruct (Z.eqb_spec (Z.of_nat (size (entries_ c))) (capacity (options_ c))) as [Hfull|Hne].
  - rewrite entries_size in Hfull by done. pose proof (ok_capacity c Hok).
    destruct (last (lru_ c)) as [nd|] eqn:Hlast; [|apply last_None in Hlast; rewrite Hlast in *; simpl in *; lia].
    apply last_Some in Hlast as [l' Hl].
    destruct (cache_evict_last c nd l') as [-> _]; [done|done|done|]. by apply ok_remove.
  - unfold cache_evict. by rewrite (proj2 (Z.eqb_neq _ _) Hne).
Qed.

Lemma cache_get_ok key now c : cache_ok c -> cache_ok (cache_get key now c).2.
Proof.
  intros Hok. unfold cache_get. destruct (entries_ c !! key) as [e|] eqn:He; [|done].
  pose proof (ok_entry c Hok key e He) as Hin.
  case_match; simpl.
  - rewrite (list_erase_key _ key) by (done || by apply ok_nodes || by apply ok_keys). by apply ok_remove.
  - rewrite (list_splice_front_key _ key) by (done || by apply ok_nodes || by apply ok_keys).
    rewrite <- (insert_id (entries_ c) key e He). by apply ok_front.
Qed.

Lemma cache_evict_room c :
  cache_ok c -> (Z.of_nat (length (lru_ (cache_evict c))) < capacity (options_ (cache_evict c)))%Z.
Proof.
  intros Hok. pose proof (ok_size c Hok) as Hsz. pose proof (ok_capacity c Hok) as Hcap. unfold cache_evict.
  destruct (Z.eqb_spec (Z.of_nat (size (entries_ c))) (capacity (options_ c))) as [Hfull|Hne];
    rewrite entries_size in * by done; simpl; [|lia].
  unfold list_pop_back. rewrite length_take. lia.
Qed.

Lemma cache_evict_lookup key c : entries_ c !! key = None -> entries_ (cache_evict c) !! key = None.
Proof.
  intros Hk. unfold cache_evict. case_match; [|done]. simpl.
  destruct (last (lru_ c)) as [[n v]|]; [|done]. by rewrite lookup_delete_None; right.
Qed.

Lemma cache_evict_options c : options_ (cache_evict c) = options_ c.
Proof. unfold cache_evict. by case_match. Qed.

Lemma cache_put_ok key resp now c : cache_ok c -> cache_ok (cache_put key resp now c).
Proof.
  intros Hok. unfold cache_put. destruct (entries_ c !! key) as [e|] eqn:He.
  - pose proof (ok_entry c Hok key e He) as Hin.
    rewrite (list_splice_front_key _ key) by (done || by apply ok_nodes || by apply ok_keys). by apply ok_front.
  - rewrite cache_evict_lookup by done.
    apply ok_push; [by apply cache_evict_ok|by apply cache_evict_lookup|done|by apply cache_evict_room].
Qed.

Lemma cache_put_options key resp now c : options_ (cache_put key resp now c) = options_ c.
Proof. unfold cache_put. case_match; [done|]. apply cache_evict_options. Qed.

Lemma cache_get_options key now c : options_ (cache_get key now c).2 = options_ c.
Proof. unfold cache_get. by repeat case_match. Qed.

Lemma cache_get_refines key now c :
  cache_ok c ->
  (cache_get key now c).1 = (spec_get key now (contents c)).1 /\
  contents (cache_get key now c).2 = (spec_get key now (contents c)).2.
Proof.
  intros Hok. unfold spec_get. rewrite spec_find_contents by done. unfold cache_get.
  destruct (entries_ c !! key) as [e|] eqn:He; simpl; [|done].
  pose proof (ok_entry c Hok key e He) as Hin.
  destruct (expires_at e <=? now)%Z; simpl; (split; [done|]); unfold contents; simpl.
  - rewrite (list_erase_key _ key) by (done || by apply ok_nodes || by apply ok_keys).
    rewrite <- omap_entry_view_remove. apply omap_entry_view_ext.
    intros nd [Hne _]%list_elem_of_filter. by rewrite lookup_delete_ne.
  - rewrite (list_splice_front_key _ key) by (done || by apply ok_nodes || by apply ok_keys). csimpl.
    unfold entry_view at 1. simpl. rewrite He. simpl. by rewrite omap_entry_view_remove.
Qed.

Lemma spec_remove_not key (l : spec R) : key ∉ l.*1 -> spec_remove key l = l.
Proof.
  intros Hk. apply filter_all. intros x Hx Heq. apply Hk. rewrite <- Heq. by apply list_elem_of_fmap_2.
Qed.

Lemma contents_push c key e n0 n1 o :
  key ∉ (lru_ c).*2 ->
  contents (mkCache o ((n0, key) :: lru_ c) (<[key := e]> (entries_ c)) n1) =
  (key, (response e, expires_at e)) :: contents c.
Proof.
  intros Hk. unfold contents. csimpl. unfold entry_view at 1. simpl. rewrite lookup_insert_eq. simpl. f_equal.
  apply omap_entry_view_ext. intros nd Hnd. rewrite lookup_insert_ne; [done|].
  intros ->. by apply Hk, list_elem_of_fmap_2.
Qed.

(** Eviction drops the tail of the recency order, and only when the cache is full. *)
Lemma cache_evict_contents c :
  cache_ok c -> contents (cache_evict c) = take (pred (Z.to_nat (capacity (options_ c)))) (contents c).
Proof.
  intros Hok. pose proof (ok_size c Hok) as Hsz. pose proof (ok_capacity c Hok) as Hcap.
  destruct (Z.eqb_spec (Z.of_nat (size (entries_ c))) (capacity (options_ c))) as [Hfull|Hne];
    rewrite entries_size in * by done.
  - destruct (last (lru_ c)) as [nd|] eqn:Hlast; [|apply last_None in Hlast; rewrite Hlast in *; simpl in *; lia].
    apply last_Some in Hlast as [l' Hl].
    destruct (cache_evict_last c nd l') as [-> Hf]; [done|done|done|].
    unfold contents. simpl. rewrite Hf.
    assert (forall x, x ∈ l' -> x.2 <> nd.2) as Hne by (rewrite <- Hf; by intros x [? _]%list_elem_of_filter).
    rewrite (omap_entry_view_ext _ (entries_ c)) by (intros x Hx; rewrite lookup_delete_ne; [done|by apply not_eq_sym, Hne]).
    pose proof (contents_length c Hok) as Hlen. unfold contents in Hlen.
    assert (length (omap (entry_view (entries_ c)) l') = length l') as Hlen'.
    { apply omap_entry_view_length. intros x Hx. apply (ok_node c Hok). rewrite Hl. apply elem_of_app. by left. }
    rewrite Hl in *. rewrite omap_app in *. rewrite length_app in *. simpl in *.
    rewrite take_app_le by lia. by rewrite take_ge by lia.
  - unfold cache_evict. rewrite entries_size, (proj2 (Z.eqb_neq _ _) Hne) by done.
    by rewrite take_ge by (rewrite contents_length by done; lia).
Qed.

Lemma cache_put_refines key resp now c :
  cache_ok c ->
  contents (cache_put key resp now c) =
  spec_put (Z.to_nat (capacity (options_ c))) key resp (now + ttl (options_ c) * nanos_per_milli) (contents c).
Proof.
  intros Hok. unfold cache_put, spec_put. pose proof (ok_size c Hok) as Hsz. pose proof (ok_capacity c Hok) as Hcap.
  destruct (entries_ c !! key) as [e|] eqn:He.
  - pose proof (ok_entry c Hok key e He) as Hin.
    rewrite (list_splice_front_key _ key) by (done || by apply ok_nodes || by apply ok_keys).
    unfold contents. csimpl. unfold entry_view at 1. simpl. rewrite lookup_insert_eq. simpl.
    rewrite <- omap_entry_view_remove.
    rewrite (omap_entry_view_ext _ (entries_ c)) by
      (intros nd [Hne _]%list_elem_of_filter; by rewrite lookup_insert_ne).
    rewrite take_ge; [done|]. simpl.
    assert (length (omap (entry_view (entries_ c)) (filter (fun nd => nd.2 <> key) (lru_ c))) <=
      length (filter (fun nd => nd.2 <> key) (lru_ c))) by apply omap_length_le.
    pose proof (length_filter_lt (fun nd => nd.2 <> key) (lru_ c) _ Hin ltac:(by intros [])). lia.
  - rewrite cache_evict_lookup by done.
    assert (key ∉ (contents c).*1) as Hk by
      (rewrite contents_keys, lru_keys_entries, He by done; by intros []).
    rewrite contents_push; simpl.
    + rewrite cache_evict_contents, spec_remove_not by done.
      by destruct (Z.to_nat (capacity (options_ c))) eqn:E; [lia|].
    + rewrite lru_keys_entries by (by apply cache_evict_ok). rewrite cache_evict_lookup by done. by intros [].
Qed.

Lemma cache_apply_ok c op : cache_ok c -> cache_ok (cache_apply c op).
Proof. destruct op; [apply cache_get_ok|apply cache_put_ok]. Qed.

Lemma cache_new_ok options c : (0 <= capacity options)%Z -> ResponseCache_new options = Ok c -> cache_ok c.
Proof.
  unfold ResponseCache_new. destruct (Z.eqb_spec (capacity options) 0); [done|]. intros H [= <-].
  split; simpl; try (by intros ? ?%not_elem_of_nil); try constructor; try lia.
  by intros k e He%lookup_empty_Some.
Qed.

Lemma cache_apply_refines c op : cache_ok c -> contents (cache_apply c op) = spec_apply (options_ c) (contents c) op.
Proof. intros Hok. destruct op; simpl; [by apply cache_get_refines|by apply cache_put_refines]. Qed.

Lemma cache_apply_options c op : options_ (cache_apply c op) = options_ c.
Proof. destruct op; [apply cache_get_options|apply cache_put_options]. Qed.

Lemma cache_run_refines ops c :
  cache_ok c ->
  cache_ok (cache_run ops c) /\ options_ (cache_run ops c) = options_ c /\
  contents (cache_run ops c) = foldl (spec_apply (options_ c)) (contents c) ops.
Proof.
  revert c. induction ops as [|op ops IH]; intros c Hok; [done|].
  unfold cache_run in *. simpl. destruct (IH (cache_apply c op)) as (H1 & H2 & H3); [by apply cache_apply_ok|].
  rewrite H3, H2, cache_apply_refines, cache_apply_options by done. done.
Qed.

Lemma cache_results_refines ops c :
  cache_ok c -> cache_results ops c = spec_results (options_ c) ops (contents c).
Proof.
  revert c. induction ops as [|[key now|key resp now] ops IH]; intros c Hok; simpl; [done| |].
  - destruct (cache_get_refines key now c Hok) as [-> <-]. f_equal.
    rewrite IH by (by apply cache_get_ok). by rewrite cache_get_options.
  - rewrite IH by (by apply cache_put_ok). by rewrite cache_put_options, cache_put_refines.
Qed.

End lemmas.

(** ** Lemmas: where an entry comes from, and how long it stays *)

Section retention.
Context {R : Type}.
Implicit Types (l : spec R).

Lemma spec_remove_elem k (l : spec R) x : x ∈ spec_remove k l <-> x.1 <> k /\ x ∈ l.
Proof. unfold spec_remove. by rewrite list_elem_of_filter. Qed.

Lemma spec_find_Some_elem k (l : spec R) v : spec_find k l = Some v -> (k, v) ∈ l.
Proof.
  unfold spec_find. destruct (filter _ l) as [|y r] eqn:Hf; [done|]. simpl. intros [= <-].
  assert (y ∈ filter (fun e => e.1 = k) l) as [<- Hy]%list_elem_of_filter by (rewrite Hf; left).
  by destruct y.
Qed.

Lemma spec_apply_elem o (l : spec R) op x :
  x ∈ spec_apply o l op -> x ∈ l \/
    exists r now, op = OpPut x.1 r now /\ x.2 = (r, (now + ttl o * nanos_per_milli)%Z).
Proof.
  destruct op as [k now|k r now]; simpl.
  - unfold spec_get. destruct (spec_find k l) as [[r e]|] eqn:Hf; simpl; [|auto].
    case_match; simpl; [rewrite spec_remove_elem; tauto|].
    intros [->|Hx]%elem_of_cons; [left; by apply spec_find_Some_elem|]. rewrite spec_remove_elem in Hx. tauto.
  - unfold spec_put. intros Hx%subseteq_take.
    apply elem_of_cons in Hx as [->|Hx]; [|rewrite spec_remove_elem in Hx; tauto].
    right. eauto.
Qed.

Lemma spec_put_elem_other cap k r e (l : spec R) x :
  x ∈ spec_put cap k r e l -> x.1 <> k -> x ∈ l.
Proof.
  unfold spec_put. intros [->|Hx]%subseteq_take%elem_of_cons Hne; [done|]. by apply spec_remove_elem in Hx as [_ ?].
Qed.

Lemma spec_put_key_fresh cap k r e (l : spec R) v :
  (k, v) ∈ spec_put cap k r e l -> v = (r, e).
Proof.
  unfold spec_put. intros [[= ->]|Hx]%subseteq_take%elem_of_cons; [done|].
  by apply spec_remove_elem in Hx as [? _].
Qed.

(** An entry was stored by the last [put] of its key. *)
Lemma spec_run_provenance o (ops : list (cache_op R)) k r e :
  (k, (r, e)) ∈ foldl (spec_apply o) [] ops ->
  exists ops1 now ops2, ops = ops1 ++ OpPut k r now :: ops2 /\
    e = (now + ttl o * nanos_per_milli)%Z /\ (forall (r' : R) now', OpPut k r' now' ∉ ops2).
Proof.
  induction ops as [|op ops IH] using rev_ind; [by intros ?%not_elem_of_nil|].
  rewrite foldl_app. simpl. intros Hin.
  assert ((exists r' now', op = OpPut k r' now') \/ ~ (exists r' now', op = OpPut k r' now'))
    as [(r' & now' & ->)|Hnp].
  { destruct op as [k' now'|k' r' now']; [right; by intros (? & ? & ?)|].
    destruct (decide (k' = k)) as [->|]; [left; eauto|right; naive_solver]. }
  - simpl in Hin. apply spec_put_key_fresh in Hin as [= -> ->].
    exists ops, now', []. split; [done|]. split; [done|]. intros ? ? ?%not_elem_of_nil. done.
  - apply spec_apply_elem in Hin as [Hin|(r' & now & -> & _)]; [|destruct Hnp; eauto].
    destruct (IH Hin) as (ops1 & now & ops2 & -> & He & Hno).
    exists ops1, now, (ops2 ++ [op]). split; [by rewrite <- app_assoc|]. split; [done|].
    intros r' now' [Hx|Hx%list_elem_of_singleton]%elem_of_app; [by eapply Hno|]. destruct Hnp. eauto.
Qed.

(** [key] is held with value [v], and only keys of [S] are more recent. *)
Definition held (key : string) (v : R * Z) (S : gset string) (l : spec R) : Prop :=
  exists l1 l2, l = l1 ++ (key, v) :: l2 /\ NoDup l.*1 /\ (forall k, k ∈ l1.*1 -> k ∈ S).

Lemma spec_remove_NoDup k (l : spec R) : NoDup l.*1 -> NoDup (spec_remove k l).*1.
Proof. apply NoDup_fmap_filter. Qed.

Lemma spec_remove_keys k (l : spec R) x : x ∈ (spec_remove k l).*1 -> x <> k /\ x ∈ l.*1.
Proof.
  intros (y & -> & [Hy ?]%spec_remove_elem)%list_elem_of_fmap. split; [done|by apply list_elem_of_fmap_2].
Qed.

Lemma spec_front_NoDup k v (l : spec R) : NoDup l.*1 -> NoDup ((k, v) :: spec_remove k l).*1.
Proof.
  intros Hnd. simpl. apply NoDup_cons. split; [by intros [? _]%spec_remove_keys|by apply spec_remove_NoDup].
Qed.

Lemma spec_remove_split k key v (l1 l2 : spec R) :
  k <> key -> spec_remove k (l1 ++ (key, v) :: l2) = spec_remove k l1 ++ (key, v) :: spec_remove k l2.
Proof.
  intros Hne. unfold spec_remove. rewrite list.filter_app, filter_cons_True; [done|]. simpl. congruence.
Qed.

Lemma held_remove k key v S l : k <> key -> held key v S l -> held key v S (spec_remove k l).
Proof.
  intros Hne (l1 & l2 & -> & Hnd & HS). exists (spec_remove k l1), (spec_remove k l2).
  split; [by apply spec_remove_split|]. split; [by apply spec_remove_NoDup|].
  intros x [_ ?]%spec_remove_keys. auto.
Qed.

Lemma held_touch k w key v S l :
  k <> key -> k ∈ S -> held key v S l -> held key v S ((k, w) :: spec_remove k l).
Proof.
  intros Hne Hk (l1 & l2 & -> & Hnd & HS). exists ((k, w) :: spec_remove k l1), (spec_remove k l2).
  split; [simpl; by rewrite spec_remove_split|]. split; [by apply spec_front_NoDup|].
  intros x [->|[_ ?]%spec_remove_keys]%elem_of_cons; auto.
Qed.

Lemma held_take n key v S l : size S < n -> held key v S l -> held key v S (take n l).
Proof.
  intros Hsz (l1 & l2 & Hl & Hnd & HS).
  assert (NoDup (take n l).*1) as Hnd'.
  { rewrite fmap_take. by eapply sublist_NoDup, sublist_take. }
  assert (length l1 <= size S) as Hlen.
  { rewrite Hl, fmap_app in Hnd. apply NoDup_app in Hnd as (Hnd1 & _ & _).
    rewrite <- (length_fmap fst), <- (size_list_to_set (C := gset string) _ Hnd1).
    apply subseteq_size. intros k. rewrite elem_of_list_to_set. auto. }
  exists l1, (take (n - length l1 - 1) l2). split; [|done].
  rewrite Hl, take_app_ge by lia. by replace (n - length l1) with (Datatypes.S (n - length l1 - 1)) at 1 by lia.
Qed.

Lemma held_find key v S l : held key v S l -> spec_find key l = Some v.
Proof.
  intros (l1 & l2 & -> & Hnd & _). apply spec_find_elem; [done|]. apply elem_of_app. right. left.
Qed.

Lemma held_apply o op key r e (S : gset string) (l : spec R) :
  size S < Z.to_nat (capacity o) ->
  (forall r' now', op <> OpPut key r' now') ->
  (op_key op = key -> (op_time op < e)%Z) ->
  (op_key op <> key -> op_key op ∈ S) ->
  held key (r, e) S l -> held key (r, e) S (spec_apply o l op).
Proof.
  intros Hsz Hnp Htime HS Hl. destruct op as [k now|k r' now]; simpl in *.
  - unfold spec_get. destruct (decide (k = key)) as [->|Hne].
    + rewrite (held_find _ _ _ _ Hl). specialize (Htime eq_refl).
      destruct (Z.leb_spec e now); [lia|]. simpl. exists [], (spec_remove key l).
      destruct Hl as (l1 & l2 & -> & Hnd & _). split; [done|]. split; [by apply spec_front_NoDup|].
      by intros ? ?%not_elem_of_nil.
    + destruct (spec_find k l) as [[r' e']|]; simpl; [|done].
      destruct (e' <=? now)%Z; simpl; [by apply held_remove|]. apply held_touch; auto.
  - destruct (decide (k = key)) as [->|Hne]; [by edestruct Hnp|].
    apply held_take; [done|]. apply held_touch; auto.
Qed.
End retention.

#[export] Hint Resolve cache_get_ok cache_put_ok cache_apply_ok cache_new_ok : ee.

(** From the constructor on. *)
Lemma cache_run_new {R : Type} (options : CacheOptions) (c : ResponseCache R) (ops : list (cache_op R)) :
  (0 <= capacity options)%Z -> ResponseCache_new options = Ok c ->
  cache_ok (cache_run ops c) /\ options_ (cache_run ops c) = options /\
  contents (cache_run ops c) = foldl (spec_apply options) [] ops /\
  cache_results ops c = spec_results options ops [].
Proof.
  intros Hcap Hnew. assert (cache_ok c) as Hok by eauto with ee.
  assert (options_ c = options /\ contents c = []) as [Ho Hc].
  { unfold ResponseCache_new in Hnew. case_match; [done|]. by injection Hnew as <-. }
  destruct (cache_run_refines ops c Hok) as (H1 & H2 & H3).
  rewrite Ho, Hc in *. do 3 (split; [done|]). rewrite cache_results_refines by done. by rewrite Ho, Hc.
Qed.

(** ** Properties *)

(** C9. The cache implements its promise: for every configuration the constructor
    accepts and every sequence of calls, the node-and-iterator structure stays
    consistent ([cache_ok]: every iterator designates the node of its own key), the
    contents are what the recency-ordered association list would hold after the
    same calls, every [get] returns what that list returns, and the map and the list
    have the same number of elements, never more than the capacity. *)
Theorem cache_refines_lru {R : Type} (options : CacheOptions) (c : ResponseCache R)
    (ops : list (cache_op R))
    (Hcap : (0 <= capacity options)%Z) (Hnew : ResponseCache_new options = Ok c) :
  cache_ok (cache_run ops c) /\
  contents (cache_run ops c) = foldl (spec_apply options) [] ops /\
  cache_results ops c = spec_results options ops [] /\
  cache_size (cache_run ops c) = Z.of_nat (length (lru_ (cache_run ops c))) /\
  (cache_size (cache_run ops c) <= capacity options)%Z.
Proof.
  destruct (cache_run_new options c ops Hcap Hnew) as (Hok & Hopt & Hc & Hr). do 3 (split; [done|]).
  unfold cache_size. rewrite entries_size by done. split; [done|].
  pose proof (ok_size _ Hok) as Hsz. by rewrite Hopt in Hsz.
Qed.

Definition cache2 : ResponseCache string := mkCache (mkCacheOptions 2 1) [] ∅ 0.

Lemma cache_refines_lru_witness :
  let ops := [OpPut "A" "r1" 0; OpPut "B" "r2" 5; OpGet "A" 10; OpPut "C" "r3" 11;
              OpGet "B" 12; OpGet "A" 13; OpGet "A" 1000000; OpGet "C" 20] in
  cache_results ops cache2 = [Some "r1"; None; Some "r1"; None; Some "r3"] /\
  cache_results ops cache2 = spec_results (mkCacheOptions 2 1) ops [].
Proof.
  intros ops. split; [vm_compute; reflexivity|].
  apply (cache_refines_lru (mkCacheOptions 2 1) cache2 ops); [vm_compute; congruence|reflexivity].
Defined.

(** C30. A hit is fresh and belongs to its key: when [get key] returns a response at
    time [now] after some calls, that response was stored by an earlier [put] of the
    same key, that [put] is the last one of that key, and [now] is before the time
    of that [put] plus the time to live. *)
Theorem cache_hit_fresh {R : Type} (options : CacheOptions) (c : ResponseCache R)
    (ops : list (cache_op R)) (key : string) (now : Z) (r : R)
    (Hcap : (0 <= capacity options)%Z) (Hnew : ResponseCache_new options = Ok c)
    (Hhit : (cache_get key now (cache_run ops c)).1 = Some r) :
  exists ops1 stored ops2,
    ops = ops1 ++ OpPut key r stored :: ops2 /\
    (forall r' now', OpPut key r' now' ∉ ops2) /\
    (now < stored + ttl options * nanos_per_milli)%Z.
Proof.
  destruct (cache_run_new options c ops Hcap Hnew) as (Hok & _ & Hc & _).
  destruct (cache_get_refines key now _ Hok) as [Hget _]. rewrite Hget, Hc in Hhit.
  unfold spec_get in Hhit. destruct (spec_find _ _) as [[r' e]|] eqn:Hf; [|done].
  destruct (Z.leb_spec e now) as [|Hlt]; [done|]. simpl in Hhit. injection Hhit as ->.
  apply spec_find_Some_elem in Hf.
  destruct (spec_run_provenance _ _ _ _ _ Hf) as (ops1 & stored & ops2 & Hops & He & Hno).
  exists ops1, stored, ops2. subst e. eauto.
Qed.

Lemma cache_hit_fresh_witness :
  let ops := [OpPut "A" "r1" 0; OpPut "A" "r7" 100; OpGet "A" 200] in
  (cache_get "A" 1000099 (cache_run ops cache2)).1 = Some "r7" /\
  exists ops1 stored ops2, ops = ops1 ++ OpPut "A" "r7" stored :: ops2 /\
    (forall r' now', OpPut "A" r' now' ∉ ops2) /\ (1000099 < stored + 1 * nanos_per_milli)%Z.
Proof.
  intros ops. assert ((cache_get "A" 1000099 (cache_run ops cache2)).1 = Some "r7") as H by (vm_compute; reflexivity).
  split; [exact H|].
  apply (cache_hit_fresh (mkCacheOptions 2 1) cache2 ops); [vm_compute; congruence|reflexivity|exact H].
Defined.

(** C31. The cache keeps what it should: after [put key r] at time [stored], if the
    calls that follow do not [put] that key again and name fewer distinct other keys
    than the capacity, then until the time to live has passed [get key] returns
    [r].  (Calls on the key itself are before its expiry; calls on other keys may
    happen at any time.) *)
Theorem cache_retention {R : Type} (c : ResponseCache R) (ops : list (cache_op R))
    (key : string) (r : R) (stored now : Z)
    (Hok : cache_ok c)
    (Hnoput : forall r' now', OpPut key r' now' ∉ ops)
    (Htimes : forall op, op ∈ ops -> op_key op = key ->
       (op_time op < stored + ttl (options_ c) * nanos_per_milli)%Z)
    (Hfew : (Z.of_nat (size ((list_to_set (op_key <$> ops) : gset string) ∖ {[key]})) < capacity (options_ c))%Z)
    (Hnow : (now < stored + ttl (options_ c) * nanos_per_milli)%Z) :
  (cache_get key now (cache_run ops (cache_put key r stored c))).1 = Some r.
Proof.
  set (e := (stored + ttl (options_ c) * nanos_per_milli)%Z) in *.
  set (S := (list_to_set (op_key <$> ops) : gset string) ∖ {[key]}) in *.
  assert (size S < Z.to_nat (capacity (options_ c))) as Hsz by lia.
  destruct (cache_run_refines ops (cache_put key r stored c)) as (Hok' & _ & Hc); [eauto with ee|].
  destruct (cache_get_refines key now _ Hok') as [-> _]. rewrite Hc, cache_put_options.
  assert (held key (r, e) S (foldl (spec_apply (options_ c)) (contents (cache_put key r stored c)) ops)) as Hheld.
  { assert (forall op, op ∈ ops -> op_key op <> key -> op_key op ∈ S) as HS.
    { intros op Hop Hne. subst S. rewrite elem_of_difference, elem_of_list_to_set, elem_of_singleton.
      split; [by apply list_elem_of_fmap_2|done]. }
    generalize dependent S. intros S _ Hsz HS. clear Hc Hok'.
    assert (held key (r, e) S (contents (cache_put key r stored c))) as Hinit.
    { rewrite cache_put_refines by done. apply held_take; [done|]. exists [], (spec_remove key (contents c)).
      split; [done|]. split; [|by intros ? ?%not_elem_of_nil].
      by apply spec_front_NoDup, contents_NoDup. }
    revert Hinit. generalize (contents (cache_put key r stored c)) as l.
    induction ops as [|op ops IH]; intros l Hl; simpl; [done|].
    apply IH.
    - intros r' t' Hin. apply (Hnoput r' t'). by right.
    - intros op' Hin. apply Htimes. by right.
    - intros op' Hin. apply HS. by right.
    - apply held_apply; [done| |apply Htimes; left|apply HS; left|done].
      intros r' t' ->. apply (Hnoput r' t'). left. }
  unfold spec_get. rewrite (held_find _ _ _ _ Hheld). destruct (Z.leb_spec e now); [lia|done].
Qed.

Lemma cache_retention_witness :
  let ops := [OpPut "B" "r2" 5; OpGet "A" 10; OpPut "B" "r3" 90000000] in
  (cache_get "A" 999999 (cache_run ops (cache_put "A" "r1" 0 cache2))).1 = Some "r1".
Proof.
  intros ops. apply cache_retention.
  - apply (cache_new_ok (mkCacheOptions 2 1)); [vm_compute; congruence|reflexivity].
  - intros r' t' H. repeat (apply elem_of_cons in H as [H|H]; [discriminate|]). by apply not_elem_of_nil in H.
  - intros op H Hk. repeat (apply elem_of_cons in H as [->|H]; [try discriminate Hk; vm_compute; reflexivity|]).
    by apply not_elem_of_nil in H.
  - vm_compute. reflexivity.
  - vm_compute. reflexivity.
Defined.
