(* ===== verification/RequestCoalescer.v ===== *)
(** * The request coalescer

    [include/eventedge/request_coalescer.hpp] and [src/request_coalescer.cpp]: the
    table of requests in flight, by key, each with the callbacks that wait for its
    response.  [join_or_start], [size] and [waiter_count] hold the mutex for their
    whole body; [complete] holds it while it takes the flight out of the table and
    calls the callbacks after releasing it, so it is modelled as the atomic removal
    together with the list of callbacks it will then invoke, in order.

    - [join_or_start], [complete], [coalescer_size], [waiter_count]: the code;
    - [coal_run]: a sequence of calls from any number of threads, in the order of
      their critical sections, with what each call returned or will invoke.

    A callback ([std::function<void(HttpResponse)>]) is only stored and called: it
    is the type variable [W]. *)

From stdpp Require Import base strings numbers gmap list.
From S2P Require Import Prelude.

Inductive Role := leader | waiter.

#[export] Instance Role_eq_dec : EqDecision Role.
Proof. solve_decision. Defined.

Section coalescer.
Context {W : Type}.

Record RequestCoalescer := mkCoalescer {
  flights_ : gmap string (list W);
}.

Definition join_or_start (key : string) (w : W) (c : RequestCoalescer) : Role * RequestCoalescer :=
  match flights_ c !! key with
  | None => (leader, mkCoalescer (<[key := []]> (flights_ c)))
  | Some waiters => (waiter, mkCoalescer (<[key := waiters ++ [w]]> (flights_ c)))
  end.

(** [None]: there was no flight and the call returned early.  [Some ws]: the
    flight is removed and the callbacks [ws] are invoked with the response. *)
Definition complete (key : string) (c : RequestCoalescer) : option (list W) * RequestCoalescer :=
  match flights_ c !! key with
  | None => (None, c)
  | Some waiters => (Some waiters, mkCoalescer (delete key (flights_ c)))
  end.

Definition coalescer_size (c : RequestCoalescer) : nat := size (flights_ c).

Definition waiter_count (key : string) (c : RequestCoalescer) : nat :=
  match flights_ c !! key with None => 0 | Some waiters => length waiters end.

(** ** Sequences of calls *)

Inductive coal_op :=
| Join (key : string) (w : W)
| Complete (key : string).

Inductive coal_out :=
| Joined (key : string) (w : W) (role : Role)
| Completed (key : string) (invoked : option (list W)).

Definition coal_step (op : coal_op) (c : RequestCoalescer) : coal_out * RequestCoalescer :=
  match op with
  | Join key w => let (role, c') := join_or_start key w c in (Joined key w role, c')
  | Complete key => let (ws, c') := complete key c in (Completed key ws, c')
  end.

Fixpoint coal_run (ops : list coal_op) (c : RequestCoalescer) : list coal_out * RequestCoalescer :=
  match ops with
  | [] => ([], c)
  | op :: ops' =>
      let (o, c1) := coal_step op c in
      let (os, c2) := coal_run ops' c1 in (o :: os, c2)
  end.

Definition coal_op_key (op : coal_op) : string :=
  match op with Join key _ => key | Complete key => key end.

Definition coal_out_key (o : coal_out) : string :=
  match o with Joined key _ _ => key | Completed key _ => key end.

(** ** What an observer of the calls on one key sees *)

(** The callbacks that were told to wait, in order. *)
Definition waiting_of (key : string) (os : list coal_out) : list W :=
  omap (fun o => match o with
                 | Joined k w waiter => if decide (k = key) then Some w else None
                 | _ => None
                 end) os.

(** The callbacks that were invoked, in order. *)
Definition invoked_of (key : string) (os : list coal_out) : list W :=
  mjoin (omap (fun o => match o with
                 | Completed k (Some ws) => if decide (k = key) then Some ws else None
                 | _ => None
                 end) os).

Definition is_leader_of (key : string) (o : coal_out) : bool :=
  match o with Joined k _ leader => bool_decide (k = key) | _ => false end.

Definition is_completion_of (key : string) (o : coal_out) : bool :=
  match o with Completed k (Some _) => bool_decide (k = key) | _ => false end.

Definition leaders_of (key : string) (os : list coal_out) : nat :=
  length (filter (fun o => is_leader_of key o = true) os).

Definition completions_of (key : string) (os : list coal_out) : nat :=
  length (filter (fun o => is_completion_of key o = true) os).

Definition pending (key : string) (c : RequestCoalescer) : list W := default [] (flights_ c !! key).

Definition in_flight (key : string) (c : RequestCoalescer) : nat :=
  match flights_ c !! key with Some _ => 1 | None => 0 end.
End coalescer.

Arguments RequestCoalescer : clear implicits.
Arguments coal_op : clear implicits.
Arguments coal_out : clear implicits.

(** ** Lemmas *)

Section lemmas.
Context {W : Type}.
Implicit Types (c : RequestCoalescer W) (os : list (coal_out W)).

Lemma waiting_of_cons key o os : waiting_of key (o :: os) = waiting_of key [o] ++ waiting_of key os.
Proof. unfold waiting_of. csimpl. by case_match. Qed.

Lemma invoked_of_cons key o os : invoked_of key (o :: os) = invoked_of key [o] ++ invoked_of key os.
Proof. unfold invoked_of. csimpl. case_match; csimpl; by rewrite ?app_nil_r. Qed.

Lemma leaders_of_cons key o os : leaders_of key (o :: os) = leaders_of key [o] + leaders_of key os.
Proof. unfold leaders_of. rewrite !filter_cons. by case_decide. Qed.

Lemma completions_of_cons key o os :
  completions_of key (o :: os) = completions_of key [o] + completions_of key os.
Proof. unfold completions_of. rewrite !filter_cons. by case_decide. Qed.

(** One call, seen from one key. *)
Lemma coal_step_view key op c o c' :
  coal_step op c = (o, c') ->
  pending key c ++ waiting_of key [o] = invoked_of key [o] ++ pending key c' /\
  in_flight key c + leaders_of key [o] = completions_of key [o] + in_flight key c'.
Proof.
  unfold coal_step, join_or_start, complete, pending, in_flight, waiting_of, invoked_of,
    leaders_of, completions_of.
  destruct op as [k w|k]; destruct (flights_ c !! k) as [ws|] eqn:Hk; intros [= <- <-]; simpl;
    rewrite ?filter_cons, ?filter_nil; simpl;
    destruct (decide (k = key)) as [->|Hne]; simplify_map_eq;
    rewrite ?bool_decide_eq_true_2, ?bool_decide_eq_false_2 by done;
    simpl; rewrite ?app_nil_r; repeat (rewrite decide_True by done); repeat (rewrite decide_False by done);
    simpl; auto with lia.
Qed.

Lemma coal_run_view key ops c :
  pending key c ++ waiting_of key (coal_run ops c).1 =
    invoked_of key (coal_run ops c).1 ++ pending key (coal_run ops c).2 /\
  in_flight key c + leaders_of key (coal_run ops c).1 =
    completions_of key (coal_run ops c).1 + in_flight key (coal_run ops c).2.
Proof.
  revert c. induction ops as [|op ops IH]; intros c; cbn [coal_run].
  - simpl. rewrite app_nil_r. auto with lia.
  - destruct (coal_step op c) as [o c1] eqn:Hstep.
    destruct (coal_step_view key _ _ _ _ Hstep) as [H1 H2].
    destruct (IH c1) as [H3 H4]. destruct (coal_run ops c1) as [os c2]. cbn [fst snd] in *.
    rewrite (waiting_of_cons key o), (invoked_of_cons key o), (leaders_of_cons key o), (completions_of_cons key o).
    split; [|lia]. by rewrite app_assoc, H1, <- !app_assoc, H3.
Qed.

Lemma coal_step_other key op c :
  coal_op_key op <> key -> flights_ (coal_step op c).2 !! key = flights_ c !! key.
Proof.
  unfold coal_step, join_or_start, complete.
  destruct op as [k w|k]; simpl; intros Hne; destruct (flights_ c !! k); simpl; by simplify_map_eq.
Qed.

Lemma coal_step_same key op c c' :
  coal_op_key op = key -> flights_ c !! key = flights_ c' !! key ->
  (coal_step op c).1 = (coal_step op c').1 /\
  flights_ (coal_step op c).2 !! key = flights_ (coal_step op c').2 !! key.
Proof.
  unfold coal_step, join_or_start, complete. destruct op; simpl; intros -> Heq; rewrite <- Heq;
    destruct (flights_ c !! key) eqn:Hk; simpl; (split; [done|]);
    rewrite ?lookup_insert_eq, ?lookup_delete_eq; congruence.
Qed.

Lemma coal_step_key op c : coal_out_key (coal_step op c).1 = coal_op_key op.
Proof. unfold coal_step, join_or_start, complete. destruct op as [k w|k]; simpl; by destruct (flights_ c !! k). Qed.

Lemma coal_run_cons op ops c :
  coal_run (op :: ops) c =
  ((coal_step op c).1 :: (coal_run ops (coal_step op c).2).1, (coal_run ops (coal_step op c).2).2).
Proof. simpl. destruct (coal_step op c) as [o c1]. simpl. by destruct (coal_run ops c1). Qed.

(** Only the calls on [key] matter to [key]. *)
Lemma coal_run_restrict key ops c c' :
  flights_ c !! key = flights_ c' !! key ->
  filter (fun o => coal_out_key o = key) (coal_run ops c).1 =
    (coal_run (filter (fun op => coal_op_key op = key) ops) c').1 /\
  flights_ (coal_run ops c).2 !! key =
    flights_ (coal_run (filter (fun op => coal_op_key op = key) ops) c').2 !! key.
Proof.
  revert c c'. induction ops as [|op ops IH]; intros c c' Heq; [done|].
  rewrite filter_cons, coal_run_cons. cbn [fst snd]. rewrite filter_cons, coal_step_key.
  case_decide as Hk.
  - rewrite coal_run_cons. cbn [fst snd]. destruct (coal_step_same key op c c' Hk Heq) as [<- Heq'].
    destruct (IH _ _ Heq') as [-> ->]. done.
  - apply IH. by rewrite coal_step_other.
Qed.

(** A burst of joins on a key that is in flight: everyone waits, in order. *)
Lemma coal_burst key ws c old :
  flights_ c !! key = Some old ->
  coal_run (Join key <$> ws) c =
    ((fun w => Joined key w waiter) <$> ws, mkCoalescer (<[key := old ++ ws]> (flights_ c))).
Proof.
  revert c old. induction ws as [|w ws IH]; intros c old Hk; simpl.
  - rewrite app_nil_r, insert_id by done. by destruct c.
  - unfold join_or_start. rewrite Hk.
    rewrite (IH _ (old ++ [w])) by (simpl; by rewrite lookup_insert_eq). simpl.
    by rewrite insert_insert_eq, <- app_assoc.
Qed.
End lemmas.

(** ** Properties *)

(** C14. Every waiter is served exactly once and every flight has one leader.  For
    any sequence of calls on a fresh coalescer and any key: the callbacks told to
    wait are, in order, the callbacks invoked so far followed by those still stored
    (none lost, none invoked twice); and the number of callers told to lead exceeds
    the number of flights completed by one exactly while a flight is open, so there
    are never two leaders of one key at once. *)
Theorem coalescer_exactly_once {W : Type} (ops : list (coal_op W)) (key : string) :
  let '(os, c) := coal_run ops (mkCoalescer ∅) in
  waiting_of key os = invoked_of key os ++ pending key c /\
  leaders_of key os = completions_of key os + in_flight key c.
Proof.
  pose proof (coal_run_view key ops (mkCoalescer (W := W) ∅)) as [H1 H2].
  destruct (coal_run ops _) as [os c]. cbn [fst snd] in *. auto.
Qed.

(** A burst of callers on one key costs one fetch: from any state with no
    flight for [key], of the callers [w :: ws] the first leads and the others wait;
    the leader's [complete] then invokes exactly [ws], in arrival order, and leaves
    the table as it was before, so the next caller leads again. *)
Lemma coalescer_burst {W : Type} (key : string) (w : W) (ws : list W) (c : RequestCoalescer W)
    (Hfree : flights_ c !! key = None) :
  let '(os, c1) := coal_run (Join key <$> (w :: ws)) c in
  os = Joined key w leader :: ((fun x => Joined key x waiter) <$> ws) /\
  waiter_count key c1 = length ws /\
  coalescer_size c1 = S (coalescer_size c) /\
  complete key c1 = (Some ws, c) /\
  (forall x, (join_or_start key x (complete key c1).2).1 = leader).
Proof.
  simpl. unfold join_or_start at 1. rewrite Hfree.
  rewrite (coal_burst key ws _ []) by (simpl; by rewrite lookup_insert_eq). simpl.
  unfold waiter_count, coalescer_size, complete, join_or_start. simpl.
  rewrite insert_insert_eq, lookup_insert_eq, map_size_insert_None by done.
  simpl. rewrite delete_insert_id, Hfree by done. by destruct c.
Qed.

(** Keys do not interfere: the calls on other keys change nothing that a
    caller of [key] can see, so the roles and the callbacks of [key] are those of the
    calls on [key] alone. *)
Lemma coalescer_keys_independent {W : Type} (ops : list (coal_op W)) (key : string)
    (c : RequestCoalescer W) :
  let mine := filter (fun op => coal_op_key op = key) ops in
  filter (fun o => coal_out_key o = key) (coal_run ops c).1 = (coal_run mine c).1 /\
  waiter_count key (coal_run ops c).2 = waiter_count key (coal_run mine c).2.
Proof.
  intros mine. destruct (coal_run_restrict key ops c c eq_refl) as [H1 H2].
  split; [done|]. unfold waiter_count. by rewrite H2.
Qed.
