(* ===== verification/HttpHandler.v ===== *)
(** * Local responses

    [include/eventedge/http_handler.hpp] and [src/http_handler.cpp]: the responses
    the proxy makes itself, for its own routes and for gateway failures.  Each
    definition has the name and the body of the function it models; the message
    operations are those of [Beast]. *)

From Stdlib Require Import Ascii.
From stdpp Require Import base strings numbers list.
From S2P Require Import Prelude CppString Beast.

Module status.
Definition ok : Z := 200.
Definition not_found : Z := 404.
Definition method_not_allowed : Z := 405.
Definition bad_gateway : Z := 502.
Definition service_unavailable : Z := 503.
Definition gateway_timeout : Z := 504.
End status.

(** A double quote, and the end-of-line byte, as strings. *)
Definition dquote : string := String "034" EmptyString.
Definition newline : string := String "010" EmptyString.

Definition health_body : string :=
  "{" +:+ dquote +:+ "status" +:+ dquote +:+ ":" +:+ dquote +:+ "ok" +:+ dquote +:+ "," +:+
  dquote +:+ "service" +:+ dquote +:+ ":" +:+ dquote +:+ "eventedge" +:+ dquote +:+ "}".

Section handler.
Context {F : Type} `{!Beast F}.

Definition make_response (req : request F) (st : Z) (content_type body : string) : response F :=
  let r := res_new st (req_version req) in
  let r := res_set field.server "EventEdge" r in
  let r := res_set field.content_type content_type r in
  let r := res_set_keep_alive (req_keep_alive req) r in
  let r := res_with_body body r in
  res_prepare_payload r.

Definition is_health_request (req : request F) : bool := bool_decide (req_target req = "/health").

Definition handle_request (req : request F) : response F :=
  if negb (bool_decide (req_method req = verb_get)) then
    res_set field.allow "GET"
      (make_response req status.method_not_allowed "text/plain" ("Method not allowed" +:+ newline))
  else if is_health_request req then
    make_response req status.ok "application/json" health_body
  else make_response req status.not_found "text/plain" ("Not found" +:+ newline).

Definition make_bad_gateway_response (req : request F) : response F :=
  make_response req status.bad_gateway "text/plain" ("Bad Gateway" +:+ newline).

Definition make_service_unavailable_response (req : request F) : response F :=
  make_response req status.service_unavailable "text/plain" ("Service Unavailable" +:+ newline).

Definition make_gateway_timeout_response (req : request F) : response F :=
  make_response req status.gateway_timeout "text/plain" ("Gateway Timeout" +:+ newline).
End handler.

(** ** What a locally made response looks like to a client *)

(** A response answers a request when it has the given status, type and body, is
    signed by the server, states the length of its body, and follows the request in
    HTTP version and connection persistence. *)
Record local_answer {F : Type} `{!Beast F} (req : request F) (st : Z) (content_type body : string)
    (r : response F) : Prop := {
  la_status : res_result r = st;
  la_version : res_version r = req_version req;
  la_keep_alive : res_keep_alive r = req_keep_alive req;
  la_body : res_body r = body;
  la_server : fields_find field.server (res_fields r) = Some "EventEdge";
  la_type : fields_find field.content_type (res_fields r) = Some content_type;
  la_length : fields_find field.content_length (res_fields r) = Some (to_string (Z.of_nat (String.length body)));
}.

(** ** Lemmas *)

Section lemmas.
Context {F : Type} `{!Beast F, !BeastLaws F}.

Lemma make_response_answer (req : request F) st ct body :
  body <> "" -> local_answer req st ct body (make_response req st ct body).
Proof.
  intros Hbody. unfold make_response.
  set (r := res_with_body body _).
  destruct (res_payload_rest r) as (Hst & Hv & Hb). split.
  - by rewrite Hst.
  - by rewrite Hv.
  - rewrite res_payload_keep_alive. unfold r, res_keep_alive. simpl. apply get_set_keep_alive.
  - by rewrite Hb.
  - rewrite res_payload_find by done. unfold r. simpl.
    rewrite find_keep_alive_ne, find_set_ne by done. apply find_set_eq.
  - rewrite res_payload_find by done. unfold r. simpl.
    rewrite find_keep_alive_ne by done. apply find_set_eq.
  - by rewrite res_payload_length.
Qed.

Lemma set_allow_answer (req : request F) st ct body v r :
  local_answer req st ct body r -> local_answer req st ct body (res_set field.allow v r).
Proof.
  intros [Hs Hv Hk Hb H1 H2 H3]. split; simpl; try done.
  - rewrite <- Hk. unfold res_keep_alive. simpl. by apply keep_alive_set_ne.
  - by rewrite find_set_ne.
  - by rewrite find_set_ne.
  - by rewrite find_set_ne.
Qed.
End lemmas.

(** ** Properties *)

Definition get_request (target : string) : request RefFields.t :=
  mkRequest verb_get target 11 [("Host", "client.example")] "".

(** C40. The responses the proxy makes itself.  A request that is not a GET is answered
    405 with [Allow: GET]; GET on the health target is answered 200 with the JSON status
    document; any other GET is answered 404; and the three gateway failures are 502, 503
    and 504 with their reason as body.  In each case the response is well formed (server,
    type, exact length) and keeps the version and the connection persistence of the
    request. *)
Theorem local_responses {F : Type} `{!Beast F} (Hbeast : BeastLaws F) (req : request F) :
  (if bool_decide (req_method req = verb_get) then
     if bool_decide (req_target req = "/health")
     then local_answer req 200 "application/json" health_body (handle_request req)
     else local_answer req 404 "text/plain" ("Not found" +:+ newline) (handle_request req)
   else
     local_answer req 405 "text/plain" ("Method not allowed" +:+ newline) (handle_request req) /\
     fields_find field.allow (res_fields (handle_request req)) = Some "GET") /\
  local_answer req 502 "text/plain" ("Bad Gateway" +:+ newline) (make_bad_gateway_response req) /\
  local_answer req 503 "text/plain" ("Service Unavailable" +:+ newline) (make_service_unavailable_response req) /\
  local_answer req 504 "text/plain" ("Gateway Timeout" +:+ newline) (make_gateway_timeout_response req).
Proof.
  split; [|repeat split; by apply make_response_answer].
  unfold handle_request, is_health_request. destruct (bool_decide (req_method req = verb_get)); simpl.
  - destruct (bool_decide _); by apply make_response_answer.
  - split; [|apply find_set_eq]. by apply set_allow_answer, make_response_answer.
Qed.

Lemma local_responses_witness :
  BeastLaws RefFields.t /\
  local_answer (get_request "/health") 200 "application/json" health_body
    (handle_request (get_request "/health")) /\
  local_answer (get_request "/a") 504 "text/plain" ("Gateway Timeout" +:+ newline)
    (make_gateway_timeout_response (get_request "/a")).
Proof.
  split; [exact RefFields.laws|].
  split; [exact (proj1 (local_responses RefFields.laws (get_request "/health")))|].
  apply (local_responses RefFields.laws (get_request "/a")).
Defined.
