(* ===== verification/HopByHop.v ===== *)
(** * Hop-by-hop headers and the Host header

    The two helpers of [src/upstream_proxy.cpp] that rewrite the headers of a
    proxied message.

    - [connection_tokens_of]: the tokenizer loop over one [Connection] value;
    - [remove_hop_by_hop_headers]: the whole function;
    - [upstream_host_header]: the value of [Host] sent upstream. *)

From Stdlib Require Import Ascii.
From stdpp Require Import base strings numbers list.
From S2P Require Import Prelude CppString Beast UpstreamPool.

Definition blank_chars : list ascii := [" "; "009"]%char.

(** The [while] loop from position [start]; [fuel] bounds its iterations (each one
    moves [start] forward, so one more than the length is enough). *)
Fixpoint token_loop (fuel : nat) (value : string) (start : nat) : list string :=
  match fuel with
  | O => []
  | S fuel' =>
      if start <? String.length value then
        let end_ := sv_find ","%char start value in
        let token_end := default (String.length value) end_ in
        let token := sv_substr start (token_end - start) value in
        let first := sv_find_first_not_of blank_chars token in
        let last := sv_find_last_not_of blank_chars token in
        let found := match first, last with
                     | Some f, Some l => [sv_substr f (l - f + 1) token]
                     | _, _ => []
                     end in
        match end_ with
        | None => found
        | Some e => found ++ token_loop fuel' value (e + 1)
        end
      else []
  end.

Definition connection_tokens_of (value : string) : list string :=
  token_loop (S (String.length value)) value 0.

Definition upstream_host_header (upstream : UpstreamEndpoint) : string :=
  match sv_find ":"%char 0 (host upstream) with
  | Some _ => "[" +:+ host upstream +:+ "]:" +:+ to_string (port upstream)
  | None => host upstream +:+ ":" +:+ to_string (port upstream)
  end.

(** The fields a proxy must not forward. *)
Definition hop_by_hop_fields : list string :=
  [field.connection; field.keep_alive; field.proxy_authenticate; field.proxy_authorization;
   field.te; field.trailer; field.transfer_encoding; field.upgrade].

Section hop_by_hop.
Context {F : Type} `{!Beast F}.

Definition connection_tokens (headers : F) : list string :=
  mjoin ((fun header => if name_eq header.1 field.connection then connection_tokens_of header.2 else [])
         <$> fields_list headers).

Definition remove_hop_by_hop_headers (headers : F) : F :=
  let headers1 := foldl (fun h token => fields_erase token h) headers (connection_tokens headers) in
  let headers2 := fields_erase field.connection headers1 in
  let headers3 := fields_erase field.keep_alive headers2 in
  let headers4 := fields_erase field.proxy_authenticate headers3 in
  let headers5 := fields_erase field.proxy_authorization headers4 in
  let headers6 := fields_erase field.te headers5 in
  let headers7 := fields_erase field.trailer headers6 in
  let headers8 := fields_erase field.transfer_encoding headers7 in
  fields_erase field.upgrade headers8.
End hop_by_hop.

(** The reference: cut at commas, trim blanks, drop what is empty. *)
Definition split_tokens (value : string) : list string :=
  filter (fun t => t <> "") (str_trim blank_chars <$> str_split ","%char value).

(** A field is end to end when neither the list above nor the tokens name it. *)
Definition end_to_end (tokens : list string) (e : string * string) : Prop :=
  Forall (fun n => ~ named n e) (tokens ++ hop_by_hop_fields).

#[export] Instance end_to_end_dec tokens e : Decision (end_to_end tokens e).
Proof. unfold end_to_end. apply _. Defined.

(** A name that must not be forwarded with the message: one of the fixed list, or one that
    a piece of some [Connection] field gives. *)
Definition hop_by_hop {F : Type} `{!Beast F} (headers : F) (n : string) : Prop :=
  (exists m, m ∈ hop_by_hop_fields /\ name_eq m n = true) \/
  (exists e token, e ∈ fields_named field.connection headers /\ token ∈ split_tokens e.2 /\ name_eq token n = true).

(** ** Lemmas *)

Lemma str_drop_length_app s t : str_drop (String.length s) (s +:+ t) = t.
Proof. rewrite <- (Nat.add_0_r (String.length s)). by rewrite str_drop_app. Qed.

Lemma sv_substr_mid pre t post : sv_substr (String.length pre) (String.length t) (pre +:+ t +:+ post) = t.
Proof. unfold sv_substr. by rewrite str_drop_length_app, str_take_app. Qed.

Lemma token_found token :
  (match sv_find_first_not_of blank_chars token, sv_find_last_not_of blank_chars token with
   | Some f, Some l => [sv_substr f (l - f + 1) token]
   | _, _ => []
   end) = filter (fun t => t <> "") [str_trim blank_chars token].
Proof.
  destruct (sv_find_first_not_of blank_chars token) as [f|] eqn:Hf.
  - destruct (first_not_of_Some _ _ _ Hf) as (_ & l & Hl & _). rewrite Hl.
    destruct (substr_trim _ _ _ _ Hf Hl) as [-> Hne]. by rewrite filter_cons_True.
  - rewrite trim_none by done. by rewrite filter_cons_False by (by intros []).
Qed.

Lemma token_loop_split fuel pre s :
  String.length s < fuel ->
  token_loop fuel (pre +:+ s) (String.length pre) = split_tokens s.
Proof.
  revert pre s. induction fuel as [|fuel IH]; intros pre s Hfuel; [lia|]. cbn [token_loop].
  rewrite str_length_app. unfold sv_find. rewrite str_drop_length_app.
  destruct (Nat.ltb_spec (String.length pre) (String.length pre + String.length s)) as [Hlt|Hge].
  - rewrite token_found. destruct (str_find ","%char s) as [i|] eqn:Hfind; simpl.
    + apply str_find_Some in Hfind as (s1 & s2 & -> & Hno & <-).
      rewrite Nat.add_comm, Nat.add_sub, sv_substr_mid.
      unfold split_tokens. rewrite str_split_cut by done. csimpl.
      rewrite filter_cons. change (String "," s2) with ("," +:+ s2).
      rewrite (str_app_assoc s1), (str_app_assoc pre).
      replace (String.length s1 + String.length pre + 1) with (String.length (pre +:+ s1 +:+ ","))
        by (rewrite !str_length_app; simpl; lia).
      rewrite IH by (rewrite str_length_app in Hfuel; simpl in Hfuel; lia).
      rewrite filter_cons. by case_decide.
    + apply str_find_None in Hfind.
      rewrite Nat.add_comm, Nat.add_sub. rewrite <- (str_app_nil_r (pre +:+ s)), <- str_app_assoc, sv_substr_mid.
      unfold split_tokens. by rewrite str_split_no.
  - destruct s as [|a s]; [done|simpl in Hge; lia].
Qed.

Lemma connection_tokens_of_eq value : connection_tokens_of value = split_tokens value.
Proof. unfold connection_tokens_of. apply (token_loop_split (S (String.length value)) "" value). lia. Qed.

Section lemmas.
Context {F : Type} `{!Beast F, !BeastLaws F}.
Implicit Types (f : F).

Lemma erase_fold_list names f :
  fields_list (foldl (fun h n => fields_erase n h) f names) =
  filter (fun e => Forall (fun n => ~ named n e) names) (fields_list f).
Proof.
  revert f. induction names as [|n names IH]; intros f; simpl.
  - symmetry. apply filter_all. constructor.
  - rewrite IH, erase_list, list_filter_filter. apply list_filter_iff. intros e.
    rewrite Forall_cons. tauto.
Qed.

(** The nine erasures are one pass that keeps the end-to-end fields, in order. *)
Lemma remove_hop_by_hop_list f :
  fields_list (remove_hop_by_hop_headers f) = filter (end_to_end (connection_tokens f)) (fields_list f).
Proof.
  transitivity (fields_list (foldl (fun h n => fields_erase n h) f (connection_tokens f ++ hop_by_hop_fields))).
  - by rewrite foldl_app.
  - apply erase_fold_list.
Qed.

Lemma remove_hop_by_hop_named n f :
  Exists (fun m => name_eq m n = true) (connection_tokens f ++ hop_by_hop_fields) ->
  fields_named n (remove_hop_by_hop_headers f) = [].
Proof.
  intros (m & Hm & Heq)%Exists_exists. unfold fields_named. rewrite remove_hop_by_hop_list.
  apply filter_none. intros e [He _]%list_elem_of_filter Hn.
  unfold end_to_end in He. rewrite Forall_forall in He. apply (He m Hm). by eapply named_congr.
Qed.

Lemma remove_hop_by_hop_kept n f :
  Forall (fun m => name_eq m n = false) (connection_tokens f ++ hop_by_hop_fields) ->
  fields_named n (remove_hop_by_hop_headers f) = fields_named n f.
Proof.
  intros Hn. unfold fields_named. rewrite remove_hop_by_hop_list, list_filter_filter.
  apply list_filter_iff. intros e. split; [tauto|]. intros He. split; [done|].
  unfold end_to_end. eapply Forall_impl; [exact Hn|]. intros m Hm. exact (name_eq_trans_named m n e Hm He).
Qed.

Lemma connection_tokens_In t f :
  t ∈ connection_tokens f <->
  exists name value, (name, value) ∈ fields_list f /\ name_eq name field.connection = true /\
    t ∈ connection_tokens_of value.
Proof using Type.
  unfold connection_tokens. rewrite list_elem_of_join. split.
  - intros (l & Ht & ([n v] & -> & Hin)%list_elem_of_fmap). simpl in Ht.
    destruct (name_eq n field.connection) eqn:Hn; [|by apply not_elem_of_nil in Ht]. eauto.
  - intros (n & v & Hin & Hn & Ht). eexists. split; [done|]. apply list_elem_of_fmap.
    exists (n, v). simpl. by rewrite Hn.
Qed.

Lemma hop_by_hop_Exists n f :
  hop_by_hop f n <-> Exists (fun m => name_eq m n = true) (connection_tokens f ++ hop_by_hop_fields).
Proof using Type.
  rewrite Exists_app, !Exists_exists. split.
  - intros [Hm|([name value] & token & [Hn Hin]%list_elem_of_filter & Ht & Heq)]; [by right|left].
    exists token. split; [|done]. apply connection_tokens_In. exists name, value. by rewrite connection_tokens_of_eq.
  - intros [(token & (name & value & Hin & Hn & Ht)%connection_tokens_In & Heq)|Hm]; [right|by left].
    rewrite connection_tokens_of_eq in Ht. exists (name, value), token. split; [|done]. by apply list_elem_of_filter.
Qed.

Lemma remove_hop_by_hop_gone n f : hop_by_hop f n -> fields_named n (remove_hop_by_hop_headers f) = [].
Proof. rewrite hop_by_hop_Exists. apply remove_hop_by_hop_named. Qed.

Lemma remove_hop_by_hop_other n f : ~ hop_by_hop f n -> fields_named n (remove_hop_by_hop_headers f) = fields_named n f.
Proof.
  rewrite hop_by_hop_Exists, <- Forall_Exists_neg. intros Hn. apply remove_hop_by_hop_kept.
  eapply Forall_impl; [exact Hn|]. intros m Hm. by apply not_true_is_false.
Qed.

Lemma hop_by_hop_fixed n m f : m ∈ hop_by_hop_fields -> ~ hop_by_hop f n -> name_eq m n = false.
Proof using Type. intros Hm Hn. apply not_true_is_false. intros Heq. apply Hn. left. by exists m. Qed.
End lemmas.

(** ** Properties *)

(** C32. The tokens the function removes are what they should be: for every value,
    the loop over positions yields the comma-separated pieces, trimmed of spaces and
    tabs, without the empty ones (it always terminates within its fuel), and the
    tokens collected are those of all the [Connection] fields of the message, in
    order, however their name is capitalised. *)
Theorem connection_tokens_split {F : Type} `{!Beast F} (headers : F) :
  (forall value, connection_tokens_of value = split_tokens value) /\
  connection_tokens headers = mjoin ((fun e => split_tokens e.2) <$> fields_named "Connection" headers).
Proof.
  split; [exact connection_tokens_of_eq|].
  unfold connection_tokens, fields_named. induction (fields_list headers) as [|e l IH]; [done|].
  rewrite filter_cons. csimpl. rewrite IH. case_decide as He; unfold named in He.
  - csimpl. unfold field.connection. by rewrite He, connection_tokens_of_eq.
  - apply not_true_is_false in He. unfold field.connection. by rewrite He.
Qed.

(** C25. [remove_hop_by_hop_headers] removes exactly the hop-by-hop fields: what is
    left, in order and with duplicates, is the fields that are neither in the fixed
    list nor named (without regard to case) by a token of some [Connection] field.
    In particular no [Connection], [Transfer-Encoding] or other listed field
    survives, and neither does a field that a [Connection] header of the message
    names. *)
Theorem hop_by_hop_removed {F : Type} `{!Beast F} (Hbeast : BeastLaws F) (headers : F) :
  fields_list (remove_hop_by_hop_headers headers) =
    filter (end_to_end (connection_tokens headers)) (fields_list headers) /\
  (forall n, n ∈ hop_by_hop_fields -> fields_find n (remove_hop_by_hop_headers headers) = None) /\
  (forall name value token n, (name, value) ∈ fields_list headers -> name_eq name "Connection" = true ->
     token ∈ split_tokens value -> name_eq token n = true ->
     fields_find n (remove_hop_by_hop_headers headers) = None).
Proof.
  split; [apply remove_hop_by_hop_list|]. unfold fields_find. split.
  - intros n Hn. rewrite remove_hop_by_hop_named; [done|]. apply Exists_exists. exists n.
    split; [apply elem_of_app; by right|apply name_eq_refl].
  - intros name value token n Hin Hname Htok Hn. rewrite remove_hop_by_hop_named; [done|].
    apply Exists_exists. exists token. split; [|done]. apply elem_of_app. left.
    apply connection_tokens_In. exists name, value. split; [done|]. split; [done|].
    by rewrite connection_tokens_of_eq.
Qed.

Lemma hop_by_hop_removed_witness :
  let headers : RefFields.t :=
    [("Host", "h"); ("x-client-hop", "1"); ("connection", " close ,X-Client-Hop"); ("Accept", "a"); ("TE", "t")] in
  remove_hop_by_hop_headers headers = [("Host", "h"); ("Accept", "a")] /\
  fields_find "X-Client-Hop" (remove_hop_by_hop_headers headers) = None.
Proof.
  intros headers. split; [vm_compute; reflexivity|].
  destruct (hop_by_hop_removed RefFields.laws headers) as (_ & _ & H).
  apply (H "connection" " close ,X-Client-Hop" "X-Client-Hop").
  - do 2 right. left.
  - reflexivity.
  - right. left.
  - reflexivity.
Defined.
