(* ===== verification/UpstreamProxy.v ===== *)
(** * One proxied request

    [include/eventedge/upstream_proxy.hpp] and [src/upstream_proxy.cpp]: the
    exchange of one request with one upstream.  The class is a chain of
    asynchronous operations; each member function is a function from the object to
    the object and the list of library calls it makes, in order ([effect]).  The
    chain runs on one strand, so the completions arrive one at a time.

    - [UpstreamProxy_new], [proxy_run], [on_resolve], [on_connect], [on_write],
      [on_read], [proxy_fail], [proxy_complete]: the code;
    - [pconf], [pexec]: the object together with the operation it waits for.  A
      completion carries the time the operation took, in nanoseconds; the library
      completes an operation with [ec_timeout] only when the [expires_after] budget set
      before it has run out ([legal]), and then its handler runs within some [latency]
      ([punctual], which only the time bound depends on).  Name resolution has no budget.
    - the theorems: what is sent upstream, what is relayed, exactly-once completion,
      which failure gives which status, and the time bound.

    The completion handler is a [std::function]; [H] is the type of what it stands
    for, so that the session can say whom a response is for. *)

From Stdlib Require Import Ascii.
From stdpp Require Import base strings numbers list.
From S2P Require Import Prelude CppString Beast UpstreamPool HttpHandler HopByHop.

Record ProxyTimeouts := mkTimeouts {
  tmo_connect : Z;                     (* std::chrono::milliseconds *)
  tmo_write : Z;
  tmo_read : Z;
}.

Definition default_timeouts : ProxyTimeouts := mkTimeouts 2000 2000 5000.

Section proxy.
Context {F : Type} `{!Beast F} {H : Type}.

Record UpstreamProxy := mkProxy {
  upstream_ : UpstreamEndpoint;
  request_ : request F;
  response_ : response F;
  completion_handler_ : option H;
  timeouts_ : ProxyTimeouts;
  client_version_ : Z;
  client_keep_alive_ : bool;
  completed_ : bool;
}.

(** The library calls a handler makes. *)
Inductive effect :=
| AsyncResolve (host service : string)
| ExpiresAfter (millis : Z)
| AsyncConnect
| AsyncWrite (req : request F)
| AsyncRead
| ShutdownBoth
| ResolverCancel
| SocketClose
| LogError (operation : string) (error : error_code)
| InvokeHandler (h : H) (resp : response F).

Definition proxy_set_request (req : request F) (p : UpstreamProxy) : UpstreamProxy :=
  mkProxy (upstream_ p) req (response_ p) (completion_handler_ p) (timeouts_ p)
    (client_version_ p) (client_keep_alive_ p) (completed_ p).

Definition proxy_set_response (resp : response F) (p : UpstreamProxy) : UpstreamProxy :=
  mkProxy (upstream_ p) (request_ p) resp (completion_handler_ p) (timeouts_ p)
    (client_version_ p) (client_keep_alive_ p) (completed_ p).

Definition proxy_set_done (h : option H) (p : UpstreamProxy) : UpstreamProxy :=
  mkProxy (upstream_ p) (request_ p) (response_ p) h (timeouts_ p)
    (client_version_ p) (client_keep_alive_ p) true.

Definition UpstreamProxy_new (upstream : UpstreamEndpoint) (req : request F) (h : option H)
    (timeouts : ProxyTimeouts) : UpstreamProxy :=
  mkProxy upstream req (res_new 200 11) h timeouts (req_version req) (req_keep_alive req) false.

(** The request as [run] rewrites it for the upstream. *)
Definition outbound_request (upstream : UpstreamEndpoint) (req : request F) : request F :=
  let req := req_with_fields (remove_hop_by_hop_headers (req_fields req)) req in
  let req := req_set field.host (upstream_host_header upstream) req in
  let req := req_with_version 11 req in
  let req := req_set_keep_alive false req in
  let req := req_set field.connection "close" req in
  req_prepare_payload req.

Definition proxy_run (p : UpstreamProxy) : UpstreamProxy * list effect :=
  (proxy_set_request (outbound_request (upstream_ p) (request_ p)) p,
   [AsyncResolve (host (upstream_ p)) (to_string (port (upstream_ p)))]).

Definition proxy_complete (resp : response F) (p : UpstreamProxy) : UpstreamProxy * list effect :=
  if completed_ p then (p, [])
  else
    (proxy_set_done None p,
     [ResolverCancel; SocketClose] ++
     match completion_handler_ p with
     | Some h => [InvokeHandler h resp]
     | None => []
     end).

Definition proxy_fail (error : error_code) (operation : string) (p : UpstreamProxy)
    : UpstreamProxy * list effect :=
  if completed_ p then (p, [])
  else
    let resp := if decide (error = ec_timeout)
                then make_gateway_timeout_response (request_ p)
                else make_bad_gateway_response (request_ p) in
    let (p', effs) := proxy_complete resp p in
    (p', LogError operation error :: effs).

Definition on_resolve (error : error_code) (p : UpstreamProxy) : UpstreamProxy * list effect :=
  if is_error error then proxy_fail error "resolve" p
  else (p, [ExpiresAfter (tmo_connect (timeouts_ p)); AsyncConnect]).

Definition on_connect (error : error_code) (p : UpstreamProxy) : UpstreamProxy * list effect :=
  if is_error error then proxy_fail error "connect" p
  else (p, [ExpiresAfter (tmo_write (timeouts_ p)); AsyncWrite (request_ p)]).

Definition on_write (error : error_code) (p : UpstreamProxy) : UpstreamProxy * list effect :=
  if is_error error then proxy_fail error "write" p
  else (p, [ExpiresAfter (tmo_read (timeouts_ p)); AsyncRead]).

(** The upstream's response as [on_read] rewrites it for the client. *)
Definition relayed_response (version : Z) (keep_alive : bool) (resp : response F) : response F :=
  let resp := res_with_fields (remove_hop_by_hop_headers (res_fields resp)) resp in
  let resp := res_with_version version resp in
  let resp := res_set_keep_alive keep_alive resp in
  res_prepare_payload resp.

(** [received] is the message [async_read] has stored in [response_]. *)
Definition on_read (error : error_code) (received : response F) (p : UpstreamProxy)
    : UpstreamProxy * list effect :=
  let p := proxy_set_response received p in
  if is_error error then proxy_fail error "read" p
  else
    let resp := relayed_response (client_version_ p) (client_keep_alive_ p) (response_ p) in
    let (p', effs) := proxy_complete resp (proxy_set_response resp p) in
    (p', ShutdownBoth :: effs).

(** ** The object and the operation it waits for *)

Inductive pending_op := PResolve | PConnect | PWrite | PRead.

#[export] Instance pending_op_eq_dec : EqDecision pending_op.
Proof. solve_decision. Defined.

Record pconf := mkPconf {
  px : UpstreamProxy;
  waiting_for : option (pending_op * option Z);   (* the operation and its budget *)
}.

Inductive completion :=
| EvResolved (error : error_code)
| EvConnected (error : error_code)
| EvWritten (error : error_code)
| EvRead (error : error_code) (received : response F).

Definition completes (ev : completion) : pending_op :=
  match ev with
  | EvResolved _ => PResolve
  | EvConnected _ => PConnect
  | EvWritten _ => PWrite
  | EvRead _ _ => PRead
  end.

Definition dispatch (ev : completion) (p : UpstreamProxy) : UpstreamProxy * list effect :=
  match ev with
  | EvResolved error => on_resolve error p
  | EvConnected error => on_connect error p
  | EvWritten error => on_write error p
  | EvRead error received => on_read error received p
  end.

(** The operation a list of calls leaves outstanding, with the budget in force. *)
Fixpoint outstanding (budget : option Z) (effs : list effect) : option (pending_op * option Z) :=
  match effs with
  | [] => None
  | ExpiresAfter millis :: effs' => outstanding (Some millis) effs'
  | AsyncResolve _ _ :: _ => Some (PResolve, None)
  | AsyncConnect :: _ => Some (PConnect, budget)
  | AsyncWrite _ :: _ => Some (PWrite, budget)
  | AsyncRead :: _ => Some (PRead, budget)
  | _ :: effs' => outstanding budget effs'
  end.

Definition event_error (ev : completion) : error_code :=
  match ev with EvResolved e | EvConnected e | EvWritten e | EvRead e _ => e end.

(** Nanoseconds of a budget. *)
Definition nanos_of_millis (millis : Z) : Z := millis * 1000000.

(** A completion may arrive for the outstanding operation; a timeout, not before the budget
    has run out. *)
Definition legal (c : pconf) (elapsed : Z) (ev : completion) : Prop :=
  match waiting_for c with
  | Some (op, budget) =>
      op = completes ev /\
      match budget with Some b => event_error ev = ec_timeout -> (nanos_of_millis b <= elapsed)%Z | None => True end
  | None => False
  end.

#[export] Instance legal_dec c elapsed ev : Decision (legal c elapsed ev).
Proof. unfold legal. destruct (waiting_for c) as [[op [b|]]|]; apply _. Defined.

(** The handler of an operation with a budget runs at most [latency] after its end. *)
Definition punctual (latency : Z) (c : pconf) (elapsed : Z) : Prop :=
  (0 <= elapsed)%Z /\
  forall op b, waiting_for c = Some (op, Some b) -> (elapsed <= nanos_of_millis b + latency)%Z.

Definition pnext (c : pconf) (ev : completion) : pconf * list effect :=
  let (p', effs) := dispatch ev (px c) in (mkPconf p' (outstanding None effs), effs).

(** [pexec latency c evs effs total c']: from [c] the completions [evs] arrive, the handlers
    make the calls [effs], and the time after name resolution adds up to [total]. *)
Inductive pexec (latency : Z) : pconf -> list completion -> list effect -> Z -> pconf -> Prop :=
| pexec_nil c : pexec latency c [] [] 0 c
| pexec_cons c elapsed ev evs effs total c' :
    legal c elapsed ev -> punctual latency c elapsed ->
    pexec latency (pnext c ev).1 evs effs total c' ->
    pexec latency c (ev :: evs) ((pnext c ev).2 ++ effs)
      (match ev with EvResolved _ => 0 | _ => elapsed end + total)%Z c'.

(** The object just after [run]. *)
Definition started (upstream : UpstreamEndpoint) (req : request F) (h : H) (timeouts : ProxyTimeouts) : pconf :=
  let (p, effs) := proxy_run (UpstreamProxy_new upstream req (Some h) timeouts) in
  mkPconf p (outstanding None effs).

Definition invocations (effs : list effect) : list (H * response F) :=
  omap (fun e => match e with InvokeHandler h resp => Some (h, resp) | _ => None end) effs.

(** ** The reference: what a sequence of completions should lead to *)

Definition failure_response (error : error_code) (req : request F) : response F :=
  match error with
  | ec_timeout => make_gateway_timeout_response req
  | _ => make_bad_gateway_response req
  end.

(** The first error decides; with none, the response read is relayed. *)
Fixpoint expected (sent : request F) (version : Z) (keep_alive : bool) (evs : list completion)
    : option (response F) :=
  match evs with
  | [] => None
  | EvResolved e :: evs' | EvConnected e :: evs' | EvWritten e :: evs' =>
      if is_error e then Some (failure_response e sent) else expected sent version keep_alive evs'
  | EvRead e received :: _ =>
      if is_error e then Some (failure_response e sent)
      else Some (relayed_response version keep_alive received)
  end.
End proxy.

Arguments UpstreamProxy F H : clear implicits.
Arguments effect F H : clear implicits.
Arguments pconf F H : clear implicits.
Arguments completion F : clear implicits.

(** ** Lemmas *)

Section lemmas.
Context {F : Type} `{!Beast F} {H : Type}.
Implicit Types (p : UpstreamProxy F H) (c : pconf F H) (h : H).

Definition rank (w : option (pending_op * option Z)) : nat :=
  match w with
  | None => 0
  | Some (PRead, _) => 1
  | Some (PWrite, _) => 2
  | Some (PConnect, _) => 3
  | Some (PResolve, _) => 4
  end.

Definition budget_of (t : ProxyTimeouts) (op : pending_op) : option Z :=
  match op with
  | PResolve => None
  | PConnect => Some (tmo_connect t)
  | PWrite => Some (tmo_write t)
  | PRead => Some (tmo_read t)
  end.

(** Before completion the object waits for one operation and still has its
    handler; afterwards it waits for nothing. *)
Definition live h (op : pending_op) c : Prop :=
  waiting_for c = Some (op, budget_of (timeouts_ (px c)) op) /\
  completion_handler_ (px c) = Some h /\ completed_ (px c) = false.

Definition finished c : Prop :=
  waiting_for c = None /\ completion_handler_ (px c) = None /\ completed_ (px c) = true.

Definition spent (ev : completion F) (elapsed : Z) : Z :=
  match ev with EvResolved _ => 0 | _ => elapsed end.

Lemma proxy_fail_live error operation p h :
  completion_handler_ p = Some h -> completed_ p = false -> is_error error = true ->
  proxy_fail error operation p =
  (proxy_set_done None p,
   [LogError operation error; ResolverCancel; SocketClose; InvokeHandler h (failure_response error (request_ p))]).
Proof.
  intros Hh Hc He. unfold proxy_fail, proxy_complete. rewrite Hc, Hh. simpl.
  by destruct error; try done.
Qed.

Definition next_op (op : pending_op) : pending_op :=
  match op with PResolve => PConnect | PConnect => PWrite | _ => PRead end.

(** What [expected] reads off an object. *)
Definition expected_of c (evs : list (completion F)) : option (response F) :=
  expected (request_ (px c)) (client_version_ (px c)) (client_keep_alive_ (px c)) evs.

(** One completion: an error or a response ends the exchange with one invocation,
    anything else starts the next operation. *)
Lemma pnext_live h op c elapsed ev :
  live h op c -> legal c elapsed ev ->
  op = completes ev /\ timeouts_ (px (pnext c ev).1) = timeouts_ (px c) /\
  ((finished (pnext c ev).1 /\
    exists r, invocations (pnext c ev).2 = [(h, r)] /\ forall evs, expected_of c (ev :: evs) = Some r) \/
   (live h (next_op op) (pnext c ev).1 /\ op <> PRead /\ invocations (pnext c ev).2 = [] /\
    forall evs, expected_of c (ev :: evs) = expected_of (pnext c ev).1 evs)).
Proof.
  intros (Hw & Hh & Hc) Hlegal. unfold legal in Hlegal. rewrite Hw in Hlegal. destruct Hlegal as [-> _].
  split; [done|]. unfold pnext, expected_of.
  destruct ev as [e|e|e|e received]; simpl; unfold on_resolve, on_connect, on_write, on_read;
    destruct (is_error e) eqn:He;
    rewrite ?(proxy_fail_live e _ _ h) by done; simpl; unfold proxy_complete; simpl; rewrite ?Hc, ?Hh; simpl;
    (split; [done|]); [left|right|left|right|left|right|left|left]; repeat split; eauto; done.
Qed.

Lemma pexec_finished latency c evs effs total c' :
  finished c -> pexec latency c evs effs total c' -> evs = [] /\ effs = [] /\ total = 0%Z /\ c' = c.
Proof.
  intros (Hw & _) Hexec. destruct Hexec as [|c elapsed ev evs effs total c' Hlegal]; [done|].
  unfold legal in Hlegal. by rewrite Hw in Hlegal.
Qed.

Lemma invocations_app effs1 effs2 :
  invocations (F := F) (H := H) (effs1 ++ effs2) = invocations effs1 ++ invocations effs2.
Proof. apply omap_app. Qed.

Lemma pexec_live h op latency c evs effs total c' :
  live h op c -> pexec latency c evs effs total c' ->
  length evs + rank (waiting_for c') <= rank (waiting_for c) /\
  match expected_of c evs with
  | Some r => invocations effs = [(h, r)] /\ finished c'
  | None => invocations effs = [] /\ exists op', live h op' c'
  end.
Proof.
  intros Hlive Hexec. revert op Hlive.
  induction Hexec as [c|c elapsed ev evs effs total c' Hlegal _ Hexec IH]; intros op Hlive; [simpl; eauto|].
  assert (waiting_for c = Some (op, budget_of (timeouts_ (px c)) op)) as Hw by apply Hlive. rewrite Hw, invocations_app.
  destruct (pnext_live h op c elapsed ev Hlive Hlegal) as (Hop & Htmo & [[Hfin (r & Hinv & Hexp)]|(Hlive' & Hne & Hinv & Hexp)]).
  - destruct (pexec_finished _ _ _ _ _ _ Hfin Hexec) as (-> & -> & -> & ->).
    rewrite Hexp, Hinv. pose proof Hfin as (-> & _ & _). split; [destruct op; simpl; lia|done].
  - destruct (IH _ Hlive') as (Hr & Hm). rewrite Hexp, Hinv.
    assert (waiting_for (pnext c ev).1 = Some (next_op op, budget_of (timeouts_ (px (pnext c ev).1)) (next_op op)))
      as Hw' by apply Hlive'. rewrite Hw' in Hr. split; [destruct op; simpl in *; (done || lia)|done].
Qed.

(** *** The time *)

Definition nonnegative (t : ProxyTimeouts) : Prop :=
  (0 <= tmo_connect t /\ 0 <= tmo_write t /\ 0 <= tmo_read t)%Z.

(** The time that can still pass, with [latency] after each operation that has a budget. *)
Definition time_left (latency : Z) (t : ProxyTimeouts) (op : pending_op) : Z :=
  (let read := nanos_of_millis (tmo_read t) + latency in
   let write := nanos_of_millis (tmo_write t) + latency in
   let connect := nanos_of_millis (tmo_connect t) + latency in
   match op with
   | PResolve | PConnect => connect + write + read
   | PWrite => write + read
   | PRead => read
   end)%Z.

(** A completion takes its part of the time, and a timeout all of its budget. *)
Lemma legal_spent h op latency c elapsed ev :
  live h op c -> legal c elapsed ev -> punctual latency c elapsed ->
  (0 <= spent ev elapsed <= time_left latency (timeouts_ (px c)) op -
     match op with PRead => 0 | _ => time_left latency (timeouts_ (px c)) (next_op op) end)%Z /\
  forall b, budget_of (timeouts_ (px c)) op = Some b -> event_error ev = ec_timeout ->
    (nanos_of_millis b <= spent ev elapsed)%Z.
Proof.
  intros (Hw & _) Hlegal [Hpos Hlate]. unfold legal in Hlegal. rewrite Hw in *. destruct Hlegal as [-> Hb].
  destruct ev as [e|e|e|e received]; simpl in *; try specialize (Hlate _ _ eq_refl);
    (split; [lia|]); [done|..]; intros b [= <-]; done.
Qed.

Lemma pexec_time h op latency c evs effs total c' :
  (0 <= latency)%Z -> live h op c -> nonnegative (timeouts_ (px c)) -> pexec latency c evs effs total c' ->
  (0 <= total <= time_left latency (timeouts_ (px c)) op)%Z /\
  forall evs1 ev b, evs = evs1 ++ [ev] -> budget_of (timeouts_ (px c)) (completes ev) = Some b ->
    event_error ev = ec_timeout -> (nanos_of_millis b <= total)%Z.
Proof.
  intros Hlat Hlive Hpos Hexec. revert op Hlive Hpos.
  induction Hexec as [c|c elapsed ev evs effs total c' Hlegal Hpunc Hexec IH]; intros op Hlive Hpos.
  { split; [|intros evs1 ev b He; by destruct evs1]. unfold nonnegative in Hpos.
    destruct op; simpl; unfold nanos_of_millis; lia. }
  destruct (legal_spent h op latency c elapsed ev Hlive Hlegal Hpunc) as [Hspent Htime]. unfold spent in Hspent, Htime.
  destruct (pnext_live h op c elapsed ev Hlive Hlegal) as (Hop & Htmo & [[Hfin _]|(Hlive' & Hne & _)]).
  - destruct (pexec_finished _ _ _ _ _ _ Hfin Hexec) as (-> & -> & -> & ->). unfold nonnegative in Hpos.
    split; [destruct op; simpl in *; unfold nanos_of_millis in *; lia|].
    intros evs1 ev' b He Hb Ht. destruct evs1 as [|? [|]]; simplify_eq/=. specialize (Htime b Hb Ht). lia.
  - destruct (IH _ Hlive') as [Ht Hlast]; [by rewrite Htmo|]. rewrite Htmo in Ht, Hlast.
    split; [destruct op; simpl in *; (done || lia)|].
    intros evs1 ev' b He Hb Hto. destruct evs1 as [|ev1 evs1]; simplify_eq/=.
    + destruct Hexec; specialize (Htime b Hb Hto); lia.
    + specialize (Hlast evs1 ev' b eq_refl Hb Hto). lia.
Qed.

(** The event that ends an exchange is the first error, or the response. *)
Lemma pexec_last h op latency c evs effs total c' r :
  live h op c -> pexec latency c evs effs total c' -> expected_of c evs = Some r ->
  exists evs1 ev, evs = evs1 ++ [ev] /\ Forall (fun e => is_error (event_error e) = false) evs1 /\
    if is_error (event_error ev) then r = failure_response (event_error ev) (request_ (px c))
    else exists received, ev = EvRead ec_success received /\
      r = relayed_response (client_version_ (px c)) (client_keep_alive_ (px c)) received.
Proof.
  intros Hlive Hexec. revert op Hlive.
  induction Hexec as [c|c elapsed ev evs effs total c' Hlegal _ Hexec IH]; intros op Hlive Hexp; [done|].
  destruct (pnext_live h op c elapsed ev Hlive Hlegal) as (Hop & Htmo & [[Hfin _]|(Hlive' & Hne & _ & Hexp')]).
  - destruct (pexec_finished _ _ _ _ _ _ Hfin Hexec) as (-> & _). exists [], ev. split; [done|]. split; [constructor|].
    unfold expected_of in Hexp. destruct ev as [e|e|e|e received]; simpl in *;
      destruct (is_error e) eqn:He; simplify_eq; try done.
    exists received. split; [by destruct e|done].
  - assert (is_error (event_error ev) = false /\ request_ (px (pnext c ev).1) = request_ (px c) /\
      client_version_ (px (pnext c ev).1) = client_version_ (px c) /\
      client_keep_alive_ (px (pnext c ev).1) = client_keep_alive_ (px c)) as (He & Hreq & Hv & Hk).
    { specialize (Hexp' []). destruct Hlive' as (_ & _ & Hc).
      unfold expected_of in Hexp'. destruct ev as [e|e|e|e received]; simpl in Hexp'; subst op; try done;
      unfold pnext; simpl; unfold on_resolve, on_connect, on_write; destruct (is_error e); done. }
    rewrite Hexp' in Hexp. destruct (IH _ Hlive' Hexp) as (evs1 & ev' & -> & Hall & Hr).
    rewrite Hreq, Hv, Hk in Hr. exists (ev :: evs1), ev'. split; [done|]. split; [by constructor|done].
Qed.

Lemma started_live upstream (req : request F) h timeouts :
  live h PResolve (started upstream req h timeouts).
Proof. done. Qed.
End lemmas.

Section messages.
Context {F : Type} `{!Beast F, !BeastLaws F}.

Lemma make_response_status (req : request F) st ct body : res_result (make_response req st ct body) = st.
Proof. unfold make_response. set (r := res_with_body body _). by destruct (res_payload_rest r) as (-> & _). Qed.

Lemma relayed_rest v k (resp : response F) :
  res_result (relayed_response v k resp) = res_result resp /\
  res_version (relayed_response v k resp) = v /\
  res_body (relayed_response v k resp) = res_body resp /\
  res_keep_alive (relayed_response v k resp) = k.
Proof.
  unfold relayed_response. set (r := res_set_keep_alive k _).
  destruct (res_payload_rest r) as (-> & -> & ->). rewrite res_payload_keep_alive.
  repeat split. unfold r. apply res_set_keep_alive_get.
Qed.

(** What a name that is not rewritten sees after the fields are filtered. *)
Lemma relayed_named n v k (resp : response F) :
  name_eq field.connection n = false ->
  name_eq field.content_length n = false -> name_eq field.transfer_encoding n = false ->
  fields_named n (res_fields (relayed_response v k resp)) =
  fields_named n (remove_hop_by_hop_headers (res_fields resp)).
Proof.
  intros H1 H2 H3. unfold relayed_response. rewrite res_payload_named by done.
  unfold res_set_keep_alive, res_with_version, res_with_fields. simpl. by rewrite named_keep_alive_ne.
Qed.

Lemma outbound_named n u (req : request F) :
  name_eq field.connection n = false -> name_eq field.host n = false ->
  name_eq field.content_length n = false -> name_eq field.transfer_encoding n = false ->
  fields_named n (req_fields (outbound_request u req)) =
  fields_named n (remove_hop_by_hop_headers (req_fields req)).
Proof.
  intros H1 H2 H3 H4. unfold outbound_request. rewrite req_payload_named by done. simpl.
  rewrite named_set_ne, named_keep_alive_ne, named_set_ne by done. done.
Qed.

(** The fields that do not cross: nothing under their names, unless set anew. *)
Lemma relayed_hop n v k (resp : response F) :
  hop_by_hop (res_fields resp) n -> name_eq field.connection n = false -> name_eq field.content_length n = false ->
  fields_named n (res_fields (relayed_response v k resp)) = [].
Proof.
  intros Hn Hc Hl. apply remove_hop_by_hop_gone in Hn. destruct (name_eq field.transfer_encoding n) eqn:Ht.
  - rewrite (fields_named_congr _ _ _ Ht) in Hn. rewrite (fields_named_congr _ _ _ Ht). apply res_payload_unencoded.
    simpl. by rewrite named_keep_alive_ne.
  - by rewrite relayed_named.
Qed.

Lemma outbound_hop n u (req : request F) :
  hop_by_hop (req_fields req) n ->
  name_eq field.connection n = false -> name_eq field.host n = false -> name_eq field.content_length n = false ->
  fields_named n (req_fields (outbound_request u req)) = [].
Proof.
  intros Hn Hc Hh Hl. apply remove_hop_by_hop_gone in Hn. destruct (name_eq field.transfer_encoding n) eqn:Ht.
  - rewrite (fields_named_congr _ _ _ Ht) in Hn. rewrite (fields_named_congr _ _ _ Ht). apply req_payload_unencoded.
    simpl. by rewrite named_set_ne, named_keep_alive_ne, named_set_ne.
  - by rewrite outbound_named.
Qed.
End messages.

(** ** Properties *)

(** C8. The handler of a proxied request is called exactly once, with the right
    response.  Take any sequence of completions the library may deliver after
    [run]: the responses handed to the completion handler are none while an
    operation is still outstanding, and otherwise exactly the one that [expected]
    prescribes (the first failing stage decides, and with no failure the response
    read is relayed), made from the request as it was sent.  Nothing is outstanding
    after that, and there are never more than four completions, so four always
    suffice to finish. *)
Theorem proxy_exactly_once {F : Type} `{!Beast F} {H : Type} (upstream : UpstreamEndpoint)
    (req : request F) (h : H) (timeouts : ProxyTimeouts) (evs : list (completion F))
    (effs : list (effect F H)) (latency total : Z) (c : pconf F H)
    (Hexec : pexec latency (started upstream req h timeouts) evs effs total c) :
  match expected (outbound_request upstream req) (req_version req) (req_keep_alive req) evs with
  | Some r => invocations effs = [(h, r)] /\ waiting_for c = None /\ completed_ (px c) = true
  | None => invocations effs = [] /\ waiting_for c <> None /\ completed_ (px c) = false /\ length evs < 4
  end /\
  length evs <= 4.
Proof.
  destruct (pexec_live h PResolve _ _ _ _ _ _ (started_live upstream req h timeouts) Hexec) as (Hr & Hm).
  change (expected_of (started upstream req h timeouts) evs) with
    (expected (outbound_request upstream req) (req_version req) (req_keep_alive req) evs) in Hm.
  simpl in Hr. split; [|lia]. destruct (expected _ _ _ evs) as [r|].
  - destruct Hm as (Hinv & Hw & _ & Hc). auto.
  - destruct Hm as (Hinv & op & Hw & _ & Hc). rewrite Hw in *. repeat split; [done|done|done|].
    destruct op; simpl in Hr; lia.
Qed.

Definition upstream_b : UpstreamEndpoint := mkEndpoint "10.0.0.2" 9001.

Lemma pexec_one {F : Type} `{!Beast F} {H : Type} latency (c : pconf F H) elapsed ev :
  legal c elapsed ev -> punctual latency c elapsed ->
  pexec latency c [ev] ((pnext c ev).2 ++ []) (match ev with EvResolved _ => 0 | _ => elapsed end + 0)%Z (pnext c ev).1.
Proof. intros Hl Hp. econstructor; [exact Hl|exact Hp|]. constructor. Qed.

Lemma proxy_exactly_once_witness :
  let c0 := started upstream_b (get_request "/a") "session" default_timeouts in
  exists effs total c, pexec 0 c0 [EvResolved (ec_other 1)] effs total c /\
  invocations effs =
    [("session", make_bad_gateway_response (outbound_request upstream_b (get_request "/a")))].
Proof.
  intros c0.
  assert (legal c0 7 (EvResolved (ec_other 1))) as Hl by (split; [reflexivity|exact I]).
  pose proof (pexec_one 0 c0 7 _ Hl ltac:(split; [lia|discriminate])) as Hexec.
  eexists _, _, _. split; [exact Hexec|].
  exact (proj1 (proj1 (proxy_exactly_once upstream_b (get_request "/a") "session" default_timeouts
    _ _ _ _ _ Hexec))).
Defined.

(** C33. The time bounds: once the name is resolved, the exchange takes no longer than the
    connect, write and read budgets together (nine seconds with the defaults) and the
    [latency] of the library after each of the three, whatever the upstream does; and an
    exchange that ends because an operation timed out has lasted at least the budget of
    that operation. *)
Theorem proxy_time_bound {F : Type} `{!Beast F} {H : Type} (upstream : UpstreamEndpoint)
    (req : request F) (h : H) (timeouts : ProxyTimeouts) (evs : list (completion F))
    (effs : list (effect F H)) (latency total : Z) (c : pconf F H)
    (Hlat : (0 <= latency)%Z) (Hpos : nonnegative timeouts)
    (Hexec : pexec latency (started upstream req h timeouts) evs effs total c) :
  (0 <= total <= nanos_of_millis (tmo_connect timeouts + tmo_write timeouts + tmo_read timeouts) + 3 * latency)%Z /\
  forall evs1 ev b, evs = evs1 ++ [ev] -> budget_of timeouts (completes ev) = Some b ->
    event_error ev = ec_timeout -> (nanos_of_millis b <= total)%Z.
Proof.
  destruct (pexec_time h PResolve _ _ _ _ _ _ Hlat (started_live upstream req h timeouts) Hpos Hexec) as [Ht Hto].
  simpl in Ht. unfold nanos_of_millis in *. split; [lia|done].
Qed.

Lemma proxy_time_bound_witness :
  let c0 := started upstream_b (get_request "/a") "session" default_timeouts in
  let c1 := (pnext c0 (EvResolved ec_success)).1 in
  legal c0 50000000000 (EvResolved ec_success) /\ legal c1 2000300000 (EvConnected ec_timeout) /\
  exists effs total c, pexec 1000000 c0 [EvResolved ec_success; EvConnected ec_timeout] effs total c /\
    (2000000000 <= total <= 9003000000)%Z.
Proof.
  intros c0 c1.
  assert (legal c0 50000000000 (EvResolved ec_success)) as Hl0 by (split; [reflexivity|exact I]).
  assert (legal c1 2000300000 (EvConnected ec_timeout)) as Hl1 by (split; [reflexivity|intros _; vm_compute; discriminate]).
  split; [exact Hl0|]. split; [exact Hl1|].
  assert (punctual 1000000 c0 50000000000) as Hp0 by (split; [lia|discriminate]).
  assert (punctual 1000000 c1 2000300000) as Hp1.
  { split; [lia|]. intros op b Hb. vm_compute in Hb. injection Hb as <- <-. vm_compute. discriminate. }
  pose proof (pexec_cons 1000000 c0 50000000000 _ _ _ _ _ Hl0 Hp0 (pexec_one 1000000 c1 2000300000 _ Hl1 Hp1)) as Hexec.
  eexists _, _, _. split; [exact Hexec|].
  destruct (proxy_time_bound upstream_b (get_request "/a") "session" default_timeouts _ _ 1000000 _ _
    ltac:(lia) ltac:(split; [|split]; vm_compute; discriminate) Hexec) as [[_ Hle] Hto].
  split; [exact (Hto [EvResolved ec_success] (EvConnected ec_timeout) 2000%Z eq_refl eq_refl eq_refl)|exact Hle].
Defined.

(** C22. Which failure gives which status: the response handed to the handler has
    status 504 exactly when the first failing operation timed out, 502 when it failed
    otherwise, and with no failure it has the status and the body the upstream
    sent. *)
Theorem proxy_status {F : Type} `{!Beast F} (Hbeast : BeastLaws F) {H : Type} (upstream : UpstreamEndpoint)
    (req : request F) (h : H) (timeouts : ProxyTimeouts) (evs : list (completion F))
    (effs : list (effect F H)) (latency total : Z) (c : pconf F H) (r : response F)
    (Hexec : pexec latency (started upstream req h timeouts) evs effs total c)
    (Hinv : (h, r) ∈ invocations effs) :
  exists evs1 ev, evs = evs1 ++ [ev] /\ Forall (fun e => is_error (event_error e) = false) evs1 /\
    if decide (event_error ev = ec_timeout) then res_result r = 504%Z
    else if is_error (event_error ev) then res_result r = 502%Z
    else exists received, ev = EvRead ec_success received /\
      res_result r = res_result received /\ res_body r = res_body received.
Proof.
  pose proof (started_live upstream req h timeouts) as Hlive.
  destruct (pexec_live h PResolve _ _ _ _ _ _ Hlive Hexec) as (_ & Hm).
  destruct (expected_of _ evs) as [r'|] eqn:Hexp; destruct Hm as [Hm _]; rewrite Hm in Hinv;
    [|by apply not_elem_of_nil in Hinv].
  apply list_elem_of_singleton in Hinv as [= <-].
  destruct (pexec_last h PResolve _ _ _ _ _ _ _ Hlive Hexec Hexp) as (evs1 & ev & -> & Hall & Hr).
  exists evs1, ev. split; [done|]. split; [done|].
  destruct (is_error (event_error ev)) eqn:He.
  - subst r. unfold failure_response, make_gateway_timeout_response, make_bad_gateway_response.
    case_decide as Ht; [rewrite Ht|destruct (event_error ev); try done]; apply make_response_status.
  - rewrite decide_False by (intros Ht; by rewrite Ht in He).
    destruct Hr as (received & -> & ->). exists received. split; [done|].
    destruct (relayed_rest (client_version_ (px (started upstream req h timeouts)))
      (client_keep_alive_ (px (started upstream req h timeouts))) received) as (-> & _ & -> & _). done.
Qed.

Lemma proxy_status_witness :
  let c0 := started upstream_b (get_request "/a") "session" default_timeouts in
  let r := make_gateway_timeout_response (outbound_request upstream_b (get_request "/a")) in
  exists effs total c, pexec 0 c0 [EvResolved ec_timeout] effs total c /\ ("session", r) ∈ invocations effs /\
    exists evs1 ev, [EvResolved ec_timeout] = evs1 ++ [ev] /\
      Forall (fun e => is_error (event_error e) = false) evs1 /\
      if decide (event_error ev = ec_timeout) then res_result r = 504%Z
      else if is_error (event_error ev) then res_result r = 502%Z
      else exists received : response RefFields.t, ev = EvRead ec_success received /\
        res_result r = res_result received /\ res_body r = res_body received.
Proof.
  intros c0 r.
  assert (legal c0 7 (EvResolved ec_timeout)) as Hl by (split; [reflexivity|exact I]).
  pose proof (pexec_one 0 c0 7 _ Hl ltac:(split; [lia|discriminate])) as Hexec.
  assert (("session", r) ∈ invocations ((pnext c0 (EvResolved ec_timeout)).2 ++ [])) as Hin by left.
  eexists _, _, _. split; [exact Hexec|]. split; [exact Hin|].
  exact (proxy_status RefFields.laws upstream_b (get_request "/a") "session" default_timeouts
    _ _ _ _ _ r Hexec Hin).
Defined.

(** C23. What the upstream receives: the method, the target and the body of the
    client's request; HTTP/1.1 with exactly [Connection: close], so the connection is
    never kept alive; exactly one [Host], the one of the upstream; nothing under the name
    of a hop-by-hop field, whether it is one of the fixed list ([Transfer-Encoding]
    included) or one that a piece of some [Connection] field of the request names, in any
    letter case; and every other field (but [Host] and the payload length, which are set
    anew) unchanged, in order. *)
Theorem outbound_request_shape {F : Type} `{!Beast F} (Hbeast : BeastLaws F)
    (upstream : UpstreamEndpoint) (req : request F) :
  let out := outbound_request upstream req in
  req_method out = req_method req /\ req_target out = req_target req /\ req_body out = req_body req /\
  req_version out = 11%Z /\ req_keep_alive out = false /\
  fields_named field.connection (req_fields out) = [(field.connection, "close")] /\
  fields_named field.host (req_fields out) = [(field.host, upstream_host_header upstream)] /\
  (forall n, name_eq field.connection n = false -> name_eq field.host n = false -> name_eq field.content_length n = false ->
     (hop_by_hop (req_fields req) n -> fields_named n (req_fields out) = []) /\
     (~ hop_by_hop (req_fields req) n -> fields_named n (req_fields out) = fields_named n (req_fields req))).
Proof.
  intros out.
  assert (fields_named field.connection (req_fields out) = [(field.connection, "close")]) as Hconn.
  { unfold out, outbound_request. rewrite req_payload_named by done. apply set_named. }
  assert (req_method out = req_method req /\ req_target out = req_target req /\
    req_version out = 11%Z /\ req_body out = req_body req) as (Hm & Ht & Hver & Hb)
    by (unfold out, outbound_request; set (q := req_set field.connection _ _); apply (req_payload_rest q)).
  repeat (split; [done|]). split.
  { unfold req_keep_alive. rewrite Hver. by apply get_keep_alive_close. }
  split; [done|]. split.
  { unfold out, outbound_request. rewrite req_payload_named by done. simpl.
    rewrite named_set_ne, named_keep_alive_ne by done. apply set_named. }
  intros n Hc Hhost Hlen. split; intros Hn; [by apply outbound_hop|].
  unfold out. rewrite outbound_named; [by apply remove_hop_by_hop_other|done..|].
  apply (hop_by_hop_fixed _ _ (req_fields req)); [|done]. do 6 right. left.
Qed.

Lemma outbound_request_shape_witness :
  let req : request RefFields.t :=
    mkRequest verb_get "/live/game/42" 10
      [("Host", "client.example"); ("X-Client-Hop", "remove-me"); ("Connection", "x-client-hop"); ("Accept", "a")] "" in
  fields_named "Host" (req_fields (outbound_request upstream_b req)) = [("Host", "10.0.0.2:9001")] /\
  fields_named "X-Client-Hop" (req_fields (outbound_request upstream_b req)) = [].
Proof.
  intros req.
  destruct (outbound_request_shape RefFields.laws upstream_b req) as (_ & _ & _ & _ & _ & _ & H1 & H2).
  split; [exact H1|]. apply (H2 "X-Client-Hop"); [reflexivity|reflexivity|reflexivity|].
  right. exists ("Connection", "x-client-hop"), "x-client-hop". split; [left|]. split; [left|reflexivity].
Defined.

(** C24. What the client receives when the upstream answers: the status and the
    body of the upstream, in the HTTP version and with the connection persistence of
    the client's own request; nothing under the name of a hop-by-hop field of the upstream
    connection, whether it is one of the fixed list ([Transfer-Encoding] included) or one
    that a piece of some [Connection] field of the response names, in any letter case
    ([Connection] itself is set anew for the client); a [Content-Length] that is the length
    of the body, when there is one; and every other field unchanged, in order. *)
Theorem relayed_response_shape {F : Type} `{!Beast F} (Hbeast : BeastLaws F)
    (version : Z) (keep_alive : bool) (resp : response F) :
  let out := relayed_response version keep_alive resp in
  res_result out = res_result resp /\ res_body out = res_body resp /\
  res_version out = version /\ res_keep_alive out = keep_alive /\
  (res_body resp <> "" ->
     fields_find field.content_length (res_fields out) = Some (to_string (Z.of_nat (String.length (res_body resp))))) /\
  (forall n, name_eq field.connection n = false -> name_eq field.content_length n = false ->
     (hop_by_hop (res_fields resp) n -> fields_named n (res_fields out) = []) /\
     (~ hop_by_hop (res_fields resp) n -> fields_named n (res_fields out) = fields_named n (res_fields resp))).
Proof.
  intros out. destruct (relayed_rest version keep_alive resp) as (Hs & Hv & Hb & Hk).
  repeat (split; [done|]). split.
  { intros Hne. unfold out, relayed_response. set (r := res_set_keep_alive keep_alive _). by apply (res_payload_length r). }
  intros n Hc Hlen. split; intros Hn; [by apply relayed_hop|].
  unfold out. rewrite relayed_named; [by apply remove_hop_by_hop_other|done..|].
  apply (hop_by_hop_fixed _ _ (res_fields resp)); [|done]. do 6 right. left.
Qed.

Lemma relayed_response_shape_witness :
  let resp : response RefFields.t :=
    mkResponse 201 11 [("X-Backend-Hop", "remove-me"); ("Connection", "close, X-Backend-Hop"); ("ETag", "e")] "body" in
  res_keep_alive (relayed_response 11 true resp) = true /\
  fields_named "X-Backend-Hop" (res_fields (relayed_response 11 true resp)) = [].
Proof.
  intros resp.
  destruct (relayed_response_shape RefFields.laws 11 true resp) as (_ & _ & _ & H1 & _ & H2).
  split; [exact H1|]. apply (H2 "X-Backend-Hop"); [reflexivity|reflexivity|].
  right. exists ("Connection", "close, X-Backend-Hop"), "X-Backend-Hop". split; [left|]. split; [right; left|reflexivity].
Defined.
