(* ===== verification/Config.v ===== *)
(** * The command line

    The parsing functions of [src/main.cpp]: ports, worker counts and upstream
    addresses.  A function that throws returns a [result].

    - [parse_port], [parse_worker_count], [default_worker_count], [parse_upstream]:
      the code;
    - [upstream_syntax]: the grammar that [parse_upstream] accepts. *)

From Stdlib Require Import Ascii.
From stdpp Require Import base strings numbers list.
From S2P Require Import Prelude CppString Beast UpstreamPool HopByHop.

Definition port_error : cpp_exception := runtime_error "port must be an integer from 1 to 65535".
Definition worker_error : cpp_exception := runtime_error "worker count must be a positive integer".
Definition upstream_error : cpp_exception :=
  runtime_error "upstream must use host:port or [ipv6-address]:port".
Definition empty_host_error : cpp_exception := runtime_error "upstream host must not be empty".

Definition parse_port (value : string) : result Z :=
  let '(port, end_, error) := from_chars 0 value in
  if negb (bool_decide (error = errc_ok)) || negb (end_ =? String.length value)%nat
     || (port =? 0)%Z || (65535 <? port)%Z
  then Throw port_error
  else Ok (port mod 65536)%Z.

Definition parse_worker_count (value : string) : result Z :=
  let '(workers, end_, error) := from_chars 0 value in
  if negb (bool_decide (error = errc_ok)) || negb (end_ =? String.length value)%nat || (workers =? 0)%Z
  then Throw worker_error
  else Ok workers.

(** [hardware_concurrency] is what [std::thread::hardware_concurrency()] returns. *)
Definition default_worker_count (hardware_concurrency : Z) : Z := Z.max 1 hardware_concurrency.

(** The two branches that split the value into a host and a port text. *)
Definition split_upstream (value : string) : result (string * string) :=
  if sv_starts_with "["%char value then
    match sv_find "]"%char 0 value with
    | None => Throw upstream_error
    | Some closing_bracket =>
        if (String.length value <=? closing_bracket + 1)%nat
           || negb (bool_decide (String.get (closing_bracket + 1) value = Some ":"%char))
        then Throw upstream_error
        else Ok (sv_substr 1 (closing_bracket - 1) value,
                 str_drop (closing_bracket + 2) value)
    end
  else
    match sv_rfind ":"%char value with
    | None => Throw upstream_error
    | Some separator =>
        if negb (bool_decide (sv_find ":"%char 0 value = Some separator))
        then Throw upstream_error
        else Ok (sv_substr 0 separator value, str_drop (separator + 1) value)
    end.

Definition parse_upstream (value : string) : result UpstreamEndpoint :=
  let* hp := split_upstream value in
  if bool_decide (hp.1 = "") then Throw empty_host_error
  else let* p := parse_port hp.2 in Ok (mkEndpoint hp.1 p).

(** The accepted forms, with their host and port parts. *)
Inductive upstream_syntax : string -> string -> string -> Prop :=
| syntax_plain h p :
    ":"%char ∉ str_chars h -> ":"%char ∉ str_chars p -> sv_starts_with "["%char (h +:+ ":") = false ->
    upstream_syntax (h +:+ ":" +:+ p) h p
| syntax_bracketed h p :
    "]"%char ∉ str_chars h -> upstream_syntax ("[" +:+ h +:+ "]:" +:+ p) h p.

(** ** Lemmas *)

Lemma digits_prefix_full s : String.length (digits_prefix s) = String.length s -> digits_prefix s = s.
Proof.
  destruct (digits_prefix_split s) as (rest & Hs & _). intros Hlen.
  rewrite Hs in Hlen at 2. rewrite str_length_app in Hlen.
  destruct rest; [|simpl in Hlen; lia]. by rewrite str_app_nil_r in Hs.
Qed.

(** A full scan without error: a non-empty string of digits in range. *)
Lemma from_chars_full s v n :
  from_chars 0 s = (v, n, errc_ok) /\ n = String.length s <->
  s <> "" /\ all_digits s /\ v = decimal_from 0 s /\ n = String.length s /\ (decimal_from 0 s <= uint_max)%Z.
Proof.
  unfold from_chars. split.
  - intros [Heq ->]. destruct (digits_prefix s) as [|a d] eqn:Hd; [done|].
    rewrite <- Hd in Heq. case_match eqn:Hle; [|done]. injection Heq as Hv Hlen.
    apply digits_prefix_full in Hlen. apply Z.leb_le in Hle. rewrite Hlen in Hv, Hle.
    split; [by rewrite <- Hlen, Hd|]. split; [rewrite <- Hlen; apply digits_prefix_all|done].
  - intros (Hne & Hall & -> & -> & Hle). split; [|done].
    assert (digits_prefix s = s) as Hd.
    { rewrite <- (str_app_nil_r s) at 1. by apply digits_prefix_app. }
    rewrite Hd. destruct s as [|a s]; [done|]. by rewrite (proj2 (Z.leb_le _ _) Hle).
Qed.

Lemma parse_port_ok s p :
  parse_port s = Ok p <-> s <> "" /\ all_digits s /\ decimal_from 0 s = p /\ (1 <= p <= 65535)%Z.
Proof.
  unfold parse_port. destruct (from_chars 0 s) as [[v n] e] eqn:Hfc. split.
  - case_match eqn:Hc; [done|]. intros [= <-].
    apply orb_false_iff in Hc as [Hc Hmax]. apply orb_false_iff in Hc as [Hc H0].
    apply orb_false_iff in Hc as [He Hn]. apply negb_false_iff in He, Hn. reflect_bools.
    apply bool_decide_eq_true in He. subst e n.
    destruct (proj1 (from_chars_full s v (String.length s)) (conj Hfc eq_refl)) as (Hne & Hall & Hv & _ & _).
    assert (0 <= decimal_from 0 s)%Z by (by apply decimal_from_nonneg).
    rewrite Z.mod_small by lia. repeat split; (done || lia).
  - intros (Hne & Hall & Hv & Hr).
    destruct (proj2 (from_chars_full s (decimal_from 0 s) (String.length s))) as [Hfc' _].
    { unfold uint_max. repeat split; (done || lia). }
    rewrite Hfc' in Hfc. injection Hfc as <- <- <-. rewrite Nat.eqb_refl. simpl.
    rewrite (proj2 (Z.eqb_neq _ _)), (proj2 (Z.ltb_ge _ _)) by lia. simpl. rewrite Z.mod_small by lia. by rewrite Hv.
Qed.

Lemma parse_worker_count_ok s w :
  parse_worker_count s = Ok w <-> s <> "" /\ all_digits s /\ decimal_from 0 s = w /\ (1 <= w <= uint_max)%Z.
Proof.
  unfold parse_worker_count. destruct (from_chars 0 s) as [[v n] e] eqn:Hfc. split.
  - case_match eqn:Hc; [done|]. intros [= <-].
    apply orb_false_iff in Hc as [Hc H0]. apply orb_false_iff in Hc as [He Hn]. apply negb_false_iff in He, Hn. reflect_bools.
    apply bool_decide_eq_true in He. subst e n.
    destruct (proj1 (from_chars_full s v (String.length s)) (conj Hfc eq_refl)) as (Hne & Hall & Hv & _ & Hmax).
    assert (0 <= decimal_from 0 s)%Z by (by apply decimal_from_nonneg). repeat split; (done || lia).
  - intros (Hne & Hall & Hv & Hr).
    destruct (proj2 (from_chars_full s (decimal_from 0 s) (String.length s))) as [Hfc' _]; [repeat split; (done || lia)|].
    rewrite Hfc' in Hfc. injection Hfc as <- <- <-. rewrite Nat.eqb_refl. simpl.
    rewrite (proj2 (Z.eqb_neq _ _)) by lia. by rewrite Hv.
Qed.

Lemma parse_worker_count_throw s e : parse_worker_count s = Throw e -> e = worker_error.
Proof. unfold parse_worker_count. destruct (from_chars 0 s) as [[v n] err]. case_match; by intros [= <-]. Qed.

Lemma parse_port_throw s e : parse_port s = Throw e -> e = port_error.
Proof. unfold parse_port. destruct (from_chars 0 s) as [[v n] err]. case_match; by intros [= <-]. Qed.

Lemma parse_port_to_string p : (1 <= p <= 65535)%Z -> parse_port (to_string p) = Ok p.
Proof.
  intros Hp. apply parse_port_ok. split; [apply to_string_nonempty|]. split; [apply to_string_digits|].
  split; [|done]. apply to_string_value. lia.
Qed.

Lemma str_get_app s1 s2 n : String.get (String.length s1 + n) (s1 +:+ s2) = String.get n s2.
Proof. induction s1 as [|a s1 IH]; [done|]. rewrite str_app_cons. done. Qed.

Lemma sv_find_0 c s : sv_find c 0 s = str_find c s.
Proof. unfold sv_find. simpl. by destruct (str_find c s). Qed.

Lemma sv_starts_with_app s t : s <> "" -> sv_starts_with "["%char (s +:+ t) = sv_starts_with "["%char s.
Proof. by destruct s. Qed.

Lemma str_find_app c s1 s2 : c ∉ str_chars s1 -> str_find c (s1 +:+ String c s2) = Some (String.length s1).
Proof. intros Hc. apply str_find_Some. eauto. Qed.

Lemma split_bracketed h p :
  "]"%char ∉ str_chars h -> split_upstream ("[" +:+ h +:+ "]:" +:+ p) = Ok (h, p).
Proof.
  intros Hh. unfold split_upstream.
  change ("[" +:+ h +:+ "]:" +:+ p) with (String "[" h +:+ String "]" (String ":" p)).
  assert ("]"%char ∉ str_chars (String "[" h)) as Hh' by (simpl; rewrite not_elem_of_cons; auto).
  rewrite sv_find_0, str_find_app by done. rewrite str_app_cons. simpl sv_starts_with. cbv iota.
  rewrite <- str_app_cons, str_get_app, str_length_app.
  replace (String.length (String "[" h) + String.length (String "]" (String ":" p)) <=?
           String.length (String "[" h) + 1) with false by (symmetry; apply Nat.leb_gt; simpl; lia).
  rewrite bool_decide_eq_true_2 by done. simpl orb. cbv iota. f_equal. f_equal.
  - unfold sv_substr. rewrite str_app_cons. simpl. rewrite Nat.sub_0_r. apply str_take_app.
  - rewrite str_drop_app. done.
Qed.

Lemma split_plain h p :
  ":"%char ∉ str_chars h -> ":"%char ∉ str_chars p -> sv_starts_with "["%char (h +:+ ":") = false ->
  split_upstream (h +:+ ":" +:+ p) = Ok (h, p).
Proof.
  intros Hh Hp Hs. unfold split_upstream.
  assert (sv_starts_with "["%char (h +:+ ":" +:+ p) = false) as -> by (by destruct h).
  change (h +:+ ":" +:+ p) with (h +:+ String ":" p).
  rewrite sv_rfind_app, sv_find_0, str_find_app, bool_decide_eq_true_2 by done. simpl negb. cbv iota.
  f_equal. f_equal.
  - unfold sv_substr. apply str_take_app.
  - by rewrite str_drop_app.
Qed.

Lemma split_upstream_syntax s h p : split_upstream s = Ok (h, p) <-> upstream_syntax s h p.
Proof.
  split.
  - unfold split_upstream. destruct (sv_starts_with "["%char s) eqn:Hs.
    + rewrite sv_find_0. destruct (str_find "]"%char s) as [i|] eqn:Hf; [|done].
      apply str_find_Some in Hf as (s1 & s2 & -> & Hno & <-).
      destruct s1 as [|a h']; [done|]. apply bool_decide_eq_true in Hs. subst a.
      rewrite str_get_app, bool_decide_decide. simpl String.get.
      case_match eqn:Hc; [done|]. apply orb_false_iff in Hc as [_ Hc]. apply negb_false_iff in Hc.
      destruct s2 as [|b p']; [by destruct (decide _) in Hc|].
      destruct (decide _) as [Hb|] in Hc; [|done]. simpl in Hb. injection Hb as ->.
      assert ("]"%char ∉ str_chars h') as Hno' by (simpl in Hno; rewrite not_elem_of_cons in Hno; tauto).
      intros Heq. pose proof (split_bracketed h' p' Hno') as Hsplit.
      replace h with h' by (injection Heq; intros _ <-; unfold sv_substr; rewrite str_app_cons; simpl;
        rewrite Nat.sub_0_r; by rewrite str_take_app).
      replace p with p' by (injection Heq; intros <- _; by rewrite str_drop_app).
      by apply (syntax_bracketed h' p').
    + destruct (sv_rfind ":"%char s) as [i|] eqn:Hr; [|done].
      apply sv_rfind_Some in Hr as (s1 & s2 & -> & Hp & <-). rewrite sv_find_0.
      destruct (bool_decide _) eqn:Hb; [|done]. apply bool_decide_eq_true in Hb.
      apply str_find_Some in Hb as (t1 & t2 & Heq & Hh & Hlen).
      assert (s1 = t1) as <-.
      { apply (f_equal (str_take (String.length s1))) in Heq. rewrite str_take_app in Heq.
        rewrite <- Hlen in Heq. by rewrite str_take_app in Heq. }
      simpl negb. cbv iota. rewrite str_drop_app. unfold sv_substr. simpl str_drop. rewrite str_take_app.
      intros [= <- <-]. apply (syntax_plain s1 s2); [done|done|]. by destruct s1.
  - intros Hsyn. destruct Hsyn as [h p H1 H2 H3|h p H1]; [by apply split_plain|by apply split_bracketed].
Qed.

(** ** Properties *)

(** [parse_port] accepts exactly the decimal numerals from 1 to 65535, and
    [parse_worker_count] those from 1 to the largest [unsigned int]: a string gives the
    number if and only if it is non-empty, all digits (no sign, no blank), and denotes
    it in that range; a value that would overflow the 32-bit scan is refused too.  Any
    other string throws the error of its function. *)
Lemma parse_numbers_exact (s : string) :
  (forall p, parse_port s = Ok p <->
     s <> "" /\ all_digits s /\ decimal_from 0 s = p /\ (1 <= p <= 65535)%Z) /\
  (forall e, parse_port s = Throw e -> e = port_error) /\
  (forall w, parse_worker_count s = Ok w <->
     s <> "" /\ all_digits s /\ decimal_from 0 s = w /\ (1 <= w <= 4294967295)%Z) /\
  (forall e, parse_worker_count s = Throw e -> e = worker_error).
Proof.
  split; [intros p; apply parse_port_ok|]. split; [intros e; apply parse_port_throw|].
  split; [intros w; apply parse_worker_count_ok|intros e; apply parse_worker_count_throw].
Qed.

(** C34. [parse_upstream] accepts exactly [host:port], where the host has no colon
    and does not open a bracket, and [[host]:port], where the host has no closing
    bracket, with a non-empty host and a valid port; and whatever it refuses, it
    refuses by throwing one of the three errors of the source. *)
Theorem parse_upstream_grammar (s : string) :
  (forall e, parse_upstream s = Ok e <->
     exists p, upstream_syntax s (host e) p /\ host e <> "" /\ parse_port p = Ok (port e)) /\
  (forall x, parse_upstream s = Throw x -> x ∈ [upstream_error; empty_host_error; port_error]).
Proof.
  unfold parse_upstream. split.
  - intros [h p]. simpl. split.
    + destruct (split_upstream s) as [[h' p']|] eqn:Hs; simpl; [|done].
      apply split_upstream_syntax in Hs. case_bool_decide as Hh; [done|].
      destruct (parse_port p') as [q|] eqn:Hp; simpl; [|done]. intros [= <- <-]. eauto.
    + intros (p' & Hs & Hh & Hp). apply split_upstream_syntax in Hs. rewrite Hs. simpl.
      by rewrite bool_decide_eq_false_2, Hp by done.
  - intros x. destruct (split_upstream s) as [[h p]|e] eqn:Hs; simpl.
    + case_bool_decide; [intros [= <-]; right; left|].
      destruct (parse_port p) as [|e] eqn:Hp; simpl; [done|]. intros [= <-].
      apply parse_port_throw in Hp as ->. do 2 right. left.
    + intros [= <-]. unfold split_upstream in Hs. repeat case_match; simplify_eq; left.
Qed.

(** C35. Round trip: the [Host] header the proxy sends for an endpoint is itself an
    accepted upstream address that denotes the same endpoint, for every endpoint with
    a valid port whose host is not empty, has no closing bracket if it has a colon
    (an IPv6 literal), and does not open a bracket if it has none. *)
Theorem host_header_round_trip (e : UpstreamEndpoint)
    (Hhost : host e <> "") (Hport : (1 <= port e <= 65535)%Z)
    (Hform : if decide (":"%char ∈ str_chars (host e)) then "]"%char ∉ str_chars (host e)
             else sv_starts_with "["%char (host e) = false) :
  parse_upstream (upstream_host_header e) = Ok e.
Proof.
  unfold parse_upstream, upstream_host_header. rewrite sv_find_0.
  assert (":"%char ∉ str_chars (to_string (port e))) as Hdigits by (by apply to_string_no_char).
  case_decide as Hcolon.
  - destruct (str_find ":"%char (host e)) eqn:Hf; [|by apply str_find_None in Hf].
    rewrite split_bracketed by done. simpl. rewrite bool_decide_eq_false_2, parse_port_to_string by done.
    by destruct e.
  - rewrite (proj2 (str_find_None _ _) Hcolon).
    rewrite split_plain by (done || by rewrite sv_starts_with_app).
    simpl. rewrite bool_decide_eq_false_2, parse_port_to_string by done. by destruct e.
Qed.

Lemma host_header_round_trip_witness :
  upstream_host_header (mkEndpoint "::1" 9000) = "[::1]:9000" /\
  parse_upstream "[::1]:9000" = Ok (mkEndpoint "::1" 9000).
Proof.
  split; [reflexivity|].
  apply (host_header_round_trip (mkEndpoint "::1" 9000)); [discriminate|simpl; lia|].
  vm_compute. intros H. repeat (inversion H as [|? ? ? H']; subst; clear H; rename H' into H).
Defined.
