(* ===== verification/Binary64.v ===== *)
(** * Doubles

    The [double]s of the sources are IEEE 754 binary64 numbers; their operations are
    those of the standard [SpecFloat].  The metrics ([src/metrics.cpp]) use three: the
    conversion of an integer, a division, and [<=].

    [div_rounded] says how far a quotient of two doubles is from the exact one, and
    [quotient_lt] that the quotients of integers below [2^52] by the same divisor are
    ordered as the integers: rounding does not make different durations equal. *)

From Stdlib Require Import SpecFloat.
From stdpp Require Import base numbers.
From S2P Require Import Prelude.

#[local] Open Scope Z_scope.

Definition double : Type := spec_float.

Definition double_of_Z (z : Z) : double := binary_normalize 53 1024 z 0 false.
Definition double_div (a b : double) : double := SFdiv 53 1024 a b.
Definition double_le (a b : double) : bool := SFleb a b.

(** A significand of 53 bits. *)
Definition normal (m : Z) : Prop := 2 ^ 52 <= m < 2 ^ 53.

(** ** Lemmas: digits and shifts *)

Lemma Zdigits2_log2 m : 0 < m -> Zdigits2 m = Z.log2 m + 1.
Proof.
  destruct m as [|p|p]; [lia| |lia]. intros _. simpl. induction p as [p IH|p IH|]; simpl; [| |done].
  - rewrite Pos2Z.inj_succ, IH. destruct p; simpl; lia.
  - rewrite Pos2Z.inj_succ, IH. destruct p; simpl; lia.
Qed.

Lemma digits_of m d : 0 <= d -> 2 ^ d <= m < 2 ^ (d + 1) -> Zdigits2 m = d + 1.
Proof.
  intros Hd Hm. assert (0 < 2 ^ d) by (apply Z.pow_pos_nonneg; lia).
  rewrite Zdigits2_log2 by lia. f_equal. apply Z.log2_unique; [done|]. by rewrite <- Z.add_1_r.
Qed.

Lemma normal_digits m : normal m -> Zdigits2 m = 53.
Proof. intros Hm. by apply (digits_of m 52). Qed.

Lemma iter_xO p d : Z.pos (Pos.iter xO p d) = Z.pos p * 2 ^ Z.pos d.
Proof.
  induction d as [|d IH] using Pos.peano_ind; [simpl; lia|].
  rewrite Pos.iter_succ, Pos2Z.inj_succ, Z.pow_succ_r by lia. rewrite Pos2Z.inj_xO, IH. lia.
Qed.

(** ** Lemmas: rounding *)

Lemma shr_fexp_none m e l :
  Zdigits2 m = 53 -> -1074 <= e -> shr_fexp 53 1024 m e l = (shr_record_of_loc m l, e).
Proof.
  intros Hd He. unfold shr_fexp, fexp, emin. rewrite Hd.
  replace (Z.max (53 + e - 53) (3 - 1024 - 53) - e) with 0 by lia. done.
Qed.

Lemma shr_fexp_one m e l :
  Zdigits2 m = 54 -> -1074 <= e -> shr_fexp 53 1024 m e l = (shr_1 (shr_record_of_loc m l), e + 1).
Proof.
  intros Hd He. unfold shr_fexp, fexp, emin. rewrite Hd.
  replace (Z.max (54 + e - 53) (3 - 1024 - 53) - e) with 1 by lia. done.
Qed.

Lemma shr_1_pos m r s : 0 < m -> shr_1 (Build_shr_record m r s) = Build_shr_record (m / 2) (Z.odd m) (r || s).
Proof.
  intros Hm. destruct m as [|p|p]; [lia| |lia].
  destruct p as [p|p|]; simpl; [rewrite Pos2Z.inj_xI|rewrite Pos2Z.inj_xO|done]; f_equal;
    [apply (Z.div_unique _ _ _ 1)|apply (Z.div_unique _ _ _ 0)]; lia.
Qed.

(** [q] is the integer part of [X / D], and [l] says where the rest is. *)
Definition located (X D q : Z) (l : location) : Prop :=
  0 < D /\ q * D <= X < (q + 1) * D /\
  match l with
  | loc_Exact => X = q * D
  | loc_Inexact c => X <> q * D /\ c = (2 * (X - q * D) ?= D)
  end.

Lemma round_near X D q l :
  located X D q l ->
  2 * Z.abs (round_nearest_even q l * D - X) <= D /\ q <= round_nearest_even q l <= q + 1.
Proof.
  intros (HD & Hq & Hl). destruct l as [|c]; simpl; [nia|]. destruct Hl as [_ ->].
  destruct (Z.compare_spec (2 * (X - q * D)) D); [destruct (Z.even q)| |]; nia.
Qed.

Lemma located_half X D q l :
  located X D q l -> 0 < q ->
  located X (2 * D) (q / 2) (loc_of_shr_record (shr_1 (shr_record_of_loc q l))).
Proof.
  intros (HD & Hq & Hl) Hpos. pose proof (Z.div_mod q 2 ltac:(lia)) as Hdiv. rewrite Zmod_odd in Hdiv.
  assert (shr_1 (shr_record_of_loc q l) =
    Build_shr_record (q / 2) (Z.odd q) (match l with loc_Exact => false | _ => true end)) as ->
    by (destruct l as [|[]]; cbn [shr_record_of_loc]; by rewrite shr_1_pos).
  generalize dependent (q / 2). intros h Hdiv. destruct (Z.odd q); subst q; (split; [lia|]); (split; [lia|]);
    (destruct l as [|c]; simpl; [|destruct Hl as [Hne ->]]).
  - split; [lia|]. symmetry. apply Z.compare_eq_iff. lia.
  - split; [lia|]. symmetry. apply Z.compare_gt_iff. lia.
  - lia.
  - split; [lia|]. symmetry. apply Z.compare_lt_iff. lia.
Qed.

(** A result of 53 bits needs no more shift; one of [2^53] is [2^52] with the next exponent. *)
Lemma round_rest m e :
  2 ^ 52 <= m <= 2 ^ 53 -> -1074 <= e <= 900 ->
  exists m' k, 0 <= k <= 1 /\ normal m' /\ m = m' * 2 ^ k /\
    shr_m (shr_fexp 53 1024 m e loc_Exact).1 = m' /\ (shr_fexp 53 1024 m e loc_Exact).2 = e + k.
Proof.
  intros Hm He. destruct (Z.eq_dec m (2 ^ 53)) as [->|Hne].
  - exists (2 ^ 52), 1. repeat split; try lia; rewrite (shr_fexp_one (2 ^ 53)) by (done || lia); done.
  - assert (normal m) as Hn by (unfold normal; lia). exists m, 0. rewrite shr_fexp_none by (by apply normal_digits || lia).
    repeat split; simpl; try lia; apply Hn.
Qed.

(** Rounding to the nearest double: the error is at most half a unit of the last place. *)
Lemma round_aux_near X D q e l :
  located X D q l -> 2 ^ 52 <= q < 2 ^ 54 -> -1074 <= e <= 800 ->
  exists m k, binary_round_aux 53 1024 false q e l = S754_finite false (Z.to_pos m) (e + k) /\
    normal m /\ 0 <= k <= 2 /\ 2 ^ 53 * Z.abs (m * 2 ^ k * D - X) <= X.
Proof.
  intros Hl Hq He.
  assert (exists q' k l', 0 <= k <= 1 /\ 2 ^ 52 <= q' < 2 ^ 53 /\ located X (2 ^ k * D) q' l' /\
    shr_m (shr_fexp 53 1024 q e l).1 = q' /\ loc_of_shr_record (shr_fexp 53 1024 q e l).1 = l' /\
    (shr_fexp 53 1024 q e l).2 = e + k) as (q' & k & l' & Hk & Hq' & Hl' & H1 & H2 & H3).
  { destruct (Z_lt_ge_dec q (2 ^ 53)) as [Hlt|Hge].
    - exists q, 0, l. rewrite shr_fexp_none by (apply (digits_of q 52) || idtac; lia). simpl.
      repeat split; try lia; try (by destruct l as [|[]]); rewrite Z.mul_1_l; apply Hl.
    - exists (q / 2), 1, (loc_of_shr_record (shr_1 (shr_record_of_loc q l))).
      rewrite shr_fexp_one by (apply (digits_of q 53) || idtac; lia). cbn [fst snd].
      split; [lia|]. split; [split; [apply Z.div_le_lower_bound|apply Z.div_lt_upper_bound]; lia|].
      split; [apply located_half; [done|lia]|]. split; [|done].
      destruct l as [|[]]; cbn [shr_record_of_loc]; by rewrite shr_1_pos by lia. }
  destruct (round_near _ _ _ _ Hl') as [Hnear Hr].
  destruct (round_rest (round_nearest_even q' l') (e + k)) as (m & k' & Hk' & Hm & Hmr & H4 & H5); [lia|lia|].
  exists m, (k + k'). split; [|split; [done|split; [lia|]]].
  - unfold binary_round_aux. destruct (shr_fexp 53 1024 q e l) as [mrs e1]. cbn [fst snd] in H1, H2, H3. subst q' l' e1.
    destruct (shr_fexp 53 1024 (round_nearest_even _ _) _ _) as [mrs' e2]. cbn [fst snd] in H4, H5. subst e2. rewrite H4.
    destruct m as [|m|m]; unfold normal in Hm; [lia| |lia]. rewrite (proj2 (Z.leb_le _ _)) by lia.
    simpl. f_equal. lia.
  - replace (m * 2 ^ (k + k') * D) with (round_nearest_even q' l' * (2 ^ k * D))
      by (rewrite Z.pow_add_r by lia; rewrite Hmr; ring).
    destruct Hl' as (HD & Hx & _). nia.
Qed.

(** An integer below [2^53] is a double, with its significand shifted up to 53 bits. *)
Lemma double_of_Z_exact n :
  0 < n < 2 ^ 53 ->
  exists m c, 0 <= c <= 52 /\ m = n * 2 ^ c /\ normal m /\ double_of_Z n = S754_finite false (Z.to_pos m) (- c).
Proof.
  intros Hn. pose proof (Z.log2_spec n ltac:(lia)) as Hlog.
  assert (0 <= Z.log2 n <= 52) as Hd by (split; [apply Z.log2_nonneg|]; apply Z.lt_succ_r, Z.log2_lt_pow2; lia).
  set (c := 52 - Z.log2 n). assert (normal (n * 2 ^ c)) as Hm.
  { unfold normal. replace (2 ^ 52) with (2 ^ Z.log2 n * 2 ^ c) by (unfold c; rewrite <- Z.pow_add_r; [f_equal|..]; lia).
    replace (2 ^ 53) with (2 ^ Z.succ (Z.log2 n) * 2 ^ c) by (unfold c; rewrite <- Z.pow_add_r; [f_equal|..]; lia).
    assert (0 < 2 ^ c) by (apply Z.pow_pos_nonneg; unfold c; lia). nia. }
  exists (n * 2 ^ c), c. split; [unfold c; lia|]. split; [done|]. split; [done|].
  unfold double_of_Z, binary_normalize. destruct n as [|p|p]; [lia| |lia]. unfold binary_round.
  assert (Z.pos (digits2_pos p) = Z.log2 (Z.pos p) + 1) as Hdig by (apply (Zdigits2_log2 (Z.pos p)); lia).
  assert (shl_align p 0 (fexp 53 1024 (Z.pos (digits2_pos p) + 0)) = (Z.to_pos (Z.pos p * 2 ^ c), - c)) as ->.
  { rewrite Hdig. replace (fexp 53 1024 _) with (- c) by (unfold fexp, emin, c; lia).
    unfold shl_align. destruct c as [|c'|c'] eqn:Hc; [by rewrite Z.pow_0_r, Z.mul_1_r| |unfold c in *; lia].
    change (- Z.pos c' - 0) with (Z.neg c'). cbn iota. f_equal. apply Pos2Z.inj.
    by rewrite iter_xO, Z2Pos.id by (unfold normal in Hm; lia). }
  rewrite Z2Pos.id by (unfold normal in Hm; lia).
  destruct (round_aux_near (Z.pos p * 2 ^ c) 1 (Z.pos p * 2 ^ c) (- c) loc_Exact) as (m & k & -> & Hm' & Hk & Herr).
  - repeat split; lia.
  - unfold normal in Hm. lia.
  - unfold c. lia.
  - rewrite Z.mul_1_r in Herr. unfold normal in Hm, Hm'.
    assert (k = 0) as ->.
    { destruct (Z.eq_dec k 0); [done|]. assert (2 <= 2 ^ k) by (change 2 with (2 ^ 1) at 1; apply Z.pow_le_mono_r; lia). nia. }
    rewrite Z.pow_0_r, Z.mul_1_r in Herr. rewrite Z.add_0_r. do 2 f_equal. lia.
Qed.

(** The rest of a division, located. *)
Lemma located_div m1 m2 :
  0 < m2 -> located m1 m2 (m1 / m2) (new_location m2 (m1 mod m2)).
Proof.
  intros Hm. pose proof (Z.div_mod m1 m2 ltac:(lia)) as Hdiv. pose proof (Z.mod_pos_bound m1 m2 Hm) as Hmod.
  split; [done|]. split; [lia|]. replace (m1 - m1 / m2 * m2) with (m1 mod m2) by lia.
  unfold new_location, new_location_even, new_location_odd. destruct (Z.even m2) eqn:He.
  - destruct (Z.eqb_spec (m1 mod m2) 0); [lia|]. split; [lia|done].
  - destruct (Z.eqb_spec (m1 mod m2) 0); [lia|]. split; [lia|].
    assert (m2 mod 2 = 1) as Ho by (rewrite Zmod_odd, <- Z.negb_even, He; done).
    pose proof (Z.div_mod m2 2 ltac:(lia)).
    destruct (Z.compare_spec (2 * (m1 mod m2) + 1) m2); symmetry;
      [apply Z.compare_lt_iff|apply Z.compare_lt_iff|apply Z.compare_gt_iff]; lia.
Qed.

(** The quotient of two doubles is within half a unit of the last place. *)
Lemma div_rounded m1 e1 m2 e2 :
  normal m1 -> normal m2 -> -52 <= e1 <= 0 -> -52 <= e2 <= 0 ->
  exists m k, double_div (S754_finite false (Z.to_pos m1) e1) (S754_finite false (Z.to_pos m2) e2) =
      S754_finite false (Z.to_pos m) (e1 - e2 - 53 + k) /\
    normal m /\ 0 <= k <= 2 /\ Z.abs (m * 2 ^ k * m2 - m1 * 2 ^ 53) <= m1.
Proof.
  intros H1 H2 He1 He2. pose proof H1 as Hn1. pose proof H2 as Hn2. unfold normal in Hn1, Hn2.
  unfold double_div, SFdiv, SFdiv_core_binary. rewrite !Z2Pos.id by lia. rewrite !normal_digits by done.
  replace (Z.min (fexp 53 1024 (53 + e1 - (53 + e2))) (e1 - e2)) with (e1 - e2 - 53) by (unfold fexp, emin; lia).
  replace (e1 - e2 - (e1 - e2 - 53)) with 53 by lia. cbn iota. rewrite Z.shiftl_mul_pow2 by lia.
  pose proof (located_div (m1 * 2 ^ 53) m2 ltac:(lia)) as Hl. unfold Z.div, Z.modulo in Hl.
  destruct (Z.div_eucl (m1 * 2 ^ 53) m2) as [q r]. cbn [xorb].
  destruct (round_aux_near _ _ q (e1 - e2 - 53) _ Hl) as (m & k & -> & Hm & Hk & Herr).
  - destruct Hl as (_ & Hq & _). nia.
  - lia.
  - exists m, k. split; [done|]. split; [done|]. split; [done|]. lia.
Qed.

(** ** Lemmas: the order *)

(** Two doubles with 53-bit significands compare as the numbers they are. *)
Lemma double_le_normal m e m' e' c :
  normal m -> normal m' -> 0 <= e + c -> 0 <= e' + c ->
  double_le (S754_finite false (Z.to_pos m) e) (S754_finite false (Z.to_pos m') e') = (m * 2 ^ (e + c) <=? m' * 2 ^ (e' + c)).
Proof.
  unfold normal. intros Hm Hm' He He'. unfold double_le, SFleb. cbn [SFcompare].
  assert (forall a b x y, normal x -> normal y -> 0 <= a < b -> x * 2 ^ a < y * 2 ^ b) as Hlt.
  { unfold normal. intros a b x y Hx Hy Hab. apply (Z.lt_le_trans _ (2 ^ 53 * 2 ^ a)); [apply Z.mul_lt_mono_pos_r; [apply Z.pow_pos_nonneg|]; lia|].
    assert (2 ^ 53 * 2 ^ a <= 2 ^ 52 * 2 ^ b); [|assert (0 < 2 ^ b) by (apply Z.pow_pos_nonneg; lia); nia].
    rewrite <- !Z.pow_add_r by lia. apply Z.pow_le_mono_r; lia. }
  destruct (Z.compare_spec e e') as [->|Hlt'|Hgt].
  - rewrite Pos.compare_cont_spec, Pos2Z.inj_compare, !Z2Pos.id by lia.
    assert (0 < 2 ^ (e' + c)) by (apply Z.pow_pos_nonneg; lia).
    destruct (Z.compare_spec m m'); simpl; symmetry; [apply Z.leb_le|apply Z.leb_le|apply Z.leb_gt]; nia.
  - symmetry. apply Z.leb_le. apply Z.lt_le_incl, Hlt; [done|done|lia].
  - symmetry. apply Z.leb_gt. apply Hlt; [done|done|lia].
Qed.

(** Quotients of small integers by the same divisor are ordered as the integers. *)
Lemma quotient_lt a b d :
  0 < a < b -> a + b < 2 ^ 53 -> 0 < d < 2 ^ 53 ->
  let q n := double_div (double_of_Z n) (double_of_Z d) in
  double_le (q a) (q b) = true /\ double_le (q b) (q a) = false.
Proof.
  intros Hab Hsum Hd q. destruct (double_of_Z_exact d Hd) as (md & cd & Hcd & Hmd & Hnd & Hdd).
  assert (forall n, 0 < n < 2 ^ 53 -> exists m e, q n = S754_finite false (Z.to_pos m) e /\ normal m /\ 0 <= e + 105 /\
    Z.abs (m * 2 ^ (e + 105) * md - n * 2 ^ (cd + 105)) <= n * 2 ^ (cd + 52)) as Hq.
  { intros n Hn. destruct (double_of_Z_exact n Hn) as (m1 & c1 & Hc1 & Hm1 & Hn1 & Hd1).
    destruct (div_rounded m1 (- c1) md (- cd) Hn1 Hnd ltac:(lia) ltac:(lia)) as (m & k & Hdiv & Hm & Hk & Herr).
    exists m, (- c1 - - cd - 53 + k). unfold q. rewrite Hd1, Hdd. split; [done|]. split; [done|]. split; [lia|].
    replace (m * 2 ^ (- c1 - - cd - 53 + k + 105)) with (m * 2 ^ k * 2 ^ (cd + 52 - c1))
      by (rewrite <- Z.mul_assoc, <- Z.pow_add_r by lia; do 2 f_equal; lia).
    replace (n * 2 ^ (cd + 105)) with (m1 * 2 ^ 53 * 2 ^ (cd + 52 - c1))
      by (rewrite Hm1, <- !Z.mul_assoc, <- !Z.pow_add_r by lia; do 2 f_equal; lia).
    replace (n * 2 ^ (cd + 52)) with (m1 * 2 ^ (cd + 52 - c1))
      by (rewrite Hm1, <- !Z.mul_assoc, <- !Z.pow_add_r by lia; do 2 f_equal; lia).
    assert (0 < 2 ^ (cd + 52 - c1)) by (apply Z.pow_pos_nonneg; lia). nia. }
  destruct (Hq a ltac:(lia)) as (m & e & -> & Hm & He & Ha). destruct (Hq b ltac:(lia)) as (m' & e' & -> & Hm' & He' & Hb).
  rewrite !(double_le_normal _ _ _ _ 105) by done.
  assert (m * 2 ^ (e + 105) < m' * 2 ^ (e' + 105)) as Hlt; [|split; [apply Z.leb_le|apply Z.leb_gt]; lia].
  assert (2 ^ (cd + 105) = 2 ^ 53 * 2 ^ (cd + 52)) as Hpow by (rewrite <- Z.pow_add_r by lia; f_equal; lia).
  rewrite Hpow in Ha, Hb. clear Hq Hpow. assert (0 < 2 ^ (cd + 52)) as HP by (apply Z.pow_pos_nonneg; lia). generalize dependent (2 ^ (cd + 52)). intros P Ha Hb HP.
  assert (P * (a * (2 ^ 53 + 1)) < P * (b * (2 ^ 53 - 1))) by (apply Z.mul_lt_mono_pos_l; lia).
  apply (Z.mul_lt_mono_pos_r md); [unfold normal in Hnd; lia|]. lia.
Qed.
