(* ===== verification/Metrics.v ===== *)
(** * The metrics registry

    [include/eventedge/metrics.hpp] and [src/metrics.cpp].  Every counter is a
    [std::atomic<std::uint64_t>] changed by [fetch_add] and [fetch_sub] only, so a
    registry is the value of each counter and a call is one or more atomic additions
    modulo [2^64]; what several threads do is a sequence of calls ([metric_op]).

    - [counter], [MetricsRegistry]: the atomics of the class, and the labels;
    - [record_request] ... [observe_duration]: the member functions;
    - [render]: the text exposition, line by line;
    - doubles are those of [Binary64]: [seconds_of] is [duration<double>(d).count()] (one
      division by [1e9]), [buckets_] the eight literals of the class (each literal is the
      correctly rounded quotient it is written as here), [format_g12] what
      [std::setprecision(12) << x] prints. *)

From Stdlib Require Import Ascii SpecFloat.
From stdpp Require Import base sets strings numbers pretty list.
From S2P Require Import Prelude CppString Beast UpstreamPool HttpHandler Binary64.

#[local] Open Scope Z_scope.

(** ** Durations in seconds *)

Definition nanos_per_second : Z := 1000000000.

(** [std::chrono::duration<double>(d).count()] for a [d] in nanoseconds. *)
Definition seconds_of (nanos : Z) : double := double_div (double_of_Z nanos) (double_of_Z nanos_per_second).

(** [buckets_]: 0.001, 0.005, 0.01, 0.05, 0.1, 0.5, 1.0, 5.0. *)
Definition bucket_quotients : list (Z * Z) :=
  [(1, 1000); (5, 1000); (1, 100); (5, 100); (1, 10); (5, 10); (1, 1); (5, 1)].

Definition buckets_ : list double :=
  (fun q => double_div (double_of_Z q.1) (double_of_Z q.2)) <$> bucket_quotients.

(** How [ostream <<] prints these literals with the default precision. *)
Definition bucket_labels : list string := ["0.001"; "0.005"; "0.01"; "0.05"; "0.1"; "0.5"; "1"; "5"].

(** *** Printing a double with twelve significant digits *)

(** The value of a non-negative double as a fraction. *)
Definition double_fraction (x : double) : Z * Z :=
  match x with
  | S754_finite _ m e => if 0 <=? e then (Zpos m * 2 ^ e, 1) else (Zpos m, 2 ^ (- e))
  | _ => (0, 1)
  end.

(** [n / d * 10^k], rounded to the nearest integer, ties to even. *)
Definition scaled_round (n d k : Z) : Z :=
  let '(n, d) := if 0 <=? k then (n * 10 ^ k, d) else (n, d * 10 ^ (- k)) in
  let q := n / d in
  let r := 2 * (n mod d) in
  if r <? d then q else if d <? r then q + 1 else if Z.even q then q else q + 1.

(** The decimal exponent of [n / d]: the [x] with [10^x <= n/d < 10^(x+1)]. *)
Definition decimal_exponent (n d : Z) : Z :=
  let fits x := if 0 <=? x then (10 ^ x * d <=? n) else (d <=? n * 10 ^ (- x)) in
  default 0 (head (filter (fun x => fits x = true) ((fun i => 400 - Z.of_nat i) <$> seq 0 800))).

Fixpoint zeros (n : nat) : string := match n with O => EmptyString | S n' => String "0" (zeros n') end.

Definition two_digits (z : Z) : string := if z <? 10 then "0" +:+ to_string z else to_string z.

(** [head.tail] without trailing zeros, and without the point when nothing is left. *)
Definition with_fraction (intpart fraction : string) : string :=
  match str_trim_right ["0"%char] fraction with
  | EmptyString => intpart
  | f => intpart +:+ "." +:+ f
  end.

Definition format_g12 (x : double) : string :=
  let (n, d) := double_fraction x in
  if n =? 0 then "0"
  else
    let x0 := decimal_exponent n d in
    let q0 := scaled_round n d (11 - x0) in
    let '(q, e) := if q0 =? 10 ^ 12 then (q0 / 10, x0 + 1) else (q0, x0) in
    let ds := to_string q in
    if (e <? -4) || (12 <=? e) then
      with_fraction (str_take 1 ds) (str_drop 1 ds) +:+ "e" +:+ (if e <? 0 then "-" else "+") +:+ two_digits (Z.abs e)
    else if 0 <=? e then with_fraction (str_take (Z.to_nat (e + 1)) ds) (str_drop (Z.to_nat (e + 1)) ds)
    else with_fraction "0" (zeros (Z.to_nat (- e - 1)) +:+ ds).

(** ** The registry *)

Inductive counter :=
| requests_ | health_requests_ | metrics_requests_ | proxy_requests_
| cache_hits_ | cache_misses_ | coalescing_leaders_ | coalescing_waiters_
| bad_gateway_ | service_unavailable_ | gateway_timeout_ | health_transitions_
| proxy_in_flight_ | duration_count_ | duration_sum_nanos_
| duration_buckets_ (i : nat).

#[export] Instance counter_eq_dec : EqDecision counter.
Proof. solve_decision. Defined.

Record UpstreamMetrics := mkUpstreamMetrics {
  label : string;
  selections : Z;
}.

Record MetricsRegistry := mkMetrics {
  count_of : counter -> Z;
  upstreams_ : list UpstreamMetrics;
}.

Definition endpoint_label (e : UpstreamEndpoint) : string := host e +:+ ":" +:+ to_string (port e).

(** The constructor reads the endpoints of the pool one by one. *)
Definition MetricsRegistry_new (pool : UpstreamPool) : result MetricsRegistry :=
  let* us := result_map (fun index => let* e := pool_endpoint pool (Z.of_nat index) in
                                      Ok (mkUpstreamMetrics (endpoint_label e) 0))
               (seq 0 (Z.to_nat (pool_size pool))) in
  Ok (mkMetrics (fun _ => 0) us).

(** [c.fetch_add(n)]; [fetch_sub] is the addition of the opposite. *)
Definition fetch_add (c : counter) (n : Z) (m : MetricsRegistry) : MetricsRegistry :=
  mkMetrics (fun c' => if decide (c' = c) then add64 (count_of m c') n else count_of m c') (upstreams_ m).

Definition record_request : MetricsRegistry -> MetricsRegistry := fetch_add requests_ 1.
Definition record_health_request : MetricsRegistry -> MetricsRegistry := fetch_add health_requests_ 1.
Definition record_metrics_request : MetricsRegistry -> MetricsRegistry := fetch_add metrics_requests_ 1.
Definition record_proxy_request : MetricsRegistry -> MetricsRegistry := fetch_add proxy_requests_ 1.
Definition record_cache_hit : MetricsRegistry -> MetricsRegistry := fetch_add cache_hits_ 1.
Definition record_cache_miss : MetricsRegistry -> MetricsRegistry := fetch_add cache_misses_ 1.
Definition record_coalescing_leader : MetricsRegistry -> MetricsRegistry := fetch_add coalescing_leaders_ 1.
Definition record_coalescing_waiter : MetricsRegistry -> MetricsRegistry := fetch_add coalescing_waiters_ 1.
Definition record_health_transition : MetricsRegistry -> MetricsRegistry := fetch_add health_transitions_ 1.
Definition proxy_started : MetricsRegistry -> MetricsRegistry := fetch_add proxy_in_flight_ 1.
Definition proxy_completed : MetricsRegistry -> MetricsRegistry := fetch_add proxy_in_flight_ (-1).

Definition record_response_status (status : Z) (m : MetricsRegistry) : MetricsRegistry :=
  if status =? 502 then fetch_add bad_gateway_ 1 m
  else if status =? 503 then fetch_add service_unavailable_ 1 m
  else if status =? 504 then fetch_add gateway_timeout_ 1 m
  else m.

(** The loop stops at the first label that matches. *)
Fixpoint bump_first (upstream : string) (us : list UpstreamMetrics) : list UpstreamMetrics :=
  match us with
  | [] => []
  | u :: us' =>
      if decide (label u = upstream) then mkUpstreamMetrics (label u) (add64 (selections u) 1) :: us'
      else u :: bump_first upstream us'
  end.

Definition record_upstream_selection (upstream : string) (m : MetricsRegistry) : MetricsRegistry :=
  mkMetrics (count_of m) (bump_first upstream (upstreams_ m)).

Definition observe_duration (nanos : Z) (m : MetricsRegistry) : MetricsRegistry :=
  let m := fetch_add duration_count_ 1 m in
  let m := fetch_add duration_sum_nanos_ nanos m in
  let seconds := seconds_of nanos in
  foldl (fun m ib => if double_le seconds ib.2 then fetch_add (duration_buckets_ ib.1) 1 m else m)
    m (imap pair buckets_).

(** ** The exposition *)

Definition counter_line (name : string) (value : Z) : string := name +:+ " " +:+ to_string value +:+ newline.

(** [name{key="value"}]. *)
Definition series (name key value : string) : string :=
  name +:+ "{" +:+ key +:+ "=" +:+ dquote +:+ value +:+ dquote +:+ "}".

Definition counter_names : list (string * counter) :=
  [("eventedge_requests_total", requests_);
   ("eventedge_local_health_requests_total", health_requests_);
   ("eventedge_metrics_requests_total", metrics_requests_);
   ("eventedge_proxy_requests_total", proxy_requests_);
   ("eventedge_cache_hits_total", cache_hits_);
   ("eventedge_cache_misses_total", cache_misses_);
   ("eventedge_coalescing_leaders_total", coalescing_leaders_);
   ("eventedge_coalescing_waiters_total", coalescing_waiters_);
   ("eventedge_bad_gateway_total", bad_gateway_);
   ("eventedge_service_unavailable_total", service_unavailable_);
   ("eventedge_gateway_timeout_total", gateway_timeout_);
   ("eventedge_upstream_health_transitions_total", health_transitions_);
   ("eventedge_proxy_in_flight", proxy_in_flight_)].

Definition str_concat (l : list string) : string := foldr String.append "" l.

Definition render_counters (m : MetricsRegistry) : string :=
  str_concat ((fun nc => counter_line nc.1 (count_of m nc.2)) <$> counter_names).

Definition render_durations (m : MetricsRegistry) : string :=
  str_concat (imap (fun i b =>
    counter_line (series "eventedge_request_duration_seconds_bucket" "le" b)
      (count_of m (duration_buckets_ i))) bucket_labels) +:+
  counter_line (series "eventedge_request_duration_seconds_bucket" "le" "+Inf") (count_of m duration_count_) +:+
  counter_line "eventedge_request_duration_seconds_count" (count_of m duration_count_) +:+
  "eventedge_request_duration_seconds_sum " +:+
    format_g12 (double_div (double_of_Z (count_of m duration_sum_nanos_)) (double_of_Z nanos_per_second)) +:+ newline.

Definition render_upstream (pool : UpstreamPool) (i : nat) (u : UpstreamMetrics) : result string :=
  let* healthy := is_healthy pool (Z.of_nat i) in
  Ok (counter_line (series "eventedge_upstream_selections_total" "upstream" (label u)) (selections u) +:+
      counter_line (series "eventedge_upstream_healthy" "upstream" (label u)) (if healthy then 1 else 0)).

Definition render (m : MetricsRegistry) (pool : UpstreamPool) : result string :=
  let* us := result_map (fun iu => render_upstream pool iu.1 iu.2) (imap pair (upstreams_ m)) in
  Ok ("# TYPE eventedge_requests_total counter" +:+ newline +:+
      render_counters m +:+ render_durations m +:+ str_concat us).

(** ** Calls from several threads

    A call is made of atomic additions ([atom]); those of calls made by different
    threads interleave in any order, so that what the registry sees is some
    permutation of all of them. *)

(** The calls without an argument that add one. *)
Inductive event :=
| Request | HealthRequest | MetricsRequest | ProxyRequest | CacheHit | CacheMiss
| CoalescingLeader | CoalescingWaiter | HealthTransition | ProxyStarted.

Definition record_event (e : event) : MetricsRegistry -> MetricsRegistry :=
  match e with
  | Request => record_request
  | HealthRequest => record_health_request
  | MetricsRequest => record_metrics_request
  | ProxyRequest => record_proxy_request
  | CacheHit => record_cache_hit
  | CacheMiss => record_cache_miss
  | CoalescingLeader => record_coalescing_leader
  | CoalescingWaiter => record_coalescing_waiter
  | HealthTransition => record_health_transition
  | ProxyStarted => proxy_started
  end.

Definition event_counter (e : event) : counter :=
  match e with
  | Request => requests_
  | HealthRequest => health_requests_
  | MetricsRequest => metrics_requests_
  | ProxyRequest => proxy_requests_
  | CacheHit => cache_hits_
  | CacheMiss => cache_misses_
  | CoalescingLeader => coalescing_leaders_
  | CoalescingWaiter => coalescing_waiters_
  | HealthTransition => health_transitions_
  | ProxyStarted => proxy_in_flight_
  end.

#[export] Instance event_eq_dec : EqDecision event.
Proof. solve_decision. Defined.

Inductive metric_op :=
| MEvent (e : event)
| MProxyCompleted
| MStatus (status : Z)
| MDuration (nanos : Z)
| MSelection (upstream : string).

#[export] Instance metric_op_eq_dec : EqDecision metric_op.
Proof. solve_decision. Defined.

Definition metric_apply (m : MetricsRegistry) (op : metric_op) : MetricsRegistry :=
  match op with
  | MEvent e => record_event e m
  | MProxyCompleted => proxy_completed m
  | MStatus status => record_response_status status m
  | MDuration nanos => observe_duration nanos m
  | MSelection upstream => record_upstream_selection upstream m
  end.

Definition metrics_run (ops : list metric_op) (m : MetricsRegistry) : MetricsRegistry :=
  foldl metric_apply m ops.

Inductive atom :=
| Add (c : counter) (n : Z)
| Bump (upstream : string).

Definition atom_apply (m : MetricsRegistry) (a : atom) : MetricsRegistry :=
  match a with
  | Add c n => fetch_add c n m
  | Bump upstream => record_upstream_selection upstream m
  end.

Definition atoms_run (acts : list atom) (m : MetricsRegistry) : MetricsRegistry := foldl atom_apply m acts.

Definition status_counter (status : Z) : option counter :=
  if status =? 502 then Some bad_gateway_
  else if status =? 503 then Some service_unavailable_
  else if status =? 504 then Some gateway_timeout_
  else None.

Definition bucket_atoms (seconds : double) (ibs : list (nat * double)) : list atom :=
  ib ← ibs; if double_le seconds ib.2 then [Add (duration_buckets_ ib.1) 1] else [].

Definition atoms_of (op : metric_op) : list atom :=
  match op with
  | MEvent e => [Add (event_counter e) 1]
  | MProxyCompleted => [Add proxy_in_flight_ (-1)]
  | MStatus status => match status_counter status with Some c => [Add c 1] | None => [] end
  | MDuration nanos =>
      Add duration_count_ 1 :: Add duration_sum_nanos_ nanos ::
      bucket_atoms (seconds_of nanos) (imap pair buckets_)
  | MSelection upstream => [Bump upstream]
  end.

(** The registry may see the additions of the calls [ops] in the order [acts]. *)
Definition interleaving (ops : list metric_op) (acts : list atom) : Prop := acts ≡ₚ ops ≫= atoms_of.

(** ** The reference: what a call adds to a counter *)

Definition in_bucket (nanos : Z) (i : nat) : bool :=
  match buckets_ !! i with Some b => double_le (seconds_of nanos) b | None => false end.

Definition added (c : counter) (op : metric_op) : Z :=
  match op with
  | MEvent e => if decide (c = event_counter e) then 1 else 0
  | MProxyCompleted => if decide (c = proxy_in_flight_) then -1 else 0
  | MStatus status => if decide (Some c = status_counter status) then 1 else 0
  | MDuration nanos =>
      match c with
      | duration_count_ => 1
      | duration_sum_nanos_ => nanos
      | duration_buckets_ i => if in_bucket nanos i then 1 else 0
      | _ => 0
      end
  | MSelection _ => 0
  end.

Definition sum_Z (l : list Z) : Z := foldr Z.add 0 l.

Definition atom_added (c : counter) (a : atom) : Z :=
  match a with Add c' n => if decide (c = c') then n else 0 | Bump _ => 0 end.

Definition counters_ok (m : MetricsRegistry) : Prop := forall c, 0 <= count_of m c < two64.

(** ** Lemmas: sums *)

Arguments sum_Z : simpl never.

Lemma sum_Z_nil : sum_Z [] = 0.
Proof. done. Qed.

Lemma sum_Z_cons x l : sum_Z (x :: l) = x + sum_Z l.
Proof. done. Qed.

#[local] Hint Rewrite sum_Z_nil sum_Z_cons Z.add_0_r Z.add_0_l : ee.

Lemma sum_Z_app l1 l2 : sum_Z (l1 ++ l2) = sum_Z l1 + sum_Z l2.
Proof. induction l1 as [|x l1 IH]; csimpl; autorewrite with ee; [done|]. rewrite IH. lia. Qed.

Lemma sum_Z_Permutation l1 l2 : l1 ≡ₚ l2 -> sum_Z l1 = sum_Z l2.
Proof. induction 1; autorewrite with ee; lia. Qed.

Lemma sum_Z_bind {A} (f : A -> Z) {B} (g : B -> list A) (l : list B) :
  sum_Z (f <$> (l ≫= g)) = sum_Z ((fun x => sum_Z (f <$> g x)) <$> l).
Proof. induction l as [|x l IH]; [done|]. csimpl. by rewrite fmap_app, sum_Z_app, IH, sum_Z_cons. Qed.

Lemma sum_Z_ext {A} (f g : A -> Z) (l : list A) : (forall x, f x = g x) -> sum_Z (f <$> l) = sum_Z (g <$> l).
Proof. intros Hfg. induction l as [|x l IH]; csimpl; [done|]. by rewrite !sum_Z_cons, IH, Hfg. Qed.

Lemma sum_Z_indicator {A} (P : A -> Prop) `{!forall x, Decision (P x)} (l : list A) :
  sum_Z ((fun x => if decide (P x) then 1 else 0) <$> l) = Z.of_nat (length (filter P l)).
Proof.
  induction l as [|x l IH]; [done|]. csimpl. rewrite filter_cons.
  rewrite sum_Z_cons, IH. case_decide; csimpl; lia.
Qed.

(** ** Lemmas: a call is its atomic additions *)

Lemma observe_buckets_atoms seconds ibs m :
  foldl (fun m ib => if double_le seconds ib.2 then fetch_add (duration_buckets_ ib.1) 1 m else m) m ibs =
  atoms_run (bucket_atoms seconds ibs) m.
Proof.
  unfold atoms_run, bucket_atoms. revert m. induction ibs as [|ib ibs IH]; intros m; [done|]. csimpl.
  rewrite foldl_app, IH. by destruct (double_le seconds ib.2).
Qed.

Lemma metric_apply_atoms m op : metric_apply m op = atoms_run (atoms_of op) m.
Proof.
  destruct op as [[]| |status|nanos|u]; try done.
  - simpl. unfold record_response_status, status_counter. by repeat case_match.
  - cbn [metric_apply atoms_of]. unfold observe_duration. by rewrite observe_buckets_atoms.
Qed.

Lemma metrics_run_atoms ops m : metrics_run ops m = atoms_run (ops ≫= atoms_of) m.
Proof.
  unfold metrics_run, atoms_run. revert m. induction ops as [|op ops IH]; intros m; [done|]. csimpl.
  rewrite foldl_app, IH. f_equal. apply metric_apply_atoms.
Qed.

Lemma atoms_run_count acts m c :
  counters_ok m ->
  count_of (atoms_run acts m) c = wrap64 (count_of m c + sum_Z (atom_added c <$> acts)).
Proof.
  unfold atoms_run. revert m. induction acts as [|a acts IH]; intros m Hm; csimpl.
  - autorewrite with ee. symmetry. apply wrap64_small, Hm.
  - rewrite IH by (destruct a; intros c'; simpl; [case_decide; [apply wrap64_range|]|]; apply Hm).
    rewrite sum_Z_cons. destruct a as [c' n|u]; simpl; [|done]. case_decide; [|done].
    unfold add64, wrap64. rewrite Zplus_mod_idemp_l. by rewrite Z.add_assoc.
Qed.

Lemma sum_bucket_atoms_other c seconds ibs :
  (forall i, c <> duration_buckets_ i) -> sum_Z (atom_added c <$> bucket_atoms seconds ibs) = 0.
Proof.
  intros Hc. unfold bucket_atoms. rewrite sum_Z_bind. induction ibs as [|ib ibs IH]; [done|]. csimpl.
  rewrite sum_Z_cons, IH.
  destruct (double_le seconds ib.2); simpl; [|done]. by rewrite decide_False.
Qed.

Lemma sum_bucket_atoms seconds i k (bs : list double) :
  sum_Z (atom_added (duration_buckets_ i) <$> bucket_atoms seconds (imap (fun j b => ((k + j)%nat, b)) bs)) =
  match (if decide (k <= i)%nat then bs !! (i - k)%nat else None) with
  | Some b => if double_le seconds b then 1 else 0
  | None => 0
  end.
Proof.
  unfold bucket_atoms. rewrite sum_Z_bind. revert k. induction bs as [|b bs IH]; intros k; csimpl.
  - by case_decide.
  - rewrite (imap_ext _ (fun j b => ((S k + j)%nat, b))) by (intros; simpl; f_equal; lia).
    rewrite sum_Z_cons. setoid_rewrite IH. rewrite Nat.add_0_r.
    assert (sum_Z (atom_added (duration_buckets_ i) <$> (if double_le seconds b then [Add (duration_buckets_ k) 1] else [])) =
      if decide (i = k) then if double_le seconds b then 1 else 0 else 0) as ->.
    { destruct (double_le seconds b); simpl; [|by case_decide].
      destruct (decide (i = k)) as [->|]; [by rewrite decide_True|]. rewrite decide_False by congruence. done. }
    destruct (decide (k <= i)%nat), (decide (S k <= i)%nat), (decide (i = k)); try lia.
    + replace (i - k)%nat with (S (i - S k))%nat by lia. done.
    + subst. rewrite Nat.sub_diag. simpl. lia.
Qed.

Lemma atoms_of_added c op : sum_Z (atom_added c <$> atoms_of op) = added c op.
Proof.
  destruct op as [c'| |status|nanos|u]; cbn [atoms_of added].
  - csimpl. autorewrite with ee. done.
  - csimpl. autorewrite with ee. done.
  - destruct (status_counter status) as [c'|]; csimpl; autorewrite with ee; [|done].
    destruct (decide (c = c')) as [->|]; [by rewrite decide_True|]. rewrite decide_False by congruence. done.
  - rewrite !fmap_cons, !sum_Z_cons. pose proof (sum_bucket_atoms (seconds_of nanos)) as Hb.
    destruct c; rewrite ?sum_bucket_atoms_other by done; cbn [atom_added];
      repeat case_decide; try done; try lia.
    specialize (Hb i 0%nat buckets_). rewrite decide_True, Nat.sub_0_r in Hb by lia.
    change (imap (fun j b => ((0 + j)%nat, b)) buckets_) with (imap pair buckets_) in Hb.
    rewrite Hb. unfold in_bucket. by destruct (buckets_ !! i).
  - csimpl. autorewrite with ee. done.
Qed.

Lemma interleaving_calls ops : interleaving ops (ops ≫= atoms_of).
Proof. unfold interleaving. reflexivity. Qed.

Lemma interleaving_count ops acts m c :
  interleaving ops acts -> counters_ok m ->
  count_of (atoms_run acts m) c = wrap64 (count_of m c + sum_Z (added c <$> ops)).
Proof.
  intros Hp Hm. rewrite atoms_run_count by done. f_equal. f_equal.
  rewrite (sum_Z_Permutation _ _ (fmap_Permutation (atom_added c) _ _ Hp)), sum_Z_bind.
  apply sum_Z_ext. intros op. apply atoms_of_added.
Qed.

(** ** Lemmas: the upstream counters *)

Lemma bump_first_labels u us : label <$> bump_first u us = label <$> us.
Proof. induction us as [|x us IH]; simpl; [done|]. case_decide; csimpl; by rewrite ?IH. Qed.

Lemma bump_first_lookup l us i u :
  us !! i = Some u ->
  bump_first l us !! i = Some (mkUpstreamMetrics (label u)
    (if decide (label u = l /\ l ∉ take i (label <$> us)) then add64 (selections u) 1 else selections u)).
Proof.
  revert i. induction us as [|x us IH]; intros i Hi; [done|]. destruct i as [|i]; csimpl in *.
  - simplify_eq. destruct (decide (label u = l)) as [Hl|Hl].
    + rewrite decide_True by (split; [done|apply not_elem_of_nil]). done.
    + rewrite decide_False by tauto. by destruct u.
  - destruct (decide (label x = l)) as [Hl|Hl]; csimpl.
    + rewrite Hi, decide_False by (rewrite Hl, not_elem_of_cons; tauto). by destruct u.
    + rewrite (IH i) by done. f_equal. f_equal.
      destruct (decide (label u = l)) as [Hu|Hu]; [|by rewrite !decide_False by tauto].
      destruct (decide (l ∈ take i (label <$> us))) as [Hin|Hin].
      * rewrite !decide_False by (rewrite ?not_elem_of_cons; tauto). done.
      * rewrite !decide_True by (rewrite ?not_elem_of_cons; naive_solver). done.
Qed.

Definition bumps (l : string) (acts : list atom) : Z :=
  sum_Z ((fun a => match a with Bump l' => if decide (l' = l) then 1 else 0 | Add _ _ => 0 end) <$> acts).

Definition selections_of (l : string) (ops : list metric_op) : Z :=
  Z.of_nat (length (filter (fun op => op = MSelection l) ops)).

Lemma bumps_bucket_atoms l seconds ibs : bumps l (bucket_atoms seconds ibs) = 0.
Proof.
  unfold bumps, bucket_atoms. rewrite sum_Z_bind. induction ibs as [|ib ibs IH]; [done|].
  csimpl. rewrite sum_Z_cons, IH. by destruct (double_le seconds ib.2).
Qed.

Lemma bumps_atoms l ops : bumps l (ops ≫= atoms_of) = selections_of l ops.
Proof.
  unfold bumps, selections_of. rewrite sum_Z_bind, <- sum_Z_indicator. apply sum_Z_ext.
  intros [c| |status|nanos|u]; cbn [atoms_of]; try done.
  - by destruct (status_counter status).
  - rewrite !fmap_cons, !sum_Z_cons, !Z.add_0_l, decide_False by done. apply bumps_bucket_atoms.
  - csimpl. autorewrite with ee. do 2 case_decide; congruence.
Qed.

(** What an upstream entry holds after any sequence of additions: only the first of
    the entries that share a label is ever credited. *)
Lemma atoms_run_upstream acts m i u :
  upstreams_ m !! i = Some u -> 0 <= selections u < two64 ->
  upstreams_ (atoms_run acts m) !! i = Some (mkUpstreamMetrics (label u)
    (if decide (label u ∈ take i (label <$> upstreams_ m)) then selections u
     else wrap64 (selections u + bumps (label u) acts))).
Proof.
  unfold atoms_run. revert m u. induction acts as [|a acts IH]; intros m u Hi Hu; csimpl.
  - rewrite Hi. destruct u as [l n]. simpl in *. unfold bumps. csimpl. autorewrite with ee.
    rewrite wrap64_small by done. by case_decide.
  - destruct a as [c n|l]; csimpl; [by erewrite IH|].
    assert (upstreams_ (record_upstream_selection l m) !! i = Some (mkUpstreamMetrics (label u)
      (if decide (label u = l /\ l ∉ take i (label <$> upstreams_ m)) then add64 (selections u) 1 else selections u)))
      as Hi' by (by apply bump_first_lookup).
    rewrite (IH _ _ Hi') by (simpl; case_decide; [apply wrap64_range|done]). simpl.
    rewrite bump_first_labels. unfold bumps. csimpl. rewrite sum_Z_cons. f_equal. f_equal.
    destruct (decide (label u ∈ take i (label <$> upstreams_ m))) as [Hin|Hin];
      [by rewrite decide_False by (intros Hc; destruct Hc; subst l; done)|].
    destruct (decide (l = label u)) as [->|Hl].
    + rewrite !decide_True by (try split; done). unfold add64, wrap64.
      rewrite Zplus_mod_idemp_l. f_equal. lia.
    + rewrite !decide_False by (try (intros Hc; destruct Hc); congruence). done.
Qed.

(** ** Lemmas: the buckets *)

Lemma double_le_trans x m1 e1 y :
  double_le x (S754_finite false m1 e1) = true -> double_le (S754_finite false m1 e1) y = true ->
  double_le x y = true.
Proof.
  unfold double_le, SFleb.
  destruct x as [s|s| |s m e]; destruct y as [s'|s'| |s' m' e']; simpl; try destruct s; try destruct s'; try done.
  destruct (Z.compare_spec e e1), (Z.compare_spec e1 e'), (Z.compare_spec e e'); try lia; try done;
    rewrite ?Pos.compare_cont_spec;
    destruct (Pos.compare_spec m m1), (Pos.compare_spec m1 m'), (Pos.compare_spec m m'); try done; lia.
Qed.

Definition increasing (bs : list double) : bool :=
  forallb (fun p => match p.1 with S754_finite false _ _ => double_le p.1 p.2 | _ => false end) (zip bs (tail bs)).

Lemma increasing_lookup x bs i j b b' :
  increasing bs = true -> bs !! i = Some b -> bs !! j = Some b' -> (i <= j)%nat ->
  double_le x b = true -> double_le x b' = true.
Proof.
  revert i j b. induction bs as [|c bs IH]; intros i j b Hinc Hi Hj Hij Hb; [done|].
  destruct j as [|j]; [assert (i = 0%nat) as -> by lia; simpl in *; congruence|]. simpl in Hj.
  destruct bs as [|d bs]; [done|].
  unfold increasing in Hinc. cbn [tail zip zip_with forallb fst snd] in Hinc.
  apply andb_true_iff in Hinc as [Hcd Hrest].
  destruct i as [|i]; [|by apply (IH i j b); [| | |lia|]].
  simpl in Hi. injection Hi as ->.
  apply (IH 0%nat j d); [done|done|done|lia|].
  destruct b as [| | |[] m e]; try done. by apply (double_le_trans _ m e).
Qed.

Lemma buckets_increasing : increasing buckets_ = true.
Proof. vm_compute. reflexivity. Qed.

Lemma in_bucket_mono nanos i j :
  (i <= j < length buckets_)%nat -> in_bucket nanos i = true -> in_bucket nanos j = true.
Proof.
  intros Hij. unfold in_bucket. destruct (lookup_lt_is_Some_2 buckets_ i ltac:(lia)) as [b Hb].
  destruct (lookup_lt_is_Some_2 buckets_ j ltac:(lia)) as [b' Hb']. rewrite Hb, Hb'.
  apply (increasing_lookup (seconds_of nanos) buckets_ i j); [apply buckets_increasing|done|done|lia].
Qed.

(** The bounds of the buckets in nanoseconds.  Below [2^52] nanoseconds, about 52 days, the
    comparison of doubles is the comparison with these. *)
Definition bucket_nanos : list Z :=
  [1000000; 5000000; 10000000; 50000000; 100000000; 500000000; 1000000000; 5000000000].

Lemma buckets_seconds : buckets_ = seconds_of <$> bucket_nanos.
Proof. vm_compute. reflexivity. Qed.

Lemma bucket_nanos_ok i b :
  bucket_nanos !! i = Some b ->
  0 < b <= 5000000000 /\ double_le (seconds_of 0) (seconds_of b) = true /\ double_le (seconds_of b) (seconds_of b) = true.
Proof.
  assert (Forall (fun b => ((0 <? b) && (b <=? 5000000000) && double_le (seconds_of 0) (seconds_of b) &&
    double_le (seconds_of b) (seconds_of b)) = true) bucket_nanos) as Hall by (repeat constructor).
  intros Hi. eapply Forall_lookup_1 in Hall; [|exact Hi]. rewrite !andb_true_iff, Z.ltb_lt, Z.leb_le in Hall. tauto.
Qed.

Lemma in_bucket_exact nanos i b :
  0 <= nanos < 2 ^ 52 -> bucket_nanos !! i = Some b -> in_bucket nanos i = (nanos <=? b).
Proof.
  intros Hn Hi. destruct (bucket_nanos_ok i b Hi) as (Hb & Hzero & Hrefl).
  unfold in_bucket. rewrite buckets_seconds, list_lookup_fmap, Hi. simpl.
  assert (forall a c, 0 < a < c -> a + c < 2 ^ 53 -> double_le (seconds_of a) (seconds_of c) = true /\
    double_le (seconds_of c) (seconds_of a) = false) as Hlt.
  { intros a c Hac Hsum. by apply (quotient_lt a c nanos_per_second). }
  destruct (Z.lt_total nanos b) as [Hl|[->|Hg]]; [|by rewrite Z.leb_refl|].
  - rewrite (proj2 (Z.leb_le _ _)) by lia. destruct (Z.eq_dec nanos 0) as [->|Hne]; [done|]. apply Hlt; lia.
  - rewrite (proj2 (Z.leb_gt _ _)) by lia. apply Hlt; lia.
Qed.

Definition durations (ops : list metric_op) : list Z :=
  omap (fun op => match op with MDuration nanos => Some nanos | _ => None end) ops.

Definition within (i : nat) (ds : list Z) : list Z := filter (fun nanos => in_bucket nanos i = true) ds.

Lemma added_duration_count ops : sum_Z (added duration_count_ <$> ops) = Z.of_nat (length (durations ops)).
Proof.
  induction ops as [|op ops IH]; [done|]. rewrite fmap_cons, sum_Z_cons, IH.
  destruct op as [[]| |status|nanos|u]; csimpl; try done; [|lia].
  unfold status_counter. by repeat case_match.
Qed.

Lemma added_bucket i ops :
  sum_Z (added (duration_buckets_ i) <$> ops) = Z.of_nat (length (within i (durations ops))).
Proof.
  induction ops as [|op ops IH]; [done|]. rewrite fmap_cons, sum_Z_cons, IH.
  destruct op as [[]| |status|nanos|u]; try done.
  - csimpl. unfold status_counter. by repeat case_match.
  - cbn [added]. change (durations (MDuration nanos :: ops)) with (nanos :: durations ops).
    unfold within. rewrite filter_cons.
    destruct (in_bucket nanos i); case_decide; rewrite ?length_cons; try congruence; lia.
Qed.

Lemma length_durations ops : (length (durations ops) <= length ops)%nat.
Proof. unfold durations. induction ops as [|[] ops IH]; csimpl; lia. Qed.

Lemma length_within_mono i j ds :
  (i <= j < length buckets_)%nat -> (length (within i ds) <= length (within j ds))%nat.
Proof.
  intros Hij. induction ds as [|d ds IH]; [done|]. unfold within in *. rewrite !filter_cons.
  pose proof (in_bucket_mono d i j Hij). repeat case_decide; csimpl; try lia. tauto.
Qed.

Lemma length_within i ds : (length (within i ds) <= length ds)%nat.
Proof. apply length_filter. Qed.

Lemma within_exact i b ds :
  bucket_nanos !! i = Some b -> Forall (fun d => 0 <= d < 2 ^ 52) ds -> within i ds = filter (fun d => d <= b) ds.
Proof.
  intros Hi Hds. unfold within. induction Hds as [|d ds Hd _ IH]; [done|]. rewrite !filter_cons, IH.
  rewrite (in_bucket_exact d i b Hd Hi). pose proof (Z.leb_le d b). repeat case_decide; tauto.
Qed.

(** ** Lemmas: the constructor *)

Lemma MetricsRegistry_new_ok pool :
  MetricsRegistry_new pool = Ok (mkMetrics (fun _ => 0)
    ((fun b => mkUpstreamMetrics (endpoint_label (be_endpoint b)) 0) <$> backends_ pool)).
Proof.
  unfold MetricsRegistry_new, pool_size. rewrite Nat2Z.id.
  assert (result_map (fun index => let* e := pool_endpoint pool (Z.of_nat index) in
      Ok (mkUpstreamMetrics (endpoint_label e) 0)) (seq 0 (length (backends_ pool))) =
    Ok ((fun b => mkUpstreamMetrics (endpoint_label (be_endpoint b)) 0) <$> backends_ pool)) as ->; [|done].
  apply result_map_ok_Forall2, Forall2_same_length_lookup_2; [by rewrite length_fmap, length_seq|].
  intros i x y Hx Hy. apply lookup_seq in Hx as [-> Hi]. rewrite Nat.add_0_l.
  rewrite list_lookup_fmap in Hy. destruct (backends_ pool !! i) as [b|] eqn:Hb; [|done]. simplify_eq/=.
  unfold pool_endpoint, backend_at, pool_size.
  rewrite (proj2 (Z.ltb_lt _ _)) by lia. by rewrite Nat2Z.id, Hb.
Qed.

(** Two endpoints have the same label only when they are the same endpoint: the port is
    what follows the last colon. *)
Lemma endpoint_label_inj e e' :
  0 <= port e -> 0 <= port e' -> endpoint_label e = endpoint_label e' -> e = e'.
Proof.
  intros Hp Hp' Heq. unfold endpoint_label in Heq.
  pose proof (to_string_no_char (port e) _ digit_not_colon) as Hn.
  pose proof (to_string_no_char (port e') _ digit_not_colon) as Hn'.
  pose proof (sv_rfind_app _ (host e) _ Hn) as Hr. pose proof (sv_rfind_app _ (host e') _ Hn') as Hr'.
  change (host e +:+ ":" +:+ to_string (port e)) with (host e +:+ String ":" (to_string (port e))) in Heq.
  change (host e' +:+ ":" +:+ to_string (port e')) with (host e' +:+ String ":" (to_string (port e'))) in Heq.
  rewrite Heq, Hr' in Hr. injection Hr as Hlen.
  assert (host e = host e') as Hh.
  { rewrite <- (str_take_app (host e) (String ":" (to_string (port e)))), <- Hlen, Heq. apply str_take_app. }
  rewrite Hh in Heq.
  assert (to_string (port e) = to_string (port e')) as Hs.
  { apply (f_equal (str_drop (String.length (host e') + 1))) in Heq. by rewrite !str_drop_app in Heq. }
  destruct e as [h p], e' as [h' p']; simpl in *. apply to_string_inj in Hs; congruence.
Qed.

(** ** Lemmas: reading the exposition back

    [samples] is what the exposition says: the name of each series and the text of its
    value.  [sample] is how a scraper reads one: it cuts the text into lines, a line at
    its last space, and looks for the name. *)

Definition upstream_samples (pool : UpstreamPool) (i : nat) (u : UpstreamMetrics) : list (string * string) :=
  [(series "eventedge_upstream_selections_total" "upstream" (label u), to_string (selections u));
   (series "eventedge_upstream_healthy" "upstream" (label u), to_string (if healthy_at pool i then 1 else 0))].

Definition fixed_samples (m : MetricsRegistry) : list (string * string) :=
  ((fun nc => (nc.1, to_string (count_of m nc.2))) <$> counter_names) ++
  imap (fun i b => (series "eventedge_request_duration_seconds_bucket" "le" b,
                    to_string (count_of m (duration_buckets_ i)))) bucket_labels ++
  [(series "eventedge_request_duration_seconds_bucket" "le" "+Inf", to_string (count_of m duration_count_));
   ("eventedge_request_duration_seconds_count", to_string (count_of m duration_count_));
   ("eventedge_request_duration_seconds_sum",
    format_g12 (double_div (double_of_Z (count_of m duration_sum_nanos_)) (double_of_Z nanos_per_second)))].

Definition samples (m : MetricsRegistry) (pool : UpstreamPool) : list (string * string) :=
  fixed_samples m ++ concat (imap (upstream_samples pool) (upstreams_ m)).

Definition header_sample : string * string := ("# TYPE eventedge_requests_total", "counter").

Definition sample_line (s : string * string) : string := s.1 +:+ " " +:+ s.2.

Definition cut_line (l : string) : option (string * string) :=
  i ← sv_rfind " " l; Some (str_take i l, str_drop (S i) l).

Definition sample (text name : string) : option string :=
  snd <$> head (filter (fun s => s.1 = name) (omap cut_line (str_split "010" text))).

Lemma str_concat_app l1 l2 : str_concat (l1 ++ l2) = str_concat l1 +:+ str_concat l2.
Proof. induction l1 as [|x l1 IH]; [done|]. simpl. by rewrite IH, str_app_assoc. Qed.

Lemma counter_line_sample name v : counter_line name v = sample_line (name, to_string v) +:+ newline.
Proof. unfold counter_line, sample_line. simpl. by rewrite <- !str_app_assoc. Qed.

Lemma split_lines (ls : list string) rest :
  Forall (fun l => "010"%char ∉ str_chars l) ls ->
  str_split "010" (str_concat ((fun l => l +:+ newline) <$> ls) +:+ rest) = ls ++ str_split "010" rest.
Proof.
  induction 1 as [|l ls Hl _ IH]; [done|]. csimpl.
  rewrite <- !str_app_assoc. change (newline +:+ ?x) with (String "010" x).
  rewrite str_split_cut by done. by rewrite IH.
Qed.

Lemma cut_sample_line s : " "%char ∉ str_chars s.2 -> cut_line (sample_line s) = Some s.
Proof.
  destruct s as [n v]. intros Hv. unfold cut_line, sample_line.
  change ((n, v).1 +:+ " " +:+ (n, v).2) with (n +:+ String " " v).
  rewrite sv_rfind_app by done. cbn [option_bind mbind]. rewrite str_take_app. do 2 f_equal.
  rewrite <- Nat.add_1_r. by rewrite str_drop_app.
Qed.

Definition line_ok (s : string * string) : Prop :=
  ("010"%char ∉ str_chars (sample_line s)) /\ (" "%char ∉ str_chars s.2).

Definition lines_text (ss : list (string * string)) : string := str_concat ((fun s => sample_line s +:+ newline) <$> ss).

Lemma lines_text_app ss1 ss2 : lines_text (ss1 ++ ss2) = lines_text ss1 +:+ lines_text ss2.
Proof. unfold lines_text. by rewrite fmap_app, str_concat_app. Qed.

(** A scraper reads the first line with the name, whatever comes after it. *)
Lemma sample_first ss n v rest :
  Forall line_ok (ss ++ [(n, v)]) -> n ∉ fst <$> ss -> sample (lines_text (ss ++ [(n, v)]) +:+ rest) n = Some v.
Proof.
  intros Hss Hn. unfold sample, lines_text.
  replace ((fun s => sample_line s +:+ newline) <$> (ss ++ [(n, v)]))
    with ((fun l => l +:+ newline) <$> (sample_line <$> (ss ++ [(n, v)]))) by (by rewrite <- list_fmap_compose).
  rewrite split_lines by (rewrite Forall_fmap; eapply Forall_impl; [done|]; by intros s [? ?]).
  assert (omap cut_line ((sample_line <$> (ss ++ [(n, v)])) ++ str_split "010" rest) =
    (ss ++ [(n, v)]) ++ omap cut_line (str_split "010" rest)) as ->.
  { clear Hn. induction Hss as [|s ss' [_ Hs] _ IH]; [done|]. csimpl. by rewrite cut_sample_line, IH. }
  rewrite <- app_assoc, list.filter_app, (filter_none _ ss); [cbn [app]; by rewrite filter_cons_True|].
  intros s Hs <-. apply Hn. by apply list_elem_of_fmap_2.
Qed.

(** Every byte of a printed number is one of these. *)
Definition number_chars (s : string) : Prop :=
  Forall (fun a => is_Some (digit a) \/ a ∈ ["."; "e"; "-"; "+"]%char) (str_chars s).

Lemma number_chars_app s t : number_chars s -> number_chars t -> number_chars (s +:+ t).
Proof. unfold number_chars. rewrite str_chars_app. by apply Forall_app_2. Qed.

Lemma number_chars_take n s : number_chars s -> number_chars (str_take n s).
Proof.
  unfold number_chars. revert n. induction s as [|a s IH]; intros [|n] H; simpl in *; try constructor.
  - by inversion H.
  - apply IH. by inversion H.
Qed.

Lemma number_chars_drop n s : number_chars s -> number_chars (str_drop n s).
Proof.
  unfold number_chars. revert n. induction s as [|a s IH]; intros [|n] H; simpl in *; try done.
  apply IH. by inversion H.
Qed.

Lemma number_chars_to_string z : number_chars (to_string z).
Proof. eapply Forall_impl; [apply to_string_digits|]. by left. Qed.

Lemma number_chars_const s :
  bool_decide (Forall (fun a => a ∈ ["0"; "."; "e"; "-"; "+"]%char) (str_chars s)) = true -> number_chars s.
Proof.
  intros H%bool_decide_eq_true. eapply Forall_impl; [done|]. intros a [->|Ha]%elem_of_cons; [|by right].
  left. vm_compute. eauto.
Qed.

Lemma number_chars_zeros n : number_chars (zeros n).
Proof.
  unfold number_chars. induction n; simpl; constructor; [|done]. left. vm_compute. eauto.
Qed.

Lemma number_chars_trim s : number_chars s -> number_chars (str_trim_right ["0"%char] s).
Proof.
  unfold number_chars. induction s as [|a s IH]; intros H; simpl in *; [done|]. inversion H; subst.
  specialize (IH ltac:(done)). destruct (str_trim_right ["0"%char] s); [case_match|]; simpl; try constructor; done.
Qed.

#[local] Hint Resolve number_chars_app number_chars_take number_chars_drop number_chars_to_string
  number_chars_zeros number_chars_trim : ee.
#[local] Hint Extern 1 (number_chars _) => apply number_chars_const; reflexivity : ee.

Lemma number_chars_fraction a f : number_chars a -> number_chars f -> number_chars (with_fraction a f).
Proof.
  intros Ha Hf%number_chars_trim. unfold with_fraction. destruct (str_trim_right ["0"%char] f); [done|].
  auto with ee.
Qed.

#[local] Hint Resolve number_chars_fraction : ee.

Lemma number_chars_g12 x : number_chars (format_g12 x).
Proof.
  unfold format_g12, two_digits. repeat case_match; auto 10 with ee.
Qed.

Lemma number_chars_no a s : digit a = None -> a ∉ ["."; "e"; "-"; "+"]%char -> number_chars s -> a ∉ str_chars s.
Proof.
  intros Hd Hn Hs Hin. unfold number_chars in Hs. rewrite Forall_forall in Hs.
  destruct (Hs a Hin) as [[? ?]|?]; congruence.
Qed.

Lemma number_sample_ok n v :
  "010"%char ∉ str_chars n -> number_chars v -> line_ok (n, v).
Proof.
  intros Hn Hv. split.
  - unfold sample_line. cbn [fst snd]. rewrite !str_chars_app, !not_elem_of_app. repeat split; [done| |].
    + by apply (bool_decide_unpack _).
    + apply number_chars_no; [done|by apply (bool_decide_unpack _)|done].
  - apply number_chars_no; [done|by apply (bool_decide_unpack _)|done].
Qed.

(** [render] is the header and the samples, a line each. *)
Lemma render_counters_lines m :
  render_counters m = str_concat ((fun s => sample_line s +:+ newline) <$>
    ((fun nc => (nc.1, to_string (count_of m nc.2))) <$> counter_names)).
Proof.
  done.
Qed.

Lemma render_durations_lines m :
  render_durations m = str_concat ((fun s => sample_line s +:+ newline) <$>
    (imap (fun i b => (series "eventedge_request_duration_seconds_bucket" "le" b,
                       to_string (count_of m (duration_buckets_ i)))) bucket_labels ++
     [(series "eventedge_request_duration_seconds_bucket" "le" "+Inf", to_string (count_of m duration_count_));
      ("eventedge_request_duration_seconds_count", to_string (count_of m duration_count_));
      ("eventedge_request_duration_seconds_sum",
       format_g12 (double_div (double_of_Z (count_of m duration_sum_nanos_)) (double_of_Z nanos_per_second)))])).
Proof.
  unfold render_durations. rewrite fmap_app, str_concat_app. apply (f_equal2 String.append).
  - rewrite fmap_imap. f_equal.
  - cbn [fmap list_fmap str_concat foldr]. rewrite <- !counter_line_sample, str_app_nil_r. done.
Qed.

Lemma render_upstreams_lines pool k us :
  (k + length us <= length (backends_ pool))%nat ->
  result_map (fun iu => render_upstream pool iu.1 iu.2) (imap (fun j u => ((k + j)%nat, u)) us) =
  Ok (imap (fun j u => str_concat ((fun s => sample_line s +:+ newline) <$> upstream_samples pool (k + j)%nat u)) us).
Proof.
  revert k. induction us as [|u us IH]; intros k Hk; [done|]. csimpl in *. rewrite Nat.add_0_r.
  unfold render_upstream at 1. cbn [fst snd]. rewrite healthy_at_is_healthy by lia. cbn [result_bind].
  rewrite (imap_ext _ (fun j u => ((S k + j)%nat, u))) by (intros; simpl; f_equal; lia).
  rewrite (imap_ext (_ ∘ S) (fun j u => str_concat ((fun s => sample_line s +:+ newline) <$> upstream_samples pool (S k + j)%nat u)))
    by (intros j x _; cbn [compose]; by rewrite Nat.add_succ_comm).
  rewrite IH by lia. cbn [result_bind]. do 2 f_equal.
  by rewrite !counter_line_sample, str_app_nil_r.
Qed.

Lemma concat_upstreams_lines pool us :
  str_concat (imap (fun j u => str_concat ((fun s => sample_line s +:+ newline) <$> upstream_samples pool j u)) us) =
  str_concat ((fun s => sample_line s +:+ newline) <$> concat (imap (upstream_samples pool) us)).
Proof.
  generalize (upstream_samples pool) as f. induction us as [|u us IH]; intros f; [done|]. csimpl.
  rewrite fmap_app, str_concat_app. f_equal. apply (IH (f ∘ S)).
Qed.

Lemma render_lines m pool :
  (length (upstreams_ m) <= length (backends_ pool))%nat ->
  render m pool = Ok (lines_text (header_sample :: samples m pool)).
Proof.
  intros Hlen. unfold render.
  change (imap pair (upstreams_ m)) with (imap (fun j u => ((0 + j)%nat, u)) (upstreams_ m)).
  rewrite render_upstreams_lines by done. cbn [result_bind]. f_equal.
  rewrite render_counters_lines, render_durations_lines. change (0 + ?j)%nat with j.
  rewrite concat_upstreams_lines. unfold lines_text, samples, fixed_samples. rewrite fmap_cons. cbn [str_concat foldr].
  fold (str_concat). rewrite !fmap_app, !str_concat_app, <- !str_app_assoc. done.
Qed.

Lemma fixed_names m m' : fst <$> fixed_samples m = fst <$> fixed_samples m'.
Proof. unfold fixed_samples. by rewrite !fmap_app, <- !list_fmap_compose, !fmap_imap. Qed.

Definition is_upstream_name (n : string) : bool :=
  String.prefix "eventedge_upstream_selections_total{" n || String.prefix "eventedge_upstream_healthy{" n.

Definition zero_metrics : MetricsRegistry := mkMetrics (fun _ => 0) [].

Lemma fixed_names_ok m :
  NoDup (fst <$> (header_sample :: fixed_samples m)) /\
  Forall (fun s => is_upstream_name s.1 = false /\ "010"%char ∉ str_chars s.1) (header_sample :: fixed_samples m).
Proof.
  enough (NoDup (fst <$> (header_sample :: fixed_samples m)) /\
    Forall (fun n => is_upstream_name n = false /\ "010"%char ∉ str_chars n) (fst <$> (header_sample :: fixed_samples m)))
    as [H1 H2]; [split; [done|by rewrite Forall_fmap in H2]|].
  rewrite !fmap_cons, (fixed_names m zero_metrics).
  split; apply (bool_decide_unpack _); vm_compute; exact I.
Qed.

Lemma str_app_inv_l a b c : (a +:+ b) = (a +:+ c) -> b = c.
Proof. induction a as [|x a IH]; [done|]. rewrite !str_app_cons. intros [= H]. auto. Qed.

Lemma str_app_inv_r a b c : (a +:+ c) = (b +:+ c) -> a = b.
Proof.
  intros H. pose proof (f_equal String.length H) as Hl. rewrite !str_length_app in Hl.
  assert (String.length a = String.length b) as Hab by lia.
  rewrite <- (str_take_app a c), <- (str_take_app b c), H. by rewrite Hab.
Qed.

Lemma series_inj n k v v' : series n k v = series n k v' -> v = v'.
Proof. unfold series. intros H. do 5 apply str_app_inv_l in H. by apply str_app_inv_r in H. Qed.

Definition upstream_names (l : string) : list string :=
  [series "eventedge_upstream_selections_total" "upstream" l; series "eventedge_upstream_healthy" "upstream" l].

Lemma upstream_names_ok l :
  Forall (fun n => is_upstream_name n = true /\ ("010"%char ∉ str_chars l -> "010"%char ∉ str_chars n)) (upstream_names l).
Proof.
  assert (forall n k, ("010"%char ∉ str_chars (n +:+ k)) -> ("010"%char ∉ str_chars l) ->
    "010"%char ∉ str_chars (n +:+ k +:+ l +:+ dquote +:+ "}")) as Hno.
  { intros n k. rewrite !str_chars_app, !not_elem_of_app. intros [? ?]. repeat split; try done.
    all: by apply (bool_decide_unpack _). }
  repeat constructor.
  - apply (Hno "eventedge_upstream_selections_total{upstream=" dquote). by apply (bool_decide_unpack _).
  - apply (Hno "eventedge_upstream_healthy{upstream=" dquote). by apply (bool_decide_unpack _).
Qed.

Definition upstream_name_list (us : list UpstreamMetrics) : list string := us ≫= (fun u => upstream_names (label u)).

Lemma upstream_sample_names pool us : fst <$> concat (imap (upstream_samples pool) us) = upstream_name_list us.
Proof.
  unfold upstream_name_list. assert (forall i u, fst <$> upstream_samples pool i u = upstream_names (label u)) as Hf by done.
  revert Hf. generalize (upstream_samples pool) as f. induction us as [|u us IH]; intros f Hf; [done|].
  cbn [imap concat]. rewrite fmap_app, Hf, bind_cons. f_equal. apply IH. intros i v. apply Hf.
Qed.

Lemma upstream_names_inj l l' n : n ∈ upstream_names l -> n ∈ upstream_names l' -> l = l'.
Proof.
  unfold upstream_names. rewrite !elem_of_cons, !elem_of_nil.
  intros [->|[->|[]]] [Heq|[Heq|[]]]; try discriminate Heq; by apply series_inj in Heq.
Qed.

Lemma fixed_values m : Forall (fun s => number_chars s.2) (fixed_samples m).
Proof.
  unfold fixed_samples. rewrite !Forall_app, Forall_fmap. split; [|split].
  - apply Forall_true. intros [n c]. apply number_chars_to_string.
  - apply Forall_lookup_2. intros i x. rewrite list_lookup_imap. intros (b & _ & ->)%fmap_Some_1.
    apply number_chars_to_string.
  - repeat constructor; try apply number_chars_to_string. apply number_chars_g12.
Qed.

Lemma upstream_values pool us : Forall (fun s => number_chars s.2) (concat (imap (upstream_samples pool) us)).
Proof.
  apply Forall_concat, Forall_lookup_2. intros i x. rewrite list_lookup_imap. intros (b & _ & ->)%fmap_Some_1.
  repeat constructor; apply number_chars_to_string.
Qed.

(** The series before the backends: each is read back, whatever its value and whatever
    follows.  [ss] has the names of the exposition, in order. *)
Lemma sample_fixed ss n v rest :
  fst <$> ss = fst <$> fixed_samples zero_metrics -> Forall (fun s => number_chars s.2) ss -> (n, v) ∈ ss ->
  sample (lines_text (header_sample :: ss) +:+ rest) n = Some v.
Proof.
  intros Hnames Hvals Hin. destruct (fixed_names_ok zero_metrics) as [Hnd Hok].
  assert (NoDup (fst <$> (header_sample :: ss))) as Hnd' by (by rewrite fmap_cons, Hnames).
  assert (Forall line_ok (header_sample :: ss)) as Hlines.
  { constructor; [split; by apply (bool_decide_unpack _)|]. apply Forall_cons in Hok as [_ Hok].
    apply (Forall_fmap fst (fun n => is_upstream_name n = false /\ "010"%char ∉ str_chars n)) in Hok.
    rewrite <- Hnames, Forall_fmap in Hok. rewrite Forall_forall in *. intros [n' v'] Hs. apply number_sample_ok.
    - by apply (Hok _ Hs).
    - by apply (Hvals _ Hs). }
  destruct (list_elem_of_split (header_sample :: ss) (n, v)) as (l1 & l2 & Heq); [by right|].
  rewrite Heq in Hnd', Hlines |- *. rewrite (cons_middle _ l1 l2), app_assoc in Hlines |- *.
  rewrite lines_text_app, <- str_app_assoc. apply sample_first; [by apply Forall_app in Hlines as [? _]|].
  rewrite fmap_app, fmap_cons, NoDup_app in Hnd'. destruct Hnd' as (_ & Hn & _). intros Hin1. apply (Hn n Hin1). left.
Qed.

Lemma exposition_lines_ok m pool us :
  Forall (fun u => "010"%char ∉ str_chars (label u)) us ->
  Forall line_ok ((header_sample :: fixed_samples m) ++ concat (imap (upstream_samples pool) us)).
Proof.
  intros Hnl. destruct (fixed_names_ok m) as [_ H4]. apply Forall_cons in H4 as [_ H4].
  assert (Forall (fun n => "010"%char ∉ str_chars n) (upstream_name_list us)) as H2.
  { apply Forall_forall. intros n (u & Hn & Hu)%list_elem_of_bind. pose proof (upstream_names_ok (label u)) as Hup.
    rewrite Forall_forall in Hup. rewrite Forall_forall in Hnl. apply (Hup _ Hn). by apply Hnl. }
  rewrite <- (upstream_sample_names pool), Forall_fmap in H2.
  pose proof (fixed_values m) as H5. pose proof (upstream_values pool us) as H6.
  constructor; [split; by apply (bool_decide_unpack _)|].
  apply Forall_app_2; rewrite Forall_forall in *; intros [n v] Hs; apply number_sample_ok.
  - by apply (H4 _ Hs).
  - by apply (H5 _ Hs).
  - by apply (H2 _ Hs).
  - by apply (H6 _ Hs).
Qed.

Lemma concat_imap_middle {A B} (f : nat -> A -> list B) us i u :
  us !! i = Some u -> exists rest, concat (imap f us) = concat (imap f (take i us)) ++ f i u ++ rest.
Proof.
  revert f i. induction us as [|u' us IH]; intros f [|i] Hu; simplify_eq/=.
  - by eexists.
  - destruct (IH (f ∘ S) i Hu) as [rest ->]. exists rest. by rewrite <- app_assoc.
Qed.

(** The series of a backend, when no earlier one has its label. *)
Lemma sample_upstream m pool i u n v :
  upstreams_ m !! i = Some u -> (n, v) ∈ upstream_samples pool i u ->
  (forall j u', (j < i)%nat -> upstreams_ m !! j = Some u' -> label u' <> label u) ->
  Forall (fun u => "010"%char ∉ str_chars (label u)) (take (S i) (upstreams_ m)) ->
  sample (lines_text (header_sample :: samples m pool)) n = Some v.
Proof.
  intros Hu Hin Hfirst Hnl. destruct (fixed_names_ok m) as [_ Hfix]. pose proof (take_S_r _ _ _ Hu) as Htake.
  assert (i < length (upstreams_ m))%nat as Hlt by (by eapply lookup_lt_Some).
  set (pre := header_sample :: fixed_samples m ++ concat (imap (upstream_samples pool) (take i (upstreams_ m)))).
  assert (exists rest, header_sample :: samples m pool = pre ++ upstream_samples pool i u ++ rest) as [rest Hrest].
  { destruct (concat_imap_middle (upstream_samples pool) _ _ _ Hu) as [rest Hrest]. exists rest. unfold samples, pre.
    by rewrite Hrest, <- app_comm_cons, <- !app_assoc. }
  assert (forall x, x ∈ upstream_names (label u) -> x ∉ fst <$> pre) as Hnew.
  { intros x Hx. unfold pre. rewrite app_comm_cons, fmap_app, upstream_sample_names, not_elem_of_app. split.
    - intros (s & -> & Hs)%list_elem_of_fmap. rewrite Forall_forall in Hfix. destruct (Hfix _ Hs) as [Hf _].
      pose proof (upstream_names_ok (label u)) as Hup. rewrite Forall_forall in Hup. destruct (Hup _ Hx). congruence.
    - intros (u' & Hx' & [j Hj]%list_elem_of_lookup)%list_elem_of_bind. apply lookup_take_Some in Hj as [Hj Hji].
      apply (Hfirst j u'); [done|done|]. by apply (upstream_names_inj _ _ x). }
  assert (Forall line_ok (pre ++ upstream_samples pool i u)) as Hok.
  { assert (pre ++ upstream_samples pool i u =
      (header_sample :: fixed_samples m) ++ concat (imap (upstream_samples pool) (take (S i) (upstreams_ m)))) as ->.
    { unfold pre. rewrite Htake, imap_app, concat_app. cbn [imap concat]. rewrite length_take_le, Nat.add_0_r by lia.
      by rewrite app_nil_r, <- !app_comm_cons, <- app_assoc. }
    by apply exposition_lines_ok. }
  rewrite Hrest, app_assoc, lines_text_app. unfold upstream_samples in Hin, Hok |- *.
  apply elem_of_cons in Hin as [[= -> ->]|[[= -> ->]|?%not_elem_of_nil]%elem_of_cons]; [| |done].
  - rewrite (cons_middle _ pre), app_assoc in Hok |- *. rewrite lines_text_app, <- str_app_assoc.
    apply sample_first; [by apply Forall_app in Hok as [? _]|]. apply Hnew. left.
  - change [?x; ?y] with ([x] ++ [y]) in Hok |- *. rewrite app_assoc in Hok |- *. apply sample_first; [done|].
    rewrite fmap_app, not_elem_of_app. split; [apply Hnew; right; left|]. intros [Heq|?%not_elem_of_nil]%elem_of_cons; [|done].
    discriminate Heq.
Qed.

(** ** Theorems *)

(** C26.  Counters lose nothing under concurrency: whatever the order in which the
    atomic additions of a set of calls reach the registry, each counter ends at its
    initial value plus the sum of what the calls add to it, modulo [2^64] (each
    [record_] call one to its own counter, a status 502, 503 or 504 one to its own and
    another status nothing, [proxy_completed] minus one to the gauge [proxy_started]
    increments, a duration one to the count, its nanoseconds to the sum and one to every
    bucket whose bound is not exceeded); making the calls one after another gives the
    same values. *)
Theorem metrics_exact ops acts m c :
  interleaving ops acts -> counters_ok m ->
  count_of (atoms_run acts m) c = wrap64 (count_of m c + sum_Z (added c <$> ops)) /\
  count_of (metrics_run ops m) c = count_of (atoms_run acts m) c /\
  0 <= count_of (atoms_run acts m) c < two64.
Proof.
  intros Hi Hm. rewrite (interleaving_count ops acts) by done. rewrite metrics_run_atoms.
  split; [done|]. split; [by apply interleaving_count; [apply interleaving_calls|]|apply wrap64_range].
Qed.

Definition sample_ops : list metric_op :=
  [MEvent Request; MEvent ProxyStarted; MStatus 502; MDuration 7000000; MProxyCompleted; MDuration 400000; MStatus 200].

Lemma counters_ok_zero us : counters_ok (mkMetrics (fun _ => 0) us).
Proof. intros c. simpl. unfold two64. lia. Qed.

Lemma metrics_exact_witness :
  count_of (atoms_run (rev (sample_ops ≫= atoms_of)) zero_metrics) (duration_buckets_ 2) = 2.
Proof.
  destruct (metrics_exact sample_ops (rev (sample_ops ≫= atoms_of)) zero_metrics (duration_buckets_ 2)) as [H _].
  - unfold interleaving. symmetry. apply Permutation_rev.
  - apply counters_ok_zero.
  - rewrite H. vm_compute. reflexivity.
Defined.

(** C36.  The duration histogram is a cumulative histogram, and exact: from a fresh registry
    and under every interleaving, if all durations are below [2^52] nanoseconds (52 days),
    bucket [i] holds exactly the number of durations that are at most its bound, to the
    nanosecond, although the code divides by [1e9] and compares in floating point.
    Whatever the durations, later buckets hold at least as much as earlier ones, and no
    bucket exceeds the [+Inf] count, which is the number of durations observed. *)
Theorem histogram_cumulative pool ops acts m :
  MetricsRegistry_new pool = Ok m -> interleaving ops acts -> Z.of_nat (length ops) < two64 ->
  let m' := atoms_run acts m in
  count_of m' duration_count_ = Z.of_nat (length (durations ops)) /\
  (Forall (fun d => 0 <= d < 2 ^ 52) (durations ops) -> forall i b, bucket_nanos !! i = Some b ->
     count_of m' (duration_buckets_ i) = Z.of_nat (length (filter (fun d => d <= b) (durations ops)))) /\
  (forall i j, (i <= j < length buckets_)%nat ->
     count_of m' (duration_buckets_ i) <= count_of m' (duration_buckets_ j)) /\
  (forall i, count_of m' (duration_buckets_ i) <= count_of m' duration_count_).
Proof.
  rewrite MetricsRegistry_new_ok. intros [= <-] Hi Hlen m'.
  pose proof (length_durations ops) as Hd.
  assert (count_of m' duration_count_ = Z.of_nat (length (durations ops))) as Hcount.
  { unfold m'. rewrite (interleaving_count ops) by (done || apply counters_ok_zero). simpl.
    rewrite added_duration_count. apply wrap64_small. lia. }
  assert (forall i, count_of m' (duration_buckets_ i) = Z.of_nat (length (within i (durations ops)))) as Hb.
  { intros i. pose proof (length_within i (durations ops)).
    unfold m'. rewrite (interleaving_count ops) by (done || apply counters_ok_zero). simpl.
    rewrite added_bucket. apply wrap64_small. lia. }
  split; [done|]. split; [intros Hds i b Hib; by rewrite Hb, (within_exact i b)|]. split.
  - intros i j Hij. rewrite !Hb. apply inj_le, length_within_mono, Hij.
  - intros i. rewrite Hb, Hcount. apply inj_le, length_within.
Qed.

Lemma histogram_cumulative_witness : exists m, MetricsRegistry_new pool_abc = Ok m /\
  count_of (atoms_run (sample_ops ≫= atoms_of) m) (duration_buckets_ 1) = 1 /\
  count_of (atoms_run (sample_ops ≫= atoms_of) m) (duration_buckets_ 0) <=
  count_of (atoms_run (sample_ops ≫= atoms_of) m) (duration_buckets_ 2).
Proof.
  eexists. split; [apply MetricsRegistry_new_ok|].
  destruct (histogram_cumulative pool_abc sample_ops (sample_ops ≫= atoms_of) _
    (MetricsRegistry_new_ok pool_abc) (interleaving_calls _)) as (_ & Hex & Hmono & _); [vm_compute; reflexivity|].
  assert (Forall (fun d => 0 <= d < 2 ^ 52) (durations sample_ops)) as Hds by (repeat apply Forall_cons_2; [lia|lia|constructor]).
  split; [rewrite (Hex Hds 1%nat 5000000 eq_refl); vm_compute; reflexivity|]. apply Hmono. vm_compute. split; repeat constructor.
Defined.

(** C37.  Selections are credited to the endpoint they name: labels of different
    endpoints differ, so from a fresh registry and under every interleaving, the counter
    of backend [i] is the number of selections recorded with its label, except when an
    earlier backend of the pool is the same endpoint: then that one gets them all and
    this counter stays at zero. *)
Theorem selections_credited pool ops acts m i e :
  MetricsRegistry_new pool = Ok m -> Forall (fun b => 0 <= port (be_endpoint b)) (backends_ pool) ->
  interleaving ops acts -> Z.of_nat (length ops) < two64 ->
  pool_endpoint pool (Z.of_nat i) = Ok e ->
  (forall e', e' ∈ be_endpoint <$> backends_ pool -> endpoint_label e' = endpoint_label e -> e' = e) /\
  upstreams_ (atoms_run acts m) !! i = Some (mkUpstreamMetrics (endpoint_label e)
    (if decide (e ∈ take i (be_endpoint <$> backends_ pool)) then 0
     else selections_of (endpoint_label e) ops)).
Proof.
  rewrite MetricsRegistry_new_ok. intros [= <-] Hports Hi Hlen He.
  assert (exists b, backends_ pool !! i = Some b /\ be_endpoint b = e) as (b & Hb & Hbe).
  { unfold pool_endpoint, backend_at in He. destruct (Z.of_nat i <? pool_size pool); [|done].
    rewrite Nat2Z.id in He. destruct (backends_ pool !! i) as [b|]; [|done]. exists b. by simplify_eq/=. }
  assert (forall e', e' ∈ be_endpoint <$> backends_ pool -> endpoint_label e' = endpoint_label e -> e' = e) as Hinj.
  { rewrite Forall_forall in Hports. intros e' (b' & -> & Hb')%list_elem_of_fmap Hl.
    apply endpoint_label_inj; [by apply Hports| |done]. rewrite <- Hbe. apply Hports.
    by apply (list_elem_of_lookup_2 _ i). }
  split; [done|].
  rewrite (atoms_run_upstream acts _ i (mkUpstreamMetrics (endpoint_label (be_endpoint b)) 0));
    [|simpl; by rewrite list_lookup_fmap, Hb|simpl; unfold two64; lia].
  simpl. rewrite Hbe. do 2 f_equal.
  assert (bumps (endpoint_label e) acts = selections_of (endpoint_label e) ops) as ->.
  { rewrite <- bumps_atoms. unfold bumps. by apply sum_Z_Permutation, fmap_Permutation. }
  rewrite <- list_fmap_compose.
  assert (endpoint_label e ∈ take i (label ∘ (fun b => mkUpstreamMetrics (endpoint_label (be_endpoint b)) 0) <$> backends_ pool) <->
    e ∈ take i (be_endpoint <$> backends_ pool)) as Hiff.
  { rewrite <- !fmap_take. split.
    - intros (b' & Hl & Hb')%list_elem_of_fmap. apply list_elem_of_fmap. exists b'. split; [|done].
      symmetry. apply Hinj; [|done]. apply list_elem_of_fmap_2. by apply (subseteq_take i).
    - intros (b' & -> & Hb')%list_elem_of_fmap. apply list_elem_of_fmap. by exists b'. }
  do 2 case_decide; try tauto. apply wrap64_small.
  unfold selections_of. pose proof (length_filter (fun op => op = MSelection (endpoint_label e)) ops). lia.
Qed.

(** Two backends at the same endpoint: the second is never credited. *)
Lemma selections_credited_witness : exists m pool,
  UpstreamPool_new [mkEndpoint "a" 1; mkEndpoint "a" 1] = Ok pool /\ MetricsRegistry_new pool = Ok m /\
  let ops := [MSelection "a:1"; MSelection "a:1"] in
  upstreams_ (metrics_run ops m) = [mkUpstreamMetrics "a:1" 2; mkUpstreamMetrics "a:1" 0] /\
  upstreams_ (atoms_run (ops ≫= atoms_of) m) !! 1%nat = Some (mkUpstreamMetrics "a:1" 0).
Proof.
  eexists _, _. split; [reflexivity|]. split; [apply MetricsRegistry_new_ok|]. split; [vm_compute; reflexivity|].
  destruct (selections_credited (mkPool [mkBackend (mkEndpoint "a" 1) true; mkBackend (mkEndpoint "a" 1) true] 0)
    [MSelection "a:1"; MSelection "a:1"] ([MSelection "a:1"; MSelection "a:1"] ≫= atoms_of) _ 1%nat (mkEndpoint "a" 1) (MetricsRegistry_new_ok _)) as [_ H].
  - repeat constructor; vm_compute; congruence.
  - apply interleaving_calls.
  - vm_compute. reflexivity.
  - reflexivity.
  - exact H.
Defined.

(** What the exposition says of a series, as a number. *)
Definition sampled (text name : string) (z : Z) : Prop :=
  exists v, sample text name = Some v /\ all_digits v /\ decimal_from 0 v = z.

Lemma sampled_number text name z : sample text name = Some (to_string z) -> 0 <= z -> sampled text name z.
Proof. intros Hs Hz. exists (to_string z). split; [done|]. split; [apply to_string_digits|by apply to_string_value]. Qed.

(** C27.  The exposition can be read back.  For a registry with the labels of the pool,
    [render] does not throw, and a scraper that cuts its text into lines, and a line at its
    last space, and takes the first line with a name, finds under each name the value of the
    counter it stands for: the thirteen plain counters, the eight buckets, the [+Inf] bucket,
    the count, and the sum of the durations in seconds to twelve digits, whatever the
    backends are called.  For a backend it finds its selections and 1 or 0 for its health
    flag, provided that no earlier backend has the same label (a later one with the same
    endpoint has its series under the same name, of which the first counts) and that no
    label up to its own contains a newline. *)
Theorem render_scrape m pool :
  counters_ok m -> Forall (fun u => 0 <= selections u) (upstreams_ m) ->
  label <$> upstreams_ m = (fun b => endpoint_label (be_endpoint b)) <$> backends_ pool ->
  exists text, render m pool = Ok text /\
    (forall name c, (name, c) ∈ counter_names -> sampled text name (count_of m c)) /\
    (forall i b, bucket_labels !! i = Some b ->
       sampled text (series "eventedge_request_duration_seconds_bucket" "le" b) (count_of m (duration_buckets_ i))) /\
    sampled text (series "eventedge_request_duration_seconds_bucket" "le" "+Inf") (count_of m duration_count_) /\
    sampled text "eventedge_request_duration_seconds_count" (count_of m duration_count_) /\
    sample text "eventedge_request_duration_seconds_sum" = Some (format_g12 (seconds_of (count_of m duration_sum_nanos_))) /\
    (forall i u, upstreams_ m !! i = Some u ->
       (forall j u', (j < i)%nat -> upstreams_ m !! j = Some u' -> label u' <> label u) ->
       Forall (fun u => "010"%char ∉ str_chars (label u)) (take (S i) (upstreams_ m)) ->
       sampled text (series "eventedge_upstream_selections_total" "upstream" (label u)) (selections u) /\
       sampled text (series "eventedge_upstream_healthy" "upstream" (label u)) (if healthy_at pool i then 1 else 0)).
Proof.
  intros Hm Hsel Hlab.
  assert (length (upstreams_ m) = length (backends_ pool)) as Hlen
    by (apply (f_equal length) in Hlab; by rewrite !length_fmap in Hlab).
  exists (lines_text (header_sample :: samples m pool)). split; [apply render_lines; lia|].
  assert (forall n v, (n, v) ∈ fixed_samples m -> sample (lines_text (header_sample :: samples m pool)) n = Some v) as Hs.
  { intros n v Hin. unfold samples. rewrite app_comm_cons, lines_text_app.
    apply sample_fixed; [apply fixed_names|apply fixed_values|done]. }
  split; [|split; [|split; [|split; [|split]]]].
  - intros name c Hc. apply sampled_number; [|apply Hm]. apply Hs, elem_of_app. left.
    apply list_elem_of_fmap. by exists (name, c).
  - intros i b Hb. apply sampled_number; [|apply Hm]. apply Hs, elem_of_app. right. apply elem_of_app. left.
    apply (list_elem_of_lookup_2 _ i). by rewrite list_lookup_imap, Hb.
  - apply sampled_number; [|apply Hm]. apply Hs, elem_of_app. right. apply elem_of_app. right. left.
  - apply sampled_number; [|apply Hm]. apply Hs, elem_of_app. right. apply elem_of_app. right. right. left.
  - apply Hs, elem_of_app. right. apply elem_of_app. right. do 2 right. left.
  - intros i u Hu Hfirst Hnl. rewrite Forall_lookup in Hsel.
    pose proof (fun n v Hin => sample_upstream m pool i u n v Hu Hin Hfirst Hnl) as Hup.
    split; apply sampled_number; [apply Hup; left|by eapply Hsel|apply Hup; right; left|by destruct (healthy_at pool i)].
Qed.

Lemma render_scrape_witness : exists m text, MetricsRegistry_new pool_abc = Ok m /\
  render m pool_abc = Ok text /\
  sampled text (series "eventedge_upstream_healthy" "upstream" "backend-b:9002") 0.
Proof.
  destruct (render_scrape (mkMetrics (fun _ => 0)
    ((fun b => mkUpstreamMetrics (endpoint_label (be_endpoint b)) 0) <$> backends_ pool_abc)) pool_abc)
    as (text & Hr & _ & _ & _ & _ & _ & Hu).
  - apply counters_ok_zero.
  - apply (bool_decide_unpack _). vm_compute. exact I.
  - reflexivity.
  - eexists _, text. split; [apply MetricsRegistry_new_ok|]. split; [exact Hr|].
    apply (Hu 1%nat _ eq_refl).
    + intros j u' Hj Hu'. destruct j as [|j]; [injection Hu' as <-; discriminate|lia].
    + apply (bool_decide_unpack _). vm_compute. exact I.
Defined.
