(* ===== verification/MetricsScrape.v ===== *)
(** * Rendering the metrics while they change

    [MetricsRegistry::render] of [src/metrics.cpp] takes no lock: it loads the atomics one
    after another while handlers on other threads go on adding, and the additions are
    [memory_order_relaxed].  What a scraper gets is then not the state of the registry at
    one moment.

    The model is that of the language for relaxed atomics.  The additions performed form
    one list, which for each atomic is its modification order; the additions of a call
    enter it in any order, because nothing orders those to different atomics.  The thread
    that renders has, for each atomic, a view: the point of the list up to which it has
    seen that atomic.  A load picks a point at or after the view (coherence), and the view
    moves there; it may miss additions that have been performed already.

    - [load_order]: the loads of [render], each with the name of the line it is printed in;
    - [scrape]: the calls begun, the additions performed and pending, the views, the lines
      loaded and the loads still to make;
    - [sc_next]: a call begins, an addition takes effect, a load, a synchronisation;
    - [scrape_text]: the text made of the lines loaded; what follows them (the backends) is
      any text.

    The theorem says what holds of the text, as a scraper reads it, however the threads
    interleave; the lemma after it, what does not: the buckets need not be cumulative. *)

From stdpp Require Import base relations strings numbers list.
From S2P Require Import Prelude CppString HttpHandler UpstreamPool Binary64 Metrics.

#[local] Open Scope Z_scope.

(** ** The loads of [render], in order *)

Definition load_order : list (string * counter) :=
  counter_names ++
  imap (fun i b => (series "eventedge_request_duration_seconds_bucket" "le" b, duration_buckets_ i)) bucket_labels ++
  [(series "eventedge_request_duration_seconds_bucket" "le" "+Inf", duration_count_);
   ("eventedge_request_duration_seconds_count", duration_count_);
   ("eventedge_request_duration_seconds_sum", duration_sum_nanos_)].

(** How a value is printed: the sum in seconds, the others as they are. *)
Definition shown (c : counter) (v : Z) : string :=
  match c with
  | duration_sum_nanos_ => format_g12 (double_div (double_of_Z v) (double_of_Z nanos_per_second))
  | _ => to_string v
  end.

(** The line a load is printed in. *)
Definition load_line (l : string * counter * Z) : string := l.1.1 +:+ " " +:+ shown l.1.2 l.2 +:+ newline.

Definition scrape_text (loaded : list (string * counter * Z)) (rest : string) : string :=
  "# TYPE eventedge_requests_total counter" +:+ newline +:+ str_concat (load_line <$> loaded) +:+ rest.

(** The loads when nothing goes on meanwhile. *)
Definition quiet_loads (m : MetricsRegistry) : list (string * counter * Z) := (fun nc => (nc, count_of m nc.2)) <$> load_order.

(** This is then what [render] makes. *)
Lemma render_quiet m pool text :
  render m pool = Ok text -> exists rest, text = scrape_text (quiet_loads m) rest.
Proof.
  unfold render. destruct (result_map _ _) as [us|]; [|done]. cbn [result_bind]. intros [= <-]. exists (str_concat us).
  unfold render_counters, render_durations, scrape_text, quiet_loads, load_order. csimpl.
  unfold load_line, counter_line. cbn [fst snd shown]. rewrite <- !str_app_assoc. done.
Qed.

(** ** A rendering among other calls *)

Record scrape := mkScrape {
  sc_made : MetricsRegistry;          (* the registry as the constructor left it *)
  sc_ops : list metric_op;            (* the calls begun *)
  sc_done : list atom;                (* the additions that have taken effect *)
  sc_pending : list atom;             (* those of the calls begun that have not *)
  sc_view : counter -> nat;           (* what the rendering thread has seen of each atomic *)
  sc_loaded : list (string * counter * Z);   (* the lines and values loaded so far *)
  sc_todo : list (string * counter);  (* the loads still to make *)
}.

(** The registry after the first [i] additions. *)
Definition snapshot (s : scrape) (i : nat) : MetricsRegistry := atoms_run (take i (sc_done s)) (sc_made s).

(** What the rendering thread knows of [c]. *)
Definition seen (s : scrape) (c : counter) : Z := count_of (snapshot s (sc_view s c)) c.

Definition may_see (s : scrape) (c : counter) (i : nat) : bool :=
  ((sc_view s c <=? i) && (i <=? length (sc_done s)))%nat.

Definition move_view (c : counter) (i : nat) (view : counter -> nat) : counter -> nat :=
  fun c' => if decide (c' = c) then i else view c'.

Inductive sc_command :=
| Begin (op : metric_op)              (* a thread calls the registry *)
| Perform (k : nat)                   (* a pending addition takes effect *)
| Load (i : nat)                      (* the next load of the rendering, reading at point [i] *)
| Sync (c : counter) (i : nat).       (* the rendering thread learns of additions otherwise *)

Definition sc_next (cmd : sc_command) (s : scrape) : option scrape :=
  match cmd with
  | Begin op =>
      Some (mkScrape (sc_made s) (sc_ops s ++ [op]) (sc_done s) (sc_pending s ++ atoms_of op)
              (sc_view s) (sc_loaded s) (sc_todo s))
  | Perform k =>
      a ← sc_pending s !! k;
      Some (mkScrape (sc_made s) (sc_ops s) (sc_done s ++ [a]) (delete k (sc_pending s))
              (sc_view s) (sc_loaded s) (sc_todo s))
  | Load i =>
      match sc_todo s with
      | (name, c) :: todo =>
          if may_see s c i then
            Some (mkScrape (sc_made s) (sc_ops s) (sc_done s) (sc_pending s)
                    (move_view c i (sc_view s)) (sc_loaded s ++ [(name, c, count_of (snapshot s i) c)]) todo)
          else None
      | [] => None
      end
  | Sync c i =>
      if may_see s c i then
        Some (mkScrape (sc_made s) (sc_ops s) (sc_done s) (sc_pending s)
                (move_view c i (sc_view s)) (sc_loaded s) (sc_todo s))
      else None
  end.

Definition sc_step (s s' : scrape) : Prop := exists cmd, sc_next cmd s = Some s'.

Definition sc_run (cmds : list sc_command) (s : scrape) : option scrape :=
  foldl (fun acc cmd => s ← acc; sc_next cmd s) (Some s) cmds.

(** A registry as constructed, and a first rendering that has loaded nothing. *)
Definition sc_fresh (s : scrape) : Prop :=
  (exists pool, MetricsRegistry_new pool = Ok (sc_made s)) /\ sc_ops s = [] /\ sc_done s = [] /\ sc_pending s = [] /\
  (forall c, sc_view s c = 0%nat) /\ sc_loaded s = [] /\ sc_todo s = load_order.

(** The next rendering by the same thread (or by one that synchronised with it). *)
Definition again (s : scrape) : scrape :=
  mkScrape (sc_made s) (sc_ops s) (sc_done s) (sc_pending s) (sc_view s) [] load_order.

(** The counters that only grow. *)
Definition grows (c : counter) : Prop := c <> proxy_in_flight_ /\ c <> duration_sum_nanos_.

(** ** Lemmas: the additions to a counter that only grows *)

Lemma atom_added_nonneg c op a : grows c -> a ∈ atoms_of op -> 0 <= atom_added c a.
Proof.
  intros [Hg Hs] Ha. destruct op as [e| |status|nanos|u]; cbn [atoms_of] in Ha.
  - apply list_elem_of_singleton in Ha as ->. simpl. case_decide; lia.
  - apply list_elem_of_singleton in Ha as ->. simpl. by rewrite decide_False.
  - destruct (status_counter status); [|by apply not_elem_of_nil in Ha].
    apply list_elem_of_singleton in Ha as ->. simpl. case_decide; lia.
  - apply elem_of_cons in Ha as [->|Ha]; [simpl; case_decide; lia|].
    apply elem_of_cons in Ha as [->|Ha]; [simpl; by rewrite decide_False|].
    unfold bucket_atoms in Ha. apply list_elem_of_bind in Ha as (ib & Ha & _).
    destruct (double_le _ ib.2); [|by apply not_elem_of_nil in Ha].
    apply list_elem_of_singleton in Ha as ->. simpl. case_decide; lia.
  - apply list_elem_of_singleton in Ha as ->. simpl. lia.
Qed.

Lemma added_bound c op : grows c -> 0 <= added c op <= 1.
Proof.
  intros [Hg Hs]. destruct op as [e| |status|nanos|u]; simpl; try (case_decide; [done || lia|lia]); [|lia].
  destruct c; try lia; [done|]. destruct (in_bucket nanos i); lia.
Qed.

Lemma sum_Z_nonneg l : Forall (fun x => 0 <= x) l -> 0 <= sum_Z l.
Proof. induction 1; rewrite ?sum_Z_cons; [done|lia]. Qed.

Lemma sum_added_bound c ops : grows c -> 0 <= sum_Z (added c <$> ops) <= Z.of_nat (length ops).
Proof.
  intros Hg. induction ops as [|op ops IH]; [done|]. csimpl. rewrite sum_Z_cons.
  pose proof (added_bound c op Hg). lia.
Qed.

(** Some of the additions of the calls add nothing negative. *)
Lemma sum_atoms_nonneg c ops acts :
  grows c -> acts ⊆ ops ≫= atoms_of -> 0 <= sum_Z (atom_added c <$> acts).
Proof.
  intros Hg Hsub. apply sum_Z_nonneg, Forall_fmap, Forall_forall. intros a Ha.
  apply Hsub, list_elem_of_bind in Ha as (op & Ha & _). by eapply atom_added_nonneg.
Qed.

(** ** Lemmas: the state of a rendering *)

Record scrape_ok (s : scrape) : Prop := {
  so_zero : forall c, count_of (sc_made s) c = 0;
  so_calls : interleaving (sc_ops s) (sc_done s ++ sc_pending s);
  so_view : forall c, (sc_view s c <= length (sc_done s))%nat;
}.

Lemma may_see_true s c i : may_see s c i = true <-> (sc_view s c <= i <= length (sc_done s))%nat.
Proof. unfold may_see. rewrite andb_true_iff, !Nat.leb_le. done. Qed.

Lemma scrape_ok_fresh s : sc_fresh s -> scrape_ok s.
Proof.
  intros ([pool Hp] & Hops & Hdone & Hpend & Hview & _). split.
  - rewrite MetricsRegistry_new_ok in Hp. by injection Hp as <-.
  - unfold interleaving. by rewrite Hops, Hdone, Hpend.
  - intros c. rewrite Hview. lia.
Qed.

Lemma scrape_ok_moved s c i (s' : scrape) :
  scrape_ok s -> may_see s c i = true -> sc_made s' = sc_made s -> sc_ops s' = sc_ops s -> sc_done s' = sc_done s ->
  sc_pending s' = sc_pending s -> sc_view s' = move_view c i (sc_view s) -> scrape_ok s'.
Proof.
  intros [Hz Hi Hv] [_ Hle]%may_see_true Hm Ho Hd Hp Hview. split; rewrite ?Hm, ?Ho, ?Hd, ?Hp; [done|done|].
  intros c'. rewrite Hview. unfold move_view. case_decide; [done|apply Hv].
Qed.

(** The list of additions only grows, and so do the views. *)
Record extends (s s' : scrape) : Prop := {
  ex_made : sc_made s' = sc_made s;
  ex_done : sc_done s `prefix_of` sc_done s';
  ex_ops : sc_ops s `prefix_of` sc_ops s';
  ex_view : forall c, (sc_view s c <= sc_view s' c)%nat;
}.

#[export] Instance extends_preorder : PreOrder extends.
Proof.
  split.
  - intros s. by split.
  - intros s1 s2 s3 [H1 H2 H3 H4] [H1' H2' H3' H4'].
    split; [congruence|by etrans|by etrans|]. intros c. etrans; [apply H4|apply H4'].
Qed.

Lemma sc_step_extends s s' : sc_step s s' -> extends s s'.
Proof.
  intros [[op|k|i|c i] Hs]; simpl in Hs.
  - injection Hs as <-. split; simpl; [done|done|apply prefix_app_r|]; done.
  - destruct (sc_pending s !! k) as [a|]; [|done]. injection Hs as <-. split; simpl; [done|by apply prefix_app_r|done|done].
  - destruct (sc_todo s) as [|[name c] todo]; [done|]. destruct (may_see s c i) eqn:Hm; [|done]. injection Hs as <-.
    apply may_see_true in Hm. split; simpl; [done..|]. intros c'. unfold move_view. case_decide; [subst; lia|done].
  - destruct (may_see s c i) eqn:Hm; [|done]. injection Hs as <-.
    apply may_see_true in Hm. split; simpl; [done..|]. intros c'. unfold move_view. case_decide; [subst; lia|done].
Qed.

Lemma scrape_ok_step s s' : scrape_ok s -> sc_step s s' -> scrape_ok s'.
Proof.
  intros Hok [[op|k|i|c i] Hs]; simpl in Hs.
  - injection Hs as <-. destruct Hok as [Hz Hi Hv]. split; simpl; [done| |done].
    unfold interleaving in *. rewrite bind_app, app_assoc, Hi. csimpl. by rewrite app_nil_r.
  - destruct (sc_pending s !! k) as [a|] eqn:Ha; [|done]. injection Hs as <-. destruct Hok as [Hz Hi Hv].
    split; simpl; [done| |intros c; rewrite length_app; specialize (Hv c); lia].
    unfold interleaving in *. rewrite <- Hi, <- app_assoc. f_equiv. symmetry. by apply delete_Permutation.
  - destruct (sc_todo s) as [|[name c] todo]; [done|]. destruct (may_see s c i) eqn:Hm; [|done]. injection Hs as <-.
    by apply (scrape_ok_moved s c i).
  - destruct (may_see s c i) eqn:Hm; [|done]. injection Hs as <-. by apply (scrape_ok_moved s c i).
Qed.

(** ** Lemmas: a counter at a point of the list *)

Section counts.
  Context (s : scrape) (c : counter).
  Context (Hok : scrape_ok s) (Hlen : Z.of_nat (length (sc_ops s)) < two64) (Hg : grows c).

(** The additions after the first [i] add nothing negative. *)
Lemma rest_nonneg i acts :
  take i (sc_done s) ++ acts ⊆ sc_ops s ≫= atoms_of -> 0 <= sum_Z (atom_added c <$> acts).
Proof. intros Hsub. apply (sum_atoms_nonneg c (sc_ops s)); set_solver. Qed.

Lemma performed_bounds i :
  0 <= sum_Z (atom_added c <$> take i (sc_done s)) <= sum_Z (added c <$> sc_ops s).
Proof.
  assert (sum_Z (added c <$> sc_ops s) =
    sum_Z (atom_added c <$> (take i (sc_done s) ++ (drop i (sc_done s) ++ sc_pending s)))) as ->.
  { rewrite app_assoc, take_drop, (sum_Z_Permutation _ _ (fmap_Permutation _ _ _ (so_calls s Hok))), sum_Z_bind.
    apply sum_Z_ext. intros op. by rewrite atoms_of_added. }
  assert (take i (sc_done s) ++ drop i (sc_done s) ++ sc_pending s ⊆ sc_ops s ≫= atoms_of) as Hsub.
  { rewrite app_assoc, take_drop. by rewrite (so_calls s Hok). }
  rewrite fmap_app, sum_Z_app. pose proof (rest_nonneg i _ Hsub).
  split; [apply (sum_atoms_nonneg c (sc_ops s)); [done|set_solver]|lia].
Qed.

Lemma snapshot_count i : count_of (snapshot s i) c = sum_Z (atom_added c <$> take i (sc_done s)).
Proof.
  unfold snapshot. rewrite atoms_run_count by (intros c'; rewrite (so_zero s Hok); done).
  rewrite (so_zero s Hok). pose proof (performed_bounds i). pose proof (sum_added_bound c (sc_ops s) Hg).
  apply wrap64_small. lia.
Qed.

Lemma snapshot_mono i i' : (i <= i')%nat -> count_of (snapshot s i) c <= count_of (snapshot s i') c.
Proof.
  intros Hi. rewrite !snapshot_count. rewrite <- (take_drop i (take i' (sc_done s))), take_take, Nat.min_l by done.
  rewrite fmap_app, sum_Z_app.
  assert (0 <= sum_Z (atom_added c <$> drop i (take i' (sc_done s)))); [|lia].
  apply (sum_atoms_nonneg c (sc_ops s)); [done|]. rewrite <- (so_calls s Hok).
  intros a Ha. apply elem_of_app. left. apply list_elem_of_lookup in Ha as [j Ha]. rewrite lookup_drop in Ha.
  apply lookup_take_Some in Ha as [Ha _]. by eapply list_elem_of_lookup_2.
Qed.

Lemma snapshot_upper i : count_of (snapshot s i) c <= sum_Z (added c <$> sc_ops s).
Proof. rewrite snapshot_count. apply performed_bounds. Qed.
End counts.

(** A point of the list stays what it was. *)
Lemma snapshot_extends s s' i : extends s s' -> (i <= length (sc_done s))%nat -> snapshot s' i = snapshot s i.
Proof. intros [Hm [rest Hd] _ _] Hi. unfold snapshot. by rewrite Hm, Hd, take_app_le. Qed.

(** What has been seen of a counter is never unseen. *)
Lemma seen_extends s s' c :
  scrape_ok s -> scrape_ok s' -> extends s s' -> Z.of_nat (length (sc_ops s')) < two64 -> grows c -> seen s c <= seen s' c.
Proof.
  intros Hok Hok' Hex Hlen Hg. unfold seen. rewrite <- (snapshot_extends s s') by (done || apply Hok).
  apply snapshot_mono; [done..|]. apply Hex.
Qed.

(** ** Lemmas: the loads made since the rendering began *)

(** A rendering that began in [s0]: each load is between what had been seen before it and
    what has been seen since, and two loads of an atomic come in order. *)
Record reading (s0 s : scrape) : Prop := {
  rd_begun : scrape_ok s0;
  rd_ok : scrape_ok s;
  rd_since : extends s0 s;
  rd_todo : (fst <$> sc_loaded s) ++ sc_todo s = load_order;
  rd_values : forall name c v, (name, c, v) ∈ sc_loaded s -> grows c -> seen s0 c <= v <= seen s c;
  rd_order : forall j j' name name' c v v', (j <= j')%nat ->
    sc_loaded s !! j = Some (name, c, v) -> sc_loaded s !! j' = Some (name', c, v') -> grows c -> v <= v';
}.

(** A step that loads nothing. *)
Lemma reading_other s0 s s' :
  reading s0 s -> sc_step s s' -> Z.of_nat (length (sc_ops s')) < two64 ->
  sc_loaded s' = sc_loaded s -> sc_todo s' = sc_todo s -> reading s0 s'.
Proof.
  intros [Hb Hok Hex Ht Hv Ho] Hstep Hlen Hl Htodo. pose proof (scrape_ok_step s s' Hok Hstep) as Hok'.
  pose proof (sc_step_extends s s' Hstep) as Hex'.
  split; rewrite ?Hl, ?Htodo; [done|done|by etrans|done| |done].
  intros name c v Hin Hg. destruct (Hv name c v Hin Hg). pose proof (seen_extends s s' c Hok Hok' Hex' Hlen Hg). lia.
Qed.

Lemma reading_load s0 s i s' :
  reading s0 s -> sc_next (Load i) s = Some s' -> Z.of_nat (length (sc_ops s')) < two64 -> reading s0 s'.
Proof.
  intros [Hb Hok Hex Ht Hv Ho] Hs Hlen. assert (sc_step s s') as Hstep by (by exists (Load i)).
  pose proof (scrape_ok_step s s' Hok Hstep) as Hok'. pose proof (sc_step_extends s s' Hstep) as Hex'.
  simpl in Hs. destruct (sc_todo s) as [|[name c] todo]; [done|]. destruct (may_see s c i) eqn:Hm; [|done].
  apply may_see_true in Hm as [Hlo Hhi]. injection Hs as Hs.
  assert (Z.of_nat (length (sc_ops s)) < two64) as Hlen0 by (by rewrite <- Hs in Hlen).
  assert (grows c -> seen s c <= count_of (snapshot s i) c /\ count_of (snapshot s i) c = seen s' c) as Hnew.
  { intros Hg. split; [by apply snapshot_mono|]. rewrite <- Hs. unfold seen, move_view. simpl. by rewrite decide_True. }
  assert (sc_loaded s' = sc_loaded s ++ [(name, c, count_of (snapshot s i) c)]) as Hload by (by rewrite <- Hs).
  split; [done|done|by etrans| | |]; rewrite Hload.
  - rewrite fmap_app, <- app_assoc, <- Ht, <- Hs. done.
  - intros name' c' v [Hin|Hin%list_elem_of_singleton]%elem_of_app Hg.
    + destruct (Hv name' c' v Hin Hg). pose proof (seen_extends s s' c' Hok Hok' Hex' Hlen Hg). lia.
    + injection Hin as -> -> ->. destruct (Hnew Hg) as [H1 H2].
      pose proof (seen_extends s0 s c Hb Hok Hex Hlen0 Hg). lia.
  - intros j j' n n' c' v v' Hle Hj Hj' Hg.
    apply lookup_app_Some in Hj' as [Hj'|[Hge [Hz Heq]%list_lookup_singleton_Some]].
    + rewrite lookup_app_l in Hj by (apply lookup_lt_Some in Hj'; lia). by apply (Ho j j' n n' c').
    + injection Heq as _ <- <-. destruct (Hnew Hg) as [H1 H2].
      apply lookup_app_Some in Hj as [Hj|[_ [_ Heq]%list_lookup_singleton_Some]]; [|injection Heq; lia].
      apply list_elem_of_lookup_2 in Hj. destruct (Hv _ _ _ Hj Hg). lia.
Qed.

Lemma reading_step s0 s s' :
  reading s0 s -> sc_step s s' -> Z.of_nat (length (sc_ops s')) < two64 -> reading s0 s'.
Proof.
  intros Hr Hstep Hlen. destruct (Hstep) as [[op|k|i|c i] Hs].
  3: by eapply reading_load.
  all: simpl in Hs.
  - apply (reading_other s0 s); [done..|by injection Hs as <-|by injection Hs as <-].
  - destruct (sc_pending s !! k); [|done]. apply (reading_other s0 s); [done..|by injection Hs as <-|by injection Hs as <-].
  - destruct (may_see s c i); [|done]. apply (reading_other s0 s); [done..|by injection Hs as <-|by injection Hs as <-].
Qed.

Lemma reading_run s0 s :
  reading s0 s0 -> rtc sc_step s0 s -> Z.of_nat (length (sc_ops s)) < two64 -> reading s0 s.
Proof.
  intros H0 Hr. revert s Hr. refine (rtc_ind_r (fun s => _ -> reading s0 s) s0 _ _); [done|].
  intros s s' _ Hstep IH Hlen. pose proof (prefix_length _ _ (ex_ops _ _ (sc_step_extends _ _ Hstep))) as Hp.
  eapply reading_step; [apply IH|done|done]. lia.
Qed.

Lemma reading_begins s : scrape_ok s -> sc_loaded s = [] -> sc_todo s = load_order -> reading s s.
Proof.
  intros Hok Hl Ht. split; rewrite ?Hl, ?Ht; try done. intros name c v Hin. by apply not_elem_of_nil in Hin.
Qed.

(** ** Lemmas: the text of a rendering *)

Definition load_sample (l : string * counter * Z) : string * string := (l.1.1, shown l.1.2 l.2).

Lemma scrape_text_lines loaded rest : scrape_text loaded rest = lines_text (header_sample :: (load_sample <$> loaded)) +:+ rest.
Proof.
  unfold scrape_text, lines_text. rewrite fmap_cons. cbn [str_concat foldr]. fold str_concat.
  rewrite <- list_fmap_compose, <- !str_app_assoc. do 4 f_equal. apply list_fmap_ext. intros i [[n c] v] _.
  unfold load_line, compose, sample_line, load_sample. cbn [fst snd]. by rewrite <- !str_app_assoc.
Qed.

Lemma shown_number c v : number_chars (shown c v).
Proof. destruct c; try apply number_chars_to_string. apply number_chars_g12. Qed.

Lemma load_order_names : fst <$> load_order = fst <$> fixed_samples zero_metrics.
Proof. vm_compute. reflexivity. Qed.

(** A scraper finds each line of a rendering that has made its loads. *)
Lemma reading_sample s0 s name c v rest :
  reading s0 s -> sc_todo s = [] -> (name, c, v) ∈ sc_loaded s -> sample (scrape_text (sc_loaded s) rest) name = Some (shown c v).
Proof.
  intros Hr Ht Hin. rewrite scrape_text_lines. apply sample_fixed.
  - rewrite <- load_order_names, <- (rd_todo _ _ Hr), Ht, app_nil_r, <- !list_fmap_compose. done.
  - apply Forall_fmap, Forall_true. intros l. apply shown_number.
  - apply list_elem_of_fmap. by exists (name, c, v).
Qed.

Lemma reading_loaded s0 s name c :
  reading s0 s -> sc_todo s = [] -> (name, c) ∈ load_order -> exists v, (name, c, v) ∈ sc_loaded s.
Proof.
  intros Hr Ht. rewrite <- (rd_todo _ _ Hr), Ht, app_nil_r.
  intros ([[n c'] v] & [= -> ->] & Hin)%list_elem_of_fmap. by exists v.
Qed.

(** What the calls begun add up to, when they are made one after another. *)
Lemma calls_count s c :
  scrape_ok s -> Z.of_nat (length (sc_ops s)) < two64 -> grows c ->
  count_of (metrics_run (sc_ops s) (sc_made s)) c = sum_Z (added c <$> sc_ops s).
Proof.
  intros Hok Hlen Hg. rewrite metrics_run_atoms.
  rewrite (interleaving_count (sc_ops s)); [|apply interleaving_calls|intros c'; rewrite (so_zero s Hok); done].
  rewrite (so_zero s Hok). pose proof (sum_added_bound c (sc_ops s) Hg). apply wrap64_small. lia.
Qed.

(** What a scraper reads for a counter that only grows. *)
Lemma reading_counter s0 s name c rest :
  reading s0 s -> sc_todo s = [] -> Z.of_nat (length (sc_ops s)) < two64 -> (name, c) ∈ load_order -> grows c ->
  exists v, (name, c, v) ∈ sc_loaded s /\ sampled (scrape_text (sc_loaded s) rest) name v /\
    seen s0 c <= v <= seen s c /\ v <= count_of (metrics_run (sc_ops s) (sc_made s)) c.
Proof.
  intros Hr Ht Hlen Hin Hg. destruct (reading_loaded s0 s name c Hr Ht Hin) as [v Hv]. exists v. split; [done|].
  pose proof (rd_values _ _ Hr _ _ _ Hv Hg) as Hb. pose proof (rd_ok _ _ Hr) as Hok. pose proof (rd_begun _ _ Hr) as Hok0.
  assert (0 <= seen s0 c) as H0.
  { assert (Z.of_nat (length (sc_ops s0)) < two64)
      by (pose proof (prefix_length _ _ (ex_ops _ _ (rd_since _ _ Hr))); lia).
    unfold seen. rewrite snapshot_count by done. by apply performed_bounds. }
  split; [|split; [done|]].
  - apply sampled_number; [|lia]. rewrite (reading_sample s0 s name c v) by done.
    destruct Hg as [_ Hs]. by destruct c.
  - rewrite calls_count by done. pose proof (snapshot_upper s c Hok Hlen Hg (sc_view s c)) as Hu. unfold seen in Hb. lia.
Qed.

(** The loads of the count for [+Inf] and for [_count]. *)
Lemma reading_inf s0 s rest :
  reading s0 s -> sc_todo s = [] -> Z.of_nat (length (sc_ops s)) < two64 -> exists inf cnt,
  sampled (scrape_text (sc_loaded s) rest) (series "eventedge_request_duration_seconds_bucket" "le" "+Inf") inf /\
  sampled (scrape_text (sc_loaded s) rest) "eventedge_request_duration_seconds_count" cnt /\ inf <= cnt.
Proof.
  intros Hr Ht Hlen.
  destruct (reading_counter s0 s (series "eventedge_request_duration_seconds_bucket" "le" "+Inf") duration_count_ rest)
    as (inf & Hi & Hinf & _); try done; [by apply (list_elem_of_lookup_2 _ 21%nat)|].
  destruct (reading_counter s0 s "eventedge_request_duration_seconds_count" duration_count_ rest)
    as (cnt & Hc & Hcnt & _); try done; [by apply (list_elem_of_lookup_2 _ 22%nat)|].
  exists inf, cnt. split; [done|]. split; [done|].
  pose proof (rd_todo _ _ Hr) as Horder. rewrite Ht, app_nil_r in Horder.
  assert (forall j name c v, load_order !! j = Some (name, c) -> NoDup (fst <$> load_order) ->
    (name, c, v) ∈ sc_loaded s -> sc_loaded s !! j = Some (name, c, v)) as Hat.
  { intros j name c v Hj Hnd [k Hk]%list_elem_of_lookup_1. assert (load_order !! k = Some (name, c)) as Hk'
      by (by rewrite <- Horder, list_lookup_fmap, Hk).
    rewrite NoDup_alt in Hnd. rewrite (Hnd j k name); [done|by rewrite list_lookup_fmap, Hj|by rewrite list_lookup_fmap, Hk']. }
  assert (NoDup (fst <$> load_order)) as Hnd by (apply (bool_decide_unpack _); vm_compute; exact I).
  eapply (rd_order _ _ Hr 21 22); [lia|apply Hat; [reflexivity|done|exact Hi]|apply Hat; [reflexivity|done|exact Hc]|done].
Qed.

Lemma scrape_ok_run s0 s : scrape_ok s0 -> rtc sc_step s0 s -> scrape_ok s.
Proof. intros Hok Hr. induction Hr; [done|]. eauto using scrape_ok_step. Qed.

Lemma run_extends s s' : rtc sc_step s s' -> extends s s'.
Proof. intros Hr. induction Hr; [reflexivity|]. etrans; [by apply sc_step_extends|done]. Qed.

Lemma scrape_ok_again s : scrape_ok s -> scrape_ok (again s).
Proof. by intros [? ? ?]. Qed.

(** ** What a scrape shows *)


Definition scraped : scrape :=
  mkScrape (mkMetrics (fun _ => 0) ((fun b => mkUpstreamMetrics (endpoint_label (be_endpoint b)) 0) <$> backends_ pool_abc))
    [] [] [] (fun _ => 0%nat) [] load_order.

Lemma scraped_fresh : sc_fresh scraped.
Proof. split; [exists pool_abc; apply MetricsRegistry_new_ok|done]. Qed.

Lemma sc_run_rtc cmds s s' : sc_run cmds s = Some s' -> rtc sc_step s s'.
Proof.
  unfold sc_run. revert s. induction cmds as [|cmd cmds IH]; intros s; csimpl; [by intros [= ->]|].
  destruct (sc_next cmd s) as [s1|] eqn:Hs; [intros Hr; eapply rtc_l; [by exists cmd|by apply IH]|].
  intros Hr. exfalso. clear IH Hs. induction cmds; done.
Qed.

(** A request of 0.4 ms, scraped when its additions to the count, to the sum and to the
    first bucket have taken effect and the others have not. *)
Definition early_scrape : list sc_command :=
  Begin (MEvent Request) :: Begin (MDuration 400000) :: replicate 4 (Perform 0) ++ replicate 24 (Load 4).

Definition final_of (cmds : list sc_command) (s : scrape) : scrape := default s (sc_run cmds s).

Lemma final_of_rtc cmds s : rtc sc_step s (final_of cmds s).
Proof. unfold final_of. destruct (sc_run cmds s) eqn:Hr; [by eapply sc_run_rtc|apply rtc_refl]. Qed.


(** The histogram of a scrape need not be cumulative: a rendering can show one duration of
    at most 0.001 s and none of at most 0.005 s. *)
Lemma scrape_not_cumulative :
  reachable sc_fresh sc_step (final_of early_scrape scraped) /\
  sc_todo (final_of early_scrape scraped) = [] /\
  snd <$> sc_loaded (final_of early_scrape scraped) !! 13%nat = Some 1 /\
  snd <$> sc_loaded (final_of early_scrape scraped) !! 14%nat = Some 0.
Proof.
  split; [exists scraped; split; [apply scraped_fresh|apply final_of_rtc]|].
  split; [vm_compute; reflexivity|]. split; vm_compute; reflexivity.
Qed.
