(* ===== verification/HealthMonitor.v ===== *)
(** * Active health checks

    [include/eventedge/upstream_health_monitor.hpp] and
    [src/upstream_health_monitor.cpp]: the monitor runs rounds of checks, one check per
    backend, on one strand; a check tries to resolve and connect within a timeout, and
    stores its verdict in the pool.

    - [HealthCheck], [check_run], [check_on_timeout], [check_on_resolve],
      [check_on_connect], [check_complete]: the class of one check;
    - [Monitor], [monitor_start], [monitor_stop], [schedule_next_check], [run_checks],
      [on_check_complete]: the class [UpstreamHealthMonitor];
    - [conf]: both together with the operations outstanding at the library.  A handler
      returns the library calls it makes ([ceffect], [meffect]); [hm_event] are the
      completions.  A timer wait completes with an error only after it was cancelled,
      and a cancelled wait may still complete without one, when it had expired before
      ([legal]).  A completed check may have operations outstanding: their completions
      arrive too.
    - The clock, the deadline of each check and the expiry of the round timer are part of
      the state.  The pool, the registry and the clock are shared with the sessions, which
      act in between ([EvSelect], [EvMetric], [EvClock]). *)

From stdpp Require Import base relations strings numbers list.
From S2P Require Import Prelude CppString Beast UpstreamPool HttpHandler Metrics.

#[local] Open Scope Z_scope.

Record HealthCheckOptions := mkHealthOptions {
  interval : Z;                        (* std::chrono::milliseconds *)
  timeout : Z;
}.

Definition default_health_options : HealthCheckOptions := mkHealthOptions 2000 1000.

(** What the checks share: the pool, the registry (which may be null), the lines
    written to [std::cerr], and the steady clock, in nanoseconds. *)
Record world := mkWorld {
  w_pool : UpstreamPool;
  w_metrics : option MetricsRegistry;
  w_log : list string;
  w_now : Z;
}.

(** [expires_after]: when a timer set at [now] to a number of milliseconds expires. *)
Definition expires_after (now millis : Z) : Z := now + millis * 1000000.

(** ** One check *)

Record HealthCheck := mkCheck {
  index_ : Z;
  timeout_ : Z;
  completion_handler_ : option unit;   (* calls [on_check_complete] *)
  completed_ : bool;
}.

Inductive ceffect :=
| CTimerWait (millis : Z)              (* expires_after, then async_wait *)
| CTimerCancel
| CResolve (host service : string)
| CResolverCancel
| CConnect
| CSocketClose
| CHandler.                            (* the completion handler is called *)

#[export] Instance ceffect_eq_dec : EqDecision ceffect.
Proof. solve_decision. Defined.

Definition HealthCheck_new (index timeout : Z) : HealthCheck := mkCheck index timeout (Some tt) false.

Definition check_run (w : world) (c : HealthCheck) : result (list ceffect) :=
  let* e := pool_endpoint (w_pool w) (index_ c) in
  Ok [CTimerWait (timeout_ c); CResolve (host e) (to_string (port e))].

Definition health_log (e : UpstreamEndpoint) (healthy : bool) : string :=
  "Upstream " +:+ host e +:+ ":" +:+ to_string (port e) +:+
  (if healthy then " recovered" else " became unhealthy") +:+ newline.

(** The pool update of [complete], with the metric and the log line of a transition. *)
Definition store_verdict (index : Z) (healthy : bool) (w : world) : result world :=
  let* r := set_healthy index healthy (w_pool w) in
  let (changed, pool) := (r : bool * UpstreamPool) in
  if changed then
    let metrics := record_health_transition <$> w_metrics w in
    let* e := pool_endpoint pool index in
    Ok (mkWorld pool metrics (w_log w ++ [health_log e healthy]) (w_now w))
  else Ok (mkWorld pool (w_metrics w) (w_log w) (w_now w)).

Definition check_complete (healthy : bool) (w : world) (c : HealthCheck)
    : result (world * HealthCheck * list ceffect) :=
  if completed_ c then Ok (w, c, [])
  else
    let* w := store_verdict (index_ c) healthy w in
    match completion_handler_ c with
    | Some _ =>
        Ok (w, mkCheck (index_ c) (timeout_ c) None true, [CTimerCancel; CSocketClose; CHandler])
    | None => Throw bad_function_call
    end.

Definition check_on_timeout (error : bool) (w : world) (c : HealthCheck)
    : result (world * HealthCheck * list ceffect) :=
  if negb error then
    let* r := check_complete false w c in
    let '(w, c, effs) := (r : world * HealthCheck * list ceffect) in
    Ok (w, c, [CResolverCancel; CSocketClose] ++ effs)
  else Ok (w, c, []).

Definition check_on_resolve (error : bool) (w : world) (c : HealthCheck)
    : result (world * HealthCheck * list ceffect) :=
  if completed_ c then Ok (w, c, [])
  else if error then check_complete false w c
  else Ok (w, c, [CConnect]).

Definition check_on_connect (error : bool) (w : world) (c : HealthCheck)
    : result (world * HealthCheck * list ceffect) :=
  check_complete (negb error) w c.

(** ** The monitor *)

Record Monitor := mkMonitor {
  options_ : HealthCheckOptions;
  checks_remaining_ : Z;               (* std::size_t *)
  stopped_ : bool;
}.

Inductive meffect :=
| MExpiresAfter (millis : Z)
| MAsyncWait
| MTimerCancel
| MCheck (c : HealthCheck).            (* a check is made, and its [run] called *)

Definition Monitor_new (options : HealthCheckOptions) : Monitor := mkMonitor options 0 false.

Definition set_remaining (n : Z) (m : Monitor) : Monitor := mkMonitor (options_ m) n (stopped_ m).

Definition schedule_next_check (delay : Z) (m : Monitor) : list meffect :=
  if stopped_ m then [] else [MExpiresAfter delay; MAsyncWait].

Definition monitor_start (m : Monitor) : list meffect := schedule_next_check 0 m.

Definition monitor_stop (m : Monitor) : Monitor * list meffect :=
  (mkMonitor (options_ m) (checks_remaining_ m) true, [MTimerCancel]).

(** The loop runs over [0 .. checks_remaining_ - 1]: a check never completes inside its
    own [run], so the bound does not change meanwhile. *)
Definition run_checks (w : world) (m : Monitor) : Monitor * list meffect :=
  if stopped_ m then (m, [])
  else
    let n := pool_size (w_pool w) in
    (set_remaining n m,
     (fun i => MCheck (HealthCheck_new (Z.of_nat i) (timeout (options_ m)))) <$> seq 0 (Z.to_nat n)).

Definition monitor_on_timer (error : bool) (w : world) (m : Monitor) : Monitor * list meffect :=
  if negb error then run_checks w m else (m, []).

Definition on_check_complete (m : Monitor) : Monitor * list meffect :=
  let m := if 0 <? checks_remaining_ m then set_remaining (sub64 (checks_remaining_ m) 1) m else m in
  if (checks_remaining_ m =? 0) && negb (stopped_ m)
  then (m, schedule_next_check (interval (options_ m)) m)
  else (m, []).

(** ** Both, with what is outstanding at the library *)

(** A check and its outstanding operations; [timer] says whether the wait was cancelled,
    and [deadline] when the timer expires. *)
Record cconf := mkCconf {
  chk : HealthCheck;
  timer : option bool;
  resolving : bool;
  connecting : bool;
  deadline : Z;
}.

Definition check_issue (now : Z) (cc : cconf) (e : ceffect) : cconf :=
  match e with
  | CTimerWait millis => mkCconf (chk cc) (Some false) (resolving cc) (connecting cc) (expires_after now millis)
  | CTimerCancel => mkCconf (chk cc) ((fun _ => true) <$> timer cc) (resolving cc) (connecting cc) (deadline cc)
  | CResolve _ _ => mkCconf (chk cc) (timer cc) true (connecting cc) (deadline cc)
  | CConnect => mkCconf (chk cc) (timer cc) (resolving cc) true (deadline cc)
  | CResolverCancel | CSocketClose | CHandler => cc
  end.

Record conf := mkConf {
  mon : Monitor;
  wld : world;
  waits : list bool;                   (* outstanding waits of [timer_]: cancelled? *)
  checks : list cconf;
  start_called : bool;
  expiry : Z;                          (* when [timer_] expires *)
}.

Definition with_monitor (m : Monitor) (s : conf) : conf := mkConf m (wld s) (waits s) (checks s) (start_called s) (expiry s).

Definition monitor_issue (s : conf) (e : meffect) : result conf :=
  match e with
  | MExpiresAfter millis =>
      Ok (mkConf (mon s) (wld s) ((fun _ => true) <$> waits s) (checks s) (start_called s)
            (expires_after (w_now (wld s)) millis))
  | MTimerCancel => Ok (mkConf (mon s) (wld s) ((fun _ => true) <$> waits s) (checks s) (start_called s) (expiry s))
  | MAsyncWait => Ok (mkConf (mon s) (wld s) (waits s ++ [false]) (checks s) (start_called s) (expiry s))
  | MCheck c =>
      let* effs := check_run (wld s) c in
      Ok (mkConf (mon s) (wld s) (waits s)
            (checks s ++ [foldl (check_issue (w_now (wld s))) (mkCconf c None false false 0) effs])
            (start_called s) (expiry s))
  end.

Fixpoint monitor_issues (effs : list meffect) (s : conf) : result conf :=
  match effs with
  | [] => Ok s
  | e :: effs' => let* s' := monitor_issue s e in monitor_issues effs' s'
  end.

(** Run a handler of the monitor. *)
Definition monitor_do (r : Monitor * list meffect) (s : conf) : result conf :=
  monitor_issues r.2 (with_monitor r.1 s).

Inductive check_event :=
| EvTimer (error : bool)
| EvResolved (error : bool)
| EvConnected (error : bool).

Definition check_dispatch (ev : check_event) : world -> HealthCheck -> result (world * HealthCheck * list ceffect) :=
  match ev with
  | EvTimer error => check_on_timeout error
  | EvResolved error => check_on_resolve error
  | EvConnected error => check_on_connect error
  end.

(** The operation that completes is no longer outstanding. *)
Definition check_taken (ev : check_event) (cc : cconf) : cconf :=
  match ev with
  | EvTimer _ => mkCconf (chk cc) None (resolving cc) (connecting cc) (deadline cc)
  | EvResolved _ => mkCconf (chk cc) (timer cc) false (connecting cc) (deadline cc)
  | EvConnected _ => mkCconf (chk cc) (timer cc) (resolving cc) false (deadline cc)
  end.

Definition check_legal (cc : cconf) (ev : check_event) : Prop :=
  match ev with
  | EvTimer error => exists cancelled, timer cc = Some cancelled /\ (error = true -> cancelled = true)
  | EvResolved _ => resolving cc = true
  | EvConnected _ => connecting cc = true
  end.

(** One completion for one check: its new state, and whether its handler was called. *)
Definition check_next (ev : check_event) (w : world) (cc : cconf) : result (world * cconf * bool) :=
  let* r := check_dispatch ev w (chk cc) in
  let '(w, c, effs) := (r : world * HealthCheck * list ceffect) in
  let cc := check_taken ev cc in
  let cc := foldl (check_issue (w_now w)) (mkCconf c (timer cc) (resolving cc) (connecting cc) (deadline cc)) effs in
  Ok (w, cc, bool_decide (CHandler ∈ effs)).

Inductive hm_event :=
| EvStart
| EvStop
| EvWait (i : nat) (error : bool)
| EvCheck (i : nat) (ev : check_event)
| EvSelect
| EvMetric (op : metric_op)
| EvClock (t : Z).

Definition legal (s : conf) (ev : hm_event) : Prop :=
  match ev with
  | EvStart => start_called s = false
  | EvStop | EvSelect | EvMetric _ => True
  | EvClock t => w_now (wld s) <= t
  | EvWait i error => exists cancelled, waits s !! i = Some cancelled /\ (error = true -> cancelled = true)
  | EvCheck i cev => exists cc, checks s !! i = Some cc /\ check_legal cc cev
  end.

Definition with_world (w : world) (s : conf) : conf := mkConf (mon s) w (waits s) (checks s) (start_called s) (expiry s).
Definition with_checks (ccs : list cconf) (s : conf) : conf := mkConf (mon s) (wld s) (waits s) ccs (start_called s) (expiry s).
Definition with_waits (ws : list bool) (s : conf) : conf := mkConf (mon s) (wld s) ws (checks s) (start_called s) (expiry s).

Definition conf_next (s : conf) (ev : hm_event) : result conf :=
  match ev with
  | EvStart =>
      monitor_issues (monitor_start (mon s)) (mkConf (mon s) (wld s) (waits s) (checks s) true (expiry s))
  | EvStop => monitor_do (monitor_stop (mon s)) s
  | EvWait i error =>
      let s := with_waits (delete i (waits s)) s in
      monitor_do (monitor_on_timer error (wld s) (mon s)) s
  | EvCheck i cev =>
      match checks s !! i with
      | Some cc =>
          let* r := check_next cev (wld s) cc in
          let '(w, cc, called) := (r : world * cconf * bool) in
          let s := with_checks (<[i := cc]> (checks s)) (with_world w s) in
          if called then monitor_do (on_check_complete (mon s)) s else Ok s
      | None => Ok s
      end
  | EvSelect =>
      Ok (with_world (mkWorld (select (w_pool (wld s))).2 (w_metrics (wld s)) (w_log (wld s)) (w_now (wld s))) s)
  | EvMetric op =>
      Ok (with_world (mkWorld (w_pool (wld s)) ((fun m => metric_apply m op) <$> w_metrics (wld s))
                        (w_log (wld s)) (w_now (wld s))) s)
  | EvClock t => Ok (with_world (mkWorld (w_pool (wld s)) (w_metrics (wld s)) (w_log (wld s)) t) s)
  end.

Definition hstep (s s' : conf) : Prop := exists ev, legal s ev /\ conf_next s ev = Ok s'.

Definition conf_new (pool : UpstreamPool) (metrics : option MetricsRegistry) (options : HealthCheckOptions) : conf :=
  mkConf (Monitor_new options) (mkWorld pool metrics [] 0) [] [] false 0.

(** ** The invariant *)

(** The checks that have no verdict yet. *)
Definition live (ccs : list cconf) : list cconf := filter (fun cc => completed_ (chk cc) = false) ccs.

(** A check without a verdict has its handler, its timer running, and exactly one of the
    two other operations outstanding; the timer of a completed one was cancelled. *)
Record check_ok (n : Z) (cc : cconf) : Prop := {
  check_ok_index : 0 <= index_ (chk cc) < n;
  check_ok_live : completed_ (chk cc) = false ->
    completion_handler_ (chk cc) = Some tt /\ timer cc = Some false /\ resolving cc = negb (connecting cc);
  check_ok_done : completed_ (chk cc) = true -> timer cc <> Some false;
}.

Record monitor_inv (s : conf) : Prop := {
  mi_pool : pool_ok (w_pool (wld s));
  mi_checks : Forall (check_ok (pool_size (w_pool (wld s)))) (checks s);
  mi_remaining : checks_remaining_ (mon s) = Z.of_nat (length (live (checks s)));
  mi_indices : NoDup ((fun cc => index_ (chk cc)) <$> live (checks s));
  mi_before : start_called s = false -> waits s = [] /\ checks s = [];
  mi_one : waits s = [] \/ (exists c, waits s = [c] /\ live (checks s) = [] /\ (c = true -> stopped_ (mon s) = true));
  mi_alive : start_called s = true -> stopped_ (mon s) = false -> live (checks s) = [] -> waits s = [false];
}.

(** ** Lemmas: one check *)

Lemma store_verdict_ok i h w :
  0 <= i < pool_size (w_pool w) ->
  exists b, backend_at (w_pool w) i = Ok b /\
    let changed := negb (Bool.eqb (be_healthy b) h) in
    store_verdict i h w = Ok (mkWorld
      (set_backends (<[Z.to_nat i := mkBackend (be_endpoint b) h]> (backends_ (w_pool w))) (w_pool w))
      (if changed then record_health_transition <$> w_metrics w else w_metrics w)
      (if changed then w_log w ++ [health_log (be_endpoint b) h] else w_log w) (w_now w)).
Proof.
  intros [Hi Hlt]. destruct (backend_at_lt _ _ Hi Hlt) as [b Hb]. exists b. split; [done|].
  simpl. unfold store_verdict. rewrite (set_healthy_written _ _ h _ Hb). simpl.
  destruct (negb _); [|done]. unfold pool_endpoint. rewrite backend_at_insert by done.
  by rewrite decide_True.
Qed.

Lemma store_verdict_pool i h w w' :
  0 <= i < pool_size (w_pool w) -> store_verdict i h w = Ok w' -> pool_ok (w_pool w) ->
  pool_ok (w_pool w') /\ pool_size (w_pool w') = pool_size (w_pool w).
Proof.
  intros Hi Hs [Hne Hsz Hnext]. destruct (store_verdict_ok i h w Hi) as (b & _ & Heq). simpl in Heq.
  rewrite Hs in Heq. injection Heq as ->. simpl. unfold pool_size in *. simpl. rewrite length_insert.
  split; [|done]. split; unfold pool_size; simpl; by rewrite length_insert.
Qed.

(** The registry and the clock after a verdict. *)
Lemma store_verdict_rest i h w w' :
  store_verdict i h w = Ok w' ->
  w_now w' = w_now w /\
  (w_metrics w' = w_metrics w \/ w_metrics w' = record_health_transition <$> w_metrics w).
Proof.
  unfold store_verdict. destruct (set_healthy i h (w_pool w)) as [[[] p]|]; simpl; [| |done].
  - destruct (pool_endpoint p i); simpl; [|done]. intros [= <-]. split; [done|by right].
  - intros [= <-]. split; [done|by left].
Qed.

(** The verdict an event leads to, if it decides the check. *)
Definition decides (ev : check_event) : option bool :=
  match ev with
  | EvTimer false | EvResolved true => Some false
  | EvConnected error => Some (negb error)
  | EvTimer true | EvResolved false => None
  end.

(** A completion for a check without a verdict: either it decides the check, which then
    stores the verdict and calls its handler, or it leads to the next operation. *)
Lemma check_next_live n ev w cc :
  check_ok n cc -> n = pool_size (w_pool w) -> completed_ (chk cc) = false -> check_legal cc ev ->
  exists w' cc',
    match decides ev with
    | Some healthy =>
        check_next ev w cc = Ok (w', cc', true) /\ completed_ (chk cc') = true /\
        store_verdict (index_ (chk cc)) healthy w = Ok w'
    | None => check_next ev w cc = Ok (w', cc', false) /\ completed_ (chk cc') = false /\ w' = w /\
        resolving cc' = false /\ connecting cc' = true
    end /\ check_ok n cc' /\ index_ (chk cc') = index_ (chk cc).
Proof.
  intros [Hidx Hlive _] -> Hc Hlegal. destruct (Hlive Hc) as (Hh & Ht & Hop).
  assert (forall h, exists w', store_verdict (index_ (chk cc)) h w = Ok w') as Hsv.
  { intros h. destruct (store_verdict_ok _ h w Hidx) as (b & _ & Hs). eauto. }
  destruct cc as [[i t hd co] tm re cn dl]. simpl in *. subst hd tm re co.
  destruct (Hsv (default false (decides ev))) as [w' Hw'].
  destruct ev as [[]|[]|e]; simpl in Hlegal, Hw'.
  - destruct Hlegal as (c & [= <-] & Hcan). by discriminate Hcan.
  - eexists w', _. cbn [decides]. unfold check_next. simpl. unfold check_on_timeout, check_complete. simpl.
    rewrite Hw'. simpl. repeat (split; simpl; try done; try lia).
  - eexists w', _. cbn [decides]. unfold check_next. simpl. unfold check_on_resolve, check_complete. simpl.
    rewrite Hw'. simpl. repeat (split; simpl; try done; try lia).
  - eexists w, _. cbn [decides]. unfold check_next. simpl. unfold check_on_resolve. simpl.
    repeat (split; simpl; try done; try lia).
  - eexists w', _. cbn [decides]. unfold check_next. simpl. unfold check_on_connect, check_complete. simpl.
    rewrite Hw'. simpl. repeat (split; simpl; try done; try lia).
Qed.

(** A completion for a check that has its verdict changes nothing but the operations
    outstanding. *)
Lemma check_next_done n ev w cc :
  check_ok n cc -> completed_ (chk cc) = true -> check_legal cc ev ->
  exists cc', check_next ev w cc = Ok (w, cc', false) /\ check_ok n cc' /\ chk cc' = chk cc.
Proof.
  intros [Hidx Hlive Hdone] Hc Hlegal. specialize (Hdone Hc).
  destruct cc as [[i t hd co] tm re cn dl]. simpl in *. subst co.
  destruct ev as [[]|e|e]; simpl in Hlegal;
    unfold check_next; simpl; unfold check_on_timeout, check_on_resolve, check_on_connect, check_complete; simpl;
    eexists; (split; [reflexivity|]); (split; [|done]); split; simpl; done.
Qed.

(** ** Lemmas: the monitor *)

Lemma live_app l1 l2 : live (l1 ++ l2) = live l1 ++ live l2.
Proof. apply list.filter_app. Qed.

Lemma live_split ccs i cc :
  ccs !! i = Some cc ->
  live ccs = live (take i ccs) ++ live [cc] ++ live (drop (S i) ccs).
Proof. intros Hi. rewrite <- !live_app. f_equal. symmetry. by apply take_drop_middle. Qed.

Lemma live_insert ccs i cc cc' :
  ccs !! i = Some cc ->
  live (<[i := cc']> ccs) = live (take i ccs) ++ live [cc'] ++ live (drop (S i) ccs).
Proof.
  intros Hi. rewrite (insert_take_drop ccs i cc') by (by eapply lookup_lt_Some).
  change (cc' :: drop (S i) ccs) with ([cc'] ++ drop (S i) ccs). by rewrite !live_app.
Qed.

Lemma live_yes cc : completed_ (chk cc) = false -> live [cc] = [cc].
Proof. intros Hc. unfold live. rewrite filter_cons_True by done. done. Qed.

Lemma live_no cc : completed_ (chk cc) = true -> live [cc] = [].
Proof. intros Hc. unfold live. rewrite filter_cons_False by congruence. done. Qed.

(** A round: one check per backend, each with its timer and its name resolution started. *)
Definition fresh_check (now t : Z) (i : nat) : cconf :=
  mkCconf (HealthCheck_new (Z.of_nat i) t) (Some false) true false (expires_after now t).

Lemma start_checks t s k len :
  (k + len <= length (backends_ (w_pool (wld s))))%nat ->
  monitor_issues ((fun i => MCheck (HealthCheck_new (Z.of_nat i) t)) <$> seq k len) s =
  Ok (with_checks (checks s ++ (fresh_check (w_now (wld s)) t <$> seq k len)) s).
Proof.
  revert k s. induction len as [|len IH]; intros k s Hk; csimpl.
  - rewrite app_nil_r. by destruct s.
  - unfold check_run, pool_endpoint.
    destruct (backend_at_lt (w_pool (wld s)) (index_ (HealthCheck_new (Z.of_nat k) t))) as [b Hb];
      [simpl; lia|unfold pool_size; simpl; lia|].
    rewrite Hb. cbn [result_bind]. rewrite IH by (simpl; lia). simpl. unfold with_checks. simpl.
    by rewrite <- app_assoc.
Qed.

Lemma live_fresh now t ks : live (fresh_check now t <$> ks) = fresh_check now t <$> ks.
Proof. unfold live. apply filter_all. intros cc (i & -> & _)%list_elem_of_fmap. done. Qed.

Lemma fresh_ok now t (n : nat) : Forall (check_ok (Z.of_nat n)) (fresh_check now t <$> seq 0 n).
Proof.
  rewrite Forall_fmap, Forall_forall. intros i Hi%elem_of_seq. split; simpl; [lia|done|done].
Qed.

Lemma fresh_indices now t (n : nat) : NoDup ((fun cc => index_ (chk cc)) <$> (fresh_check now t <$> seq 0 n)).
Proof.
  rewrite <- list_fmap_compose. apply NoDup_fmap_2; [|apply NoDup_seq]. intros i j Hij. simpl in Hij. lia.
Qed.

Lemma inv_select s :
  monitor_inv s ->
  monitor_inv (with_world (mkWorld (select (w_pool (wld s))).2 (w_metrics (wld s)) (w_log (wld s)) (w_now (wld s))) s).
Proof.
  intros [Hp Hc Hr Hi Hb H1 Ha]. split; simpl; try done; [by apply select_ok|].
  unfold pool_size in *. by rewrite select_backends.
Qed.

(** The registry, the log and the clock are not part of the invariant. *)
Lemma inv_world s w : monitor_inv s -> w_pool w = w_pool (wld s) -> monitor_inv (with_world w s).
Proof. intros [Hp Hc Hr Hi Hb H1 Ha] Hw. split; simpl; rewrite ?Hw; done. Qed.

Lemma inv_stop s : monitor_inv s -> exists s', conf_next s EvStop = Ok s' /\ monitor_inv s'.
Proof.
  intros [Hp Hc Hr Hi Hb H1 Ha]. eexists. split; [reflexivity|]. split; simpl; try done.
  - intros Hs. destruct (Hb Hs) as [-> ->]. done.
  - destruct H1 as [->|(c & -> & Hl & _)]; [by left|right]. exists true. done.
Qed.

Lemma inv_start s :
  monitor_inv s -> legal s EvStart -> exists s', conf_next s EvStart = Ok s' /\ monitor_inv s'.
Proof.
  intros [Hp Hc Hr Hi Hb H1 Ha] Hs. destruct (Hb Hs) as [Hw Hcs].
  simpl. unfold monitor_start, schedule_next_check.
  destruct (stopped_ (mon s)) eqn:Hst; simpl; eexists; (split; [reflexivity|]); split; simpl; try done.
  - by left.
  - congruence.
  - rewrite Hw. right. exists false. rewrite Hcs. done.
  - rewrite Hw. done.
Qed.

Lemma inv_wait s i error :
  monitor_inv s -> legal s (EvWait i error) -> exists s', conf_next s (EvWait i error) = Ok s' /\ monitor_inv s'.
Proof.
  intros [Hp Hc Hr Hi Hb H1 Ha] (c & Hw & Herr).
  destruct H1 as [H1|(c' & H1 & Hl & Hst)]; [rewrite H1 in Hw; done|].
  rewrite H1 in Hw. destruct i as [|i]; [|done]. injection Hw as ->.
  assert (start_called s = true) as Hsc by (destruct (start_called s); [done|]; destruct (Hb eq_refl); congruence).
  cbn [conf_next]. rewrite H1. cbn [delete list_delete]. unfold monitor_on_timer, run_checks. cbn [wld mon with_waits].
  destruct error; [|destruct (stopped_ (mon s)) eqn:Hs]; simpl.
  - eexists. split; [reflexivity|]. split; simpl; try done; [congruence|by left|]. rewrite Hst by auto. done.
  - eexists. split; [reflexivity|]. split; simpl; try done; [congruence|by left|congruence].
  - unfold monitor_do. simpl. unfold pool_size. rewrite Nat2Z.id, start_checks by done.
    eexists. split; [reflexivity|]. rewrite Hl in *.
    split; simpl; rewrite ?live_app, ?Hl, ?live_fresh; simpl; try done.
    + apply Forall_app_2; [done|]. apply fresh_ok.
    + by rewrite length_fmap, length_seq.
    + apply fresh_indices.
    + congruence.
    + by left.
    + intros _ _ Hnil. destruct Hp as [Hne _ _]. unfold pool_size in Hne.
      destruct (length (backends_ (w_pool (wld s)))); [lia|done].
Qed.

(** A completion that gives no verdict keeps the live checks, up to their operations. *)
Lemma inv_check_kept s i cc cc' :
  monitor_inv s -> checks s !! i = Some cc -> check_ok (pool_size (w_pool (wld s))) cc' ->
  completed_ (chk cc') = completed_ (chk cc) -> index_ (chk cc') = index_ (chk cc) ->
  monitor_inv (with_checks (<[i := cc']> (checks s)) s).
Proof.
  intros [Hp Hc Hr Hi Hb H1 Ha] Hcc Hok Hco Hidx.
  assert (length (live (<[i := cc']> (checks s))) = length (live (checks s)) /\
    (fun cc => index_ (chk cc)) <$> live (<[i := cc']> (checks s)) =
    (fun cc => index_ (chk cc)) <$> live (checks s)) as [Hlen Hids].
  { rewrite (live_insert _ _ _ cc' Hcc), (live_split _ _ _ Hcc).
    destruct (completed_ (chk cc)) eqn:E; [rewrite !live_no by congruence; done|].
    rewrite !live_yes by congruence. rewrite !length_app, !fmap_app. simpl. by rewrite Hidx. }
  assert (live (<[i := cc']> (checks s)) = [] <-> live (checks s) = []) as Hnil
    by (by rewrite <- !length_zero_iff_nil, Hlen).
  split; simpl; try done.
  - by apply Forall_insert.
  - by rewrite Hlen.
  - by rewrite Hids.
  - intros Hs. destruct (Hb Hs) as [_ Hn]. by rewrite Hn in Hcc.
  - destruct H1 as [?|(c & ? & ? & ?)]; [by left|right]. exists c. by rewrite Hnil.
  - by rewrite Hnil.
Qed.

(** There are at most as many live checks as backends. *)
Lemma live_bound s : monitor_inv s -> Z.of_nat (length (live (checks s))) < two64.
Proof.
  intros [[_ Hsz _] Hc _ Hi _ _ _].
  assert (length (live (checks s)) <= length (backends_ (w_pool (wld s))))%nat.
  { rewrite <- (length_fmap (fun cc => index_ (chk cc))).
    rewrite <- (length_seq (length (backends_ (w_pool (wld s)))) 0), <- (length_fmap Z.of_nat (seq _ _)).
    apply submseteq_length, NoDup_submseteq; [done|]. intros x (c & -> & Hin)%list_elem_of_fmap.
    apply list_elem_of_filter in Hin as [_ Hin]. rewrite Forall_forall in Hc. destruct (Hc _ Hin) as [Hx _ _].
    unfold pool_size in Hx. apply list_elem_of_fmap. exists (Z.to_nat (index_ (chk c))). rewrite elem_of_seq. lia. }
  unfold pool_size, max_backends in Hsz. unfold two64. lia.
Qed.

(** A verdict removes one check from the live ones. *)
Lemma live_verdict ccs i cc cc' :
  ccs !! i = Some cc -> completed_ (chk cc) = false -> completed_ (chk cc') = true ->
  length (live ccs) = S (length (live (<[i := cc']> ccs))) /\
  (NoDup ((fun cc => index_ (chk cc)) <$> live ccs) ->
   NoDup ((fun cc => index_ (chk cc)) <$> live (<[i := cc']> ccs))).
Proof.
  intros Hcc Hlive Hdone. rewrite (live_insert _ _ _ cc' Hcc), (live_split _ _ _ Hcc), live_yes, live_no by done.
  rewrite !length_app. simpl. split; [lia|]. rewrite !fmap_app. simpl.
  rewrite !NoDup_app, NoDup_cons. setoid_rewrite not_elem_of_cons.
  intros (? & Hd & ? & ?). split; [done|]. split; [|done]. intros x Hx. by destruct (Hd x Hx).
Qed.

(** A verdict: one check less to wait for, and the next round is scheduled after the last. *)
Lemma inv_check_verdict s i cc cc' w :
  monitor_inv s -> checks s !! i = Some cc -> completed_ (chk cc) = false ->
  check_ok (pool_size (w_pool (wld s))) cc' -> completed_ (chk cc') = true ->
  pool_ok (w_pool w) -> pool_size (w_pool w) = pool_size (w_pool (wld s)) ->
  let s1 := with_checks (<[i := cc']> (checks s)) (with_world w s) in
  exists s', monitor_do (on_check_complete (mon s1)) s1 = Ok s' /\ monitor_inv s' /\
    checks s' = <[i := cc']> (checks s) /\ wld s' = w /\ stopped_ (mon s') = stopped_ (mon s) /\
    options_ (mon s') = options_ (mon s) /\ start_called s' = true /\
    (waits s' = [false] -> expiry s' = expires_after (w_now w) (interval (options_ (mon s)))) /\
    waits s' = match live (<[i := cc']> (checks s)) with
               | [] => if stopped_ (mon s) then [] else [false]
               | _ => []
               end.
Proof.
  intros Hinv Hcc Hlive Hok Hdone Hpw Hsz s1. pose proof (live_bound s Hinv) as Hbound.
  destruct Hinv as [Hp Hc Hr Hi Hb H1 Ha].
  assert (start_called s = true) as Hsc
    by (destruct (start_called s); [done|]; destruct (Hb eq_refl) as [_ Hn]; by rewrite Hn in Hcc).
  destruct (live_verdict _ _ _ cc' Hcc Hlive Hdone) as [Hlen Hnd]. specialize (Hnd Hi).
  assert (waits s = []) as Hw by (destruct H1 as [?|(c & ? & Hl & ?)]; [done|]; by rewrite Hl in Hlen).
  assert (Forall (check_ok (pool_size (w_pool w))) (<[i := cc']> (checks s))) as Hall
    by (rewrite Hsz; by apply Forall_insert).
  unfold monitor_do, on_check_complete, set_remaining, schedule_next_check. cbn [mon s1 with_checks with_world].
  rewrite Hr, (proj2 (Z.ltb_lt _ _)) by lia. cbn [checks_remaining_ stopped_ options_]. unfold s1.
  generalize dependent (<[i := cc']> (checks s)). intros ccs Hlen Hnd Hall.
  replace (sub64 (Z.of_nat (length (live (checks s)))) 1) with (Z.of_nat (length (live ccs)))
    by (unfold sub64; rewrite wrap64_small; lia).
  destruct (live ccs) as [|c0 l0] eqn:Hl; simpl.
  - destruct (stopped_ (mon s)) eqn:Hst; simpl; eexists; (split; [reflexivity|]);
      (split; [|by simpl; rewrite ?Hw, ?Hsc, ?Hst]); split; simpl; rewrite ?Hl, ?Hw; simpl; try done; try congruence; [by left|right; by exists false].
  - eexists. split; [reflexivity|]. split; [|by simpl; rewrite ?Hw, ?Hsc].
    split; simpl; rewrite ?Hl; simpl; try done; [congruence|by left].
Qed.

Lemma inv_check s i ev :
  monitor_inv s -> legal s (EvCheck i ev) -> exists s', conf_next s (EvCheck i ev) = Ok s' /\ monitor_inv s'.
Proof.
  intros Hinv (cc & Hcc & Hlegal). cbn [conf_next]. rewrite Hcc.
  assert (check_ok (pool_size (w_pool (wld s))) cc) as Hok
    by (eapply Forall_lookup_1; [apply Hinv|done]).
  destruct (completed_ (chk cc)) eqn:Hco.
  - destruct (check_next_done _ ev (wld s) _ Hok Hco Hlegal) as (cc' & -> & Hok' & Hchk). simpl.
    eexists. split; [reflexivity|]. replace (with_world (wld s) s) with s by (by destruct s).
    apply (inv_check_kept _ _ cc); by rewrite ?Hchk.
  - destruct (check_next_live _ ev (wld s) _ Hok eq_refl Hco Hlegal) as (w & cc' & Hm & Hok' & Hidx).
    destruct (decides ev) as [h|].
    + destruct Hm as (-> & Hdone & Hs). simpl.
      destruct (store_verdict_pool _ _ _ _ (check_ok_index _ _ Hok) Hs (mi_pool _ Hinv)) as [Hpw Hsz].
      destruct (inv_check_verdict s i cc cc' w) as (s' & Hs' & Hinv' & _); eauto.
    + destruct Hm as (-> & Hlive & -> & _ & _). simpl.
      eexists. split; [reflexivity|]. replace (with_world (wld s) s) with s by (by destruct s).
      apply (inv_check_kept _ _ cc); congruence.
Qed.

Lemma conf_next_inv s ev : monitor_inv s -> legal s ev -> exists s', conf_next s ev = Ok s' /\ monitor_inv s'.
Proof.
  intros Hinv Hlegal. destruct ev as [| |i error|i cev| |op|t].
  - by apply inv_start.
  - by apply inv_stop.
  - by apply inv_wait.
  - by apply inv_check.
  - eexists. split; [reflexivity|]. by apply inv_select.
  - eexists. split; [reflexivity|]. by apply inv_world.
  - eexists. split; [reflexivity|]. by apply inv_world.
Qed.

Lemma conf_new_inv pool metrics options : pool_ok pool -> monitor_inv (conf_new pool metrics options).
Proof. intros Hp. split; simpl; try done; [constructor|by left]. Qed.

(** ** Lemmas: what an event leaves alone *)

Lemma monitor_issues_wld effs s s' : monitor_issues effs s = Ok s' -> wld s' = wld s.
Proof.
  revert s. induction effs as [|e effs IH]; intros s Hs; simpl in Hs; [by simplify_eq|].
  destruct (monitor_issue s e) as [s1|] eqn:He; [|done]. simpl in Hs. rewrite (IH _ Hs).
  destruct e; simpl in He; simplify_eq; try done. by destruct (check_run _ _); simplify_eq/=.
Qed.

Lemma monitor_issues_start effs s s' : monitor_issues effs s = Ok s' -> start_called s' = start_called s.
Proof.
  revert s. induction effs as [|e effs IH]; intros s Hs; simpl in Hs; [by simplify_eq|].
  destruct (monitor_issue s e) as [s1|] eqn:He; [|done]. simpl in Hs. rewrite (IH _ Hs).
  destruct e; simpl in He; simplify_eq; try done. by destruct (check_run _ _); simplify_eq/=.
Qed.

Lemma start_called_next s ev s' :
  conf_next s ev = Ok s' -> start_called s' = match ev with EvStart => true | _ => start_called s end.
Proof.
  intros Hn. destruct ev as [| |i error|k cev| |op|t]; cbn [conf_next] in Hn; try (by rewrite (monitor_issues_start _ _ _ Hn)).
  - destruct (checks s !! k) as [cc|]; [|by simplify_eq]. destruct (check_next _ _ _) as [[[w cc'] called]|]; [|done].
    cbn [result_bind] in Hn. destruct called; [by rewrite (monitor_issues_start _ _ _ Hn)|by simplify_eq].
  - by injection Hn as <-.
  - by injection Hn as <-.
  - by injection Hn as <-.
Qed.

Lemma check_next_world ev w cc w' cc' called :
  check_next ev w cc = Ok (w', cc', called) ->
  w' = w \/ exists healthy, store_verdict (index_ (chk cc)) healthy w = Ok w'.
Proof.
  destruct cc as [[i t hd co] tm re cn dl]. unfold check_next.
  destruct ev as [e|e|e]; simpl; unfold check_on_timeout, check_on_resolve, check_on_connect, check_complete; simpl;
    destruct e, co; simpl;
    try (destruct (store_verdict _ _ w) as [v|] eqn:Hv; simpl; [|done]; destruct hd; simpl; [|done]);
    intros [= <- _ _]; eauto.
Qed.

(** What the monitor changes of the shared parts is a verdict, or nothing. *)
Lemma conf_next_world s ev s' :
  conf_next s ev = Ok s' -> match ev with EvSelect | EvMetric _ | EvClock _ => False | _ => True end ->
  wld s' = wld s \/ exists index healthy, store_verdict index healthy (wld s) = Ok (wld s').
Proof.
  intros Hn Hev. destruct ev as [| |i error|k cev| |op|t]; try done; cbn [conf_next] in Hn;
    try (left; by rewrite (monitor_issues_wld _ _ _ Hn)).
  destruct (checks s !! k) as [cc|]; [|left; by simplify_eq].
  destruct (check_next cev (wld s) cc) as [[[w cc'] called]|] eqn:Hch; [|done]. cbn [result_bind] in Hn.
  assert (wld s' = w) as -> by (destruct called; [by rewrite (monitor_issues_wld _ _ _ Hn)|by simplify_eq]).
  apply check_next_world in Hch as [->|[h Hs]]; eauto.
Qed.

(** ** Lemmas: the completions of one check *)

(** The completions one check sees, each with the shared state before and after it, and
    how often its handler is called. *)
Inductive check_exec : cconf -> list (check_event * world * world) -> nat -> cconf -> Prop :=
| check_exec_nil cc : check_exec cc [] 0 cc
| check_exec_cons cc ev w w' cc' called steps calls cc'' :
    check_legal cc ev -> check_next ev w cc = Ok (w', cc', called) ->
    check_exec cc' steps calls cc'' ->
    check_exec cc ((ev, w, w') :: steps) ((if called then 1 else 0) + calls) cc''.

(** The first completion that decides, with its position. *)
Fixpoint verdict (evs : list check_event) : option (nat * bool) :=
  match evs with
  | [] => None
  | ev :: evs' =>
      match decides ev with
      | Some h => Some (0%nat, h)
      | None => (fun kh => (S kh.1, kh.2)) <$> verdict evs'
      end
  end.

(** What the step at position [k] does to the shared state, given the verdict. *)
Definition stores (index : Z) (v : option (nat * bool)) (k : nat) (w w' : world) : Prop :=
  match v with
  | Some (k', h) => if decide (k = k') then store_verdict index h w = Ok w' else w' = w
  | None => w' = w
  end.

(** The operations outstanding, counting the connection attempt that follows a name
    resolution. *)
Definition check_outstanding (cc : cconf) : nat :=
  (if timer cc is Some _ then 1 else 0) + (if resolving cc then 2 else 0) + (if connecting cc then 1 else 0).

Lemma check_exec_done n cc steps calls cc' :
  check_ok n cc -> completed_ (chk cc) = true -> check_exec cc steps calls cc' ->
  calls = 0%nat /\ Forall (fun st => st.2 = st.1.2) steps /\ chk cc' = chk cc.
Proof.
  intros Hok Hco Hexec. induction Hexec as [cc|cc ev w w' cc1 called steps calls cc' Hl Hn Hexec IH]; [done|].
  destruct (check_next_done _ ev w _ Hok Hco Hl) as (cc2 & Hn' & Hok' & Hchk).
  rewrite Hn in Hn'. simplify_eq.
  destruct (IH Hok' ltac:(congruence)) as (-> & Hall & Hchk'). split; [done|]. split; [by constructor|congruence].
Qed.

Lemma check_exec_live n cc steps calls cc' :
  check_ok n cc -> completed_ (chk cc) = false -> Forall (fun st => pool_size (w_pool st.1.2) = n) steps ->
  check_exec cc steps calls cc' ->
  let v := verdict ((fun st => st.1.1) <$> steps) in
  calls = (if v is Some _ then 1 else 0)%nat /\ completed_ (chk cc') = (if v is Some _ then true else false) /\
  (forall k ev w w', steps !! k = Some (ev, w, w') -> stores (index_ (chk cc)) v k w w') /\
  (v = None -> timer cc' = Some false).
Proof.
  intros Hok Hco Hsz Hexec. induction Hexec as [cc|cc ev w w' cc1 called steps calls cc' Hl Hn Hexec IH].
  { simpl. repeat split; [done|done|]. intros _. apply (check_ok_live _ _ Hok Hco). }
  apply Forall_cons in Hsz as [Hw Hsz]. simpl in Hw.
  destruct (check_next_live _ ev w _ Hok (eq_sym Hw) Hco Hl) as (w2 & cc2 & Hm & Hok' & Hidx).
  csimpl. destruct (decides ev) as [h|].
  - destruct Hm as (Hn' & Hdone & Hs). rewrite Hn in Hn'. simplify_eq.
    destruct (check_exec_done _ _ _ _ _ Hok' Hdone Hexec) as (-> & Hall & Hchk).
    repeat split; [congruence| |done]. intros [|k] ev' w1 w1' Hk; simpl in *; [by simplify_eq|].
    rewrite Forall_lookup in Hall. by apply Hall in Hk.
  - destruct Hm as (Hn' & Hdone & -> & _). rewrite Hn in Hn'. simplify_eq.
    destruct (IH Hok' Hdone Hsz) as (-> & Hc & Hst & Ht). rewrite <- Hidx.
    destruct (verdict ((fun st => st.1.1) <$> steps)) as [[k0 h]|] eqn:Hv; simpl in *.
    + repeat split; [done| |done]. intros [|k] ev' w1 w1' Hk; simpl in *; [by simplify_eq|].
      specialize (Hst _ _ _ _ Hk). simpl in Hst. do 2 case_decide; try done; lia.
    + repeat split; [done| |done]. intros [|k] ev' w1 w1' Hk; simpl in *; [by simplify_eq|].
      by apply (Hst _ _ _ _ Hk).
Qed.

Lemma check_next_outstanding ev w cc w' cc' called :
  check_legal cc ev -> check_next ev w cc = Ok (w', cc', called) ->
  (check_outstanding cc' < check_outstanding cc)%nat.
Proof.
  intros Hl Hn. destruct cc as [[i t hd co] tm re cn dl]. unfold check_next in Hn.
  destruct ev as [e|e|e]; simpl in *; [destruct Hl as (c & -> & _)|subst re|subst cn];
    unfold check_on_timeout, check_on_resolve, check_on_connect, check_complete in Hn; simpl in Hn;
    destruct e, co; simpl in Hn;
    try (destruct (store_verdict _ _ w); simpl in Hn; [|done]; destruct hd; simpl in Hn; [|done]);
    simplify_eq; unfold check_outstanding; simpl; repeat case_match; simplify_eq; simpl; lia.
Qed.

Lemma check_exec_length cc steps calls cc' :
  check_exec cc steps calls cc' -> (length steps + check_outstanding cc' <= check_outstanding cc)%nat.
Proof.
  induction 1 as [|cc ev w w' cc1 called steps calls cc' Hl Hn Hexec IH]; simpl; [done|].
  pose proof (check_next_outstanding _ _ _ _ _ _ Hl Hn). lia.
Qed.

(** ** Lemmas: after [stop] *)

Definition outstanding (s : conf) : nat := (length (waits s) + sum_list_with check_outstanding (checks s))%nat.

Definition is_completion (ev : hm_event) : bool :=
  match ev with EvWait _ _ | EvCheck _ _ => true | _ => false end.

(** Events in a row, each legal where it happens. *)
Inductive hexec : conf -> list hm_event -> conf -> Prop :=
| hexec_nil s : hexec s [] s
| hexec_cons s ev s' evs s'' :
    legal s ev -> conf_next s ev = Ok s' -> hexec s' evs s'' -> hexec s (ev :: evs) s''.

Lemma stopped_check_complete s :
  stopped_ (mon s) = true ->
  monitor_do (on_check_complete (mon s)) s = Ok (with_monitor (on_check_complete (mon s)).1 s) /\
  stopped_ (on_check_complete (mon s)).1 = true.
Proof.
  intros Hst. unfold monitor_do, on_check_complete.
  destruct (0 <? checks_remaining_ (mon s)); simpl; rewrite Hst, andb_false_r; done.
Qed.

(** In a stopped monitor no handler makes a new check or starts a wait. *)
Lemma stopped_next s ev s' :
  monitor_inv s -> start_called s = true -> stopped_ (mon s) = true -> legal s ev -> conf_next s ev = Ok s' ->
  stopped_ (mon s') = true /\ start_called s' = true /\ length (checks s') = length (checks s) /\
  (outstanding s' + (if is_completion ev then 1 else 0) <= outstanding s)%nat.
Proof.
  intros Hinv Hsc Hst Hlegal Hn. unfold outstanding. destruct ev as [| |i error|i cev| |op|t].
  - simpl in Hlegal. congruence.
  - cbn in Hn. injection Hn as <-. cbn [mon waits checks start_called with_monitor stopped_ is_completion].
    rewrite length_fmap. repeat split; [done|lia].
  - destruct Hlegal as (c & Hw & _). cbn [conf_next] in Hn. unfold monitor_on_timer, run_checks, with_waits in Hn.
    cbn [mon] in Hn. rewrite Hst in Hn.
    pose proof (length_delete (waits s) i (mk_is_Some _ _ Hw)) as Hd.
    apply lookup_lt_Some in Hw.
    destruct error; cbn in Hn; injection Hn as <-;
      cbn [mon waits checks start_called with_monitor stopped_ is_completion]; repeat split; try done; lia.
  - destruct Hlegal as (cc & Hcc & Hl). cbn [conf_next] in Hn. rewrite Hcc in Hn.
    destruct (check_next cev (wld s) cc) as [[[w cc'] called]|] eqn:Hch; [|done]. simpl in Hn.
    pose proof (check_next_outstanding _ _ _ _ _ _ Hl Hch) as Hlt.
    pose proof (sum_list_with_insert check_outstanding _ _ _ cc' Hcc) as Hsum.
    destruct called; [|simplify_eq; simpl; rewrite length_insert; repeat split; try done; lia].
    match type of Hn with monitor_do _ ?s1 = _ => destruct (stopped_check_complete s1 Hst) as [Hd Hst'] end.
    cbn [mon with_checks with_world] in Hd. rewrite Hd in Hn.
    injection Hn as <-. simpl. rewrite length_insert. repeat split; try done; lia.
  - cbn [conf_next] in Hn. injection Hn as <-. simpl. repeat split; try done; lia.
  - cbn [conf_next] in Hn. injection Hn as <-. simpl. repeat split; try done; lia.
  - cbn [conf_next] in Hn. injection Hn as <-. simpl. repeat split; try done; lia.
Qed.

Lemma hexec_stopped s evs s' :
  monitor_inv s -> start_called s = true -> stopped_ (mon s) = true -> hexec s evs s' ->
  stopped_ (mon s') = true /\ length (checks s') = length (checks s) /\
  (outstanding s' + length (filter (fun ev => is_completion ev = true) evs) <= outstanding s)%nat.
Proof.
  intros Hinv Hsc Hst Hexec. induction Hexec as [s|s ev s1 evs s' Hl Hn _ IH]; [csimpl; repeat split; [done|lia]|].
  destruct (conf_next_inv s ev Hinv Hl) as (s2 & Hn2 & Hinv2). assert (s2 = s1) as -> by congruence.
  destruct (stopped_next s ev s1 Hinv Hsc Hst Hl Hn) as (Hst1 & Hsc1 & Hlen1 & Ho1).
  destruct (IH Hinv2 Hsc1 Hst1) as (Hst' & Hlen' & Ho'). split; [done|]. split; [congruence|].
  rewrite filter_cons. case_decide as Hc; [rewrite Hc in Ho1|]; csimpl; lia.
Qed.

(** ** Theorems *)

(** C15.  The rounds of the monitor, in every state it can reach.  No completion
    throws; [checks_remaining_] is the number of checks that have no verdict yet, and
    these are of different backends (rounds do not overlap); at most one wait of the
    monitor's timer is outstanding, and none while a check is; and until [stop] the
    monitor never stalls: there is either the wait for the next round, not cancelled,
    or a check without verdict, and every such check has its timeout running. *)
Theorem health_rounds pool metrics options s :
  pool_ok pool -> reachable (fun s0 => s0 = conf_new pool metrics options) hstep s ->
  (forall ev, legal s ev -> exists s', conf_next s ev = Ok s') /\
  checks_remaining_ (mon s) = Z.of_nat (length (live (checks s))) /\
  NoDup ((fun cc => index_ (chk cc)) <$> live (checks s)) /\
  (length (waits s) <= 1)%nat /\ (waits s <> [] -> live (checks s) = []) /\
  (start_called s = true -> stopped_ (mon s) = false -> waits s = [false] \/ live (checks s) <> []) /\
  (forall cc, cc ∈ live (checks s) -> timer cc = Some false).
Proof.
  intros Hp Hr. assert (monitor_inv s) as Hinv.
  { revert s Hr. apply reachable_invariant; [intros s ->; by apply conf_new_inv|].
    intros s s' Hinv (ev & Hl & Hn). destruct (conf_next_inv s ev Hinv Hl) as (s2 & Hn2 & Hinv2). congruence. }
  split; [intros ev Hl; destruct (conf_next_inv s ev Hinv Hl) as (s' & ? & _); eauto|].
  destruct Hinv as [_ Hc Hrem Hi _ H1 Ha]. split; [done|]. split; [done|].
  split; [destruct H1 as [->|(c & -> & _)]; simpl; lia|].
  split; [intros Hw; by destruct H1 as [?|(c & _ & ? & _)]|].
  split; [intros Hs Hst; destruct (live (checks s)); [left; by apply Ha|by right]|].
  intros cc [Hlive Hin]%list_elem_of_filter. rewrite Forall_forall in Hc.
  by apply (check_ok_live _ _ (Hc _ Hin)).
Qed.

Definition round_one : conf := Eval vm_compute in
  match conf_next (conf_new pool_abc None default_health_options) EvStart with
  | Ok s => match conf_next s (EvWait 0 false) with Ok s' => s' | Throw _ => s end
  | Throw _ => conf_new pool_abc None default_health_options
  end.

Lemma round_one_reachable :
  reachable (fun s0 => s0 = conf_new pool_abc None default_health_options) hstep round_one.
Proof.
  eexists. split; [reflexivity|]. eapply rtc_l; [exists EvStart; split; [reflexivity|vm_compute; reflexivity]|].
  eapply rtc_l; [exists (EvWait 0 false); split; [by exists false|vm_compute; reflexivity]|]. apply rtc_refl.
Qed.

Lemma health_rounds_witness :
  checks_remaining_ (mon round_one) = 3 /\ waits round_one = [] /\
  checks_remaining_ (mon round_one) = Z.of_nat (length (live (checks round_one))).
Proof.
  split; [reflexivity|]. split; [reflexivity|].
  exact (proj1 (proj2 (health_rounds pool_abc None default_health_options round_one pool_abc_ok round_one_reachable))).
Defined.

(** C19.  One check gives one verdict.  Whatever completions arrive for it, and in
    whatever order, there are at most three; the first that decides is the verdict: the
    timer expiring or name resolution failing means unhealthy, the connection attempt
    its own success; that completion, and no other, writes the flag of the check's
    backend, and the completion handler is called once.  Before it nothing is written,
    and the timer is still running. *)
Theorem check_one_verdict now t (i : nat) steps calls cc n :
  check_exec (fresh_check now t i) steps calls cc -> Z.of_nat i < n ->
  Forall (fun st => pool_size (w_pool st.1.2) = n) steps ->
  let v := verdict ((fun st => st.1.1) <$> steps) in
  (length steps <= 3)%nat /\
  calls = (if v is Some _ then 1 else 0)%nat /\ completed_ (chk cc) = (if v is Some _ then true else false) /\
  (forall k ev w w', steps !! k = Some (ev, w, w') -> stores (Z.of_nat i) v k w w') /\
  (v = None -> timer cc = Some false).
Proof.
  intros Hexec Hi Hsz v. split; [pose proof (check_exec_length _ _ _ _ Hexec) as Hl;
    change (check_outstanding (fresh_check now t i)) with 3%nat in Hl; lia|].
  apply (check_exec_live n _ _ _ _) in Hexec; [done| |done|done].
  split; simpl; [lia|done|done].
Qed.

Definition world_abc : world := mkWorld pool_abc None [] 0.

Lemma check_one_verdict_witness : exists steps calls cc,
  check_exec (fresh_check 0 1000 1) steps calls cc /\
  (fun st => st.1.1) <$> steps = [EvResolved false; EvTimer false; EvConnected false] /\ calls = 1%nat.
Proof.
  assert (exists w' cc, check_exec (fresh_check 0 1000 1)
    [(EvResolved false, world_abc, world_abc); (EvTimer false, world_abc, w'); (EvConnected false, w', w')] 1 cc /\
    pool_size (w_pool w') = 3) as (w' & cc & Hexec & Hsz).
  { eexists _, _. split.
    - eapply (check_exec_cons _ _ _ _ _ false _ 1); [reflexivity|reflexivity|].
      eapply (check_exec_cons _ _ _ _ _ true _ 0); [by exists false|reflexivity|].
      eapply (check_exec_cons _ _ _ _ _ false _ 0); [reflexivity|reflexivity|]. constructor.
    - reflexivity. }
  eexists _, _, _. split; [exact Hexec|]. split; [reflexivity|].
  apply (check_one_verdict 0 1000 1 _ _ _ 3 Hexec); [lia|]. repeat constructor. exact Hsz.
Defined.

(** After [stop] the monitor winds down: it stays stopped, makes no new check,
    and only the operations already started complete, so that there are at most
    [outstanding] further completions (two for a check that still resolves a name, one
    for a connection attempt, a check's timer or the monitor's wait). *)
Lemma health_stop pool metrics options s s1 evs s' :
  pool_ok pool -> reachable (fun s0 => s0 = conf_new pool metrics options) hstep s ->
  start_called s = true -> conf_next s EvStop = Ok s1 -> hexec s1 evs s' ->
  stopped_ (mon s') = true /\ length (checks s') = length (checks s) /\
  (outstanding s' + length (filter (fun ev => is_completion ev = true) evs) <= outstanding s)%nat.
Proof.
  intros Hp Hr Hsc Hstop Hexec. assert (monitor_inv s) as Hinv.
  { clear Hsc Hstop. revert s Hr. apply reachable_invariant; [intros s ->; by apply conf_new_inv|].
    intros s s2 Hinv (ev & Hl & Hn). destruct (conf_next_inv s ev Hinv Hl) as (s3 & Hn3 & Hinv3). congruence. }
  destruct (inv_stop s Hinv) as (s2 & Hs2 & Hinv2). rewrite Hstop in Hs2. injection Hs2 as <-.
  simpl in Hstop. injection Hstop as <-.
  destruct (hexec_stopped _ _ _ Hinv2 Hsc eq_refl Hexec) as (H1 & H2 & H3). split; [done|]. split; [done|].
  unfold outstanding in *. simpl in *. by rewrite length_fmap in H3.
Qed.

(** C39.  What a verdict does.  It takes the backend out of the round robin when
    unhealthy (no later [select] of the pool as it is then returns to it) and puts it
    back in when healthy; the flags of the other backends, the endpoints and the cursor
    stay; and a transition (a flag that changes), and nothing else, counts one in the
    registry and writes one line, which names the endpoint and the direction. *)
Theorem verdict_effect i h w w' :
  pool_ok (w_pool w) -> 0 <= i < pool_size (w_pool w) -> store_verdict i h w = Ok w' ->
  (Z.to_nat i ∈ rotation (w_pool w') <-> h = true) /\
  (forall j, 0 <= j -> j <> i -> is_healthy (w_pool w') j = is_healthy (w_pool w) j) /\
  (forall j, 0 <= j -> pool_endpoint (w_pool w') j = pool_endpoint (w_pool w) j) /\
  next_index_ (w_pool w') = next_index_ (w_pool w) /\
  exists old e, is_healthy (w_pool w) i = Ok old /\ pool_endpoint (w_pool w) i = Ok e /\
    if Bool.eqb old h then w_metrics w' = w_metrics w /\ w_log w' = w_log w
    else w_metrics w' = record_health_transition <$> w_metrics w /\ w_log w' = w_log w ++ [health_log e h].
Proof.
  intros Hp Hi Hs. destruct (store_verdict_pool _ _ _ _ Hi Hs Hp) as [Hp' _].
  destruct (store_verdict_ok i h w Hi) as (b & Hb & Heq). simpl in Heq. rewrite Hs in Heq. injection Heq as ->.
  simpl in *. destruct Hi as [Hi Hlt].
  pose proof (fun j => backend_at_insert (w_pool w) i (mkBackend (be_endpoint b) h) j Hi Hlt) as Hins.
  split; [|split; [|split; [|split; [done|]]]].
  - split.
    + intros (b' & Hb' & Hh)%rotation_healthy. simpl in Hb'. unfold pool_size in Hlt.
      rewrite list_lookup_insert_eq in Hb' by lia. by simplify_eq/=.
    + intros ->. apply healthy_in_rotation; [done|]. unfold healthy_at, pool_size in *. simpl.
      by rewrite list_lookup_insert_eq by lia.
  - intros j Hj Hne. unfold is_healthy. rewrite Hins by done. by rewrite decide_False.
  - intros j Hj. unfold pool_endpoint. rewrite Hins by done. case_decide; [subst j; by rewrite Hb|done].
  - exists (be_healthy b), (be_endpoint b). unfold is_healthy, pool_endpoint. rewrite Hb.
    by destruct (Bool.eqb (be_healthy b) h).
Qed.

Lemma verdict_effect_witness : exists w',
  store_verdict 1 true world_abc = Ok w' /\
  w_log w' = ["Upstream backend-b:9002 recovered" +:+ newline] /\
  (1%nat ∈ rotation (w_pool w') <-> true = true).
Proof.
  eexists. split; [reflexivity|]. split; [reflexivity|].
  apply (verdict_effect 1 true world_abc); [apply pool_abc_ok|vm_compute; split; congruence|reflexivity].
Defined.
