(* ===== verification/HealthTiming.v ===== *)
(** * How old a health verdict can be

    The rounds of the health monitor ([HealthMonitor]) in time: [punctual] says what the
    timers of the library promise, a handler that runs not before its timer expires and
    at most [latency] after it, and [texec] are the runs in which they keep it.  The
    theorem bounds the time until a backend has been checked anew, from
    [options_.interval] and [options_.timeout] of [src/upstream_health_monitor.cpp].

    The argument only looks at the checks without verdict ([pending]) and at the wait for
    the next round: [shape] is a completion as seen by it. *)

From stdpp Require Import base relations strings numbers list.
From S2P Require Import Prelude CppString Beast UpstreamPool HttpHandler Metrics HealthMonitor.

#[local] Open Scope Z_scope.

(** A timer that is waited for, and was not cancelled, runs its handler when it expires:
    not before, and at most [latency] nanoseconds later. *)
Definition punctual (latency : Z) (s : conf) (ev : hm_event) : Prop :=
  match ev with
  | EvClock t =>
      (false ∈ waits s -> t <= expiry s + latency) /\
      (forall cc, cc ∈ checks s -> timer cc = Some false -> t <= deadline cc + latency)
  | EvWait i false => waits s !! i = Some false -> expiry s <= w_now (wld s)
  | EvCheck i (EvTimer false) =>
      forall cc, checks s !! i = Some cc -> timer cc = Some false -> deadline cc <= w_now (wld s)
  | _ => True
  end.

Inductive texec (latency : Z) : conf -> list hm_event -> conf -> Prop :=
| texec_nil s : texec latency s [] s
| texec_cons s ev s' evs s'' :
    legal s ev -> punctual latency s ev -> conf_next s ev = Ok s' -> texec latency s' evs s'' ->
    texec latency s (ev :: evs) s''.

(** When the timer of a check was set: the check was made then. *)
Definition began (cc : cconf) : Z := deadline cc - timeout_ (chk cc) * 1000000.

(** The verdict an event gives: the backend, what it says, and when the check began. *)
Definition verdict_of (s : conf) (ev : hm_event) : option (Z * bool * Z) :=
  match ev with
  | EvCheck k cev =>
      match checks s !! k with
      | Some cc =>
          if completed_ (chk cc) then None
          else (fun h => (index_ (chk cc), h, began cc)) <$> decides cev
      | None => None
      end
  | _ => None
  end.

(** Some event of a run gives a verdict on backend [i] from a check that began at [t0]
    or later. *)
Inductive checked_since (i t0 : Z) : conf -> list hm_event -> Prop :=
| checked_here s ev evs h b : verdict_of s ev = Some (i, h, b) -> t0 <= b -> checked_since i t0 s (ev :: evs)
| checked_later s ev s' evs : conf_next s ev = Ok s' -> checked_since i t0 s' evs -> checked_since i t0 s (ev :: evs).

(** The checks without verdict: backend, deadline, and when they began. *)
Definition pending (s : conf) : list (Z * Z * Z) :=
  (fun cc => (index_ (chk cc), deadline cc, began cc)) <$> live (checks s).

(** ** Lemmas: one step *)

Lemma check_next_kept ev w cc w' cc' called :
  check_next ev w cc = Ok (w', cc', called) ->
  deadline cc' = deadline cc /\ timeout_ (chk cc') = timeout_ (chk cc) /\ w_now w' = w_now w.
Proof.
  destruct cc as [[i t hd co] tm re cn dl]. unfold check_next.
  destruct ev as [e|e|e]; simpl; unfold check_on_timeout, check_on_resolve, check_on_connect, check_complete; simpl;
    destruct e, co; simpl;
    try (destruct (store_verdict _ _ w) as [v|] eqn:Hv; simpl; [|done]; destruct hd; simpl; [|done];
         apply store_verdict_rest in Hv as [Hv _]);
    intros [= <- <- <-]; done.
Qed.

(** What a completion does to the checks without verdict and to the wait for the next
    round, as long as the monitor is not stopped. *)
Inductive shape (s : conf) (ev : hm_event) (s' : conf) : Prop :=
| shape_quiet :
    pending s' = pending s -> waits s' = waits s -> expiry s' = expiry s ->
    (w_now (wld s') = w_now (wld s) \/ ev = EvClock (w_now (wld s'))) -> shape s ev s'
| shape_round :
    waits s = [false] -> pending s = [] -> waits s' = [] -> w_now (wld s') = w_now (wld s) ->
    pending s' = (fun i => (Z.of_nat i, expires_after (w_now (wld s)) (timeout (options_ (mon s))), w_now (wld s)))
                   <$> seq 0 (Z.to_nat (pool_size (w_pool (wld s)))) -> shape s ev s'
| shape_verdict i d b h l1 l2 :
    pending s = l1 ++ (i, d, b) :: l2 -> pending s' = l1 ++ l2 -> verdict_of s ev = Some (i, h, b) ->
    waits s = [] -> w_now (wld s') = w_now (wld s) ->
    (l1 ++ l2 = [] -> waits s' = [false] /\
       expiry s' = expires_after (w_now (wld s)) (interval (options_ (mon s)))) ->
    (l1 ++ l2 <> [] -> waits s' = []) -> shape s ev s'.

Lemma pending_insert_kept s s' k cc cc' :
  checks s !! k = Some cc -> checks s' = <[k := cc']> (checks s) ->
  completed_ (chk cc') = completed_ (chk cc) -> index_ (chk cc') = index_ (chk cc) ->
  deadline cc' = deadline cc -> timeout_ (chk cc') = timeout_ (chk cc) -> pending s' = pending s.
Proof.
  intros Hk Hs' Hco Hi Hd Ht. unfold pending. rewrite Hs', (live_insert _ _ _ _ Hk), (live_split _ _ _ Hk), !fmap_app.
  do 2 f_equal. destruct (completed_ (chk cc)) eqn:Hc; [by rewrite !live_no by congruence|].
  rewrite !live_yes by congruence. simpl. unfold began. by rewrite Hi, Hd, Ht.
Qed.

Lemma wait_shape s i error s' :
  monitor_inv s -> legal s (EvWait i error) -> stopped_ (mon s) = false -> conf_next s (EvWait i error) = Ok s' ->
  shape s (EvWait i error) s' /\ options_ (mon s') = options_ (mon s) /\ stopped_ (mon s') = false.
Proof.
  intros [_ _ _ _ _ H1 _] (c & Hw & Herr) Hst Hn.
  destruct H1 as [H1|(c' & H1 & Hl & Hc)]; [by rewrite H1 in Hw|].
  rewrite H1 in Hw. destruct i as [|i]; [|done]. injection Hw as ->.
  destruct c; [by rewrite Hst in Hc; discriminate Hc|]. destruct error; [by discriminate Herr|].
  cbn [conf_next] in Hn. rewrite H1 in Hn. cbn [delete list_delete] in Hn.
  unfold monitor_on_timer, run_checks, monitor_do in Hn. cbn [wld mon with_waits negb] in Hn. rewrite Hst in Hn.
  cbn [fst snd] in Hn. unfold pool_size in Hn. rewrite Nat2Z.id, start_checks in Hn by done. injection Hn as <-.
  split; [|done]. apply shape_round; [done| |done|done|]; unfold pending; cbn [checks with_checks with_monitor with_waits].
  - by rewrite Hl.
  - rewrite live_app, Hl, live_fresh. unfold pool_size. rewrite Nat2Z.id. cbn [app wld].
    rewrite <- list_fmap_compose. apply list_fmap_ext. intros ? ? _. unfold began. cbn -[Z.mul].
    f_equal. unfold expires_after. lia.
Qed.

Lemma check_shape s k cev s' :
  monitor_inv s -> legal s (EvCheck k cev) -> stopped_ (mon s) = false -> conf_next s (EvCheck k cev) = Ok s' ->
  shape s (EvCheck k cev) s' /\ options_ (mon s') = options_ (mon s) /\ stopped_ (mon s') = false.
Proof.
  intros Hinv (cc & Hcc & Hlegal) Hst Hn. cbn [conf_next] in Hn. rewrite Hcc in Hn.
  assert (check_ok (pool_size (w_pool (wld s))) cc) as Hok by (eapply Forall_lookup_1; [apply Hinv|done]).
  destruct (check_next cev (wld s) cc) as [[[w cc'] called]|] eqn:Hnext; [|done]. cbn [result_bind] in Hn.
  destruct (check_next_kept _ _ _ _ _ _ Hnext) as (Hd & Ht & Hnow).
  destruct (completed_ (chk cc)) eqn:Hco.
  - destruct (check_next_done _ cev (wld s) _ Hok Hco Hlegal) as (cc2 & Hn2 & Hok' & Hchk). rewrite Hnext in Hn2.
    injection Hn2 as -> <- ->. injection Hn as <-. split; [|done].
    apply shape_quiet; [|done|done|by left]. by apply (pending_insert_kept _ _ k cc cc'); rewrite ?Hchk.
  - destruct (check_next_live _ cev (wld s) _ Hok eq_refl Hco Hlegal) as (w2 & cc2 & Hm & Hok' & Hidx).
    rewrite Hnext in Hm. destruct (decides cev) as [h|] eqn:Hdec.
    + destruct Hm as ([= <- <- ->] & Hdone & Hs).
      destruct (store_verdict_pool _ _ _ _ (check_ok_index _ _ Hok) Hs (mi_pool _ Hinv)) as [Hpw Hsz].
      destruct (inv_check_verdict s k cc cc' w) as (s2 & Hs2 & _ & Hcs & Hw & Hst2 & Hopt & _ & Hexp & Hwaits); try done.
      rewrite Hn in Hs2. injection Hs2 as <-. rewrite Hst2, Hopt. split; [|done].
      apply (shape_verdict _ _ _ (index_ (chk cc)) (deadline cc) (began cc) h
        ((fun cc => (index_ (chk cc), deadline cc, began cc)) <$> live (take k (checks s)))
        ((fun cc => (index_ (chk cc), deadline cc, began cc)) <$> live (drop (S k) (checks s)))).
      * unfold pending. rewrite (live_split _ _ _ Hcc), live_yes, !fmap_app by done. done.
      * unfold pending. rewrite Hcs, (live_insert _ _ _ _ Hcc), live_no, !fmap_app by done. done.
      * simpl. rewrite Hcc, Hco, Hdec. done.
      * destruct (mi_one _ Hinv) as [?|(c & _ & Hl & _)]; [done|]. rewrite (live_split _ _ _ Hcc), live_yes in Hl by done.
        by destruct (live (take k (checks s))).
      * by rewrite Hw.
      * rewrite <- fmap_app. intros Hnil%fmap_nil_inv. rewrite <- Hnow.
        assert (live (<[k := cc']> (checks s)) = []) as Hl0 by (by rewrite (live_insert _ _ _ _ Hcc), live_no).
        rewrite Hl0, Hst in Hwaits. by split; [|apply Hexp].
      * rewrite <- fmap_app. intros Hne. rewrite Hwaits, (live_insert _ _ _ _ Hcc), live_no by done. simpl.
        by destruct (live (take k (checks s)) ++ live (drop (S k) (checks s))).
    + destruct Hm as ([= <- <- ->] & Hlive & _ & _). injection Hn as <-. split; [|done].
      apply shape_quiet; [|done|done|by left]. apply (pending_insert_kept _ _ k cc cc'); done || congruence.
Qed.

(** [start], which happens once: the first round is due at once. *)
Lemma start_shape s s' :
  monitor_inv s -> legal s EvStart -> stopped_ (mon s) = false -> conf_next s EvStart = Ok s' ->
  waits s' = [false] /\ pending s' = [] /\ expiry s' = w_now (wld s) /\ w_now (wld s') = w_now (wld s) /\
  options_ (mon s') = options_ (mon s) /\ stopped_ (mon s') = false.
Proof.
  intros Hinv Hs Hst Hn. destruct (mi_before _ Hinv Hs) as [Hw Hcs].
  simpl in Hn. unfold monitor_start, schedule_next_check in Hn. rewrite Hst in Hn. simpl in Hn. injection Hn as <-.
  unfold pending, expires_after. cbn [waits checks expiry wld mon]. rewrite Hw, Hcs. cbn.
  split; [done|]. split; [done|]. split; [lia|done].
Qed.

Lemma step_shape s ev s' :
  monitor_inv s -> legal s ev -> stopped_ (mon s) = false -> conf_next s ev = Ok s' -> stopped_ (mon s') = false ->
  (ev = EvStart \/ shape s ev s') /\ options_ (mon s') = options_ (mon s).
Proof.
  intros Hinv Hl Hst Hn Hst'. destruct ev as [| |i error|k cev| |op|t].
  - split; [by left|]. by apply start_shape.
  - cbn in Hn. injection Hn as <-. done.
  - destruct (wait_shape s i error s' Hinv Hl Hst Hn) as (Hs & Ho & _). split; [by right|done].
  - destruct (check_shape s k cev s' Hinv Hl Hst Hn) as (Hs & Ho & _). split; [by right|done].
  - cbn [conf_next] in Hn. injection Hn as <-. split; [right; by apply shape_quiet; try (by left)|done].
  - cbn [conf_next] in Hn. injection Hn as <-. split; [right; by apply shape_quiet; try (by left)|done].
  - cbn [conf_next] in Hn. injection Hn as <-. split; [right; by apply shape_quiet; try (by right)|done].
Qed.

(** Once stopped, the monitor stays so. *)
Lemma stopped_stays s ev s' :
  monitor_inv s -> legal s ev -> conf_next s ev = Ok s' -> stopped_ (mon s') = false -> stopped_ (mon s) = false.
Proof.
  intros Hinv Hl Hn Hst'. destruct (stopped_ (mon s)) eqn:Hst; [|done]. destruct (start_called s) eqn:Hsc.
  - destruct (stopped_next s ev s' Hinv Hsc Hst Hl Hn) as [? _]. congruence.
  - destruct (mi_before _ Hinv Hsc) as [Hw Hcs]. destruct ev as [| |i error|k cev| |op|t].
    + simpl in Hn. unfold monitor_start, schedule_next_check in Hn. rewrite Hst in Hn. injection Hn as <-. simpl in Hst'. congruence.
    + cbn in Hn. injection Hn as <-. done.
    + destruct Hl as (c & Hi & _). by rewrite Hw in Hi.
    + destruct Hl as (cc & Hk & _). by rewrite Hcs in Hk.
    + cbn [conf_next] in Hn. injection Hn as <-. simpl in Hst'. congruence.
    + cbn [conf_next] in Hn. injection Hn as <-. simpl in Hst'. congruence.
    + cbn [conf_next] in Hn. injection Hn as <-. simpl in Hst'. congruence.
Qed.

(** ** Lemmas: the timed invariant *)

Section timed.
Context (latency : Z) (options : HealthCheckOptions).
Hypothesis (Hlat : 0 <= latency) (Hint : 0 <= interval options) (Htmo : 0 <= timeout options).

(** The clock is never later than the latency allows, and a deadline is never further
    away than the timer it was set with. *)
Record timed_inv (s : conf) : Prop := {
  ti_options : options_ (mon s) = options;
  ti_wait : waits s = [false] -> w_now (wld s) <= expiry s + latency /\ expiry s <= expires_after (w_now (wld s)) (interval options);
  ti_pending : forall i d b, (i, d, b) ∈ pending s ->
    w_now (wld s) <= d + latency /\ d = expires_after b (timeout options) /\ b <= w_now (wld s);
}.

(** A check without verdict has its timer running, so the clock waits for it. *)
Lemma punctual_pending s t i d b :
  monitor_inv s -> punctual latency s (EvClock t) -> (i, d, b) ∈ pending s -> t <= d + latency.
Proof using Type.
  intros Hinv [_ Hp] (cc & Heq & [Hlive Hin]%list_elem_of_filter)%list_elem_of_fmap.
  injection Heq as -> -> ->. apply (Hp cc Hin). pose proof (mi_checks _ Hinv) as Hc. rewrite Forall_forall in Hc.
  by apply (check_ok_live _ _ (Hc _ Hin)).
Qed.

Lemma timed_step s ev s' :
  monitor_inv s -> legal s ev -> punctual latency s ev -> conf_next s ev = Ok s' -> stopped_ (mon s') = false ->
  timed_inv s -> timed_inv s'.
Proof using Hlat Hint Htmo.
  intros Hinv Hl Hp Hn Hst' [Ho Hw Hpd]. pose proof (stopped_stays s ev s' Hinv Hl Hn Hst') as Hst.
  destruct (step_shape s ev s' Hinv Hl Hst Hn Hst') as [[->|Hs] Ho'].
  - destruct (start_shape s s' Hinv Hl Hst Hn) as (Hw' & Hp' & He' & Hn' & _).
    split; [congruence| |by rewrite Hp'; intros ? ? ? ?%not_elem_of_nil].
    intros _. rewrite He', Hn'. unfold expires_after. lia.
  - destruct Hs as [Hp' Hw' He' Hnow|Hw1 Hp1 Hw' Hn' Hp'|i d b h l1 l2 Hp1 Hp' _ Hw1 Hn' Hlast Hmore].
    + split; [congruence| |]; rewrite ?Hp', ?Hw', ?He'.
      * intros Hf. specialize (Hw Hf). destruct Hnow as [->| ->]; [done|]. destruct Hp as [Hp _]. simpl in Hl.
        rewrite Hf in Hp. specialize (Hp ltac:(left)). unfold expires_after in *. lia.
      * intros i d b Hin. specialize (Hpd _ _ _ Hin). destruct Hnow as [->| ->]; [done|]. simpl in Hl.
        pose proof (punctual_pending _ _ _ _ _ Hinv Hp Hin). lia.
    + split; [congruence|by rewrite Hw'|]. rewrite Hp', Hn'. intros i d b (k & Heq & _)%list_elem_of_fmap.
      injection Heq as -> -> ->. rewrite Ho. unfold expires_after. lia.
    + split; [congruence| |].
      * intros Hf. destruct (decide (l1 ++ l2 = [])) as [Hnil|Hne]; [|by rewrite (Hmore Hne) in Hf].
        destruct (Hlast Hnil) as [_ He]. rewrite He, Hn', Ho. unfold expires_after. lia.
      * intros i' d' b'. rewrite Hp', Hn'. intros Hin. apply (Hpd i'). rewrite Hp1, elem_of_app, elem_of_cons. apply elem_of_app in Hin. tauto.
Qed.

(** ** Lemmas: until a backend has been checked anew

    From time [t0] on: the round that is running ends, the next one is waited for, and
    the check of backend [i] in it decides. *)
Context (i t0 : Z).

Definition round_end : Z := expires_after t0 (timeout options) + latency.
Definition round_start : Z := expires_after round_end (interval options) + latency.
Definition decided_by : Z := expires_after round_start (timeout options) + latency.

Definition on_the_way (s : conf) : Prop :=
  (pending s <> [] /\ forall i d b, (i, d, b) ∈ pending s -> d + latency <= round_end) \/
  (waits s = [false] /\ expiry s + latency <= round_start) \/
  (exists d b, (i, d, b) ∈ pending s /\ t0 <= b /\ d + latency <= decided_by).

Lemma on_the_way_time s : timed_inv s -> on_the_way s -> w_now (wld s) <= decided_by.
Proof using Hlat Hint Htmo.
  intros [_ Hw Hp] Hway. unfold on_the_way, decided_by, round_start, round_end, expires_after in *.
  destruct Hway as [[Hne Hall]|[[Hwt He]|(d & b & Hin & _ & Hd)]].
  - destruct (pending s) as [|[[j d] b] l] eqn:Hps; [done|].
    specialize (Hall j d b ltac:(left)). specialize (Hp j d b ltac:(left)). lia.
  - specialize (Hw Hwt). lia.
  - specialize (Hp _ _ _ Hin). lia.
Qed.

Lemma on_the_way_start s :
  monitor_inv s -> timed_inv s -> start_called s = true -> stopped_ (mon s) = false -> w_now (wld s) = t0 -> on_the_way s.
Proof using Hlat Hint Htmo.
  intros Hinv [Ho Hw Hp] Hsc Hst Ht. unfold on_the_way, round_start, round_end, expires_after in *.
  destruct (pending s) as [|p l] eqn:Hps.
  - right; left. apply fmap_nil_inv in Hps. pose proof (mi_alive _ Hinv Hsc Hst Hps) as Hwt. specialize (Hw Hwt). split; [done|lia].
  - left. split; [done|]. intros j d b Hin. specialize (Hp _ _ _ Hin). lia.
Qed.

Lemma on_the_way_step s ev s' :
  monitor_inv s -> legal s ev -> conf_next s ev = Ok s' -> stopped_ (mon s') = false -> start_called s = true ->
  timed_inv s -> t0 <= w_now (wld s) -> 0 <= i < pool_size (w_pool (wld s)) -> on_the_way s ->
  on_the_way s' \/ exists h b, verdict_of s ev = Some (i, h, b) /\ t0 <= b.
Proof using Hlat Hint Htmo.
  intros Hinv Hl Hn Hst' Hsc Htimed Ht0 Hi Hway. pose proof (stopped_stays s ev s' Hinv Hl Hn Hst') as Hst.
  pose proof (on_the_way_time s Htimed Hway) as Hnow. destruct Htimed as [Ho Hw Hp].
  destruct (step_shape s ev s' Hinv Hl Hst Hn Hst') as [[->|Hs] _]; [simpl in Hl; congruence|].
  destruct Hs as [Hp' Hw' He' _|Hw1 Hp1 Hw' Hn' Hp'|j d b h l1 l2 Hp1 Hp' Hv Hw1 Hn' Hlast Hmore].
  - left. unfold on_the_way. by rewrite Hp', Hw', He'.
  - left. right; right. exists (expires_after (w_now (wld s)) (timeout options)), (w_now (wld s)). split; [|split; [done|]].
    + rewrite Hp', Ho. apply list_elem_of_fmap. exists (Z.to_nat i). rewrite Z2Nat.id by lia. split; [done|].
      apply elem_of_seq. lia.
    + destruct Hway as [[Hne _]|[[_ He]|(d & b & Hin & _)]]; [by rewrite Hp1 in Hne| |by rewrite Hp1 in Hin; apply not_elem_of_nil in Hin].
      specialize (Hw Hw1). unfold decided_by, expires_after in *. lia.
  - destruct Hway as [[Hne Hall]|[[Hwt _]|(d' & b' & Hin & Hb & Hd)]].
    + left. destruct (decide (l1 ++ l2 = [])) as [Hnil|Hnn].
      * right; left. destruct (Hlast Hnil) as [-> He]. split; [done|]. rewrite He, Ho.
        assert ((j, d, b) ∈ pending s) as Hjin by (rewrite Hp1, elem_of_app, elem_of_cons; tauto).
        specialize (Hall j d b Hjin). specialize (Hp j d b Hjin). unfold round_start, round_end, expires_after in *. lia.
      * left. rewrite Hp'. split; [done|]. intros j' d' b' Hin. apply (Hall j' d' b'). rewrite Hp1, elem_of_app, elem_of_cons. apply elem_of_app in Hin. tauto.
    + by rewrite Hw1 in Hwt.
    + destruct (decide ((j, d, b) = (i, d', b'))) as [Heq|Hne].
      * right. injection Heq as -> -> ->. eauto.
      * left. right; right. exists d', b'. split; [|done]. rewrite Hp', elem_of_app.
        rewrite Hp1, elem_of_app, elem_of_cons in Hin. destruct Hin as [?|[?|?]]; [by left|congruence|by right].
Qed.
End timed.

(** ** Lemmas: runs *)

(** The shared parts after a completion, and the flag a verdict leaves. *)
Lemma check_event_world s k cev s' :
  monitor_inv s -> legal s (EvCheck k cev) -> conf_next s (EvCheck k cev) = Ok s' ->
  match verdict_of s (EvCheck k cev) with
  | Some (i, h, _) => 0 <= i < pool_size (w_pool (wld s)) /\ store_verdict i h (wld s) = Ok (wld s')
  | None => wld s' = wld s
  end.
Proof.
  intros Hinv (cc & Hcc & Hlegal) Hn. cbn [conf_next] in Hn. unfold verdict_of. rewrite Hcc in *.
  assert (check_ok (pool_size (w_pool (wld s))) cc) as Hok by (eapply Forall_lookup_1; [apply Hinv|done]).
  destruct (completed_ (chk cc)) eqn:Hco.
  - destruct (check_next_done _ cev (wld s) _ Hok Hco Hlegal) as (cc2 & Hn2 & _). rewrite Hn2 in Hn. by injection Hn as <-.
  - destruct (check_next_live _ cev (wld s) _ Hok eq_refl Hco Hlegal) as (w2 & cc2 & Hm & _ & _).
    destruct (decides cev) as [h|]; simpl.
    + destruct Hm as (Hn2 & _ & Hs). rewrite Hn2 in Hn. cbn [result_bind] in Hn.
      split; [apply (check_ok_index _ _ Hok)|]. apply monitor_issues_wld in Hn. by rewrite Hn.
    + destruct Hm as (Hn2 & _ & -> & _). rewrite Hn2 in Hn. by injection Hn as <-.
Qed.

Lemma conf_next_size s ev s' :
  monitor_inv s -> legal s ev -> conf_next s ev = Ok s' -> pool_size (w_pool (wld s')) = pool_size (w_pool (wld s)).
Proof.
  intros Hinv Hl Hn. destruct ev as [| |i error|k cev| |op|t].
  - by rewrite (monitor_issues_wld _ _ _ Hn).
  - by rewrite (monitor_issues_wld _ _ _ Hn).
  - by rewrite (monitor_issues_wld _ _ _ Hn).
  - pose proof (check_event_world s k cev s' Hinv Hl Hn) as Hw.
    destruct (verdict_of s (EvCheck k cev)) as [[[i h] b]|]; [|by rewrite Hw].
    destruct Hw as [Hi Hs]. by destruct (store_verdict_pool i h _ _ Hi Hs (mi_pool _ Hinv)).
  - injection Hn as <-. unfold pool_size. cbn [wld with_world w_pool].
    by rewrite select_backends by apply Hinv.
  - by injection Hn as <-.
  - by injection Hn as <-.
Qed.

Lemma texec_inv latency s evs s' : monitor_inv s -> texec latency s evs s' -> monitor_inv s'.
Proof.
  intros Hinv Hexec. induction Hexec as [|s ev s1 evs s' Hl _ Hn _ IH]; [done|]. apply IH.
  destruct (conf_next_inv s ev Hinv Hl) as (s2 & Hn2 & Hinv2). congruence.
Qed.

Lemma texec_unstopped latency s evs s' :
  monitor_inv s -> texec latency s evs s' -> stopped_ (mon s') = false -> stopped_ (mon s) = false.
Proof.
  intros Hinv Hexec. induction Hexec as [|s ev s1 evs s' Hl _ Hn _ IH]; [done|]. intros Hst.
  destruct (conf_next_inv s ev Hinv Hl) as (s2 & Hn2 & Hinv2). assert (s2 = s1) as -> by congruence.
  eapply stopped_stays; eauto.
Qed.

Lemma texec_timed latency options s evs s' :
  0 <= latency -> 0 <= interval options -> 0 <= timeout options ->
  monitor_inv s -> timed_inv latency options s -> texec latency s evs s' -> stopped_ (mon s') = false ->
  timed_inv latency options s' /\ pool_size (w_pool (wld s')) = pool_size (w_pool (wld s)).
Proof.
  intros Hlat Hint Htmo Hinv Htimed Hexec. induction Hexec as [|s ev s1 evs s' Hl Hp Hn Hrest IH]; [done|]. intros Hst.
  destruct (conf_next_inv s ev Hinv Hl) as (s2 & Hn2 & Hinv2). assert (s2 = s1) as -> by congruence.
  rewrite <- (conf_next_size s ev s1 Hinv Hl Hn). apply IH; [done| |done].
  pose proof (texec_unstopped _ _ _ _ Hinv2 Hrest Hst). by eapply (timed_step latency options Hlat Hint Htmo s ev s1).
Qed.

Lemma clock_monotone s ev s' :
  monitor_inv s -> legal s ev -> conf_next s ev = Ok s' -> w_now (wld s) <= w_now (wld s').
Proof.
  intros Hinv Hl Hn. destruct ev as [| |i error|k cev| |op|t].
  - by rewrite (monitor_issues_wld _ _ _ Hn).
  - by rewrite (monitor_issues_wld _ _ _ Hn).
  - by rewrite (monitor_issues_wld _ _ _ Hn).
  - pose proof (check_event_world s k cev s' Hinv Hl Hn) as Hw.
    destruct (verdict_of s (EvCheck k cev)) as [[[i h] b]|]; [|by rewrite Hw].
    destruct Hw as [_ Hs]. apply store_verdict_rest in Hs as [-> _]. lia.
  - injection Hn as <-. simpl. lia.
  - injection Hn as <-. simpl. lia.
  - by injection Hn as <-.
Qed.

Lemma texec_checked latency options i t0 s evs s' :
  0 <= latency -> 0 <= interval options -> 0 <= timeout options -> 0 <= i < pool_size (w_pool (wld s)) ->
  monitor_inv s -> timed_inv latency options s -> start_called s = true -> t0 <= w_now (wld s) ->
  on_the_way latency options i t0 s -> texec latency s evs s' -> stopped_ (mon s') = false ->
  decided_by latency options t0 < w_now (wld s') -> checked_since i t0 s evs.
Proof.
  intros Hlat Hint Htmo Hi Hinv Htimed Hsc Ht0 Hway Hexec Hst Hlate.
  induction Hexec as [s|s ev s1 evs s' Hl Hp Hn Hrest IH].
  { pose proof (on_the_way_time latency options Hlat Hint Htmo i t0 s Htimed Hway). lia. }
  destruct (conf_next_inv s ev Hinv Hl) as (s2 & Hn2 & Hinv2). assert (s2 = s1) as -> by congruence.
  pose proof (texec_unstopped _ _ _ _ Hinv2 Hrest Hst) as Hst1.
  destruct (on_the_way_step latency options Hlat Hint Htmo i t0 s ev s1) as [Hway1|(h & b & Hv & Hb)]; try done.
  - eapply checked_later; [done|]. apply IH; try done.
    + by rewrite (conf_next_size s ev s1 Hinv Hl Hn).
    + by eapply (timed_step latency options Hlat Hint Htmo s ev s1).
    + rewrite (start_called_next s ev s1 Hn). by destruct ev.
    + pose proof (clock_monotone s ev s1 Hinv Hl Hn). lia.
  - by eapply checked_here.
Qed.

Lemma conf_new_timed latency pool metrics options : timed_inv latency options (conf_new pool metrics options).
Proof. split; [done|done|]. intros ? ? ? ?%not_elem_of_nil. done. Qed.

(** ** Theorems *)

(** C16.  A backend that changes is noticed.  Take any time after the start at which the
    monitor has not been stopped: within the interval, twice the timeout and three times
    the latency of the timers (four seconds and the latencies, by default) every backend
    is checked anew, by a check that began after that time and has given its verdict; and
    a verdict leaves the flag of its backend as it says. *)
Theorem verdict_latency latency pool metrics options evs0 s0 evs s i :
  pool_ok pool -> 0 <= latency -> 0 <= interval options -> 0 <= timeout options -> 0 <= i < pool_size pool ->
  texec latency (conf_new pool metrics options) evs0 s0 -> start_called s0 = true ->
  texec latency s0 evs s -> stopped_ (mon s) = false ->
  (w_now (wld s0) + (interval options + 2 * timeout options) * 1000000 + 3 * latency < w_now (wld s) ->
   checked_since i (w_now (wld s0)) s0 evs) /\
  (forall ev s' h b, legal s ev -> conf_next s ev = Ok s' -> verdict_of s ev = Some (i, h, b) ->
     is_healthy (w_pool (wld s')) i = Ok h).
Proof.
  intros Hp Hlat Hint Htmo Hi Hexec0 Hsc Hexec Hst. pose proof (conf_new_inv pool metrics options Hp) as Hnew.
  pose proof (texec_inv _ _ _ _ Hnew Hexec0) as Hinv0. pose proof (texec_inv _ _ _ _ Hinv0 Hexec) as Hinv.
  pose proof (texec_unstopped _ _ _ _ Hinv0 Hexec Hst) as Hst0.
  destruct (texec_timed latency options _ _ _ Hlat Hint Htmo Hnew (conf_new_timed _ _ _ _) Hexec0 Hst0) as [Htimed0 Hsz].
  simpl in Hsz. split.
  - intros Hlate. apply (texec_checked latency options i _ s0 evs s); try done; [by rewrite Hsz| |].
    + by apply on_the_way_start.
    + unfold decided_by, round_start, round_end, expires_after. lia.
  - intros ev s' h b Hl Hn Hv. destruct ev as [| | |k cev| | |]; try done.
    pose proof (check_event_world s k cev s' Hinv Hl Hn) as Hw. rewrite Hv in Hw. destruct Hw as [Hi' Hs].
    destruct (store_verdict_ok i h _ Hi') as (bk & Hbk & Heq). simpl in Heq. rewrite Hs in Heq. injection Heq as ->. simpl.
    unfold is_healthy. rewrite backend_at_insert by lia. by rewrite decide_True.
Qed.

(** Runs that can be evaluated. *)
#[export] Instance check_legal_dec cc ev : Decision (check_legal cc ev).
Proof.
  destruct ev as [error|error|error]; simpl; [|apply _|apply _].
  destruct (timer cc) as [[]|]; [left; by exists true| |right; by intros (c & ? & _)].
  destruct error; [right|left; by exists false]. intros (c & [= <-] & Hc). by discriminate Hc.
Defined.

#[export] Instance legal_dec s ev : Decision (legal s ev).
Proof.
  destruct ev as [| |i error|k cev| |op|t]; simpl; try apply _.
  destruct (checks s !! k) as [cc|]; [|right; by intros (c & ? & _)].
  destruct (decide (check_legal cc cev)) as [Hl|Hl]; [left; by exists cc|right]. by intros (c & [= <-] & Hc).
Defined.

Lemma timers_punctual latency t ccs :
  (forall cc, cc ∈ ccs -> timer cc = Some false -> t <= deadline cc + latency) <->
  Forall (fun cc => timer cc = Some false -> t <= deadline cc + latency) ccs.
Proof. by rewrite Forall_forall. Qed.

#[export] Instance punctual_dec latency s ev : Decision (punctual latency s ev).
Proof.
  destruct ev as [| |i []|k [[]| |]| |op|t]; simpl; try apply _.
  - destruct (checks s !! k) as [cc|]; [|left; by intros ? [=]].
    destruct (decide (timer cc = Some false -> deadline cc <= w_now (wld s))) as [Hd|Hd]; [left|right].
    + by intros ? [= <-].
    + intros Hall. apply Hd. by apply Hall.
  - refine (cast_if (decide ((false ∈ waits s -> t <= expiry s + latency) /\
      Forall (fun cc => timer cc = Some false -> t <= deadline cc + latency) (checks s))));
    by rewrite timers_punctual.
Defined.

Fixpoint timed_run (latency : Z) (evs : list hm_event) (s : conf) : option conf :=
  match evs with
  | [] => Some s
  | ev :: evs' =>
      if decide (legal s ev /\ punctual latency s ev) then
        match conf_next s ev with Ok s' => timed_run latency evs' s' | Throw _ => None end
      else None
  end.

Lemma timed_run_texec latency evs s s' : timed_run latency evs s = Some s' -> texec latency s evs s'.
Proof.
  revert s. induction evs as [|ev evs IH]; intros s Hr; simpl in Hr; [injection Hr as ->; constructor|].
  case_decide as Hl; [|done]. destruct (conf_next s ev) as [s1|] eqn:Hn; [|done]. destruct Hl.
  eapply texec_cons; eauto.
Qed.

(** Two rounds in which backend 1 does not answer: its timer decides. *)
Definition down_events : list hm_event :=
  [EvStart; EvWait 0 false; EvCheck 0 (EvResolved false); EvCheck 0 (EvConnected false); EvCheck 2 (EvResolved true);
   EvClock 1000000000; EvCheck 1 (EvTimer false)].
Definition next_round : list hm_event :=
  [EvClock 3000000000; EvWait 0 false; EvCheck 3 (EvResolved true); EvCheck 5 (EvResolved true); EvClock 4000000000;
   EvCheck 4 (EvTimer false); EvClock 5000000001].

Definition new_conf : conf := conf_new pool_abc None default_health_options.
Definition after_down : conf := Eval vm_compute in default new_conf (timed_run 0 down_events new_conf).
Definition after_round : conf := Eval vm_compute in default new_conf (timed_run 0 next_round after_down).

Lemma verdict_latency_witness :
  w_now (wld after_down) = 1000000000 /\ w_now (wld after_round) = 5000000001 /\
  checked_since 1 1000000000 after_down next_round.
Proof.
  split; [reflexivity|]. split; [reflexivity|].
  apply (proj1 (verdict_latency 0 pool_abc None default_health_options down_events after_down next_round after_round 1
    pool_abc_ok ltac:(lia) ltac:(vm_compute; congruence) ltac:(vm_compute; congruence) ltac:(vm_compute; split; congruence)
    (timed_run_texec 0 down_events new_conf after_down ltac:(vm_compute; reflexivity)) eq_refl
    (timed_run_texec 0 next_round after_down after_round ltac:(vm_compute; reflexivity)) eq_refl)).
  vm_compute. reflexivity.
Defined.
