(* ===== verification/HttpSession.v ===== *)
(** * One client connection

    [include/eventedge/http_session.hpp] and [src/http_session.cpp].  The handlers of a
    session run on its strand, one after another, while those of other sessions run on
    other threads.  What they share is the pool, the cache, the coalescer and the
    metrics, each with its own lock; so a handler is a program ([prog]) made of the
    atomic operations on these, of the library calls, and of what it does with their
    answers.  Between any two operations other threads may run: a [path] through a
    program takes any answer at each operation, and a property of all paths holds
    whatever the other threads do.  ([System] runs the programs of all sessions
    against one shared state.)

    - [do_read], [on_read], [complete_flight], [cacheable_request],
      [cacheable_response], [write_response], [write_response_for_current_request],
      [session_on_write], [session_close]: the member functions, with their names;
    - [on_posted], [on_proxy_response]: the bodies of the lambdas [on_read] passes to
      the coalescer and to the proxy.

    A callback stored in the coalescer posts the response to the session that stored
    it, so it is the number of that session. *)

From Stdlib Require Import Ascii.
From stdpp Require Import base strings numbers list.
From S2P Require Import Prelude CppString Beast UpstreamPool RequestCoalescer HttpHandler Metrics.

Section session.
Context {F : Type} `{!Beast F}.

(** The state of a session; the other members are its stream and buffer, and the
    pointers to the shared parts. *)
Record HttpSession := mkSession {
  request_ : request F;
  request_started_ : Z;                (* steady_clock::time_point *)
}.

(** The library calls that end a handler, or start what comes next. *)
Inductive lib_call :=
| LExpiresAfter (seconds : Z)
| LAsyncRead
| LAsyncWrite (resp : response F) (close_after_write : bool)
| LShutdownSend
| LLog (operation : string) (error : error_code)   (* the operation, [error.message()] and a newline to [std::cerr] *)
| LProxy (upstream : UpstreamEndpoint) (req : request F) (key : option string).
    (* an [UpstreamProxy] is made and run; [key] is what its handler captures *)

Inductive prog :=
| Ret (s : HttpSession)
| Raise (e : cpp_exception)
| Now (k : Z -> prog)
| Metric (op : metric_op) (k : prog)
| Render (k : result string -> prog)
| CacheGet (key : string) (k : option (response F) -> prog)
| CachePut (key : string) (resp : response F) (k : prog)
| LockCoalescer (k : bool -> prog)
| JoinOrStart (key : string) (k : Role -> prog)
| CompleteFlight (key : string) (k : option (list nat) -> prog)
| Post (session : nat) (resp : response F) (k : prog)
| Select (k : option UpstreamEndpoint -> prog)
| Lib (call : lib_call) (k : prog).

Definition set_request (req : request F) (s : HttpSession) : HttpSession := mkSession req (request_started_ s).
Definition set_started (t : Z) (s : HttpSession) : HttpSession := mkSession (request_ s) t.

Definition session_close (s : HttpSession) : prog := Lib LShutdownSend (Ret s).

Definition do_read (s : HttpSession) : prog :=
  let s := set_request req_empty s in
  Lib (LExpiresAfter 30) (Lib LAsyncRead (Ret s)).

Definition cacheable_request (s : HttpSession) : bool :=
  bool_decide (req_method (request_ s) = verb_get) &&
  bool_decide (fields_find field.authorization (req_fields (request_ s)) = None) &&
  negb (is_health_request (request_ s)).

Definition cacheable_response (resp : response F) : bool :=
  if negb (res_result resp =? status.ok)%Z || bool_decide (fields_find field.set_cookie (res_fields resp) <> None)
  then false
  else
    let cache_control := fields_at field.cache_control (res_fields resp) in
    negb (sv_contains "no-store" cache_control) && negb (sv_contains "private" cache_control).

Definition write_response (resp : response F) (s : HttpSession) : prog :=
  Metric (MStatus (res_result resp))
  (Now (fun now =>
   Metric (MDuration (now - request_started_ s))
   (Lib (LAsyncWrite resp (need_eof resp)) (Ret s)))).

(** The response as it is adapted to the request of this session. *)
Definition adapted (resp : response F) (s : HttpSession) : response F :=
  res_set_keep_alive (req_keep_alive (request_ s)) (res_with_version (req_version (request_ s)) resp).

Definition write_response_for_current_request (resp : response F) (s : HttpSession) : prog :=
  write_response (adapted resp s) s.

(** The callbacks a completed flight calls, in order; each posts to its session. *)
Fixpoint post_all (sessions : list nat) (resp : response F) (k : prog) : prog :=
  match sessions with
  | [] => k
  | w :: ws => Post w resp (post_all ws resp k)
  end.

Definition complete_flight (key : string) (resp : response F) (should_cache : bool) (s : HttpSession) : prog :=
  let rest :=
    LockCoalescer (fun alive =>
      if alive then
        CompleteFlight key (fun ws =>
          post_all (default [] ws) resp (write_response_for_current_request resp s))
      else write_response_for_current_request resp s) in
  if should_cache && cacheable_response resp then CachePut key resp rest else rest.

(** The response of the metrics endpoint. *)
Definition metrics_response (req : request F) (text : string) : response F :=
  let r := res_new status.ok (req_version req) in
  let r := res_set field.content_type "text/plain; version=0.0.4" r in
  let r := res_set_keep_alive (req_keep_alive req) r in
  let r := res_with_body text r in
  res_prepare_payload r.

(** Hand the request to an upstream. *)
Definition start_proxy (upstream : UpstreamEndpoint) (key : option string) (s : HttpSession) : prog :=
  Metric (MEvent ProxyRequest)
  (Metric (MSelection (endpoint_label upstream))
  (Metric (MEvent ProxyStarted)
  (Lib (LProxy upstream (request_ s) key) (Ret s)))).

(** The rest of [on_read], once the start time is taken. *)
Definition serve_request (s : HttpSession) : prog :=
  Metric (MEvent Request)
  (if is_health_request (request_ s) then
     Metric (MEvent HealthRequest) (write_response (handle_request (request_ s)) s)
   else if bool_decide (req_target (request_ s) = "/metrics") then
     Metric (MEvent MetricsRequest)
     (if negb (bool_decide (req_method (request_ s) = verb_get)) then
        write_response (handle_request (request_ s)) s
      else
        Render (fun text =>
          match text with
          | Ok text => write_response (metrics_response (request_ s) text) s
          | Throw e => Raise e
          end))
   else
     let cache_key := req_target (request_ s) in
     if cacheable_request s then
       CacheGet cache_key (fun cached =>
         match cached with
         | Some resp => Metric (MEvent CacheHit) (write_response_for_current_request resp s)
         | None =>
             Metric (MEvent CacheMiss)
             (LockCoalescer (fun alive =>
              if negb alive then
                write_response_for_current_request (make_service_unavailable_response (request_ s)) s
              else
                JoinOrStart cache_key (fun role =>
                  match role with
                  | waiter => Metric (MEvent CoalescingWaiter) (Ret s)
                  | leader =>
                      Metric (MEvent CoalescingLeader)
                      (Select (fun upstream =>
                         match upstream with
                         | None => complete_flight cache_key (make_service_unavailable_response (request_ s)) false s
                         | Some upstream => start_proxy upstream (Some cache_key) s
                         end))
                  end)))
         end)
     else
       Select (fun upstream =>
         match upstream with
         | None => write_response (make_service_unavailable_response (request_ s)) s
         | Some upstream => start_proxy upstream None s
         end)).

Definition on_read (error : error_code) (s : HttpSession) : prog :=
  if decide (error = ec_end_of_stream) then session_close s
  else if is_error error then
    if decide (error = ec_operation_aborted) then Ret s else Lib (LLog "Read error: " error) (Ret s)
  else Now (fun now => serve_request (set_started now s)).

(** The handler of a proxied request: [key] is set when the request leads a flight. *)
Definition on_proxy_response (key : option string) (resp : response F) (s : HttpSession) : prog :=
  Metric MProxyCompleted
  (match key with
   | Some key => complete_flight key resp true s
   | None => write_response_for_current_request resp s
   end).

(** What a waiting session runs when the response is posted to it. *)
Definition on_posted (resp : response F) (s : HttpSession) : prog := write_response_for_current_request resp s.

Definition session_on_write (close_after_write : bool) (error : error_code) (s : HttpSession) : prog :=
  if is_error error then
    if decide (error = ec_operation_aborted) then Ret s else Lib (LLog "Write error: " error) (Ret s)
  else if close_after_write then session_close s
  else do_read s.

(** ** Paths *)

(** What a path shows of an operation. *)
Inductive obs :=
| OMetric (op : metric_op)
| OCacheGet (key : string) (answer : option (response F))
| OCachePut (key : string) (resp : response F)
| OJoin (key : string) (role : Role)
| OComplete (key : string) (sessions : option (list nat))
| OPost (session : nat) (resp : response F)
| OSelect (answer : option UpstreamEndpoint)
| OLib (call : lib_call).

Inductive final := Returned (s : HttpSession) | Raised (e : cpp_exception).

Inductive path : prog -> list obs -> final -> Prop :=
| path_ret s : path (Ret s) [] (Returned s)
| path_raise e : path (Raise e) [] (Raised e)
| path_now k t os f : path (k t) os f -> path (Now k) os f
| path_metric op k os f : path k os f -> path (Metric op k) (OMetric op :: os) f
| path_render k text os f : path (k text) os f -> path (Render k) os f
| path_cache_get key k r os f : path (k r) os f -> path (CacheGet key k) (OCacheGet key r :: os) f
| path_cache_put key r k os f : path k os f -> path (CachePut key r k) (OCachePut key r :: os) f
| path_lock k alive os f : path (k alive) os f -> path (LockCoalescer k) os f
| path_join key k role os f : path (k role) os f -> path (JoinOrStart key k) (OJoin key role :: os) f
| path_complete key k ws os f : path (k ws) os f -> path (CompleteFlight key k) (OComplete key ws :: os) f
| path_post w r k os f : path k os f -> path (Post w r k) (OPost w r :: os) f
| path_select k u os f : path (k u) os f -> path (Select k) (OSelect u :: os) f
| path_lib c k os f : path k os f -> path (Lib c k) (OLib c :: os) f.
End session.

Arguments HttpSession F : clear implicits.
Arguments lib_call F : clear implicits.
Arguments prog F : clear implicits.
Arguments obs F : clear implicits.
Arguments final F : clear implicits.

(** ** What an observer of a path sees *)

Section observers.
Context {F : Type}.
Implicit Types (os : list (obs F)).

(** The responses written, each with the close flag. *)
Definition writes os : list (response F * bool) :=
  omap (fun o => match o with OLib (LAsyncWrite r c) => Some (r, c) | _ => None end) os.

(** The proxies started: the upstream, the request and the key of the flight. *)
Definition proxies os : list (UpstreamEndpoint * request F * option string) :=
  omap (fun o => match o with OLib (LProxy u req key) => Some (u, req, key) | _ => None end) os.

(** The flights joined as a waiter, and as the leader. *)
Definition waits_for os : list string :=
  omap (fun o => match o with OJoin key waiter => Some key | _ => None end) os.
Definition leads os : list string :=
  omap (fun o => match o with OJoin key leader => Some key | _ => None end) os.

(** The flights completed, the responses stored in the cache, the posts. *)
Definition completed os : list string :=
  omap (fun o => match o with OComplete key _ => Some key | _ => None end) os.
Definition stored os : list (string * response F) :=
  omap (fun o => match o with OCachePut key r => Some (key, r) | _ => None end) os.
Definition looked_up os : list string :=
  omap (fun o => match o with OCacheGet key _ => Some key | _ => None end) os.
Definition posts os : list (nat * response F) :=
  omap (fun o => match o with OPost w r => Some (w, r) | _ => None end) os.

(** The metrics recorded. *)
Definition metrics_of os : list metric_op :=
  omap (fun o => match o with OMetric op => Some op | _ => None end) os.
Definition statuses os : list Z :=
  omap (fun op => match op with MStatus st => Some st | _ => None end) (metrics_of os).
Definition durations_of os : list Z := durations (metrics_of os).
Definition events os : list event :=
  omap (fun op => match op with MEvent e => Some e | _ => None end) (metrics_of os).
End observers.

(** ** Lemmas: paths *)

(** Follow the operations of a program whose text is known. *)
Ltac path_step :=
  match goal with
  | H : path (Ret _) _ _ |- _ => inversion H; subst; clear H
  | H : path (Raise _) _ _ |- _ => inversion H; subst; clear H
  | H : path (Now _) _ _ |- _ => inversion H; subst; clear H
  | H : path (Metric _ _) _ _ |- _ => inversion H; subst; clear H
  | H : path (Render _) _ _ |- _ => inversion H; subst; clear H
  | H : path (CacheGet _ _) _ _ |- _ => inversion H; subst; clear H
  | H : path (CachePut _ _ _) _ _ |- _ => inversion H; subst; clear H
  | H : path (LockCoalescer _) _ _ |- _ => inversion H; subst; clear H
  | H : path (JoinOrStart _ _) _ _ |- _ => inversion H; subst; clear H
  | H : path (CompleteFlight _ _) _ _ |- _ => inversion H; subst; clear H
  | H : path (Select _) _ _ |- _ => inversion H; subst; clear H
  | H : path (Lib _ _) _ _ |- _ => inversion H; subst; clear H
  end.

(** Split on the answer a program looks at. *)
Ltac path_answer x :=
  match goal with H : path (match ?r with _ => _ end) _ _ |- _ => destruct r as [x|] end.

Section paths.
Context {F : Type} `{!Beast F}.
Implicit Types (s : HttpSession F) (os : list (obs F)) (r : response F).

(** The trace of a write. *)
Definition write_trace (d : Z) r : list (obs F) :=
  [OMetric (MStatus (res_result r)); OMetric (MDuration d); OLib (LAsyncWrite r (need_eof r))].

Lemma path_write r s os f :
  path (write_response r s) os f -> exists d, os = write_trace d r /\ f = Returned s.
Proof. unfold write_response. intros Hp. repeat path_step. eauto. Qed.

Lemma path_write_current r s os f :
  path (write_response_for_current_request r s) os f -> exists d, os = write_trace d (adapted r s) /\ f = Returned s.
Proof. apply path_write. Qed.

Lemma path_post_all ws r k os f :
  path (post_all ws r k) os f -> exists os', os = ((fun w => OPost w r) <$> ws) ++ os' /\ path k os' f.
Proof.
  revert os. induction ws as [|w ws IH]; intros os Hp; simpl in *; [eauto|].
  inversion Hp as [| | | | | | | | | |w' r' k' os1 f' Hp'| |]; subst. destruct (IH _ Hp') as (os' & -> & Hk).
  exists os'. done.
Qed.

End paths.

(** A write ends the path. *)
Ltac path_written d :=
  match goal with
  | H : path (write_response _ _) _ _ |- _ => apply path_write in H as (d & -> & ->)
  | H : path (write_response_for_current_request _ _) _ _ |- _ => apply path_write_current in H as (d & -> & ->)
  end.

Section flights.
Context {F : Type} `{!Beast F}.
Implicit Types (s : HttpSession F) (os : list (obs F)) (r : response F).

(** The trace of the completion of a flight. *)
Lemma path_complete_flight key r cache s os f :
  path (complete_flight key r cache s) os f ->
  f = Returned s /\ exists d put done,
    os = put ++ done ++ write_trace d (adapted r s) /\
    put = (if cache && cacheable_response r then [OCachePut key r] else []) /\
    (done = [] \/ exists ws, done = OComplete key ws :: ((fun w => OPost w r) <$> default [] ws)).
Proof.
  unfold complete_flight. intros Hp.
  assert (exists put os', os = put ++ os' /\ put = (if cache && cacheable_response r then [OCachePut key r] else []) /\
    path (LockCoalescer (fun alive => if alive then CompleteFlight key (fun ws =>
      post_all (default [] ws) r (write_response_for_current_request r s))
      else write_response_for_current_request r s)) os' f) as (put & os' & -> & Hput & Hp').
  { destruct (cache && cacheable_response r); [|exists [], os; done]. path_step. eexists [_], _. done. }
  clear Hp. path_step. destruct alive.
  - path_step. match goal with H : path (post_all _ _ _) _ _ |- _ => apply path_post_all in H as (os1 & -> & H) end.
    path_written d.
    split; [done|]. eexists d, _, (OComplete key _ :: _). split; [reflexivity|]. split; [done|]. right. eauto.
  - path_written d.
    split; [done|]. eexists d, _, []. split; [reflexivity|]. split; [done|by left].
Qed.

Lemma path_start_proxy u key s os f :
  path (start_proxy u key s) os f ->
  f = Returned s /\ os = [OMetric (MEvent ProxyRequest); OMetric (MSelection (endpoint_label u));
    OMetric (MEvent ProxyStarted); OLib (LProxy u (request_ s) key)].
Proof. unfold start_proxy. intros Hp. repeat path_step. done. Qed.
End flights.

(** ** The reference: how a request is served *)

Section reference.
Context {F : Type} `{!Beast F}.

(** The operations on the shared parts that serve a request, case by case.  [s] is the
    session once the start time is taken. *)
Inductive served (s : HttpSession F) : list (obs F) -> final F -> Prop :=
| served_health d :
    req_target (request_ s) = "/health" ->
    served s ([OMetric (MEvent Request); OMetric (MEvent HealthRequest)] ++
              write_trace d (handle_request (request_ s))) (Returned s)
| served_metrics_405 d :
    req_target (request_ s) = "/metrics" -> req_method (request_ s) <> verb_get ->
    served s ([OMetric (MEvent Request); OMetric (MEvent MetricsRequest)] ++
              write_trace d (handle_request (request_ s))) (Returned s)
| served_metrics text d :
    req_target (request_ s) = "/metrics" -> req_method (request_ s) = verb_get ->
    served s ([OMetric (MEvent Request); OMetric (MEvent MetricsRequest)] ++
              write_trace d (metrics_response (request_ s) text)) (Returned s)
| served_metrics_throw e :
    req_target (request_ s) = "/metrics" -> req_method (request_ s) = verb_get ->
    served s [OMetric (MEvent Request); OMetric (MEvent MetricsRequest)] (Raised e)
| served_hit resp d :
    cacheable_request s = true -> req_target (request_ s) <> "/metrics" ->
    served s ([OMetric (MEvent Request); OCacheGet (req_target (request_ s)) (Some resp);
               OMetric (MEvent CacheHit)] ++ write_trace d (adapted resp s)) (Returned s)
| served_shutdown d :
    cacheable_request s = true -> req_target (request_ s) <> "/metrics" ->
    served s ([OMetric (MEvent Request); OCacheGet (req_target (request_ s)) None; OMetric (MEvent CacheMiss)] ++
              write_trace d (adapted (make_service_unavailable_response (request_ s)) s)) (Returned s)
| served_wait :
    cacheable_request s = true -> req_target (request_ s) <> "/metrics" ->
    served s [OMetric (MEvent Request); OCacheGet (req_target (request_ s)) None; OMetric (MEvent CacheMiss);
              OJoin (req_target (request_ s)) waiter; OMetric (MEvent CoalescingWaiter)] (Returned s)
| served_lead_503 done d :
    cacheable_request s = true -> req_target (request_ s) <> "/metrics" ->
    let resp := make_service_unavailable_response (request_ s) in
    (done = [] \/ exists ws, done = OComplete (req_target (request_ s)) ws :: ((fun w => OPost w resp) <$> default [] ws)) ->
    served s ([OMetric (MEvent Request); OCacheGet (req_target (request_ s)) None; OMetric (MEvent CacheMiss);
               OJoin (req_target (request_ s)) leader; OMetric (MEvent CoalescingLeader); OSelect None] ++
              done ++ write_trace d (adapted resp s)) (Returned s)
| served_lead u :
    cacheable_request s = true -> req_target (request_ s) <> "/metrics" ->
    served s ([OMetric (MEvent Request); OCacheGet (req_target (request_ s)) None; OMetric (MEvent CacheMiss);
               OJoin (req_target (request_ s)) leader; OMetric (MEvent CoalescingLeader); OSelect (Some u)] ++
              [OMetric (MEvent ProxyRequest); OMetric (MSelection (endpoint_label u)); OMetric (MEvent ProxyStarted);
               OLib (LProxy u (request_ s) (Some (req_target (request_ s))))]) (Returned s)
| served_bypass_503 d :
    cacheable_request s = false -> req_target (request_ s) <> "/health" -> req_target (request_ s) <> "/metrics" ->
    served s ([OMetric (MEvent Request); OSelect None] ++
              write_trace d (make_service_unavailable_response (request_ s))) (Returned s)
| served_bypass u :
    cacheable_request s = false -> req_target (request_ s) <> "/health" -> req_target (request_ s) <> "/metrics" ->
    served s ([OMetric (MEvent Request); OSelect (Some u)] ++
              [OMetric (MEvent ProxyRequest); OMetric (MSelection (endpoint_label u)); OMetric (MEvent ProxyStarted);
               OLib (LProxy u (request_ s) None)]) (Returned s).
End reference.

Section on_read_paths.
Context {F : Type} `{!Beast F}.
Implicit Types (s : HttpSession F) (os : list (obs F)) (r : response F).

Lemma path_serve_request s1 os f : path (serve_request s1) os f -> served s1 os f.
Proof.
  intros Hp. unfold serve_request in Hp. path_step.
  destruct (is_health_request (request_ s1)) eqn:Hh.
  { path_step. path_written d.
    apply (served_health s1 d). by apply bool_decide_eq_true in Hh. }
  unfold is_health_request in Hh. apply bool_decide_eq_false in Hh.
  case_bool_decide as Hm.
  { path_step. case_bool_decide as Hget; simpl in *.
    - path_step. destruct text as [text|e].
      + path_written d.
        by apply (served_metrics s1 text d).
      + path_step. by apply served_metrics_throw.
    - path_written d.
      by apply (served_metrics_405 s1 d). }
  destruct (cacheable_request s1) eqn:Hc.
  - path_step. path_answer resp.
    { path_step. path_written d. by apply (served_hit s1 resp d). }
    path_step. path_step. destruct alive; simpl in *.
    + path_step. destruct role.
      * path_step. path_step. path_answer u.
        -- match goal with H : path (start_proxy _ _ _) _ _ |- _ => apply path_start_proxy in H as [-> ->] end.
           by apply (served_lead s1 u).
        -- match goal with H : path (complete_flight _ _ _ _) _ _ |- _ =>
             apply path_complete_flight in H as (-> & d & put & done & -> & -> & Hd) end.
           by apply (served_lead_503 s1 done d).
      * repeat path_step. by apply served_wait.
    + path_written d. by apply (served_shutdown s1 d).
  - path_step. path_answer u.
    + match goal with H : path (start_proxy _ _ _) _ _ |- _ => apply path_start_proxy in H as [-> ->] end.
      by apply (served_bypass s1 u).
    + path_written d.
      by apply (served_bypass_503 s1 d).
Qed.

Lemma path_on_read s os f :
  path (on_read ec_success s) os f -> exists now, served (set_started now s) os f.
Proof. unfold on_read. simpl. intros Hp. path_step. eexists. by apply path_serve_request. Qed.
End on_read_paths.

(** ** Lemmas: what the traces show *)

Section shown.
Context {F : Type} `{!Beast F}.
Implicit Types (s : HttpSession F) (os : list (obs F)) (r : response F).

(** The part of a trace in which a flight is completed. *)
Definition flight_done key r (done : list (obs F)) : Prop :=
  done = [] \/ exists ws, done = OComplete key ws :: ((fun w => OPost w r) <$> default [] ws).

Lemma omap_posts {B} (g : obs F -> option B) r ws :
  (forall w, g (OPost w r) = None) -> omap g ((fun w => OPost w r) <$> ws) = [].
Proof. intros Hg. induction ws as [|w ws IH]; csimpl; [done|]. by rewrite Hg. Qed.

Lemma flight_done_omap {B} (g : obs F -> option B) key r done :
  flight_done key r done -> (forall ws, g (OComplete key ws) = None) -> (forall w, g (OPost w r) = None) ->
  omap g done = [].
Proof. intros [->|[ws ->]] Hc Hp; [done|]. csimpl. rewrite Hc. by apply omap_posts. Qed.

Lemma flight_done_observed key r done rest :
  flight_done key r done ->
  writes (done ++ rest) = writes rest /\ proxies (done ++ rest) = proxies rest /\
  waits_for (done ++ rest) = waits_for rest /\ metrics_of (done ++ rest) = metrics_of rest /\
  stored (done ++ rest) = stored rest /\ leads (done ++ rest) = leads rest /\
  looked_up (done ++ rest) = looked_up rest /\
  (completed (done ++ rest) = completed rest \/ completed (done ++ rest) = key :: completed rest).
Proof.
  intros Hd. unfold writes, proxies, waits_for, metrics_of, stored, leads, looked_up, completed.
  rewrite !omap_app. repeat split; try (by rewrite (flight_done_omap _ key r done)).
  destruct Hd as [->|[ws ->]]; [by left|right]. csimpl. by rewrite omap_posts.
Qed.

(** One answer to a request: exactly one of a response written, a proxy started, a
    flight joined. *)
Definition one_outcome os : Prop :=
  (length (writes os) + length (proxies os) + length (waits_for os) = 1)%nat.

(** Every response written is accounted for in the metrics, once. *)
Definition accounted os : Prop :=
  statuses os = (fun w => res_result w.1) <$> writes os /\ length (durations_of os) = length (writes os).
End shown.

(** Read off a trace whose operations are known. *)
Ltac show_trace :=
  repeat match goal with
  | |- _ /\ _ => split
  | |- Forall _ _ => constructor
  | |- forall key, key ∈ _ -> _ => intros ? ?%not_elem_of_nil; done
  | |- _ => reflexivity
  end.

(** ** Theorems *)


Definition session_for (target : string) : HttpSession RefFields.t := mkSession (get_request target) 0.


(** C6.  One outcome per request, and its accounting.  Along every path, a request read
    is counted once; then either the path throws, which only rendering the metrics can,
    or exactly one of these happens: a response is written, a proxy is started with the
    request, the session waits for a flight.  The session that leads a flight either
    starts the proxy that will complete it or completes it itself, unless the coalescer
    is gone; a proxy's response, and a response posted by a leader, is written exactly
    once, after the flight, if any, was completed and the in-flight gauge lowered.
    Every response written is accounted once by its status and once by its
    duration. *)
Theorem request_one_outcome {F : Type} `{!Beast F} (s : HttpSession F) os f :
  (path (on_read ec_success s) os f ->
     length (filter (fun e => e = Request) (events os)) = 1%nat /\ accounted os /\
     match f with
     | Returned s' =>
         request_ s' = request_ s /\ one_outcome os /\
         Forall (fun p => p.1.2 = request_ s /\ leads os = (if p.2 is Some key then [key] else [])) (proxies os) /\
         (forall key, key ∈ completed os -> leads os = [key] /\ proxies os = [])
     | Raised _ => writes os = [] /\ proxies os = [] /\ waits_for os = [] /\ leads os = []
     end) /\
  (forall key resp, path (on_proxy_response key resp s) os f ->
     f = Returned s /\ length (writes os) = 1%nat /\ proxies os = [] /\ waits_for os = [] /\ leads os = [] /\
     accounted os /\ events os = [] /\ head os = Some (OMetric MProxyCompleted) /\
     Forall (fun k => key = Some k) (completed os)) /\
  (forall resp, path (on_posted resp s) os f ->
     f = Returned s /\ length (writes os) = 1%nat /\ proxies os = [] /\ waits_for os = [] /\ leads os = [] /\
     accounted os /\ events os = [] /\ completed os = []).
Proof.
  split; [|split].
  - intros Hp. apply path_on_read in Hp as [now Hs]. destruct Hs; try (show_trace; done).
    match goal with H : _ = [] \/ _ |- _ => rename H into Hd end.
    destruct (flight_done_observed _ resp _ (write_trace d (adapted resp (set_started now s))) Hd)
      as (Hw & Hpr & Hwf & Hm & Hst & Hl & Hlu & Hc).
    unfold accounted, one_outcome, events, statuses, durations_of. simpl.
    unfold writes, proxies, waits_for, metrics_of, leads, completed in *. csimpl.
    rewrite Hw, Hpr, Hwf, Hm, Hl. show_trace.
    intros key Hkey. destruct Hc as [Hc|Hc]; rewrite Hc in Hkey; simpl in Hkey.
    + by apply not_elem_of_nil in Hkey.
    + apply list_elem_of_singleton in Hkey as ->. done.
  - intros key resp Hp. unfold on_proxy_response in Hp. path_step. destruct key as [key|].
    + match goal with H : path _ _ _ |- _ => apply path_complete_flight in H as (-> & d & put & done & -> & -> & Hd) end.
      destruct (flight_done_observed _ resp _ (write_trace d (adapted resp s)) Hd) as (Hw & Hpr & Hwf & Hm & Hst & Hl & _ & Hc).
      unfold accounted, events, statuses, durations_of.
      destruct (true && cacheable_response resp); simpl;
        unfold writes, proxies, waits_for, metrics_of, leads, completed in *; csimpl;
        rewrite Hw, Hpr, Hwf, Hm, Hl; show_trace;
        destruct Hc as [Hc|Hc]; rewrite Hc; repeat constructor.
    + path_written d. unfold accounted. show_trace.
  - intros resp Hp. unfold on_posted in Hp. path_written d. unfold accounted. show_trace.
Qed.

Lemma request_one_outcome_witness : exists os f,
  path (on_read ec_success (session_for "/health")) os f /\ one_outcome os /\ accounted os.
Proof.
  assert (exists os f, path (on_read ec_success (session_for "/health")) os f) as (os & f & Hp).
  { eexists _, _. apply (path_now _ 7). apply path_metric. apply path_metric. apply path_metric.
    apply (path_now _ 9). apply path_metric. apply path_lib. apply path_ret. }
  exists os, f. split; [exact Hp|].
  destruct (proj1 (request_one_outcome (session_for "/health") os f) Hp) as (_ & Ha & Hf).
  split; [|exact Ha]. destruct f as [s'|e]; [exact (proj1 (proj2 Hf))|].
  exfalso. inversion Hp; subst. repeat match goal with H : path _ _ (Raised _) |- _ => inversion H; subst; clear H end.
Defined.

(** ** Lemmas: responses *)

Section responses.
Context {F : Type} `{!Beast F, !BeastLaws F}.
Implicit Types (s : HttpSession F) (os : list (obs F)) (r : response F).

(** A response in the version of a request, with its connection persistence. *)
Definition fits (req : request F) r : Prop :=
  res_version r = req_version req /\ res_keep_alive r = req_keep_alive req.

Lemma adapted_fits r s : fits (request_ s) (adapted r s).
Proof. split; [done|]. apply res_set_keep_alive_get. Qed.

Lemma local_fits req st ct body r : local_answer req st ct body r -> fits req r.
Proof using Type. intros [_ Hv Hk _ _ _ _]. done. Qed.

Lemma handle_request_fits (req : request F) : fits req (handle_request req).
Proof.
  unfold handle_request. repeat case_match; eapply local_fits;
    [by apply set_allow_answer, make_response_answer| |]; by apply make_response_answer.
Qed.

Lemma unavailable_fits (req : request F) : fits req (make_service_unavailable_response req).
Proof. eapply local_fits. by apply make_response_answer. Qed.

Lemma metrics_response_fits (req : request F) text : fits req (metrics_response req text).
Proof.
  unfold metrics_response. set (r := res_with_body text _). destruct (res_payload_rest r) as (_ & Hv & _).
  split; [by rewrite Hv|]. rewrite res_payload_keep_alive. unfold r, res_keep_alive. simpl. apply get_set_keep_alive.
Qed.

(** What is written, and the close flag with it. *)
Definition fitting (req : request F) (w : response F * bool) : Prop :=
  fits req w.1 /\ w.2 = need_eof w.1 /\ (req_keep_alive req = false -> w.2 = true).

Lemma fitting_write (req : request F) r : fits req r -> fitting req (r, need_eof r).
Proof.
  intros [Hv Hk]. split; [done|]. split; [done|]. simpl. intros Hn. apply need_eof_close. by rewrite Hk.
Qed.

Lemma write_trace_fitting d (req : request F) r os :
  fits req r -> Forall (fitting req) (writes os) -> Forall (fitting req) (writes (os ++ write_trace d r)).
Proof.
  intros Hf Hos. unfold writes. rewrite omap_app. apply Forall_app_2; [done|].
  constructor; [by apply fitting_write|constructor].
Qed.
End responses.

(** C17.  A response fits the request it answers, wherever it comes from (the local
    endpoints, the cache, an upstream, the leader of a flight whose client may speak
    another version): it is written in the version of this session's request and with
    its connection persistence, and the connection is closed after it exactly when the
    library says the response ends with the connection, which it does when the request
    did not ask to keep it alive. *)
Theorem response_fits_request {F : Type} `{!Beast F} (Hbeast : BeastLaws F) (s : HttpSession F) p os f :
  p = on_read ec_success s \/ (exists key resp, p = on_proxy_response key resp s) \/
  (exists resp, p = on_posted resp s) ->
  path p os f ->
  Forall (fun w => res_version w.1 = req_version (request_ s) /\ res_keep_alive w.1 = req_keep_alive (request_ s) /\
    w.2 = need_eof w.1 /\ (req_keep_alive (request_ s) = false -> w.2 = true)) (writes os).
Proof.
  intros Hp Hpath. enough (Forall (fitting (request_ s)) (writes os)) as Hall.
  { eapply Forall_impl; [done|]. intros w ([? ?] & ? & ?). done. }
  destruct Hp as [->|[(key & resp & ->)|[resp ->]]].
  - apply path_on_read in Hpath as [now Hs]. change (request_ s) with (request_ (set_started now s)).
    pose proof (fun r => adapted_fits r (set_started now s)) as Hadapt.
    destruct Hs; try (by constructor);
      try (by apply write_trace_fitting; [auto using handle_request_fits, metrics_response_fits, unavailable_fits|
                                          constructor]).
    match goal with H : _ = [] \/ _ |- _ => rename H into Hd end.
    rewrite app_assoc. apply write_trace_fitting; [done|]. unfold writes. rewrite omap_app.
    rewrite (flight_done_omap _ _ resp _ Hd) by done. constructor.
  - unfold on_proxy_response in Hpath. path_step. destruct key as [key|].
    + match goal with H : path _ _ _ |- _ => apply path_complete_flight in H as (-> & d & put & done & -> & -> & Hd) end.
      rewrite app_comm_cons, app_assoc. apply write_trace_fitting; [apply adapted_fits|].
      unfold writes. rewrite omap_app, (flight_done_omap _ _ resp _ Hd) by done.
      by destruct (true && cacheable_response resp).
    + path_written d. apply (write_trace_fitting d _ _ [_]); [apply adapted_fits|constructor].
  - unfold on_posted in Hpath. path_written d. apply (write_trace_fitting d _ _ []); [apply adapted_fits|constructor].
Qed.

Lemma response_fits_request_witness :
  let s := mkSession (mkRequest verb_get "/a" 10 [] "" : request RefFields.t) 0 in
  exists os f, path (on_posted (mkResponse 200 11 [] "x") s) os f /\
    Forall (fun w => res_version w.1 = 10%Z /\ res_keep_alive w.1 = false /\
      w.2 = need_eof w.1 /\ (false = false -> w.2 = true)) (writes os).
Proof.
  intros s.
  assert (exists os f, path (on_posted (mkResponse 200 11 [] "x") s) os f) as (os & f & Hp).
  { eexists _, _. apply path_metric. apply (path_now _ 9). apply path_metric. apply path_lib. apply path_ret. }
  exists os, f. split; [exact Hp|].
  exact (response_fits_request RefFields.laws s _ os f (or_intror (or_intror (ex_intro _ _ eq_refl))) Hp).
Defined.

(** ** Lemmas: what may be cached *)

Section policy.
Context {F : Type} `{!Beast F}.

Lemma cacheable_request_spec (s : HttpSession F) :
  cacheable_request s = true <->
  req_method (request_ s) = verb_get /\ fields_find field.authorization (req_fields (request_ s)) = None /\
  req_target (request_ s) <> "/health".
Proof.
  unfold cacheable_request, is_health_request.
  rewrite !andb_true_iff, negb_true_iff, !bool_decide_eq_true, bool_decide_eq_false. tauto.
Qed.

Lemma cacheable_response_spec (r : response F) :
  cacheable_response r = true <->
  res_result r = 200%Z /\ fields_find field.set_cookie (res_fields r) = None /\
  forall directive, directive = "no-store" \/ directive = "private" ->
    ~ exists a b, fields_at field.cache_control (res_fields r) = (a +:+ directive +:+ b).
Proof.
  unfold cacheable_response.
  destruct (res_result r =? status.ok)%Z eqn:Hst; simpl; [apply Z.eqb_eq in Hst|apply Z.eqb_neq in Hst].
  2: { split; [done|]. intros (H & _). done. }
  case_bool_decide as Hc; simpl.
  { split; [done|]. intros (_ & H & _). done. }
  rewrite andb_true_iff, !negb_true_iff, <- !not_true_iff_false, !sv_contains_true. split.
  - intros [H1 H2]. split; [done|]. split; [by destruct (fields_find field.set_cookie (res_fields r)); [destruct Hc|]|]. by intros d [-> | ->].
  - intros (_ & _ & Hd). split; apply Hd; auto.
Qed.
End policy.

(** What a session asks of the cache and of the coalescer, and what it stores: the response
    its handler is called with, which is the upstream's message as the proxy has rewritten
    it for relaying, before it is adapted to this client; a posted response is not stored. *)
Lemma session_caching {F : Type} `{!Beast F} (s : HttpSession F) os f :
  (path (on_read ec_success s) os f ->
     stored os = [] /\
     (forall key, key ∈ looked_up os ++ waits_for os ++ leads os ++ completed os ->
        key = req_target (request_ s) /\ req_method (request_ s) = verb_get /\
        fields_find field.authorization (req_fields (request_ s)) = None /\
        key <> "/health" /\ key <> "/metrics")) /\
  (forall key resp, path (on_proxy_response key resp s) os f ->
     forall k r, (k, r) ∈ stored os <->
       key = Some k /\ r = resp /\ res_result r = 200%Z /\
       fields_find field.set_cookie (res_fields r) = None /\
       forall directive, directive = "no-store" \/ directive = "private" ->
         ~ exists a b, fields_at field.cache_control (res_fields r) = (a +:+ directive +:+ b)) /\
  (forall resp, path (on_posted resp s) os f -> stored os = []).
Proof.
  split; [|split].
  - intros Hp. apply path_on_read in Hp as [now Hs].
    assert (forall x l, cacheable_request (set_started now s) = true -> req_target (request_ s) <> "/metrics" ->
      x ∈ l -> Forall (fun k => k = req_target (request_ s)) l ->
      x = req_target (request_ s) /\ req_method (request_ s) = verb_get /\
      fields_find field.authorization (req_fields (request_ s)) = None /\ x <> "/health" /\ x <> "/metrics") as Hkey.
    { intros x l (Hg & Ha & Hh)%cacheable_request_spec Hm Hx Hall. rewrite Forall_forall in Hall.
      rewrite (Hall _ Hx). done. }
    destruct Hs; (try (split; [reflexivity|]; intros key Hin;
      first [by apply not_elem_of_nil in Hin|eapply Hkey; [done|done|exact Hin|repeat constructor]]; done)).
    match goal with H : _ = [] \/ _ |- _ => rename H into Hd end.
    destruct (flight_done_observed _ resp _ (write_trace d (adapted resp (set_started now s))) Hd)
      as (_ & _ & Hwf & _ & Hst & Hl & Hlu & Hc).
    split; [unfold stored in *; csimpl; by rewrite Hst|]. intros key Hin. eapply Hkey; [done|done|exact Hin|].
    unfold looked_up, waits_for, leads, completed in *. csimpl. rewrite Hlu, Hwf, Hl. simpl.
    destruct Hc as [-> | ->]; repeat constructor.
  - intros key resp Hp k r. rewrite <- cacheable_response_spec. unfold on_proxy_response in Hp. path_step.
    destruct key as [key|].
    + match goal with H : path _ _ _ |- _ => apply path_complete_flight in H as (-> & d & put & done & -> & -> & Hd) end.
      destruct (flight_done_observed _ resp _ (write_trace d (adapted resp s)) Hd) as (_ & _ & _ & _ & Hst & _).
      simpl. destruct (cacheable_response resp) eqn:Hcr; unfold stored in *; csimpl; rewrite Hst; simpl.
      * rewrite list_elem_of_singleton. split; [by intros [= -> ->]|by intros ([= ->] & -> & _)].
      * split; [by intros ?%not_elem_of_nil|]. intros (_ & -> & ?). congruence.
    + path_written d. simpl. split; [by intros ?%not_elem_of_nil|]. by intros [? _].
  - intros resp Hp. unfold on_posted in Hp. path_written d. done.
Qed.

(** A response with none of the directives in any letter case, in any [Cache-Control] field,
    has none in lower case in the first. *)
Lemma str_lower_app a b : str_lower (a +:+ b) = str_lower a +:+ str_lower b.
Proof. induction a as [|x a IH]; [done|]. rewrite !str_app_cons. simpl. by rewrite IH. Qed.

Lemma no_directive {F : Type} `{!Beast F} (f : F) d :
  str_lower d = d -> d <> "" ->
  (forall e, e ∈ fields_named field.cache_control f -> ~ exists a b, str_lower e.2 = (a +:+ d +:+ b)) ->
  ~ exists a b, fields_at field.cache_control f = (a +:+ d +:+ b).
Proof.
  intros Hd Hne Hno (a & b & Hat). unfold fields_at, fields_find in Hat.
  destruct (fields_named field.cache_control f) as [|e es]; simpl in Hat.
  - apply (f_equal String.length) in Hat. rewrite !str_length_app in Hat. destruct d; [done|]. simpl in Hat. lia.
  - apply (Hno e); [left|]. exists (str_lower a), (str_lower b). by rewrite Hat, !str_lower_app, Hd.
Qed.

(** The directives are matched as they are spelt, in the first field only: a response
    marked [Private], or marked [private] in a second [Cache-Control] line, may be
    cached. *)
Lemma cache_control_spelling :
  cacheable_response (mkResponse 200 11 [("Cache-Control", "Private")] "x" : response RefFields.t) = true /\
  cacheable_response (mkResponse 200 11 [("Cache-Control", "max-age=60"); ("Cache-Control", "private")] "x"
    : response RefFields.t) = true.
Proof. split; reflexivity. Qed.
