(* ===== verification/HttpServer.v ===== *)
(** * The listening server

    [include/eventedge/http_server.hpp] and [src/http_server.cpp]: the constructor
    opens the listening socket, and the accept loop makes one session per connection.

    - [HttpServer_new]: the constructor.  Its four calls on the acceptor answer with an
      error code ([acceptor_answers], a parameter: the operating system decides); 0 is
      success.  The calls made are part of the result, whether it throws or not.
    - [server_run], [server_stop], [on_accept]: the accept loop, as handlers on the
      acceptor's strand; [aconf] adds what is outstanding at the library. *)

From stdpp Require Import base relations strings numbers list.
From S2P Require Import Prelude Beast UpstreamPool HttpHandler Metrics.

(** ** The constructor *)

Inductive acceptor_call := AcOpen | AcReuseAddress | AcBind | AcListen.

#[export] Instance acceptor_call_eq_dec : EqDecision acceptor_call.
Proof. solve_decision. Defined.

Definition operation_name (c : acceptor_call) : string :=
  match c with
  | AcOpen => "opening acceptor"
  | AcReuseAddress => "setting reuse address"
  | AcBind => "binding acceptor"
  | AcListen => "listening on acceptor"
  end.

Definition throw_if_error (error : Z) (operation : string) : result unit :=
  if (error =? 0)%Z then Ok tt else Throw (system_error error operation).

Record HttpServer := mkServer {
  acceptor_is_open : bool;
  server_metrics_ : MetricsRegistry;
}.

(** The calls in the order of the constructor; the first that fails ends it. *)
Fixpoint acceptor_setup (answers : acceptor_call -> Z) (calls : list acceptor_call) : list acceptor_call * result unit :=
  match calls with
  | [] => ([], Ok tt)
  | c :: calls' =>
      match throw_if_error (answers c) (operation_name c) with
      | Ok _ => let (made, r) := acceptor_setup answers calls' in (c :: made, r)
      | Throw e => ([c], Throw e)
      end
  end.

Definition HttpServer_new (answers : acceptor_call -> Z) (pool : UpstreamPool) (metrics : option MetricsRegistry)
    : list acceptor_call * result HttpServer :=
  match (match metrics with Some m => Ok m | None => MetricsRegistry_new pool end) with
  | Throw e => ([], Throw e)
  | Ok m =>
      let (made, r) := acceptor_setup answers [AcOpen; AcReuseAddress; AcBind; AcListen] in
      (made, let* _ := r in Ok (mkServer true m))
  end.

(** ** The accept loop *)

Inductive aeffect := AAsyncAccept | AStartSession | ALogError (error : error_code).   (* "Accept error: " and [error.message()] *)

Definition do_accept : list aeffect := [AAsyncAccept].

Definition server_run (s : HttpServer) : list aeffect := do_accept.

Definition server_stop (s : HttpServer) : HttpServer := mkServer false (server_metrics_ s).

Definition on_accept (error : error_code) (s : HttpServer) : list aeffect :=
  (if negb (is_error error) then [AStartSession]
   else if decide (error <> ec_operation_aborted) then [ALogError error]
   else []) ++
  (if acceptor_is_open s then do_accept else []).

(** The server, the accepts outstanding and the sessions started. *)
Record aconf := mkAconf {
  srv : HttpServer;
  accepts : nat;
  sessions : nat;
}.

Definition is_accept (e : aeffect) : bool := match e with AAsyncAccept => true | _ => false end.
Definition is_session (e : aeffect) : bool := match e with AStartSession => true | _ => false end.

Definition issue (effs : list aeffect) (a : aconf) : aconf :=
  mkAconf (srv a) (accepts a + length (filter (fun e => is_accept e = true) effs))
    (sessions a + length (filter (fun e => is_session e = true) effs)).

Inductive aevent := EvAccept (error : error_code) | EvClose.

#[export] Instance aevent_eq_dec : EqDecision aevent.
Proof. solve_decision. Defined.

Definition anext (ev : aevent) (a : aconf) : aconf :=
  match ev with
  | EvAccept error => issue (on_accept error (srv a)) (mkAconf (srv a) (pred (accepts a)) (sessions a))
  | EvClose => mkAconf (server_stop (srv a)) (accepts a) (sessions a)
  end.

(** An accept completes only when one is outstanding. *)
Definition alegal (a : aconf) (ev : aevent) : Prop :=
  match ev with EvAccept _ => 0 < accepts a | EvClose => True end.

Inductive aexec : aconf -> list aevent -> aconf -> Prop :=
| aexec_nil a : aexec a [] a
| aexec_cons a ev evs a' : alegal a ev -> aexec (anext ev a) evs a' -> aexec a (ev :: evs) a'.

(** The server after [run]. *)
Definition accepting (s : HttpServer) : aconf := issue (server_run s) (mkAconf s 0 0).

Definition accepted (evs : list aevent) : nat := length (filter (fun ev => ev = EvAccept ec_success) evs).
Definition is_close (ev : aevent) : bool := match ev with EvClose => true | _ => false end.

(** Before the listening socket is closed; and the events from then on. *)
Definition closed (evs : list aevent) : bool := existsb is_close evs.

(** ** Lemmas *)

Definition is_accept_event (ev : aevent) : bool := match ev with EvAccept _ => true | _ => false end.
Definition accept_events (evs : list aevent) : nat := length (filter (fun ev => is_accept_event ev = true) evs).

(** What the handler of an accept issues. *)
Lemma on_accept_issued error s :
  length (filter (fun e => is_accept e = true) (on_accept error s)) = (if acceptor_is_open s then 1 else 0)%nat /\
  length (filter (fun e => is_session e = true) (on_accept error s)) = (if decide (error = ec_success) then 1 else 0)%nat.
Proof.
  unfold on_accept, do_accept. destruct error; simpl; try case_decide; simpl;
    destruct (acceptor_is_open s); done.
Qed.

Lemma aexec_open a evs a' :
  acceptor_is_open (srv a) = true -> accepts a = 1 -> aexec a evs a' -> closed evs = false ->
  acceptor_is_open (srv a') = true /\ accepts a' = 1 /\ sessions a' = sessions a + accepted evs.
Proof.
  intros Ho Ha Hexec. revert Ho Ha.
  induction Hexec as [|a ev evs a' Hl _ IH]; intros Ho Ha Hc; [split; [done|]; unfold accepted, accept_events; simpl; lia|].
  destruct ev as [error|]; [|done]. destruct (on_accept_issued error (srv a)) as [H1 H2]. rewrite Ho in H1.
  destruct IH as (Ho' & Ha' & Hs'); [done|simpl; lia|done|]. split; [done|]. split; [done|]. rewrite Hs'.
  unfold accepted. rewrite filter_cons. simpl. rewrite H2. do 2 case_decide; simpl; try congruence; lia.
Qed.

Lemma aexec_closed a evs a' :
  acceptor_is_open (srv a) = false -> aexec a evs a' ->
  acceptor_is_open (srv a') = false /\ accepts a' + accept_events evs = accepts a /\
  sessions a' = sessions a + accepted evs.
Proof.
  intros Ho Hexec. revert Ho.
  induction Hexec as [|a ev evs a' Hl _ IH]; intros Ho; [split; [done|]; unfold accepted, accept_events; simpl; lia|].
  destruct ev as [error|].
  - destruct (on_accept_issued error (srv a)) as [H1 H2]. rewrite Ho in H1.
    destruct (IH Ho) as (Ho' & Ha' & Hs'). split; [done|]. simpl in Ha', Hs', Hl.
    unfold accepted, accept_events in *. rewrite !filter_cons. simpl.
    rewrite Hs', H2. split; [lia|]. do 2 case_decide; simpl; try congruence; lia.
  - destruct (IH eq_refl) as (Ho' & Ha' & Hs'). done.
Qed.

Lemma aexec_app a evs1 evs2 a' :
  aexec a (evs1 ++ evs2) a' -> exists a1, aexec a evs1 a1 /\ aexec a1 evs2 a'.
Proof.
  revert a. induction evs1 as [|ev evs1 IH]; intros a Hexec; [exists a; split; [constructor|done]|].
  inversion Hexec as [|? ? ? ? Hl Hrest]; subst. destruct (IH _ Hrest) as (a1 & H1 & H2).
  exists a1. split; [by constructor|done].
Qed.

Lemma first_close evs : closed evs = true -> exists evs1 evs2, evs = evs1 ++ EvClose :: evs2 /\ closed evs1 = false.
Proof.
  induction evs as [|ev evs IH]; [done|]. simpl. destruct ev as [e|]; simpl.
  - intros Hc. destruct (IH Hc) as (evs1 & evs2 & -> & Hc1). by exists (EvAccept e :: evs1), evs2.
  - intros _. by exists [], evs.
Qed.

(** ** Theorems *)

(** The accept loop.  After [run], whatever the accepts report, there is a session
    for each accept that succeeded and for no other; as long as the listening socket is
    open exactly one accept is outstanding, also after failed ones, so the server goes
    on accepting; and from [stop] on at most one further accept completes and none is
    started. *)
Lemma accept_loop s evs a :
  acceptor_is_open s = true -> aexec (accepting s) evs a ->
  sessions a = accepted evs /\
  (closed evs = false -> accepts a = 1 /\ acceptor_is_open (srv a) = true) /\
  (forall evs1 evs2, evs = evs1 ++ EvClose :: evs2 -> accepts a + accept_events evs2 <= 1).
Proof.
  intros Ho Hexec. destruct (closed evs) eqn:Hc.
  - destruct (first_close evs Hc) as (evs1 & evs2 & -> & Hc1).
    destruct (aexec_app _ _ _ _ Hexec) as (a1 & H1 & H2).
    destruct (aexec_open (accepting s) _ _ Ho eq_refl H1 Hc1) as (Ho1 & Ha1 & Hs1). simpl in Hs1.
    inversion H2 as [|? ? ? ? _ H3]; subst. destruct (aexec_closed (anext EvClose a1) _ _ eq_refl H3) as (_ & Ha & Hs).
    simpl in Ha, Hs. split; [rewrite Hs, Hs1; unfold accepted; rewrite list.filter_app, length_app; done|].
    split; [done|]. intros evs3 evs4 Heq.
    assert (accept_events evs4 <= accept_events evs2); [|lia].
    clear -Heq Hc1. revert evs3 Heq. induction evs1 as [|ev evs1 IH]; intros [|ev' evs3] Heq; simplify_eq/=; try done.
    + unfold accept_events. rewrite list.filter_app, length_app, filter_cons. simpl. lia.
    + apply orb_false_iff in Hc1 as [_ Hc1]. eauto.
  - destruct (aexec_open (accepting s) _ _ Ho eq_refl Hexec Hc) as (Ho1 & Ha1 & Hs1). split; [done|]. split; [done|].
    intros evs1 evs2 ->. unfold closed in Hc. rewrite existsb_app, orb_true_r in Hc. done.
Qed.

Definition idle_server : HttpServer := mkServer true zero_metrics.

Lemma acceptor_setup_ok answers calls :
  (forall c, c ∈ calls -> answers c = 0%Z) -> acceptor_setup answers calls = (calls, Ok tt).
Proof.
  induction calls as [|c calls IH]; intros Hall; [done|]. simpl. unfold throw_if_error.
  rewrite (Hall c) by (by left). simpl. rewrite IH by (intros; apply Hall; by right). done.
Qed.

Lemma acceptor_setup_fail answers calls1 c calls2 :
  (forall c', c' ∈ calls1 -> answers c' = 0%Z) -> answers c <> 0%Z ->
  acceptor_setup answers (calls1 ++ c :: calls2) =
  (calls1 ++ [c], Throw (system_error (answers c) (operation_name c))).
Proof.
  intros Hall Hc. apply Z.eqb_neq in Hc.
  induction calls1 as [|c1 calls1 IH]; simpl; unfold throw_if_error; [by rewrite Hc|].
  rewrite (Hall c1) by (by left). simpl. rewrite IH by (intros; apply Hall; by right). done.
Qed.
