(* ===== verification/System.v ===== *)
(** * The sessions of a running server

    All the parts together: any number of sessions ([HttpSession]) on any number of
    threads, over one pool, one cache, one coalescer and one registry, each session
    with at most one proxied request ([UpstreamProxy]) of its own.

    - [shared]: the shared parts and the steady clock;
    - [sess]: a session, the rest of the handler it is running, the library operations
      it has outstanding, and the responses posted to it that have not run yet.  The
      last four fields are bookkeeping: what the session owes to others.  No step of
      the program depends on them.
    - [run_op]: one atomic operation of the handler a session is running, against the
      shared state; [deliver]: a completion, or a posted response, starts the next
      handler.  Sessions are numbered in the order they were made; the strand of a
      session lets one of its handlers run at a time.
    - [sstep]: one of these for some session, a new connection, the clock, or a verdict
      of the health monitor.

    The coalescer is alive as long as the server runs ([main] holds it), so locking the
    weak pointer succeeds.  Each session's stream has a deadline ([se_expiry]), set
    before a read and not renewed before the write that answers it; an operation times
    out only when it has passed ([event_legal]), and so does an operation of its proxy,
    whose start is recorded with it.  A verdict of the monitor changes the pool and the registry
    ([store_verdict]).  A handler that throws stays where it is: [SystemRuns] shows that
    none does, and [Program] says what an exception would do. *)

From stdpp Require Import base relations strings numbers gmap list.
From S2P Require Import Prelude CppString ResponseCache RequestCoalescer UpstreamPool Beast HttpHandler Metrics HealthMonitor UpstreamProxy HttpSession.

(** The bookkeeping of a metric: who has raised the gauge, whose request is open. *)
Definition gauge_after (op : metric_op) (gauge : bool) : bool :=
  match op with MEvent ProxyStarted => true | MProxyCompleted => false | _ => gauge end.
Definition open_after (op : metric_op) (open : bool) : bool :=
  match op with MEvent Request => true | MDuration _ => false | _ => open end.

Section system.
Context {F : Type} `{!Beast F}.

Record shared := mkShared {
  sh_pool : UpstreamPool;
  sh_cache : ResponseCache (Beast.response F);
  sh_coalescer : RequestCoalescer nat;
  sh_metrics : MetricsRegistry;
  sh_now : Z;
}.

(** The library operations a session can have outstanding; of a proxy, the proxy itself with
    the time its current operation was started. *)
Inductive outop :=
| OnRead
| OnWrite (close_after_write : bool)
| OnProxy (key : option string) (pc : pconf F (option string)) (since : Z).

Record sess := mkSess {
  se_state : HttpSession F;
  se_run : option (prog F);
  se_out : list outop;
  se_posted : list (Beast.response F);
  se_expiry : option Z;                (* when the stream's timer expires *)
  (* bookkeeping *)
  se_lead : option string;             (* the flight it must complete *)
  se_owed : list nat;                  (* the sessions it must still post to *)
  se_gauge : bool;                     (* it has raised the in-flight gauge *)
  se_open : bool;                      (* it has counted a request and not its duration *)
}.

Record system := mkSystem {
  sh : shared;
  sessions : list sess;
}.

Definition with_metrics (m : MetricsRegistry) (h : shared) : shared :=
  mkShared (sh_pool h) (sh_cache h) (sh_coalescer h) m (sh_now h).
Definition with_cache (c : ResponseCache (Beast.response F)) (h : shared) : shared :=
  mkShared (sh_pool h) c (sh_coalescer h) (sh_metrics h) (sh_now h).
Definition with_coalescer (c : RequestCoalescer nat) (h : shared) : shared :=
  mkShared (sh_pool h) (sh_cache h) c (sh_metrics h) (sh_now h).
Definition with_pool (p : UpstreamPool) (h : shared) : shared :=
  mkShared p (sh_cache h) (sh_coalescer h) (sh_metrics h) (sh_now h).
Definition with_now (t : Z) (h : shared) : shared :=
  mkShared (sh_pool h) (sh_cache h) (sh_coalescer h) (sh_metrics h) t.

(** The shared parts as the health monitor sees them, and after it has changed them. *)
Definition world_of (log : list string) (h : shared) : world := mkWorld (sh_pool h) (Some (sh_metrics h)) log (sh_now h).
Definition with_verdict (w : world) (h : shared) : shared :=
  mkShared (w_pool w) (sh_cache h) (sh_coalescer h) (default (sh_metrics h) (w_metrics w)) (sh_now h).

Definition go (p : prog F) (S : sess) : sess :=
  mkSess (se_state S) (Some p) (se_out S) (se_posted S) (se_expiry S) (se_lead S) (se_owed S) (se_gauge S) (se_open S).
Definition halt (s : HttpSession F) (S : sess) : sess :=
  mkSess s None (se_out S) (se_posted S) (se_expiry S) (se_lead S) (se_owed S) (se_gauge S) (se_open S).
Definition push_out (o : outop) (S : sess) : sess :=
  mkSess (se_state S) (se_run S) (se_out S ++ [o]) (se_posted S) (se_expiry S) (se_lead S) (se_owed S) (se_gauge S) (se_open S).
Definition set_out (os : list outop) (S : sess) : sess :=
  mkSess (se_state S) (se_run S) os (se_posted S) (se_expiry S) (se_lead S) (se_owed S) (se_gauge S) (se_open S).
Definition set_posted (rs : list (Beast.response F)) (S : sess) : sess :=
  mkSess (se_state S) (se_run S) (se_out S) rs (se_expiry S) (se_lead S) (se_owed S) (se_gauge S) (se_open S).
Definition set_lead (l : option string) (S : sess) : sess :=
  mkSess (se_state S) (se_run S) (se_out S) (se_posted S) (se_expiry S) l (se_owed S) (se_gauge S) (se_open S).
Definition set_owed (ws : list nat) (S : sess) : sess :=
  mkSess (se_state S) (se_run S) (se_out S) (se_posted S) (se_expiry S) (se_lead S) ws (se_gauge S) (se_open S).

Definition note_metric (op : metric_op) (S : sess) : sess :=
  mkSess (se_state S) (se_run S) (se_out S) (se_posted S) (se_expiry S) (se_lead S) (se_owed S)
    (gauge_after op (se_gauge S)) (open_after op (se_open S)).

Definition set_expiry (t : Z) (S : sess) : sess :=
  mkSess (se_state S) (se_run S) (se_out S) (se_posted S) (Some t) (se_lead S) (se_owed S) (se_gauge S) (se_open S).

(** The timer of the stream, set by [expires_after] and never cleared, has expired. *)
Definition expired (now : Z) (S : sess) : bool := match se_expiry S with Some t => (t <=? now)%Z | None => false end.

(** The operation a library call leaves outstanding. *)
Definition lib_effect (now : Z) (c : lib_call F) (S : sess) : sess :=
  match c with
  | LExpiresAfter seconds => set_expiry (now + seconds * 1000000000) S
  | LAsyncRead => push_out OnRead S
  | LAsyncWrite _ close => push_out (OnWrite close) S
  | LProxy u req key => set_lead None (push_out (OnProxy key (started u req key default_timeouts) now) S)
  | LShutdownSend | LLog _ _ => S
  end.

(** One operation of the program [p] that session [i] is running. *)
Definition run_prog (i : nat) (p : prog F) (S : sess) (sys : system) : option system :=
  let h := sh sys in
  let put S' h' := Some (mkSystem h' (<[i := S']> (sessions sys))) in
  match p with
  | Ret s => put (halt s S) h
  | Raise _ => None
  | Now k => put (go (k (sh_now h)) S) h
  | Metric op k => put (note_metric op (go k S)) (with_metrics (metric_apply (sh_metrics h) op) h)
  | Render k => put (go (k (render (sh_metrics h) (sh_pool h))) S) h
  | CacheGet key k =>
      let (r, c) := cache_get key (sh_now h) (sh_cache h) in put (go (k r) S) (with_cache c h)
  | CachePut key r k => put (go k S) (with_cache (cache_put key r (sh_now h) (sh_cache h)) h)
  | LockCoalescer k => put (go (k true) S) h
  | JoinOrStart key k =>
      let (role, c) := join_or_start key i (sh_coalescer h) in
      let S' := match role with leader => set_lead (Some key) S | waiter => S end in
      put (go (k role) S') (with_coalescer c h)
  | CompleteFlight key k =>
      let (ws, c) := complete key (sh_coalescer h) in
      put (go (k ws) (set_owed (default [] ws) (set_lead None S))) (with_coalescer c h)
  | Post w r k =>
      Some (mkSystem h (alter (fun T => set_posted (se_posted T ++ [r]) T) w
                          (<[i := go k (set_owed (tail (se_owed S)) S)]> (sessions sys))))
  | Select k => let (u, p) := select (sh_pool h) in put (go (k u) S) (with_pool p h)
  | Lib c k => put (lib_effect (sh_now h) c (go k S)) h
  end.

Definition run_op (i : nat) (sys : system) : option system :=
  S ← sessions sys !! i; p ← se_run S; run_prog i p S sys.

(** What can start the next handler of a session that runs none. *)
Inductive sevent :=
| EvRead (error : error_code) (req : request F)
| EvWritten (error : error_code)
| EvProxy (ev : UpstreamProxy.completion F)
| EvPosted.

(** The proxy of a session takes a completion: its handler may run now. *)
Definition proxy_event (now : Z) (key : option string) (pc : pconf F (option string)) (ev : UpstreamProxy.completion F) (S : sess)
    (rest : list outop) : sess :=
  let (pc', effs) := pnext pc ev in
  match invocations effs with
  | (key', r) :: _ => set_lead key' (go (on_proxy_response key' r (se_state S)) (set_out rest S))
  | [] => set_out (OnProxy key pc' now :: rest) S
  end.

(** [j]: which of the outstanding operations completes, at the time [now]. *)
Definition deliver_to (now : Z) (j : nat) (ev : sevent) (S : sess) : option sess :=
  let rest := delete j (se_out S) in
  match ev, se_out S !! j with
  | EvRead error req, Some OnRead => Some (go (HttpSession.on_read error (set_request req (se_state S))) (set_out rest S))
  | EvWritten error, Some (OnWrite close) => Some (go (session_on_write close error (se_state S)) (set_out rest S))
  | EvProxy ev, Some (OnProxy key pc _) => Some (proxy_event now key pc ev S rest)
  | EvPosted, _ =>
      match se_posted S with
      | r :: rs => Some (go (on_posted r (se_state S)) (set_posted rs S))
      | [] => None
      end
  | _, _ => None
  end.

(** What the library can report at the time [now]: a proxy as [UpstreamProxy] says, and a
    read or a write times out only when the timer of the stream has expired. *)
Definition event_legal (now : Z) (j : nat) (ev : sevent) (S : sess) : Prop :=
  match ev, se_out S !! j with
  | EvRead error _, Some OnRead | EvWritten error, Some (OnWrite _) => error = ec_timeout -> expired now S = true
  | EvProxy ev, Some (OnProxy key pc since) => legal pc (now - since) ev
  | _, _ => True
  end.

(** A session just made: it starts reading. *)
Definition new_session : sess :=
  let s := mkSession req_empty 0 in mkSess s (Some (do_read s)) [] [] None None [] false false.

Inductive sstep : system -> system -> Prop :=
| step_run i sys sys' : run_op i sys = Some sys' -> sstep sys sys'
| step_event i j ev S S' sys :
    sessions sys !! i = Some S -> se_run S = None -> event_legal (sh_now (sh sys)) j ev S ->
    deliver_to (sh_now (sh sys)) j ev S = Some S' ->
    sstep sys (mkSystem (sh sys) (<[i := S']> (sessions sys)))
| step_accept sys : sstep sys (mkSystem (sh sys) (sessions sys ++ [new_session]))
| step_clock t sys : (sh_now (sh sys) <= t)%Z -> sstep sys (mkSystem (with_now t (sh sys)) (sessions sys))
| step_health index healthy log w sys :
    store_verdict index healthy (world_of log (sh sys)) = Ok w ->
    sstep sys (mkSystem (with_verdict w (sh sys)) (sessions sys)).

(** A server that has just started. *)
Definition fresh (sys : system) : Prop :=
  sessions sys = [] /\ flights_ (sh_coalescer (sh sys)) = ∅ /\ forall c, count_of (sh_metrics (sh sys)) c = 0%Z.
End system.

Arguments shared F : clear implicits.
Arguments outop F : clear implicits.
Arguments sess F : clear implicits.
Arguments system F : clear implicits.
Arguments sevent F : clear implicits.

(** ** What a handler still has to do

    [wt h lead owed gauge open p]: the program [p] is the rest of a handler of a session
    that has handed its request on as [h] says, leads the flight [lead], has still to
    post to [owed], has raised the gauge if [gauge] and counted a request whose duration
    is not recorded yet if [open]; and on every path it brings this to an end: it
    completes the flight it leads or hands it to a proxy, it posts to everyone it owes,
    and it hands the request on at most once. *)

Inductive hand :=
| NoHand                               (* nothing outstanding *)
| HandIO                               (* a read or a write *)
| HandWait                             (* a flight of another session *)
| HandProxy.                           (* a proxy *)

#[export] Instance hand_eq_dec : EqDecision hand.
Proof. solve_decision. Defined.

Definition metric_allowed (op : metric_op) (gauge open : bool) : Prop :=
  match op with
  | MEvent ProxyStarted => gauge = false
  | MProxyCompleted => gauge = true
  | MEvent Request => open = false
  | MDuration _ => open = true
  | _ => True
  end.

(** What holds when a handler has returned. *)
Definition settled (h : hand) (lead : option string) (owed : list nat) (gauge open : bool) : Prop :=
  lead = None /\ owed = [] /\ gauge = bool_decide (h = HandProxy) /\
  open = (bool_decide (h = HandProxy) || bool_decide (h = HandWait)).

Section typing.
Context {F : Type} `{!Beast F}.

Inductive wt : hand -> option string -> list nat -> bool -> bool -> prog F -> Prop :=
| wt_ret h lead owed g o s : settled h lead owed g o -> wt h lead owed g o (Ret s)
| wt_raise o e : wt NoHand None [] false o (Raise e)
| wt_now h lead owed g o k : (forall t, wt h lead owed g o (k t)) -> wt h lead owed g o (Now k)
| wt_metric h lead owed g o op k :
    metric_allowed op g o -> wt h lead owed (gauge_after op g) (open_after op o) k -> wt h lead owed g o (Metric op k)
| wt_render h lead owed g o k : (forall r, wt h lead owed g o (k r)) -> wt h lead owed g o (Render k)
| wt_cache_get h lead owed g o key k : (forall r, wt h lead owed g o (k r)) -> wt h lead owed g o (CacheGet key k)
| wt_cache_put h lead owed g o key r k : wt h lead owed g o k -> wt h lead owed g o (CachePut key r k)
| wt_lock h lead owed g o k : wt h lead owed g o (k true) -> wt h lead owed g o (LockCoalescer k)
| wt_join g o key k :
    wt NoHand (Some key) [] g o (k leader) -> wt HandWait None [] g o (k waiter) ->
    wt NoHand None [] g o (JoinOrStart key k)
| wt_complete g o key k :
    (forall ws, wt NoHand None (default [] ws) g o (k ws)) -> wt NoHand (Some key) [] g o (CompleteFlight key k)
| wt_post w owed g o r k : wt NoHand None owed g o k -> wt NoHand None (w :: owed) g o (Post w r k)
| wt_select h lead owed g o k : (forall u, wt h lead owed g o (k u)) -> wt h lead owed g o (Select k)
| wt_io owed g o c k :
    (c = LAsyncRead \/ exists r cl, c = LAsyncWrite r cl) ->
    wt HandIO None owed g o k -> wt NoHand None owed g o (Lib c k)
| wt_proxy owed g o u req key k :
    wt HandProxy None owed g o k -> wt NoHand key owed g o (Lib (LProxy u req key) k)
| wt_call h lead owed g o c k :
    c = LShutdownSend \/ (exists m e, c = LLog m e) -> wt h lead owed g o k -> wt h lead owed g o (Lib c k)
| wt_do_read s : wt NoHand None [] false false (do_read s).

Implicit Types (s : HttpSession F) (r : Beast.response F).

Lemma wt_write r s : wt NoHand None [] false true (write_response r s).
Proof.
  unfold write_response. apply wt_metric; [done|]. apply wt_now. intros t. apply wt_metric; [done|].
  apply wt_io; [by eauto|]. by apply wt_ret.
Qed.

Lemma wt_write_current r s : wt NoHand None [] false true (write_response_for_current_request r s).
Proof. apply wt_write. Qed.

Lemma wt_post_all ws r k : wt NoHand None [] false true k -> wt NoHand None ws false true (post_all ws r k).
Proof. intros Hk. induction ws as [|w ws IH]; simpl; [done|]. by apply wt_post. Qed.

Lemma wt_complete_flight key r cache s : wt NoHand (Some key) [] false true (complete_flight key r cache s).
Proof.
  unfold complete_flight. case_match; [apply wt_cache_put|]; apply wt_lock; apply wt_complete;
    intros ws; apply wt_post_all, wt_write_current.
Qed.

Lemma wt_start_proxy u key s : wt NoHand key [] false true (start_proxy u key s).
Proof.
  unfold start_proxy. do 3 (apply wt_metric; [done|]). apply wt_proxy. by apply wt_ret.
Qed.

Lemma wt_serve_request s : wt NoHand None [] false false (serve_request s).
Proof.
  unfold serve_request. apply wt_metric; [done|]. cbn [gauge_after open_after].
  destruct (is_health_request (request_ s)); [apply wt_metric; [done|]; apply wt_write|].
  destruct (bool_decide (req_target (request_ s) = "/metrics")).
  { apply wt_metric; [done|]. case_match; [apply wt_write|]. apply wt_render. intros [text|e]; [apply wt_write|].
    apply wt_raise. }
  destruct (cacheable_request s).
  - apply wt_cache_get. intros [resp|]; apply wt_metric; [done|apply wt_write_current|done|].
    apply wt_lock. apply wt_join; apply wt_metric; try done; [|by apply wt_ret].
    apply wt_select. intros [u|]; [apply wt_start_proxy|apply wt_complete_flight].
  - apply wt_select. intros [u|]; [apply wt_start_proxy|apply wt_write].
Qed.

(** The handlers that start with nothing handed on. *)
Lemma wt_on_read error s : wt NoHand None [] false false (HttpSession.on_read error s).
Proof.
  unfold HttpSession.on_read, session_close. repeat case_match; try (apply wt_call; [by eauto|]); try (by apply wt_ret).
  apply wt_now. intros t. apply wt_serve_request.
Qed.

Lemma wt_on_write close error s : wt NoHand None [] false false (session_on_write close error s).
Proof.
  unfold session_on_write, session_close. destruct (is_error error); [|destruct close; [|apply wt_do_read]].
  - case_match; [by apply wt_ret|]. apply wt_call; [by eauto|]. by apply wt_ret.
  - apply wt_call; [by eauto|]. by apply wt_ret.
Qed.

(** The handlers of a request that was handed on: to another session, or to a proxy. *)
Lemma wt_on_posted r s : wt NoHand None [] false true (on_posted r s).
Proof. apply wt_write. Qed.

Lemma wt_on_proxy_response key r s : wt NoHand key [] true true (on_proxy_response key r s).
Proof.
  unfold on_proxy_response. apply wt_metric; [done|]. cbn [gauge_after open_after].
  destruct key; [apply wt_complete_flight|apply wt_write].
Qed.
End typing.

(** ** Counting

    Where the request of session [i] may be: an operation of its own, a response posted
    to it, a flight it waits for, or a flight that was completed by a session that has
    not yet posted to it. *)

Definition flight_waits (i : nat) (m : gmap string (list nat)) : nat := occurs i (mjoin (snd <$> map_to_list m)).

Definition flight_of (key : string) (m : gmap string (list nat)) : nat := if m !! key is Some _ then 1 else 0.

Lemma flight_waits_empty i : flight_waits i ∅ = 0.
Proof. unfold flight_waits. by rewrite map_to_list_empty. Qed.

Lemma flight_waits_insert i key ws m :
  m !! key = None -> flight_waits i (<[key := ws]> m) = occurs i ws + flight_waits i m.
Proof.
  intros Hk. unfold flight_waits. rewrite (map_to_list_insert m key ws Hk). csimpl. by rewrite occurs_app.
Qed.

Lemma flight_waits_delete i key ws m :
  m !! key = Some ws -> flight_waits i m = occurs i ws + flight_waits i (delete key m).
Proof.
  intros Hk. unfold flight_waits at 1. rewrite <- (map_to_list_delete m key ws Hk). csimpl. by rewrite occurs_app.
Qed.

Lemma flight_waits_update i key ws ws' m :
  m !! key = Some ws -> flight_waits i (<[key := ws']> m) + occurs i ws = flight_waits i m + occurs i ws'.
Proof.
  intros Hk. rewrite (flight_waits_delete i key ws m Hk), <- (insert_delete_eq m key ws').
  rewrite flight_waits_insert by apply lookup_delete_eq. lia.
Qed.

Lemma flight_waits_pos i m : 0 < flight_waits i m -> exists key ws, m !! key = Some ws /\ i ∈ ws.
Proof.
  unfold flight_waits. rewrite occurs_pos. intros (ws & Hi & Hws)%list_elem_of_join.
  apply list_elem_of_fmap in Hws as ([key ws'] & -> & Hin). apply elem_of_map_to_list in Hin. eauto.
Qed.

Lemma flight_of_insert key key' ws m :
  flight_of key (<[key' := ws]> m) = if decide (key' = key) then 1 else flight_of key m.
Proof. unfold flight_of. rewrite lookup_insert. by case_decide. Qed.

Lemma flight_of_delete key key' m :
  flight_of key (delete key' m) = if decide (key' = key) then 0 else flight_of key m.
Proof. unfold flight_of. rewrite lookup_delete. by case_decide. Qed.

Section invariant.
Context {F : Type} `{!Beast F}.
Implicit Types (S T : sess F) (sys : system F).

#[local] Abbreviation flights sys := (flights_ (sh_coalescer (sh sys))).

Definition own S : nat := length (se_out S) + length (se_posted S).
Definition owed_to (i : nat) (l : list (sess F)) : nat := sum_list_with (fun T => occurs i (se_owed T)) l.

(** The places the request of session [i] is in. *)
Definition places (i : nat) sys : nat :=
  (if sessions sys !! i is Some T then own T else 0) + flight_waits i (flights sys) + owed_to i (sessions sys).

(** The flights a session must see to: those it leads, and those of its proxies. *)
Definition proxy_leads (key : string) (o : outop F) : nat :=
  match o with OnProxy k _ _ => if decide (k = Some key) then 1 else 0 | _ => 0 end.
Definition leads_for (key : string) S : nat :=
  (if decide (se_lead S = Some key) then 1 else 0) + sum_list_with (proxy_leads key) (se_out S).
Definition leaders (key : string) sys : nat := sum_list_with (leads_for key) (sessions sys).

Definition gauges sys : nat := sum_list_with (fun S => if se_gauge S then 1 else 0) (sessions sys).
Definition opens sys : nat := sum_list_with (fun S => if se_open S then 1 else 0) (sessions sys).

(** A proxy that has not called its handler yet. *)
Definition proxy_ok (key : option string) (pc : pconf F (option string)) : Prop :=
  (exists op, UpstreamProxy.live key op pc) /\ timeouts_ (px pc) = default_timeouts.

(** How the place of a session's request, [n] in all, agrees with what it handed on. *)
Definition hand_ok (h : hand) (n : nat) S : Prop :=
  match h with
  | NoHand => n = 0
  | HandIO => n = 1 /\ exists o, se_out S = [o] /\ forall key pc since, o <> OnProxy key pc since
  | HandWait => n = 1 /\ se_out S = []
  | HandProxy => n = 1 /\ exists key pc since, se_out S = [OnProxy key pc since] /\ proxy_ok key pc
  end.

Definition sess_ok (n : nat) S : Prop :=
  exists h, hand_ok h n S /\
    match se_run S with
    | Some p => wt h (se_lead S) (se_owed S) (se_gauge S) (se_open S) p
    | None => settled h (se_lead S) (se_owed S) (se_gauge S) (se_open S)
    end.

Record sys_inv sys : Prop := {
  si_sessions : forall i S, sessions sys !! i = Some S -> sess_ok (places i sys) S;
  si_leaders : forall key, leaders key sys = flight_of key (flights sys);
  si_known : forall i, length (sessions sys) <= i -> places i sys = 0;
  si_counters : counters_ok (sh_metrics (sh sys));
  si_gauge : count_of (sh_metrics (sh sys)) proxy_in_flight_ = wrap64 (Z.of_nat (gauges sys));
  si_open : count_of (sh_metrics (sh sys)) requests_ =
    wrap64 (count_of (sh_metrics (sh sys)) duration_count_ + Z.of_nat (opens sys))%Z;
}.

(** ** Lemmas: one session changes *)

(** The counters, after a change of one session. *)
Definition counted (m m' : MetricsRegistry) S S' : Prop :=
  counters_ok m' /\
  count_of m' proxy_in_flight_ =
    wrap64 (count_of m proxy_in_flight_ + Z.b2z (se_gauge S') - Z.b2z (se_gauge S))%Z /\
  exists d, count_of m' duration_count_ = wrap64 (count_of m duration_count_ + d)%Z /\
    count_of m' requests_ = wrap64 (count_of m requests_ + d + Z.b2z (se_open S') - Z.b2z (se_open S))%Z.

Lemma sum_bool_insert (f : sess F -> bool) l i S S' :
  l !! i = Some S ->
  (Z.of_nat (sum_list_with (fun S => if f S then 1 else 0)%nat (<[i := S']> l)) =
   Z.of_nat (sum_list_with (fun S => if f S then 1 else 0)%nat l) + Z.b2z (f S') - Z.b2z (f S))%Z.
Proof.
  intros Hi. pose proof (sum_list_with_insert (fun S => if f S then 1 else 0)%nat l i S S' Hi) as Hs.
  simpl in Hs. destruct (f S), (f S'); simpl in *; lia.
Qed.

(** Session [i] changes from [S] to [S'] and the flights with it: the requests of the
    others stay where they are, each flight keeps its one leader, the counters follow. *)
Lemma inv_update i S S' h' sys :
  sys_inv sys -> sessions sys !! i = Some S ->
  let fl := flights sys in let fl' := flights_ (sh_coalescer h') in
  (forall w, w <> i -> flight_waits w fl' + occurs w (se_owed S') = flight_waits w fl + occurs w (se_owed S)) ->
  (forall n, n + (own S + flight_waits i fl + occurs i (se_owed S)) =
             places i sys + (own S' + flight_waits i fl' + occurs i (se_owed S')) -> sess_ok n S') ->
  (forall key, leads_for key S' + flight_of key fl = leads_for key S + flight_of key fl') ->
  counted (sh_metrics (sh sys)) (sh_metrics h') S S' ->
  sys_inv (mkSystem h' (<[i := S']> (sessions sys))).
Proof.
  intros [H1 H2 H3 H4 H5 H6] Hi fl fl' Hothers Hself Hlead (Hc & Hg & d & Hd & Hr).
  assert (forall w, owed_to w (<[i := S']> (sessions sys)) + occurs w (se_owed S) =
    owed_to w (sessions sys) + occurs w (se_owed S')) as Howed
    by (intros w; by apply (sum_list_with_insert (fun T => occurs w (se_owed T)))).
  assert (i < length (sessions sys)) as Hlt by (by eapply lookup_lt_Some).
  assert (forall w, w <> i -> places w (mkSystem h' (<[i := S']> (sessions sys))) = places w sys) as Hplaces.
  { intros w Hw. unfold places. simpl. rewrite list_lookup_insert_ne by done.
    specialize (Howed w). specialize (Hothers w Hw). unfold fl, fl' in Hothers. lia. }
  split; simpl.
  - intros w T HT. destruct (decide (w = i)) as [->|Hw].
    + rewrite list_lookup_insert_eq in HT by done. injection HT as <-. apply Hself.
      unfold places. simpl. rewrite list_lookup_insert_eq, Hi by done. specialize (Howed i). unfold fl, fl'. lia.
    + rewrite list_lookup_insert_ne in HT by done. rewrite Hplaces by done. by apply H1.
  - intros key. unfold leaders. simpl.
    pose proof (sum_list_with_insert (leads_for key) _ _ _ S' Hi) as Hs. specialize (H2 key). specialize (Hlead key).
    unfold leaders in H2. unfold fl, fl' in Hlead. lia.
  - intros w Hw. rewrite length_insert in Hw. rewrite Hplaces by lia. by apply H3.
  - done.
  - rewrite Hg, H5. unfold gauges. simpl. rewrite (sum_bool_insert se_gauge _ _ _ S' Hi).
    unfold wrap64. rewrite <- Z.add_sub_assoc, Zplus_mod_idemp_l. f_equal. lia.
  - rewrite Hr, Hd, H6. unfold opens. simpl. rewrite (sum_bool_insert se_open _ _ _ S' Hi).
    unfold wrap64. rewrite Zplus_mod_idemp_l.
    rewrite <- !Z.add_assoc, <- Z.add_sub_assoc, !Zplus_mod_idemp_l. f_equal. lia.
Qed.

Lemma counted_same m S S' :
  counters_ok m -> se_gauge S' = se_gauge S -> se_open S' = se_open S -> counted m m S S'.
Proof.
  intros Hm Hg Ho. split; [done|]. rewrite Hg, Ho. split; [|exists 0%Z; split].
  all: rewrite ?Z.add_0_r, ?Z.add_simpl_r; symmetry; apply wrap64_small, Hm.
Qed.

Lemma counted_metric m op S S' :
  counters_ok m -> metric_allowed op (se_gauge S) (se_open S) ->
  se_gauge S' = gauge_after op (se_gauge S) -> se_open S' = open_after op (se_open S) ->
  counted m (metric_apply m op) S S'.
Proof.
  intros Hm Hal Hg Ho.
  assert (forall c, count_of (metric_apply m op) c = wrap64 (count_of m c + added c op)%Z) as Hc.
  { intros c. rewrite metric_apply_atoms. rewrite (interleaving_count [op]); [| |done].
    - csimpl. unfold sum_Z. simpl. by rewrite Z.add_0_r.
    - unfold interleaving. rewrite bind_cons. simpl. by rewrite app_nil_r. }
  split; [intros c; rewrite Hc; apply wrap64_range|]. rewrite Hg, Ho.
  split; [|exists (added duration_count_ op); split; [apply Hc|]]; rewrite Hc; f_equal;
    (destruct op as [[]| |st|d|u]; simpl in *; rewrite ?Hal; simpl; try lia);
    unfold status_counter; repeat case_match; simpl; try done; lia.
Qed.

(** An operation that touches neither the flights nor what the session has outstanding. *)
Lemma inv_quiet i S S' h' sys :
  sys_inv sys -> sessions sys !! i = Some S -> sh_coalescer h' = sh_coalescer (sh sys) ->
  se_out S' = se_out S -> se_posted S' = se_posted S -> se_lead S' = se_lead S -> se_owed S' = se_owed S ->
  sess_ok (places i sys) S' -> counted (sh_metrics (sh sys)) (sh_metrics h') S S' ->
  sys_inv (mkSystem h' (<[i := S']> (sessions sys))).
Proof.
  intros Hinv Hi Hco Ho Hp Hl Hw Hok Hc. apply (inv_update i S); try done; rewrite Hco.
  - intros w _. by rewrite Hw.
  - intros n Hn. unfold own in Hn. rewrite Ho, Hp, Hw in Hn. by replace n with (places i sys) by lia.
  - intros key. unfold leads_for. by rewrite Ho, Hl.
Qed.

Lemma hand_ok_out h n S S' : se_out S' = se_out S -> hand_ok h n S -> hand_ok h n S'.
Proof. intros Ho. unfold hand_ok. by rewrite Ho. Qed.

(** The steps of [run_prog], one lemma per kind of operation.  [S] runs [p]. *)
Section run.
Context (i : nat) (S : sess F) (sys : system F).
Hypothesis (Hinv : sys_inv sys) (Hi : sessions sys !! i = Some S).

Lemma inv_ret h s :
  hand_ok h (places i sys) S -> wt h (se_lead S) (se_owed S) (se_gauge S) (se_open S) (Ret s) ->
  sys_inv (mkSystem (sh sys) (<[i := halt s S]> (sessions sys))).
Proof using Hinv Hi.
  intros Hh Hwt. inversion Hwt; subst. apply (inv_quiet i S); try done.
  - exists h. split; [by apply (hand_ok_out h _ S)|done].
  - apply counted_same; [apply Hinv|done|done].
Qed.

(** The operations that only change the rest of the program, and parts of the shared
    state other than the coalescer and the registry. *)
Lemma inv_go h k h' :
  hand_ok h (places i sys) S -> wt h (se_lead S) (se_owed S) (se_gauge S) (se_open S) k ->
  sh_coalescer h' = sh_coalescer (sh sys) -> sh_metrics h' = sh_metrics (sh sys) ->
  sys_inv (mkSystem h' (<[i := go k S]> (sessions sys))).
Proof using Hinv Hi.
  intros Hh Hwt Hc Hm. apply (inv_quiet i S); try done.
  - exists h. split; [by apply (hand_ok_out h _ S)|done].
  - rewrite Hm. apply counted_same; [apply Hinv|done|done].
Qed.

Lemma inv_metric h op k :
  hand_ok h (places i sys) S -> wt h (se_lead S) (se_owed S) (se_gauge S) (se_open S) (Metric op k) ->
  sys_inv (mkSystem (with_metrics (metric_apply (sh_metrics (sh sys)) op) (sh sys))
             (<[i := note_metric op (go k S)]> (sessions sys))).
Proof using Hinv Hi.
  intros Hh Hwt. inversion Hwt; subst. apply (inv_quiet i S); try done.
  - exists h. split; [by apply (hand_ok_out h _ S)|done].
  - apply counted_metric; [apply Hinv|done|done|done].
Qed.

Lemma inv_join h key k :
  hand_ok h (places i sys) S -> wt h (se_lead S) (se_owed S) (se_gauge S) (se_open S) (JoinOrStart key k) ->
  let (role, c) := join_or_start key i (sh_coalescer (sh sys)) in
  let S' := match role with leader => set_lead (Some key) S | waiter => S end in
  sys_inv (mkSystem (with_coalescer c (sh sys)) (<[i := go (k role) S']> (sessions sys))).
Proof using Hinv Hi.
  intros Hh Hwt. inversion Hwt as [| | | | | | | |g o key' k' Hlead Hwait| | | | | | |]; subst. simpl in Hh.
  destruct S as [st run out posted expy lead owed gauge open] eqn:HS. simpl in *. subst lead owed.
  unfold join_or_start. destruct (flights sys !! key) as [ws|] eqn:Hk.
  - apply (inv_update i S); subst S; simpl; try done.
    + intros w Hw. pose proof (flight_waits_update w key ws (ws ++ [i]) _ Hk) as Hu.
      rewrite occurs_app, occurs_cons in Hu. rewrite decide_False in Hu by done. unfold occurs at 3 in Hu. simpl in Hu. lia.
    + intros n Hn. pose proof (flight_waits_update i key ws (ws ++ [i]) _ Hk) as Hu.
      rewrite occurs_app, occurs_cons, decide_True in Hu by done. unfold occurs at 3 in Hu. simpl in Hu.
      exists HandWait. split; [|done]. simpl. unfold own in Hn. simpl in Hn. split; [lia|].
      assert (own (mkSess st run out posted expy None [] gauge open) <= places i sys) as Hle
        by (unfold places; rewrite Hi; lia).
      unfold own in Hle. simpl in Hle. destruct out; [done|simpl in Hle; lia].
    + intros key'. rewrite flight_of_insert. case_decide; [subst key'; unfold flight_of; rewrite Hk|]; unfold leads_for; simpl; lia.
    + apply counted_same; [apply Hinv|done|done].
  - apply (inv_update i S); subst S; simpl; try done.
    + intros w Hw. rewrite flight_waits_insert by done. done.
    + intros n Hn. rewrite flight_waits_insert in Hn by done. exists NoHand. split; [|done]. simpl.
      unfold own in Hn. simpl in Hn. unfold occurs in Hn. simpl in Hn. lia.
    + intros key'. rewrite flight_of_insert. unfold leads_for. simpl.
      destruct (decide (key = key')) as [<-|Hne];
        [rewrite decide_True by done; unfold flight_of; rewrite Hk|rewrite decide_False by congruence]; lia.
    + apply counted_same; [apply Hinv|done|done].
Qed.

(** A session that leads a flight finds it in the table. *)
Lemma led_flight key : se_lead S = Some key -> exists ws, flights sys !! key = Some ws.
Proof using Hinv Hi.
  intros Hl. assert (leads_for key S <= leaders key sys) as Hle
    by (apply sum_list_with_in; by eapply list_elem_of_lookup_2).
  rewrite (si_leaders _ Hinv) in Hle. unfold leads_for, flight_of in Hle. rewrite decide_True in Hle by done.
  destruct (flights sys !! key) as [ws|]; [by exists ws|lia].
Qed.

Lemma inv_complete h key k :
  hand_ok h (places i sys) S -> wt h (se_lead S) (se_owed S) (se_gauge S) (se_open S) (CompleteFlight key k) ->
  let (ws, c) := complete key (sh_coalescer (sh sys)) in
  sys_inv (mkSystem (with_coalescer c (sh sys))
             (<[i := go (k ws) (set_owed (default [] ws) (set_lead None S))]> (sessions sys))).
Proof using Hinv Hi.
  intros Hh Hwt. inversion Hwt as [| | | | | | | | |g o key' k' Hk Heqh Heql Heqo| | | | | |]; subst. simpl in Hh.
  destruct (led_flight key) as [ws Hws]; [done|]. unfold complete. rewrite Hws. apply (inv_update i S); try done; simpl.
  - intros w _. rewrite <- Heqo, (flight_waits_delete w key ws _ Hws). unfold occurs at 3. simpl. lia.
  - intros n Hn. rewrite <- Heqo, (flight_waits_delete i key ws _ Hws) in Hn. unfold occurs at 2 in Hn. simpl in Hn.
    exists NoHand. split; [|apply (Hk (Some ws))]. unfold own in Hn. simpl in Hn |- *. lia.
  - intros key'. rewrite flight_of_delete. unfold leads_for. simpl. rewrite <- Heql.
    destruct (decide (key = key')) as [<-|Hne];
      [rewrite decide_True by done; unfold flight_of; rewrite Hws|rewrite decide_False by congruence]; lia.
  - apply counted_same; [apply Hinv|done|done].
Qed.

Lemma inv_lib h c k :
  hand_ok h (places i sys) S -> wt h (se_lead S) (se_owed S) (se_gauge S) (se_open S) (Lib c k) ->
  sys_inv (mkSystem (sh sys) (<[i := lib_effect (sh_now (sh sys)) c (go k S)]> (sessions sys))).
Proof using Hinv Hi.
  intros Hh Hwt.
  assert (own S <= places i sys) as Hown by (unfold places; rewrite Hi; lia).
  inversion Hwt as [| | | | | | | | | | | |owed g o c' k' Hio Hk Heqh Heql|owed g o u req key k' Hk|h' l' w' g o c' k' Hc Hk|s Heqh Heql Heqo Heqg Heqop Heqc]; subst.
  - simpl in Hh. assert (exists op, lib_effect (sh_now (sh sys)) c (go k S) = push_out op (go k S) /\ forall key pc since, op <> OnProxy key pc since)
      as (op & -> & Hop) by (destruct Hio as [->|(r & cl & ->)]; by eexists).
    unfold own in Hown. apply (inv_update i S); try done; simpl.
    + intros n Hn. unfold own in Hn. simpl in Hn. rewrite length_app in Hn. simpl in Hn.
      exists HandIO. split; [|by rewrite Heql in Hk]. simpl. split; [lia|]. exists op. split; [|done].
      destruct (se_out S); [done|simpl in Hown; lia].
    + intros key. unfold leads_for. simpl. rewrite sum_list_with_app. simpl.
      destruct op as [|cl|key' pc since]; simpl; [lia|lia|]. by destruct (Hop key' pc since).
    + apply counted_same; [apply Hinv|done|done].
  - simpl in Hh. unfold own in Hown. apply (inv_update i S); try done; simpl.
    + intros n Hn. unfold own in Hn. simpl in Hn. rewrite length_app in Hn. simpl in Hn.
      exists HandProxy. split; [|done]. simpl. split; [lia|].
      eexists _, _, _. split; [|split; [eexists; apply started_live|done]]. destruct (se_out S); [done|simpl in Hown; lia].
    + intros key. unfold leads_for. simpl. rewrite sum_list_with_app. simpl. case_decide; lia.
    + apply counted_same; [apply Hinv|done|done].
  - destruct Hc as [->|(m & e & ->)]; by apply (inv_go h k).
  - apply (inv_quiet i S); try done.
    + exists NoHand. split; [by apply (hand_ok_out NoHand _ S)|]. simpl. rewrite <- Heql, <- Heqo, <- Heqg, <- Heqop.
      apply wt_io; [by eauto|]. by apply wt_ret.
    + apply counted_same; [apply Hinv|done|done].
Qed.

(** The session a response is posted to is another one. *)
Lemma post_target w owed :
  se_owed S = w :: owed -> places i sys = 0 -> w <> i /\ exists T, sessions sys !! w = Some T.
Proof using Hinv Hi.
  intros Howed Hp.
  assert (1 <= owed_to w (sessions sys)) as Hw.
  { transitivity (occurs w (se_owed S)); [rewrite Howed, occurs_cons, decide_True by done; lia|].
    apply (sum_list_with_in S (fun T => occurs w (se_owed T))). by eapply list_elem_of_lookup_2. }
  split; [intros ->; unfold places in Hp; lia|]. apply lookup_lt_is_Some.
  destruct (decide (w < length (sessions sys))); [done|].
  pose proof (si_known _ Hinv w ltac:(lia)) as Hk. unfold places in Hk. lia.
Qed.

(** The post moves the request of [w] from what session [i] owes to what is posted. *)
Lemma post_places w owed T r k v :
  se_owed S = w :: owed -> w <> i -> sessions sys !! w = Some T ->
  places v (mkSystem (sh sys) (<[w := set_posted (se_posted T ++ [r]) T]> (<[i := go k (set_owed owed S)]> (sessions sys)))) =
  places v sys.
Proof using Hi.
  intros Howed Hwi HT. set (S' := go k (set_owed owed S)). set (T' := set_posted (se_posted T ++ [r]) T).
  assert ((<[i := S']> (sessions sys)) !! w = Some T) as HT' by (by rewrite list_lookup_insert_ne).
  unfold places, owed_to. simpl.
  pose proof (sum_list_with_insert (fun T => occurs v (se_owed T)) _ _ _ S' Hi) as H1.
  pose proof (sum_list_with_insert (fun T => occurs v (se_owed T)) _ _ _ T' HT') as H2. cbn beta in H1, H2.
  rewrite Howed, occurs_cons in H1. change (se_owed S') with owed in H1. change (se_owed T') with (se_owed T) in H2.
  destruct (decide (w = v)) as [<-|Hv].
  - rewrite list_lookup_insert_eq, HT by (rewrite length_insert; by eapply lookup_lt_Some). unfold own. simpl.
    rewrite length_app. simpl. lia.
  - rewrite list_lookup_insert_ne by done. destruct (decide (i = v)) as [<-|Hiv].
    + rewrite list_lookup_insert_eq, Hi by (by eapply lookup_lt_Some). unfold own. simpl. lia.
    + rewrite list_lookup_insert_ne by done. lia.
Qed.

Lemma inv_post h w r k :
  hand_ok h (places i sys) S -> wt h (se_lead S) (se_owed S) (se_gauge S) (se_open S) (Post w r k) ->
  sys_inv (mkSystem (sh sys) (alter (fun T => set_posted (se_posted T ++ [r]) T) w
                                (<[i := go k (set_owed (tail (se_owed S)) S)]> (sessions sys)))).
Proof using Hinv Hi.
  intros Hh Hwt. inversion Hwt as [| | | | | | | | | |w' owed g o r' k' Hk Heqh Heql Heqo| | | | |]; subst. simpl in Hh.
  destruct (post_target w owed) as [Hwi [T HT]]; [done|done|].
  pose proof (fun v => post_places w owed T r k v ltac:(done) Hwi HT) as Hplaces.
  cbn [tail]. set (S' := go k (set_owed owed S)) in *. set (T' := set_posted (se_posted T ++ [r]) T) in *.
  assert ((<[i := S']> (sessions sys)) !! w = Some T) as HT' by (by rewrite list_lookup_insert_ne).
  rewrite (list_alter_lookup _ _ _ _ HT'). fold T'.
  assert (forall f : sess F -> nat, f S' = f S -> f T' = f T ->
    sum_list_with f (<[w := T']> (<[i := S']> (sessions sys))) = sum_list_with f (sessions sys)) as Hsum.
  { intros f HfS HfT. pose proof (sum_list_with_insert f _ _ _ S' Hi).
    pose proof (sum_list_with_insert f _ _ _ T' HT'). lia. }
  destruct Hinv as [H1 H2 H3 H4 H5 H6]. split; simpl.
  - intros v V HV. rewrite Hplaces. destruct (decide (w = v)) as [<-|Hv].
    + rewrite list_lookup_insert_eq in HV by (rewrite length_insert; by eapply lookup_lt_Some). injection HV as <-.
      destruct (H1 _ _ HT) as (h' & Hh' & Hrun). exists h'. split; [by apply (hand_ok_out h' _ T)|done].
    + rewrite list_lookup_insert_ne in HV by done. destruct (decide (i = v)) as [<-|Hiv].
      * rewrite list_lookup_insert_eq in HV by (by eapply lookup_lt_Some). injection HV as <-.
        exists NoHand. split; [done|]. simpl. by rewrite <- Heql.
      * rewrite list_lookup_insert_ne in HV by done. by apply H1.
  - intros key. unfold leaders. simpl. rewrite Hsum by done. apply H2.
  - intros v Hv. rewrite !length_insert in Hv. rewrite Hplaces. by apply H3.
  - done.
  - rewrite H5. unfold gauges. simpl. by rewrite (Hsum (fun S => if se_gauge S then 1 else 0)).
  - rewrite H6. unfold opens. simpl. by rewrite (Hsum (fun S => if se_open S then 1 else 0)).
Qed.
End run.

Lemma inv_run i sys sys' : sys_inv sys -> run_op i sys = Some sys' -> sys_inv sys'.
Proof.
  intros Hinv Hop. unfold run_op in Hop. destruct (sessions sys !! i) as [T|] eqn:Hi; [|done]. simpl in Hop.
  destruct (se_run T) as [p|] eqn:Hrun; [|done]. simpl in Hop.
  destruct (si_sessions _ Hinv _ _ Hi) as (h & Hh & Hwt). rewrite Hrun in Hwt.
  destruct p as [s|e|k|op k|k|key k|key r k|k|key k|key k|w r k|k|c k]; simpl in Hop.
  - injection Hop as <-. by apply (inv_ret i T sys Hinv Hi h).
  - done.
  - injection Hop as <-. inversion Hwt; subst. by apply (inv_go i T sys Hinv Hi h).
  - injection Hop as <-. by apply (inv_metric i T sys Hinv Hi h).
  - injection Hop as <-. inversion Hwt; subst. by apply (inv_go i T sys Hinv Hi h).
  - destruct (cache_get key _ _) as [r c]. injection Hop as <-. inversion Hwt; subst.
    by apply (inv_go i T sys Hinv Hi h).
  - injection Hop as <-. inversion Hwt; subst. by apply (inv_go i T sys Hinv Hi h).
  - injection Hop as <-. inversion Hwt; subst. by apply (inv_go i T sys Hinv Hi h).
  - pose proof (inv_join i T sys Hinv Hi h key k Hh Hwt) as Hj.
    destruct (join_or_start key i _) as [role c]. by injection Hop as <-.
  - pose proof (inv_complete i T sys Hinv Hi h key k Hh Hwt) as Hj.
    destruct (complete key _) as [ws c]. by injection Hop as <-.
  - injection Hop as <-. by apply (inv_post i T sys Hinv Hi h).
  - destruct (select _) as [u p]. injection Hop as <-. inversion Hwt; subst. by apply (inv_go i T sys Hinv Hi h).
  - injection Hop as <-. by apply (inv_lib i T sys Hinv Hi h).
Qed.

(** The steps of [deliver_to].  [S] runs no handler. *)
Section event.
Context (i : nat) (S : sess F) (sys : system F).
Hypothesis (Hinv : sys_inv sys) (Hi : sessions sys !! i = Some S).

Lemma own_places : own S <= places i sys.
Proof using Hi. unfold places. rewrite Hi. lia. Qed.

(** A session with nothing outstanding, that has settled as [h], starts a handler. *)
Lemma inv_started_flight S' p :
  hand_ok HandIO (places i sys) S \/ hand_ok HandWait (places i sys) S ->
  se_out S' = [] -> own S' + 1 = own S -> se_owed S' = se_owed S -> se_lead S' = None -> se_lead S = None ->
  se_run S' = Some p -> wt NoHand None (se_owed S') (se_gauge S') (se_open S') p ->
  se_gauge S' = se_gauge S -> se_open S' = se_open S ->
  sys_inv (mkSystem (sh sys) (<[i := S']> (sessions sys))).
Proof using Hinv Hi.
  intros Hh Ho Hown Hw Hl' Hl Hr Hwt Hg Hop. apply (inv_update i S); try done.
  - intros w _. by rewrite Hw.
  - intros n Hn. rewrite Hw in Hn. exists NoHand. rewrite Hr, Hl'. split; [|done].
    assert (places i sys = 1) as Hp by (by destruct Hh as [[? _]|[? _]]). simpl. lia.
  - intros key. unfold leads_for. rewrite Ho, Hl, Hl'. simpl.
    assert (sum_list_with (proxy_leads key) (se_out S) = 0); [|lia].
    destruct Hh as [(_ & o & -> & Hno)|[_ ->]]; [|done]. simpl.
    destruct o as [| |key' pc since]; [done|done|]. by destruct (Hno key' pc since).
  - apply counted_same; [apply Hinv|done|done].
Qed.

Lemma inv_proxy j key pc since elapsed ev :
  hand_ok HandProxy (places i sys) S -> settled HandProxy (se_lead S) (se_owed S) (se_gauge S) (se_open S) ->
  se_run S = None -> se_out S !! j = Some (OnProxy key pc since) -> legal pc elapsed ev ->
  sys_inv (mkSystem (sh sys) (<[i := proxy_event (sh_now (sh sys)) key pc ev S (delete j (se_out S))]> (sessions sys))).
Proof using Hinv Hi.
  intros (Hn & key0 & pc0 & since0 & Hout & [op Hlive] & Htmo) (Hl & Hw & Hg & Hop) Hrun Hj Hlegal.
  pose proof own_places as Hown. unfold own in Hown. rewrite Hout in *. destruct j as [|j]; [|done].
  injection Hj as -> -> ->. simpl in Hown. cbn [delete list_delete]. unfold proxy_event.
  destruct (pnext_live key op pc elapsed ev Hlive Hlegal) as (_ & Htmo' & Hcase).
  destruct (pnext pc ev) as [pc' effs]. simpl in Hcase, Htmo'.
  destruct Hcase as [[_ (r & -> & _)]|(Hlive' & _ & -> & _)]; apply (inv_update i S); try done; simpl.
  - intros n Hn'. unfold own in Hn'. rewrite Hout in Hn'. simpl in Hn'. exists NoHand. simpl.
    split; [lia|]. rewrite Hw, Hg, Hop. apply wt_on_proxy_response.
  - intros k. unfold leads_for. simpl. rewrite Hl, Hout. simpl. lia.
  - apply counted_same; [apply Hinv|done|done].
  - intros n Hn'. unfold own in Hn'. rewrite Hout in Hn'. simpl in Hn'. exists HandProxy. simpl. rewrite Hrun.
    split; [|done]. split; [lia|]. eexists _, _, _. split; [reflexivity|]. split; [by eexists|congruence].
  - intros k. unfold leads_for. simpl. by rewrite Hout.
  - apply counted_same; [apply Hinv|done|done].
Qed.

Lemma inv_event j ev S' :
  se_run S = None -> event_legal (sh_now (sh sys)) j ev S -> deliver_to (sh_now (sh sys)) j ev S = Some S' ->
  sys_inv (mkSystem (sh sys) (<[i := S']> (sessions sys))).
Proof using Hinv Hi.
  intros Hrun Hlegal Hd. destruct (si_sessions _ Hinv _ _ Hi) as (h & Hh & Hset). rewrite Hrun in Hset.
  pose proof own_places as Hown. unfold own in Hown. pose proof Hset as (Hl & Hw & Hg & Hop).
  unfold deliver_to in Hd. unfold event_legal in Hlegal.
  destruct ev as [error req|error|ev|].
  - destruct (se_out S !! j) as [[| |]|] eqn:Hj; try done. injection Hd as <-.
    destruct h; simpl in Hh; [rewrite Hh in Hown; destruct (se_out S); [done|simpl in Hown; lia]| | |].
    + destruct Hh as (Hn & o & Ho & Hno). assert (delete j (se_out S) = []) as Hdel by (rewrite Ho in *; by destruct j).
      eapply inv_started_flight; [by left; split; [|exists o]| | | | |done|done| |done|done]; simpl; rewrite ?Hdel; try done.
      * unfold own. rewrite Ho. simpl. lia.
      * rewrite Hw, Hg, Hop. apply wt_on_read.
    + destruct Hh as [_ Ho]. by rewrite Ho in Hj.
    + destruct Hh as (_ & key & pc & since & Ho & _). rewrite Ho in Hj. by destruct j.
  - destruct (se_out S !! j) as [[|close|]|] eqn:Hj; try done. injection Hd as <-.
    destruct h; simpl in Hh; [rewrite Hh in Hown; destruct (se_out S); [done|simpl in Hown; lia]| | |].
    + destruct Hh as (Hn & o & Ho & Hno). assert (delete j (se_out S) = []) as Hdel by (rewrite Ho in *; by destruct j).
      eapply inv_started_flight; [by left; split; [|exists o]| | | | |done|done| |done|done]; simpl; rewrite ?Hdel; try done.
      * unfold own. rewrite Ho. simpl. lia.
      * rewrite Hw, Hg, Hop. apply wt_on_write.
    + destruct Hh as [_ Ho]. by rewrite Ho in Hj.
    + destruct Hh as (_ & key & pc & since & Ho & _). rewrite Ho in Hj. by destruct j.
  - destruct (se_out S !! j) as [[| |key pc since]|] eqn:Hj; try done. injection Hd as <-.
    destruct h; simpl in Hh; [rewrite Hh in Hown; destruct (se_out S); [done|simpl in Hown; lia]| | |].
    + destruct Hh as (_ & o & Ho & Hno). rewrite Ho in Hj. destruct j; [|done]. injection Hj as ->. by destruct (Hno key pc since).
    + destruct Hh as [_ Ho]. by rewrite Ho in Hj.
    + by apply (inv_proxy j key pc since (sh_now (sh sys) - since) ev).
  - assert (match se_posted S with r :: rs => Some (go (on_posted r (se_state S)) (set_posted rs S)) | [] => None end = Some S')
      as Hd' by (by destruct (se_out S !! j) as [[| |]|]).
    destruct (se_posted S) as [|r rs] eqn:Hp; [done|]. injection Hd' as <-. simpl in Hown.
    destruct h; simpl in Hh; [lia|destruct Hh as (Hn & o & Ho & _); rewrite Ho in Hown; simpl in Hown; lia| |
      destruct Hh as (Hn & key & pc & since & Ho & _); rewrite Ho in Hown; simpl in Hown; lia].
    destruct Hh as [Hn Ho]. eapply inv_started_flight; [by right| | | | |done|done| |done|done]; simpl; try done.
    + unfold own. simpl. rewrite Hp. simpl. lia.
    + rewrite Hw, Hg, Hop. apply wt_on_posted.
Qed.
End event.

Lemma inv_accept sys : sys_inv sys -> sys_inv (mkSystem (sh sys) (sessions sys ++ [new_session])).
Proof.
  intros [H1 H2 H3 H4 H5 H6].
  assert (forall i, places i (mkSystem (sh sys) (sessions sys ++ [new_session])) = places i sys) as Hplaces.
  { intros i. unfold places, owed_to. simpl. rewrite sum_list_with_app. simpl.
    destruct (decide (i < length (sessions sys))) as [Hlt|Hge]; [rewrite lookup_app_l by done; lia|].
    rewrite lookup_app_r by lia. rewrite (lookup_ge_None_2 (sessions sys)) by lia.
    destruct (i - length (sessions sys)) as [|n]; simpl; unfold own; simpl; lia. }
  split; simpl.
  - intros i T HT. rewrite Hplaces. apply lookup_app_Some in HT as [HT|[Hge HT]]; [by apply H1|].
    apply list_lookup_singleton_Some in HT as [_ <-]. rewrite H3 by done. exists NoHand. split; [done|]. apply wt_do_read.
  - intros key. unfold leaders. simpl. rewrite sum_list_with_app. simpl. specialize (H2 key). unfold leaders in H2. lia.
  - intros i Hge. rewrite length_app in Hge. rewrite Hplaces. apply H3. lia.
  - done.
  - rewrite H5. unfold gauges. simpl. rewrite sum_list_with_app. simpl. do 2 f_equal. lia.
  - rewrite H6. unfold opens. simpl. rewrite sum_list_with_app. simpl. do 2 f_equal. lia.
Qed.

Lemma inv_verdict index healthy log w sys :
  sys_inv sys -> store_verdict index healthy (world_of log (sh sys)) = Ok w ->
  sys_inv (mkSystem (with_verdict w (sh sys)) (sessions sys)).
Proof.
  intros [H1 H2 H3 H4 H5 H6] Hs. apply store_verdict_rest in Hs as [_ Hm].
  assert (counters_ok (sh_metrics (with_verdict w (sh sys))) /\
    forall c, c <> health_transitions_ -> count_of (sh_metrics (with_verdict w (sh sys))) c = count_of (sh_metrics (sh sys)) c)
    as [Hok Hc].
  { simpl. destruct Hm as [->| ->]; simpl; [done|]. split.
    - intros c. unfold record_health_transition, fetch_add, count_of. simpl. case_match; [apply wrap64_range|apply H4].
    - intros c Hc. unfold record_health_transition, fetch_add, count_of. simpl. by case_match. }
  split; try done; simpl; rewrite !Hc by done; done.
Qed.

Lemma sys_inv_step sys sys' : sys_inv sys -> sstep sys sys' -> sys_inv sys'.
Proof.
  intros Hinv Hstep. destruct Hstep as [i sys sys' Hop|i j ev T T' sys Hi Hrun Hl Hd|sys|t sys _|index h log w sys Hs].
  - by eapply inv_run.
  - by eapply inv_event.
  - by apply inv_accept.
  - by destruct Hinv.
  - by eapply inv_verdict.
Qed.

Lemma sys_inv_fresh sys : fresh sys -> sys_inv sys.
Proof.
  intros (Hs & Hf & Hc). unfold fresh in *. split.
  - intros i T. by rewrite Hs.
  - intros key. unfold leaders, flight_of. by rewrite Hs, Hf, lookup_empty.
  - intros i _. unfold places, owed_to. rewrite Hs, Hf, flight_waits_empty. done.
  - intros c. rewrite Hc. unfold two64. lia.
  - rewrite Hc. unfold gauges. by rewrite Hs.
  - rewrite !Hc. unfold opens. by rewrite Hs.
Qed.

Lemma sys_inv_reachable sys : reachable fresh sstep sys -> sys_inv sys.
Proof. apply reachable_invariant; [apply sys_inv_fresh|apply sys_inv_step]. Qed.
End invariant.

(** ** Lemmas: what the invariant says *)

Section consequences.
Context {F : Type} `{!Beast F}.
Implicit Types (S T : sess F) (sys : system F).

#[local] Abbreviation flights sys := (flights_ (sh_coalescer (sh sys))).

Lemma places_le sys i : sys_inv sys -> places i sys <= 1.
Proof.
  intros Hinv. destruct (sessions sys !! i) as [T|] eqn:HT.
  - destruct (si_sessions _ Hinv _ _ HT) as (h & Hh & _). destruct h; simpl in Hh; intuition lia.
  - apply lookup_ge_None in HT. rewrite (si_known _ Hinv) by done. lia.
Qed.

Lemma sum_list_with_one {A} (f : A -> nat) (l : list A) :
  sum_list_with f l = 1 ->
  exists i x, l !! i = Some x /\ f x = 1 /\ forall j y, l !! j = Some y -> 0 < f y -> j = i.
Proof.
  induction l as [|x l IH]; simpl; [done|]. intros Hs. destruct (f x) as [|n] eqn:Hx.
  - destruct (IH Hs) as (i & y & Hi & Hy & Huniq). exists (S i), y. split; [done|]. split; [done|].
    intros [|j] z Hz Hpos; simpl in Hz; [simplify_eq; lia|]. f_equal. by eapply Huniq.
  - exists 0, x. split; [done|]. split; [lia|]. intros [|j] z Hz Hpos; [done|]. simpl in Hz.
    apply list_elem_of_lookup_2 in Hz. pose proof (sum_list_with_zero f l ltac:(lia) z Hz). lia.
Qed.

(** A session that has handed its request on leads no flight and owes no post. *)
Lemma handed_done h lead owed g o (p : prog F) : wt h lead owed g o p -> h <> NoHand -> lead = None /\ owed = [].
Proof.
  induction 1 as [h lead owed g o s Hs| |h lead owed g o k _ IH| |h lead owed g o k _ IH|h lead owed g o key k _ IH
    | | | | | |h lead owed g o k _ IH| | | |]; intros Hh; try done; eauto.
  - by destruct Hs as (? & ? & _).
  - by apply (IH 0%Z).
  - by apply (IH (Ok "")).
  - by apply (IH None).
  - by apply (IH None).
Qed.

(** A session responsible for a flight is at work on it. *)
Definition at_work (key : string) T : Prop :=
  (se_lead T = Some key /\ se_run T <> None) \/
  (exists pc since, se_out T = [OnProxy (Some key) pc since] /\ proxy_ok (Some key) pc).

Lemma leads_at_work sys i T key :
  sys_inv sys -> sessions sys !! i = Some T -> 0 < leads_for key T -> at_work key T /\ flight_waits i (flights sys) = 0.
Proof.
  intros Hinv Hi Hl. destruct (si_sessions _ Hinv _ _ Hi) as (h & Hh & Hrun).
  assert (own T + flight_waits i (flights sys) <= places i sys) as Hle by (unfold places; rewrite Hi; lia).
  unfold own in Hle. unfold leads_for in Hl. case_decide as Hlead.
  - rewrite Hlead in Hrun. destruct (se_run T) as [p|] eqn:Hp; [|by destruct Hrun as (? & _)].
    split; [left; by rewrite Hp|]. destruct (decide (h = NoHand)) as [->|Hne]; [simpl in Hh; lia|].
    destruct (handed_done _ _ _ _ _ _ Hrun Hne). done.
  - simpl in Hl. destruct h; simpl in Hh.
    + assert (se_out T = []) as Ho by (destruct (se_out T); [done|simpl in Hle; lia]). rewrite Ho in Hl. simpl in Hl. lia.
    + destruct Hh as (Hn & o & Ho & Hno). rewrite Ho in Hl. simpl in Hl.
      destruct o as [| |k pc since]; simpl in Hl; [lia|lia|]. by destruct (Hno k pc since).
    + destruct Hh as [_ Ho]. rewrite Ho in Hl. simpl in Hl. lia.
    + destruct Hh as (Hn & k & pc & since & Ho & Hlive). rewrite Ho in Hl, Hle. simpl in Hl, Hle. case_decide; [|lia]. subst k.
      split; [|lia]. right. eauto.
Qed.

(** One operation of a handler can always run, unless it has thrown. *)
Lemma run_op_ready sys i T p :
  sessions sys !! i = Some T -> se_run T = Some p -> (forall e, p <> Raise e) -> is_Some (run_op i sys).
Proof.
  intros Hi Hp Hne. unfold run_op. rewrite Hi. simpl. rewrite Hp. simpl.
  destruct p as [s|e| | | |key k| | |key k|key k| |k|]; simpl; try by eexists.
  - by destruct (Hne e).
  - destruct (cache_get key _ _). by eexists.
  - destruct (join_or_start key i _). by eexists.
  - destruct (complete key _). by eexists.
  - destruct (select _). by eexists.
Qed.

(** The proxy of a session can take a completion, at any time. *)
Lemma proxy_ok_legal key (pc : pconf F (option string)) elapsed : proxy_ok key pc -> exists ev, legal pc elapsed ev.
Proof.
  intros ((op & Hw & _) & _). unfold legal. rewrite Hw.
  exists (match op with
          | PResolve => EvResolved ec_success
          | PConnect => EvConnected ec_success
          | PWrite => UpstreamProxy.EvWritten ec_success
          | PRead => UpstreamProxy.EvRead ec_success (res_new 200 11)
          end).
  by destruct op.
Qed.

(** The flight a session waits for has one session at work on it, another one. *)
Lemma flight_leader sys key ws :
  sys_inv sys -> flights sys !! key = Some ws ->
  exists l T, sessions sys !! l = Some T /\ at_work key T /\ (l ∉ ws) /\
    forall l' T', sessions sys !! l' = Some T' -> 0 < leads_for key T' -> l' = l.
Proof.
  intros Hinv Hk. pose proof (si_leaders _ Hinv key) as Hl. unfold flight_of in Hl. rewrite Hk in Hl.
  destruct (sum_list_with_one _ _ Hl) as (l & T & HT & Hone & Huniq). exists l, T. split; [done|].
  destruct (leads_at_work sys l T key Hinv HT ltac:(lia)) as [Hw Hf]. split; [done|]. split; [|done].
  intros Hin%occurs_pos. pose proof (flight_waits_delete l key ws _ Hk). lia.
Qed.

(** A session that can go on by itself: its handler can run on, or its proxy, which has
    not called its handler, can take a completion. *)
Definition ready sys l : Prop :=
  is_Some (run_op l sys) \/
  exists T key pc since, sessions sys !! l = Some T /\ se_run T = None /\ se_out T = [OnProxy key pc since] /\ proxy_ok key pc /\
    exists ev T', legal pc (sh_now (sh sys) - since) ev /\ deliver_to (sh_now (sh sys)) 0 (EvProxy ev) T = Some T'.

(** A session that leads, owes or has a proxy is not stuck in an exception. *)
Lemma not_raised h lead owed g o (p : prog F) :
  wt h lead owed g o p -> lead <> None \/ owed <> [] \/ h <> NoHand -> forall e, p <> Raise e.
Proof. intros Hwt Hor e ->. inversion Hwt; subst. destruct Hor as [?|[?|?]]; done. Qed.

Lemma at_work_ready sys l T key :
  sys_inv sys -> sessions sys !! l = Some T -> at_work key T -> ready sys l.
Proof.
  intros Hinv HT Hwork. destruct (si_sessions _ Hinv _ _ HT) as (h & Hh & Hrun).
  assert (own T <= places l sys) as Hown by (unfold places; rewrite HT; lia). unfold own in Hown.
  destruct (se_run T) as [p|] eqn:Hp.
  - left. apply (run_op_ready sys l T p HT Hp). eapply not_raised; [exact Hrun|].
    destruct Hwork as [[-> _]|(pc & since & Ho & _)]; [by left|right; right].
    intros ->. simpl in Hh. rewrite Ho in Hown. simpl in Hown. lia.
  - right. destruct Hwork as [[_ ?]|(pc & since & Ho & Hok)]; [congruence|]. exists T, (Some key), pc, since.
    repeat (split; [done|]). destruct (proxy_ok_legal _ _ (sh_now (sh sys) - since) Hok) as [ev Hev]. exists ev.
    unfold deliver_to. rewrite Ho. eauto.
Qed.

Lemma owed_ready sys i :
  sys_inv sys -> 0 < owed_to i (sessions sys) -> exists l, l <> i /\ ready sys l.
Proof.
  intros Hinv Ho.
  assert (exists l T, sessions sys !! l = Some T /\ i ∈ se_owed T) as (l & T & HT & Hin).
  { unfold owed_to in Ho. induction (sessions sys) as [|T l IH]; simpl in Ho; [lia|].
    destruct (occurs i (se_owed T)) as [|n] eqn:Hn.
    - destruct (IH Ho) as (k & T' & Hk & Hin). by exists (S k), T'.
    - exists 0, T. split; [done|]. apply occurs_pos. lia. }
  destruct (si_sessions _ Hinv _ _ HT) as (h & Hh & Hrun).
  assert (se_owed T <> []) as Hne by (intros Hnil; rewrite Hnil in Hin; by apply not_elem_of_nil in Hin).
  destruct (se_run T) as [p|] eqn:Hp; [|by destruct Hrun as (_ & ? & _)].
  exists l. split.
  - intros ->. destruct (decide (h = NoHand)) as [->|Hnh]; [simpl in Hh; unfold places in Hh; lia|].
    by destruct (handed_done _ _ _ _ _ _ Hrun Hnh).
  - left. apply (run_op_ready sys l T p HT Hp). eapply not_raised; [exact Hrun|]. tauto.
Qed.

(** A session that waits for a flight or for a post has another one to wait for. *)
Lemma waiting_ready sys i :
  sys_inv sys -> 0 < flight_waits i (flights sys) + owed_to i (sessions sys) -> exists l, l <> i /\ ready sys l.
Proof.
  intros Hinv Hpos.
  destruct (decide (0 < owed_to i (sessions sys))) as [Ho|Ho]; [by apply owed_ready|].
  destruct (flight_waits_pos i (flights sys)) as (key & ws & Hk & Hin); [lia|].
  destruct (flight_leader sys key ws Hinv Hk) as (l & T & HT & Hwork & Hl & _).
  exists l. split; [by intros ->|]. by eapply at_work_ready.
Qed.

(** ** Lemmas: when no handler runs *)

Definition is_proxy (o : outop F) : bool := match o with OnProxy _ _ _ => true | _ => false end.
Definition proxies_of S : nat := length (filter (fun o => is_proxy o = true) (se_out S)).

Lemma sum_list_with_ext_in {A} (f g : A -> nat) (l : list A) :
  (forall x, x ∈ l -> f x = g x) -> sum_list_with f l = sum_list_with g l.
Proof.
  induction l as [|x l IH]; intros Hfg; simpl; [done|].
  rewrite (Hfg x), IH; [done| |left]. intros y Hy. apply Hfg. by right.
Qed.

(** The request of a session is somewhere, and it is not being read or answered. *)
Definition unanswered (n : nat) S : bool := (n =? 1) && forallb is_proxy (se_out S).

Lemma idle_settled n S :
  sess_ok n S -> own S <= n -> se_run S = None ->
  (if se_gauge S then 1 else 0) = proxies_of S /\ se_open S = unanswered n S.
Proof.
  intros (h & Hh & Hset) Hown Hrun. rewrite Hrun in Hset. destruct Hset as (_ & _ & -> & ->).
  unfold proxies_of, unanswered, own in *. destruct h; simpl in Hh.
  - subst n. destruct (se_out S); [done|simpl in Hown; lia].
  - destruct Hh as (-> & o & -> & Hno). destruct o as [| |key pc since]; [done|done|by destruct (Hno key pc since)].
  - by destruct Hh as (-> & ->).
  - by destruct Hh as (-> & key & pc & since & -> & _).
Qed.

(** ** Lemmas: the timer of the stream *)

(** The timer of a session that has not started yet is not set; otherwise it expires in 30
    seconds at most. *)
Definition timed (now : Z) T : Prop :=
  match se_expiry T with
  | Some t => (t <= now + 30 * 1000000000)%Z
  | None => exists s, se_run T = Some (do_read s) /\ se_out T = []
  end.

(** What a step does to a session: the timer stays, or the start of [do_read] sets it. *)
Definition timer_step (now : Z) T T' : Prop :=
  se_expiry T' = se_expiry T /\ (se_expiry T = None -> se_run T' = se_run T /\ se_out T' = se_out T) \/
  (exists s, se_run T = Some (do_read s)) /\ se_expiry T' = Some (now + 30 * 1000000000)%Z.

Lemma timer_step_timed now now' T T' : timed now T -> timer_step now T T' -> (now <= now')%Z -> timed now' T'.
Proof.
  unfold timed, timer_step. intros Ht [[-> Hn]|[_ ->]] Hle; [|lia].
  destruct (se_expiry T); [lia|]. by destruct (Hn eq_refl) as [-> ->].
Qed.

(** A [Lib] call of a handler sets the timer only when it is that of [do_read]. *)
Lemma lib_timer now h lead owed g o c k T :
  wt h lead owed g o (Lib c k) -> se_run T = Some (Lib c k) ->
  se_expiry (lib_effect now c (go k T)) = se_expiry T \/
  (exists s, se_run T = Some (do_read s)) /\ se_expiry (lib_effect now c (go k T)) = Some (now + 30 * 1000000000)%Z.
Proof.
  intros Hwt ->. inversion Hwt as [| | | | | | | | | | | |? ? ? ? ? Hio|?|? ? ? ? ? ? ? Hc|s]; subst.
  - left. by destruct Hio as [->|(? & ? & ->)].
  - by left.
  - left. by destruct Hc as [->|(? & ? & ->)].
  - right. split; [by exists s|done].
Qed.

(** One operation of session [j]: the others are at most posted to. *)
Lemma insert_posted (j : nat) (S1 : sess F) (l : list (sess F)) (m : nat) T' :
  <[j := S1]> l !! m = Some T' -> exists U rs, T' = set_posted rs U /\ (m = j /\ U = S1 \/ m <> j /\ l !! m = Some U).
Proof.
  intros Hm. exists T', (se_posted T'). split; [by destruct T'|].
  destruct (decide (m = j)) as [->|Hne]; [left|right].
  - pose proof (lookup_lt_Some _ _ _ Hm) as Hlt. rewrite length_insert in Hlt.
    rewrite list_lookup_insert_eq in Hm by done. by simplify_eq.
  - by rewrite list_lookup_insert_ne in Hm.
Qed.

Lemma run_prog_sessions j p S sys sys' :
  run_prog j p S sys = Some sys' -> sh_now (sh sys') = sh_now (sh sys) /\
  exists S1, ((forall c k, p <> Lib c k) /\ se_expiry S1 = se_expiry S /\ se_out S1 = se_out S \/
    exists c k, p = Lib c k /\ S1 = lib_effect (sh_now (sh sys)) c (go k S)) /\
  forall m T', sessions sys' !! m = Some T' ->
    exists U rs, T' = set_posted rs U /\ (m = j /\ U = S1 \/ m <> j /\ sessions sys !! m = Some U).
Proof.
  intros Hop. destruct p as [s|e|k|op k|k|key k|key r k|k|key k|key k|w r k|k|c k]; simpl in Hop; try done;
    repeat (case_match; try done); injection Hop as <-;
    try (split; [done|]; eexists; split; [|intros m T'; apply insert_posted]; first [by left|right; by eexists _, _]).
  split; [done|]. exists (go k (set_owed (tail (se_owed S)) S)). split; [by left|].
  intros m T'. simpl. rewrite list_lookup_alter. case_decide as Hm; [subst w|apply insert_posted].
  destruct (_ !! m) as [V|] eqn:HV; simpl; [|done]. intros [= <-].
  apply insert_posted in HV as (U & rs & -> & HU). by eexists U, _.
Qed.

Lemma run_op_timer j sys sys' i T T' :
  sys_inv sys -> timed (sh_now (sh sys)) T -> run_op j sys = Some sys' ->
  sessions sys !! i = Some T -> sessions sys' !! i = Some T' -> timer_step (sh_now (sh sys)) T T'.
Proof.
  intros Hinv Ht Hop HT HT'. unfold run_op in Hop. destruct (sessions sys !! j) as [V|] eqn:HV; [|done]. simpl in Hop.
  destruct (se_run V) as [p|] eqn:Hrun; [|done]. simpl in Hop.
  destruct (si_sessions _ Hinv _ _ HV) as (h & _ & Hwt). rewrite Hrun in Hwt.
  apply run_prog_sessions in Hop as (_ & S1 & HS & Hall). apply Hall in HT' as (U & rs & -> & [[-> ->]|[_ HU]]).
  - assert (V = T) as -> by congruence. unfold timer_step, timed in *. simpl.
    assert (se_expiry S1 = se_expiry T \/ (exists s, se_run T = Some (do_read s)) /\
      se_expiry S1 = Some (sh_now (sh sys) + 30 * 1000000000)%Z) as [He|?]; [|left|by right].
    { destruct HS as [(_ & ? & _)|(c & k & -> & ->)]; [by left|]. by eapply lib_timer. }
    split; [done|]. intros Hn. rewrite Hn in Ht. destruct Ht as (s & Hs & _). rewrite Hs in Hrun. injection Hrun as <-.
    destruct HS as [[Hno _]|(c & k & [= <- <-] & ->)]; [by edestruct Hno|simpl in He; congruence].
  - simplify_eq. left. done.
Qed.

Lemma deliver_expiry now j ev T T' : deliver_to now j ev T = Some T' -> se_expiry T' = se_expiry T.
Proof.
  unfold deliver_to, proxy_event. intros Hd. repeat (case_match; try done); simplify_eq; done.
Qed.

Lemma step_timer sys sys' i T T' :
  sys_inv sys -> timed (sh_now (sh sys)) T -> sstep sys sys' ->
  sessions sys !! i = Some T -> sessions sys' !! i = Some T' -> timer_step (sh_now (sh sys)) T T'.
Proof.
  intros Hinv Ht Hstep HT HT'.
  destruct Hstep as [j sys sys' Hop|j k ev U U' sys HU Hrun Hl Hd|sys|t sys _|index h log w sys Hs]; simpl in HT'.
  - by eapply run_op_timer.
  - destruct (decide (i = j)) as [->|Hne]; [|rewrite list_lookup_insert_ne in HT' by done; simplify_eq; by left].
    rewrite list_lookup_insert_eq in HT' by (by eapply lookup_lt_Some). simplify_eq. left. split; [by eapply deliver_expiry|].
    intros Hn. unfold timed in Ht. rewrite Hn in Ht. destruct Ht as (s & Hs & _). congruence.
  - rewrite lookup_app_l in HT' by (by eapply lookup_lt_Some). simplify_eq. by left.
  - simplify_eq. by left.
  - simplify_eq. by left.
Qed.

Lemma step_now sys sys' : sstep sys sys' -> (sh_now (sh sys) <= sh_now (sh sys'))%Z.
Proof.
  destruct 1 as [j sys sys' Hop|j k ev U U' sys HU Hrun Hl Hd|sys|t sys Hle|index h log w sys Hs]; simpl; try lia.
  unfold run_op in Hop. destruct (_ !! j) as [V|]; [|done]. simpl in Hop. destruct (se_run V); [|done].
  apply run_prog_sessions in Hop as [-> _]. done.
Qed.

(** A session of the next state that is not of this one has just been made. *)
Lemma step_sessions sys sys' i T' :
  sstep sys sys' -> sessions sys' !! i = Some T' -> is_Some (sessions sys !! i) \/ T' = new_session.
Proof.
  destruct 1 as [j sys sys' Hop|j k ev U U' sys HU Hrun Hl Hd|sys|t sys Hle|index h log w sys Hs]; simpl; eauto.
  - unfold run_op in Hop. destruct (_ !! j) as [V|] eqn:HV; [|done]. simpl in Hop. destruct (se_run V); [|done].
    apply run_prog_sessions in Hop as (_ & S1 & _ & Hall). intros (U & rs & _ & [[-> _]|[_ ->]])%Hall; left; by eexists.
  - intros Hi%lookup_lt_Some. rewrite length_insert in Hi. left. by apply lookup_lt_is_Some.
  - rewrite lookup_app_Some, list_lookup_singleton_Some. naive_solver.
Qed.

Lemma timed_reachable sys :
  reachable fresh sstep sys -> sys_inv sys /\ forall i T, sessions sys !! i = Some T -> timed (sh_now (sh sys)) T.
Proof.
  apply (reachable_invariant fresh sstep (fun sys => sys_inv sys /\ forall i T, sessions sys !! i = Some T -> timed (sh_now (sh sys)) T)).
  - intros sys0 Hf. split; [by apply sys_inv_fresh|]. intros i T. by rewrite (proj1 Hf).
  - intros sys1 sys2 [Hinv Ht] Hstep. split; [by eapply sys_inv_step|]. intros i T' HT'.
    destruct (step_sessions _ _ _ _ Hstep HT') as [[T HT]| ->]; [|by eexists].
    eapply timer_step_timed; [by eapply Ht|by eapply step_timer; eauto|by apply step_now].
Qed.

(** A write that times out ends the session. *)
Lemma write_times_out sys i T close :
  sys_inv sys -> sessions sys !! i = Some T -> se_out T = [OnWrite close] ->
  exists T', deliver_to (sh_now (sh sys)) 0 (EvWritten ec_timeout) T = Some T' /\
    se_run T' = Some (Lib (LLog "Write error: " ec_timeout) (Ret (se_state T))) /\ se_out T' = [] /\ se_posted T' = [].
Proof.
  intros Hinv HT Ho. pose proof (places_le sys i Hinv) as Hle. pose proof (own_places i T sys HT) as Hown.
  unfold own in Hown. rewrite Ho in Hown. simpl in Hown. unfold deliver_to. rewrite Ho. simpl.
  eexists. split; [reflexivity|]. split; [done|]. split; [done|]. simpl. destruct (se_posted T); [done|simpl in Hown; lia].
Qed.
End consequences.

(** ** Runs that can be evaluated *)

#[export] Instance event_legal_dec {F} `{!Beast F} now j ev (S : sess F) : Decision (event_legal now j ev S).
Proof.
  unfold event_legal. destruct ev as [error req|error|ev|]; destruct (se_out S !! j) as [[|close|key pc since]|]; apply _.
Defined.

Inductive command F := CRun (i : nat) | CEvent (i : nat) (ev : sevent F) | CAccept | CClock (t : Z).
Arguments CRun {F}.
Arguments CEvent {F}.
Arguments CAccept {F}.
Arguments CClock {F}.

Definition command_step {F} `{!Beast F} (c : command F) (sys : system F) : option (system F) :=
  match c with
  | CRun i => run_op i sys
  | CEvent i ev =>
      T ← sessions sys !! i;
      if bool_decide (is_Some (se_run T)) then None
      else if decide (event_legal (sh_now (sh sys)) 0 ev T) then
        T' ← deliver_to (sh_now (sh sys)) 0 ev T; Some (mkSystem (sh sys) (<[i := T']> (sessions sys)))
      else None
  | CAccept => Some (mkSystem (sh sys) (sessions sys ++ [new_session]))
  | CClock t => if decide (sh_now (sh sys) <= t)%Z then Some (mkSystem (with_now t (sh sys)) (sessions sys)) else None
  end.

Fixpoint run_commands {F} `{!Beast F} (cs : list (command F)) (sys : system F) : option (system F) :=
  match cs with
  | [] => Some sys
  | c :: cs' => sys' ← command_step c sys; run_commands cs' sys'
  end.

Lemma run_commands_steps {F} `{!Beast F} cs (sys sys' : system F) :
  run_commands cs sys = Some sys' -> rtc sstep sys sys'.
Proof.
  revert sys. induction cs as [|c cs IH]; intros sys Hcs; simpl in Hcs; [by simplify_eq|].
  destruct (command_step c sys) as [sys1|] eqn:Hc; [|done]. simpl in Hcs. eapply rtc_l; [|by apply (IH sys1)].
  destruct c as [i|i ev| |t]; cbn [command_step] in Hc.
  - by apply (step_run i).
  - destruct (sessions sys !! i) as [T|] eqn:HT; [|done]. simpl in Hc. case_bool_decide as Hn; [done|].
    case_decide as Hl; [|done]. destruct (deliver_to (sh_now (sh sys)) 0 ev T) as [T'|] eqn:Hd; [|done]. simpl in Hc. injection Hc as <-.
    apply (step_event i 0 ev T); [done| |done|done]. destruct (se_run T); [destruct Hn; by eexists|done].
  - injection Hc as <-. apply step_accept.
  - case_decide; [|done]. injection Hc as <-. by apply step_clock.
Qed.

Lemma run_commands_reachable {F} `{!Beast F} cs (sys sys' : system F) :
  reachable fresh sstep sys -> run_commands cs sys = Some sys' -> reachable fresh sstep sys'.
Proof. intros (sys0 & H0 & Hr) Hcs%run_commands_steps. exists sys0. split; [done|]. by etrans. Qed.

(** A server with two connections that ask for the same target: the first leads the
    flight and has started a proxy, the second waits. *)
Definition start_system : system RefFields.t :=
  mkSystem (mkShared pool_abc (mkCache default_cache_options [] ∅ 0) (mkCoalescer ∅) zero_metrics 0) [].

Definition two_requests : list (command RefFields.t) :=
  [CAccept; CAccept; CRun 0; CRun 0; CRun 0; CRun 1; CRun 1; CRun 1;
   CEvent 0 (EvRead ec_success (get_request "/a")); CEvent 1 (EvRead ec_success (get_request "/a"))] ++
  replicate 13 (CRun 0) ++ replicate 8 (CRun 1).

Definition two_sessions : system RefFields.t := default start_system (run_commands two_requests start_system).

Lemma two_sessions_reachable : reachable fresh sstep two_sessions.
Proof.
  assert (reachable fresh sstep start_system) as Hs by (exists start_system; split; [done|apply rtc_refl]).
  unfold two_sessions. destruct (run_commands two_requests start_system) as [sys|] eqn:Hrun; [|done].
  by apply (run_commands_reachable two_requests start_system).
Qed.

(** ** Theorems *)

(** C2.  No request is lost or answered twice.  In every state the server can reach, the
    request of a session is in at most one place: a library operation of its own, a
    posted response, a flight it waits for, or the list of a session that has completed
    a flight and not yet posted to it.  Every flight has exactly one session
    responsible for it, not one of its waiters, which is at work: it is running the
    handler that will complete the flight, or its one outstanding operation is a proxy
    that has not called its handler yet.  And a session whose handler returned with its
    request counted and not answered has such a proxy, or a response posted to it, or
    waits in a flight, or is owed one. *)
Theorem request_in_one_place {F : Type} `{!Beast F} (sys : system F) :
  reachable fresh sstep sys ->
  (forall i, places i sys <= 1) /\
  (forall key ws, flights_ (sh_coalescer (sh sys)) !! key = Some ws ->
     exists l T, sessions sys !! l = Some T /\ at_work key T /\ (l ∉ ws) /\
       forall l' T', sessions sys !! l' = Some T' -> 0 < leads_for key T' -> l' = l) /\
  (forall i T, sessions sys !! i = Some T -> se_run T = None -> se_open T = true ->
     (exists key pc since, se_out T = [OnProxy key pc since] /\ proxy_ok key pc) \/
     (se_out T = [] /\
       length (se_posted T) + flight_waits i (flights_ (sh_coalescer (sh sys))) + owed_to i (sessions sys) = 1)).
Proof.
  intros Hinv%sys_inv_reachable. split; [intros i; by apply places_le|]. split; [intros key ws; by apply flight_leader|].
  intros i T HT Hrun Hopen. destruct (si_sessions _ Hinv _ _ HT) as (h & Hh & Hset).
  rewrite Hrun, Hopen in Hset. destruct Hset as (_ & _ & _ & Hset). destruct h; try done; simpl in Hh.
  - right. destruct Hh as [Hn Ho]. split; [done|]. unfold places, own in Hn. rewrite HT, Ho in Hn. simpl in Hn. lia.
  - left. by destruct Hh as (_ & key & pc & since & Ho & Hok); eauto.
Qed.

Lemma request_in_one_place_witness :
  flights_ (sh_coalescer (sh two_sessions)) !! "/a" = Some [1] /\
  exists l T, sessions two_sessions !! l = Some T /\ at_work "/a" T /\ l ∉ [1].
Proof.
  assert (flights_ (sh_coalescer (sh two_sessions)) !! "/a" = Some [1]) as Hk by (vm_compute; reflexivity). split; [exact Hk|].
  destruct (proj1 (proj2 (request_in_one_place two_sessions two_sessions_reachable)) "/a" [1] Hk) as (l & T & HT & Hw & Hl & _).
  exists l, T. split; [exact HT|]. split; [exact Hw|exact Hl].
Defined.

(** C4.  The metrics tell the truth.  In every state the server can reach, the requests
    counted are the durations recorded plus the requests not answered yet, and the
    in-flight gauge is the number of sessions that have raised it, modulo [2^64].  When
    no handler is running (and there are fewer than [2^64] sessions) the gauge is exactly
    the number of proxies outstanding, and the requests not answered yet are those of
    the sessions with a proxy, or with a wait or a post for them. *)
Theorem metrics_truth {F : Type} `{!Beast F} (sys : system F) :
  reachable fresh sstep sys ->
  let m := sh_metrics (sh sys) in
  count_of m requests_ = wrap64 (count_of m duration_count_ + Z.of_nat (opens sys)) /\
  count_of m proxy_in_flight_ = wrap64 (Z.of_nat (gauges sys)) /\
  ((forall i T, sessions sys !! i = Some T -> se_run T = None) -> (Z.of_nat (length (sessions sys)) < two64)%Z ->
   count_of m proxy_in_flight_ = Z.of_nat (sum_list_with proxies_of (sessions sys)) /\
   forall i T, sessions sys !! i = Some T -> se_open T = unanswered (places i sys) T).
Proof.
  intros Hinv%sys_inv_reachable m. split; [apply Hinv|]. split; [apply Hinv|]. intros Hidle Hlen.
  assert (forall i T, sessions sys !! i = Some T ->
    (if se_gauge T then 1 else 0) = proxies_of T /\ se_open T = unanswered (places i sys) T) as Hset.
  { intros i T HT. apply idle_settled; [by apply Hinv| |by eapply Hidle]. unfold places. rewrite HT. lia. }
  split; [|intros i T HT; by apply Hset].
  unfold m. rewrite (si_gauge _ Hinv). unfold gauges.
  rewrite (sum_list_with_ext_in _ proxies_of);
    [|intros T (i & HT)%list_elem_of_lookup_1; by apply (Hset i)].
  apply wrap64_small. split; [lia|]. eapply Z.le_lt_trans; [|exact Hlen]. apply inj_le.
  assert (sum_list_with proxies_of (sessions sys) = gauges sys) as ->.
  { symmetry. apply sum_list_with_ext_in. intros T (i & HT)%list_elem_of_lookup_1. by apply (Hset i). }
  unfold gauges. clear. induction (sessions sys) as [|T l IH]; simpl; [done|]. destruct (se_gauge T); lia.
Qed.

Lemma metrics_truth_witness :
  count_of (sh_metrics (sh two_sessions)) requests_ = 2%Z /\
  count_of (sh_metrics (sh two_sessions)) requests_ =
    wrap64 (count_of (sh_metrics (sh two_sessions)) duration_count_ + Z.of_nat (opens two_sessions)).
Proof. split; [vm_compute; reflexivity|]. apply (metrics_truth two_sessions two_sessions_reachable). Defined.

(** A request that arrives 28 seconds after the session started to read, and a proxy that
    answers 3 seconds later. *)
Definition slow_answer : list (command RefFields.t) :=
  [CAccept; CRun 0; CRun 0; CRun 0; CClock 28000000000; CEvent 0 (EvRead ec_success (get_request "/a"))] ++
  replicate 13 (CRun 0) ++
  [CEvent 0 (EvProxy (EvResolved ec_success)); CEvent 0 (EvProxy (EvConnected ec_success));
   CEvent 0 (EvProxy (UpstreamProxy.EvWritten ec_success)); CClock 31000000000;
   CEvent 0 (EvProxy (UpstreamProxy.EvRead ec_success (mkResponse 200 11 [("Server", "x")] "late")))] ++
  replicate 9 (CRun 0).

Definition slow_session : system RefFields.t := default start_system (run_commands slow_answer start_system).

Lemma slow_session_reachable : reachable fresh sstep slow_session.
Proof.
  assert (reachable fresh sstep start_system) as Hs by (exists start_system; split; [done|apply rtc_refl]).
  unfold slow_session. destruct (run_commands slow_answer start_system) as [sys|] eqn:Hrun; [|done].
  by apply (run_commands_reachable slow_answer start_system).
Qed.

(** C20.  The time of a session's stream.  While a read or a write is outstanding the timer
    is set, to at most 30 seconds from now.  No step sets it again but the one that starts
    to read the next request: what a client takes to send its request, the upstream to
    answer it, and the write, share the same 30 seconds.  So the write of a response can
    time out as soon as 30 seconds have passed since the session started to read, and not
    before; then the error is logged and the session is at its end: nothing is outstanding
    or posted to it, and it reads no further request. *)
Theorem stream_deadline {F : Type} `{!Beast F} (sys : system F) i T :
  reachable fresh sstep sys -> sessions sys !! i = Some T ->
  (OnRead ∈ se_out T \/ (exists close, OnWrite close ∈ se_out T) ->
     exists t, se_expiry T = Some t /\ (t <= sh_now (sh sys) + 30 * 1000000000)%Z) /\
  (forall sys' T', sstep sys sys' -> sessions sys' !! i = Some T' ->
     se_expiry T' = se_expiry T \/
     (exists s, se_run T = Some (do_read s)) /\ se_expiry T' = Some (sh_now (sh sys) + 30 * 1000000000)%Z) /\
  (forall close, se_run T = None -> se_out T = [OnWrite close] ->
     (event_legal (sh_now (sh sys)) 0 (EvWritten ec_timeout) T <->
        exists t, se_expiry T = Some t /\ (t <= sh_now (sh sys))%Z) /\
     exists T', deliver_to (sh_now (sh sys)) 0 (EvWritten ec_timeout) T = Some T' /\
       se_run T' = Some (Lib (LLog "Write error: " ec_timeout) (Ret (se_state T))) /\ se_out T' = [] /\ se_posted T' = []).
Proof.
  intros [Hinv Hall]%timed_reachable HT. pose proof (Hall i T HT) as Ht.
  split; [|split].
  - intros Hio. unfold timed in Ht. destruct (se_expiry T) as [t|]; [by exists t|]. destruct Ht as (s & _ & Ho).
    rewrite Ho in Hio. destruct Hio as [Hio|[close Hio]]; by apply not_elem_of_nil in Hio.
  - intros sys' T' Hstep HT'. destruct (step_timer sys sys' i T T' Hinv Ht Hstep HT HT') as [[? _]|?]; [by left|by right].
  - intros close Hn Ho. split; [|by apply (write_times_out sys i T close)].
    unfold event_legal. rewrite Ho. simpl. unfold expired.
    destruct (se_expiry T) as [t|]; [rewrite Z.leb_le|]; naive_solver.
Qed.

Lemma stream_deadline_witness : exists T T',
  sessions slow_session !! 0 = Some T /\ request_started_ (se_state T) = 28000000000%Z /\
  sh_now (sh slow_session) = 31000000000%Z /\ se_out T = [OnWrite false] /\
  event_legal (sh_now (sh slow_session)) 0 (EvWritten ec_timeout) T /\
  deliver_to (sh_now (sh slow_session)) 0 (EvWritten ec_timeout) T = Some T' /\ se_out T' = [] /\ se_posted T' = [].
Proof.
  assert (exists T, sessions slow_session !! 0 = Some T /\ request_started_ (se_state T) = 28000000000%Z /\
    se_run T = None /\ se_out T = [OnWrite false] /\ se_expiry T = Some 30000000000%Z) as (T & HT & Hs & Hr & Ho & He)
    by (eexists; split; [vm_compute; reflexivity|]; vm_compute; done).
  destruct (proj2 (proj2 (stream_deadline slow_session 0 T slow_session_reachable HT)) false Hr Ho)
    as [Hl (T' & Hd & _ & Ho' & Hp')].
  exists T, T'. split; [exact HT|]. split; [exact Hs|]. split; [vm_compute; reflexivity|]. split; [exact Ho|].
  split; [|split; [exact Hd|split; [exact Ho'|exact Hp']]].
  apply Hl. exists 30000000000%Z. split; [exact He|]. vm_compute. discriminate.
Defined.
