(* ===== verification/SystemRuns.v ===== *)
(** * The handlers of the sessions while they run

    What [System] leaves to say about the handlers of the sessions of
    [src/http_session.cpp] for the process that runs them ([Program]):

    - [run_of], [child]: the rest of the handler a session is running, and how one
      operation shortens it, so that every handler ends;
    - [no_raise]: the handlers throw nothing, provided that rendering the metrics does
      not;
    - [shared_ok]: the shared parts stay well formed; the registry keeps one series per
      backend, in the order of the pool, so rendering does not throw; it holds of the
      parts [main] makes ([started_sys]). *)

From stdpp Require Import base relations strings numbers gmap list.
From S2P Require Import Prelude CppString ResponseCache RequestCoalescer UpstreamPool Beast HttpHandler Metrics HealthMonitor.
From S2P Require Import UpstreamProxy HttpSession System.

(** ** Lemmas: the pool and the registry *)

Lemma metric_labels m op : label <$> upstreams_ (metric_apply m op) = label <$> upstreams_ m.
Proof.
  rewrite metric_apply_atoms. unfold atoms_run. generalize (atoms_of op) as acts. intros acts. revert m.
  induction acts as [|a acts IH]; intros m; csimpl; [done|]. rewrite IH. destruct a; simpl; [done|]. apply bump_first_labels.
Qed.

Lemma store_verdict_endpoints i h w w' :
  store_verdict i h w = Ok w' ->
  next_index_ (w_pool w') = next_index_ (w_pool w) /\
  be_endpoint <$> backends_ (w_pool w') = be_endpoint <$> backends_ (w_pool w).
Proof.
  unfold store_verdict, set_healthy. destruct (backend_at (w_pool w) i) as [b|] eqn:Hb; simpl; [|done].
  apply backend_at_lookup in Hb. destruct (Bool.eqb (be_healthy b) h); simpl; [by intros [= <-]|].
  destruct (pool_endpoint _ i); simpl; [|done]. intros [= <-]. simpl. split; [done|].
  rewrite list_fmap_insert. simpl. apply list_insert_id. by rewrite list_lookup_fmap, Hb.
Qed.

Lemma pool_ok_endpoints p p' :
  pool_ok p -> next_index_ p' = next_index_ p -> be_endpoint <$> backends_ p' = be_endpoint <$> backends_ p -> pool_ok p'.
Proof.
  intros [H1 H2 H3] Hn Hb. apply (f_equal length) in Hb. rewrite !length_fmap in Hb.
  split; unfold pool_size in *; rewrite ?Hn, Hb; done.
Qed.

Section runs.
Context {F : Type} `{!Beast F}.
Implicit Types (sys : system F) (p : prog F) (s : HttpSession F) (r : Beast.response F).

(** The rest of the handler session [i] is running. *)
Definition run_of sys (i : nat) : option (prog F) := T ← sessions sys !! i; se_run T.

(** One operation of a handler. *)
Inductive child : prog F -> prog F -> Prop :=
| child_now k t : child (Now k) (k t)
| child_metric op k : child (Metric op k) k
| child_render k t : child (Render k) (k t)
| child_get key k x : child (CacheGet key k) (k x)
| child_put key x k : child (CachePut key x k) k
| child_lock k b : child (LockCoalescer k) (k b)
| child_join key k x : child (JoinOrStart key k) (k x)
| child_complete key k x : child (CompleteFlight key k) (k x)
| child_post w x k : child (Post w x k) k
| child_select k x : child (Select k) (k x)
| child_lib c k : child (Lib c k) k.

(** A handler that does not throw, if rendering the metrics does not. *)
Inductive no_raise : prog F -> Prop :=
| nr_ret s : no_raise (Ret s)
| nr_now k : (forall t, no_raise (k t)) -> no_raise (Now k)
| nr_metric op k : no_raise k -> no_raise (Metric op k)
| nr_render k : (forall t, no_raise (k (Ok t))) -> no_raise (Render k)
| nr_get key k : (forall x, no_raise (k x)) -> no_raise (CacheGet key k)
| nr_put key x k : no_raise k -> no_raise (CachePut key x k)
| nr_lock k : (forall b, no_raise (k b)) -> no_raise (LockCoalescer k)
| nr_join key k : (forall x, no_raise (k x)) -> no_raise (JoinOrStart key k)
| nr_complete key k : (forall x, no_raise (k x)) -> no_raise (CompleteFlight key k)
| nr_post w x k : no_raise k -> no_raise (Post w x k)
| nr_select k : (forall x, no_raise (k x)) -> no_raise (Select k)
| nr_lib c k : no_raise k -> no_raise (Lib c k).

(** ** Lemmas: the handlers throw nothing *)

Lemma nr_write r s : no_raise (write_response r s).
Proof. repeat (constructor; try intros ?). Qed.

Lemma nr_write_current r s : no_raise (write_response_for_current_request r s).
Proof. apply nr_write. Qed.

Lemma nr_post_all ws r p : no_raise p -> no_raise (post_all ws r p).
Proof. intros Hp. induction ws; simpl; [done|by constructor]. Qed.

Lemma nr_complete_flight key r cache s : no_raise (complete_flight key r cache s).
Proof.
  unfold complete_flight. case_match; [apply nr_put|]; apply nr_lock; intros []; try apply nr_write_current;
    apply nr_complete; intros ws; apply nr_post_all, nr_write_current.
Qed.

Lemma nr_start_proxy u key s : no_raise (start_proxy u key s).
Proof. repeat constructor. Qed.

Lemma nr_do_read s : no_raise (do_read s).
Proof. repeat constructor. Qed.

Lemma nr_serve_request s : no_raise (serve_request s).
Proof.
  unfold serve_request. apply nr_metric. destruct (is_health_request (request_ s)); [apply nr_metric, nr_write|].
  case_bool_decide; [apply nr_metric; case_match; [apply nr_write|]; apply nr_render; intros t; apply nr_write|].
  destruct (cacheable_request s).
  - apply nr_get. intros [x|]; apply nr_metric; [apply nr_write_current|]. apply nr_lock. intros []; [|apply nr_write_current].
    apply nr_join. intros []; apply nr_metric; [|constructor]. apply nr_select.
    intros [u|]; [apply nr_start_proxy|apply nr_complete_flight].
  - apply nr_select. intros [u|]; [apply nr_start_proxy|apply nr_write].
Qed.

Lemma nr_on_read error s : no_raise (HttpSession.on_read error s).
Proof.
  unfold HttpSession.on_read, session_close. repeat case_match; try (by repeat constructor).
  apply nr_now. intros t. apply nr_serve_request.
Qed.

Lemma nr_on_write close error s : no_raise (session_on_write close error s).
Proof. unfold session_on_write, session_close. repeat case_match; try apply nr_do_read; repeat constructor. Qed.

Lemma nr_on_proxy_response key r s : no_raise (on_proxy_response key r s).
Proof. unfold on_proxy_response. apply nr_metric. destruct key; [apply nr_complete_flight|apply nr_write_current]. Qed.

(** ** Lemmas: one operation *)

Lemma run_of_insert sys h i T T' l :
  sessions sys !! i = Some T ->
  run_of (mkSystem h (<[i := T']> (sessions sys))) l = if decide (l = i) then se_run T' else run_of sys l.
Proof.
  intros Hi. unfold run_of. simpl. case_decide as Hl; [subst l|by rewrite list_lookup_insert_ne].
  rewrite list_lookup_insert_eq by (by eapply lookup_lt_Some). done.
Qed.

(** A session's operation shortens its own handler and leaves the other handlers alone. *)
Lemma run_op_runs i sys sys' :
  run_op i sys = Some sys' ->
  (forall l, l <> i -> run_of sys' l = run_of sys l) /\
  exists p, run_of sys i = Some p /\
    match run_of sys' i with Some p' => child p p' | None => exists s, p = Ret s end.
Proof.
  intros Hop. unfold run_op in Hop. destruct (sessions sys !! i) as [T|] eqn:Hi; [|done]. simpl in Hop.
  destruct (se_run T) as [p|] eqn:Hp; [|done]. simpl in Hop.
  assert (run_of sys i = Some p) as Hrun by (unfold run_of; by rewrite Hi).
  assert (forall h T', sys' = mkSystem h (<[i := T']> (sessions sys)) ->
    match se_run T' with Some p' => child p p' | None => exists s, p = Ret s end ->
    (forall l, l <> i -> run_of sys' l = run_of sys l) /\
    exists p, run_of sys i = Some p /\ match run_of sys' i with Some p' => child p p' | None => exists s, p = Ret s end)
    as Hdone.
  { intros h T' -> Hc. split.
    - intros l Hl. rewrite (run_of_insert _ _ _ T) by done. by rewrite decide_False.
    - exists p. split; [done|]. rewrite (run_of_insert _ _ _ T) by done. by rewrite decide_True. }
  destruct p as [s|e|k|op k|k|key k|key r k|k|key k|key k|w r k|k|c k]; cbn [run_prog] in Hop;
    repeat (match type of Hop with (let (_, _) := ?x in _) = _ => destruct x end); try done; injection Hop as <-;
    try (eapply Hdone; [reflexivity|]; simpl; eauto using child).
  - clear Hdone. set (T' := go k (set_owed (tail (se_owed T)) T)).
    set (sys1 := mkSystem (sh sys) (<[i := T']> (sessions sys))).
    assert (forall l, run_of (mkSystem (sh sys) (alter (fun T => set_posted (se_posted T ++ [r]) T) w (sessions sys1))) l =
      run_of sys1 l) as Hpost.
    { intros l. unfold run_of. simpl. destruct (decide (l = w)) as [->|Hl].
      - rewrite list_lookup_alter_eq. by destruct (_ !! w).
      - by rewrite list_lookup_alter_ne. }
    split.
    + intros l Hl. rewrite Hpost. unfold sys1. rewrite (run_of_insert _ _ _ T) by done. by rewrite decide_False.
    + eexists. split; [done|]. rewrite Hpost. unfold sys1. rewrite (run_of_insert _ _ _ T) by done.
      rewrite decide_True by done. simpl. constructor.
  - destruct c; simpl; constructor.
Qed.
Lemma run_op_length i sys sys' : run_op i sys = Some sys' -> length (sessions sys') = length (sessions sys).
Proof.
  unfold run_op. destruct (sessions sys !! i) as [T|]; [|done]. simpl. destruct (se_run T) as [p|]; [|done]. simpl.
  destruct p as [s'|e|k|op k|k|key k|key r k|k|key k|key k|w r k|k|c k]; cbn [run_prog]; intros Hop;
    repeat (match type of Hop with (let (_, _) := ?x in _) = _ => destruct x end); try done;
    injection Hop as <-; simpl; by rewrite ?length_alter, length_insert.
Qed.

End runs.

(** ** The shared parts stay well formed *)

Section shared.
Context {F : Type} `{!Beast F}.
Implicit Types (sys : system F).

(** The pool and the cache are as their files require, the counters have 64 bits, and
    the registry has one series per backend, in order. *)
Record shared_ok (h : shared F) : Prop := {
  so_pool : pool_ok (sh_pool h);
  so_cache : cache_ok (sh_cache h);
  so_counters : counters_ok (sh_metrics h);
  so_labels : label <$> upstreams_ (sh_metrics h) = (fun b => endpoint_label (be_endpoint b)) <$> backends_ (sh_pool h);
}.

(** A state no handler throws from. *)
Definition safe sys : Prop := shared_ok (sh sys) /\ forall i p, run_of sys i = Some p -> no_raise p.

Lemma shared_ok_render h : shared_ok h -> exists text, render (sh_metrics h) (sh_pool h) = Ok text.
Proof.
  intros [_ _ _ Hl]. eexists. apply render_lines. apply (f_equal length) in Hl. rewrite !length_fmap in Hl. lia.
Qed.

Lemma endpoint_labels (bs bs' : list Backend) :
  be_endpoint <$> bs' = be_endpoint <$> bs ->
  (fun b => endpoint_label (be_endpoint b)) <$> bs' = (fun b => endpoint_label (be_endpoint b)) <$> bs.
Proof. intros Hb. apply (f_equal (fmap endpoint_label)) in Hb. by rewrite <- !list_fmap_compose in Hb. Qed.

Lemma counters_ok_apply m op : counters_ok m -> counters_ok (metric_apply m op).
Proof.
  intros Hm c. rewrite metric_apply_atoms, atoms_run_count by done. apply wrap64_range.
Qed.

Lemma shared_ok_run i sys sys' : run_op i sys = Some sys' -> shared_ok (sh sys) -> shared_ok (sh sys').
Proof.
  intros Hop Hok. unfold run_op in Hop. destruct (sessions sys !! i) as [T|]; [|done]. simpl in Hop.
  destruct (se_run T) as [p|]; [|done]. simpl in Hop. pose proof Hok as [H1 H2 H3 H4].
  destruct p as [s|e|k|op k|k|key k|key r k|k|key k|key k|w r k|k|c k]; cbn [run_prog] in Hop; try (by simplify_eq/=).
  - injection Hop as <-. split; simpl; [done|done|by apply counters_ok_apply|by rewrite metric_labels].
  - destruct (cache_get key _ _) as [r c] eqn:Hg. injection Hop as <-. split; try done. simpl.
    pose proof (cache_get_ok key (sh_now (sh sys)) _ H2) as Hc. by rewrite Hg in Hc.
  - injection Hop as <-. split; try done. by apply cache_put_ok.
  - destruct (join_or_start key i _). by injection Hop as <-.
  - destruct (complete key _). by injection Hop as <-.
  - destruct (select (sh_pool (sh sys))) as [u p] eqn:Hs. injection Hop as <-.
    assert (p = (select (sh_pool (sh sys))).2) as -> by (by rewrite Hs).
    split; simpl; [by apply select_ok|done|done|by rewrite select_backends].
Qed.

Lemma shared_ok_verdict index healthy log w h :
  store_verdict index healthy (world_of log h) = Ok w -> shared_ok h -> shared_ok (with_verdict w h).
Proof.
  intros Hs [H1 H2 H3 H4]. pose proof (store_verdict_endpoints _ _ _ _ Hs) as [Hn Hb]. simpl in Hn, Hb.
  apply store_verdict_rest in Hs as [_ Hm].
  assert (default (sh_metrics h) (w_metrics w) = sh_metrics h \/
    default (sh_metrics h) (w_metrics w) = metric_apply (sh_metrics h) (MEvent HealthTransition)) as Hd.
  { destruct Hm as [->| ->]; [by left|by right]. }
  split; simpl; [by apply (pool_ok_endpoints (sh_pool h))|done| |].
  - destruct Hd as [->| ->]; [done|by apply counters_ok_apply].
  - rewrite (endpoint_labels _ _ Hb), <- H4. destruct Hd as [->| ->]; [done|by rewrite metric_labels].
Qed.

(** An operation other than rendering answers whatever it likes; rendering gives a text. *)
Lemma no_raise_run i sys sys' p p' :
  run_op i sys = Some sys' -> shared_ok (sh sys) -> run_of sys i = Some p -> run_of sys' i = Some p' ->
  no_raise p -> no_raise p'.
Proof.
  intros Hop Hok Hp Hp' Hnr. destruct (run_op_runs i sys sys' Hop) as (_ & p1 & Hp1 & Hc).
  rewrite Hp in Hp1. injection Hp1 as <-. rewrite Hp' in Hc.
  destruct Hc as [k t|op k|k t|key k x|key x k|k b|key k x|key k x|w x k|k x|c k]; inversion Hnr; subst; eauto.
  destruct (shared_ok_render _ Hok) as [text Ht]. unfold run_op, run_of in *.
  destruct (sessions sys !! i) as [T|] eqn:Hi; [|done]. simpl in *. rewrite Hp in Hop. simpl in Hop. injection Hop as <-.
  simpl in Hp'. rewrite list_lookup_insert_eq in Hp' by (by eapply lookup_lt_Some). simpl in Hp'. rewrite Ht in Hp'.
  injection Hp' as <-. eauto.
Qed.

Lemma deliver_no_raise now j ev (T T' : sess F) p :
  se_run T = None -> deliver_to now j ev T = Some T' -> se_run T' = Some p -> no_raise p.
Proof.
  intros Hr Hd Hp. unfold deliver_to in Hd.
  assert (forall x, Some (go x (set_posted (tail (se_posted T)) T)) = Some T' -> p = x) as Hgo
    by (intros x [= <-]; simpl in Hp; congruence).
  destruct ev as [error req|error|ev|].
  - destruct (se_out T !! j) as [[| |]|]; try done. injection Hd as <-. simpl in Hp. injection Hp as <-. apply nr_on_read.
  - destruct (se_out T !! j) as [[|close|]|]; try done. injection Hd as <-. simpl in Hp. injection Hp as <-. apply nr_on_write.
  - destruct (se_out T !! j) as [[| |key pc since]|]; try done. injection Hd as <-. unfold proxy_event in Hp.
    destruct (pnext pc ev) as [pc' effs]. destruct (invocations effs) as [|[key' r] l]; simpl in Hp; [congruence|].
    injection Hp as <-. apply nr_on_proxy_response.
  - assert (match se_posted T with r :: rs => Some (go (on_posted r (se_state T)) (set_posted rs T)) | [] => None end = Some T')
      as Hd' by (by destruct (se_out T !! j) as [[| |]|]).
    destruct (se_posted T) as [|r rs]; [done|]. rewrite (Hgo _ Hd'). apply nr_write_current.
Qed.

Lemma safe_step sys sys' : safe sys -> sstep sys sys' -> safe sys'.
Proof.
  intros [Hok Hnr] Hstep.
  destruct Hstep as [i sys sys' Hop|i j ev T T' sys Hi Hrun Hl Hd|sys|t sys _|index h log w sys Hs].
  - split; [by apply (shared_ok_run i sys)|]. intros l p Hp.
    destruct (run_op_runs i sys sys' Hop) as (Hothers & p0 & Hp0 & _).
    destruct (decide (l = i)) as [->|Hl]; [by eapply no_raise_run; eauto|].
    rewrite Hothers in Hp by done. by apply (Hnr l).
  - split; [done|]. intros l p Hp. rewrite (run_of_insert _ _ _ T) in Hp by done.
    case_decide; [by eapply deliver_no_raise|by apply (Hnr l)].
  - split; [done|]. intros l p Hp. unfold run_of in Hp. simpl in Hp.
    destruct ((sessions sys ++ [new_session]) !! l) as [T|] eqn:HT; [|done]. simpl in Hp.
    apply lookup_app_Some in HT as [HT|[_ HT]]; [apply (Hnr l); unfold run_of; by rewrite HT|].
    apply list_lookup_singleton_Some in HT as [_ <-]. injection Hp as <-. apply nr_do_read.
  - split; [by destruct Hok|done].
  - split; [by eapply shared_ok_verdict|done].
Qed.

Lemma safe_reachable sys0 sys : safe sys0 -> rtc sstep sys0 sys -> safe sys.
Proof. intros Hs Hr. induction Hr; eauto using safe_step. Qed.

(** The endpoints of the pool are those it was made with. *)
Lemma endpoints_step sys sys' :
  safe sys -> sstep sys sys' ->
  be_endpoint <$> backends_ (sh_pool (sh sys')) = be_endpoint <$> backends_ (sh_pool (sh sys)).
Proof.
  intros [[Hp _ _ _] _] Hstep.
  destruct Hstep as [i sys sys' Hop|i j ev T T' sys Hi Hrun Hl Hd|sys|t sys _|index h log w sys Hs]; try done.
  - unfold run_op in Hop. destruct (sessions sys !! i) as [T|]; [|done]. simpl in Hop.
    destruct (se_run T) as [p|]; [|done]. simpl in Hop.
    destruct p as [s|e|k|op k|k|key k|key r k|k|key k|key k|w r k|k|c k]; cbn [run_prog] in Hop;
      repeat (match type of Hop with (let (_, _) := ?x in _) = _ => destruct x eqn:? end); simplify_eq/=; try done.
    match goal with H : select _ = (_, ?q) |- _ => assert (q = (select (sh_pool (sh sys))).2) as -> by (by rewrite H) end.
    by rewrite select_backends.
  - by apply store_verdict_endpoints in Hs as [_ Hb].
Qed.

Lemma endpoints_reachable sys0 sys :
  safe sys0 -> rtc sstep sys0 sys ->
  be_endpoint <$> backends_ (sh_pool (sh sys)) = be_endpoint <$> backends_ (sh_pool (sh sys0)).
Proof.
  intros Hs Hr. induction Hr as [|sys0 sys1 sys Hstep _ IH]; [done|].
  rewrite IH by (by eapply safe_step). by apply endpoints_step.
Qed.

(** The sessions of a program just started with the upstreams [es]. *)
Definition started_sys (es : list UpstreamEndpoint) : system F :=
  mkSystem (mkShared (mkPool ((fun e => mkBackend e true) <$> es) 0) (mkCache default_cache_options [] ∅ 0) (mkCoalescer ∅)
    (mkMetrics (fun _ => 0%Z) ((fun e => mkUpstreamMetrics (endpoint_label e) 0) <$> es)) 0) [].

Lemma started_safe es :
  es <> [] -> (Z.of_nat (length es) <= max_backends)%Z -> safe (started_sys es).
Proof.
  intros Hne Hlen. split; [|done]. split; simpl; [| |apply counters_ok_zero|by rewrite <- !list_fmap_compose].
  - assert (0 < length es) by (destruct es; [done|simpl; lia]).
    split; unfold pool_size; simpl; rewrite length_fmap; lia.
  - apply (cache_new_ok default_cache_options); [done|reflexivity].
Qed.
End shared.
