(* ===== verification/SystemDrain.v ===== *)
(** * Every request is answered

    The sessions of a running server ([System]) work off the requests they have read.
    [serve] are the steps that do so: an operation of a handler, or the completion of a
    write or of a proxy's operation, or a posted response; [work] lets the clock go on
    and the health monitor store verdicts in between.  Only reading a new request and
    accepting a new connection are left out, as they bring new work.

    The theorem says that this ends, whatever the order, and what is then the state.  It
    ends because each session has a number of completions it can still take ([rank_ok],
    at most five: four of its proxy and one of its write) and each completion starts a
    handler of finite length ([needs], [child]). *)

From stdpp Require Import base relations strings numbers gmap list.
From S2P Require Import Prelude CppString ResponseCache RequestCoalescer UpstreamPool Beast HttpHandler Metrics HealthMonitor.
From S2P Require Import UpstreamProxy HttpSession System SystemRuns.

Section drain.
Context {F : Type} `{!Beast F}.
Implicit Types (sys : system F) (T : sess F) (p : prog F) (s : HttpSession F) (r : Beast.response F).

#[local] Abbreviation flights sys := (flights_ (sh_coalescer (sh sys))).

(** ** The steps that work off requests *)

Definition brings_work (ev : sevent F) : bool := match ev with EvRead _ _ => true | _ => false end.

Inductive serve : system F -> system F -> Prop :=
| serve_run i sys sys' : run_op i sys = Some sys' -> serve sys sys'
| serve_event i j ev T T' sys :
    sessions sys !! i = Some T -> se_run T = None -> brings_work ev = false ->
    event_legal (sh_now (sh sys)) j ev T -> deliver_to (sh_now (sh sys)) j ev T = Some T' ->
    serve sys (mkSystem (sh sys) (<[i := T']> (sessions sys))).

Inductive background : system F -> system F -> Prop :=
| bg_clock t sys : (sh_now (sh sys) <= t)%Z -> background sys (mkSystem (with_now t (sh sys)) (sessions sys))
| bg_health index healthy log w sys :
    store_verdict index healthy (world_of log (sh sys)) = Ok w ->
    background sys (mkSystem (with_verdict w (sh sys)) (sessions sys)).

Definition work sys sys' : Prop := exists sys1, rtc background sys sys1 /\ serve sys1 sys'.

Lemma serve_step sys sys' : serve sys sys' -> sstep sys sys'.
Proof. destruct 1; [by eapply step_run|by eapply step_event]. Qed.

Lemma background_step sys sys' : background sys sys' -> sstep sys sys'.
Proof. destruct 1; [by apply step_clock|by eapply step_health]. Qed.

Lemma work_steps sys sys' : work sys sys' -> rtc sstep sys sys'.
Proof.
  intros (sys1 & Hb & Hs). eapply rtc_r; [|by apply serve_step]. clear Hs.
  induction Hb; [done|]. eapply rtc_l; [by apply background_step|done].
Qed.

(** ** The completions a handler may ask for

    [needs n p]: whatever the answers, the session that runs [p] will take at most [n]
    completions before it reads again. *)

Definition call_cost (c : lib_call F) : nat :=
  match c with LAsyncWrite _ _ => 1 | LProxy _ _ _ => 5 | _ => 0 end.

Fixpoint needs (n : nat) p : Prop :=
  match p with
  | Ret _ | Raise _ => True
  | Now k => forall t, needs n (k t)
  | Metric _ k | CachePut _ _ k | Post _ _ k => needs n k
  | Render k => forall t, needs n (k t)
  | CacheGet _ k => forall x, needs n (k x)
  | LockCoalescer k => forall b, needs n (k b)
  | JoinOrStart _ k => needs n (k leader) /\ 2 <= n /\ needs n (k waiter)
  | CompleteFlight _ k => forall ws, needs n (k ws)
  | Select k => forall u, needs n (k u)
  | Lib c k => call_cost c <= n /\ needs n k
  end.

Lemma needs_child n p p' : child p p' -> needs n p -> needs n p'.
Proof. destruct 1 as [| | | | | |key k []| | | |]; simpl; naive_solver. Qed.

Lemma needs_write n r s : 1 <= n -> needs n (write_response r s).
Proof. by repeat split. Qed.

Lemma needs_post_all n ws r p : needs n p -> needs n (post_all ws r p).
Proof. intros Hp. by induction ws. Qed.

Lemma needs_complete_flight n key r cache s : 1 <= n -> needs n (complete_flight key r cache s).
Proof.
  intros Hn. assert (forall r', needs n (write_response r' s)) as Hw by (intros r'; by apply needs_write).
  unfold complete_flight. case_match; intros []; try apply Hw; intros ws; apply needs_post_all, Hw.
Qed.

Lemma needs_start_proxy n u key s : 5 <= n -> needs n (start_proxy u key s).
Proof. by repeat split. Qed.

Lemma needs_do_read n s : needs n (do_read s).
Proof. simpl. lia. Qed.

Lemma needs_serve_request s : needs 5 (serve_request s).
Proof.
  assert (forall r, needs 5 (write_response r s)) as Hw by (intros r; apply needs_write; lia).
  unfold serve_request. cbn [needs]. destruct (is_health_request (request_ s)); [apply Hw|].
  case_bool_decide; [cbn [needs]; case_match; [apply Hw|]; intros []; [apply Hw|done]|].
  destruct (cacheable_request s).
  - intros [x|]; [apply Hw|]. intros []; [|apply Hw]. split; [|split; [lia|done]].
    intros [u|]; [by apply needs_start_proxy|apply needs_complete_flight; lia].
  - intros [u|]; [by apply needs_start_proxy|apply Hw].
Qed.

(** The handlers: reading a request is what brings work. *)
Lemma needs_on_read error s : needs 5 (HttpSession.on_read error s).
Proof.
  unfold HttpSession.on_read, session_close. repeat case_match; try (simpl; split; [lia|done]); try done.
  intros t. apply needs_serve_request.
Qed.

Lemma needs_on_write n close error s : needs n (session_on_write close error s).
Proof. unfold session_on_write, session_close. repeat case_match; simpl; repeat split; lia. Qed.

Lemma needs_on_proxy_response n key r s : 1 <= n -> needs n (on_proxy_response key r s).
Proof. intros Hn. unfold on_proxy_response. destruct key; cbn [needs]; [by apply needs_complete_flight|by apply needs_write]. Qed.

(** ** What a session can still take *)

(** The responses session [i] waits for: posted, in a flight, or owed. *)
Definition waits (i : nat) sys : nat :=
  (if sessions sys !! i is Some T then length (se_posted T) else 0) + flight_waits i (flights sys) + owed_to i (sessions sys).

#[local] Arguments waits : simpl never.

Lemma places_waits i T sys : sessions sys !! i = Some T -> places i sys = length (se_out T) + waits i sys.
Proof. intros Hi. unfold places, waits, own. rewrite Hi. lia. Qed.

Definition out_cost (o : outop F) : nat :=
  match o with OnRead => 0 | OnWrite _ => 1 | OnProxy _ pc _ => 1 + rank (waiting_for pc) end.

Record rank_ok (n : nat) (i : nat) T sys : Prop := {
  ro_run : forall p, se_run T = Some p -> needs n p;
  ro_out : forall o, o ∈ se_out T -> out_cost o <= n;
  ro_wait : 0 < waits i sys -> 2 <= n;
}.

Definition ranked (ns : list nat) sys : Prop :=
  length ns = length (sessions sys) /\
  forall i n T, ns !! i = Some n -> sessions sys !! i = Some T -> rank_ok n i T sys.

(** ** Lemmas: one operation *)

Lemma owed_to_insert w i T T' l :
  l !! i = Some T -> owed_to w (<[i := T']> l) + occurs w (se_owed T) = owed_to w l + occurs w (se_owed T').
Proof. intros Hi. apply (sum_list_with_insert (fun T => occurs w (se_owed T)) _ _ _ T' Hi). Qed.

Lemma owed_to_posted w f v l : owed_to w (alter (fun T => set_posted (f T) T) v l) = owed_to w l.
Proof.
  unfold owed_to. revert v. induction l as [|T l IH]; intros [|v]; simpl; try done. f_equal. apply IH.
Qed.

(** Session [i] changes: who waits for what follows from its fields and the flights. *)
Lemma waits_insert h w i T T' sys :
  sessions sys !! i = Some T -> se_posted T' = se_posted T ->
  waits w (mkSystem h (<[i := T']> (sessions sys))) + flight_waits w (flights sys) + occurs w (se_owed T) =
  waits w sys + flight_waits w (flights_ (sh_coalescer h)) + occurs w (se_owed T').
Proof.
  intros Hi Hp. unfold waits. simpl. pose proof (owed_to_insert w i T T' _ Hi).
  destruct (decide (w = i)) as [->|Hne]; [|rewrite list_lookup_insert_ne by done; lia].
  rewrite list_lookup_insert_eq, Hi by (by eapply lookup_lt_Some). rewrite Hp. lia.
Qed.

(** An operation makes nobody wait but the session itself, when it joins a flight. *)
Lemma run_op_waits i T sys sys' w :
  sys_inv sys -> sessions sys !! i = Some T -> run_op i sys = Some sys' -> 0 < waits w sys' ->
  0 < waits w sys \/ w = i /\ exists key k, se_run T = Some (JoinOrStart key k).
Proof.
  intros Hinv Hi Hop. destruct (si_sessions _ Hinv _ _ Hi) as (h & _ & Hwt). unfold run_op in Hop. rewrite Hi in Hop.
  simpl in Hop. destruct (se_run T) as [p|]; [|done]. simpl in Hop.
  assert (forall h' T', sys' = mkSystem h' (<[i := T']> (sessions sys)) -> se_posted T' = se_posted T ->
    flight_waits w (flights_ (sh_coalescer h')) + occurs w (se_owed T') <=
    flight_waits w (flights sys) + occurs w (se_owed T) -> 0 < waits w sys' -> 0 < waits w sys) as Hsame.
  { intros h' T' -> Hp Hle. pose proof (waits_insert h' w i T T' sys Hi Hp). lia. }
  destruct p as [s|e|k|op k|k|key k|key r k|k|key k|key k|v r k|k|c k]; cbn [run_prog] in Hop;
    try (destruct (cache_get _ _ _)); try (destruct (select _)); try done;
    try (injection Hop as <-; intros Hw; left; by eapply Hsame).
  - destruct (decide (w = i)) as [->|Hne]; [by eauto|]. intros Hw. left. revert Hw.
    unfold join_or_start in Hop. destruct (flights sys !! key) as [ws|] eqn:Hk; injection Hop as <-; eapply Hsame; try done; simpl.
    + pose proof (flight_waits_update w key ws (ws ++ [i]) _ Hk) as Hf. rewrite occurs_app in Hf.
      assert (occurs w [i] = 0) by (unfold occurs; simpl; by rewrite decide_False). lia.
    + rewrite flight_waits_insert by done. unfold occurs at 1. simpl. lia.
  - intros Hw. left. revert Hw. unfold complete in Hop.
    destruct (flights sys !! key) as [ws|] eqn:Hk; injection Hop as <-; eapply Hsame; try done; simpl.
    + rewrite (flight_waits_delete w key ws _ Hk). lia.
    + unfold occurs at 1. simpl. lia.
  - intros Hw. left. injection Hop as <-. inversion Hwt; subst.
    match goal with H : v :: _ = se_owed T |- _ => rename H into Ho end.
    destruct (decide (w = v)) as [->|Hne].
    + assert (occurs v (se_owed T) <= owed_to v (sessions sys))
        by (apply (sum_list_with_in T (fun T => occurs v (se_owed T))); by eapply list_elem_of_lookup_2).
      rewrite <- Ho, occurs_cons, decide_True in * by done. unfold waits. lia.
    + pose proof (waits_insert (sh sys) w i T (go k (set_owed (tail (se_owed T)) T)) sys Hi eq_refl) as Hi'.
      assert (occurs w (tail (se_owed T)) <= occurs w (se_owed T)) by (rewrite <- Ho; cbn [tail]; rewrite occurs_cons; lia).
      enough (waits w (mkSystem (sh sys) (<[i:=go k (set_owed (tail (se_owed T)) T)]> (sessions sys))) > 0) by (simpl in *; lia).
      revert Hw. unfold waits. simpl.
      rewrite list_lookup_alter_ne by done. rewrite (owed_to_posted w). lia.
  - injection Hop as <-. intros Hw. left. destruct c; by eapply Hsame.
Qed.

Lemma run_op_out i T T' sys sys' o :
  sessions sys !! i = Some T -> run_op i sys = Some sys' -> sessions sys' !! i = Some T' -> o ∈ se_out T' ->
  o ∈ se_out T \/ exists c k, se_run T = Some (Lib c k) /\ out_cost o <= call_cost c.
Proof.
  intros Hi Hop HT' Ho. unfold run_op in Hop. rewrite Hi in Hop. simpl in Hop. destruct (se_run T) as [p|]; [|done].
  simpl in Hop. apply run_prog_sessions in Hop as (_ & S1 & HS & Hall).
  apply Hall in HT' as (U & rs & -> & [[_ ->]|[? _]]); [|done]. simpl in Ho.
  destruct HS as [(_ & _ & Hout)|(c & k & -> & ->)]; [left; by rewrite <- Hout|].
  destruct c as [seconds| |r close| |m e|u req key]; simpl in Ho; try (by left);
    (apply elem_of_app in Ho as [?|Hn%list_elem_of_singleton]; [by left|right; subst o; eexists _, _; split; [done|]; simpl; lia]).
Qed.

(** Session [i] changes and gets the rank [n]; the others are at most posted to. *)
Lemma ranked_next ns n i T' sys sys' :
  ranked ns sys -> length (sessions sys') = length (sessions sys) -> sessions sys' !! i = Some T' -> rank_ok n i T' sys' ->
  (forall w U', w <> i -> sessions sys' !! w = Some U' -> exists U rs, sessions sys !! w = Some U /\ U' = set_posted rs U) ->
  (forall w, w <> i -> 0 < waits w sys' -> 0 < waits w sys) ->
  ranked (<[i := n]> ns) sys'.
Proof.
  intros [Hlen Hr] Hlen' Hi Hok Hothers Hwaits. split; [by rewrite length_insert, Hlen|]. intros w m U' Hm HU.
  destruct (decide (w = i)) as [->|Hne].
  - rewrite list_lookup_insert_eq in Hm; [|rewrite Hlen, <- Hlen'; by eapply lookup_lt_Some]. by simplify_eq.
  - rewrite list_lookup_insert_ne in Hm by done. destruct (Hothers w U' Hne HU) as (U & rs & HU0 & ->).
    destruct (Hr w m U Hm HU0) as [H1 H2 H3]. split; [done|done|]. intros Hw. apply H3. by apply Hwaits.
Qed.

Lemma ranked_run ns i sys sys' : sys_inv sys -> ranked ns sys -> run_op i sys = Some sys' -> ranked ns sys'.
Proof.
  intros Hinv Hr Hop. destruct (sessions sys !! i) as [T|] eqn:Hi; [|unfold run_op in Hop; by rewrite Hi in Hop].
  pose proof (run_op_length i sys sys' Hop) as Hlen.
  destruct (lookup_lt_is_Some_2 (sessions sys') i) as [T' HT']; [rewrite Hlen; by eapply lookup_lt_Some|].
  destruct (lookup_lt_is_Some_2 ns i) as [n Hn]; [rewrite (proj1 Hr); by eapply lookup_lt_Some|].
  destruct (proj2 Hr i n T Hn Hi) as [H1 H2 H3].
  destruct (run_op_runs i sys sys' Hop) as (_ & p & Hp & Hc). unfold run_of in Hp, Hc. rewrite Hi in Hp. rewrite HT' in Hc.
  simpl in Hp, Hc. rewrite <- (list_insert_id ns i n Hn). apply (ranked_next ns n i T' sys); try done; [split| |].
  - intros p' Hp'. rewrite Hp' in Hc. eapply needs_child; [done|by apply H1].
  - intros o Ho. destruct (run_op_out i T T' sys sys' o Hi Hop HT' Ho) as [?|(c & k & Hck & Hle)]; [by apply H2|].
    destruct (H1 _ Hck) as [Hcost _]. lia.
  - intros Hw. destruct (run_op_waits i T sys sys' i Hinv Hi Hop Hw) as [?|(_ & key & k & Hk)]; [by apply H3|].
    by destruct (H1 _ Hk) as (_ & ? & _).
  - intros w U' Hne HU. unfold run_op in Hop. rewrite Hi in Hop. simpl in Hop. rewrite Hp in Hop. simpl in Hop.
    apply run_prog_sessions in Hop as (_ & S1 & _ & Hall).
    apply Hall in HU as (U & rs & -> & [[? _]|[_ HU]]); [done|by eauto].
  - intros w Hne Hw. by destruct (run_op_waits i T sys sys' w Hinv Hi Hop Hw) as [?|[? _]].
Qed.

(** ** Lemmas: one completion *)

Lemma ranked_deliver ns n i T T' sys :
  ranked ns sys -> sessions sys !! i = Some T -> se_owed T' = se_owed T ->
  (forall p, se_run T' = Some p -> needs n p) -> (forall o, o ∈ se_out T' -> out_cost o <= n) ->
  waits i sys + length (se_posted T') <= length (se_posted T) ->
  ranked (<[i := n]> ns) (mkSystem (sh sys) (<[i := T']> (sessions sys))).
Proof.
  intros Hr Hi Ho Hrun Hout Hp. pose proof (lookup_lt_Some _ _ _ Hi) as Hlt.
  assert (forall w, owed_to w (<[i := T']> (sessions sys)) = owed_to w (sessions sys)) as Howed.
  { intros w. pose proof (owed_to_insert w i T T' _ Hi) as Hw. rewrite Ho in Hw. lia. }
  apply (ranked_next ns n i T' sys); try done; simpl.
  - by rewrite length_insert.
  - by rewrite list_lookup_insert_eq.
  - split; [done|done|]. unfold waits in Hp |- *. simpl. rewrite Howed. rewrite list_lookup_insert_eq by done.
    rewrite Hi in Hp. lia.
  - intros w U' Hne HU. rewrite list_lookup_insert_ne in HU by done. exists U', (se_posted U'). split; [done|by destruct U'].
  - intros w Hne. unfold waits. simpl. by rewrite Howed, list_lookup_insert_ne.
Qed.

(** The proxy of a session either calls its handler or has one operation less to go. *)
Lemma proxy_event_cases now key pc elapsed ev T rest :
  proxy_ok key pc -> legal pc elapsed ev ->
  (exists r, proxy_event now key pc ev T rest = set_lead key (go (on_proxy_response key r (se_state T)) (set_out rest T))) \/
  (exists pc', proxy_event now key pc ev T rest = set_out (OnProxy key pc' now :: rest) T /\
     rank (waiting_for pc') < rank (waiting_for pc)).
Proof.
  intros [[op Hlive] _] Hlegal. pose proof Hlive as (Hw & _). unfold proxy_event.
  destruct (pnext_live key op pc elapsed ev Hlive Hlegal) as (_ & _ & Hcase).
  destruct (pnext pc ev) as [pc' effs]. simpl in Hcase.
  destruct Hcase as [[_ (r & -> & _)]|((Hw' & _) & Hop & -> & _)]; [left; by exists r|right].
  exists pc'. split; [done|]. rewrite Hw, Hw'. destruct op; simpl; (lia || done).
Qed.

Lemma proxy_rank key (pc : pconf F (option string)) : proxy_ok key pc -> 0 < rank (waiting_for pc).
Proof. intros [[op (Hw & _)] _]. rewrite Hw. destruct op; simpl; lia. Qed.

Lemma out_proxy_ok i T key pc since sys :
  sys_inv sys -> sessions sys !! i = Some T -> se_out T = [OnProxy key pc since] -> proxy_ok key pc.
Proof.
  intros Hinv Hi Ho. destruct (si_sessions _ Hinv _ _ Hi) as (h & Hh & _). rewrite (places_waits i T sys Hi), Ho in Hh.
  destruct h; simpl in Hh; rewrite ?Ho in Hh; [lia| |by destruct Hh|by destruct Hh as (_ & ? & ? & ? & [= -> -> _] & ?)].
  destruct Hh as (_ & ? & [= <-] & Hno). by destruct (Hno key pc since).
Qed.

(** A completion uses up a part of the session's rank. *)
Lemma ranked_event ns i j ev T T' sys :
  sys_inv sys -> ranked ns sys -> sessions sys !! i = Some T -> se_run T = None -> brings_work ev = false ->
  event_legal (sh_now (sh sys)) j ev T -> deliver_to (sh_now (sh sys)) j ev T = Some T' ->
  exists n n', ns !! i = Some n /\ n' < n /\ ranked (<[i := n']> ns) (mkSystem (sh sys) (<[i := T']> (sessions sys))).
Proof.
  intros Hinv Hr Hi Hrun Hev Hlegal Hd. pose proof (places_le sys i Hinv) as Hle.
  rewrite (places_waits i T sys Hi) in Hle.
  destruct (lookup_lt_is_Some_2 ns i) as [n Hn]; [rewrite (proj1 Hr); by eapply lookup_lt_Some|]. exists n.
  destruct (proj2 Hr i n T Hn Hi) as [_ Hout Hwait]. unfold deliver_to in Hd. unfold event_legal in Hlegal.
  assert (forall o, se_out T !! j = Some o -> se_out T = [o] /\ delete j (se_out T) = [] /\ waits i sys = 0) as Hone.
  { intros o Ho. destruct (se_out T) as [|o' [|]]; simpl in Hle; [done| |lia]. destruct j; [|done]. injection Ho as ->.
    repeat split. lia. }
  destruct ev as [error req|error|ev|]; [done| | |].
  - destruct (se_out T !! j) as [[|close|key pc since]|] eqn:Hj; try done. destruct (Hone _ eq_refl) as (Ho & Hdel & Hw).
    injection Hd as <-. exists 0. split; [done|]. specialize (Hout (OnWrite close)). rewrite Ho, Hdel in *.
    split; [apply Hout; left|]. apply (ranked_deliver _ _ _ T); simpl; [done|done|done| | |lia].
    + intros p [= <-]. apply needs_on_write.
    + intros o Hin. by apply not_elem_of_nil in Hin.
  - destruct (se_out T !! j) as [[|close|key pc since]|] eqn:Hj; try done. destruct (Hone _ eq_refl) as (Ho & Hdel & Hw).
    pose proof (out_proxy_ok i T key pc since sys Hinv Hi Ho) as Hok.
    specialize (Hout (OnProxy key pc since)). rewrite Ho, Hdel in *. specialize (Hout ltac:(left)). simpl in Hout.
    injection Hd as <-. destruct (proxy_event_cases (sh_now (sh sys)) key pc _ ev T [] Hok Hlegal) as [[r ->]|(pc' & -> & Hlt)].
    + exists 1. pose proof (proxy_rank _ _ Hok). split; [done|]. split; [lia|].
      apply (ranked_deliver _ _ _ T); simpl; [done|done|done| | |lia].
      * intros p [= <-]. by apply needs_on_proxy_response.
      * intros o Hin. by apply not_elem_of_nil in Hin.
    + exists (1 + rank (waiting_for pc')). split; [done|]. split; [lia|].
      apply (ranked_deliver _ _ _ T); simpl; [done|done|done|by rewrite Hrun| |lia].
      intros o ->%list_elem_of_singleton. done.
  - assert (match se_posted T with r :: rs => Some (go (on_posted r (se_state T)) (set_posted rs T)) | [] => None end = Some T')
      as Hd' by (by destruct (se_out T !! j) as [[| |]|]).
    destruct (se_posted T) as [|r rs] eqn:Hp; [done|]. injection Hd' as <-.
    assert (length (se_posted T) <= waits i sys) as Hw by (unfold waits; rewrite Hi; lia). rewrite Hp in Hw. simpl in Hw.
    exists 1. split; [done|]. split; [apply Hwait; lia|]. apply (ranked_deliver _ _ _ T); simpl; [done|done|done| | |rewrite Hp; simpl; lia].
    + intros p [= <-]. by apply needs_write.
    + intros o Hin. destruct (se_out T); [by apply not_elem_of_nil in Hin|simpl in Hle; lia].
Qed.

(** ** Lemmas: the work ends *)

Inductive shorter : option (prog F) -> option (prog F) -> Prop :=
| shorter_ret s : shorter (Some (Ret s)) None
| shorter_child p p' : child p p' -> shorter (Some p) (Some p').

Lemma shorter_sn o : sn shorter o.
Proof.
  assert (sn shorter None) as Hn by (constructor; intros o' Ho; by inversion Ho).
  assert (forall p, (forall p', child p p' -> sn shorter (Some p')) -> sn shorter (Some p)) as Hs.
  { intros p Hp. constructor. intros o' Ho. inversion Ho; subst; [done|by apply Hp]. }
  destruct o as [p|]; [|done]. induction p; apply Hs; intros p' Hp; inversion Hp; subst; auto.
Qed.

Lemma run_op_shorter i sys sys' :
  run_op i sys = Some sys' -> list_step shorter (se_run <$> sessions sys) (se_run <$> sessions sys').
Proof.
  intros Hop. destruct (run_op_runs i sys sys' Hop) as (Hothers & p & Hp & Hc). pose proof (run_op_length i sys sys' Hop) as Hlen.
  assert (forall sys1 j, (se_run <$> sessions sys1) !! j = if sessions sys1 !! j is Some _ then Some (run_of sys1 j) else None)
    as Hlook by (intros sys1 j; rewrite list_lookup_fmap; unfold run_of; by destruct (sessions sys1 !! j)).
  assert (is_Some (sessions sys !! i)) as [T Hi] by (unfold run_of in Hp; by destruct (sessions sys !! i)).
  exists i, (Some p), (run_of sys' i). split; [by rewrite Hlook, Hi, Hp|]. split.
  - destruct (run_of sys' i); [by constructor|]. destruct Hc as [s ->]. constructor.
  - apply list_eq. intros j. pose proof (lookup_lt_Some _ _ _ Hi) as Hlt. destruct (decide (j = i)) as [->|Hne].
    + rewrite list_lookup_insert_eq by (by rewrite length_fmap). rewrite Hlook.
      destruct (lookup_lt_is_Some_2 (sessions sys') i) as [T' ->]; [lia|done].
    + rewrite list_lookup_insert_ne, !Hlook, Hothers by done.
      destruct (decide (j < length (sessions sys))).
      * destruct (lookup_lt_is_Some_2 (sessions sys') j) as [T' ->]; [lia|].
        by destruct (lookup_lt_is_Some_2 (sessions sys) j) as [T'' ->].
      * by rewrite !lookup_ge_None_2 by lia.
Qed.

Lemma background_same sys sys' :
  rtc background sys sys' -> sessions sys' = sessions sys /\ sh_coalescer (sh sys') = sh_coalescer (sh sys).
Proof. induction 1 as [|sys sys1 sys' Hb _ [-> ->]]; [done|]. by destruct Hb. Qed.

Lemma background_inv sys sys' : rtc background sys sys' -> sys_inv sys -> sys_inv sys'.
Proof. induction 1; eauto using sys_inv_step, background_step. Qed.

Lemma background_ranked ns sys sys' : rtc background sys sys' -> ranked ns sys -> ranked ns sys'.
Proof.
  intros [Hs Hc]%background_same [Hlen Hr]. split; [by rewrite Hs|]. intros i n T Hn. rewrite Hs. intros Hi.
  destruct (Hr i n T Hn Hi) as [H1 H2 H3]. split; [done|done|]. unfold waits in *. by rewrite Hs, Hc.
Qed.

Lemma work_sn sys ns : sys_inv sys -> ranked ns sys -> sn work sys.
Proof.
  remember (sum_list ns) as n eqn:Hn. revert sys ns Hn. induction (lt_wf n) as [n _ IHn].
  assert (forall l sys ns, n = sum_list ns -> se_run <$> sessions sys = l -> sys_inv sys -> ranked ns sys -> sn work sys)
    as Hl; [|intros sys ns Hn; by apply (Hl (se_run <$> sessions sys))].
  intros l. induction (list_step_sn shorter l shorter_sn) as [l _ IHl]. intros sys ns Hn Hruns Hinv Hr.
  constructor. intros sys' (sys1 & Hb & Hs). destruct (background_same _ _ Hb) as [Hsess _].
  apply (background_inv _ _ Hb) in Hinv. apply (background_ranked _ _ _ Hb) in Hr. rewrite <- Hsess in Hruns. clear Hb Hsess.
  pose proof (sys_inv_step _ _ Hinv (serve_step _ _ Hs)) as Hinv'.
  destruct Hs as [i sys1 sys' Hop|i j ev T T' sys1 Hi Hrun Hev Hlegal Hd].
  - apply (IHl (se_run <$> sessions sys')) with (ns := ns); try done.
    + rewrite <- Hruns. by apply (run_op_shorter i).
    + by apply (ranked_run ns i sys1).
  - destruct (ranked_event ns i j ev T T' sys1 Hinv Hr Hi Hrun Hev Hlegal Hd) as (m & m' & Hm & Hlt & Hr').
    eapply IHn; [|reflexivity|done|exact Hr']. pose proof (sum_list_with_insert id ns i m m' Hm). unfold id in *. lia.
Qed.

(** ** Lemmas: any state the server can reach has ranks *)

Lemma deliver_needs now j ev T T' p :
  se_run T = None -> deliver_to now j ev T = Some T' -> se_run T' = Some p -> needs 5 p.
Proof.
  intros Hr Hd Hp. unfold deliver_to in Hd. destruct ev as [error req|error|ev|].
  - destruct (se_out T !! j) as [[| |]|]; try done. injection Hd as <-. injection Hp as <-. apply needs_on_read.
  - destruct (se_out T !! j) as [[| |]|]; try done. injection Hd as <-. injection Hp as <-. apply needs_on_write.
  - destruct (se_out T !! j) as [[| |key pc since]|]; try done. injection Hd as <-. unfold proxy_event in Hp.
    destruct (pnext pc ev) as [pc' effs]. destruct (invocations effs) as [|[key' r] l]; simpl in Hp; [congruence|].
    injection Hp as <-. apply needs_on_proxy_response. lia.
  - assert (match se_posted T with r :: rs => Some (go (on_posted r (se_state T)) (set_posted rs T)) | [] => None end = Some T')
      as Hd' by (by destruct (se_out T !! j) as [[| |]|]).
    destruct (se_posted T) as [|r rs]; [done|]. injection Hd' as <-. injection Hp as <-. apply needs_write. lia.
Qed.

Lemma reachable_needs sys : reachable fresh sstep sys -> forall i p, run_of sys i = Some p -> needs 5 p.
Proof.
  apply (reachable_invariant fresh sstep (fun sys => forall i p, run_of sys i = Some p -> needs 5 p)); clear sys.
  { intros sys Hf i p. unfold run_of. by rewrite (proj1 Hf). }
  intros sys sys' Hn Hstep. destruct Hstep as [i sys sys' Hop|i j ev T T' sys Hi Hrun _ Hd|sys|t sys _|index h log w sys _]; try done.
  - intros l p Hp. destruct (run_op_runs i sys sys' Hop) as (Hothers & p0 & Hp0 & Hc).
    destruct (decide (l = i)) as [->|Hl]; [|rewrite Hothers in Hp by done; by apply (Hn l)].
    rewrite Hp in Hc. eapply needs_child; [done|by eapply Hn].
  - intros l p Hp. rewrite (run_of_insert _ _ _ T) in Hp by done. case_decide; [by eapply deliver_needs|by apply (Hn l)].
  - intros l p Hp. unfold run_of in Hp. simpl in Hp.
    destruct ((sessions sys ++ [new_session]) !! l) as [T|] eqn:HT; [|done]. simpl in Hp.
    apply lookup_app_Some in HT as [HT|[_ HT]]; [apply (Hn l); unfold run_of; by rewrite HT|].
    apply list_lookup_singleton_Some in HT as [_ <-]. injection Hp as <-. apply needs_do_read.
Qed.

Lemma reachable_ranked sys : reachable fresh sstep sys -> ranked (replicate (length (sessions sys)) 5) sys.
Proof.
  intros Hr. split; [apply length_replicate|]. intros i n T [-> _]%lookup_replicate HT. split; [|intros o _|lia].
  - intros p Hp. apply (reachable_needs sys Hr i). unfold run_of. by rewrite HT.
  - destruct o as [| |key pc since]; simpl; [lia|lia|]. destruct (waiting_for pc) as [[[] ?]|]; simpl; lia.
Qed.

(** ** Lemmas: where the work ends *)

Definition idle sys : Prop := forall sys', ~ serve sys sys'.

Lemma ready_serve sys l : ready sys l -> exists sys', serve sys sys'.
Proof.
  intros [[sys' Hop]|(T & key & pc & since & HT & Hrun & Ho & _ & ev & T' & Hlegal & Hd)].
  - exists sys'. by apply (serve_run l).
  - eexists. apply (serve_event l 0 (EvProxy ev) T T'); try done. unfold event_legal. by rewrite Ho.
Qed.

(** A session at rest runs no handler, has no request to answer, and reads the next one or
    is at its end. *)
Definition at_rest i T sys : Prop :=
  se_run T = None /\ (se_out T = [] \/ se_out T = [OnRead]) /\ waits i sys = 0 /\ se_open T = false /\ se_gauge T = false.

(** ... and a session that is not lets some session go on. *)
Lemma rest_or_serve sys i T :
  sys_inv sys -> safe sys -> sessions sys !! i = Some T -> at_rest i T sys \/ exists sys', serve sys sys'.
Proof.
  intros Hinv [_ Hnr] Hi. destruct (si_sessions _ Hinv _ _ Hi) as (h & Hh & Hset). unfold at_rest.
  destruct (se_run T) as [p|] eqn:Hrun.
  { right. apply (ready_serve sys i). left. apply (run_op_ready sys i T p Hi Hrun). intros e ->.
    assert (no_raise (Raise (F := F) e)) as Hn by (apply (Hnr i); unfold run_of; by rewrite Hi). by inversion Hn. }
  rewrite (places_waits i T sys Hi) in Hh. destruct Hset as (_ & _ & Hg & Hopen).
  destruct h; simpl in Hh, Hg, Hopen; rewrite Hg, Hopen.
  - assert (se_out T = []) as Ho by (destruct (se_out T); [done|simpl in Hh; lia]). rewrite Ho in Hh. simpl in Hh.
    left. split; [done|]. split; [by left|]. split; [lia|done].
  - destruct Hh as (Hn & o & Ho & Hno). rewrite Ho in *. simpl in Hn. destruct o as [|close|key pc since];
      [left; split; [done|]; split; [by right|]; split; [lia|done]|right|by destruct (Hno key pc since)].
    eexists. eapply (serve_event i 0 (EvWritten ec_success)); try done; [unfold event_legal|unfold deliver_to]; by rewrite Ho.
  - destruct Hh as [Hn Ho]. right. rewrite Ho in Hn. simpl in Hn. unfold waits in Hn. rewrite Hi in Hn.
    destruct (se_posted T) as [|r rs] eqn:Hp.
    + destruct (waiting_ready sys i Hinv) as (l & _ & Hl); [simpl in Hn; lia|]. by apply (ready_serve sys l).
    + eexists. eapply (serve_event i 0 EvPosted T); [done..|]. unfold deliver_to. by rewrite Hp.
  - destruct Hh as (_ & key & pc & since & Ho & Hok). right.
    destruct (proxy_ok_legal _ _ (sh_now (sh sys) - since) Hok) as [ev Hev].
    apply (ready_serve sys i). right. exists T, key, pc, since. repeat (split; [done|]). exists ev. unfold deliver_to. rewrite Ho. eauto.
Qed.

Lemma idle_session sys i T : sys_inv sys -> safe sys -> idle sys -> sessions sys !! i = Some T -> at_rest i T sys.
Proof.
  intros Hinv Hs Hidle Hi. destruct (rest_or_serve sys i T Hinv Hs Hi) as [?|[sys' ?]]; [done|]. by destruct (Hidle sys').
Qed.

(** Whether there is something to serve can be decided session by session. *)
Definition quiet T : bool :=
  match se_run T, se_out T, se_posted T with None, ([] | [OnRead]), [] => true | _, _, _ => false end.

Lemma at_rest_quiet sys i T : sessions sys !! i = Some T -> at_rest i T sys -> quiet T = true.
Proof.
  intros Hi (Hrun & Hout & Hw & _). unfold waits in Hw. rewrite Hi in Hw. unfold quiet. rewrite Hrun.
  destruct Hout as [-> | ->]; destruct (se_posted T); (done || (simpl in Hw; lia)).
Qed.

Lemma all_quiet_idle sys : (forall i T, sessions sys !! i = Some T -> quiet T = true) -> idle sys.
Proof.
  intros Hq sys' Hs. destruct Hs as [i sys sys' Hop|i j ev T T' sys Hi Hrun Hev _ Hd].
  - unfold run_op in Hop. destruct (sessions sys !! i) as [T|] eqn:Hi; [|done]. simpl in Hop.
    specialize (Hq _ _ Hi). unfold quiet in Hq. by destruct (se_run T).
  - specialize (Hq _ _ Hi). unfold quiet in Hq. rewrite Hrun in Hq. unfold deliver_to in Hd.
    destruct (se_out T) as [|[|close|key pc since] [|]]; try done; destruct (se_posted T); try done;
      destruct ev, j as [|[|]]; simpl in Hd; done.
Qed.

Lemma idle_or_serve sys : sys_inv sys -> safe sys -> idle sys \/ exists sys', serve sys sys'.
Proof.
  intros Hinv Hs. destruct (decide (Forall (fun T => quiet T = true) (sessions sys))) as [Hq|Hn].
  - left. apply all_quiet_idle. intros i T Hi. by eapply Forall_lookup_1 in Hq.
  - apply not_Forall_Exists in Hn; [|apply _]. apply Exists_exists in Hn as (T & [i Hi]%list_elem_of_lookup_1 & Hq).
    destruct (rest_or_serve sys i T Hinv Hs Hi) as [Hr|?]; [|by right]. destruct Hq. by apply (at_rest_quiet sys i).
Qed.

Lemma idle_flights sys : sys_inv sys -> safe sys -> idle sys -> flights sys = ∅.
Proof.
  intros Hinv Hs Hidle. apply map_empty. intros key. destruct (flights sys !! key) as [ws|] eqn:Hk; [|done].
  destruct (flight_leader sys key ws Hinv Hk) as (l & T & HT & Hw & _).
  destruct (idle_session sys l T Hinv Hs Hidle HT) as (Hrun & Hout & _).
  destruct Hw as [[_ ?]|(pc & since & Ho & _)]; [done|]. rewrite Ho in Hout. by destruct Hout.
Qed.

Lemma idle_counts sys :
  sys_inv sys -> safe sys -> idle sys ->
  count_of (sh_metrics (sh sys)) requests_ = count_of (sh_metrics (sh sys)) duration_count_ /\
  count_of (sh_metrics (sh sys)) proxy_in_flight_ = 0%Z.
Proof.
  intros Hinv Hs Hidle.
  assert (forall f : sess F -> bool, (forall i T, sessions sys !! i = Some T -> f T = false) ->
    sum_list_with (fun T => if f T then 1 else 0) (sessions sys) = 0) as Hzero.
  { intros f Hf. induction (sessions sys) as [|T l IH]; simpl; [done|]. rewrite (Hf 0 T eq_refl). simpl.
    apply IH. intros i T'. apply (Hf (S i)). }
  assert (opens sys = 0) as Ho by (apply (Hzero se_open); intros i T HT; by apply (idle_session sys i T)).
  assert (gauges sys = 0) as Hg by (apply (Hzero se_gauge); intros i T HT; by apply (idle_session sys i T)).
  rewrite (si_open _ Hinv), (si_gauge _ Hinv), Ho, Hg, Z.add_0_r. split; [|done]. apply wrap64_small, Hinv.
Qed.

Lemma work_safe sys sys' : rtc work sys sys' -> sys_inv sys -> safe sys -> sys_inv sys' /\ safe sys'.
Proof.
  induction 1 as [|sys sys1 sys' Hw%work_steps _ IH]; [done|]. intros Hinv Hs. apply IH; [|by eapply safe_reachable].
  clear Hs IH. induction Hw; eauto using sys_inv_step.
Qed.

Lemma work_reaches_idle sys : sys_inv sys -> safe sys -> sn work sys -> exists sys', rtc work sys sys' /\ idle sys'.
Proof.
  intros Hinv Hs Hsn. induction Hsn as [sys _ IH]. destruct (idle_or_serve sys Hinv Hs) as [Hi|[sys1 Hsv]]; [by exists sys|].
  assert (work sys sys1) as Hw by (by exists sys).
  destruct (work_safe sys sys1 (rtc_once _ _ Hw) Hinv Hs) as [Hinv1 Hs1].
  destruct (IH sys1 Hw Hinv1 Hs1) as (sys' & Hr & Hi). exists sys'. split; [by eapply rtc_l|done].
Qed.

Lemma work_length sys sys' : rtc work sys sys' -> length (sessions sys') = length (sessions sys).
Proof.
  induction 1 as [|sys sys1 sys' (sys2 & [Hb _]%background_same & Hs) _ ->]; [done|]. rewrite <- Hb.
  destruct Hs as [i sys2 sys1 Hop|]; [by apply (run_op_length i)|simpl; by rewrite length_insert].
Qed.
End drain.

(** ** Theorem *)

(** C3.  Every request that was read is answered.  From any state the server can reach,
    if no further request is read, the work ends: whatever the order of the operations
    and the completions, and whatever the clock and the health monitor do meanwhile,
    there is no infinite run ([sn]), and some run gets to a state with nothing to do.  In
    every such state all sessions are at rest: no handler is running or queued, no write
    and no proxy is outstanding, nobody waits for another, every request counted has been
    answered and its duration recorded, no flight is left in the coalescer, and the
    in-flight gauge is back to zero. *)
Theorem requests_answered {F : Type} `{!Beast F} (sys0 sys : system F) :
  fresh sys0 -> safe sys0 -> rtc sstep sys0 sys ->
  sn work sys /\
  (exists sys', rtc work sys sys' /\ idle sys') /\
  forall sys', rtc work sys sys' -> idle sys' ->
    length (sessions sys') = length (sessions sys) /\
    (forall i T, sessions sys' !! i = Some T -> at_rest i T sys') /\
    flights_ (sh_coalescer (sh sys')) = ∅ /\
    count_of (sh_metrics (sh sys')) requests_ = count_of (sh_metrics (sh sys')) duration_count_ /\
    count_of (sh_metrics (sh sys')) proxy_in_flight_ = 0%Z.
Proof.
  intros Hf Hs0 Hr. assert (reachable fresh sstep sys) as Hreach by (by exists sys0).
  pose proof (sys_inv_reachable sys Hreach) as Hinv. pose proof (safe_reachable _ _ Hs0 Hr) as Hs.
  pose proof (work_sn sys _ Hinv (reachable_ranked sys Hreach)) as Hsn.
  split; [done|]. split; [by apply work_reaches_idle|]. intros sys' Hw Hidle.
  destruct (work_safe sys sys' Hw Hinv Hs) as [Hinv' Hs']. split; [by apply work_length|].
  split; [intros i T; by apply idle_session|]. split; [by apply idle_flights|by apply idle_counts].
Qed.

(** Two connections that ask for the same target, with three upstreams. *)
Definition drain_start : system RefFields.t := started_sys (be_endpoint <$> backends_ pool_abc).

Definition drain_work : system RefFields.t := default drain_start (run_commands two_requests drain_start).

Lemma drain_work_steps : rtc sstep drain_start drain_work.
Proof.
  unfold drain_work. destruct (run_commands two_requests drain_start) as [sys|] eqn:Hrun; [|done].
  by apply (run_commands_steps two_requests).
Qed.

Lemma requests_answered_witness :
  count_of (sh_metrics (sh drain_work)) requests_ = 2%Z /\ count_of (sh_metrics (sh drain_work)) duration_count_ = 0%Z /\
  sn work drain_work /\ exists sys', rtc work drain_work sys' /\ flights_ (sh_coalescer (sh sys')) = ∅.
Proof.
  split; [vm_compute; reflexivity|]. split; [vm_compute; reflexivity|].
  assert (fresh drain_start) as Hf by (split; [reflexivity|]; split; [reflexivity|]; intros c; reflexivity).
  assert (safe drain_start) as Hs by (apply started_safe; [discriminate|vm_compute; discriminate]).
  destruct (requests_answered drain_start drain_work Hf Hs drain_work_steps) as (Hsn & (sys' & Hr & Hi) & Hall).
  split; [exact Hsn|]. exists sys'. split; [exact Hr|]. apply (Hall sys' Hr Hi).
Defined.
