(* ===== verification/SystemAnswers.v ===== *)
(** * Every answer belongs to its request

    What the clients and the upstreams of a running server ([System]) get to see: the
    requests read, the exchanges of the proxies that ended, and the responses written.  A
    run records them as a list of facts ([traced]); the steps do not depend on it.

    The theorem is about the whole server: whatever the interleaving of the sessions, each
    response written answers the request its session has read last, once, and it is what
    the program promises for that request.  In particular a response that an upstream gave
    to one client reaches another client only when both asked for the same target with
    requests that may share a response ([shareable]).  The second theorem is about what is
    in the cache meanwhile, and under which keys the sessions use it.

    The proof types the rest of every handler with what it may still do with its answers
    ([pledge]), and follows every place a response can be in: the cache, a flight, a post,
    a proxy ([answers_inv]). *)

From stdpp Require Import base relations strings numbers gmap list.
From S2P Require Import Prelude CppString ResponseCache RequestCoalescer UpstreamPool Beast HttpHandler Metrics HealthMonitor.
From S2P Require Import UpstreamProxy HttpSession System.

(** ** What is recorded *)

Section facts.
Context {F : Type} `{!Beast F}.
Implicit Types (sys : system F) (T : sess F) (req : request F) (r : Beast.response F).

Inductive fact :=
| ReadBy (i : nat) (req : request F)          (* session [i] has read a request *)
| Proxied (i : nat) (upstream : UpstreamEndpoint) (sent : request F) (ev : UpstreamProxy.completion F)
    (* the exchange of the proxy of session [i] ended with [ev] *)
| Wrote (i : nat) (r : Beast.response F).     (* session [i] writes a response *)

Definition actor (f : fact) : nat := match f with ReadBy i _ | Proxied i _ _ _ | Wrote i _ => i end.

(** The facts of one operation of session [i], and of a completion it takes. *)
Definition run_facts (i : nat) sys : list fact :=
  match sessions sys !! i ≫= se_run with
  | Some (Lib (LAsyncWrite r _) _) => [Wrote i r]
  | _ => []
  end.

Definition event_facts (i j : nat) (ev : sevent F) T : list fact :=
  match ev, se_out T !! j with
  | EvRead ec_success req, Some OnRead => [ReadBy i req]
  | EvProxy ev, Some (OnProxy _ pc _) =>
      match invocations (pnext pc ev).2 with
      | [] => []
      | _ => [Proxied i (upstream_ (px pc)) (UpstreamProxy.request_ (px pc)) ev]
      end
  | _, _ => []
  end.

(** [traced sys0 sys tr]: a run from [sys0] to [sys] that has recorded [tr]. *)
Inductive traced (sys0 : system F) : system F -> list fact -> Prop :=
| traced_start : traced sys0 sys0 []
| traced_run i sys sys' tr :
    traced sys0 sys tr -> run_op i sys = Some sys' -> traced sys0 sys' (tr ++ run_facts i sys)
| traced_event i j ev T T' sys tr :
    traced sys0 sys tr ->
    sessions sys !! i = Some T -> se_run T = None -> event_legal (sh_now (sh sys)) j ev T ->
    deliver_to (sh_now (sh sys)) j ev T = Some T' ->
    traced sys0 (mkSystem (sh sys) (<[i := T']> (sessions sys))) (tr ++ event_facts i j ev T)
| traced_accept sys tr :
    traced sys0 sys tr -> traced sys0 (mkSystem (sh sys) (sessions sys ++ [new_session])) tr
| traced_clock t sys tr :
    traced sys0 sys tr -> (sh_now (sh sys) <= t)%Z -> traced sys0 (mkSystem (with_now t (sh sys)) (sessions sys)) tr
| traced_health index healthy log w sys tr :
    traced sys0 sys tr -> store_verdict index healthy (world_of log (sh sys)) = Ok w ->
    traced sys0 (mkSystem (with_verdict w (sh sys)) (sessions sys)) tr.

(** Recording changes nothing: the runs are those of [sstep]. *)
Lemma traced_steps sys0 sys tr : traced sys0 sys tr -> rtc sstep sys0 sys.
Proof.
  induction 1 as [|i sys sys' tr _ IH Hop|i j ev T T' sys tr _ IH HT Hrun Hl Hd|sys tr _ IH|t sys tr _ IH Ht|index h log w sys tr _ IH Hs];
    [apply rtc_refl|..]; (eapply rtc_r; [exact IH|]).
  - by apply (step_run i).
  - by apply (step_event i j ev T).
  - apply step_accept.
  - by apply step_clock.
  - by eapply step_health.
Qed.

Lemma steps_traced sys0 sys : rtc sstep sys0 sys -> exists tr, traced sys0 sys tr.
Proof.
  revert sys. refine (rtc_ind_r (fun sys => exists tr, traced sys0 sys tr) sys0 _ _); [by exists []; apply traced_start|].
  intros sys sys' _ Hstep [tr Htr].
  destruct Hstep as [i sys sys' Hop|i j ev T T' sys HT Hrun Hl Hd|sys|t sys Ht|index h log w sys Hs]; eexists.
  - by eapply traced_run.
  - by eapply traced_event.
  - by apply traced_accept.
  - by apply traced_clock.
  - by eapply traced_health.
Qed.

(** ** What a response may be *)

(** A request whose response may be shared with other clients: a GET without credentials. *)
Definition shareable req : bool :=
  bool_decide (req_method req = verb_get) && bool_decide (fields_find field.authorization (req_fields req) = None).

(** A target that is not answered locally. *)
Definition upstream_target (target : string) : Prop := target <> "/health" /\ target <> "/metrics".

(** A response adapted to the request it answers. *)
Definition fitted req r : Beast.response F := adapted r (mkSession req 0).

(** [r] is what the exchange of session [j] for [req] ended with: the upstream's message as
    it is relayed, or the answer to the failure. *)
Definition relayed (tr : list fact) (j : nat) req r : Prop :=
  exists u ev, Proxied j u (outbound_request u req) ev ∈ tr /\
    expected (outbound_request u req) (req_version req) (req_keep_alive req) [ev] = Some r.

(** What a flight for [key] may hand out, and what may be in the cache under [key]. *)
Definition flight_answer (tr : list fact) (key : string) r : Prop :=
  exists j req, ReadBy j req ∈ tr /\ shareable req = true /\ req_target req = key /\
    (relayed tr j req r \/ r = make_service_unavailable_response req).

Definition cache_answer (tr : list fact) (key : string) r : Prop :=
  exists j req, ReadBy j req ∈ tr /\ shareable req = true /\ req_target req = key /\
    relayed tr j req r /\ cacheable_response r = true /\ upstream_target key.

(** The answers to [req]; [tr] is all that has happened, [since] what has since the request
    was read. *)
Inductive answer (tr since : list fact) (i : nat) req r : Prop :=
| answer_local :
    is_health_request req = true \/ (req_target req = "/metrics" /\ req_method req <> verb_get) ->
    r = handle_request req -> answer tr since i req r
| answer_metrics text :
    req_target req = "/metrics" -> req_method req = verb_get ->
    r = metrics_response req text -> answer tr since i req r
| answer_unavailable :
    shareable req = false -> r = make_service_unavailable_response req -> answer tr since i req r
| answer_own r0 :
    relayed since i req r0 -> r = fitted req r0 -> answer tr since i req r
| answer_flight r0 :
    shareable req = true -> flight_answer tr (req_target req) r0 -> r = fitted req r0 -> answer tr since i req r
| answer_cached r0 :
    shareable req = true -> cache_answer tr (req_target req) r0 -> r = fitted req r0 -> answer tr since i req r.

(** Session [i] has neither read nor written anything in [tr]. *)
Definition silent (i : nat) (tr : list fact) : Prop :=
  forall f, f ∈ tr -> actor f = i -> exists u sent ev, f = Proxied i u sent ev.

(** [r] answers the last request of session [i], which has no answer yet. *)
Definition replies (tr : list fact) (i : nat) req r : Prop :=
  exists before since, tr = before ++ ReadBy i req :: since /\ silent i since /\ answer tr since i req r.

(** The request of session [i] that has no answer yet. *)
Definition pending_step (i : nat) (q : option (request F)) (f : fact) : option (request F) :=
  match f with
  | ReadBy j req => if decide (j = i) then Some req else q
  | Wrote j _ => if decide (j = i) then None else q
  | Proxied _ _ _ _ => q
  end.
Definition pending (i : nat) (tr : list fact) : option (request F) := foldl (pending_step i) None tr.

Definition awaits (tr : list fact) (w : nat) (key : string) : Prop :=
  exists req, pending w tr = Some req /\ shareable req = true /\ req_target req = key.
End facts.

Arguments fact F : clear implicits.

(** ** Lemmas: the record *)

Section record.
Context {F : Type} `{!Beast F}.
Implicit Types (sys : system F) (T : sess F) (req : request F) (r : Beast.response F) (tr : list (fact F)).

(** What the other sessions add while session [i] runs. *)
Definition later (i : nat) tr tr' : Prop := exists c, tr' = tr ++ c /\ forall f, f ∈ c -> actor f <> i.

#[export] Instance later_preorder i : PreOrder (later i).
Proof.
  split.
  - intros tr. exists []. rewrite app_nil_r. split; [done|]. intros f Hf. by apply not_elem_of_nil in Hf.
  - intros tr1 tr2 tr3 (c & -> & Hc) (c' & -> & Hc'). exists (c ++ c'). split; [by rewrite app_assoc|].
    intros f [Hf|Hf]%elem_of_app; eauto.
Qed.

Lemma pending_app i tr f : pending i (tr ++ [f]) = pending_step i (pending i tr) f.
Proof. unfold pending. by rewrite foldl_app. Qed.

Lemma pending_other i tr f : actor f <> i -> pending i (tr ++ [f]) = pending i tr.
Proof. intros Hf. rewrite pending_app. destruct f; simpl in *; by rewrite ?decide_False. Qed.

Lemma pending_later i tr tr' : later i tr tr' -> pending i tr' = pending i tr.
Proof.
  intros (c & -> & Hc). induction c as [|f c IH] using rev_ind; [by rewrite app_nil_r|].
  rewrite app_assoc, pending_other by (apply Hc, elem_of_app; right; by apply list_elem_of_singleton).
  apply IH. intros g Hg. apply Hc, elem_of_app. by left.
Qed.

Lemma pending_unknown i tr : (forall f, f ∈ tr -> actor f <> i) -> pending i tr = None.
Proof. intros Hf. by apply (pending_later i [] tr); exists tr. Qed.

Lemma silent_app i tr tr' : silent i tr -> silent i tr' -> silent i (tr ++ tr').
Proof. intros H1 H2 f [Hf|Hf]%elem_of_app; eauto. Qed.

Lemma pending_split i tr req :
  pending i tr = Some req -> exists before since, tr = before ++ ReadBy i req :: since /\ silent i since.
Proof.
  induction tr as [|f tr IH] using rev_ind; [done|]. rewrite pending_app.
  assert (silent i [f] -> pending i tr = Some req ->
    exists before since, tr ++ [f] = before ++ ReadBy i req :: since /\ silent i since) as Hkeep.
  { intros Hs (b & s & -> & Hb)%IH. exists b, (s ++ [f]). split; [by rewrite <- app_assoc|by apply silent_app]. }
  destruct f as [j req'|j u sent ev|j r]; simpl.
  - case_decide as Hj; [subst j; intros [= ->]|apply Hkeep].
    + exists tr, []. split; [done|]. intros f Hf. by apply not_elem_of_nil in Hf.
    + intros f ->%list_elem_of_singleton Ha. by simpl in Ha.
  - apply Hkeep. intros f ->%list_elem_of_singleton Ha. simpl in Ha. subst j. eauto.
  - case_decide as Hj; [done|apply Hkeep]. intros f ->%list_elem_of_singleton Ha. by simpl in Ha.
Qed.

Lemma pending_read i tr req : pending i tr = Some req -> ReadBy i req ∈ tr.
Proof. intros (b & s & -> & _)%pending_split. apply elem_of_app. right. left. Qed.

Lemma relayed_mono tr tr' j req r : tr ⊆ tr' -> relayed tr j req r -> relayed tr' j req r.
Proof. intros Hsub (u & ev & Hin & He). exists u, ev. auto. Qed.

Lemma flight_answer_mono tr tr' key r : tr ⊆ tr' -> flight_answer tr key r -> flight_answer tr' key r.
Proof.
  intros Hsub (j & req & Hin & Hs & Ht & Hr). exists j, req. split; [auto|]. do 2 (split; [done|]).
  destruct Hr as [Hr|Hr]; [left; by eapply relayed_mono|by right].
Qed.

Lemma cache_answer_mono tr tr' key r : tr ⊆ tr' -> cache_answer tr key r -> cache_answer tr' key r.
Proof.
  intros Hsub (j & req & Hin & Hs & Ht & Hr & Hc). exists j, req. split; [auto|]. do 2 (split; [done|]).
  split; [by eapply relayed_mono|done].
Qed.

Lemma answer_mono tr tr' since since' i req r :
  tr ⊆ tr' -> since ⊆ since' -> answer tr since i req r -> answer tr' since' i req r.
Proof.
  intros Ht Hs. destruct 1; eauto using answer, relayed_mono, flight_answer_mono, cache_answer_mono.
Qed.

Lemma later_sub i tr tr' : later i tr tr' -> tr ⊆ tr'.
Proof. intros (c & -> & _) f Hf. apply elem_of_app. by left. Qed.

Lemma app_sub tr tr' : tr ⊆ tr ++ tr'.
Proof. intros f Hf. apply elem_of_app. by left. Qed.

Lemma replies_later tr tr' i req r : later i tr tr' -> replies tr i req r -> replies tr' i req r.
Proof.
  intros Hl (b & s & Htr & Hs & Ha). pose proof (later_sub _ _ _ Hl) as Hsub. destruct Hl as (c & -> & Hc).
  exists b, (s ++ c). split; [by rewrite Htr, <- app_assoc|]. split.
  - apply silent_app; [done|]. intros f Hf Hi. by destruct (Hc f Hf).
  - eapply answer_mono; [done| |done]. apply app_sub.
Qed.

(** An answer that does not depend on what happened since the request was read. *)
Lemma replies_any tr i req r :
  pending i tr = Some req -> (forall since, answer tr since i req r) -> replies tr i req r.
Proof. intros (b & s & Htr & Hs)%pending_split Ha. by exists b, s. Qed.
End record.

(** ** What the rest of a handler may do

    [pledge i tr q p]: [p] is the rest of a handler of session [i], whose request without
    an answer is [q], after [tr].  Whatever the other sessions do meanwhile, [p] uses only
    the target of its own request as a key, stores and posts only responses that belong
    there, hands its own request to the proxy, and writes an answer to it. *)

Section pledge.
Context {F : Type} `{!Beast F}.
Implicit Types (req : request F) (r : Beast.response F) (tr : list (fact F)) (s : HttpSession F) (p : prog F).

(** The key the handler of a proxy captures. *)
Definition key_of req (key : option string) : Prop :=
  key = None \/ key = Some (req_target req) /\ shareable req = true /\ upstream_target (req_target req).

Inductive pledge (i : nat) : list (fact F) -> option (request F) -> prog F -> Prop :=
| pl_ret tr q s : (forall req, q = Some req -> request_ s = req) -> pledge i tr q (Ret s)
| pl_raise tr q e : pledge i tr q (Raise e)
| pl_now tr q k : (forall t, pledge i tr q (k t)) -> pledge i tr q (Now k)
| pl_metric tr q op k : pledge i tr q k -> pledge i tr q (Metric op k)
| pl_render tr q k : (forall text, pledge i tr q (k text)) -> pledge i tr q (Render k)
| pl_cache_get tr req k :
    shareable req = true -> upstream_target (req_target req) ->
    (forall tr' cached, later i tr tr' -> (forall r, cached = Some r -> cache_answer tr' (req_target req) r) ->
       pledge i tr' (Some req) (k cached)) ->
    pledge i tr (Some req) (CacheGet (req_target req) k)
| pl_cache_put tr req r k :
    shareable req = true -> cache_answer tr (req_target req) r -> pledge i tr (Some req) k ->
    pledge i tr (Some req) (CachePut (req_target req) r k)
| pl_lock tr q k : pledge i tr q (k true) -> pledge i tr q (LockCoalescer k)
| pl_join tr req k :
    shareable req = true -> upstream_target (req_target req) -> (forall role, pledge i tr (Some req) (k role)) ->
    pledge i tr (Some req) (JoinOrStart (req_target req) k)
| pl_complete tr req k :
    shareable req = true -> upstream_target (req_target req) -> (forall ws, pledge i tr (Some req) (k ws)) -> pledge i tr (Some req) (CompleteFlight (req_target req) k)
| pl_post tr req w r k :
    flight_answer tr (req_target req) r -> pledge i tr (Some req) k -> pledge i tr (Some req) (Post w r k)
| pl_select tr q k : (forall u, pledge i tr q (k u)) -> pledge i tr q (Select k)
| pl_write tr req r close s : replies tr i req r -> pledge i tr (Some req) (Lib (LAsyncWrite r close) (Ret s))
| pl_proxy tr s u key :
    key_of (request_ s) key -> pledge i tr (Some (request_ s)) (Lib (LProxy u (request_ s) key) (Ret s))
| pl_read tr s : pledge i tr None (Lib LAsyncRead (Ret s))
| pl_call tr q c k :
    c = LShutdownSend \/ (exists t, c = LExpiresAfter t) \/ (exists m e, c = LLog m e) ->
    pledge i tr q k -> pledge i tr q (Lib c k).

Lemma pledge_later i tr tr' q p : pledge i tr q p -> later i tr tr' -> pledge i tr' q p.
Proof.
  intros Hp. revert tr'. induction Hp as [| | | | |tr req k Hs Ht _ IH|tr req r k Hs Hr _ IH| | | |tr req w r k Hr _ IH| |tr req r close s Hr| | |];
    intros tr' Hl; pose proof (later_sub _ _ _ Hl) as Hsub; try (constructor; eauto; done).
  - constructor; [done|done|]. intros tr2 cached Hl2 Hr. apply (IH tr2 cached); [by etrans|done|reflexivity].
  - constructor; [done|by eapply cache_answer_mono|by apply IH].
  - constructor; [by eapply flight_answer_mono|by apply IH].
  - constructor. by eapply replies_later.
Qed.

Lemma pledge_write i tr req r s : replies tr i req r -> pledge i tr (Some req) (write_response r s).
Proof. intros Hr. unfold write_response. apply pl_metric, pl_now. intros t. apply pl_metric. by apply pl_write. Qed.

Lemma pledge_post_all i tr req ws r k :
  flight_answer tr (req_target req) r -> pledge i tr (Some req) k -> pledge i tr (Some req) (post_all ws r k).
Proof. intros Hr Hk. induction ws as [|w ws IH]; simpl; [done|]. by apply pl_post. Qed.

Lemma pledge_complete_flight i tr s r should_cache :
  flight_answer tr (req_target (request_ s)) r -> shareable (request_ s) = true -> upstream_target (req_target (request_ s)) ->
  pending i tr = Some (request_ s) ->
  (should_cache = true -> cacheable_response r = true -> cache_answer tr (req_target (request_ s)) r) ->
  pledge i tr (Some (request_ s)) (complete_flight (req_target (request_ s)) r should_cache s).
Proof.
  intros Hr Hs Ht Hq Hc.
  assert (replies tr i (request_ s) (adapted r s)) as Hrep.
  { apply replies_any; [done|]. intros since. by apply (answer_flight _ _ _ _ _ r). }
  unfold complete_flight. destruct (should_cache && cacheable_response r) eqn:Hb;
    [apply andb_true_iff in Hb as [Hb1 Hb2]; apply pl_cache_put; [done|by apply Hc|]|];
    apply pl_lock, pl_complete; [done|done| |done|done|]; intros ws; apply pledge_post_all; try done; by apply pledge_write.
Qed.

Lemma pledge_start_proxy i tr s u key :
  key_of (request_ s) key -> pledge i tr (Some (request_ s)) (start_proxy u key s).
Proof. intros Hk. unfold start_proxy. do 3 apply pl_metric. by apply pl_proxy. Qed.

Lemma cacheable_shareable s : is_health_request (request_ s) = false -> cacheable_request s = shareable (request_ s).
Proof. intros Hh. unfold cacheable_request. by rewrite Hh, andb_true_r. Qed.

Lemma pledge_serve_request i tr s :
  pending i tr = Some (request_ s) -> pledge i tr (Some (request_ s)) (serve_request s).
Proof.
  intros Hq. unfold serve_request. apply pl_metric.
  destruct (is_health_request (request_ s)) eqn:Hh.
  { apply pl_metric, pledge_write, replies_any; [done|]. intros since. by apply answer_local; [left|]. }
  case_bool_decide as Hm.
  { apply pl_metric. case_bool_decide as Hget; simpl.
    - apply pl_render. intros [text|e]; [|apply pl_raise].
      apply pledge_write, replies_any; [done|]. intros since. by apply (answer_metrics _ _ _ _ _ text).
    - apply pledge_write, replies_any; [done|]. intros since. by apply answer_local; [right|]. }
  assert (upstream_target (req_target (request_ s))) as Ht by (split; [by apply bool_decide_eq_false in Hh|done]).
  rewrite cacheable_shareable by done. destruct (shareable (request_ s)) eqn:Hs.
  - apply pl_cache_get; [done|done|]. intros tr' [r|] Hl Hr.
    + apply pl_metric, pledge_write, replies_any; [by rewrite (pending_later i tr)|].
      intros since. by apply (answer_cached _ _ _ _ _ r); [|apply Hr|].
    + apply pl_metric, pl_lock, pl_join; [done|done|]. intros [|]; apply pl_metric; [|by apply pl_ret; intros req [= ->]].
      apply pl_select. intros [u|]; [by apply pledge_start_proxy; right|].
      assert (pending i tr' = Some (request_ s)) as Hq' by (by rewrite (pending_later i tr)).
      apply pledge_complete_flight; [|done..]. exists i, (request_ s). split; [by apply pending_read|]. by repeat split; [..|right].
  - apply pl_select. intros [u|]; [by apply pledge_start_proxy; left|].
    apply pledge_write, replies_any; [done|]. intros since. by apply answer_unavailable.
Qed.

Lemma pledge_on_read_error i tr error s : is_error error = true -> pledge i tr None (HttpSession.on_read error s).
Proof.
  intros He. unfold HttpSession.on_read, session_close. rewrite He.
  repeat case_decide; try (apply pl_call; [by eauto|]); by apply pl_ret.
Qed.

Lemma pledge_do_read i tr s : pledge i tr None (do_read s).
Proof. unfold do_read. apply pl_call; [by eauto|]. apply pl_read. Qed.

Lemma pledge_on_write i tr close error s : pledge i tr None (session_on_write close error s).
Proof.
  unfold session_on_write, session_close. destruct (is_error error); [|destruct close; [|apply pledge_do_read]].
  - case_decide; [by apply pl_ret|]. apply pl_call; [by eauto|]. by apply pl_ret.
  - apply pl_call; [by eauto|]. by apply pl_ret.
Qed.

Lemma pledge_on_posted i tr r s :
  pending i tr = Some (request_ s) -> shareable (request_ s) = true -> flight_answer tr (req_target (request_ s)) r ->
  pledge i tr (Some (request_ s)) (on_posted r s).
Proof.
  intros Hq Hs Hr. apply pledge_write, replies_any; [done|]. intros since. by apply (answer_flight _ _ _ _ _ r).
Qed.

(** The handler of a proxy, just after its exchange has been recorded. *)
Lemma pledge_on_proxy_response i tr u ev key r s :
  pending i tr = Some (request_ s) -> key_of (request_ s) key ->
  expected (outbound_request u (request_ s)) (req_version (request_ s)) (req_keep_alive (request_ s)) [ev] = Some r ->
  pledge i (tr ++ [Proxied i u (outbound_request u (request_ s)) ev]) (Some (request_ s)) (on_proxy_response key r s).
Proof.
  intros Hq Hk He. set (f := Proxied _ _ _ _). unfold on_proxy_response. apply pl_metric.
  assert (pending i (tr ++ [f]) = Some (request_ s)) as Hq' by (by rewrite pending_app).
  assert (relayed (tr ++ [f]) i (request_ s) r) as Hr
    by (exists u, ev; split; [apply elem_of_app; right; by apply list_elem_of_singleton|done]).
  destruct Hk as [->|(-> & Hs & Ht)].
  - apply pledge_write. destruct (pending_split _ _ _ Hq) as (b & since & -> & Hsi). exists b, (since ++ [f]).
    split; [by rewrite <- app_assoc|]. split.
    + apply silent_app; [done|]. intros g ->%list_elem_of_singleton _. by eexists _, _, _.
    + apply (answer_own _ _ _ _ _ r); [|done]. exists u, ev. split; [apply elem_of_app; right; by apply list_elem_of_singleton|done].
  - apply pledge_complete_flight; [|done|done|done|].
    + exists i, (request_ s). split; [by apply pending_read|]. by repeat split; [..|left].
    + intros _ Hc. exists i, (request_ s). split; [by apply pending_read|]. done.
Qed.
End pledge.

(** ** Where the responses are *)

Section invariant.
Context {F : Type} `{!Beast F}.
Implicit Types (sys : system F) (T : sess F) (req : request F) (r : Beast.response F) (tr : list (fact F)).

#[local] Abbreviation flights sys := (flights_ (sh_coalescer (sh sys))).

(** The proxy has been made for [req]. *)
Definition exchange req (pc : pconf F (option string)) : Prop :=
  UpstreamProxy.request_ (px pc) = outbound_request (upstream_ (px pc)) req /\
  client_version_ (px pc) = req_version req /\ client_keep_alive_ (px pc) = req_keep_alive req.

Definition out_pledged tr (i : nat) (o : outop F) : Prop :=
  match o with
  | OnRead | OnWrite _ => pending i tr = None
  | OnProxy key pc _ => exists req, pending i tr = Some req /\ exchange req pc /\ key_of req key
  end.

Definition post_pledged tr (i : nat) r : Prop :=
  exists req, pending i tr = Some req /\ shareable req = true /\ flight_answer tr (req_target req) r.

Record sess_pledged tr (i : nat) T : Prop := {
  sp_run : forall p, se_run T = Some p -> pledge i tr (pending i tr) p;
  sp_idle : se_run T = None -> forall req, pending i tr = Some req -> request_ (se_state T) = req;
  sp_out : forall o, o ∈ se_out T -> out_pledged tr i o;
  sp_posted : forall r, r ∈ se_posted T -> post_pledged tr i r;
  sp_owed : forall w, w ∈ se_owed T -> exists req, pending i tr = Some req /\ awaits tr w (req_target req);
}.

(** The shared parts. *)
Record shared_pledged tr (h : shared F) : Prop := {
  sd_flights : forall key ws w, flights_ (sh_coalescer h) !! key = Some ws -> w ∈ ws -> awaits tr w key;
  sd_cache_ok : cache_ok (sh_cache h);
  sd_cache : forall key r e, (key, (r, e)) ∈ contents (sh_cache h) -> cache_answer tr key r;
}.

Definition all_replied tr : Prop := forall tr1 i r tr2, tr = tr1 ++ Wrote i r :: tr2 -> exists req, replies tr1 i req r.

Record answers_inv tr sys : Prop := {
  ai_sessions : forall i T, sessions sys !! i = Some T -> sess_pledged tr i T;
  ai_shared : shared_pledged tr (sh sys);
  ai_known : forall f, f ∈ tr -> actor f < length (sessions sys);
  ai_wrote : all_replied tr;
}.

(** *** Lemmas: the record goes on *)

(** The new facts [fs] are those of session [i]. *)
Definition made_by (i : nat) (fs : list (fact F)) : Prop := forall f, f ∈ fs -> actor f = i.

Lemma made_by_nil i : made_by i [].
Proof. intros f Hf. by apply not_elem_of_nil in Hf. Qed.

Lemma made_by_one i f : actor f = i -> made_by i [f].
Proof. by intros Hf g ->%list_elem_of_singleton. Qed.

Lemma made_by_later i j tr fs : made_by i fs -> j <> i -> later j tr (tr ++ fs).
Proof. intros Hf Hj. exists fs. split; [done|]. intros f ->%Hf. congruence. Qed.

Lemma awaits_app i tr fs w key :
  made_by i fs -> (w = i -> pending i (tr ++ fs) = pending i tr) -> awaits tr w key -> awaits (tr ++ fs) w key.
Proof.
  intros Hf Hi (req & Hq & Hs). exists req. split; [|done]. destruct (decide (w = i)) as [->|Hw]; [by rewrite Hi|].
  rewrite (pending_later w tr); [done|by eapply made_by_later].
Qed.

Lemma sess_pledged_app i j tr fs T :
  made_by i fs -> j <> i -> (i ∈ se_owed T -> pending i (tr ++ fs) = pending i tr) ->
  sess_pledged tr j T -> sess_pledged (tr ++ fs) j T.
Proof.
  intros Hf Hj Ho [H1 H2 H3 H4 H5]. pose proof (made_by_later i j tr fs Hf Hj) as Hl.
  split; rewrite ?(pending_later j tr) by done.
  - intros p Hp. eapply pledge_later; eauto.
  - done.
  - intros o Hin. specialize (H3 o Hin). unfold out_pledged in *. by rewrite (pending_later j tr).
  - intros r (req & Hq & Hs & Hr)%H4. exists req. rewrite (pending_later j tr) by done. split; [done|]. split; [done|].
    eapply flight_answer_mono; [apply app_sub|done].
  - intros w Hw. destruct (H5 w Hw) as (req & Hq & Ha). exists req. split; [done|].
    eapply awaits_app; [done| |done]. intros ->. auto.
Qed.

Lemma shared_pledged_app i tr fs (h : shared F) :
  made_by i fs -> (0 < flight_waits i (flights_ (sh_coalescer h)) -> pending i (tr ++ fs) = pending i tr) ->
  shared_pledged tr h -> shared_pledged (tr ++ fs) h.
Proof.
  intros Hf Hi [H1 H2 H3]. split; [|done|].
  - intros key ws w Hk Hw. eapply awaits_app; [done| |by eapply H1]. intros ->. apply Hi.
    rewrite (flight_waits_delete i key ws _ Hk). apply occurs_pos in Hw. lia.
  - intros key r e Hin. eapply cache_answer_mono; [apply app_sub|by eapply H3].
Qed.

Lemma all_replied_app tr f :
  all_replied tr -> (forall i r, f = Wrote i r -> exists req, replies tr i req r) -> all_replied (tr ++ [f]).
Proof.
  intros Hall Hf tr1 i r tr2 Heq. destruct (decide (tr2 = [])) as [->|Hne].
  - apply app_inj_tail in Heq as [<- ->]. by apply Hf.
  - destruct (exists_last Hne) as (tr3 & g & ->). rewrite app_comm_cons, app_assoc in Heq.
    apply app_inj_tail in Heq as [-> _]. by eapply Hall.
Qed.

(** Session [i] changes, records [fs], and may change the shared parts. *)
Lemma answers_update i T T' h' fs tr sys :
  answers_inv tr sys -> sessions sys !! i = Some T -> made_by i fs ->
  pending i (tr ++ fs) = pending i tr \/ owed_to i (sessions sys) = 0 ->
  sess_pledged (tr ++ fs) i T' -> shared_pledged (tr ++ fs) h' -> all_replied (tr ++ fs) ->
  answers_inv (tr ++ fs) (mkSystem h' (<[i := T']> (sessions sys))).
Proof.
  intros [H1 H2 H3 H4] HT Hf Ho HT' Hh' Hall. pose proof (lookup_lt_Some _ _ _ HT) as Hlt. split; simpl; [|done| |done].
  - intros j U HU. destruct (decide (j = i)) as [->|Hj].
    + rewrite list_lookup_insert_eq in HU by done. by injection HU as <-.
    + rewrite list_lookup_insert_ne in HU by done. apply (sess_pledged_app i); auto. intros Hin.
      destruct Ho as [|Ho]; [done|].
      pose proof (sum_list_with_zero (fun T => occurs i (se_owed T)) _ Ho U ltac:(by eapply list_elem_of_lookup_2)) as Hz.
      apply occurs_pos in Hin. simpl in Hz. lia.
  - intros f [Hin|Hin]%elem_of_app; rewrite length_insert; [by apply H3|]. by rewrite (Hf f).
Qed.

(** The same, when nothing is recorded. *)
Lemma answers_quiet i T T' h' tr sys :
  answers_inv tr sys -> sessions sys !! i = Some T -> sess_pledged tr i T' -> shared_pledged tr h' ->
  answers_inv tr (mkSystem h' (<[i := T']> (sessions sys))).
Proof.
  intros Hinv HT HT' Hh'. rewrite <- (app_nil_r tr) in HT', Hh' |- *.
  apply (answers_update i T); rewrite ?app_nil_r in *; try done; [apply made_by_nil|by left|apply Hinv].
Qed.
End invariant.

(** *** Lemmas: one operation of a handler *)

Section steps.
Context {F : Type} `{!Beast F}.
Implicit Types (sys : system F) (T : sess F) (req : request F) (r : Beast.response F) (tr : list (fact F)).

#[local] Abbreviation flights sys := (flights_ (sh_coalescer (sh sys))).

(** A session goes on with [p]. *)
Lemma pledged_goes tr i T T' p :
  sess_pledged tr i T -> se_run T' = Some p -> pledge i tr (pending i tr) p ->
  (forall o, o ∈ se_out T' -> o ∈ se_out T \/ out_pledged tr i o) -> (forall r, r ∈ se_posted T' -> r ∈ se_posted T) ->
  (forall w, w ∈ se_owed T' -> w ∈ se_owed T \/ exists req, pending i tr = Some req /\ awaits tr w (req_target req)) ->
  sess_pledged tr i T'.
Proof.
  intros [H1 H2 H3 H4 H5] Hr Hp Ho Hpo Hw. split.
  - intros p'. rewrite Hr. by intros [= <-].
  - by rewrite Hr.
  - intros o [?|?]%Ho; auto.
  - auto.
  - intros w [?|?]%Hw; auto.
Qed.

(** Only the rest of the program changes. *)
Lemma pledged_go tr i T T' p :
  sess_pledged tr i T -> se_run T' = Some p -> pledge i tr (pending i tr) p ->
  se_out T' = se_out T -> se_posted T' = se_posted T -> se_owed T' = se_owed T -> sess_pledged tr i T'.
Proof. intros HT Hr Hp Ho Hpo Hw. eapply pledged_goes; eauto; rewrite ?Ho, ?Hpo, ?Hw; auto. Qed.

Lemma shared_pledged_same tr (h h' : shared F) :
  shared_pledged tr h -> sh_coalescer h' = sh_coalescer h -> sh_cache h' = sh_cache h -> shared_pledged tr h'.
Proof. intros [H1 H2 H3] Hc Hk. by split; rewrite ?Hc, ?Hk. Qed.

(** The cache hands out, and keeps, what belongs to its key. *)
Lemma pledged_cache_get tr (h : shared F) key :
  shared_pledged tr h ->
  (forall r, (cache_get key (sh_now h) (sh_cache h)).1 = Some r -> cache_answer tr key r) /\
  shared_pledged tr (with_cache (cache_get key (sh_now h) (sh_cache h)).2 h).
Proof.
  intros [H1 H2 H3]. destruct (cache_get_refines key (sh_now h) _ H2) as [Hget Hrest]. split.
  - intros r. rewrite Hget. unfold spec_get. destruct (spec_find key _) as [[r' e]|] eqn:Hf; [|done].
    case_match; [done|]. intros [= ->]. apply spec_find_Some_elem in Hf. by eapply H3.
  - split; simpl; [done|by apply cache_get_ok|]. intros key' r e. rewrite Hrest.
    intros [Hin|(r' & now & ? & _)]%(spec_apply_elem default_cache_options _ (OpGet key (sh_now h))); [by eapply H3|done].
Qed.

Lemma pledged_cache_put tr (h : shared F) key r :
  shared_pledged tr h -> cache_answer tr key r ->
  shared_pledged tr (with_cache (cache_put key r (sh_now h) (sh_cache h)) h).
Proof.
  intros [H1 H2 H3] Hr. split; simpl; [done|by apply cache_put_ok|]. intros key' r' e. rewrite cache_put_refines by done.
  intros [Hin|(r2 & now & [= -> <- _] & [= -> _])]%(spec_apply_elem (ResponseCache.options_ (sh_cache h)) _ (OpPut key r (sh_now h)));
    [by eapply H3|done].
Qed.

(** A response is posted to a session that awaits it. *)
Lemma answers_posted sys tr w r :
  answers_inv tr sys ->
  (forall U, sessions sys !! w = Some U -> post_pledged tr w r) ->
  answers_inv tr (mkSystem (sh sys) (alter (fun U => set_posted (se_posted U ++ [r]) U) w (sessions sys))).
Proof.
  intros [H1 H2 H3 H4] Hr. split; simpl; [|done|by rewrite length_alter|done].
  intros j U. rewrite list_lookup_alter. case_decide as Hj; [subst j|apply H1].
  destruct (sessions sys !! w) as [V|] eqn:HV; simpl; [|done]. intros [= <-]. destruct (H1 _ _ HV) as [G1 G2 G3 G4 G5].
  split; simpl; [done|done|done| |done]. intros r' [Hin| ->%list_elem_of_singleton]%elem_of_app; [auto|by eapply Hr].
Qed.

Section run.
Context (i : nat) (T : sess F) (sys : system F) (tr : list (fact F)).
Hypothesis (Hans : answers_inv tr sys) (Hi : sessions sys !! i = Some T).

#[local] Lemma pledged_here : sess_pledged tr i T.
Proof using Hans Hi. by apply Hans. Qed.

#[local] Lemma shared_here : shared_pledged tr (sh sys).
Proof using Hans. apply Hans. Qed.

(** The operations that touch neither the flights nor the cache. *)
Lemma answers_go T' p h' :
  se_run T' = Some p -> pledge i tr (pending i tr) p ->
  se_out T' = se_out T -> se_posted T' = se_posted T -> se_owed T' = se_owed T ->
  sh_coalescer h' = sh_coalescer (sh sys) -> sh_cache h' = sh_cache (sh sys) ->
  answers_inv tr (mkSystem h' (<[i := T']> (sessions sys))).
Proof using Hans Hi.
  intros Hr Hp Ho Hpo Hw Hc Hk. apply (answers_quiet i T); [done|done| |by eapply shared_pledged_same; [apply shared_here|..]].
  by eapply pledged_go; [apply pledged_here|..].
Qed.

Lemma answers_ret s :
  pledge i tr (pending i tr) (Ret s) -> answers_inv tr (mkSystem (sh sys) (<[i := halt s T]> (sessions sys))).
Proof using Hans Hi.
  intros Hp. apply (answers_quiet i T); [done|done| |apply shared_here]. destruct pledged_here as [H1 H2 H3 H4 H5].
  split; [done| |done|done|done]. simpl. intros _. by inversion Hp.
Qed.

Lemma answers_cache_get key k :
  pledge i tr (pending i tr) (CacheGet key k) ->
  let (cached, c) := cache_get key (sh_now (sh sys)) (sh_cache (sh sys)) in
  answers_inv tr (mkSystem (with_cache c (sh sys)) (<[i := go (k cached) T]> (sessions sys))).
Proof using Hans Hi.
  intros Hp. destruct (pledged_cache_get tr (sh sys) key shared_here) as [Hget Hsh].
  destruct (cache_get key _ _) as [cached c]. simpl in *. apply (answers_quiet i T); [done|done| |done].
  eapply pledged_go; [apply pledged_here|done| |done|done|done]. inversion Hp as [| | | | |tr' req k' Hs Ht Hk Hq Hq2| | | | | | | | | |].
  subst. rewrite <- Hq2 in *. by apply Hk.
Qed.

Lemma answers_cache_put key r k :
  pledge i tr (pending i tr) (CachePut key r k) ->
  answers_inv tr (mkSystem (with_cache (cache_put key r (sh_now (sh sys)) (sh_cache (sh sys))) (sh sys)) (<[i := go k T]> (sessions sys))).
Proof using Hans Hi.
  intros Hp. inversion Hp as [| | | | | |tr' req r' k' Hs Hr Hk Hq Hq2| | | | | | | | |]. subst.
  apply (answers_quiet i T); [done|done| |by apply pledged_cache_put; [apply shared_here|]].
  eapply pledged_go; [apply pledged_here|done| |done|done|done]. by rewrite <- Hq2.
Qed.

Lemma answers_join key k :
  pledge i tr (pending i tr) (JoinOrStart key k) ->
  let (role, c) := join_or_start key i (sh_coalescer (sh sys)) in
  let T' := match role with leader => set_lead (Some key) T | waiter => T end in
  answers_inv tr (mkSystem (with_coalescer c (sh sys)) (<[i := go (k role) T']> (sessions sys))).
Proof using Hans Hi.
  intros Hp. inversion Hp as [| | | | | | | |tr' req k' Hs Ht Hk Hq Hq2| | | | | | |]. subst.
  destruct shared_here as [H1 H2 H3]. unfold join_or_start. destruct (flights sys !! req_target req) as [ws|] eqn:Hf.
  all: apply (answers_quiet i T); [done|done|eapply pledged_go; [apply pledged_here|done|by rewrite <- Hq2|done..]|].
  all: split; simpl; [|done|done].
  all: intros key' ws' w; rewrite lookup_insert_Some; intros [[<- <-]|[_ Hk']]; [|by eapply H1].
  - intros [Hw|Hw]%elem_of_app; [by eapply H1|]. apply list_elem_of_singleton in Hw as ->. by exists req.
  - intros Hw. by apply not_elem_of_nil in Hw.
Qed.

Lemma answers_complete key k :
  pledge i tr (pending i tr) (CompleteFlight key k) ->
  let (ws, c) := complete key (sh_coalescer (sh sys)) in
  answers_inv tr (mkSystem (with_coalescer c (sh sys))
    (<[i := go (k ws) (set_owed (default [] ws) (set_lead None T))]> (sessions sys))).
Proof using Hans Hi.
  intros Hp. inversion Hp as [| | | | | | | | |tr' req k' Hs Ht Hk Hq Hq2| | | | | |]. subst.
  destruct shared_here as [H1 H2 H3].
  assert (forall ws c, complete (req_target req) (sh_coalescer (sh sys)) = (ws, c) ->
    (forall w, w ∈ default [] ws -> awaits tr w (req_target req)) /\ shared_pledged tr (with_coalescer c (sh sys))) as Hc.
  { unfold complete. intros ws c. destruct (flights sys !! req_target req) as [ws'|] eqn:Hf; intros [= <- <-]; simpl.
    - split; [intros w; by eapply H1|]. split; simpl; [|done|done]. intros key' ws w [_ Hk']%lookup_delete_Some. by eapply H1.
    - split; [intros w Hw; by apply not_elem_of_nil in Hw|]. by split. }
  destruct (complete _ _) as [ws c]. destruct (Hc ws c eq_refl) as [Hws Hsh]. apply (answers_quiet i T); [done|done| |done].
  eapply pledged_goes; [apply pledged_here|done|by rewrite <- Hq2|by left|done|]. simpl. intros w Hw. right. exists req. auto.
Qed.

Lemma answers_lib c k :
  pledge i tr (pending i tr) (Lib c k) -> (forall r close, c <> LAsyncWrite r close) ->
  answers_inv tr (mkSystem (sh sys) (<[i := lib_effect (sh_now (sh sys)) c (go k T)]> (sessions sys))).
Proof using Hans Hi.
  intros Hp Hnw. inversion Hp as [| | | | | | | | | | | | |tr' s u key Hk Hq Hq2|tr' s Hq Hq2|tr' q c' k' Hc Hk]; subst.
  - by edestruct Hnw.
  - apply (answers_quiet i T); [done|done| |apply shared_here].
    eapply pledged_goes; [apply pledged_here|done| | |done|by left].
    + rewrite <- Hq2. apply pl_ret. by intros req [= <-].
    + simpl. intros o [Ho| ->%list_elem_of_singleton]%elem_of_app; [by left|right]. by exists (request_ s).
  - apply (answers_quiet i T); [done|done| |apply shared_here].
    eapply pledged_goes; [apply pledged_here|done| | |done|by left].
    + rewrite <- Hq2. by apply pl_ret.
    + simpl. intros o [Ho| ->%list_elem_of_singleton]%elem_of_app; [by left|by right].
  - destruct Hc as [->|[[t ->]|(m & e & ->)]]; by eapply answers_go.
Qed.

Lemma answers_post w r k :
  pledge i tr (pending i tr) (Post w r k) -> w ∈ se_owed T ->
  answers_inv tr (mkSystem (sh sys) (alter (fun U => set_posted (se_posted U ++ [r]) U) w
                                       (<[i := go k (set_owed (tail (se_owed T)) T)]> (sessions sys)))).
Proof using Hans Hi.
  intros Hp Hw. inversion Hp as [| | | | | | | | | |tr' req w' r' k' Hr Hk Hq Hq2| | | | |]. subst.
  destruct (sp_owed _ _ _ pledged_here w Hw) as (req' & Hq' & req2 & Hq3 & Hs & Ht).
  rewrite <- Hq2 in Hq'. injection Hq' as <-.
  set (sys1 := mkSystem (sh sys) (<[i := go k (set_owed (tail (se_owed T)) T)]> (sessions sys))).
  apply (answers_posted sys1).
  - apply (answers_quiet i T); [done|done| |apply shared_here].
    eapply pledged_goes; [apply pledged_here|done|by rewrite <- Hq2|by left|done|].
    simpl. intros v Hv. left. destruct (se_owed T); [done|]. by right.
  - intros U _. exists req2. split; [done|]. split; [done|]. by rewrite Ht.
Qed.
End run.

(** The request of a session that is nowhere else is not in a flight or owed to it. *)
Lemma nowhere_else i T sys :
  sessions sys !! i = Some T -> own T = places i sys ->
  flight_waits i (flights sys) = 0 /\ owed_to i (sessions sys) = 0.
Proof. intros Hi Ho. unfold places in Ho. rewrite Hi in Ho. lia. Qed.

(** The response is written: the session has no request without an answer any more. *)
Lemma answers_write i T sys tr r close k :
  answers_inv tr sys -> sys_inv sys -> sessions sys !! i = Some T ->
  se_run T = Some (Lib (LAsyncWrite r close) k) ->
  answers_inv (tr ++ [Wrote i r])
    (mkSystem (sh sys) (<[i := lib_effect (sh_now (sh sys)) (LAsyncWrite r close) (go k T)]> (sessions sys))).
Proof.
  intros Hans Hinv Hi Hrun. pose proof (ai_sessions _ _ Hans _ _ Hi) as Hpl. pose proof (sp_run _ _ _ Hpl _ Hrun) as Hp.
  inversion Hp as [| | | | | | | | | | | |tr' req r' c' s Hr Hq Hq2| | |tr' q c' k' Hc]; subst;
    [|by destruct Hc as [?|[[? ?]|(? & ? & ?)]]].
  destruct (si_sessions _ Hinv _ _ Hi) as (h & Hh & Hwt). rewrite Hrun in Hwt.
  assert (h = NoHand /\ se_owed T = []) as [-> Howed].
  { inversion Hwt as [| | | | | | | | | | | |owed g o c' k' _ Hk| |? ? ? ? ? ? ? Hc|]; subst;
      [|by destruct Hc as [?|(? & ? & ?)]]. by destruct (handed_done _ _ _ _ _ _ Hk ltac:(done)). }
  simpl in Hh. assert (own T = 0) as Hown by (unfold places in Hh; rewrite Hi in Hh; lia). unfold own in Hown.
  assert (pending i (tr ++ [Wrote i r]) = None) as Hnone by (rewrite pending_app; simpl; by rewrite decide_True).
  destruct (nowhere_else i T sys Hi) as [Hf Ho]; [unfold own; lia|].
  apply (answers_update i T); [done|done|by apply made_by_one|by right| | |].
  - split; simpl; rewrite ?Hnone.
    + intros p [= <-]. by apply pl_ret.
    + done.
    + intros o [Hin| ->%list_elem_of_singleton]%elem_of_app; [|done]. destruct (se_out T); [by apply not_elem_of_nil in Hin|done].
    + intros r' Hin. destruct (se_posted T); [by apply not_elem_of_nil in Hin|simpl in Hown; lia].
    + intros w Hw. rewrite Howed in Hw. by apply not_elem_of_nil in Hw.
  - apply (shared_pledged_app i); [by apply made_by_one|lia|apply Hans].
  - apply all_replied_app; [apply Hans|]. intros j r' [= <- <-]. by exists req.
Qed.

Lemma answers_run i sys sys' tr :
  answers_inv tr sys -> sys_inv sys -> run_op i sys = Some sys' -> answers_inv (tr ++ run_facts i sys) sys'.
Proof.
  intros Hans Hinv Hop. unfold run_op in Hop. unfold run_facts. destruct (sessions sys !! i) as [T|] eqn:Hi; [|done].
  simpl in *. destruct (se_run T) as [p|] eqn:Hrun; [|done]. simpl in Hop.
  pose proof (sp_run _ _ _ (ai_sessions _ _ Hans _ _ Hi) _ Hrun) as Hp.
  destruct (si_sessions _ Hinv _ _ Hi) as (h & _ & Hwt). rewrite Hrun in Hwt.
  destruct p as [s|e|k|op k|k|key k|key r k|k|key k|key k|w r k|k|c k]; simpl in Hop; rewrite ?app_nil_r.
  - injection Hop as <-. by apply answers_ret.
  - done.
  - injection Hop as <-. inversion Hp; subst. by eapply answers_go.
  - injection Hop as <-. inversion Hp; subst. by eapply answers_go.
  - injection Hop as <-. inversion Hp; subst. by eapply answers_go.
  - pose proof (answers_cache_get i T sys tr Hans Hi key k Hp) as Hg. destruct (cache_get key _ _). by injection Hop as <-.
  - injection Hop as <-. by apply answers_cache_put.
  - injection Hop as <-. inversion Hp; subst. by eapply answers_go.
  - pose proof (answers_join i T sys tr Hans Hi key k Hp) as Hg. destruct (join_or_start key i _). by injection Hop as <-.
  - pose proof (answers_complete i T sys tr Hans Hi key k Hp) as Hg. destruct (complete key _). by injection Hop as <-.
  - injection Hop as <-. apply answers_post; [done|done|done|]. inversion Hwt. left.
  - destruct (select _). injection Hop as <-. inversion Hp; subst. by eapply answers_go.
  - injection Hop as <-. destruct c; rewrite ?app_nil_r; try (by apply answers_lib). by apply answers_write.
Qed.

(** *** Lemmas: a session takes a completion *)

(** A session that runs no handler has at most one operation outstanding. *)
Lemma one_outstanding i j T sys o :
  sys_inv sys -> sessions sys !! i = Some T -> se_run T = None -> se_out T !! j = Some o ->
  se_out T = [o] /\ j = 0 /\ se_posted T = [] /\ se_owed T = [] /\
  flight_waits i (flights sys) = 0 /\ owed_to i (sessions sys) = 0.
Proof.
  intros Hinv Hi Hrun Ho. pose proof (own_places i T sys Hi) as Hown. pose proof (places_le sys i Hinv) as Hle.
  destruct (si_sessions _ Hinv _ _ Hi) as (h & _ & Hset). rewrite Hrun in Hset. destruct Hset as (_ & Hw & _).
  pose proof Hown as Hown'. unfold own in Hown'. destruct (se_out T) as [|o' os] eqn:Hout; [done|]. simpl in Hown'.
  destruct os; [|simpl in Hown'; lia]. destruct (se_posted T) eqn:Hpo; [|simpl in Hown'; lia].
  destruct j; [|done]. injection Ho as ->. repeat (split; [done|]).
  apply (nowhere_else i T sys Hi). unfold own in *. rewrite Hout, Hpo in *. simpl in *. lia.
Qed.

(** The outcome of an exchange is that of the proxy's own request. *)
Lemma exchange_next req (pc : pconf F (option string)) ev : exchange req pc -> exchange req (pnext pc ev).1.
Proof.
  assert (forall p r, upstream_ (proxy_complete r p).1 = upstream_ p /\
    UpstreamProxy.request_ (proxy_complete r p).1 = UpstreamProxy.request_ p /\
    client_version_ (proxy_complete r p).1 = client_version_ p /\
    client_keep_alive_ (proxy_complete (H := option string) r p).1 = client_keep_alive_ p) as Hc
    by (intros p r; unfold proxy_complete; by destruct (completed_ p)).
  assert (forall e o p, upstream_ (proxy_fail e o p).1 = upstream_ p /\
    UpstreamProxy.request_ (proxy_fail e o p).1 = UpstreamProxy.request_ p /\
    client_version_ (proxy_fail e o p).1 = client_version_ p /\
    client_keep_alive_ (proxy_fail (H := option string) e o p).1 = client_keep_alive_ p) as Hf.
  { intros e o p. unfold proxy_fail. destruct (completed_ p) eqn:Hp; [done|]. set (r := if decide _ then _ else _).
    specialize (Hc p r). by destruct (proxy_complete r p). }
  intros (H1 & H2 & H3). unfold exchange, pnext.
  destruct ev as [e|e|e|e received]; simpl; unfold UpstreamProxy.on_resolve, UpstreamProxy.on_connect, UpstreamProxy.on_write, UpstreamProxy.on_read;
    destruct (is_error e); try done;
    match goal with
    | |- context [proxy_fail ?e ?o ?p] => specialize (Hf e o p); destruct (proxy_fail e o p)
    | |- context [proxy_complete ?r ?p] => specialize (Hc p r); destruct (proxy_complete r p)
    end; simpl in *; intuition congruence.
Qed.

Lemma answers_proxy i j sys tr T key pc since ev :
  answers_inv tr sys -> sys_inv sys -> sessions sys !! i = Some T -> se_run T = None ->
  se_out T !! j = Some (OnProxy key pc since) -> legal pc (sh_now (sh sys) - since) ev ->
  answers_inv (tr ++ event_facts i j (EvProxy ev) T)
    (mkSystem (sh sys) (<[i := proxy_event (sh_now (sh sys)) key pc ev T (delete j (se_out T))]> (sessions sys))).
Proof.
  intros Hans Hinv Hi Hrun Ho Hlegal. pose proof (ai_sessions _ _ Hans _ _ Hi) as Hpl.
  destruct (one_outstanding i j T sys _ Hinv Hi Hrun Ho) as (Hout & -> & Hpo & How & _ & _).
  assert (exists op, UpstreamProxy.live key op pc) as [op Hlive].
  { destruct (si_sessions _ Hinv _ _ Hi) as (h & Hh & _). destruct h; simpl in Hh; rewrite ?Hout in Hh.
    - pose proof (own_places i T sys Hi) as Hown. unfold own in Hown. rewrite Hout in Hown. simpl in Hown. lia.
    - destruct Hh as (_ & o & [= <-] & Hno). by destruct (Hno key pc since).
    - by destruct Hh.
    - by destruct Hh as (_ & key' & pc' & since' & [= <- <- _] & Hl & _). }
  destruct (sp_out _ _ _ Hpl (OnProxy key pc since)) as (req & Hq & Hex & Hkey); [rewrite Hout; left|].
  pose proof (sp_idle _ _ _ Hpl Hrun _ Hq) as Hreq. pose proof (exchange_next req pc ev Hex) as Hex'.
  destruct (pnext_live key op pc _ ev Hlive Hlegal) as (_ & _ & Hcase).
  unfold event_facts, proxy_event. rewrite Ho, Hout. cbn [delete list_delete].
  destruct (pnext pc ev) as [pc' effs]. simpl in *. destruct Hcase as [[_ (r & -> & Hr)]|(_ & _ & -> & _)].
  - specialize (Hr []). unfold expected_of in Hr. destruct Hex as (Hx1 & Hx2 & Hx3).
    rewrite Hx1, Hx2, Hx3 in Hr. rewrite Hx1. subst req.
    assert (pending i (tr ++ [Proxied i (upstream_ (px pc)) (outbound_request (upstream_ (px pc)) (request_ (se_state T))) ev]) =
      pending i tr) as Hsame by (by rewrite pending_app).
    apply (answers_update i T); [done|done|by apply made_by_one|by left| | |].
    + split; simpl; rewrite ?Hpo, ?How; try (intros x Hx; by apply not_elem_of_nil in Hx); [|done].
      intros p [= <-]. rewrite Hsame, Hq. by apply pledge_on_proxy_response.
    + apply (shared_pledged_app i); [by apply made_by_one|done|apply Hans].
    + apply all_replied_app; [apply Hans|done].
  - rewrite app_nil_r. apply (answers_quiet i T); [done|done| |apply Hans].
    split; simpl; rewrite ?Hpo, ?How, ?Hrun; try (intros x Hx; by apply not_elem_of_nil in Hx); [done| |].
    + intros _. apply (sp_idle _ _ _ Hpl Hrun).
    + intros o ->%list_elem_of_singleton. by exists req.
Qed.

(** A request is read. *)
Lemma answers_read i j T sys tr req :
  answers_inv tr sys -> sys_inv sys -> sessions sys !! i = Some T -> se_run T = None -> se_out T !! j = Some OnRead ->
  answers_inv (tr ++ [ReadBy i req])
    (mkSystem (sh sys) (<[i := go (HttpSession.on_read ec_success (set_request req (se_state T))) (set_out (delete j (se_out T)) T)]>
                          (sessions sys))).
Proof.
  intros Hans Hinv Hi Hrun Ho. destruct (one_outstanding i j T sys _ Hinv Hi Hrun Ho) as (Hout & -> & Hpo & How & Hf & Hw).
  assert (pending i (tr ++ [ReadBy i req]) = Some req) as Hq by (rewrite pending_app; simpl; by rewrite decide_True).
  apply (answers_update i T); [done|done|by apply made_by_one|by right| | |].
  - split; simpl; rewrite ?Hpo, ?How, ?Hout; try (intros x Hx; by apply not_elem_of_nil in Hx); [|done].
    intros p [= <-]. rewrite Hq. unfold HttpSession.on_read. simpl. apply pl_now. intros t.
    by apply (pledge_serve_request i _ (set_started t (set_request req (se_state T)))).
  - apply (shared_pledged_app i); [by apply made_by_one|lia|apply Hans].
  - apply all_replied_app; [apply Hans|done].
Qed.

Lemma answers_event i j ev T T' sys tr :
  answers_inv tr sys -> sys_inv sys -> sessions sys !! i = Some T -> se_run T = None ->
  event_legal (sh_now (sh sys)) j ev T -> deliver_to (sh_now (sh sys)) j ev T = Some T' ->
  answers_inv (tr ++ event_facts i j ev T) (mkSystem (sh sys) (<[i := T']> (sessions sys))).
Proof.
  intros Hans Hinv Hi Hrun Hlegal Hd. pose proof (ai_sessions _ _ Hans _ _ Hi) as Hpl.
  assert (forall o p, se_out T !! j = Some o -> pledge i tr (pending i tr) p ->
    answers_inv tr (mkSystem (sh sys) (<[i := go p (set_out (delete j (se_out T)) T)]> (sessions sys)))) as Hplain.
  { intros o p Ho Hp. destruct (one_outstanding i j T sys _ Hinv Hi Hrun Ho) as (Hout & -> & _).
    apply (answers_quiet i T); [done|done| |apply Hans]. rewrite Hout.
    eapply pledged_goes; [exact Hpl|done|done| |done|by left]. intros o' Ho'. by apply not_elem_of_nil in Ho'. }
  destruct ev as [error req|error|ev|]; unfold deliver_to, event_legal in *.
  - destruct (se_out T !! j) as [[| |]|] eqn:Ho; try done. injection Hd as <-.
    destruct (is_error error) eqn:He.
    + assert (event_facts i j (EvRead error req) T = []) as -> by (by destruct error). rewrite app_nil_r.
      apply (Hplain _ _ eq_refl). rewrite (sp_out _ _ _ Hpl OnRead) by (by eapply list_elem_of_lookup_2).
      by apply pledge_on_read_error.
    + destruct error; try done. unfold event_facts. rewrite Ho. by apply answers_read.
  - destruct (se_out T !! j) as [[|close|]|] eqn:Ho; try done. injection Hd as <-.
    rewrite app_nil_r. apply (Hplain _ _ eq_refl). rewrite (sp_out _ _ _ Hpl (OnWrite close)) by (by eapply list_elem_of_lookup_2).
    apply pledge_on_write.
  - destruct (se_out T !! j) as [[| |key pc since]|] eqn:Ho; try done. injection Hd as <-. by eapply answers_proxy.
  - assert (match se_posted T with r :: rs => Some (go (on_posted r (se_state T)) (set_posted rs T)) | [] => None end = Some T')
      as Hd' by (by destruct (se_out T !! j) as [[| |]|]). rewrite app_nil_r.
    destruct (se_posted T) as [|r rs] eqn:Hp; [done|]. injection Hd' as <-.
    destruct (sp_posted _ _ _ Hpl r) as (req & Hq & Hs & Hr); [rewrite Hp; left|].
    pose proof (sp_idle _ _ _ Hpl Hrun _ Hq) as Hreq. subst req. apply (answers_quiet i T); [done|done| |apply Hans].
    eapply pledged_goes; [exact Hpl|done| |by left| |by left].
    + rewrite Hq. by apply pledge_on_posted.
    + simpl. intros r' Hr'. rewrite Hp. by right.
Qed.

Lemma answers_accept sys tr :
  answers_inv tr sys -> answers_inv tr (mkSystem (sh sys) (sessions sys ++ [new_session])).
Proof.
  intros [H1 H2 H3 H4]. split; simpl; [|done| |done].
  - intros i T [HT|[Hge HT]]%lookup_app_Some; [by apply H1|]. apply list_lookup_singleton_Some in HT as [_ <-].
    assert (pending i tr = None) as Hn by (apply pending_unknown; intros f Hf; specialize (H3 f Hf); lia).
    split; simpl; rewrite ?Hn; try (intros x Hx; by apply not_elem_of_nil in Hx); [|done].
    intros p [= <-]. apply pledge_do_read.
  - intros f Hf. rewrite length_app. specialize (H3 f Hf). lia.
Qed.

Lemma answers_fresh sys options :
  fresh sys -> (0 <= capacity options)%Z -> ResponseCache_new options = Ok (sh_cache (sh sys)) -> answers_inv [] sys.
Proof.
  intros (Hs & Hf & _) Hcap Hc. split.
  - intros i T. by rewrite Hs.
  - destruct (cache_run_new options _ [] Hcap Hc) as (Hok & _ & Hcon & _). simpl in *. split; [|done|].
    + intros key ws w. by rewrite Hf, lookup_empty.
    + rewrite Hcon. intros key r e Hin. by apply not_elem_of_nil in Hin.
  - intros f Hin. by apply not_elem_of_nil in Hin.
  - intros [|? ?] i r tr2; done.
Qed.

Lemma answers_traced sys0 sys tr options :
  fresh sys0 -> (0 <= capacity options)%Z -> ResponseCache_new options = Ok (sh_cache (sh sys0)) ->
  traced sys0 sys tr -> answers_inv tr sys.
Proof.
  intros Hf Hcap Hc Htr.
  assert (forall sys tr, traced sys0 sys tr -> sys_inv sys) as Hinv.
  { intros sys1 tr1 H1%traced_steps. apply sys_inv_reachable. by exists sys0. }
  induction Htr as [|i sys sys' tr Htr IH Hop|i j ev T T' sys tr Htr IH HT Hrun Hl Hd|sys tr Htr IH|t sys tr Htr IH Ht|index h log w sys tr Htr IH Hs].
  - by eapply answers_fresh.
  - apply answers_run; [done|by eapply Hinv|done].
  - apply answers_event; [done|by eapply Hinv|done..].
  - by apply answers_accept.
  - destruct IH as [H1 H2 H3 H4]. split; [done| |done|done]. by apply (shared_pledged_same tr (sh sys)).
  - destruct IH as [H1 H2 H3 H4]. split; [done| |done|done]. by apply (shared_pledged_same tr (sh sys)).
Qed.
End steps.

(** ** Lemmas: the keys and the contents of the cache *)

Section caching.
Context {F : Type} `{!Beast F}.
Implicit Types (req : request F) (r : Beast.response F) (tr : list (fact F)) (p : prog F).

(** The key that the next operation of a handler looks up, stores or coalesces under. *)
Definition key_used (p : prog F) : option string :=
  match p with
  | CacheGet key _ | CachePut key _ _ | JoinOrStart key _ | CompleteFlight key _ => Some key
  | _ => None
  end.

Lemma pledge_key i tr q p key :
  pledge i tr q p -> key_used p = Some key ->
  exists req, q = Some req /\ shareable req = true /\ req_target req = key /\ upstream_target key.
Proof.
  intros Hp. destruct Hp as [| | | | |tr req k Hs Ht Hk|tr req r k Hs Hr Hk| |tr req k Hs Ht Hk|tr req k Hs Ht Hk| | | | | |];
    try done; intros [= <-]; exists req; (split; [done|]); (split; [done|]); (split; [done|]); try done.
  by destruct Hr as (_ & _ & _ & _ & _ & _ & _ & ?).
Qed.

Lemma shareable_spec req :
  shareable req = true <-> req_method req = verb_get /\ fields_find field.authorization (req_fields req) = None.
Proof. unfold shareable. by rewrite andb_true_iff, !bool_decide_eq_true. Qed.

Lemma failure_not_ok `{!BeastLaws F} e (sent : request F) : res_result (failure_response e sent) <> 200%Z.
Proof.
  unfold failure_response, make_gateway_timeout_response, make_bad_gateway_response.
  destruct e; by rewrite make_response_status.
Qed.

(** What may be in the cache came from an exchange that succeeded. *)
Lemma cache_answer_exchange `{!BeastLaws F} tr key r :
  cache_answer tr key r -> exists j req u received,
  ReadBy j req ∈ tr /\ shareable req = true /\ req_target req = key /\ upstream_target key /\
  Proxied j u (outbound_request u req) (UpstreamProxy.EvRead ec_success received) ∈ tr /\
  r = relayed_response (req_version req) (req_keep_alive req) received /\ cacheable_response r = true.
Proof.
  intros (j & req & Hin & Hs & Ht & (u & ev & Hp & He) & Hc & Hup).
  pose proof (proj1 (proj1 (cacheable_response_spec r) Hc)) as H200.
  assert (exists received, ev = UpstreamProxy.EvRead ec_success received) as [received ->].
  { destruct ev as [e|e|e|e received]; simpl in He; destruct (is_error e) eqn:Hie; try done;
      try (injection He as <-; by destruct (failure_not_ok e (outbound_request u req))).
    destruct e; try done. by exists received. }
  simpl in He. injection He as <-. by exists j, req, u, received.
Qed.
End caching.

(** ** Recorded runs that can be evaluated *)

Section commands.
Context {F : Type} `{!Beast F}.
Implicit Types (sys : system F) (tr : list (fact F)).

Definition command_facts (c : command F) sys : list (fact F) :=
  match c with
  | CRun i => run_facts i sys
  | CEvent i ev => match sessions sys !! i with Some T => event_facts i 0 ev T | None => [] end
  | CAccept | CClock _ => []
  end.

Fixpoint record (cs : list (command F)) sys tr : option (system F * list (fact F)) :=
  match cs with
  | [] => Some (sys, tr)
  | c :: cs' => sys' ← command_step c sys; record cs' sys' (tr ++ command_facts c sys)
  end.

Lemma command_step_traced sys0 c sys sys' tr :
  traced sys0 sys tr -> command_step c sys = Some sys' -> traced sys0 sys' (tr ++ command_facts c sys).
Proof.
  intros Htr Hc. destruct c as [i|i ev| |t]; cbn [command_step command_facts] in *; rewrite ?app_nil_r.
  - by eapply traced_run.
  - destruct (sessions sys !! i) as [T|] eqn:HT; [|done]. simpl in Hc. case_bool_decide as Hn; [done|].
    case_decide as Hl; [|done]. destruct (deliver_to (sh_now (sh sys)) 0 ev T) as [T'|] eqn:Hd; [|done].
    simpl in Hc. injection Hc as <-. apply (traced_event sys0 i 0 ev T); try done. destruct (se_run T); [destruct Hn; by eexists|done].
  - injection Hc as <-. by apply traced_accept.
  - case_decide; [|done]. injection Hc as <-. by apply traced_clock.
Qed.

Lemma record_traced sys0 cs sys tr sys' tr' :
  traced sys0 sys tr -> record cs sys tr = Some (sys', tr') -> traced sys0 sys' tr'.
Proof.
  revert sys tr. induction cs as [|c cs IH]; intros sys tr Htr Hr; simpl in Hr; [by simplify_eq|].
  destruct (command_step c sys) as [sys1|] eqn:Hc; [|done]. simpl in Hr.
  eapply IH; [|exact Hr]. by apply command_step_traced.
Qed.
End commands.

(** ** The theorem *)

(** C1.  Every answer belongs to its request.  Take any run of a server that starts with an
    empty cache, and any response [r] that a session writes in it.  The session has read a
    request [req] before, has read no other and written nothing since, and [r] is one of:
    the program's own answer to [req] (health, metrics, a method that is not allowed, no
    healthy upstream); the outcome of its own exchange with an upstream for this very
    reading of [req], adapted to [req]; or, only if [req] is a GET without credentials, the
    outcome that a flight had, or the cache holds, for another such request with the same
    target, adapted to [req].  What the cache holds are upstream responses that may be
    stored.  So a client never gets a response meant for another target, nor one that an
    upstream gave for a request with credentials or of another method. *)
Theorem answers_belong {F : Type} `{!Beast F} (sys0 sys : system F) options tr tr1 i r tr2 :
  fresh sys0 -> (0 <= capacity options)%Z -> ResponseCache_new options = Ok (sh_cache (sh sys0)) ->
  traced sys0 sys tr -> tr = tr1 ++ Wrote i r :: tr2 ->
  exists req, replies tr1 i req r.
Proof.
  intros Hf Hcap Hc Htr Heq. apply (ai_wrote _ _ (answers_traced _ _ _ _ Hf Hcap Hc Htr) _ _ _ _ Heq).
Qed.

(** Two clients: the first asks [req], the second for the same target; the upstream answers
    the first with [received], and the response goes to both. *)
Definition both_answered (req : request RefFields.t) (received : Beast.response RefFields.t) : list (command RefFields.t) :=
  [CAccept; CAccept; CRun 0; CRun 0; CRun 0; CRun 1; CRun 1; CRun 1;
   CEvent 0 (EvRead ec_success req); CEvent 1 (EvRead ec_success (get_request "/a"))] ++
  replicate 13 (CRun 0) ++ replicate 8 (CRun 1) ++
  [CEvent 0 (EvProxy (EvResolved ec_success)); CEvent 0 (EvProxy (EvConnected ec_success));
   CEvent 0 (EvProxy (UpstreamProxy.EvWritten ec_success));
   CEvent 0 (EvProxy (UpstreamProxy.EvRead ec_success received))] ++
  replicate 9 (CRun 0) ++ [CEvent 1 EvPosted] ++ replicate 5 (CRun 1).

Definition recorded (cs : list (command RefFields.t)) : system RefFields.t * list (fact RefFields.t) :=
  default (start_system, []) (record cs start_system []).

Lemma recorded_traced cs : traced start_system (recorded cs).1 (recorded cs).2.
Proof.
  unfold recorded. destruct (record cs start_system []) as [[sys tr]|] eqn:Hr; [|apply traced_start].
  eapply record_traced; [apply traced_start|exact Hr].
Qed.

Definition both_recorded : system RefFields.t * list (fact RefFields.t) :=
  recorded (both_answered (get_request "/a") (mkResponse 200 11 [("Server", "x")] "hello")).

Lemma answers_belong_witness : exists r req,
  both_recorded.2 = take 4 both_recorded.2 ++ Wrote 1 r :: [] /\ res_body r = "hello" /\
  replies (take 4 both_recorded.2) 1 req r.
Proof.
  assert (exists r, both_recorded.2 = take 4 both_recorded.2 ++ Wrote 1 r :: [] /\ res_body r = "hello") as (r & Htr & Hb)
    by (eexists; vm_compute; split; reflexivity).
  destruct (answers_belong start_system both_recorded.1 default_cache_options both_recorded.2 (take 4 both_recorded.2) 1 r []) as [req Hreq].
  - split; [reflexivity|split; reflexivity].
  - vm_compute. discriminate.
  - reflexivity.
  - apply recorded_traced.
  - exact Htr.
  - exists r, req. split; [exact Htr|]. split; [exact Hb|exact Hreq].
Defined.

(** C18.  The caching policy, over every run of a server that starts with an empty cache.
    (1) Each entry of the cache is the response that an upstream has given to a GET without
    [Authorization] for the target it is stored under, which is neither [/health] nor
    [/metrics]: the message as the proxy relays it (its hop-by-hop fields removed, its
    version and persistence those of that request), with status 200, no [Set-Cookie], and
    neither [no-store] nor [private], in lower case, in the value of its first
    [Cache-Control] field.  (2) A handler looks up, stores, joins or completes only under
    the target of its own session's request, which is such a GET.  (3) The response of a
    flight's leader is stored when its status is 200, it has no [Set-Cookie] and none of
    its [Cache-Control] fields has one of the directives in any letter case.  (Between (1)
    and (3) the code matches the directives as they are spelt, in the first field only.) *)
Theorem caching_policy {F : Type} `{!Beast F} (Hbeast : BeastLaws F) (sys0 sys : system F) options tr :
  fresh sys0 -> (0 <= capacity options)%Z -> ResponseCache_new options = Ok (sh_cache (sh sys0)) ->
  traced sys0 sys tr ->
  (forall key r e, (key, (r, e)) ∈ contents (sh_cache (sh sys)) -> exists j req u received,
     ReadBy j req ∈ tr /\ req_method req = verb_get /\ fields_find field.authorization (req_fields req) = None /\
     req_target req = key /\ key <> "/health" /\ key <> "/metrics" /\
     Proxied j u (outbound_request u req) (UpstreamProxy.EvRead ec_success received) ∈ tr /\
     r = relayed_response (req_version req) (req_keep_alive req) received /\
     res_result received = 200%Z /\ fields_find field.set_cookie (res_fields r) = None /\
     forall directive, directive = "no-store" \/ directive = "private" ->
       ~ exists a b, fields_at field.cache_control (res_fields r) = (a +:+ directive +:+ b)) /\
  (forall i p key, sessions sys !! i ≫= se_run = Some p -> key_used p = Some key -> exists req,
     pending i tr = Some req /\ req_method req = verb_get /\ fields_find field.authorization (req_fields req) = None /\
     req_target req = key /\ key <> "/health" /\ key <> "/metrics") /\
  (forall key resp (s : HttpSession F) os f, path (on_proxy_response (Some key) resp s) os f ->
     res_result resp = 200%Z -> fields_find field.set_cookie (res_fields resp) = None ->
     (forall directive e, directive ∈ ["no-store"; "private"] -> e ∈ fields_named field.cache_control (res_fields resp) ->
        ~ exists a b, str_lower e.2 = (a +:+ directive +:+ b)) ->
     (key, resp) ∈ stored os).
Proof.
  intros Hf Hcap Hc Htr. pose proof (answers_traced _ _ _ _ Hf Hcap Hc Htr) as Hans. split; [|split].
  - intros key r e Hin.
    destruct (cache_answer_exchange tr key r (sd_cache _ _ (ai_shared _ _ Hans) key r e Hin))
      as (j & req & u & received & Hr & [Hg Ha]%shareable_spec & Ht & [Hh Hm] & Hp & -> & (H200 & Hsc & Hcc)%cacheable_response_spec).
    exists j, req, u, received. destruct (relayed_rest (req_version req) (req_keep_alive req) received) as (<- & _). done.
  - intros i p key Hrun Hkey. destruct (sessions sys !! i) as [T|] eqn:HT; [|done].
    destruct (pledge_key i tr _ p key (sp_run _ _ _ (ai_sessions _ _ Hans i T HT) p Hrun) Hkey)
      as (req & Hq & [Hg Ha]%shareable_spec & Ht & Hh & Hm). by exists req.
  - intros key resp s os f Hpath H200 Hsc Hcc.
    apply (proj1 (proj2 (session_caching s os f)) (Some key) resp Hpath key resp). do 4 (split; [done|]).
    intros d [-> | ->]; (apply no_directive; [done|done|]); intros e; apply Hcc; [left|right; left].
Qed.

Lemma caching_policy_witness : exists r e req u received,
  (("/a", (r, e)) ∈ contents (sh_cache (sh both_recorded.1))) /\ req_target req = "/a" /\
  Proxied 0 u (outbound_request u req) (UpstreamProxy.EvRead ec_success received) ∈ both_recorded.2 /\
  r = relayed_response (req_version req) (req_keep_alive req) received.
Proof.
  assert (exists r e, contents (sh_cache (sh both_recorded.1)) = [("/a", (r, e))]) as (r & e & Hcon)
    by (eexists _, _; vm_compute; reflexivity).
  assert (("/a", (r, e)) ∈ contents (sh_cache (sh both_recorded.1))) as Hin by (rewrite Hcon; left).
  destruct (proj1 (caching_policy RefFields.laws start_system both_recorded.1 default_cache_options both_recorded.2
    ltac:(split; [reflexivity|split; reflexivity]) ltac:(vm_compute; discriminate) eq_refl (recorded_traced _)) "/a" r e Hin)
    as (j & req & u & received & _ & _ & _ & Ht & _ & _ & Hp & Hr & _).
  exists r, e, req, u, received. split; [exact Hin|]. split; [exact Ht|]. split; [|exact Hr].
  assert (Forall (fun f => match f with Proxied i _ _ _ => i = 0 | _ => True end) both_recorded.2) as Hall
    by (vm_compute; repeat constructor).
  rewrite Forall_forall in Hall. pose proof (Hall _ Hp) as Hj. simpl in Hj. rewrite Hj in Hp. exact Hp.
Defined.

(** Only the target is compared: when the first client asks for a part of it, the second
    one, which has asked for all of it, gets that part. *)
Definition ranged_request : request RefFields.t :=
  mkRequest verb_get "/a" 11 [("Host", "client.example"); ("Range", "bytes=0-3")] "".

Lemma partial_response_shared : exists r,
  last (recorded (both_answered ranged_request (mkResponse 206 11 [("Content-Range", "bytes 0-3/5")] "hell"))).2 = Some (Wrote 1 r) /\
  res_result r = 206%Z /\ res_body r = "hell".
Proof. eexists. split; [vm_compute; reflexivity|split; reflexivity]. Qed.
