(* ===== verification/Conformance.v ===== *)
(** * The repository's tests, on the model

    The tests under [src/tests] whose outcome does not depend on the timing of threads,
    evaluated with the definitions of this library: each example has the name of the
    test, makes the same calls and states the expectations of the test.  They are no
    properties of their own; they check that the definitions behave as the code is
    tested to behave.

    - [response_cache_test.cpp], [upstream_pool_test.cpp], [request_coalescer_test.cpp],
      [http_handler_test.cpp], [metrics_test.cpp]: the classes by themselves;
    - [reverse_proxy_integration_test.cpp]: connections to a running server ([System]),
      driven by a small scheduler ([settle], [request_in], [upstream_sends]).  What a
      session writes is read off its handler just before the write is started. *)

From stdpp Require Import base strings numbers gmap list.
From S2P Require Import Prelude CppString ResponseCache RequestCoalescer UpstreamPool Beast HttpHandler Metrics HealthMonitor.
From S2P Require Import UpstreamProxy HttpSession System SystemRuns.

(** ** The response cache *)

Definition millis (n : Z) : Z := (n * 1000000)%Z.

Definition gets (ops : list (cache_op string)) (capacity ttl : Z) : result (list (option string)) :=
  let* c := ResponseCache_new (mkCacheOptions capacity ttl) in Ok (cache_results ops c).

Example ReturnsStoredResponseAndMissesUnknownKey :
  gets [OpPut "A" "one" 0; OpGet "A" 0; OpGet "A" 0; OpGet "missing" 0] 3 1000 = Ok [Some "one"; Some "one"; None].
Proof. vm_compute. reflexivity. Qed.

Example EvictsLeastRecentlyUsedEntry :
  gets [OpPut "A" "A" 0; OpPut "B" "B" 0; OpPut "C" "C" 0; OpGet "A" 0; OpPut "D" "D" 0;
        OpGet "A" 0; OpGet "B" 0; OpGet "C" 0; OpGet "D" 0] 3 1000 =
  Ok [Some "A"; Some "A"; None; Some "C"; Some "D"].
Proof. vm_compute. reflexivity. Qed.

Example UpdatesRefreshValueRecencyAndTtl :
  gets [OpPut "A" "old" 0; OpPut "B" "B" 0; OpPut "A" "new" 0; OpPut "C" "C" 0; OpGet "A" 0; OpGet "B" 0] 2 1000 =
  Ok [Some "new"; None].
Proof. vm_compute. reflexivity. Qed.

Example RemovesExpiredEntries :
  (let* c := ResponseCache_new (mkCacheOptions 2 20) in
   let c := cache_put "A" "A" 0 c in
   let (r, c) := cache_get "A" (millis 40) c in Ok (r, cache_size c)) = Ok (None, 0%Z).
Proof. vm_compute. reflexivity. Qed.

(** ** The upstream pool *)

Definition three_endpoints : list UpstreamEndpoint :=
  [mkEndpoint "backend-a" 9001; mkEndpoint "backend-b" 9002; mkEndpoint "backend-c" 9003].

Definition hosts (n : nat) (p : UpstreamPool) : list (option string) := option_map host <$> (select_n n p).1.

Example CyclesInRoundRobinOrder :
  (let* p := UpstreamPool_new three_endpoints in Ok (hosts 6 p)) =
  Ok (Some <$> ["backend-a"; "backend-b"; "backend-c"; "backend-a"; "backend-b"; "backend-c"]).
Proof. vm_compute. reflexivity. Qed.

Example SingleEndpointIsAlwaysSelected :
  (let* p := UpstreamPool_new [mkEndpoint "backend-only" 9001] in Ok (select_n 10 p).1) =
  Ok (replicate 10 (Some (mkEndpoint "backend-only" 9001))).
Proof. vm_compute. reflexivity. Qed.

Example SkipsUnhealthyEndpointsAndAllowsRecovery :
  (let* p := UpstreamPool_new three_endpoints in
   let* r := set_healthy 1 false p in let first := hosts 4 r.2 in
   let* r := set_healthy 1 true (select_n 4 r.2).2 in Ok (first, hosts 3 r.2)) =
  Ok (Some <$> ["backend-a"; "backend-c"; "backend-a"; "backend-c"], Some <$> ["backend-a"; "backend-b"; "backend-c"]).
Proof. vm_compute. reflexivity. Qed.

Example ReportsNoEndpointWhenAllAreUnhealthy :
  (let* p := UpstreamPool_new (take 2 three_endpoints) in
   let* r := set_healthy 0 false p in let* r := set_healthy 1 false r.2 in Ok (select r.2).1) = Ok None.
Proof. vm_compute. reflexivity. Qed.

(** ** The request coalescer *)

Example FirstCallerLeadsAndSecondCallerWaits :
  let (outs, c) := coal_run [Join "/live" 0; Join "/live" 1] (mkCoalescer ∅) in
  (outs, coalescer_size c) = ([Joined "/live" 0 leader; Joined "/live" 1 waiter], 1).
Proof. vm_compute. reflexivity. Qed.

Example DifferentKeysHaveIndependentLeaders :
  let (outs, c) := coal_run [Join "/live/a" 0; Join "/live/b" 1] (mkCoalescer ∅) in
  (outs, coalescer_size c) = ([Joined "/live/a" 0 leader; Joined "/live/b" 1 leader], 2).
Proof. vm_compute. reflexivity. Qed.

Example CompletionDeliversEveryWaiterOnceAndReleasesFlight :
  let (outs, c) := coal_run [Join "/live" 0; Join "/live" 1; Join "/live" 2; Complete "/live"] (mkCoalescer ∅) in
  (last outs, coalescer_size c, (join_or_start "/live" 3 c).1) = (Some (Completed "/live" (Some [1; 2])), 0, leader).
Proof. vm_compute. reflexivity. Qed.

(** ** Local responses *)

Definition test_request (method : verb) (target : string) (keep_alive : bool) : request RefFields.t :=
  mkRequest method target 11 (set_keep_alive_impl 11 keep_alive []) "".

Example HealthEndpointReturnsExpectedJson :
  let r := handle_request (test_request verb_get "/health" true) in
  (res_result r, fields_find field.content_type (res_fields r), res_body r, res_keep_alive r) =
  (200%Z, Some "application/json", health_body, true).
Proof. vm_compute. reflexivity. Qed.

Example UnsupportedMethodReturnsMethodNotAllowed :
  let r := handle_request (test_request (verb_other 1) "/health" true) in
  (res_result r, fields_find field.allow (res_fields r)) = (405%Z, Some "GET").
Proof. vm_compute. reflexivity. Qed.

Example IdentifiesOnlyHealthAsALocalRoute :
  is_health_request (test_request verb_get "/health" true) = true /\
  is_health_request (test_request verb_get "/live/game/42" true) = false.
Proof. split; vm_compute; reflexivity. Qed.

Example PreservesConnectionCloseRequest :
  res_keep_alive (handle_request (test_request verb_get "/health" false)) = false.
Proof. vm_compute. reflexivity. Qed.

(** ** The metrics *)

Definition test_pool : UpstreamPool :=
  mkPool ((fun e => mkBackend e true) <$> [mkEndpoint "127.0.0.1" 9001; mkEndpoint "127.0.0.1" 9002]) 0.

(** Which of the texts the exposition contains after some calls. *)
Definition rendered (ops : list metric_op) (needles : list string) : result (list bool) :=
  let* m := MetricsRegistry_new test_pool in
  let* text := render (metrics_run ops m) test_pool in Ok ((fun n => sv_contains n text) <$> needles).

Example StartsAtZeroAndRendersPrometheusText :
  rendered [] ["eventedge_requests_total 0"; series "eventedge_upstream_healthy" "upstream" "127.0.0.1:9001" +:+ " 1"] =
  Ok [true; true].
Proof. vm_compute. reflexivity. Qed.

Example ConcurrentCountersAndGaugeAreExact :
  rendered (mjoin (replicate 100 [MEvent Request; MEvent ProxyStarted; MProxyCompleted]))
    ["eventedge_requests_total 100"; "eventedge_proxy_in_flight 0"] = Ok [true; true].
Proof. vm_compute. reflexivity. Qed.

Example RecordsCountersSelectionsAndDurations :
  rendered [MEvent CacheMiss; MEvent CacheHit; MEvent CoalescingLeader; MEvent CoalescingWaiter;
            MSelection "127.0.0.1:9002"; MStatus 504; MDuration (millis 10)]
    ["eventedge_cache_hits_total 1"; "eventedge_gateway_timeout_total 1";
     series "eventedge_upstream_selections_total" "upstream" "127.0.0.1:9002" +:+ " 1";
     "eventedge_request_duration_seconds_count 1"] = Ok [true; true; true; true].
Proof. vm_compute. reflexivity. Qed.

(** ** Connections to a running server *)

(** A response as the clients of the tests look at it: session, status and body. *)
Abbreviation seen := (nat * Z * string)%type.
Abbreviation server := (system RefFields.t).

(** Session [i] runs its handler to the end; the responses it starts to write. *)
Fixpoint settle (fuel : nat) (i : nat) (sys : server) : list seen * server :=
  match fuel with
  | O => ([], sys)
  | S fuel =>
      let now_written :=
        match run_of sys i with Some (Lib (LAsyncWrite r _) _) => [(i, res_result r, res_body r)] | _ => [] end in
      match run_op i sys with
      | Some sys' => let (later, sys'') := settle fuel i sys' in (now_written ++ later, sys'')
      | None => ([], sys)
      end
  end.

Inductive action :=
| Connect                                                           (* a client connects *)
| Sends (i : nat) (req : request RefFields.t)                        (* ... and sends a request *)
| Upstream (i : nat) (evs : list (UpstreamProxy.completion RefFields.t))   (* the proxy of a session gets these *)
| Delivered (i : nat)                                               (* a posted response runs *)
| Sent (i : nat)                                                    (* a write is complete *)
| Sleep (t : Z).                                                    (* the time is [t] *)

(** A command that is not possible leaves the server as it is. *)
Definition then_settle (c : command RefFields.t) (i : nat) (st : list seen * server) : list seen * server :=
  let (w, sys) := settle 40 i (default st.2 (command_step c st.2)) in (st.1 ++ w, sys).

Definition act (st : list seen * server) (a : action) : list seen * server :=
  match a with
  | Connect => then_settle CAccept (length (sessions st.2)) st
  | Sends i req => then_settle (CEvent i (EvRead ec_success req)) i st
  | Upstream i evs => foldl (fun st ev => then_settle (CEvent i (EvProxy ev)) i st) st evs
  | Delivered i => then_settle (CEvent i EvPosted) i st
  | Sent i => then_settle (CEvent i (EvWritten ec_success)) i st
  | Sleep t => then_settle (CClock t) 0 st
  end.

Definition plays (actions : list action) (sys : server) : list seen * server := foldl act ([], sys) actions.

(** An upstream that answers, and one that refuses the connection. *)
Definition answers_with (body : string) : list (UpstreamProxy.completion RefFields.t) :=
  [EvResolved ec_success; EvConnected ec_success; UpstreamProxy.EvWritten ec_success;
   UpstreamProxy.EvRead ec_success (mkResponse 200 11 [] body)].

Definition refuses : list (UpstreamProxy.completion RefFields.t) := [EvResolved ec_success; EvConnected (ec_other 111)].

(** The upstreams that have a request outstanding, with the session it is for. *)
Definition busy (sys : server) : list (nat * string) :=
  mjoin (imap (fun i T => omap (fun o =>
    match o with OnProxy _ pc _ => Some (i, host (upstream_ (px pc))) | _ => None end) (se_out T)) (sessions sys)).

Definition server_of (hosts : list string) : server := started_sys ((fun h => mkEndpoint h 9001) <$> hosts).

Definition burst (n : nat) (target : string) : list action :=
  replicate n Connect ++ ((fun i => Sends i (get_request target)) <$> seq 0 n).

Example CoalescedBurstConsumesOneRoundRobinSelection :
  let first := plays (burst 8 "/same") (server_of ["backend-a"; "backend-b"]) in
  let last := plays (burst 8 "/same" ++ [Upstream 0 (answers_with "from a")] ++ (Delivered <$> seq 1 7) ++
    [Connect; Sends 8 (get_request "/different")]) (server_of ["backend-a"; "backend-b"]) in
  first.1 = [] /\ busy first.2 = [(0, "backend-a")] /\ waiter_count "/same" (sh_coalescer (sh first.2)) = 7 /\
  last.1 = ((fun i => (i, 200%Z, "from a")) <$> seq 0 8) /\ busy last.2 = [(8, "backend-b")].
Proof. vm_compute. repeat split. Qed.

Example CoalescesColdMissesAndCreatesNewFlightAfterTtl :
  let target := "/live/game/42" in
  let first := burst 4 target ++ [Upstream 0 (answers_with "one")] ++ (Delivered <$> seq 1 3) in
  let cached := plays (first ++ [Connect; Sends 4 (get_request target)]) (server_of ["upstream"]) in
  let expired := plays (first ++ [Connect; Sleep (millis 2100); Sends 4 (get_request target)]) (server_of ["upstream"]) in
  cached.1 = ((fun i => (i, 200%Z, "one")) <$> seq 0 5) /\ busy cached.2 = [] /\
  expired.1 = ((fun i => (i, 200%Z, "one")) <$> seq 0 4) /\ busy expired.2 = [(4, "upstream")].
Proof. vm_compute. repeat split. Qed.

Example PostAndAuthorizationRequestsBypassCoalescing :
  let authorized := mkRequest verb_get "/private" 11 [(field.authorization, "Bearer token")] "" in
  let post := mkRequest (verb_other 1) "/same" 11 [] "body" in
  busy (plays (replicate 4 Connect ++ [Sends 0 post; Sends 1 post; Sends 2 authorized; Sends 3 authorized])
    (server_of ["upstream"])).2 = [(0, "upstream"); (1, "upstream"); (2, "upstream"); (3, "upstream")].
Proof. vm_compute. reflexivity. Qed.

Example DeadBackendReturnsBadGatewayAndRotationContinues :
  (plays [Connect; Sends 0 (get_request "/health"); Sent 0;
          Sends 0 (get_request "/first"); Upstream 0 (answers_with "from a"); Sent 0;
          Sends 0 (get_request "/second"); Upstream 0 refuses; Sent 0;
          Sends 0 (get_request "/third"); Upstream 0 (answers_with "from b")] (server_of ["backend-a"; "dead"; "backend-b"])).1 =
  [(0, 200%Z, health_body); (0, 200%Z, "from a"); (0, 502%Z, "Bad Gateway" +:+ newline); (0, 200%Z, "from b")].
Proof. vm_compute. reflexivity. Qed.

Example ReturnsServiceUnavailableWhenNoBackendIsHealthy :
  let down := mkPool [mkBackend (mkEndpoint "backend" 9001) false] 0 in
  let sys := mkSystem (with_pool down (sh (server_of ["backend"]))) [] in
  (plays [Connect; Sends 0 (get_request "/unavailable"); Sent 0; Sends 0 (get_request "/health")] sys).1 =
  [(0, 503%Z, "Service Unavailable" +:+ newline); (0, 200%Z, health_body)].
Proof. vm_compute. reflexivity. Qed.
