(* ===== verification/Main.v ===== *)
(** * Starting the program

    [main] of [src/main.cpp]: the arguments, the order in which the parts are made, the
    exit codes.  What happens from the moment the workers start is [Program].

    What is not under the repository is a parameter: [make_address] and [print_address]
    (Boost.Asio's addresses), [hardware_concurrency], and the answers of the operating
    system to the calls on the listening socket.

    - [main_setup]: the [try] block up to the point where the workers start, any
      exception of which ends the program with code 1;
    - [main], [exit_code]: the whole up to there, with the usage check, and the exit code
      where it is settled by then; [Program] has the other ways in which [main] returns. *)

From stdpp Require Import base strings numbers list.
From S2P Require Import Prelude ResponseCache RequestCoalescer CppString Beast UpstreamPool HttpHandler HopByHop Config Metrics HealthMonitor HttpServer.

#[local] Open Scope Z_scope.

Section main.
Context {Address R : Type} (make_address : string -> result Address) (print_address : Address -> string)
  (hardware_concurrency : Z) (answers : acceptor_call -> Z).

(** The parts as they are when the workers start. *)
Record startup := mkStartup {
  su_address : Address;
  su_port : Z;
  su_workers : Z;
  su_pool : UpstreamPool;
  su_cache : ResponseCache R;
  su_coalescer : RequestCoalescer nat;
  su_metrics : MetricsRegistry;
  su_server : HttpServer;
  su_monitor : Monitor;
}.

(** [argv[i]]; the callers stay below [argc]. *)
Definition argument (argv : list string) (i : nat) : string := default "" (argv !! i).

Definition main_setup (argv : list string) : result startup :=
  let argc := length argv in
  let* address := make_address (if (argc =? 1)%nat then "127.0.0.1" else argument argv 1) in
  let* port := if (argc =? 1)%nat then Ok 8080 else parse_port (argument argv 2) in
  let* worker_count := if (argc =? 1)%nat then Ok (default_worker_count hardware_concurrency)
                       else parse_worker_count (argument argv 3) in
  let* upstreams := if (argc =? 1)%nat then Ok [mkEndpoint "127.0.0.1" 9000]
                    else result_map parse_upstream (drop 4 argv) in
  let* pool := UpstreamPool_new upstreams in
  let* cache := ResponseCache_new default_cache_options in
  let* metrics := MetricsRegistry_new pool in
  let* server := (HttpServer_new answers pool (Some metrics)).2 in
  Ok (mkStartup address port worker_count pool cache (mkCoalescer ∅) metrics server
        (Monitor_new default_health_options)).

Inductive main_outcome :=
| Usage
| FailedToStart (e : cpp_exception)
| Ran (su : startup) (announcement : string).

(** The line written before the workers start. *)
Definition announce (argv : list string) (su : startup) : string :=
  "EventEdge listening on " +:+ print_address (su_address su) +:+ ":" +:+ to_string (su_port su) +:+
  ", proxying to " +:+ to_string (if (length argv =? 1)%nat then 1 else Z.of_nat (length argv) - 4) +:+ " upstream(s)" +:+
  " with " +:+ to_string (su_workers su) +:+ " worker(s)" +:+ newline.

Definition main (argv : list string) : main_outcome :=
  let argc := length argv in
  if negb (argc =? 1)%nat && (argc <? 5)%nat then Usage
  else
    match main_setup argv with
    | Ok su => Ran su (announce argv su)
    | Throw e => FailedToStart e
    end.

(** What [main] returns when it gets no further than this. *)
Definition exit_code (o : main_outcome) : option Z :=
  match o with
  | Usage => Some 1
  | FailedToStart _ => Some 1
  | Ran _ _ => None
  end.

(** The listening socket could be set up. *)
Definition listening : Prop := forall c, answers c = 0.

(** One of the calls on it failed, the ones before it did not, and this is its error. *)
Definition listening_fails (e : cpp_exception) : Prop := exists calls1 c calls2,
  [AcOpen; AcReuseAddress; AcBind; AcListen] = calls1 ++ c :: calls2 /\ (forall c', c' ∈ calls1 -> answers c' = 0) /\
  answers c <> 0 /\ e = system_error (answers c) (operation_name c).

(** ** Lemmas *)

Lemma pool_new_endpoints es :
  es <> [] -> UpstreamPool_new es = Ok (mkPool ((fun e => mkBackend e true) <$> es) 0).
Proof. by destruct es. Qed.

Lemma server_new_listening pool m : listening -> (HttpServer_new answers pool (Some m)).2 = Ok (mkServer true m).
Proof. intros Hl. unfold HttpServer_new. by rewrite acceptor_setup_ok. Qed.

Lemma server_new_not pool m s : (HttpServer_new answers pool (Some m)).2 = Ok s -> listening /\ s = mkServer true m.
Proof.
  unfold HttpServer_new, acceptor_setup, throw_if_error. simpl.
  destruct (answers AcOpen =? 0) eqn:H1; simpl; [|done].
  destruct (answers AcReuseAddress =? 0) eqn:H2; simpl; [|done].
  destruct (answers AcBind =? 0) eqn:H3; simpl; [|done].
  destruct (answers AcListen =? 0) eqn:H4; simpl; [|done].
  intros [= <-]. reflect_bools. split; [by intros []|done].
Qed.

(** The parts of a program started with the arguments [argv]. *)
Definition started_with (address : Address) (port workers : Z) (es : list UpstreamEndpoint) : startup :=
  let pool := mkPool ((fun e => mkBackend e true) <$> es) 0 in
  let m := mkMetrics (fun _ => 0) ((fun e => mkUpstreamMetrics (endpoint_label e) 0) <$> es) in
  mkStartup address port workers pool (mkCache default_cache_options [] ∅ 0) (mkCoalescer ∅) m
    (mkServer true m) (Monitor_new default_health_options).

Lemma setup_parts es :
  es <> [] ->
  exists pool cache m, UpstreamPool_new es = Ok pool /\ ResponseCache_new (R := R) default_cache_options = Ok cache /\
    MetricsRegistry_new pool = Ok m /\
    forall a p w, started_with a p w es =
      mkStartup a p w pool cache (mkCoalescer ∅) m (mkServer true m) (Monitor_new default_health_options).
Proof.
  intros Hne. eexists _, _, _. split; [by apply pool_new_endpoints|]. split; [reflexivity|].
  split; [apply MetricsRegistry_new_ok|]. intros a p w. unfold started_with. simpl.
  by rewrite <- list_fmap_compose.
Qed.

(** The four things read from the command line decide what is started. *)
Lemma setup_tail a p w es :
  es <> [] ->
  (let* pool := UpstreamPool_new es in
   let* cache := ResponseCache_new default_cache_options in
   let* metrics := MetricsRegistry_new pool in
   let* server := (HttpServer_new answers pool (Some metrics)).2 in
   Ok (mkStartup a p w pool cache (mkCoalescer ∅) metrics server (Monitor_new default_health_options))) =
  match (acceptor_setup answers [AcOpen; AcReuseAddress; AcBind; AcListen]).2 with
  | Ok _ => Ok (started_with a p w es)
  | Throw e => Throw e
  end.
Proof.
  intros Hne. destruct (setup_parts es Hne) as (pool & cache & m & -> & -> & Hm & Hst).
  cbn [result_bind]. rewrite Hm. cbn [result_bind]. unfold HttpServer_new. rewrite Hst.
  destruct (acceptor_setup answers _) as [made [[]|e]]; done.
Qed.
End main.

Section setup.
Context {Address R : Type} (make_address : string -> result Address) (print_address : Address -> string)
  (hardware_concurrency : Z) (answers : acceptor_call -> Z).

#[local] Abbreviation run_main := (main (R := R) make_address print_address hardware_concurrency answers).
#[local] Abbreviation setup_calls := [AcOpen; AcReuseAddress; AcBind; AcListen].

Lemma listening_setup : listening answers <-> (acceptor_setup answers setup_calls).2 = Ok tt.
Proof.
  split; [intros Hl; by rewrite acceptor_setup_ok|].
  intros Hs. apply (server_new_not answers (mkPool [] 0) zero_metrics (mkServer true zero_metrics)).
  unfold HttpServer_new. destruct (acceptor_setup answers setup_calls) as [made r]. simpl in Hs. by rewrite Hs.
Qed.

Lemma listening_fails_setup e : listening_fails answers e -> (acceptor_setup answers setup_calls).2 = Throw e.
Proof. intros (calls1 & c & calls2 & -> & Hall & Hc & ->). by rewrite acceptor_setup_fail. Qed.

(** Without arguments. *)
Lemma main_default_error argv e :
  length argv = 1%nat ->
  make_address "127.0.0.1" = Throw e \/ (exists a, make_address "127.0.0.1" = Ok a /\ listening_fails answers e) ->
  run_main argv = FailedToStart e.
Proof.
  intros Hlen Hfail. unfold main, main_setup. rewrite Hlen. cbn [Nat.eqb negb andb].
  destruct Hfail as [->|(a & -> & Hl%listening_fails_setup)]; [done|].
  cbn [result_bind]. rewrite setup_tail by done. by rewrite Hl.
Qed.

Lemma main_default argv a :
  length argv = 1%nat -> make_address "127.0.0.1" = Ok a -> listening answers ->
  run_main argv = Ran (started_with a 8080 (Z.max 1 hardware_concurrency) [mkEndpoint "127.0.0.1" 9000])
    ("EventEdge listening on " +:+ print_address a +:+ ":8080, proxying to 1 upstream(s) with " +:+
     to_string (Z.max 1 hardware_concurrency) +:+ " worker(s)" +:+ newline).
Proof.
  intros Hlen Ha Hl. unfold main, main_setup, announce. rewrite Hlen. cbn [Nat.eqb negb andb]. rewrite Ha.
  cbn [result_bind]. rewrite setup_tail by done. apply listening_setup in Hl. by rewrite Hl.
Qed.

(** With arguments: what they parse to decides. *)
Lemma main_arguments argv :
  (5 <= length argv)%nat ->
  run_main argv =
  match (let* a := make_address (argument argv 1) in let* p := parse_port (argument argv 2) in
         let* w := parse_worker_count (argument argv 3) in let* es := result_map parse_upstream (drop 4 argv) in
         let* _ := (acceptor_setup answers setup_calls).2 in Ok (started_with a p w es)) with
  | Ok su => Ran su (announce print_address argv su)
  | Throw e => FailedToStart e
  end.
Proof.
  intros Hlen. unfold main, main_setup.
  rewrite (proj2 (Nat.eqb_neq _ _)), (proj2 (Nat.ltb_ge _ _)) by lia. cbn [negb andb].
  destruct (make_address (argument argv 1)) as [a|e]; [|done]. cbn [result_bind].
  destruct (parse_port (argument argv 2)) as [p|e]; [|done]. cbn [result_bind].
  destruct (parse_worker_count (argument argv 3)) as [w|e]; [|done]. cbn [result_bind].
  destruct (result_map parse_upstream (drop 4 argv)) as [es|e] eqn:Hes; [|done]. cbn [result_bind].
  assert (es <> []) as Hne.
  { apply result_map_ok_Forall2, Forall2_length in Hes. rewrite length_drop in Hes. destruct es; [simpl in Hes; lia|done]. }
  rewrite setup_tail by done. by destruct (acceptor_setup answers setup_calls).2 as [[]|e].
Qed.

Lemma announce_pool argv a p w es :
  (5 <= length argv)%nat -> result_map parse_upstream (drop 4 argv) = Ok es ->
  announce print_address argv (started_with (R := R) a p w es) =
  "EventEdge listening on " +:+ print_address a +:+ ":" +:+ to_string p +:+
    ", proxying to " +:+ to_string (pool_size (su_pool (started_with (R := R) a p w es))) +:+ " upstream(s)" +:+
    " with " +:+ to_string w +:+ " worker(s)" +:+ newline.
Proof.
  intros Hlen Hes. apply result_map_ok_Forall2, Forall2_length in Hes. rewrite length_drop in Hes.
  unfold announce. rewrite (proj2 (Nat.eqb_neq _ _)) by lia. unfold pool_size. simpl. rewrite length_fmap, <- Hes.
  do 7 f_equal. lia.
Qed.
End setup.

(** ** Theorems *)

(** C28.  Starting the program, up to the point where the workers are made.  With one to
    three arguments (or without even the program's name) it only prints its usage.  Without
    arguments it listens on 127.0.0.1:8080 with one worker per hardware thread, at least
    one, and one upstream, 127.0.0.1:9000.  With four or more it gets to the workers exactly
    when the address, the port, the worker count and every upstream parse and the listening
    socket can be set up, and then with these values: every upstream once, in order, healthy
    and with its counter at zero, and the announced number of upstreams is the size of the
    pool.  Otherwise it fails with the error of the first thing that fails, in this order:
    the address, the port, the worker count, the first malformed upstream, the first
    failing call on the socket; without arguments, the address or the socket.  The exit code
    is 1 when it prints its usage or fails; when it gets to the workers, it is not settled
    yet. *)
Theorem main_configuration {Address R : Type} (make_address : string -> result Address)
    (print_address : Address -> string) (hardware_concurrency : Z) (answers : acceptor_call -> Z) argv :
  let o := main (R := R) make_address print_address hardware_concurrency answers argv in
  (o = Usage <-> length argv <> 1%nat /\ (length argv < 5)%nat) /\
  (exit_code o = Some 1 <-> o = Usage \/ exists e, o = FailedToStart e) /\
  (length argv = 1%nat ->
     (forall a, make_address "127.0.0.1" = Ok a -> listening answers -> exists text,
        o = Ran (started_with a 8080 (Z.max 1 hardware_concurrency) [mkEndpoint "127.0.0.1" 9000]) text) /\
     (forall e, make_address "127.0.0.1" = Throw e \/
        (exists a, make_address "127.0.0.1" = Ok a /\ listening_fails answers e) -> o = FailedToStart e)) /\
  ((5 <= length argv)%nat -> forall su text, o = Ran su text <->
     exists a p w es, make_address (argument argv 1) = Ok a /\ parse_port (argument argv 2) = Ok p /\
       parse_worker_count (argument argv 3) = Ok w /\
       Forall2 (fun v e => parse_upstream v = Ok e) (drop 4 argv) es /\ listening answers /\
       su = started_with a p w es /\
       text = "EventEdge listening on " +:+ print_address a +:+ ":" +:+ to_string p +:+
         ", proxying to " +:+ to_string (pool_size (su_pool su)) +:+ " upstream(s)" +:+
         " with " +:+ to_string w +:+ " worker(s)" +:+ newline) /\
  ((5 <= length argv)%nat ->
     (forall e, make_address (argument argv 1) = Throw e -> o = FailedToStart e) /\
     (forall a, make_address (argument argv 1) = Ok a ->
        (forall e, parse_port (argument argv 2) = Throw e -> o = FailedToStart e) /\
        (forall p, parse_port (argument argv 2) = Ok p ->
           (forall e, parse_worker_count (argument argv 3) = Throw e -> o = FailedToStart e) /\
           (forall w, parse_worker_count (argument argv 3) = Ok w ->
              (forall vs1 v vs2 es e, drop 4 argv = vs1 ++ v :: vs2 ->
                 Forall2 (fun v e => parse_upstream v = Ok e) vs1 es -> parse_upstream v = Throw e -> o = FailedToStart e) /\
              (forall es e, Forall2 (fun v e => parse_upstream v = Ok e) (drop 4 argv) es ->
                 listening_fails answers e -> o = FailedToStart e))))).
Proof.
  intros o. unfold o. split; [|split; [|split; [|split]]].
  - unfold main. destruct (Nat.eqb_spec (length argv) 1) as [H1|H1]; simpl.
    + destruct (main_setup _ _ _ argv); split; (done || lia).
    + destruct (Nat.ltb_spec (length argv) 5); [split; [done|done]|].
      destruct (main_setup _ _ _ argv); split; (done || lia).
  - destruct (main _ _ _ _ argv); simpl; split; (done || eauto); by intros [|[? ?]].
  - intros Hlen. split; [intros a Ha Hl; eexists; by apply main_default|intros e; by apply main_default_error].
  - intros Hlen su text. rewrite main_arguments by done. setoid_rewrite <- result_map_ok_Forall2.
    setoid_rewrite listening_setup. split.
    + destruct (make_address (argument argv 1)) as [a|]; cbn [result_bind]; [|done].
      destruct (parse_port (argument argv 2)) as [p|]; cbn [result_bind]; [|done].
      destruct (parse_worker_count (argument argv 3)) as [w|]; cbn [result_bind]; [|done].
      destruct (result_map parse_upstream (drop 4 argv)) as [es|] eqn:Hes; cbn [result_bind]; [|done].
      destruct (acceptor_setup answers _).2 as [[]|] eqn:Hl; cbn [result_bind]; [|done].
      intros [= <- <-]. exists a, p, w, es. do 6 (split; [done|]). by apply announce_pool.
    + intros (a & p & w & es & Ha & Hp & Hw & Hes & Hl & -> & ->).
      rewrite Ha, Hp, Hw, Hes, Hl. cbn [result_bind]. f_equal. by apply announce_pool.
  - intros Hlen. rewrite main_arguments by done. split; [by intros e ->|]. intros a ->. cbn [result_bind].
    split; [by intros e ->|]. intros p ->. cbn [result_bind]. split; [by intros e ->|]. intros w ->. cbn [result_bind].
    split.
    + intros vs1 v vs2 es e Hd Hvs Hv. apply result_map_ok_Forall2 in Hvs.
      by rewrite Hd, (result_map_throw _ _ _ _ _ _ Hvs Hv).
    + intros es e Hes Hl%listening_fails_setup. apply result_map_ok_Forall2 in Hes. by rewrite Hes, Hl.
Qed.

Lemma main_configuration_witness :
  let o := main (R := unit) (fun s => Ok s) (fun s => s) 4 (fun _ => 0)
    ["eventedge"; "0.0.0.0"; "8080"; "2"; "a:9001"; "[::1]:9002"] in
  exists text, o = Ran (started_with "0.0.0.0" 8080 2 [mkEndpoint "a" 9001; mkEndpoint "::1" 9002]) text.
Proof.
  intros o. eexists.
  apply (proj1 (proj2 (proj2 (proj2 (main_configuration (R := unit) (fun s => Ok s) (fun s => s) 4 (fun _ => 0)
    ["eventedge"; "0.0.0.0"; "8080"; "2"; "a:9001"; "[::1]:9002"]))))); [simpl; lia|].
  exists "0.0.0.0", 8080, 2, [mkEndpoint "a" 9001; mkEndpoint "::1" 9002].
  split; [reflexivity|]. split; [reflexivity|]. split; [reflexivity|]. split; [repeat constructor|].
  split; [intros c; reflexivity|]. split; reflexivity.
Defined.
