(* ===== verification/Program.v ===== *)
(** * The running program

    [main] of [src/main.cpp] from the point where everything is made ([Main]): the accept
    loop ([HttpServer]), the health monitor ([HealthMonitor]) and the sessions ([System])
    over the same pool, registry and clock, run by the worker threads of one
    [io_context], until a signal or an exception stops it.

    - [process]: all of them, what is outstanding, the worker threads and the main
      thread.  The monitor's view of the pool, the registry and the clock is that of the
      sessions ([mon_view]).
    - [launch]: the process when the first worker is about to start: an accept and the
      wait for a signal are outstanding, and the monitor's [start] is queued on its
      strand.
    - [worker_body], [spawn_failed]: the text of the worker's lambda and of the loop that
      makes the workers, with their exceptions.  [std::thread]'s constructor may throw;
      when a worker is running by then, the destructor of [workers] calls
      [std::terminate].
    - [pstep]: a step of the main thread or of a worker.  An idle worker takes a handler
      that is ready, unless the context is stopped; the handlers of a session run one
      operation at a time, the others are one step each.  [p_fail] is an exception from
      the library or the allocator, in any handler.  A handler that throws is left where
      it was (that of the monitor or of the accept loop before its first effect), and its
      worker is on the way to the [catch] of its lambda ([WThrew]); until the [catch] has
      stopped the context ([p_caught]) the other workers go on.  [io_context::run] returns
      when the context is stopped or has no work left ([out_of_work]). *)

From stdpp Require Import base relations strings numbers gmap list.
From S2P Require Import Prelude CppString ResponseCache RequestCoalescer UpstreamPool Beast HttpHandler Metrics HealthMonitor.
From S2P Require Import UpstreamProxy HttpSession HttpServer System SystemRuns Config Main.

(** What [io_context::run] does in a worker. *)
Inductive run_outcome :=
| RunReturned
| RunThrew (what : string)             (* a [std::exception] *)
| RunThrewUnknown.

(** The lambda of a worker, after [run]: the lines written to [std::cerr], and whether it
    stops the context. *)
Definition worker_body (o : run_outcome) : list string * bool :=
  match o with
  | RunReturned => ([], false)
  | RunThrew what => (["EventEdge worker error: " +:+ what +:+ newline], true)
  | RunThrewUnknown => (["EventEdge worker error: unknown exception" +:+ newline], true)
  end.

Inductive worker :=
| WIdle                                (* in [run], between two handlers *)
| WSession (i : nat)                   (* running a handler of session [i] *)
| WThrew (e : option string)           (* [run] has thrown: the [what] of a [std::exception], or another exception *)
| WExited.

(** What the lambda catches. *)
Definition thrown (e : option string) : run_outcome :=
  match e with Some what => RunThrew what | None => RunThrewUnknown end.

Definition in_run (k : worker) : bool :=
  match k with WIdle | WSession _ => true | WThrew _ | WExited => false end.

#[export] Instance worker_eq_dec : EqDecision worker.
Proof. solve_decision. Defined.

Inductive main_thread :=
| MSpawning                            (* in the loop that makes the workers *)
| MJoining
| MReturned (code : Z)
| MTerminated.                         (* [std::terminate] was called *)

(** The functions the monitor dispatches to its strand. *)
Inductive dispatched := DStart | DStop.

Definition dispatched_event (d : dispatched) : hm_event := match d with DStart => EvStart | DStop => EvStop end.

Section program.
Context {F : Type} `{!Beast F}.

Record process := mkProcess {
  pr_sys : system F;
  pr_accept : aconf;
  pr_monitor : conf;
  pr_dispatched : list dispatched;     (* queued on the monitor's strand *)
  pr_signal : bool;                    (* the wait for a signal is outstanding *)
  pr_stopped : bool;                   (* the [io_context] was stopped *)
  pr_workers : list worker;
  pr_main : main_thread;
  pr_count : nat;                      (* worker_count *)
  pr_errors : list string;             (* lines of the workers and of [main] on [std::cerr] *)
}.

Definition set_sys (sys : system F) (P : process) : process :=
  mkProcess sys (pr_accept P) (pr_monitor P) (pr_dispatched P) (pr_signal P) (pr_stopped P) (pr_workers P) (pr_main P)
    (pr_count P) (pr_errors P).
Definition set_accept (a : aconf) (P : process) : process :=
  mkProcess (pr_sys P) a (pr_monitor P) (pr_dispatched P) (pr_signal P) (pr_stopped P) (pr_workers P) (pr_main P)
    (pr_count P) (pr_errors P).
Definition set_monitor (s : conf) (P : process) : process :=
  mkProcess (pr_sys P) (pr_accept P) s (pr_dispatched P) (pr_signal P) (pr_stopped P) (pr_workers P) (pr_main P)
    (pr_count P) (pr_errors P).
Definition set_dispatched (ds : list dispatched) (P : process) : process :=
  mkProcess (pr_sys P) (pr_accept P) (pr_monitor P) ds (pr_signal P) (pr_stopped P) (pr_workers P) (pr_main P)
    (pr_count P) (pr_errors P).
Definition set_signal (b : bool) (P : process) : process :=
  mkProcess (pr_sys P) (pr_accept P) (pr_monitor P) (pr_dispatched P) b (pr_stopped P) (pr_workers P) (pr_main P)
    (pr_count P) (pr_errors P).
Definition set_workers (ws : list worker) (P : process) : process :=
  mkProcess (pr_sys P) (pr_accept P) (pr_monitor P) (pr_dispatched P) (pr_signal P) (pr_stopped P) ws (pr_main P)
    (pr_count P) (pr_errors P).
Definition set_main (m : main_thread) (P : process) : process :=
  mkProcess (pr_sys P) (pr_accept P) (pr_monitor P) (pr_dispatched P) (pr_signal P) (pr_stopped P) (pr_workers P) m
    (pr_count P) (pr_errors P).
Definition add_errors (lines : list string) (P : process) : process :=
  mkProcess (pr_sys P) (pr_accept P) (pr_monitor P) (pr_dispatched P) (pr_signal P) (pr_stopped P) (pr_workers P)
    (pr_main P) (pr_count P) (pr_errors P ++ lines).

(** [io_context::stop] *)
Definition io_stop (P : process) : process :=
  mkProcess (pr_sys P) (pr_accept P) (pr_monitor P) (pr_dispatched P) (pr_signal P) true (pr_workers P) (pr_main P)
    (pr_count P) (pr_errors P).

(** The process that [main] launches: [server->run()], [health_monitor->start()] and
    [signals.async_wait]. *)
Definition launch {Address : Type} (su : startup (Address := Address) (R := Beast.response F)) : process :=
  mkProcess
    (mkSystem (mkShared (su_pool su) (su_cache su) (su_coalescer su) (su_metrics su) 0) [])
    (accepting (su_server su))
    (mkConf (su_monitor su) (mkWorld (su_pool su) (Some (su_metrics su)) [] 0) [] [] false 0)
    [DStart] true false [] MSpawning (Z.to_nat (su_workers su)) [].

(** The monitor, looking at the pool, the registry and the clock as they are now. *)
Definition mon_view (P : process) : conf :=
  with_world (world_of (w_log (wld (pr_monitor P))) (sh (pr_sys P))) (pr_monitor P).

(** The monitor has become [s]. *)
Definition monitor_became (s : conf) (P : process) : process :=
  set_monitor s (set_sys (mkSystem (with_verdict (wld s) (sh (pr_sys P))) (sessions (pr_sys P))) P).

(** ** The threads *)

(** The loop that makes the workers cannot make another. *)
Definition spawn_failed (what : string) (P : process) : process :=
  match pr_workers P with
  | [] => set_main (MReturned 1) (add_errors ["EventEdge failed to start: " +:+ what +:+ newline] P)
  | _ :: _ => set_main MTerminated P
  end.

(** The [run] of worker [w] ends. *)
Definition worker_ends (w : nat) (o : run_outcome) (P : process) : process :=
  let (lines, stop) := worker_body o in
  let P := set_workers (<[w := WExited]> (pr_workers P)) (add_errors lines P) in
  if stop then io_stop P else P.

(** The [run] of worker [w] has thrown; the [catch] of its lambda has not run yet. *)
Definition worker_threw (w : nat) (e : option string) (P : process) : process :=
  set_workers (<[w := WThrew e]> (pr_workers P)) P.

(** The accept handler: a session is made and starts to read, in the same handler. *)
Definition run_accept (w : nat) (error : error_code) (P : process) : process :=
  let P' := set_accept (anext (EvAccept error) (pr_accept P)) P in
  if is_error error then P'
  else set_workers (<[w := WSession (length (sessions (pr_sys P)))]> (pr_workers P))
         (set_sys (mkSystem (sh (pr_sys P)) (sessions (pr_sys P) ++ [new_session])) P').

(** The handler of SIGINT and SIGTERM.  The monitor's [stop] runs at once when nothing
    else runs on its strand, and is queued otherwise. *)
Definition on_signal (error : error_code) (at_once : bool) (P : process) : result process :=
  let P := set_signal false P in
  if is_error error then Ok P
  else
    let* P := if at_once then let* s := conf_next (mon_view P) EvStop in Ok (monitor_became s P)
              else Ok (set_dispatched (pr_dispatched P ++ [DStop]) P) in
    Ok (io_stop (set_accept (anext EvClose (pr_accept P)) P)).

(** A worker whose session has finished its handler is idle again. *)
Definition after_handler (i : nat) (sys : system F) : worker :=
  match sessions sys !! i with
  | Some T => if se_run T is Some _ then WSession i else WIdle
  | None => WIdle
  end.

Definition session_quiet (T : sess F) : Prop := se_run T = None /\ se_out T = [] /\ se_posted T = [].

(** No work is left for [io_context::run]. *)
Definition out_of_work (P : process) : Prop :=
  accepts (pr_accept P) = 0 /\ waits (pr_monitor P) = [] /\
  Forall (fun cc => check_outstanding cc = 0) (checks (pr_monitor P)) /\
  pr_dispatched P = [] /\ pr_signal P = false /\ Forall session_quiet (sessions (pr_sys P)).

Definition running (P : process) : Prop := pr_main P = MSpawning \/ pr_main P = MJoining.

Context (what : cpp_exception -> string).

(** An idle worker may take a handler. *)
Definition ready_worker (w : nat) (P : process) : Prop :=
  running P /\ pr_stopped P = false /\ pr_workers P !! w = Some WIdle.

Inductive pstep : process -> process -> Prop :=
(* the main thread *)
| p_spawn P :
    pr_main P = MSpawning -> length (pr_workers P) < pr_count P -> pstep P (set_workers (pr_workers P ++ [WIdle]) P)
| p_spawn_fail e P :
    pr_main P = MSpawning -> length (pr_workers P) < pr_count P -> pstep P (spawn_failed (what e) P)
| p_spawned P : pr_main P = MSpawning -> length (pr_workers P) = pr_count P -> pstep P (set_main MJoining P)
| p_joined P : pr_main P = MJoining -> Forall (fun w => w = WExited) (pr_workers P) -> pstep P (set_main (MReturned 0) P)
(* handlers of the sessions *)
| p_begin w i j ev T T' P :
    ready_worker w P -> sessions (pr_sys P) !! i = Some T -> se_run T = None ->
    event_legal (sh_now (sh (pr_sys P))) j ev T ->
    deliver_to (sh_now (sh (pr_sys P))) j ev T = Some T' ->
    pstep P (set_workers (<[w := if se_run T' is Some _ then WSession i else WIdle]> (pr_workers P))
               (set_sys (mkSystem (sh (pr_sys P)) (<[i := T']> (sessions (pr_sys P)))) P))
| p_run w i sys P :
    running P -> pr_workers P !! w = Some (WSession i) -> run_op i (pr_sys P) = Some sys ->
    pstep P (set_workers (<[w := after_handler i sys]> (pr_workers P)) (set_sys sys P))
| p_throw w i T e P :
    running P -> pr_workers P !! w = Some (WSession i) -> sessions (pr_sys P) !! i = Some T -> se_run T = Some (Raise e) ->
    pstep P (worker_threw w (Some (what e)) P)
(* the other handlers *)
| p_accept w error P :
    ready_worker w P -> alegal (pr_accept P) (EvAccept error) -> pstep P (run_accept w error P)
| p_monitor w ev s P :
    ready_worker w P -> is_completion ev = true -> HealthMonitor.legal (mon_view P) ev ->
    conf_next (mon_view P) ev = Ok s -> pstep P (monitor_became s P)
| p_dispatch w d ds s P :
    ready_worker w P -> pr_dispatched P = d :: ds -> conf_next (mon_view P) (dispatched_event d) = Ok s ->
    pstep P (set_dispatched ds (monitor_became s P))
| p_monitor_throw w ev e P :
    ready_worker w P -> is_completion ev = true -> HealthMonitor.legal (mon_view P) ev ->
    conf_next (mon_view P) ev = Throw e -> pstep P (worker_threw w (Some (what e)) P)
| p_signal w error at_once P P' :
    ready_worker w P -> pr_signal P = true -> on_signal error at_once P = Ok P' -> pstep P P'
(* the end of a worker *)
| p_fail w k e P :
    running P -> pr_workers P !! w = Some k -> in_run k = true -> pstep P (worker_threw w e P)
| p_caught w e P :
    running P -> pr_workers P !! w = Some (WThrew e) -> pstep P (worker_ends w (thrown e) P)
| p_return w P :
    running P -> pr_workers P !! w = Some WIdle -> pr_stopped P = true \/ out_of_work P ->
    pstep P (worker_ends w RunReturned P).

(** A step of a thread, or time passes. *)
Inductive step : process -> process -> Prop :=
| step_thread P P' : pstep P P' -> step P P'
| step_time t P :
    running P -> (sh_now (sh (pr_sys P)) <= t)%Z ->
    step P (set_sys (mkSystem (with_now t (sh (pr_sys P))) (sessions (pr_sys P))) P).
End program.

Arguments process F : clear implicits.

(** ** Lemmas: the parts of a process *)

Section projections.
Context {F : Type} `{!Beast F} (what : cpp_exception -> string).
Implicit Types (P : process F) (sys : system F).

Lemma with_verdict_same log (h : shared F) : with_verdict (world_of log h) h = h.
Proof. by destruct h. Qed.

(** Where the monitor leaves the shared parts: a verdict, or nothing. *)
Lemma monitor_became_sys s ev P :
  conf_next (mon_view P) ev = Ok s -> match ev with EvSelect | EvMetric _ | EvClock _ => False | _ => True end ->
  rtc sstep (pr_sys P) (pr_sys (monitor_became s P)) /\ mon_view (monitor_became s P) = s.
Proof.
  intros Hn Hev. destruct (conf_next_world _ _ _ Hn Hev) as [Hw|(index & healthy & Hs)]; simpl in *.
  - rewrite Hw, with_verdict_same. split; [destruct (pr_sys P); apply rtc_refl|].
    unfold mon_view, monitor_became. simpl. rewrite Hw, with_verdict_same. simpl. unfold with_world.
    destruct s as [m w ws cs sc ex]. simpl in *. by rewrite Hw.
  - split; [eapply rtc_once; by eapply step_health|].
    apply store_verdict_rest in Hs as [Hnow Hm]. unfold mon_view, monitor_became, with_world. simpl.
    destruct s as [m w ws cs sc ex]. simpl in *. destruct w as [p me lo nw]. simpl in *. unfold world_of. simpl. subst nw.
    by destruct Hm as [->| ->].
Qed.

(** What a session does to the pool, the registry and the clock is, for the monitor, a
    selection or a metric. *)
Lemma run_op_view i sys sys' log s :
  run_op i sys = Some sys' ->
  rtc hstep (with_world (world_of log (sh sys)) s) (with_world (world_of log (sh sys')) s).
Proof.
  unfold run_op. destruct (sessions sys !! i) as [T|]; [|done]. simpl. destruct (se_run T) as [p|]; [|done]. simpl.
  destruct p as [s'|e|k|op k|k|key k|key r k|k|key k|key k|w r k|k|c k]; cbn [run_prog]; intros Hop;
    repeat (match type of Hop with (let (_, _) := ?x in _) = _ => destruct x eqn:? end); try done;
    injection Hop as <-; try apply rtc_refl.
  - eapply rtc_once. by exists (EvMetric op).
  - eapply rtc_once. exists EvSelect. split; [done|]. cbn [conf_next]. unfold with_world. simpl. do 2 f_equal.
    unfold world_of. simpl. by destruct (select (sh_pool (sh sys))); simplify_eq/=.
Qed.

Lemma aexec_snoc a evs a' ev : aexec a evs a' -> alegal a' ev -> aexec a (evs ++ [ev]) (anext ev a').
Proof.
  induction 1 as [a|a ev' evs a' Hl _ IH]; intros Hev; simpl; (constructor; [done|]); [constructor|by apply IH].
Qed.
End projections.

(** ** Lemmas: the process [main] launches *)

Section launch.
Context {F : Type} `{!Beast F} {Address : Type} (make_address : string -> result Address)
  (print_address : Address -> string) (hardware_concurrency : Z) (answers : acceptor_call -> Z).

(** A process at its start.  The command line has at most as many arguments as a
    [std::vector] has room for. *)
Definition launched (P : process F) : Prop := exists argv su text,
  main (R := Beast.response F) make_address print_address hardware_concurrency answers argv = Ran su text /\
  (Z.of_nat (length argv) <= max_backends)%Z /\ P = launch su.

Lemma ran_started argv su text :
  main (R := Beast.response F) make_address print_address hardware_concurrency answers argv = Ran su text ->
  exists a p w es, su = started_with a p w es /\ es <> [] /\ (1 <= w)%Z /\ length es <= length argv.
Proof.
  unfold main. destruct (negb _ && _) eqn:Husage; [done|].
  destruct (main_setup _ _ _ argv) as [su'|] eqn:Hs; [|done]. intros [= -> _]. unfold main_setup in Hs.
  destruct (Nat.eqb_spec (length argv) 1) as [Hl|Hl].
  - destruct (make_address _) as [a|]; [|done]. cbn [result_bind] in Hs. rewrite setup_tail in Hs by done.
    destruct (acceptor_setup answers _).2 as [u|]; [|done]. injection Hs as <-.
    eexists a, _, _, _. split; [reflexivity|]. split; [done|]. unfold default_worker_count. split; [lia|]. simpl. lia.
  - simpl in Husage. apply Nat.ltb_ge in Husage.
    destruct (make_address _) as [a|]; [|done]. cbn [result_bind] in Hs.
    destruct (parse_port _) as [p|]; [|done]. cbn [result_bind] in Hs.
    destruct (parse_worker_count _) as [w|] eqn:Hw; [|done]. cbn [result_bind] in Hs.
    destruct (result_map parse_upstream (drop 4 argv)) as [es|] eqn:Hes; [|done]. cbn [result_bind] in Hs.
    apply result_map_ok_Forall2, Forall2_length in Hes. rewrite length_drop in Hes.
    assert (es <> []) as Hne by (destruct es; [simpl in Hes; lia|done]).
    rewrite setup_tail in Hs by done. destruct (acceptor_setup answers _).2 as [u|]; [|done]. injection Hs as <-.
    eexists a, p, w, es. split; [reflexivity|]. split; [done|]. split; [|lia].
    apply parse_worker_count_ok in Hw as (_ & _ & _ & Hw). lia.
Qed.

Context (what : cpp_exception -> string).
Implicit Types (P : process F).

#[local] Abbreviation pstep := (pstep what).
#[local] Abbreviation step := (step what).

(** The three parts of a process, each as its own file describes it, and how their
    states agree. *)
Record parts_inv (sys0 : system F) (pool : UpstreamPool) (m : MetricsRegistry) (P : process F) : Prop := {
  pi_sessions : rtc sstep sys0 (pr_sys P);
  pi_monitor : reachable (fun s => s = conf_new pool (Some m) default_health_options) hstep (mon_view P);
  pi_accepts : exists evs, aexec (accepting (mkServer true m)) evs (pr_accept P) /\
    length (sessions (pr_sys P)) = accepted evs /\ (closed evs = true -> pr_stopped P = true);
  pi_queue : (DStart ∉ tail (pr_dispatched P)) /\ (start_called (pr_monitor P) = true -> DStart ∉ pr_dispatched P);
}.

(** The steps that leave the parts alone. *)
Lemma parts_kept sys0 pool m P P' :
  pr_sys P' = pr_sys P -> pr_accept P' = pr_accept P -> pr_monitor P' = pr_monitor P ->
  pr_dispatched P' = pr_dispatched P -> (pr_stopped P = true -> pr_stopped P' = true) ->
  parts_inv sys0 pool m P -> parts_inv sys0 pool m P'.
Proof.
  intros Hs Ha Hm Hd Hst [H1 H2 (evs & H3 & H4 & H5) H6]. split.
  - by rewrite Hs.
  - unfold mon_view. by rewrite Hs, Hm.
  - exists evs. rewrite Ha, Hs. eauto.
  - by rewrite Hd, Hm.
Qed.

(** A step of the sessions. *)
Lemma parts_sessions sys0 pool m P P' :
  pr_accept P' = pr_accept P -> pr_monitor P' = pr_monitor P -> pr_dispatched P' = pr_dispatched P ->
  pr_stopped P' = pr_stopped P -> length (sessions (pr_sys P')) = length (sessions (pr_sys P)) ->
  sstep (pr_sys P) (pr_sys P') ->
  (forall log s, rtc hstep (with_world (world_of log (sh (pr_sys P))) s) (with_world (world_of log (sh (pr_sys P'))) s)) ->
  parts_inv sys0 pool m P -> parts_inv sys0 pool m P'.
Proof.
  intros Ha Hm Hd Hst Hlen Hs Hv [H1 (s0 & H0 & H2) (evs & H3 & H4 & H5) H6]. split.
  - by eapply rtc_r.
  - exists s0. split; [done|]. etrans; [exact H2|]. unfold mon_view. rewrite Hm. apply Hv.
  - exists evs. rewrite Ha, Hst, Hlen. done.
  - by rewrite Hd, Hm.
Qed.

(** The monitor takes an event. *)
Lemma parts_monitor sys0 pool m P ev s :
  HealthMonitor.legal (mon_view P) ev -> conf_next (mon_view P) ev = Ok s ->
  match ev with EvStop | EvWait _ _ | EvCheck _ _ => True | _ => False end ->
  parts_inv sys0 pool m P -> parts_inv sys0 pool m (monitor_became s P).
Proof.
  intros Hl Hn Hev [H1 H2 (evs & H3 & H4 & H5) H6].
  destruct (monitor_became_sys s ev P Hn) as [Hs Hv]; [by destruct ev|]. split.
  - by etrans.
  - rewrite Hv. eapply reachable_step; [exact H2|]. by exists ev.
  - by exists evs.
  - cbn [pr_monitor monitor_became set_monitor pr_dispatched]. rewrite (start_called_next _ _ _ Hn). by destruct ev.
Qed.

(** [start] runs on the monitor's strand. *)
Lemma parts_start sys0 pool m P s ds :
  pr_dispatched P = DStart :: ds -> conf_next (mon_view P) EvStart = Ok s ->
  parts_inv sys0 pool m P -> parts_inv sys0 pool m (set_dispatched ds (monitor_became s P)).
Proof.
  intros Hd Hn [H1 H2 (evs & H3 & H4 & H5) [Ht Hsc]]. rewrite Hd in Ht, Hsc. simpl in Ht.
  destruct (monitor_became_sys s EvStart P Hn) as [Hs Hv]; [done|]. split.
  - by etrans.
  - change (mon_view (set_dispatched ds (monitor_became s P))) with (mon_view (monitor_became s P)).
    rewrite Hv. eapply reachable_step; [exact H2|]. exists EvStart. split; [|done]. simpl.
    destruct (start_called (pr_monitor P)); [|done]. destruct (Hsc eq_refl). left.
  - by exists evs.
  - simpl. split; [|done]. intros Hin. destruct ds as [|d ds]; [by apply not_elem_of_nil in Hin|].
    apply Ht. by right.
Qed.

Lemma accepted_snoc evs error :
  accepted (evs ++ [EvAccept error]) = accepted evs + (if is_error error then 0 else 1) /\
  closed (evs ++ [EvAccept error]) = closed evs.
Proof.
  unfold accepted, closed. rewrite list.filter_app, length_app, existsb_app. simpl. rewrite orb_false_r. split; [|done].
  f_equal. rewrite filter_cons. case_decide as Hd; [by injection Hd as ->|]. destruct error; done.
Qed.

Lemma parts_accept sys0 pool m P w error :
  alegal (pr_accept P) (EvAccept error) -> parts_inv sys0 pool m P -> parts_inv sys0 pool m (run_accept w error P).
Proof.
  intros Hl [H1 H2 (evs & H3 & H4 & H5) H6]. destruct (accepted_snoc evs error) as [Hacc Hcl].
  pose proof (aexec_snoc _ _ _ _ H3 Hl) as Hex. unfold run_accept. destruct (is_error error) eqn:He; split; try done.
  - exists (evs ++ [EvAccept error]). rewrite Hacc, Hcl. split; [done|]. split; [simpl; lia|done].
  - eapply rtc_r; [exact H1|]. apply step_accept.
  - exists (evs ++ [EvAccept error]). rewrite Hacc, Hcl. split; [done|]. split; [|done].
    simpl. rewrite length_app. simpl. lia.
Qed.

Lemma no_start_snoc ds : (DStart ∉ ds) -> DStart ∉ ds ++ [DStop].
Proof. intros Hds [?|[[=]|?%not_elem_of_nil]%elem_of_cons]%elem_of_app; done. Qed.

Lemma parts_signal sys0 pool m P error at_once P' :
  on_signal error at_once P = Ok P' -> parts_inv sys0 pool m P -> parts_inv sys0 pool m P'.
Proof.
  intros Hs Hinv. unfold on_signal in Hs. destruct (is_error error); [injection Hs as <-; by apply (parts_kept _ _ _ P)|].
  assert (exists P1, P' = io_stop (set_accept (anext EvClose (pr_accept P)) P1) /\ pr_accept P1 = pr_accept P /\
    parts_inv sys0 pool m P1) as (P1 & -> & Ha & Hinv1).
  { destruct at_once.
    - destruct (conf_next (mon_view (set_signal false P)) EvStop) as [s|] eqn:Hn; [|done]. injection Hs as <-.
      eexists. split; [reflexivity|]. split; [done|].
      apply (parts_monitor sys0 pool m (set_signal false P) EvStop s); [done|done|done|]. by apply (parts_kept _ _ _ P).
    - injection Hs as <-. eexists. split; [reflexivity|]. split; [done|]. destruct Hinv as [H1 H2 H3 [H4 H5]].
      split; [done|done|done|]. cbn [pr_dispatched set_dispatched set_signal pr_monitor].
      split; [|intros Hsc; by apply no_start_snoc, H5].
      destruct (pr_dispatched P) as [|d ds]; [by apply not_elem_of_nil|by apply no_start_snoc]. }
  destruct Hinv1 as [H1 H2 (evs & H3 & H4 & _) H6]. split; [done|done| |done].
  exists (evs ++ [EvClose]). split; [rewrite <- Ha; by apply (aexec_snoc _ _ _ EvClose)|]. split; [|done].
  unfold accepted. rewrite list.filter_app, length_app. simpl. simpl in H4. unfold accepted in H4. lia.
Qed.

Lemma worker_ends_same w o P :
  pr_sys (worker_ends w o P) = pr_sys P /\ pr_accept (worker_ends w o P) = pr_accept P /\
  pr_monitor (worker_ends w o P) = pr_monitor P /\ pr_dispatched (worker_ends w o P) = pr_dispatched P /\
  pr_stopped (worker_ends w o P) = pr_stopped P || (worker_body o).2 /\ pr_main (worker_ends w o P) = pr_main P /\
  pr_count (worker_ends w o P) = pr_count P /\ pr_workers (worker_ends w o P) = <[w := WExited]> (pr_workers P).
Proof. destruct o; simpl; rewrite ?orb_false_r, ?orb_true_r; done. Qed.

Lemma parts_ends sys0 pool m w o P : parts_inv sys0 pool m P -> parts_inv sys0 pool m (worker_ends w o P).
Proof.
  destruct (worker_ends_same w o P) as (? & ? & ? & ? & Hst & _). apply parts_kept; try done.
  intros Hs. by rewrite Hst, Hs.
Qed.

Lemma parts_step sys0 pool m P P' : parts_inv sys0 pool m P -> step P P' -> parts_inv sys0 pool m P'.
Proof.
  intros Hinv Hs. destruct Hs as [P P' Hstep|t P Hr Ht]; last first.
  { apply (parts_sessions _ _ _ P); try done; simpl; [by apply step_clock|].
    intros log s. eapply rtc_once. by exists (EvClock t). }
  destruct Hstep as [P Hm Hc|e P Hm Hc|P Hm Hc|P Hm Hall|w i j ev T T' P Hw HT Hr Hl Hd|w i sys P Hr Hw Hop|w i T e P Hr Hw HT Hp
    |w error P Hw Hl|w ev s P Hw Hc Hl Hn|w d ds s P Hw Hd Hn|w ev e P Hw Hc Hl Hn|w error at_once P P' Hw Hs Hn
    |w k o P Hr Hw Hk|w o P Hr Hw|w P Hr Hw Hs].
  - by apply (parts_kept _ _ _ P).
  - unfold spawn_failed. destruct (pr_workers P); by apply (parts_kept _ _ _ P).
  - by apply (parts_kept _ _ _ P).
  - by apply (parts_kept _ _ _ P).
  - apply (parts_sessions _ _ _ P); try done; simpl; [by rewrite length_insert|by eapply step_event].
  - apply (parts_sessions _ _ _ P); try done; simpl; [by apply (run_op_length i)|by apply (step_run i)|].
    intros log s. by apply (run_op_view i).
  - by apply (parts_kept _ _ _ P).
  - by apply parts_accept.
  - apply (parts_monitor _ _ _ _ ev); try done. by destruct ev.
  - destruct d; [by apply parts_start|]. apply (parts_monitor sys0 pool m) in Hn; [|done|done|done].
    destruct Hn as [H1 H2 H3 [H4 H5]]. simpl in H4, H5. rewrite Hd in H4, H5. simpl in H4. split; [done|done|done|]. simpl.
    split; [|done]. intros Hin. destruct ds as [|d ds]; [by apply not_elem_of_nil in Hin|]. apply H4. by right.
  - by apply (parts_kept _ _ _ P).
  - by eapply parts_signal.
  - by apply (parts_kept _ _ _ P).
  - by apply parts_ends.
  - by apply parts_ends.
Qed.

(** ** Lemmas: the threads *)

(** A worker that runs a handler of a session: the session is running it, and no other
    worker is. *)
Definition busy_ok (sys : system F) (ws : list worker) : Prop :=
  (forall w i, ws !! w = Some (WSession i) -> is_Some (run_of sys i)) /\
  (forall w w' i, ws !! w = Some (WSession i) -> ws !! w' = Some (WSession i) -> w = w').

Record threads_inv P : Prop := {
  th_busy : busy_ok (pr_sys P) (pr_workers P);
  th_alive : pr_stopped P = false -> WExited ∉ pr_workers P;
  th_room : length (pr_workers P) <= pr_count P;
  th_main :
    match pr_main P with
    | MSpawning => True
    | MJoining => length (pr_workers P) = pr_count P
    | MReturned code =>
        (code = 0%Z /\ length (pr_workers P) = pr_count P /\ Forall (fun w => w = WExited) (pr_workers P)) \/
        (code = 1%Z /\ pr_workers P = [])
    | MTerminated => 0 < length (pr_workers P) < pr_count P
    end;
}.

Lemma busy_update sys sys' ws w k :
  busy_ok sys ws -> w < length ws ->
  (forall i, k = WSession i -> is_Some (run_of sys' i) /\ forall w', ws !! w' = Some (WSession i) -> w' = w) ->
  (forall w' i, w' <> w -> ws !! w' = Some (WSession i) -> run_of sys' i = run_of sys i) ->
  busy_ok sys' (<[w := k]> ws).
Proof.
  intros [Hb Hd] Hw Hnew Hold. split.
  - intros w' i Hi. destruct (decide (w' = w)) as [->|Hne].
    + rewrite list_lookup_insert_eq in Hi by done. injection Hi as ->. by apply Hnew.
    + rewrite list_lookup_insert_ne in Hi by done. rewrite (Hold w') by done. by apply (Hb w').
  - intros w1 w2 i H1 H2. destruct (decide (w1 = w)) as [->|Hn1], (decide (w2 = w)) as [->|Hn2]; [done|..].
    + rewrite list_lookup_insert_eq in H1 by done. rewrite list_lookup_insert_ne in H2 by done. injection H1 as ->.
      symmetry. by apply (Hnew i).
    + rewrite list_lookup_insert_eq in H2 by done. rewrite list_lookup_insert_ne in H1 by done. injection H2 as ->.
      by apply (Hnew i).
    + rewrite list_lookup_insert_ne in H1, H2 by done. by apply (Hd _ _ i).
Qed.

(** A step of a worker: it takes up, goes on with, or ends a handler. *)
Lemma threads_worker P P' w k0 k :
  threads_inv P -> pr_workers P !! w = Some k0 -> running P -> pr_workers P' = <[w := k]> (pr_workers P) ->
  pr_main P' = pr_main P -> pr_count P' = pr_count P ->
  (pr_stopped P' = false -> pr_stopped P = false /\ k <> WExited) ->
  (forall i, k = WSession i -> is_Some (run_of (pr_sys P') i) /\
     forall w', pr_workers P !! w' = Some (WSession i) -> w' = w) ->
  (forall w' i, w' <> w -> pr_workers P !! w' = Some (WSession i) -> run_of (pr_sys P') i = run_of (pr_sys P) i) ->
  threads_inv P'.
Proof.
  intros [Hb Ha Hroom Hm] Hw Hr Hws Hmain Hcount Hst Hnew Hold. pose proof (lookup_lt_Some _ _ _ Hw) as Hlt. split.
  - rewrite Hws. by apply (busy_update (pr_sys P)).
  - intros Hs. destruct (Hst Hs) as [Hs0 Hk]. rewrite Hws. intros [j Hj]%list_elem_of_lookup_1.
    destruct (decide (j = w)) as [->|Hne]; [rewrite list_lookup_insert_eq in Hj by done; congruence|].
    rewrite list_lookup_insert_ne in Hj by done. apply (Ha Hs0). by eapply list_elem_of_lookup_2.
  - by rewrite Hws, Hcount, length_insert.
  - rewrite Hmain, Hws, Hcount, length_insert. destruct Hr as [Hr|Hr]; rewrite Hr in *; done.
Qed.

(** The steps of a ready worker that leave the handlers of the sessions alone. *)
Lemma threads_same P P' :
  threads_inv P -> pr_workers P' = pr_workers P -> pr_main P' = pr_main P -> pr_count P' = pr_count P ->
  (pr_stopped P' = false -> pr_stopped P = false) -> sessions (pr_sys P') = sessions (pr_sys P) -> threads_inv P'.
Proof.
  intros [Hb Ha Hroom Hm] Hws Hmain Hcount Hst Hs. split; rewrite ?Hws, ?Hmain, ?Hcount; try done.
  - destruct Hb as [Hb Hd]. split; [|done]. intros w i Hw. unfold run_of. rewrite Hs. by apply (Hb w).
  - intros Hst'. apply Ha. by apply Hst.
Qed.

(** An accept is outstanding as long as the context runs. *)
Lemma accepting_runs sys0 pool m P :
  parts_inv sys0 pool m P -> pr_stopped P = false -> accepts (pr_accept P) = 1 /\ acceptor_is_open (srv (pr_accept P)) = true.
Proof.
  intros [_ _ (evs & Hex & _ & Hcl) _] Hst. destruct (closed evs) eqn:Hc; [by rewrite Hcl in Hst|].
  by destruct (aexec_open (accepting (mkServer true m)) _ _ eq_refl eq_refl Hex Hc) as (Ho & Ha & _).
Qed.

Lemma threads_ends w k o P :
  threads_inv P -> pr_workers P !! w = Some k -> running P -> o <> RunReturned \/ pr_stopped P = true ->
  threads_inv (worker_ends w o P).
Proof.
  intros Hinv Hw Hr Ho. destruct (worker_ends_same w o P) as (Hs & _ & _ & _ & Hst & Hm & Hc & Hws).
  apply (threads_worker P _ w k WExited); try done.
  - rewrite Hst. intros [Hst0 Hb]%orb_false_iff. destruct Ho as [Ho|?]; [by destruct o|congruence].
  - by rewrite Hs.
Qed.

Lemma threads_threw w k e P :
  threads_inv P -> pr_workers P !! w = Some k -> running P -> threads_inv (worker_threw w e P).
Proof. intros Hinv Hw Hr. by apply (threads_worker P _ w k (WThrew e)). Qed.

Lemma threads_spawn P : threads_inv P -> pr_main P = MSpawning -> length (pr_workers P) < pr_count P ->
  threads_inv (set_workers (pr_workers P ++ [WIdle]) P).
Proof.
  intros [[Hb Hd] Ha Hroom _] Hm Hc.
  assert (forall w i, (pr_workers P ++ [WIdle]) !! w = Some (WSession i) -> pr_workers P !! w = Some (WSession i)) as Hold
    by (intros w i [?|[_ [_ [=]]%list_lookup_singleton_Some]]%lookup_app_Some; done).
  split; simpl; [split; eauto| |rewrite length_app; simpl; lia|by rewrite Hm].
  intros Hs [?|[[=]|?%not_elem_of_nil]%elem_of_cons]%elem_of_app; [by apply Ha|done].
Qed.

Lemma threads_spawn_failed text P : threads_inv P -> length (pr_workers P) < pr_count P -> threads_inv (spawn_failed text P).
Proof.
  intros [Hb Ha Hroom _] Hc. unfold spawn_failed. destruct (pr_workers P) as [|k ws] eqn:Hws; split; simpl; rewrite ?Hws; try done.
  - by right.
  - simpl in *. lia.
Qed.

Lemma threads_begin w i now j ev T T' P :
  threads_inv P -> ready_worker w P -> sessions (pr_sys P) !! i = Some T -> se_run T = None -> deliver_to now j ev T = Some T' ->
  threads_inv (set_workers (<[w := if se_run T' is Some _ then WSession i else WIdle]> (pr_workers P))
                 (set_sys (mkSystem (sh (pr_sys P)) (<[i := T']> (sessions (pr_sys P)))) P)).
Proof.
  intros Hinv (Hrun & Hst & Hw) HT Hr Hd.
  assert (forall w', pr_workers P !! w' <> Some (WSession i)) as Hfree.
  { intros w' Hw'. destruct (proj1 (th_busy _ Hinv) _ _ Hw') as [p Hp]. unfold run_of in Hp. rewrite HT in Hp. simpl in Hp. congruence. }
  apply (threads_worker P _ w WIdle (if se_run T' is Some _ then WSession i else WIdle)); try done; simpl.
  - intros _. split; [done|]. by destruct (se_run T').
  - intros i' Hi'. rewrite (run_of_insert _ _ _ T) by done. destruct (se_run T'); [|done]. injection Hi' as <-.
    rewrite decide_True by done. split; [done|]. intros w' Hw'. by destruct (Hfree w').
  - intros w' i' Hne Hw'. rewrite (run_of_insert _ _ _ T) by done. rewrite decide_False; [done|]. intros ->. by apply (Hfree w').
Qed.

Lemma threads_run w i sys P :
  threads_inv P -> running P -> pr_workers P !! w = Some (WSession i) -> run_op i (pr_sys P) = Some sys ->
  threads_inv (set_workers (<[w := after_handler i sys]> (pr_workers P)) (set_sys sys P)).
Proof.
  intros Hinv Hr Hw Hop. destruct (run_op_runs i (pr_sys P) sys Hop) as [Hothers _].
  apply (threads_worker P _ w (WSession i) (after_handler i sys)); try done; simpl.
  - intros Hst. split; [done|]. unfold after_handler. by repeat case_match.
  - intros i' Hi'. unfold after_handler in Hi'. unfold run_of.
    destruct (sessions sys !! i) as [T|] eqn:HT; [|done]. destruct (se_run T) eqn:HrT; [|done]. injection Hi' as <-.
    rewrite HT. simpl. rewrite HrT. split; [done|]. intros w' Hw'. by apply (proj2 (th_busy _ Hinv) _ _ i).
  - intros w' i' Hne Hw'. apply Hothers. intros ->. apply Hne. by apply (proj2 (th_busy _ Hinv) _ _ i).
Qed.

Lemma threads_accept w error P : threads_inv P -> ready_worker w P -> threads_inv (run_accept w error P).
Proof.
  intros Hinv (Hrun & Hst & Hw). unfold run_accept. destruct (is_error error); [by apply (threads_same P)|].
  assert (forall w' i, pr_workers P !! w' = Some (WSession i) -> i < length (sessions (pr_sys P))) as Hold.
  { intros w' i Hw'. destruct (proj1 (th_busy _ Hinv) _ _ Hw') as [p Hp]. unfold run_of in Hp.
    destruct (sessions (pr_sys P) !! i) eqn:HT; [by eapply lookup_lt_Some|done]. }
  apply (threads_worker P _ w WIdle (WSession (length (sessions (pr_sys P))))); try done; simpl.
  - intros i [= <-]. unfold run_of. simpl. rewrite lookup_app_r, Nat.sub_diag by done. simpl. split; [done|].
    intros w' Hw'%Hold. lia.
  - intros w' i Hne Hw'. unfold run_of. simpl. rewrite lookup_app_l; [done|]. by eapply Hold.
Qed.

Lemma threads_step sys0 pool m P P' : parts_inv sys0 pool m P -> threads_inv P -> step P P' -> threads_inv P'.
Proof.
  intros Hparts Hinv Hs. destruct Hs as [P P' Hstep|t P Hr Ht]; [|by apply (threads_same P)].
  destruct Hstep as [P Hm Hc|e P Hm Hc|P Hm Hc|P Hm Hall|w i j ev T T' P Hw HT Hr Hl Hd|w i sys P Hr Hw Hop|w i T e P Hr Hw HT Hp
    |w error P Hw Hl|w ev s P Hw Hc Hl Hn|w d ds s P Hw Hd Hn|w ev e P Hw Hc Hl Hn|w error at_once P P' Hw Hs Hn
    |w k o P Hr Hw Hk|w o P Hr Hw|w P Hr Hw Hs].
  - by apply threads_spawn.
  - by apply threads_spawn_failed.
  - destruct Hinv as [Hb Ha Hroom _]. by split.
  - destruct Hinv as [Hb Ha Hroom Hmain]. rewrite Hm in Hmain. split; try done. by left.
  - by eapply threads_begin.
  - by apply threads_run.
  - by apply (threads_threw _ (WSession i)).
  - by apply threads_accept.
  - by apply (threads_same P).
  - by apply (threads_same P).
  - destruct Hw as (Hrun & Hst & Hw). by apply (threads_threw _ WIdle).
  - unfold on_signal in Hn. destruct (is_error error); [injection Hn as <-; by apply (threads_same P)|].
    destruct at_once; [destruct (conf_next _ _) as [s|]; [|done]|]; injection Hn as <-; by apply (threads_same P).
  - by apply (threads_threw _ k).
  - apply (threads_ends _ (WThrew o)); try done. left. by destruct o.
  - apply (threads_ends _ WIdle); try done. destruct Hs as [Hs|(Hacc & _)]; [by right|].
    destruct (pr_stopped P) eqn:Hst; [by right|]. destruct (accepting_runs _ _ _ _ Hparts Hst) as [Hone _]. lia.
Qed.

(** ** Lemmas: every reachable process *)

Record process_inv (es : list UpstreamEndpoint) P : Prop := {
  pv_endpoints : es <> [] /\ (Z.of_nat (length es) <= max_backends)%Z;
  pv_count : 0 < pr_count P;
  pv_parts : parts_inv (started_sys (F := F) es) (sh_pool (sh (started_sys (F := F) es))) (sh_metrics (sh (started_sys (F := F) es))) P;
  pv_threads : threads_inv P;
}.

Lemma launched_inv P : launched P -> exists es, process_inv es P.
Proof.
  intros (argv & su & text & Hran & Hlen & ->). destruct (ran_started _ _ _ Hran) as (a & p & w & es & -> & Hne & Hw & Hes).
  exists es. split; [split; [done|lia]|simpl; lia|split; simpl|split; simpl].
  - apply rtc_refl.
  - eexists. split; [reflexivity|]. apply rtc_refl.
  - exists []. by split; [constructor|].
  - split; [apply not_elem_of_nil|done].
  - split; intros ?; by rewrite lookup_nil.
  - intros _. apply not_elem_of_nil.
  - lia.
  - done.
Qed.

Lemma step_count P P' : step P P' -> pr_count P' = pr_count P.
Proof.
  intros Hs. destruct Hs as [P P' Hstep|t P Hr Ht]; [|done].
  destruct Hstep as [|e P Hm Hc| | | | |w i T e P Hr Hw HT Hp|w error P Hw Hl| | |w ev e P Hw Hc Hl Hn|w error at_once P P' Hw Hs Hn
    |w k o P Hr Hw Hk|w o P Hr Hw|]; try done.
  - unfold spawn_failed. by destruct (pr_workers P).
  - unfold run_accept. by destruct (is_error error).
  - unfold on_signal in Hn. destruct (is_error error); [by injection Hn as <-|].
    destruct at_once; [destruct (conf_next _ _) as [s|]; [|done]|]; by injection Hn as <-.
  - by apply worker_ends_same.
Qed.

Lemma process_inv_run es P P' : process_inv es P -> rtc step P P' -> process_inv es P'.
Proof.
  intros Hinv Hr. induction Hr as [|P P1 P' Hstep _ IH]; [done|]. apply IH. destruct Hinv as [H1 H2 H3 H4].
  split; [done|by rewrite (step_count _ _ Hstep)|by eapply parts_step|by eapply threads_step].
Qed.

Lemma process_inv_reachable P : reachable launched step P -> exists es, process_inv es P.
Proof.
  intros (P0 & H0 & Hr). destruct (launched_inv P0 H0) as [es Hinv]. exists es. by apply (process_inv_run es P0).
Qed.

(** What the invariant says of the sessions and of the monitor. *)
Lemma process_safe es P :
  process_inv es P ->
  safe (pr_sys P) /\ be_endpoint <$> backends_ (sh_pool (sh (pr_sys P))) = es /\ monitor_inv (mon_view P).
Proof.
  intros [[Hne Hlen] _ [H1 H2 _ _] _]. pose proof (started_safe (F := F) es Hne Hlen) as Hs. split; [by eapply safe_reachable|]. split.
  - rewrite (endpoints_reachable _ _ Hs H1). simpl. rewrite <- list_fmap_compose. apply list_fmap_id.
  - revert H2. apply reachable_invariant; [intros s ->; apply conf_new_inv, Hs|].
    intros s s' Hinv (ev & Hl & Hn). destruct (conf_next_inv s ev Hinv Hl) as (s2 & Hn2 & Hinv2). congruence.
Qed.

(** ** Lemmas: after [io_context::stop] *)

(** What a worker still has to do. *)
Inductive load := LExited | LThrew | LIdle | LBusy (p : prog F).

Definition load_of (sys : system F) (k : worker) : load :=
  match k with
  | WExited => LExited
  | WThrew _ => LThrew
  | WIdle => LIdle
  | WSession i => match run_of sys i with Some p => LBusy p | None => LIdle end
  end.

Inductive lighter : load -> load -> Prop :=
| lighter_exit l : l <> LExited -> lighter l LExited
| lighter_threw l : l <> LExited -> l <> LThrew -> lighter l LThrew
| lighter_done s : lighter (LBusy (Ret s)) LIdle
| lighter_child p p' : child p p' -> lighter (LBusy p) (LBusy p').

Lemma lighter_sn l : sn lighter l.
Proof.
  assert (sn lighter LExited) as He by (constructor; intros l' Hl; by inversion Hl).
  assert (sn lighter LThrew) as Ht by (constructor; intros l' Hl; by inversion Hl).
  assert (sn lighter LIdle) as Hi by (constructor; intros l' Hl; by inversion Hl).
  assert (forall p, (forall p', child p p' -> sn lighter (LBusy p')) -> sn lighter (LBusy p)) as Hb.
  { intros p Hp. constructor. intros l' Hl. inversion Hl; subst; [done|done|done|by apply Hp]. }
  destruct l as [| | |p]; [done|done|done|].
  induction p; apply Hb; intros p' Hp; inversion Hp; subst; auto.
Qed.

Definition main_rank P : nat :=
  match pr_main P with
  | MSpawning => 2 + (pr_count P - length (pr_workers P))
  | MJoining => 1
  | MReturned _ | MTerminated => 0
  end.

Definition loads P : list load := load_of (pr_sys P) <$> pr_workers P.

Lemma loads_update P P' w k k' :
  pr_workers P !! w = Some k -> pr_workers P' = <[w := k']> (pr_workers P) ->
  (forall w' i, w' <> w -> pr_workers P !! w' = Some (WSession i) -> run_of (pr_sys P') i = run_of (pr_sys P) i) ->
  lighter (load_of (pr_sys P) k) (load_of (pr_sys P') k') -> list_step lighter (loads P) (loads P').
Proof.
  intros Hw Hws Hold Hl. exists w, (load_of (pr_sys P) k), (load_of (pr_sys P') k').
  unfold loads. rewrite list_lookup_fmap, Hw, Hws. split; [done|]. split; [done|]. rewrite list_fmap_insert.
  apply list_eq. intros w'. destruct (decide (w' = w)) as [->|Hne].
  - rewrite !list_lookup_insert_eq; [done|..]; rewrite length_fmap; by eapply lookup_lt_Some.
  - rewrite !list_lookup_insert_ne, !list_lookup_fmap by done. destruct (pr_workers P !! w') as [[|i| |]|] eqn:Hw'; try done.
    simpl. by rewrite (Hold w' i).
Qed.

Lemma loads_ends w k o P :
  pr_workers P !! w = Some k -> k <> WExited -> list_step lighter (loads P) (loads (worker_ends w o P)).
Proof.
  intros Hw Hk. destruct (worker_ends_same w o P) as (Hs & _ & _ & _ & _ & _ & _ & Hws).
  apply (loads_update P _ w k WExited); try done; [by rewrite Hs|]. simpl. apply lighter_exit.
  destruct k; [done| |done|done]. simpl. by destruct (run_of _ _).
Qed.

Lemma loads_threw w k e P :
  pr_workers P !! w = Some k -> in_run k = true -> list_step lighter (loads P) (loads (worker_threw w e P)).
Proof.
  intros Hw Hk. apply (loads_update P _ w k (WThrew e)); try done. simpl.
  apply lighter_threw; (destruct k; [done| |done|done]; simpl; by destruct (run_of _ _)).
Qed.

Lemma ready_not_stopped w P : pr_stopped P = true -> ~ ready_worker w P.
Proof. intros Hst (_ & Hs & _). congruence. Qed.

(** Once the context is stopped no handler is taken up: every step brings the main
    thread or a worker nearer to its end. *)
Lemma stopped_step P P' :
  threads_inv P -> pr_stopped P = true -> pstep P P' ->
  pr_stopped P' = true /\
  (main_rank P' < main_rank P \/ (main_rank P' = main_rank P /\ list_step lighter (loads P) (loads P'))).
Proof.
  intros Hinv Hst Hstep. destruct Hstep as [P Hm Hc|e P Hm Hc|P Hm Hc|P Hm Hall|w i j ev T T' P Hw HT Hr Hl Hd|w i sys P Hr Hw Hop|w i T e P Hr Hw HT Hp
    |w error P Hw Hl|w ev s P Hw Hc Hl Hn|w d ds s P Hw Hd Hn|w ev e P Hw Hc Hl Hn|w error at_once P P' Hw Hs Hn
    |w k o P Hr Hw Hk|w o P Hr Hw|w P Hr Hw Hs]; try (by destruct (ready_not_stopped w P Hst)).
  - split; [done|]. left. unfold main_rank. simpl. rewrite Hm, length_app. simpl. lia.
  - unfold spawn_failed. unfold main_rank. destruct (pr_workers P); simpl; rewrite Hm; (split; [done|left; lia]).
  - split; [done|]. left. unfold main_rank. simpl. rewrite Hm. lia.
  - split; [done|]. left. unfold main_rank. simpl. rewrite Hm. lia.
  - split; [done|]. right. split; [unfold main_rank; simpl; by rewrite length_insert|].
    destruct (run_op_runs i (pr_sys P) sys Hop) as (Hothers & p & Hp & Hc).
    apply (loads_update P _ w (WSession i) (after_handler i sys)); try done; simpl.
    + intros w' i' Hne Hw'. apply Hothers. intros ->. apply Hne. by apply (proj2 (th_busy _ Hinv) _ _ i).
    + rewrite Hp. unfold after_handler, run_of in *. destruct (sessions sys !! i) as [T|] eqn:HT; simpl in *.
      * destruct (se_run T) eqn:HrT; simpl; [unfold run_of; rewrite HT; simpl; rewrite HrT; by constructor|].
        destruct Hc as [s ->]. constructor.
      * destruct Hc as [s ->]. constructor.
  - split; [done|]. right. split; [unfold main_rank; simpl; by rewrite length_insert|]. by apply (loads_threw w (WSession i)).
  - split; [done|]. right. split; [unfold main_rank; simpl; by rewrite length_insert|]. by apply (loads_threw w k).
  - destruct (worker_ends_same w (thrown o) P) as (_ & _ & _ & _ & Hs & Hm & Hcnt & Hws).
    split; [by rewrite Hs, Hst|]. right. unfold main_rank. rewrite Hm, Hcnt, Hws, length_insert. split; [done|].
    by apply (loads_ends w (WThrew o)).
  - split; [done|]. right. split; [unfold main_rank; simpl; by rewrite length_insert|]. by apply (loads_ends w WIdle RunReturned).
Qed.

Lemma stopped_sn sys0 pool m P :
  parts_inv sys0 pool m P -> threads_inv P -> pr_stopped P = true -> sn pstep P.
Proof.
  remember (main_rank P) as n eqn:Hn. revert P Hn. induction (lt_wf n) as [n _ IHn].
  assert (forall l P, n = main_rank P -> loads P = l -> parts_inv sys0 pool m P -> threads_inv P ->
    pr_stopped P = true -> sn pstep P) as Hl; [|intros P Hn; by apply (Hl (loads P))].
  intros l. induction (list_step_sn lighter l lighter_sn) as [l _ IHl]. intros P Hn Hload Hparts Hinv Hst.
  constructor. intros P' Hstep. destruct (stopped_step P P' Hinv Hst Hstep) as [Hst' Hdec].
  assert (step P P') as Hs by (by constructor).
  assert (parts_inv sys0 pool m P') as Hparts' by (by eapply parts_step).
  assert (threads_inv P') as Hinv' by (by apply (threads_step sys0 pool m P)).
  destruct Hdec as [Hlt|[Heq Hdec]].
  - apply (IHn (main_rank P')); [lia|done..].
  - apply (IHl (loads P')); try done; [|congruence]. by rewrite <- Hload.
Qed.

Lemma stopped_runs P P' i :
  pr_stopped P = true -> pstep P P' -> run_of (pr_sys P') i <> None -> run_of (pr_sys P) i <> None.
Proof.
  intros Hst Hstep. destruct Hstep as [P Hm Hc|e P Hm Hc|P Hm Hc|P Hm Hall|w j k ev T T' P Hw HT Hr Hl Hd|w j sys P Hr Hw Hop|w j T e P Hr Hw HT Hp
    |w error P Hw Hl|w ev s P Hw Hc Hl Hn|w d ds s P Hw Hd Hn|w ev e P Hw Hc Hl Hn|w error at_once P P' Hw Hs Hn
    |w k o P Hr Hw Hk|w o P Hr Hw|w P Hr Hw Hs]; try (by destruct (ready_not_stopped w P Hst)); try done.
  - unfold spawn_failed. by destruct (pr_workers P).
  - simpl. destruct (run_op_runs j (pr_sys P) sys Hop) as (Hothers & p & Hp & _).
    destruct (decide (i = j)) as [->|Hne]; [by rewrite Hp|by rewrite Hothers].
  - by destruct (worker_ends_same w (thrown o) P) as (-> & _).
Qed.

(** ... and some thread can always go on, until the process ends. *)
Lemma stopped_progress P : threads_inv P -> pr_stopped P = true -> running P -> exists P', pstep P P'.
Proof.
  intros [[Hb _] _ Hroom Hm] Hst Hr. pose proof Hr as [Hmain|Hmain]; rewrite Hmain in Hm.
  - destruct (decide (length (pr_workers P) < pr_count P)).
    + eexists. by apply p_spawn.
    + eexists. apply p_spawned; [done|lia].
  - destruct (decide (Forall (fun w => w = WExited) (pr_workers P))) as [Hall|Hsome]; [eexists; by apply p_joined|].
    apply not_Forall_Exists in Hsome; [|apply _]. apply Exists_exists in Hsome as (k & [w Hw]%list_elem_of_lookup_1 & Hk).
    simpl in Hk. destruct k as [|i|e|]; [|destruct (Hb _ _ Hw) as [p Hp]|by eexists; apply (p_caught _ w e)|done].
    + eexists. apply (p_return _ w); [done|done|by left].
    + unfold run_of in Hp. destruct (sessions (pr_sys P) !! i) as [T|] eqn:HT; [|done]. simpl in Hp.
      destruct (run_op i (pr_sys P)) as [sys|] eqn:Hop; [eexists; by apply (p_run _ w i sys)|].
      assert (exists e, p = Raise e) as [e ->].
      { destruct p as [s|e| | | | | | | | | | |]; try (by eauto);
          (destruct (run_op_ready _ _ _ _ HT Hp) as [sys Hs]; [done|congruence]). }
      eexists. by apply (p_throw _ w i T e).
Qed.

(** The two ways in which the context comes to be stopped. *)
Lemma stopping_step P P' :
  (exists w at_once, ready_worker w P /\ pr_signal P = true /\ on_signal ec_success at_once P = Ok P') \/
  (exists w e, running P /\ pr_workers P !! w = Some (WThrew e) /\ P' = worker_ends w (thrown e) P) ->
  pstep P P' /\ pr_stopped P' = true.
Proof.
  intros [(w & at_once & Hw & Hs & Hn)|(w & e & Hr & Hw & ->)].
  - split; [by eapply p_signal|]. unfold on_signal in Hn. cbn [is_error] in Hn.
    destruct at_once; [destruct (conf_next _ _) as [s|]; [|done]|]; by injection Hn as <-.
  - split; [by apply p_caught|]. destruct (worker_ends_same w (thrown e) P) as (_ & _ & _ & _ & -> & _).
    destruct e; apply orb_true_r.
Qed.

(** Joining ends only in [return 0]. *)
Lemma joining_step P P' :
  pstep P P' -> pr_main P = MJoining \/ pr_main P = MReturned 0 -> pr_main P' = MJoining \/ pr_main P' = MReturned 0.
Proof.
  intros Hstep. destruct Hstep as [P Hm Hc|e P Hm Hc|P Hm Hc|P Hm Hall| | | |w error P Hw Hl| | | |w error at_once P P' Hw Hs Hn
    |w k o P Hr Hw Hk|w o P Hr Hw|]; try done.
  - rewrite Hm. by intros [|].
  - rewrite Hm. by intros [|].
  - by right.
  - unfold run_accept. by destruct (is_error error).
  - unfold on_signal in Hn. destruct (is_error error); [by injection Hn as <-|].
    destruct at_once; [destruct (conf_next _ _) as [s|]; [|done]|]; by injection Hn as <-.
  - by destruct (worker_ends_same w (thrown o) P) as (_ & _ & _ & _ & _ & -> & _).
Qed.

Lemma stopped_ends es P P' :
  process_inv es P -> pr_stopped P = true -> rtc pstep P P' ->
  (forall i, run_of (pr_sys P') i <> None -> run_of (pr_sys P) i <> None) /\
  ((~ exists P'', pstep P' P'') ->
     ((exists code, pr_main P' = MReturned code) \/ pr_main P' = MTerminated) /\
     (pr_main P = MJoining -> pr_main P' = MReturned 0)).
Proof.
  intros Hinv Hst Hr.
  assert (pr_main P = MJoining \/ pr_main P = MReturned 0 -> pr_main P' = MJoining \/ pr_main P' = MReturned 0) as Hjoin.
  { clear Hinv Hst. induction Hr as [|P P1 P' Hstep _ IH]; [done|]. intros H. by apply IH, (joining_step P). }
  enough ((forall i, run_of (pr_sys P') i <> None -> run_of (pr_sys P) i <> None) /\
    ((~ exists P'', pstep P' P'') -> (exists code, pr_main P' = MReturned code) \/ pr_main P' = MTerminated)) as [Hruns Hend].
  { split; [done|]. intros Hstuck. specialize (Hend Hstuck). split; [done|]. intros Hm.
    destruct (Hjoin (or_introl Hm)) as [Hm'|?]; [|done]. rewrite Hm' in Hend. by destruct Hend as [[? [=]]|[=]]. }
  clear Hjoin. induction Hr as [P|P P1 P' Hstep _ IH].
  - split; [done|]. intros Hstuck. destruct (pr_main P) as [| |code|] eqn:Hm; [| |by left; eauto|by right];
      (destruct Hstuck; apply stopped_progress; [apply Hinv|done|]); [by left|by right].
  - assert (process_inv es P1) as Hinv1 by (by apply (process_inv_run es P), rtc_once, step_thread).
    destruct (stopped_step P P1 (pv_threads _ _ Hinv) Hst Hstep) as [Hst1 _].
    destruct (IH Hinv1 Hst1) as [Hruns Hend]. split; [|done].
    intros i Hi. eapply stopped_runs; [done|exact Hstep|]. by apply Hruns.
Qed.
End launch.

(** ** Theorems *)

Section theorems.
Context {F : Type} `{!Beast F} {Address : Type} (make_address : string -> result Address)
  (print_address : Address -> string) (hardware_concurrency : Z) (answers : acceptor_call -> Z)
  (what : cpp_exception -> string).
Implicit Types (P : process F).

#[local] Abbreviation starts := (launched (F := F) make_address print_address hardware_concurrency answers).

(** C7.  The parts of the running program are those of the other files.  In every state
    the process can reach, its sessions with the shared pool, cache, coalescer and
    registry are in a state that [System] describes, after a start with an empty cache of
    the default options; the health monitor, looking at the
    same pool, registry and clock, is in a state that [HealthMonitor] describes; and the
    accept loop is in a state that [HttpServer] describes, with exactly one session for
    each accept that succeeded.  So what is proved of each part holds of the program. *)
Theorem process_refines_parts P :
  reachable starts (step what) P ->
  (exists sys0, fresh sys0 /\ ResponseCache_new default_cache_options = Ok (sh_cache (sh sys0)) /\ rtc sstep sys0 (pr_sys P)) /\
  (exists pool m, pool_ok pool /\
     reachable (fun s => s = conf_new pool (Some m) default_health_options) hstep (mon_view P)) /\
  (exists s evs, acceptor_is_open s = true /\ aexec (accepting s) evs (pr_accept P) /\
     length (sessions (pr_sys P)) = accepted evs).
Proof.
  intros [es Hinv]%process_inv_reachable. destruct Hinv as [[Hne Hlen] _ [H1 H2 (evs & H3 & H4 & _) _] _]. split; [|split].
  - eexists. split; [|split; [|exact H1]]; done.
  - eexists _, _. split; [apply (started_safe (F := F) es Hne Hlen)|exact H2].
  - eexists _, evs. split; [|by split]. done.
Qed.

(** C21.  The state is well formed, always: the pool is not empty and its cursor in range,
    its endpoints are the ones the program was started with; the cache's list and map
    correspond; every counter has 64 bits and the registry has one series per backend, in
    the order of the pool; a check without verdict is of a backend of the pool; there are
    at most as many workers as asked for, and a worker that is running a handler of a
    session is the only one to do so. *)
Theorem process_well_formed P0 P :
  starts P0 -> rtc (step what) P0 P ->
  shared_ok (sh (pr_sys P)) /\
  be_endpoint <$> backends_ (sh_pool (sh (pr_sys P))) = be_endpoint <$> backends_ (sh_pool (sh (pr_sys P0))) /\
  (forall cc, cc ∈ HealthMonitor.live (checks (pr_monitor P)) ->
     (0 <= index_ (chk cc) < pool_size (sh_pool (sh (pr_sys P))))%Z) /\
  1 <= pr_count P /\ length (pr_workers P) <= pr_count P /\ busy_ok (pr_sys P) (pr_workers P).
Proof.
  intros H0 Hr. destruct (launched_inv _ _ _ _ _ H0) as [es Hinv0]. pose proof (process_inv_run what es P0 P Hinv0 Hr) as Hinv.
  destruct (process_safe es P0 Hinv0) as (_ & He0 & _). destruct (process_safe es P Hinv) as ([Hok _] & He & Hmon).
  split; [done|]. split; [congruence|]. split; [|by destruct Hinv as [_ Hc _ [Hb _ Hroom _]]].
  intros cc [_ Hin]%list_elem_of_filter. pose proof (mi_checks _ Hmon) as Hc. rewrite Forall_forall in Hc.
  apply (check_ok_index _ _ (Hc cc Hin)).
Qed.

(** C11.  The program throws nothing by itself.  In every state the process can reach no
    handler of a session is about to throw; no completion for the monitor throws, nor do
    the functions queued on its strand; and the signal handler does not throw.  So a
    worker ends with an exception only when the library or the allocator throws. *)
Theorem no_handler_throws P :
  reachable starts (step what) P ->
  (forall i e, run_of (pr_sys P) i <> Some (Raise e)) /\
  (forall ev, HealthMonitor.legal (mon_view P) ev -> exists s, conf_next (mon_view P) ev = Ok s) /\
  (forall d ds, pr_dispatched P = d :: ds -> exists s, conf_next (mon_view P) (dispatched_event d) = Ok s) /\
  (forall error at_once, exists P', on_signal error at_once P = Ok P').
Proof.
  intros [es Hinv]%process_inv_reachable. destruct (process_safe es P Hinv) as ([_ Hnr] & _ & Hmon).
  split; [intros i e Hr; pose proof (Hnr _ _ Hr) as Hn; by inversion Hn|].
  split; [intros ev Hl; destruct (conf_next_inv _ _ Hmon Hl) as (s & Hs & _); eauto|]. split.
  - intros [] ds Hd; [|by eexists]. destruct Hinv as [_ _ [_ _ _ [_ Hq]] _]. rewrite Hd in Hq.
    destruct (conf_next_inv (mon_view P) EvStart Hmon) as (s & Hs & _); [|eauto].
    simpl. destruct (start_called (pr_monitor P)); [|done]. destruct (Hq eq_refl). left.
  - intros error at_once. unfold on_signal. destruct (is_error error); [by eexists|]. destruct at_once; by eexists.
Qed.

(** C12.  A signal ends the program, and so does an exception in a worker.  When the signal
    handler has run without an error, or a worker's lambda has caught what its [run] threw,
    the [io_context] is stopped, and then the program ends, whatever its threads do: no
    session takes up another handler, every run is finite ([sn]), and a run that cannot go
    on has ended with [main] returned or [std::terminate] called, never with a thread left
    waiting.  When the main thread was already joining the workers, it returns 0. *)
Theorem shutdown_terminates P P' :
  reachable starts (step what) P ->
  (exists w at_once, ready_worker w P /\ pr_signal P = true /\ on_signal ec_success at_once P = Ok P') \/
  (exists w e, running P /\ pr_workers P !! w = Some (WThrew e) /\ P' = worker_ends w (thrown e) P) ->
  pr_stopped P' = true /\ sn (pstep what) P' /\
  (forall P'', rtc (pstep what) P' P'' ->
     (forall i, run_of (pr_sys P'') i <> None -> run_of (pr_sys P') i <> None) /\
     ((~ exists P3, pstep what P'' P3) ->
        ((exists code, pr_main P'' = MReturned code) \/ pr_main P'' = MTerminated) /\
        (pr_main P' = MJoining -> pr_main P'' = MReturned 0))).
Proof.
  intros [es Hinv]%process_inv_reachable Hstop.
  destruct (stopping_step what P P' Hstop) as [Hstep Hst].
  assert (process_inv es P') as Hinv' by (by apply (process_inv_run what es P), rtc_once, step_thread).
  split; [done|]. split; [eapply stopped_sn; [apply Hinv'|apply Hinv'|done]|].
  intros P'' Hr. by apply (stopped_ends what es).
Qed.

(** C10.  How long the program runs, and how it ends.  As long as the [io_context] has not
    been stopped, the listening socket is open and an accept is outstanding, so that there
    is always work left, and no worker has returned.  [main] returns 0 only after every
    worker it was asked for was started and has ended, with the [io_context] stopped, and
    1 only when no worker could be started.  When the first worker cannot be started the
    error is reported and the exit code is 1; but when a later one cannot,
    [std::terminate] is called, without the report. *)
Theorem program_lifecycle P :
  reachable starts (step what) P ->
  (pr_stopped P = false ->
     acceptor_is_open (srv (pr_accept P)) = true /\ accepts (pr_accept P) = 1 /\ ~ out_of_work P /\ (WExited ∉ pr_workers P)) /\
  (forall code, pr_main P = MReturned code ->
     (code = 0%Z /\ length (pr_workers P) = pr_count P /\ Forall (fun w => w = WExited) (pr_workers P) /\ pr_stopped P = true) \/
     (code = 1%Z /\ pr_workers P = [])) /\
  (forall e, pr_main P = MSpawning -> length (pr_workers P) < pr_count P -> exists P', pstep what P P' /\
     (pr_workers P = [] -> pr_main P' = MReturned 1 /\
        pr_errors P' = pr_errors P ++ ["EventEdge failed to start: " +:+ what e +:+ newline]) /\
     (pr_workers P <> [] -> pr_main P' = MTerminated /\ pr_errors P' = pr_errors P)).
Proof.
  intros [es Hinv]%process_inv_reachable. destruct Hinv as [_ Hc Hparts [_ Ha _ Hm]]. split; [|split].
  - intros Hst. destruct (accepting_runs _ _ _ _ Hparts Hst) as [Hone Hopen].
    split; [done|]. split; [done|]. split; [intros (H0 & _); lia|]. by apply Ha.
  - intros code Hmain. rewrite Hmain in Hm. destruct Hm as [(-> & Hl & Hall)|?]; [left|by right].
    repeat (split; [done|]). destruct (pr_stopped P) eqn:Hst; [done|]. specialize (Ha eq_refl).
    destruct (pr_workers P) as [|k ws]; [simpl in Hl; lia|]. apply Forall_cons in Hall as [-> _]. destruct Ha. left.
  - intros e Hmain Hroom. eexists. split; [by apply (p_spawn_fail what e)|]. unfold spawn_failed.
    by destruct (pr_workers P).
Qed.
End theorems.

(** ** A run *)

Definition demo_argv : list string := ["eventedge"; "0.0.0.0"; "8080"; "2"; "a:9001"; "[::1]:9002"].

#[local] Abbreviation demo_starts :=
  (launched (F := RefFields.t) (fun s => Ok s) (fun s : string => s) 4 (fun _ => 0%Z)).

Definition demo_process : process RefFields.t :=
  launch (started_with "0.0.0.0" 8080 2 [mkEndpoint "a" 9001; mkEndpoint "::1" 9002]).

Lemma demo_launched : demo_starts demo_process.
Proof. exists demo_argv. eexists _, _. split; [reflexivity|]. split; [vm_compute; congruence|reflexivity]. Qed.

Definition demo_what (e : cpp_exception) : string := "error".

(** One worker is started, which accepts a connection. *)
Definition demo_serving : process RefFields.t :=
  run_accept 0 ec_success (set_workers [WIdle] demo_process).

Lemma demo_serving_reachable : reachable demo_starts (step demo_what) demo_serving.
Proof.
  exists demo_process. split; [apply demo_launched|].
  eapply rtc_l; [apply step_thread, (p_spawn demo_what demo_process); [done|simpl; lia]|].
  eapply rtc_l; [apply step_thread, (p_accept demo_what 0 ec_success); [|simpl; lia]|].
  - split; [by left|done].
  - apply rtc_refl.
Qed.

(** The same worker's [run] throws. *)
Definition demo_threw : process RefFields.t := set_workers [WThrew (Some "bad_alloc")] demo_process.

Lemma demo_threw_reachable : reachable demo_starts (step demo_what) demo_threw.
Proof.
  exists demo_process. split; [apply demo_launched|].
  eapply rtc_l; [apply step_thread, (p_spawn demo_what demo_process); [done|simpl; lia]|].
  eapply rtc_l; [apply step_thread, (p_fail demo_what 0 WIdle (Some "bad_alloc")); [by left|done|done]|]. apply rtc_refl.
Qed.

Lemma process_refines_parts_witness :
  (exists sys0, fresh sys0 /\ ResponseCache_new default_cache_options = Ok (sh_cache (sh sys0)) /\ rtc sstep sys0 (pr_sys demo_serving)) /\
  length (sessions (pr_sys demo_serving)) = 1.
Proof.
  split; [|reflexivity].
  exact (proj1 (process_refines_parts (fun s => Ok s) (fun s => s) 4 (fun _ => 0%Z) demo_what demo_serving demo_serving_reachable)).
Defined.

Lemma process_well_formed_witness :
  pr_workers demo_serving = [WSession 0] /\ busy_ok (pr_sys demo_serving) (pr_workers demo_serving).
Proof.
  split; [reflexivity|]. destruct demo_serving_reachable as (P0 & H0 & Hr).
  exact (proj2 (proj2 (proj2 (proj2 (proj2
    (process_well_formed (fun s => Ok s) (fun s => s) 4 (fun _ => 0%Z) demo_what P0 demo_serving H0 Hr)))))).
Defined.

Lemma no_handler_throws_witness :
  (exists p, run_of (pr_sys demo_serving) 0 = Some p) /\ forall e, run_of (pr_sys demo_serving) 0 <> Some (Raise e).
Proof.
  split; [eexists; reflexivity|]. intros e.
  exact (proj1 (no_handler_throws (fun s => Ok s) (fun s => s) 4 (fun _ => 0%Z) demo_what demo_serving demo_serving_reachable) 0 e).
Defined.

Lemma shutdown_terminates_witness :
  pr_stopped demo_threw = false /\ pr_errors (worker_ends 0 (RunThrew "bad_alloc") demo_threw) <> [] /\
  sn (pstep demo_what) (worker_ends 0 (RunThrew "bad_alloc") demo_threw).
Proof.
  split; [reflexivity|]. split; [discriminate|].
  refine (proj1 (proj2 (shutdown_terminates (fun s => Ok s) (fun s => s) 4 (fun _ => 0%Z) demo_what demo_threw _
    demo_threw_reachable (or_intror _)))).
  exists 0, (Some "bad_alloc"). split; [left; reflexivity|]. split; reflexivity.
Defined.

Lemma program_lifecycle_witness :
  accepts (pr_accept demo_serving) = 1 /\ exists P', pstep demo_what demo_serving P' /\ pr_main P' = MTerminated.
Proof.
  destruct (program_lifecycle (fun s => Ok s) (fun s => s) 4 (fun _ => 0%Z) demo_what demo_serving
    demo_serving_reachable) as (Hserves & _ & Hfail).
  split; [apply (Hserves eq_refl)|].
  destruct (Hfail out_of_range eq_refl ltac:(simpl; lia)) as (P' & Hs & _ & Hlater).
  exists P'. split; [exact Hs|]. apply Hlater. discriminate.
Defined.
